(* ===== verification/_CoqProject ===== *)
-Q . S2P
Prelude.v
PushQueue.v
Questions.v
Activity.v
A2A.v
Translator.v
TranslatorText.v
TranslatorSends.v
TranslatorLedger.v
SessionManager.v
SessionPool.v
SessionId.v
Attachments.v
Envelope.v
Executor.v
ExecutorRuns.v
Cron.v
Routines.v
RoutineRuns.v
Markdown.v
MarkdownSplits.v
Gateway.v
GatewayRuns.v
Supervisor.v
PhoneRegistry.v
PhoneLockout.v
PhonePicker.v
A2AClient.v
PhoneEngine.v
PhoneFrames.v
PhoneTriples.v
PhoneDemo.v
PhonePin.v
PhoneStates.v
PhoneSpeech.v
PhoneCalls.v
PhoneTurns.v
PhoneFindings.v
Json.v
SlackState.v
SlackTables.v
Values.v
Numbers.v
Bytes.v
SlackQuestions.v
SlackTranslate.v
SlackTaps.v
Async.v
AsyncLogic.v
SlackEngine.v
SlackSteady.v
SlackDemo.v
SlackSessions.v
SlackChains.v
SlackMessages.v
SlackText.v
SlackHttp.v
SlackHttpWork.v
SlackSocket.v
Forms.v
PhoneServer.v
TaskStore.v
Journal.v
DiscordState.v
DiscordCard.v
DiscordTranslate.v
DiscordEditor.v
DiscordEdits.v
DiscordEngine.v
DiscordSteady.v
DiscordDemo.v
DiscordRest.v
Toolbelt.v
Roster.v
Egress.v
Doctor.v
SlackApi.v
AgentdServer.v
PhoneAlerts.v
DiscordWork.v
