(* ===== verification/Prelude.v ===== *)
(** * Thicket: agents on a tailnet, and the surfaces that reach them

    Thicket runs Claude Code sessions as A2A agents and puts them in reach of
    Slack, Discord and the telephone. This library models the TypeScript of
    its packages and apps, proves what the parts promise, and records where
    the code and its comments part ways. Paths below are relative to [src/].

    ** The program, and the files that model it

    One agent is a process, [apps/agentd]. A peer's request is let in by its
    tags ([AgentdServer], of [server.ts], [listen.ts] and
    [attachments-cache.ts]) and handed to the executor, [packages/executor]:

    - [Executor] ([executor.ts]) turns an execution into a send of a session,
      and publishes what comes back on the bus of the task. Its state is the
      record [executor]; [execute], [cancelTask] and the pump are cut at their
      awaits, and [ExecutorRuns] plays any interleaving of the pieces.
    - [SessionManager] ([session-manager.ts]) pools the subprocesses.
      Sessions, generations and spawns are objects in stores under their
      identities; each async method is a [_start] and a [_finish]. Facts:
      [SessionPool].
    - [Translator] ([translator.ts]) folds a session's frames into task
      events. A handler is a function on the record [translator], and what it
      does to the open turn a [turn_step]. Facts: [TranslatorText] (what is
      said), [TranslatorSends] (which sends are settled), [TranslatorLedger]
      (cards and accounting).
    - [PushQueue], [Questions], [Activity], [A2A], [SessionId], [Attachments]
      and [Envelope] are the files of those names.

    Beside the executor, agentd keeps standing work and records: [Cron]
    ([cron.ts]), [Routines] ([routines.ts] and its store; facts in
    [RoutineRuns]), [TaskStore] ([store/sqlite-task-store.ts]), [Journal]
    ([store/journal.ts]), and [Toolbelt] ([toolbelt.ts]), the tools a session
    calls, which reach the Slack bridge. They are proved against the bridge's
    surface, the store and the translator at once.

    A bridge is a process per surface. What it knows of an agent is
    [A2AClient] ([packages/a2a-client]) and the roster, [Roster]
    ([packages/roster]).

    - Slack, [apps/slack]: [SlackSocket] ([socket-mode.ts], [socket.ts])
      brings payloads, [SlackTranslate] ([translate.ts]) reads them,
      [SlackEngine] ([engine.ts]) acts on them over the tables of [SlackState]
      ([state.ts]), posting [SlackQuestions] ([questions.ts]) and calling
      [SlackApi] ([slack-api.ts]); [SlackHttp] ([http.ts]) is the surface an
      agent calls. Facts: [SlackTables], [SlackTaps], [SlackSteady],
      [SlackSessions], [SlackChains], [SlackMessages], [SlackText],
      [SlackHttpWork]; [SlackDemo] is a thread to try them on.
    - Discord, [apps/discord]: [Gateway] ([gateway.ts]) and [Supervisor]
      ([supervisor.ts]) keep a connection, [DiscordTranslate] reads what it
      brings, [DiscordEngine] ([engine.ts]) acts over [DiscordState], drawing
      [DiscordCard]s through [DiscordEditor] and calling [DiscordRest]
      ([rest.ts]); [Markdown] ([markdown.ts], of which Slack has a copy)
      splits long answers. Facts: [GatewayRuns], [MarkdownSplits],
      [DiscordEdits], [DiscordSteady], [DiscordWork]; [DiscordDemo] is a
      conversation to try them on.
    - The telephone, [apps/phone]: [PhoneServer] ([server.ts], [signature.ts],
      [codec.ts]) answers Twilio, [PhoneEngine] ([engine.ts]) holds the call,
      [PhonePicker] finds the agent a caller names, [PhoneRegistry]
      ([registry.ts], [state.ts]) remembers calls and lockouts, and
      [PhoneAlerts] ([alerts.ts]) tells of them. Facts: [PhonePin],
      [PhoneStates], [PhoneSpeech], [PhoneCalls], [PhoneTurns],
      [PhoneLockout], on the frames and triples of [PhoneFrames] and
      [PhoneTriples]; [PhoneFindings] shows what its comments do not say, and
      [PhoneDemo] is a bridge to try it all on.

    Whatever has no network of its own goes out through [Egress]
    ([packages/egress]), and an operator asks [Doctor]
    ([apps/cli/src/doctor.ts]) how all of it is doing.

    What the language and its platform give is shared: this file (strings,
    dynamic values, decimal numerals), [Numbers] ([Number(v)] on doubles),
    [Json], [Bytes] (UTF-8 and base 64), [Values], [Forms] (queries and form
    bodies).

    ** How the models are built

    A string is its list of UTF-16 code units. A value received over a wire is
    a [jsval], and where the code reads it through a cast the model says what
    a value of another shape does, a [TypeError] included. A Map or Set that
    is iterated over is a list in its order, one that is not is a [gmap]. A
    table of SQLite is the list of its rows, in the order the code reads them.

    Code that waits is modelled in two ways. The executor, the session pool,
    the routine runner, the Gateway, the supervisor, the phone and the sockets
    are machines: each function is cut where it waits, and a step relation or
    a step function says what may come next. The two engines, Slack's surface,
    its API, Discord's REST and the toolbelt are programs of [Async]: a
    resumption over the component's state, whose requests the world answers in
    any order, with any value and while any other call runs. [AsyncLogic] is
    the program logic for them: a weakest precondition, relative to an
    invariant that holds at every await and to what each call allows of the
    others, sound for all histories. A library's promise is a hypothesis of
    the theorem that needs it; most theorems about programs need none.

    Interfaces between components are classes or records of operations with
    their laws where the code has an interface: the phone's session port has
    two implementations ([PhoneLockout]), and the engine's theorems are about
    any port.

    ** What the theorems show

    - Delivery. A session's sends are settled exactly once, and its text is
      published exactly ([TranslatorSends], [TranslatorText]); executions do
      not hang and events reach their own task ([ExecutorRuns]); an answer on
      its way to Slack is lost only with an error, of the post of what was kept
      back ([SlackText]), a turn on the phone speaks its agent's text
      ([PhoneTurns]); dispatches whose handlers have not ended are replayed,
      while no session dispatch overtakes them ([GatewayRuns]); a long message
      is split without loss ([MarkdownSplits]), and a tunnel takes nothing but
      the proxy's answer off the stream ([Egress]).
    - Authority. Only Twilio moves the phone, though a handshake that is no URL
      ends it ([PhoneServer]), and nothing comes
      before the PIN ([PhonePin]); only operators give work on Discord
      ([DiscordWork]); a peer is who its tag says ([Roster]), acts as itself
      and writes where it asked to, with messages and reactions held to their
      place ([SlackHttpWork]); the words of a conversation stay out of the log,
      but for the line that tells the agent's steps ([SlackApi]).
    - Order and exclusion. One process for each session, and none evicted at
      work ([SessionPool]); turns of a thread in a line ([SlackChains]); no
      routine over itself ([RoutineRuns]); a relay's frames one at a time, each
      once the handlers before it have ended ([PhoneServer]); a session's release is never stranded
      ([SlackSessions]).
    - Storage. What was saved reads back, pages leave nothing out, sweeps are
      all or nothing ([TaskStore], [SlackTables]).
    - Across components. A tap in Slack reaches the agent as the answer
      ([SlackTaps]); a one-shot comes back to the thread it was asked for in,
      and a refusal as redundant is known for one on the other side of the
      wire ([Toolbelt]); a roster is checked for what the bridges rely on, but
      for the words every object has a property for ([Roster]); the doctor's success means that all is well ([Doctor]).
    - Ends and bounds. Calls of Discord end, and the breaker is a window
      ([DiscordRest]); every request of an agent is answered once
      ([SlackHttpWork]); a dead connection is reported ([SlackSocket]).

    Theorems without a claim's number are part of the same story, and several
    of them show a defect by a run that has it.

    ** Fuel and bounds

    [splitMarkdown] takes the length of the text as fuel, and each round takes
    at least one character off it; the search for a cut takes one more than
    the limit, and each round goes on past a newline
    ([MarkdownSplits]); appending to a Discord card or a Slack stream takes
    twice the length of the text ([SlackText] and [DiscordWork] prove it
    enough, whatever runs in between); reading JSON takes twice the length and
    two more, and what was written reads back with it ([Json]); the steps of a
    cron field are bounded by the width of the field ([Cron]); walking all
    pages takes one more than there are tasks ([TaskStore]). The other loops
    are structural.

    ** What is left out, and why

    - Parameters: SHA-1, SHA-256 and HMAC, random identifiers, clocks,
      [toLowerCase] and Unicode's classes, [Date.parse] and local time, URL
      parsing, the SDK's codec of tasks, what the schema library makes of one
      value. A theorem that relies on one says so in a hypothesis.
    - Awaiting an async call that itself awaits nothing is no interruption.
    - JSON's numbers are integers ([DiscordRest] takes documents as the
      world's instead). Doubles are rounded once for each operation in
      [Numbers] and [DiscordRest]; sums of costs are exact. An object's keys
      stay in the order they were put in, also keys that look like integers.
      [replaceAll] has no patterns in its replacement.
    - SQLite's text is UTF-8 in the task store and the journal, and is taken
      as it is in the bridges' tables; SQL, pragmas and migrations are not
      modelled. Log messages are left out, except of
      [SlackApi] and [PhoneAlerts].
    - The telephone's relay port does not reject: what the engine sends is of
      shapes the codec takes, and a socket that is closed drops it
      ([PhoneEngine]).
    - What becomes of bytes on a flowing stream while no listener is there:
      [Egress] says what is taken off and what is put back, and nothing of
      when it is read.
    - Not modelled: process wiring, configuration and its schemas,
      provisioning and the CLI's other commands (files, processes and calls of
      services, with next to no state), the MCP and live-test servers, the
      manifest of the Slack app, Discord's thin wrapper over its REST surface;
      [netd], which is Go around a network library; deployment, scripts,
      spikes and tests. Of the codec and the roster, what the schemas accept
      is the schema library's answer; of the egress, the HTTP client that runs
      in the tunnel is the platform's; of [apps/agentd/src/server.ts], Express
      and the SDK's handlers are; of the A2A client, the transport is the
      SDK's.

    ** This file

    Strings as code units with the standard functions on them, dynamic values,
    lemmas on lists and options that several components use, tactics, and the
    hint database. *)

From stdpp Require Export base tactics option list gmap strings pretty.
From Stdlib Require Export NArith ZArith Lia.
From Stdlib Require Strings.Byte.


(** Lemmas that automate the common cases, for [auto with thicket]. *)
Create HintDb thicket.

(** ** JavaScript strings

    A string is the list of its UTF-16 code units: [length], [slice] and
    indexing count exactly what the source counts. *)
Abbreviation jstr := (list N).

(** A literal is written in the source's own UTF-8 spelling and decoded to
    code units. *)
Fixpoint utf16_of_utf8 (l : list N) : jstr :=
  match l with
  | [] => []
  | b0 :: t =>
      if (b0 <? 128)%N then b0 :: utf16_of_utf8 t
      else if (b0 <? 224)%N then
        match t with
        | b1 :: t' => ((b0 - 192) * 64 + (b1 - 128))%N :: utf16_of_utf8 t'
        | _ => []
        end
      else if (b0 <? 240)%N then
        match t with
        | b1 :: b2 :: t' =>
            ((b0 - 224) * 4096 + (b1 - 128) * 64 + (b2 - 128))%N :: utf16_of_utf8 t'
        | _ => []
        end
      else
        match t with
        | b1 :: b2 :: b3 :: t' =>
            let cp := ((b0 - 240) * 262144 + (b1 - 128) * 4096
                       + (b2 - 128) * 64 + (b3 - 128) - 65536)%N in
            (55296 + cp / 1024)%N :: (56320 + cp mod 1024)%N :: utf16_of_utf8 t'
        | _ => []
        end
  end.

Definition js (s : string) : jstr :=
  utf16_of_utf8 (Byte.to_N <$> String.list_byte_of_string s).
Arguments js : simpl never.

(** The double quote. *)
Definition dq : jstr := [34%N].

Arguments bool_decide : simpl never.

(** [a === b] on strings. *)
Definition jeqb (a b : jstr) : bool := bool_decide (a = b).

(** [String(n)] on an integer. *)
Definition show_Z (z : Z) : jstr := js (pretty z).
Definition show_nat (n : nat) : jstr := show_Z (Z.of_nat n).

(** White space as [\s] and [trim] see it. *)
Definition is_ws (c : N) : bool :=
  ((9 <=? c) && (c <=? 13) || (c =? 32) || (c =? 160) || (c =? 5760)
   || (8192 <=? c) && (c <=? 8202) || (c =? 8232) || (c =? 8233)
   || (c =? 8239) || (c =? 8287) || (c =? 12288) || (c =? 65279))%N.

Fixpoint trim_start (s : jstr) : jstr :=
  match s with
  | c :: t => if is_ws c then trim_start t else s
  | [] => []
  end.

Definition trim_end (s : jstr) : jstr := reverse (trim_start (reverse s)).
Definition trim (s : jstr) : jstr := trim_end (trim_start s).

(** [s.replace(/\s+/g, " ")]. *)
Fixpoint collapse_from (in_ws : bool) (s : jstr) : jstr :=
  match s with
  | [] => []
  | c :: t =>
      if is_ws c then (if in_ws then collapse_from true t else 32%N :: collapse_from true t)
      else c :: collapse_from false t
  end.
Definition collapse_ws (s : jstr) : jstr := collapse_from false s.

(** [s.startsWith(p)], [s.includes(p)]. *)
Fixpoint starts_with (p s : jstr) : bool :=
  match p, s with
  | [], _ => true
  | a :: p', b :: s' => (a =? b)%N && starts_with p' s'
  | _ :: _, [] => false
  end.

Fixpoint includes (p s : jstr) : bool :=
  starts_with p s || match s with [] => false | _ :: t => includes p t end.

(** [l.join(sep)]. *)
Fixpoint join_with (sep : jstr) (l : list jstr) : jstr :=
  match l with
  | [] => []
  | [x] => x
  | x :: t => x ++ sep ++ join_with sep t
  end.

(** [s.split(sep)] for a non-empty separator: left to right, separators do
    not overlap. [skip] counts the units of the current separator still to
    be passed over. *)
Fixpoint split_go (sep : jstr) (skip : nat) (cur s : jstr) : list jstr :=
  match s with
  | [] => [cur]
  | c :: t =>
      match skip with
      | S k => split_go sep k cur t
      | O => if starts_with sep s then cur :: split_go sep (length sep - 1) [] t
             else split_go sep 0 (cur ++ [c]) t
      end
  end.
Definition split (sep s : jstr) : list jstr := split_go sep 0 [] s.

(** [s.replace(/c+$/, "")]: trailing units satisfying [p] dropped. *)
Fixpoint drop_while (p : N -> bool) (s : jstr) : jstr :=
  match s with
  | c :: t => if p c then drop_while p t else s
  | [] => []
  end.
Definition drop_trailing (p : N -> bool) (s : jstr) : jstr :=
  reverse (drop_while p (reverse s)).

(** The longest suffix without [c]: [s.slice(s.lastIndexOf(c) + 1)]. *)
Fixpoint take_while (p : N -> bool) (s : jstr) : jstr :=
  match s with
  | c :: t => if p c then c :: take_while p t else []
  | [] => []
  end.
Definition after_last (c : N) (s : jstr) : jstr :=
  reverse (take_while (fun d => negb (d =? c)%N) (reverse s)).

Definition is_digit (c : N) : bool := ((48 <=? c) && (c <=? 57))%N.

(** Decimal value of a run of digits, most significant first. *)
Definition digits_value (s : jstr) : Z :=
  fold_left (fun acc c => acc * 10 + (Z.of_N c - 48))%Z s 0%Z.

(** ** Dynamically typed values

    What arrives as [unknown]: parsed JSON, or a property that is absent. *)
Inductive jsval : Type :=
| VUndef
| VNull
| VBool (b : bool)
| VNum (n : Z)
| VStr (s : jstr)
| VArr (l : list jsval)
| VObj (fields : list (jstr * jsval)).

(** What every object has without having been given it. *)
Definition OBJECT_PROTOTYPE : list jstr :=
  js <$> ["constructor"; "__defineGetter__"; "__defineSetter__"; "hasOwnProperty"; "__lookupGetter__"; "__lookupSetter__";
          "isPrototypeOf"; "propertyIsEnumerable"; "toString"; "valueOf"; "__proto__"; "toLocaleString"]%string.
(** Own-property lookup in an association list; a later duplicate does not
    occur, because parsed objects have unique keys. *)
Fixpoint assq {A} (k : jstr) (l : list (jstr * A)) : option A :=
  match l with
  | [] => None
  | (k', v) :: t => if bool_decide (k = k') then Some v else assq k t
  end.

(** [v[k]] for a named key: only objects carry the keys the code asks for,
    an array has no such own property. *)
Definition prop (v : jsval) (k : jstr) : jsval :=
  match v with
  | VObj fs => default VUndef (assq k fs)
  | _ => VUndef
  end.

Arguments prop : simpl never.
Arguments assq {_} _ _ : simpl never.

(** [typeof v === "object" && v !== null]. *)
Definition is_object (v : jsval) : bool :=
  match v with VArr _ | VObj _ => true | _ => false end.

Definition as_str (v : jsval) : option jstr :=
  match v with VStr s => Some s | _ => None end.

(** [typeof v === "string" && v !== ""]. *)
Definition as_nonempty_str (v : jsval) : option jstr :=
  match v with VStr (c :: t) => Some (c :: t) | _ => None end.

(** [v === s] against a string. *)
Definition is_str (v : jsval) (s : jstr) : bool :=
  match v with VStr x => jeqb x s | _ => false end.

(** A conditional spread: [...(cond ? {k: v} : {})]. *)
Definition opt_field (k : jstr) (v : option jsval) : list (jstr * jsval) :=
  match v with Some x => [(k, x)] | None => [] end.

(** ** Lemmas the components share *)

Lemma trim_start_Forall (P : N -> Prop) s : Forall P s -> Forall P (trim_start s).
Proof.
  induction 1 as [|c s Hc Hs IH]; simpl; [by constructor|].
  destruct (is_ws c); [done|by constructor].
Qed.

Lemma trim_Forall (P : N -> Prop) s : Forall P s -> Forall P (trim s).
Proof.
  intros H. unfold trim, trim_end. apply Forall_reverse, trim_start_Forall, Forall_reverse.
  by apply trim_start_Forall.
Qed.

Lemma take_while_Forall p s : Forall (fun c => p c = true) (take_while p s).
Proof.
  induction s as [|c s IH]; simpl; [constructor|]. destruct (p c) eqn:E; [by constructor|constructor].
Qed.

Lemma drop_while_sublist p s : drop_while p s `sublist_of` s.
Proof.
  induction s as [|c s IH]; simpl; [done|]. destruct (p c); [by apply sublist_cons|done].
Qed.

Lemma sublist_Forall {A} (P : A -> Prop) l k : l `sublist_of` k -> Forall P k -> Forall P l.
Proof. rewrite !Forall_forall. intros Hs H x Hx. apply H. by eapply elem_of_sublist. Qed.

Lemma filter_ext_elem {A : Type} (P Q : A -> Prop) `{!forall x, Decision (P x)} `{!forall x, Decision (Q x)} (l : list A) :
  (forall x, x ∈ l -> P x <-> Q x) -> filter P l = filter Q l.
Proof.
  induction l as [|x l IH]; intros HPQ; [done|].
  rewrite !filter_cons, IH by (intros y Hy; apply HPQ; by right).
  specialize (HPQ x (list_elem_of_here _ _)). repeat case_decide; tauto.
Qed.

Lemma list_filter_all {A} (P : A -> Prop) `{!forall x, Decision (P x)} l :
  Forall P l -> filter P l = l.
Proof. induction 1 as [|x l Hx _ IH]; [done|]. by rewrite filter_cons, decide_True, IH. Qed.

Lemma jeqb_false a b : jeqb a b = false -> a <> b.
Proof. unfold jeqb. by rewrite bool_decide_eq_false. Qed.

Lemma split_go_app sep a b cur :
  split_go [sep] 0 cur (a ++ sep :: b) = split_go [sep] 0 cur a ++ split [sep] b.
Proof.
  revert cur; induction a as [|c a IH]; intros cur; simpl.
  - rewrite N.eqb_refl. done.
  - destruct ((sep =? c)%N && true); simpl; [by rewrite IH|apply IH].
Qed.

Lemma split_app sep a b : split [sep] (a ++ sep :: b) = split [sep] a ++ split [sep] b.
Proof. apply split_go_app. Qed.

Lemma split_go_none sep s cur : sep ∉ s -> split_go [sep] 0 cur s = [cur ++ s].
Proof.
  revert cur; induction s as [|c s IH]; intros cur Hs; simpl; [by rewrite app_nil_r|].
  apply not_elem_of_cons in Hs as [Hne Hs].
  destruct (N.eqb_spec sep c) as [->|_]; [done|]. simpl. rewrite IH by done.
  by rewrite <- app_assoc.
Qed.

#[export] Hint Resolve trim_Forall take_while_Forall drop_while_sublist : thicket.

(** A value that is there, without normalising it. *)
Definition present {A} (o : option A) : bool := match o with Some _ => true | None => false end.

Lemma some_default {A} (d : A) (o : option A) : present o = true -> o = Some (default d o).
Proof. by destruct o. Qed.

(** ** Tactics *)

(** Closes an equation between closed terms by evaluating both sides. *)
Ltac evaluated := vm_compute; reflexivity.

(** Evaluates every comparison of two literals in the goal. *)
Ltac js_eval :=
  repeat match goal with
  | |- context [bool_decide (js ?a = js ?b)] =>
      let r := eval vm_compute in (bool_decide (js a = js b)) in
      replace (bool_decide (js a = js b)) with r by (vm_compute; reflexivity)
  end; cbv beta iota.

(** ** Decimal numerals: what [String(n)] prints of a natural number reads
    back as that number. *)

(** [/^\d+$/]. *)
Definition numeral (s : jstr) : bool := negb (bool_decide (s = [])) && forallb is_digit s.

Definition digit_unit (n : N) : N := (48 + n)%N.

Lemma js_digit d s : (d < 10)%N -> js (String (pretty_N_char d) s) = digit_unit d :: js s.
Proof.
  intros Hd.
  assert (d = 0 \/ d = 1 \/ d = 2 \/ d = 3 \/ d = 4 \/ d = 5 \/ d = 6 \/ d = 7 \/ d = 8 \/ d = 9)%N as Hc by lia.
  repeat destruct Hc as [->|Hc]; [reflexivity..|]. by subst d.
Qed.

Lemma js_pretty_go x s :
  exists ds, js (pretty_N_go x s) = ds ++ js s /\ Forall (fun c => is_digit c = true) ds /\
    (if decide (x = 0%N) then ds = [] else exists c ds', ds = c :: ds' /\ c <> 48%N) /\
    forall acc, fold_left (fun acc c => acc * 10 + (Z.of_N c - 48))%Z ds acc = (acc * 10 ^ Z.of_nat (length ds) + Z.of_N x)%Z.
Proof.
  revert s; induction (N.lt_wf_0 x) as [x _ IH]; intros s.
  destruct (decide (x = 0%N)) as [->|Hx].
  - exists []. rewrite pretty_N_go_0. split_and!; [done|constructor|done|]. intros acc. simpl. lia.
  - rewrite pretty_N_go_step by lia.
    destruct (IH (x `div` 10)%N) with (s := String (pretty_N_char (x `mod` 10)) s) as (ds & E & Hd & Hne & Hv).
    { apply N.div_lt; lia. }
    assert (x `mod` 10 < 10)%N as Hm by (apply N.mod_lt; lia).
    exists (ds ++ [digit_unit (x `mod` 10)]). rewrite E, js_digit by done. split_and!.
    + by rewrite <- app_assoc.
    + apply Forall_app. split; [done|]. constructor; [|constructor]. unfold is_digit, digit_unit.
      clear -Hm. set (m := (x `mod` 10)%N) in *. clearbody m. apply andb_true_iff. split; apply N.leb_le; lia.
    + case_decide as Hq.
      * subst ds. exists (digit_unit (x `mod` 10)), []. split; [done|]. unfold digit_unit.
        pose proof (N.div_mod x 10 ltac:(lia)). lia.
      * destruct Hne as (c & ds' & -> & Hc). by exists c, (ds' ++ [digit_unit (x `mod` 10)]).
    + intros acc. rewrite fold_left_app, Hv, length_app. unfold digit_unit. cbn [fold_left length].
      pose proof (N.div_mod x 10 ltac:(lia)) as Hx10.
      replace (Z.of_nat (length ds + 1)) with (Z.succ (Z.of_nat (length ds))) by lia.
      rewrite Z.pow_succ_r by lia. generalize (10 ^ Z.of_nat (length ds))%Z. intros p. nia.
Qed.

(** A printed number is a numeral without a leading zero, and reads back as
    itself. *)
Lemma show_Z_digits z : (0 <= z)%Z ->
  numeral (show_Z z) = true /\ digits_value (show_Z z) = z /\
  starts_with (js "0") (show_Z z) && (1 <? length (show_Z z))%nat = false.
Proof.
  intros Hz. unfold show_Z. destruct z as [|p|p]; [by split_and!; vm_compute| |lia].
  change (pretty (Z.pos p)) with (pretty_N_go (N.pos p) "").
  destruct (js_pretty_go (N.pos p) "") as (ds & -> & Hd & Hne & Hv).
  cbn in Hne. destruct Hne as (c & ds' & -> & Hc). rewrite app_nil_r. split_and!.
  - unfold numeral. rewrite bool_decide_eq_false_2 by done. apply forallb_forall. rewrite Forall_forall in Hd.
    intros d Hin. by apply Hd, list_elem_of_In.
  - unfold digits_value. rewrite Hv. lia.
  - apply andb_false_iff. left. change (starts_with (js "0") (c :: ds')) with ((48 =? c)%N && true).
    apply andb_false_iff. left. apply N.eqb_neq. congruence.
Qed.

Lemma show_Z_numeral z : (0 <= z)%Z -> numeral (show_Z z) = true /\ digits_value (show_Z z) = z.
Proof. intros Hz. pose proof (show_Z_digits z Hz). tauto. Qed.

Lemma show_Z_neg p : show_Z (Z.neg p) = 45%N :: show_Z (Z.pos p).
Proof. reflexivity. Qed.

Lemma show_nat_numeral n : numeral (show_nat n) = true /\ digits_value (show_nat n) = Z.of_nat n.
Proof. apply show_Z_numeral. lia. Qed.

Lemma numeral_digits s : numeral s = true -> s <> [] /\ Forall (fun c => is_digit c = true) s.
Proof.
  unfold numeral. intros [H1 H2]%andb_true_iff. apply negb_true_iff, bool_decide_eq_false in H1.
  split; [done|]. apply Forall_forall. intros x Hx. rewrite forallb_forall in H2. by apply H2, list_elem_of_In.
Qed.
