(* ===== verification/PushQueue.v ===== *)
(** [packages/executor/src/push-queue.ts]: the single-consumer async queue
    between the session pump and the translator. Producer calls are
    functions on the queue; the consumer is the generator of
    [Symbol.asyncIterator], cut where it gives up control ([yield], [await],
    [return]). The properties relate every interleaving of the two to a
    FIFO channel and rule out lost wake-ups. *)

From S2P Require Import Prelude.

Section Queue.
Context {A : Type}.

(** Where the generator is: not yet asked, stopped at a [yield], stopped
    at the [await] of a promise that is resolved or not, or returned. *)
Inductive consumer_phase :=
| CReady
| CAwait (resolved : bool)
| CDone.

(** The fields of the class, and the generator's position. [waiter] is
    the resolver the generator left behind: [Some tt] while installed. *)
Record queue := Queue {
  q_buffer : list A;
  q_waiter : option unit;
  q_closed : bool;
  q_consumer : consumer_phase }.

Definition new_queue : queue := Queue [] None false CReady.

(** [this.waiter?.()]: resolving twice is harmless, the promise stays
    resolved until the generator resumes and clears the field. *)
Definition wake (q : queue) : queue :=
  match q_waiter q, q_consumer q with
  | Some _, CAwait _ => Queue (q_buffer q) (q_waiter q) (q_closed q) (CAwait true)
  | _, _ => q
  end.

Definition push (x : A) (q : queue) : queue :=
  if q_closed q then q
  else wake (Queue (q_buffer q ++ [x]) (q_waiter q) (q_closed q) (q_consumer q)).

Definition close (q : queue) : queue :=
  wake (Queue (q_buffer q) (q_waiter q) true (q_consumer q)).

Definition is_closed (q : queue) : bool := q_closed q.

Inductive pull_result := Yielded (x : A) | Suspended | Returned.

(** One run of the generator from where it stands to where it next gives
    up control. [None] when it cannot run: its promise is unresolved, or
    it has returned. The run resumed from an [await] first clears the
    waiter, then loops. *)
Definition pull (q : queue) : option (pull_result * queue) :=
  let run (w : option unit) :=
    match q_buffer q with
    | x :: rest => Some (Yielded x, Queue rest w (q_closed q) CReady)
    | [] => if q_closed q then Some (Returned, Queue [] w true CDone)
            else Some (Suspended, Queue [] (Some tt) false (CAwait false))
    end in
  match q_consumer q with
  | CReady => run (q_waiter q)
  | CAwait true => run None
  | CAwait false | CDone => None
  end.

(** ** Interleavings *)
Inductive qlabel := LPush (x : A) | LClose | LPull (r : pull_result).

Inductive qstep : queue -> qlabel -> queue -> Prop :=
| QPush q x : qstep q (LPush x) (push x q)
| QClose q : qstep q LClose (close q)
| QPull q r q' : pull q = Some (r, q') -> qstep q (LPull r) q'.

Inductive qtrace : queue -> list qlabel -> queue -> Prop :=
| QNil q : qtrace q [] q
| QCons q l q1 ls q2 : qstep q l q1 -> qtrace q1 ls q2 -> qtrace q (l :: ls) q2.

(** What the producer got in: pushes up to the first close. *)
Fixpoint accepted (ls : list qlabel) : list A :=
  match ls with
  | [] => []
  | LPush x :: t => x :: accepted t
  | LClose :: _ => []
  | LPull _ :: t => accepted t
  end.

(** What the consumer got out. *)
Fixpoint delivered (ls : list qlabel) : list A :=
  match ls with
  | [] => []
  | LPull (Yielded x) :: t => x :: delivered t
  | _ :: t => delivered t
  end.

(** The generator waits only on an installed resolver, and an unresolved
    wait means there is nothing to do. *)
Definition q_ok (q : queue) : Prop :=
  match q_consumer q with
  | CReady => True
  | CAwait resolved =>
      q_waiter q = Some tt /\
      (resolved = false -> q_buffer q = [] /\ q_closed q = false)
  | CDone => q_buffer q = [] /\ q_closed q = true
  end.

Lemma new_queue_ok : q_ok new_queue.
Proof. exact I. Qed.

Lemma qstep_ok q l q' : qstep q l q' -> q_ok q -> q_ok q'.
Proof.
  intros [q0 x|q0|q0 r q1 Hp]; destruct q0 as [b w c ph];
    unfold q_ok, push, close, wake in *; simpl.
  - destruct c, w as [[]|], ph as [|[]|]; simpl; naive_solver.
  - destruct w as [[]|], ph as [|[]|]; simpl; naive_solver.
  - unfold pull in Hp; simpl in Hp.
    destruct ph as [|[]|], b, c; simplify_eq/=; naive_solver.
Qed.

Lemma qtrace_ok q ls q' : qtrace q ls q' -> q_ok q -> q_ok q'.
Proof. induction 1; eauto using qstep_ok. Qed.

Lemma wake_buffer q : q_buffer (wake q) = q_buffer q /\ q_closed (wake q) = q_closed q.
Proof. unfold wake. by destruct (q_waiter q), (q_consumer q). Qed.

Lemma qtrace_fifo_from q ls q' :
  qtrace q ls q' ->
  q_buffer q ++ (if q_closed q then [] else accepted ls) = delivered ls ++ q_buffer q'.
Proof.
  induction 1 as [q|q l q1 ls q2 Hs Ht IH]; simpl.
  { destruct (q_closed q); by rewrite app_nil_r. }
  destruct Hs as [q x|q|q r q1 Hp].
  - unfold push in IH. destruct (q_closed q) eqn:Hc; rewrite ?Hc in IH; [exact IH|].
    destruct (wake_buffer (Queue (q_buffer q ++ [x]) (q_waiter q) false (q_consumer q)))
      as [Hb Hcl].
    rewrite Hb, Hcl in IH. simpl in IH. by rewrite <- app_assoc in IH.
  - unfold close in IH.
    destruct (wake_buffer (Queue (q_buffer q) (q_waiter q) true (q_consumer q)))
      as [Hb Hcl].
    rewrite Hb, Hcl in IH. simpl in IH. by destruct (q_closed q).
  - destruct q as [b w c ph]. unfold pull in Hp; simpl in *.
    destruct ph as [|[]|], b as [|y b], c; simplify_eq/=; by rewrite <- IH.
Qed.
End Queue.

Arguments queue : clear implicits.
Arguments pull_result : clear implicits.
Arguments qlabel : clear implicits.

#[export] Hint Resolve new_queue_ok qstep_ok qtrace_ok : thicket.

(** A PushQueue is a FIFO channel: under every interleaving of pushes,
    closes and generator resumptions, what the consumer received followed by
    what is still buffered is exactly what was pushed before the first
    close, in order. *)
Theorem push_queue_fifo {A} (ls : list (qlabel A)) q' :
  qtrace new_queue ls q' -> accepted ls = delivered ls ++ q_buffer q'.
Proof. intros H. exact (qtrace_fifo_from _ _ _ H). Qed.

(** No lost wake-up: in every reachable state in which the generator
    has not returned and there is an item to hand over or the end to
    announce, the generator can run, and it then yields the oldest item or
    returns; the queue never strands an item behind an unresolved promise. *)
Theorem push_queue_progress {A} (ls : list (qlabel A)) q :
  qtrace new_queue ls q ->
  q_consumer q <> CDone ->
  q_buffer q <> [] \/ q_closed q = true ->
  exists r q', pull q = Some (r, q') /\
    match q_buffer q with
    | x :: _ => r = Yielded x
    | [] => r = Returned /\ q_consumer q' = CDone
    end.
Proof.
  intros Ht Hd Hw. apply qtrace_ok in Ht; [|exact I].
  destruct q as [b w c ph]; unfold q_ok, pull in *; simpl in *.
  destruct ph as [|[]|], b, c; naive_solver.
Qed.

Lemma push_queue_fifo_witness :
  accepted [LPull Suspended; LPush 1; LPush 2; LPull (Yielded 1); LClose; LPush 3]
  = [1] ++ [2].
Proof.
  apply (push_queue_fifo [LPull Suspended; LPush 1; LPush 2; LPull (Yielded 1); LClose; LPush 3]
           (Queue [2] None true CReady)).
  repeat first [apply QNil | eapply QCons; [constructor; reflexivity|] ].
Defined.

Lemma push_queue_progress_witness :
  exists r q', pull (Queue [7] (Some tt) false (CAwait true)) = Some (r, q')
               /\ r = Yielded 7.
Proof.
  apply (push_queue_progress [LPull Suspended; LPush 7]).
  - repeat first [apply QNil | eapply QCons; [constructor; reflexivity|] ].
  - discriminate.
  - left. discriminate.
Defined.
