(* ===== verification/Questions.v ===== *)
(** [packages/executor/src/questions.ts]: the validator that turns an
    AskUserQuestion input, or the metadata value that carried one, into the
    questions a client can render. *)

From S2P Require Import Prelude.

Definition META_QUESTIONS : jstr := js "thicket.questions".

Record AgentQuestionOption := mkOption {
  o_label : jstr;
  o_description : option jstr }.

Record AgentQuestion := mkQuestion {
  q_question : jstr;
  q_header : option jstr;
  q_multiSelect : bool;
  q_options : list AgentQuestionOption }.

#[export] Instance AgentQuestionOption_eq_dec : EqDecision AgentQuestionOption.
Proof. solve_decision. Defined.
#[export] Instance AgentQuestion_eq_dec : EqDecision AgentQuestion.
Proof. solve_decision. Defined.

(** [nonEmpty], with the narrowing it performs: the string, if it passes. *)
Definition nonEmpty (value : jsval) : option jstr :=
  match value with
  | VStr s => if decide (trim s = []) then None else Some s
  | _ => None
  end.

Arguments nonEmpty : simpl never.

Definition parseOption (value : jsval) : option AgentQuestionOption :=
  if is_object value then
    match nonEmpty (prop value (js "label")) with
    | None => None
    | Some label => Some (mkOption label (nonEmpty (prop value (js "description"))))
    end
  else None.

Definition is_true_value (v : jsval) : bool := match v with VBool true => true | _ => false end.

Definition parseQuestion (value : jsval) : option AgentQuestion :=
  if is_object value then
    match nonEmpty (prop value (js "question")), prop value (js "options") with
    | Some question, VArr options =>
        match omap parseOption options with
        | [] => None
        | parsed => Some (mkQuestion question (nonEmpty (prop value (js "header")))
                            (is_true_value (prop value (js "multiSelect"))) parsed)
        end
    | _, _ => None
    end
  else None.

Definition parseAgentQuestions (value : jsval) : option (list AgentQuestion) :=
  let list_value :=
    match value with
    | VArr _ => value
    | VObj _ => prop value (js "questions")
    | _ => VUndef
    end in
  match list_value with
  | VArr ((_ :: _) as l) =>
      let questions := omap parseQuestion l in
      if decide (length questions = length l) then Some questions else None
  | _ => None
  end.

(** ** The value a question is carried as

    The executor puts the parsed questions themselves into the metadata, so
    a client receives these objects. *)
Definition option_value (o : AgentQuestionOption) : jsval :=
  VObj ([(js "label", VStr (o_label o))]
        ++ opt_field (js "description") (VStr <$> o_description o)).

Definition question_value (q : AgentQuestion) : jsval :=
  VObj ([(js "question", VStr (q_question q))]
        ++ opt_field (js "header") (VStr <$> q_header q)
        ++ [(js "multiSelect", VBool (q_multiSelect q));
            (js "options", VArr (option_value <$> q_options q))]).

Definition questions_value (qs : list AgentQuestion) : jsval := VArr (question_value <$> qs).

(** What a client may rely on. *)
Definition visible (s : jstr) : Prop := trim s <> [].
Definition option_ok (o : AgentQuestionOption) : Prop :=
  visible (o_label o) /\ (forall d, o_description o = Some d -> visible d).
Definition question_ok (q : AgentQuestion) : Prop :=
  visible (q_question q) /\ (forall h, q_header q = Some h -> visible h) /\
  q_options q <> [] /\ Forall option_ok (q_options q).

Lemma nonEmpty_Some v s : nonEmpty v = Some s <-> v = VStr s /\ visible s.
Proof.
  unfold nonEmpty, visible. destruct v; try naive_solver.
  case_decide; naive_solver.
Qed.

Lemma nonEmpty_visible s : visible s -> nonEmpty (VStr s) = Some s.
Proof. intros. by apply nonEmpty_Some. Qed.

Lemma omap_all_length {A B} (f : A -> option B) l :
  length (omap f l) = length l -> Forall (fun x => is_Some (f x)) l.
Proof.
  assert (Hle : forall l, length (omap f l) <= length l).
  { clear. induction l as [|x l IH]; csimpl; [done|]. destruct (f x); csimpl; lia. }
  induction l as [|x l IH]; csimpl; [by constructor|].
  destruct (f x) eqn:E; csimpl; intros H; [constructor; [by eauto|apply IH; lia]|].
  specialize (Hle l); lia.
Qed.

Lemma omap_inverse {A B} (f : A -> option B) (g : B -> A) l :
  Forall (fun y => f (g y) = Some y) l -> omap f (g <$> l) = l.
Proof. induction 1 as [|y l Hy _ IH]; csimpl; [done|]. by rewrite Hy, IH. Qed.

Lemma parseOption_ok v o : parseOption v = Some o -> option_ok o.
Proof.
  unfold parseOption. destruct (is_object v); [|done].
  destruct (nonEmpty (prop v (js "label"))) as [lb|] eqn:E; [|done].
  intros ?; simplify_eq. split; simpl.
  - by apply nonEmpty_Some in E as [_ ?].
  - intros d Hd. by apply nonEmpty_Some in Hd as [_ ?].
Qed.

Lemma omap_Forall {A B} (f : A -> option B) (P : B -> Prop) l :
  (forall x y, f x = Some y -> P y) -> Forall P (omap f l).
Proof.
  intros H. induction l as [|x l IH]; csimpl; [by constructor|].
  destruct (f x) eqn:E; csimpl; [constructor; eauto|done].
Qed.

Lemma parseQuestion_ok v q : parseQuestion v = Some q -> question_ok q.
Proof.
  unfold parseQuestion. destruct (is_object v); [|done].
  destruct (nonEmpty (prop v (js "question"))) as [qt|] eqn:E; [|done].
  destruct (prop v (js "options")) as [| | | | |l|] eqn:Eo; try done.
  pose proof (omap_Forall parseOption option_ok l parseOption_ok) as Hall.
  destruct (omap parseOption l) as [|o os]; intros ?; simplify_eq.
  split_and!; simpl; [|intros h Hh|done|done].
  - by apply nonEmpty_Some in E as [_ ?].
  - by apply nonEmpty_Some in Hh as [_ ?].
Qed.

Lemma nonEmpty_opt (d : option jstr) (P : jsval) :
  (forall s, d = Some s -> visible s) ->
  P = match d with Some s => VStr s | None => VUndef end ->
  nonEmpty P = d.
Proof.
  intros Hd ->. destruct d as [s|]; [|done]. apply nonEmpty_visible; eauto.
Qed.

Lemma option_value_parse o : option_ok o -> parseOption (option_value o) = Some o.
Proof.
  destruct o as [l d]; intros [Hl Hd]; unfold parseOption, option_value; simpl in *.
  change (prop _ (js "label")) with (VStr l).
  rewrite (nonEmpty_visible l Hl), (nonEmpty_opt d _ Hd); [done|].
  destruct d; reflexivity.
Qed.

Lemma question_value_parse q : question_ok q -> parseQuestion (question_value q) = Some q.
Proof.
  destruct q as [q h m os]; intros (Hq & Hh & Hne & Hos); simpl in *.
  unfold parseQuestion, question_value; simpl.
  change (prop _ (js "question")) with (VStr q). rewrite (nonEmpty_visible q Hq).
  assert (prop (VObj ((js "question", VStr q) :: opt_field (js "header") (VStr <$> h)
            ++ [(js "multiSelect", VBool m); (js "options", VArr (option_value <$> os))]))
            (js "options") = VArr (option_value <$> os)) as -> by (destruct h; reflexivity).
  rewrite (omap_inverse parseOption option_value os).
  2:{ eapply Forall_impl; [exact Hos|exact option_value_parse]. }
  destruct os as [|o os]; [done|].
  rewrite (nonEmpty_opt h _ Hh); [|destruct h; reflexivity].
  do 2 f_equal. destruct h, m; reflexivity.
Qed.

(** Whatever the validator accepts is something a client can render —
    every question and label is visible text and every question offers at
    least one option — and re-validating the value it is carried as returns
    exactly the same questions, so the executor and the bridge agree on
    what was asked. *)
Theorem parseAgentQuestions_stable v qs :
  parseAgentQuestions v = Some qs ->
  qs <> [] /\ Forall question_ok qs /\ parseAgentQuestions (questions_value qs) = Some qs.
Proof.
  intros H.
  assert (qs <> [] /\ Forall question_ok qs) as [Hne Hok].
  { unfold parseAgentQuestions in H.
    destruct (match v with VArr _ => v | VObj _ => _ | _ => _ end) as [| | | | |[|x l]|];
      try done.
    pose proof (omap_Forall parseQuestion question_ok (x :: l) parseQuestion_ok) as Hall.
    remember (omap parseQuestion (x :: l)) as found eqn:Hf.
    case_decide as Hl; [|done]. injection H as <-. split; [|done].
    intros ->. done. }
  split_and!; [done|done|].
  unfold parseAgentQuestions, questions_value.
  destruct qs as [|q qs]; [done|].
  rewrite fmap_cons. cbv beta iota zeta. rewrite <- fmap_cons.
  rewrite (omap_inverse parseQuestion question_value).
  2:{ eapply Forall_impl; [exact Hok|exact question_value_parse]. }
  rewrite length_fmap. by rewrite decide_True.
Qed.

Lemma parseAgentQuestions_stable_witness :
  let v := VObj [(js "questions",
    VArr [VObj [(js "question", VStr (js "Deploy where?"));
                (js "header", VStr (js " "));
                (js "options", VArr [VObj [(js "label", VStr (js "prod"))]; VNum 3])]])] in
  let qs := [mkQuestion (js "Deploy where?") None false [mkOption (js "prod") None]] in
  qs <> [] /\ Forall question_ok qs /\ parseAgentQuestions (questions_value qs) = Some qs.
Proof.
  intros v qs. apply (parseAgentQuestions_stable v qs). vm_compute. reflexivity.
Defined.

(** A malformed question is never silently dropped from a form: as soon
    as one element of the list is not a renderable question the whole value
    is rejected and the caller falls back to prose. *)
Theorem parseAgentQuestions_all_or_nothing l :
  Exists (fun v => parseQuestion v = None) l -> parseAgentQuestions (VArr l) = None.
Proof.
  intros Hex. destruct l as [|x l]; [done|].
  unfold parseAgentQuestions. case_decide as Hl; [|done].
  exfalso. apply omap_all_length in Hl.
  apply Exists_exists in Hex as (y & Hin & Hy).
  rewrite Forall_forall in Hl. destruct (Hl y Hin) as [? E]. congruence.
Qed.

Lemma parseAgentQuestions_all_or_nothing_witness :
  parseAgentQuestions (VArr [VObj [(js "question", VStr (js "Ok?")); (js "options", VArr [])]])
  = None.
Proof. apply parseAgentQuestions_all_or_nothing. constructor. vm_compute. reflexivity. Defined.
