(* ===== verification/Activity.v ===== *)
(** [packages/executor/src/activity.ts]: the vocabulary of tool cards. How
    one tool call is described, how the description is clipped to what a
    card can show, and how a card arriving over the wire is validated. *)

From S2P Require Import Prelude.

Definition REDUNDANT_CALL : jstr := js "[thicket:redundant]".
Definition ACTIVITY_ARTIFACT_ID : jstr := js "agent-activity".
Definition ACTIVITY_MEDIA_TYPE : jstr := js "application/vnd.thicket.activity+json".

Inductive AgentActivityStatus := Running | Done | Failed.

#[export] Instance AgentActivityStatus_eq_dec : EqDecision AgentActivityStatus.
Proof. solve_decision. Defined.

Definition status_name (s : AgentActivityStatus) : jstr :=
  match s with Running => js "running" | Done => js "done" | Failed => js "failed" end.

Definition ACTIVITY_ICONS : list jstr := js <$>
  ["archive"; "book"; "bookmark"; "bot"; "bug"; "calendar"; "call"; "caret-left";
   "caret-right"; "check"; "clipboard"; "code"; "comment"; "compass"; "copy"; "cube";
   "download"; "edit"; "email"; "eye-closed"; "eye-open"; "file"; "flag"; "folder";
   "gear"; "globe"; "heart"; "help"; "image"; "info"; "key"; "lightbulb"; "link";
   "map"; "mobile"; "new-window"; "pin"; "plus"; "refine"; "refresh"; "rocket";
   "save"; "screen"; "share"; "sparkle"; "star"; "star-filled"; "tag"; "thumbs-down";
   "thumbs-up"; "trash"; "upload"; "user"; "warning"]%string.

Record AgentActivity := mkActivity {
  a_id : jstr;
  a_title : jstr;
  a_status : AgentActivityStatus;
  a_details : option jstr;
  a_icon : option jstr }.

#[export] Instance AgentActivity_eq_dec : EqDecision AgentActivity.
Proof. solve_decision. Defined.

Record ToolDescription := mkDescription {
  d_title : jstr;
  d_details : option jstr;
  d_icon : option jstr }.

Definition TITLE_MAX : nat := 200.
Definition DETAILS_MAX : nat := 200.
Definition FALLBACK_ICON : jstr := js "gear".

Definition THICKET_TOOL_ICONS : list (jstr * jstr) := prod_map js js <$>
  [("post_message", "comment"); ("upload_file", "upload"); ("react", "heart");
   ("read_channel", "book"); ("read_thread", "book"); ("list_channels", "book");
   ("list_users", "user"); ("search_messages", "refine");
   ("routine_create", "calendar"); ("routine_update", "calendar");
   ("routine_delete", "calendar"); ("routine_list", "calendar")]%string.

Definition isActivityIcon (value : jsval) : bool :=
  match value with VStr s => bool_decide (s ∈ ACTIVITY_ICONS) | _ => false end.

Definition clip (text : jstr) (max : nat) : jstr :=
  let flat := trim (collapse_ws text) in
  if length flat <=? max then flat else take (max - 1) flat ++ js "…".

Definition field (input : jsval) (key : jstr) : option jstr :=
  if is_object input then as_nonempty_str (prop input key) else None.

Definition is_slash (c : N) : bool := (c =? 47)%N.

Definition basename (path : jstr) : jstr :=
  let trimmed := drop_trailing is_slash path in
  match after_last 47 trimmed with [] => trimmed | s => s end.

(** MCP tools arrive as [mcp__<server>__<tool>]. *)
Definition mcpTool (name : jstr) : option (jstr * jstr) :=
  match split (js "__") name with
  | p0 :: server :: ((_ :: _) as rest) =>
      if jeqb p0 (js "mcp") then Some (server, join_with (js "__") rest) else None
  | _ => None
  end.

(** [s.replace(/_/g, " ")]. *)
Definition underscores_to_spaces (s : jstr) : jstr :=
  (fun c => if (c =? 95)%N then 32%N else c) <$> s.

Definition mcpDescription (name : jstr) : ToolDescription :=
  match mcpTool name with
  | None => mkDescription (js "Running " ++ name) None (Some FALLBACK_ICON)
  | Some (server, tool) =>
      let icon := if jeqb server (js "thicket") then assq tool THICKET_TOOL_ICONS else None in
      mkDescription (underscores_to_spaces tool ++ js " (" ++ server ++ js ")") None
        (Some (default FALLBACK_ICON icon))
  end.

Section Describe.
(** [new URL(url).host], which throws on what is not a URL: the runtime's
    URL parser. *)
Context (url_host : jstr -> option jstr).

Definition host (url : jstr) : jstr := default url (url_host url).

Definition named (input : jsval) (key fallback : string) : jstr :=
  default (js fallback) (field input (js key)).

Definition describeToolUse (name : jstr) (input : jsval) : ToolDescription :=
  let path := match field input (js "file_path") with
              | Some p => Some p
              | None => field input (js "notebook_path")
              end in
  let on_path (generic verb icon : string) :=
    mkDescription
      (match path with None => js generic | Some p => js verb ++ basename p end)
      path (Some (js icon)) in
  let tool (s : string) := jeqb name (js s) in
  if tool "Bash" then
    mkDescription (named input "description" "Running a command")
      (field input (js "command")) (Some (js "code"))
  else if tool "BashOutput" then
    mkDescription (js "Checking on a running command") None (Some (js "code"))
  else if tool "KillShell" then
    mkDescription (js "Stopping a running command") None (Some (js "code"))
  else if tool "Read" then on_path "Reading a file" "Reading " "file"
  else if tool "Write" then on_path "Writing a file" "Writing " "edit"
  else if tool "Edit" || tool "MultiEdit" || tool "NotebookEdit" then
    on_path "Editing a file" "Editing " "edit"
  else if tool "Glob" then
    mkDescription (js "Looking for files matching " ++ named input "pattern" "a pattern")
      (field input (js "path")) (Some (js "refine"))
  else if tool "Grep" then
    mkDescription (js "Searching for " ++ named input "pattern" "a pattern")
      (field input (js "path")) (Some (js "refine"))
  else if tool "WebFetch" then
    let url := field input (js "url") in
    mkDescription
      (match url with None => js "Fetching a page" | Some u => js "Fetching " ++ host u end)
      url (Some (js "globe"))
  else if tool "WebSearch" then
    mkDescription (js "Searching the web for " ++ named input "query" "something")
      None (Some (js "globe"))
  else if tool "Task" || tool "Agent" then
    mkDescription (js "Delegating to " ++ named input "subagent_type" "a subagent")
      (field input (js "description")) (Some (js "bot"))
  else if tool "TodoWrite" then
    mkDescription (js "Updating its plan") None (Some (js "clipboard"))
  else if tool "AskUserQuestion" then
    mkDescription (js "Considering a question for you") None (Some (js "help"))
  else if tool "Skill" then
    mkDescription (js "Using the " ++ named input "skill" "a" ++ js " skill")
      None (Some (js "sparkle"))
  else mcpDescription name.
End Describe.

Definition activity (id : jstr) (status : AgentActivityStatus) (described : ToolDescription)
  : AgentActivity :=
  let details := (fun d => clip d DETAILS_MAX) <$> d_details described in
  mkActivity id (clip (d_title described) TITLE_MAX) status
    (match details with None | Some [] => None | Some d => Some d end)
    (d_icon described).

Definition parse_status (v : jsval) : option AgentActivityStatus :=
  match v with
  | VStr s => if jeqb s (js "running") then Some Running
              else if jeqb s (js "done") then Some Done
              else if jeqb s (js "failed") then Some Failed else None
  | _ => None
  end.

Definition parseAgentActivity (value : jsval) : option AgentActivity :=
  if is_object value then
    match as_nonempty_str (prop value (js "id")), as_str (prop value (js "title")) with
    | Some id, Some title =>
        match parse_status (prop value (js "status")) with
        | None => None
        | Some status =>
            let icon := prop value (js "icon") in
            Some (mkActivity id title status
                    (as_nonempty_str (prop value (js "details")))
                    (if isActivityIcon icon then as_str icon else None))
        end
    | _, _ => None
    end
  else None.

(** The object the executor publishes in the card's data part. *)
Definition activity_value (a : AgentActivity) : jsval :=
  VObj ([(js "id", VStr (a_id a)); (js "title", VStr (a_title a));
         (js "status", VStr (status_name (a_status a)))]
        ++ opt_field (js "details") (VStr <$> a_details a)
        ++ opt_field (js "icon") (VStr <$> a_icon a)).

(** ** Properties *)

Lemma trim_start_length s : length (trim_start s) <= length s.
Proof. induction s as [|c s IH]; simpl; [done|]. destruct (is_ws c); simpl; lia. Qed.

Lemma clip_length text max : 1 <= max -> length (clip text max) <= max.
Proof.
  intros. unfold clip. destruct (Nat.leb_spec (length (trim (collapse_ws text))) max); [done|].
  rewrite length_app, length_take. change (length (js "…")) with 1. lia.
Qed.

(** A unit a one-line card may show: the only white space is the space. *)
Definition one_line (c : N) : Prop := is_ws c = true -> c = 32%N.

Lemma collapse_ws_one_line b s : Forall one_line (collapse_from b s).
Proof.
  revert b; induction s as [|c s IH]; intros b; simpl; [by constructor|].
  destruct (is_ws c) eqn:E; [destruct b; [done|]|]; constructor; auto;
    unfold one_line; congruence.
Qed.

Lemma clip_one_line text max : Forall one_line (clip text max).
Proof.
  assert (H : Forall one_line (trim (collapse_ws text)))
    by apply trim_Forall, collapse_ws_one_line.
  unfold clip. destruct (_ <=? _); [done|].
  apply Forall_app; split; [by apply Forall_take|].
  constructor; [|constructor]. by vm_compute.
Qed.

Definition valid_icon (i : option jstr) : Prop :=
  match i with Some s => s ∈ ACTIVITY_ICONS | None => True end.

#[export] Instance valid_icon_dec i : Decision (valid_icon i).
Proof. destruct i; apply _. Defined.

Lemma assq_elem {A} k (l : list (jstr * A)) v : assq k l = Some v -> (k, v) ∈ l.
Proof.
  unfold assq. induction l as [|[k' v'] l IH]; [done|].
  destruct (bool_decide_reflect (k = k')); intros; simplify_eq; set_solver.
Qed.

Lemma thicket_icons_valid : Forall (fun p => valid_icon (Some p.2)) THICKET_TOOL_ICONS.
Proof. apply (bool_decide_unpack _). by vm_compute. Qed.

Lemma mcpDescription_icon name : valid_icon (d_icon (mcpDescription name)).
Proof.
  assert (Hf : valid_icon (Some FALLBACK_ICON)) by (apply (bool_decide_unpack _); by vm_compute).
  unfold mcpDescription. destruct (mcpTool name) as [[srv t]|]; [|exact Hf].
  cbn [d_icon]. destruct (jeqb srv (js "thicket")); [|exact Hf].
  destruct (assq t THICKET_TOOL_ICONS) as [i|] eqn:E; [|exact Hf].
  apply assq_elem in E. pose proof thicket_icons_valid as Hall.
  rewrite Forall_forall in Hall. apply (Hall _ E).
Qed.

Ltac closed_icon := apply (bool_decide_unpack _); vm_compute; exact I.

Lemma describeToolUse_icon url_host name input :
  valid_icon (d_icon (describeToolUse url_host name input)).
Proof.
  unfold describeToolUse. cbv zeta.
  repeat match goal with
  | |- valid_icon (d_icon (if ?b then _ else _)) => destruct b; cbn [d_icon]
  end; try closed_icon.
  apply mcpDescription_icon.
Qed.

Lemma parse_status_name s : parse_status (VStr (status_name s)) = Some s.
Proof. by destruct s; vm_compute. Qed.

Lemma isActivityIcon_valid i : i ∈ ACTIVITY_ICONS -> isActivityIcon (VStr i) = true.
Proof. intros. unfold isActivityIcon. by apply bool_decide_eq_true_2. Qed.

#[export] Hint Resolve clip_length clip_one_line describeToolUse_icon mcpDescription_icon
  isActivityIcon_valid : thicket.

(** A card can always be drawn: for every tool name and every input,
    at any status, the title and the detail line fit the 200 units a card
    shows, carry no line break or run of white space other than the plain
    space, a detail line that is present is not empty, and the icon is one
    of the fixed set Slack accepts, so no chunk is ever rejected for it. *)
Theorem activity_renderable url_host id status name input :
  let a := activity id status (describeToolUse url_host name input) in
  length (a_title a) <= 200 /\ Forall one_line (a_title a) /\
  (forall d, a_details a = Some d -> d <> [] /\ length d <= 200 /\ Forall one_line d) /\
  valid_icon (a_icon a).
Proof.
  intros a. pose proof (clip_length (d_title (describeToolUse url_host name input)) TITLE_MAX) as Ht.
  unfold TITLE_MAX in Ht.
  split; [apply Ht; lia|]. split; [apply clip_one_line|]. split; [|apply describeToolUse_icon].
  intros d. subst a. unfold activity; cbn [a_details].
  destruct (d_details _) as [t|]; cbn [fmap option_fmap option_map]; [|done].
  pose proof (clip_length t DETAILS_MAX) as Hl. pose proof (clip_one_line t DETAILS_MAX) as Ho.
  unfold DETAILS_MAX in *.
  destruct (clip t 200) eqn:E; intros; simplify_eq. rewrite <- E in *.
  split_and!; [by rewrite E|apply Hl; lia|done].
Qed.

(** Wire round trip of a card: the card the executor publishes for a
    tool call, read back by a bridge's validator, is the same card, for
    every tool and input, provided the id is not empty. *)
Theorem parseAgentActivity_roundtrip url_host id status name input :
  id <> [] ->
  let a := activity id status (describeToolUse url_host name input) in
  parseAgentActivity (activity_value a) = Some a.
Proof.
  intros Hid a.
  assert (Hicon : valid_icon (a_icon a)) by apply describeToolUse_icon.
  assert (Hdet : a_details a <> Some []).
  { subst a. unfold activity; cbn [a_details].
    destruct (_ <$> d_details _) as [[|]|]; congruence. }
  assert (a_id a = id) as Ha by done. clearbody a.
  destruct a as [i t st d ic]; cbn in *. subst i.
  unfold parseAgentActivity, activity_value; cbn [is_object a_id a_title a_status a_details a_icon].
  assert (Hp : forall k, prop (VObj ([(js "id", VStr id); (js "title", VStr t);
       (js "status", VStr (status_name st))] ++ opt_field (js "details") (VStr <$> d)
       ++ opt_field (js "icon") (VStr <$> ic))) k =
     if bool_decide (k = js "id") then VStr id else
     if bool_decide (k = js "title") then VStr t else
     if bool_decide (k = js "status") then VStr (status_name st) else
     if bool_decide (k = js "details") then (match d with Some x => VStr x | None =>
        if bool_decide (k = js "icon") then match ic with Some x => VStr x | None => VUndef end
        else VUndef end)
     else if bool_decide (k = js "icon") then match ic with Some x => VStr x | None => VUndef end
     else VUndef).
  { intros k. unfold prop; destruct d, ic; cbn [assq app opt_field fmap option_fmap option_map];
      unfold assq; repeat case_bool_decide; done. }
  rewrite !Hp. js_eval.
  destruct id as [|c id]; [done|]. cbn [as_nonempty_str as_str].
  rewrite parse_status_name. do 3 f_equal.
  - destruct d as [[|]|]; done.
  - destruct ic as [ic|]; [|done]. by rewrite isActivityIcon_valid.
Qed.

Lemma parseAgentActivity_roundtrip_witness :
  let a := activity (js "toolu_1") Running
             (describeToolUse (fun _ => None) (js "Read")
                (VObj [(js "file_path", VStr (js "/etc/hosts/"))])) in
  parseAgentActivity (activity_value a) = Some a /\ a_title a = js "Reading hosts".
Proof. split; [apply parseAgentActivity_roundtrip; done|reflexivity]. Defined.
