(* ===== verification/A2A.v ===== *)
(** The vocabulary the executor speaks: the A2A data it builds
    ([packages/executor/src/types.ts] and the object literals of
    [translator.ts] and [executor.ts]), the metadata keys, and the SDK
    frames it reads. *)

From S2P Require Import Prelude.
From Stdlib Require Import Qcanon.
From stdpp Require Import base numbers list gmap.
#[local] Open Scope nat_scope.

(** ** Metadata keys *)
Definition META_QUEUED_TURN_COUNT : jstr := js "queued_turn_count".
Definition META_FOLDED_MESSAGE_IDS : jstr := js "folded_message_ids".
Definition META_STILL_QUEUED : jstr := js "still_queued".
Definition META_CANCELLED : jstr := js "cancelled".
Definition META_QUEUE_STATE : jstr := js "queue_state".
Definition META_SHOULD_QUERY : jstr := js "thicket.shouldQuery".
Definition META_PRIORITY : jstr := js "thicket.priority".
Definition META_TRIGGER : jstr := js "thicket.trigger".
Definition META_CONTEXT_ONLY : jstr := js "thicket.contextOnly".
Definition META_SLACK_CHANNEL : jstr := js "thicket.slackChannel".
Definition META_SLACK_THREAD : jstr := js "thicket.slackThread".
Definition META_DISCORD_CHANNEL : jstr := js "thicket.discordChannel".
Definition META_DISCORD_THREAD : jstr := js "thicket.discordThread".
Definition META_PHONE_CALL : jstr := js "thicket.phoneCall".
Definition META_PHONE_FROM : jstr := js "thicket.phoneFrom".
Definition META_PHONE_TO : jstr := js "thicket.phoneTo".
Definition META_PHONE_DIRECTION : jstr := js "thicket.phoneDirection".
Definition META_PHONE_KIND : jstr := js "thicket.phoneKind".
Definition META_PHONE_SESSION_STARTED : jstr := js "thicket.phoneSessionStarted".
Definition TRIGGER_PHONE : jstr := js "phone".
Definition TRIGGER_SEND : jstr := js "send".
Definition META_SENDER : jstr := js "thicket.sender".
Definition META_UNATTENDED : jstr := js "thicket.unattended".
Definition META_WORKSPACE : jstr := js "thicket.workspace".
Definition META_FOLDED_INTO : jstr := js "thicket.foldedInto".

(** ** A2A data *)
Inductive TaskState :=
| TASK_STATE_UNSPECIFIED | TASK_STATE_SUBMITTED | TASK_STATE_WORKING
| TASK_STATE_COMPLETED | TASK_STATE_FAILED | TASK_STATE_CANCELED
| TASK_STATE_INPUT_REQUIRED | TASK_STATE_REJECTED | TASK_STATE_AUTH_REQUIRED.

#[export] Instance TaskState_eq_dec : EqDecision TaskState.
Proof. solve_decision. Defined.

(** The states a task never leaves. *)
Definition terminal (s : TaskState) : bool :=
  match s with
  | TASK_STATE_COMPLETED | TASK_STATE_FAILED | TASK_STATE_CANCELED
  | TASK_STATE_REJECTED => true
  | _ => false
  end.

Inductive part_content :=
| CText (value : jstr) | CUrl (value : jstr) | CData (value : jsval) | CNone.

Record part := mkPart {
  p_content : part_content;
  p_mediaType : jstr;
  p_filename : jstr;
  p_metadata : jsval }.

Inductive role := ROLE_USER | ROLE_AGENT.

Record Message := mkMessage {
  m_messageId : jstr;
  m_contextId : jstr;
  m_taskId : jstr;
  m_role : role;
  m_parts : list part;
  m_metadata : jsval }.

(** [message.metadata?.[key]]. *)
Definition meta (m : Message) (key : jstr) : jsval := prop (m_metadata m) key.

Definition textPart (text : jstr) : part :=
  mkPart (CText text) (js "text/plain") [] (VObj []).

Record TaskStatus := mkStatus {
  st_state : TaskState;
  st_message : option Message;
  st_timestamp : jstr }.

Record Artifact := mkArtifact {
  ar_artifactId : jstr;
  ar_name : jstr;
  ar_parts : list part }.

Record TaskData := mkTask {
  tk_id : jstr;
  tk_contextId : jstr;
  tk_status : TaskStatus;
  tk_history : list Message;
  tk_metadata : jsval }.

Inductive AgentExecutionEvent :=
| EvTask (t : TaskData)
| EvStatus (taskId contextId : jstr) (status : TaskStatus) (metadata : jsval)
| EvArtifact (taskId contextId : jstr) (artifact : Artifact) (append lastChunk : bool).

(** The task an event is about. *)
Definition event_task (e : AgentExecutionEvent) : jstr :=
  match e with
  | EvTask t => tk_id t
  | EvStatus tid _ _ _ => tid
  | EvArtifact tid _ _ _ _ => tid
  end.

(** The state an event moves its task to, when it says one. *)
Definition event_state (e : AgentExecutionEvent) : option TaskState :=
  match e with
  | EvTask t => Some (st_state (tk_status t))
  | EvStatus _ _ st _ => Some (st_state st)
  | EvArtifact _ _ _ _ _ => None
  end.

(** ** Sends *)
Record PendingSend := mkSend {
  s_uuid : jstr;
  s_messageId : jstr;
  s_taskId : jstr;
  s_contextId : jstr;
  s_message : option Message }.

(** ** SDK frames *)
Record usage := mkUsage {
  u_input : option Z;
  u_output : option Z;
  u_cacheRead : option Z;
  u_cacheCreation : option Z }.

Record SDKResultMessage := mkResult {
  r_uuid : jstr;
  r_user_message_uuid : option jstr;
  r_queued_turn_count : option nat;
  r_subtype : jstr;
  r_is_error : bool;
  r_result : jstr;
  r_errors : list jstr;
  r_deferred_tool_use : option (jstr * jsval);
  r_duration_ms : Z;
  r_duration_api_ms : Z;
  r_total_cost_usd : option Qc;
  r_usage : usage;
  r_permission_denials : option (list jstr) }.

Definition is_success (r : SDKResultMessage) : bool := jeqb (r_subtype r) (js "success").

(** [parent] is [parent_tool_use_id]: non-null marks subagent traffic. The
    union is open: any other frame type is [FOther]. *)
Inductive SDKMessage :=
| FSystem (subtype : jstr) (capabilities : option (list jstr))
| FStreamEvent (parent user_message_uuid : option jstr) (event : jsval)
| FAssistant (parent user_message_uuid : option jstr) (aborted : bool) (content : jsval)
| FUser (parent : option jstr) (content : jsval)
| FResult (r : SDKResultMessage)
| FOther.

(** One user message written to the CLI; [um_shouldQuery] is present only
    when it is false. *)
Record SDKUserMessage := mkUserMessage {
  um_content : jstr;
  um_uuid : jstr;
  um_shouldQuery : option bool;
  um_priority : option jstr }.
