(* ===== verification/Translator.v ===== *)
(** [packages/executor/src/translator.ts]: the fold of a Claude Agent SDK
    frame stream into A2A task events. The open turn is a record; what a
    handler does to it and publishes meanwhile is a [turn_step]; the class
    is the record [translator], and each of its methods a function on it.
    The facts about it are in [TranslatorText], [TranslatorSends] and
    [TranslatorLedger]. *)

From S2P Require Import Prelude Activity Questions A2A.
From Stdlib Require Import Qcanon.
From stdpp Require Import base numbers list gmap.
#[local] Open Scope nat_scope.

Definition ASSISTANT_TEXT_ARTIFACT_ID : jstr := js "assistant-text".

Definition stateName (state : TaskState) : jstr :=
  match state with
  | TASK_STATE_COMPLETED => js "completed"
  | TASK_STATE_CANCELED => js "canceled"
  | TASK_STATE_INPUT_REQUIRED => js "input-required"
  | _ => js "failed"
  end.

(** [asRecord]: arrays pass, their named properties are absent. *)
Definition asRecord (value : jsval) : option jsval :=
  if is_object value then Some value else None.

Record TurnAccounting := mkAccounting {
  ac_taskId : jstr;
  ac_contextId : jstr;
  ac_trigger : jstr;
  ac_state : jstr;
  ac_durationMs : Z;
  ac_durationApiMs : Z;
  ac_costUsd : Qc;
  ac_inputTokens : Z;
  ac_outputTokens : Z;
  ac_cacheReadTokens : Z;
  ac_cacheCreationTokens : Z;
  ac_toolsUsed : list jstr;
  ac_permissionDenials : list jstr;
  ac_error : option jstr;
  ac_queuedTurnCount : nat }.

(** The fields a card keeps when its status changes. *)
Record OpenCard := mkOpenCard {
  oc_described : ToolDescription;
  oc_deferred : bool }.

Definition TOOLBELT_PREFIX : jstr := js "mcp__thicket__".

Definition block_text (block : jsval) : jstr :=
  match asRecord block with
  | Some record => default [] (as_str (prop record (js "text")))
  | None => []
  end.

Definition refusedAsRedundant (content : jsval) : bool :=
  let text := match content with
              | VStr s => s
              | VArr l => concat (block_text <$> l)
              | _ => []
              end in
  includes REDUNDANT_CALL text.

(** [openTools] is a JavaScript Map, [toolNames] a Set: both iterate in
    insertion order, so both are lists without repeated keys. *)
Record OpenTurn := mkTurn {
  ot_send : PendingSend;
  ot_openSeq : nat;
  ot_emittedText : jstr;
  ot_pendingChunk : option jstr;
  ot_chunksEmitted : nat;
  ot_sawStreamText : bool;
  ot_openTools : list (jstr * OpenCard);
  ot_toolNames : list jstr;
  ot_activityEmitted : nat;
  ot_interrupted : bool;
  ot_terminalEmitted : bool }.

Definition with_text (emitted : jstr) (chunk : option jstr) (n : nat) (t : OpenTurn) : OpenTurn :=
  mkTurn (ot_send t) (ot_openSeq t) emitted chunk n (ot_sawStreamText t) (ot_openTools t)
    (ot_toolNames t) (ot_activityEmitted t) (ot_interrupted t) (ot_terminalEmitted t).
Definition with_tools (tools : list (jstr * OpenCard)) (names : list jstr) (n : nat)
    (t : OpenTurn) : OpenTurn :=
  mkTurn (ot_send t) (ot_openSeq t) (ot_emittedText t) (ot_pendingChunk t)
    (ot_chunksEmitted t) (ot_sawStreamText t) tools names n (ot_interrupted t)
    (ot_terminalEmitted t).
Definition with_flags (saw interrupted terminal : bool) (t : OpenTurn) : OpenTurn :=
  mkTurn (ot_send t) (ot_openSeq t) (ot_emittedText t) (ot_pendingChunk t)
    (ot_chunksEmitted t) saw (ot_openTools t) (ot_toolNames t)
    (ot_activityEmitted t) interrupted terminal.

(** What a piece of a handler does to the open turn, and what it publishes
    while doing so. *)
Definition turn_step : Type := OpenTurn -> OpenTurn * list AgentExecutionEvent.

Definition skip : turn_step := fun t => (t, []).
Definition then_ (f g : turn_step) : turn_step := fun t =>
  let (t1, e1) := f t in let (t2, e2) := g t1 in (t2, e1 ++ e2).
Definition update (f : OpenTurn -> OpenTurn) : turn_step := fun t => (f t, []).

Declare Scope turn_scope.
Delimit Scope turn_scope with turn.
Infix ";>" := then_ (at level 62, right associativity) : turn_scope.
Bind Scope turn_scope with turn_step.
Local Open Scope turn_scope.

Fixpoint for_each {A} (l : list A) (f : A -> turn_step) : turn_step :=
  match l with
  | [] => skip
  | x :: rest => f x ;> for_each rest f
  end.

Definition text_artifact (text : jstr) : Artifact :=
  mkArtifact ASSISTANT_TEXT_ARTIFACT_ID (js "assistant-text") [textPart text].

Definition emitChunk (text : jstr) (lastChunk : bool) : turn_step := fun t =>
  (with_text (ot_emittedText t ++ text) (ot_pendingChunk t) (S (ot_chunksEmitted t)) t,
   [EvArtifact (s_taskId (ot_send t)) (s_contextId (ot_send t)) (text_artifact text)
      (0 <? ot_chunksEmitted t) lastChunk]).

Definition set_chunk (c : option jstr) (t : OpenTurn) : OpenTurn :=
  with_text (ot_emittedText t) c (ot_chunksEmitted t) t.

(** One chunk is held back so that the last one can say it is the last. *)
Definition pushText (text : jstr) : turn_step := fun t =>
  match text with
  | [] => skip t
  | _ => ((match ot_pendingChunk t with Some c => emitChunk c false | None => skip end)%turn
          ;> update (set_chunk (Some text))) t
  end.

Definition flushText (last : bool) : turn_step := fun t =>
  match ot_pendingChunk t with
  | Some c => (emitChunk c last ;> update (set_chunk None)) t
  | None => skip t
  end.

Definition activity_artifact (card : AgentActivity) : Artifact :=
  mkArtifact ACTIVITY_ARTIFACT_ID (js "agent-activity")
    [mkPart (CData (activity_value card)) ACTIVITY_MEDIA_TYPE [] (VObj [])].

Definition emitActivity (card : AgentActivity) : turn_step := fun t =>
  (with_tools (ot_openTools t) (ot_toolNames t) (S (ot_activityEmitted t)) t,
   [EvArtifact (s_taskId (ot_send t)) (s_contextId (ot_send t)) (activity_artifact card)
      (0 <? ot_activityEmitted t) false]).

(** Settle cards whose tool_result never arrived. *)
Definition closeOpenActivities (status : AgentActivityStatus) : turn_step := fun t =>
  (for_each (ot_openTools t)
     (fun '(id, card) => emitActivity (activity id status (oc_described card)))
   ;> update (fun t => with_tools [] (ot_toolNames t) (ot_activityEmitted t) t)) t.

Definition add_name (name : jstr) (names : list jstr) : list jstr :=
  if decide (name ∈ names) then names else names ++ [name].

Definition has_tool (id : jstr) (t : OpenTurn) : bool := bool_decide (is_Some (assq id (ot_openTools t))).
Definition delete_tool (id : jstr) (l : list (jstr * OpenCard)) : list (jstr * OpenCard) :=
  filter (fun p => p.1 <> id) l.

Section Turn.
Context (url_host : jstr -> option jstr).

Definition openActivity (block : jsval) : turn_step := fun t =>
  match as_str (prop block (js "id")), as_str (prop block (js "name")) with
  | Some id, Some name =>
      if has_tool id t then skip t else
      let card := activity id Running (describeToolUse url_host name (prop block (js "input"))) in
      let deferred := starts_with TOOLBELT_PREFIX name in
      let open := mkOpenCard (mkDescription (a_title card)
                                (if deferred then a_details card else None) (a_icon card))
                    deferred in
      (update (fun t => with_tools (ot_openTools t ++ [(id, open)])
                          (add_name name (ot_toolNames t)) (ot_activityEmitted t) t)
       ;> flushText false
       ;> if deferred then skip else emitActivity card) t
  | _, _ => skip t
  end.

Definition assistant_block (block : jsval) : turn_step := fun t =>
  match asRecord block with
  | None => skip t
  | Some record =>
      if is_str (prop record (js "type")) (js "tool_use") then openActivity record t
      else if is_str (prop record (js "type")) (js "text") && negb (ot_sawStreamText t) then
        match as_str (prop record (js "text")) with
        | Some text => pushText text t
        | None => skip t
        end
      else skip t
  end.

Definition user_block (block : jsval) : turn_step := fun t =>
  match asRecord block with
  | None => skip t
  | Some record =>
      if negb (is_str (prop record (js "type")) (js "tool_result")) then skip t else
      match as_str (prop record (js "tool_use_id")) with
      | None => skip t
      | Some id =>
          match assq id (ot_openTools t) with
          | None => skip t
          | Some open =>
              (update (fun t => with_tools (delete_tool id (ot_openTools t))
                                  (ot_toolNames t) (ot_activityEmitted t) t)
               ;> flushText false
               ;> if oc_deferred open && refusedAsRedundant (prop record (js "content")) then skip
                  else emitActivity
                         (activity id
                            (match prop record (js "is_error") with VBool true => Failed | _ => Done end)
                            (oc_described open))) t
          end
      end
  end.

(** The part of [handleAssistant] and [handleUser] that runs on the open
    turn; a content that is not an array has no blocks. *)
Definition assistant_turn (aborted : bool) (content : jsval) : turn_step :=
  (if aborted then update (fun t => with_flags (ot_sawStreamText t) true (ot_terminalEmitted t) t)
   else skip)
  ;> match content with VArr blocks => for_each blocks assistant_block | _ => skip end.

Definition user_turn (content : jsval) : turn_step :=
  match content with VArr blocks => for_each blocks user_block | _ => skip end.

(** The text of a [content_block_delta]/[text_delta] event. *)
Definition is_text_delta (event : jsval) : bool :=
  is_str (prop event (js "type")) (js "content_block_delta") &&
  is_str (prop (prop event (js "delta")) (js "type")) (js "text_delta").

Definition stream_turn (event : jsval) : turn_step :=
  match as_str (prop (prop event (js "delta")) (js "text")) with
  | Some text =>
      update (fun t => with_flags true (ot_interrupted t) (ot_terminalEmitted t) t)
      ;> pushText text
  | None => skip
  end.
End Turn.

(** ** The translator *)

Record cumulative := mkCumulative {
  cu_cost : Qc;
  cu_input : Z;
  cu_output : Z;
  cu_cacheRead : Z;
  cu_cacheCreation : Z }.

Definition no_usage : cumulative := mkCumulative 0 0 0 0 0.

(** The private fields, and what the object did to the world: the events
    published, the warnings, the accounting records handed to the sink, the
    promises resolved, and how often the clock was read. *)
Record translator := mkTranslator {
  t_pending : list PendingSend;
  t_cumulative : cumulative;
  t_seqCounter : nat;
  t_seqOf : gmap jstr nat;
  t_turn : option OpenTurn;
  t_caps : option (list jstr);
  t_waiters : gset jstr;
  t_cancelRequested : gset jstr;
  t_ended : bool;
  t_ticks : nat;
  t_out : list AgentExecutionEvent;
  t_warnings : list jstr;
  t_records : list TurnAccounting;
  t_resolved : list jstr }.

Definition new_translator : translator :=
  mkTranslator [] no_usage 0 ∅ None None ∅ ∅ false 0 [] [] [] [].

Definition set_pending (p : list PendingSend) (s : translator) : translator :=
  mkTranslator p (t_cumulative s) (t_seqCounter s) (t_seqOf s) (t_turn s) (t_caps s)
    (t_waiters s) (t_cancelRequested s) (t_ended s) (t_ticks s) (t_out s) (t_warnings s)
    (t_records s) (t_resolved s).
Definition set_turn (o : option OpenTurn) (s : translator) : translator :=
  mkTranslator (t_pending s) (t_cumulative s) (t_seqCounter s) (t_seqOf s) o (t_caps s)
    (t_waiters s) (t_cancelRequested s) (t_ended s) (t_ticks s) (t_out s) (t_warnings s)
    (t_records s) (t_resolved s).
Definition set_generation (caps : option (list jstr)) (c : cumulative) (s : translator) : translator :=
  mkTranslator (t_pending s) c (t_seqCounter s) (t_seqOf s) (t_turn s) caps
    (t_waiters s) (t_cancelRequested s) (t_ended s) (t_ticks s) (t_out s) (t_warnings s)
    (t_records s) (t_resolved s).
Definition set_cancelRequested (c : gset jstr) (s : translator) : translator :=
  mkTranslator (t_pending s) (t_cumulative s) (t_seqCounter s) (t_seqOf s) (t_turn s) (t_caps s)
    (t_waiters s) c (t_ended s) (t_ticks s) (t_out s) (t_warnings s)
    (t_records s) (t_resolved s).
Definition set_ended (s : translator) : translator :=
  mkTranslator (t_pending s) (t_cumulative s) (t_seqCounter s) (t_seqOf s) (t_turn s) (t_caps s)
    (t_waiters s) (t_cancelRequested s) true (t_ticks s) (t_out s) (t_warnings s)
    (t_records s) (t_resolved s).
Definition tick (s : translator) : translator :=
  mkTranslator (t_pending s) (t_cumulative s) (t_seqCounter s) (t_seqOf s) (t_turn s) (t_caps s)
    (t_waiters s) (t_cancelRequested s) (t_ended s) (S (t_ticks s)) (t_out s) (t_warnings s)
    (t_records s) (t_resolved s).
Definition publish (es : list AgentExecutionEvent) (s : translator) : translator :=
  mkTranslator (t_pending s) (t_cumulative s) (t_seqCounter s) (t_seqOf s) (t_turn s) (t_caps s)
    (t_waiters s) (t_cancelRequested s) (t_ended s) (t_ticks s) (t_out s ++ es) (t_warnings s)
    (t_records s) (t_resolved s).
Definition warn (w : jstr) (s : translator) : translator :=
  mkTranslator (t_pending s) (t_cumulative s) (t_seqCounter s) (t_seqOf s) (t_turn s) (t_caps s)
    (t_waiters s) (t_cancelRequested s) (t_ended s) (t_ticks s) (t_out s) (t_warnings s ++ [w])
    (t_records s) (t_resolved s).
Definition log_record (r : TurnAccounting) (s : translator) : translator :=
  mkTranslator (t_pending s) (t_cumulative s) (t_seqCounter s) (t_seqOf s) (t_turn s) (t_caps s)
    (t_waiters s) (t_cancelRequested s) (t_ended s) (t_ticks s) (t_out s) (t_warnings s)
    (t_records s ++ [r]) (t_resolved s).

(** A turn step run on the open turn: the turn is written back and what it
    published goes out. *)
Definition on_turn (f : turn_step) (s : translator) : translator :=
  match t_turn s with
  | None => s
  | Some t => let (t', es) := f t in publish es (set_turn (Some t') s)
  end.

(** The promise is resolved only if a waiter is registered under the uuid. *)
Definition resolveWaiter (uuid : jstr) (s : translator) : translator :=
  mkTranslator (t_pending s) (t_cumulative s) (t_seqCounter s) (delete uuid (t_seqOf s))
    (t_turn s) (t_caps s) (t_waiters s ∖ {[uuid]}) (t_cancelRequested s) (t_ended s)
    (t_ticks s) (t_out s) (t_warnings s) (t_records s)
    (t_resolved s ++ (if decide (uuid ∈ t_waiters s) then [uuid] else [])).

(** [None] is the error thrown once the stream has ended. *)
Definition registerSend (send : PendingSend) (s : translator) : option translator :=
  if t_ended s then None else
  let n := S (t_seqCounter s) in
  Some (mkTranslator (t_pending s ++ [send]) (t_cumulative s) n
          (<[s_uuid send := n]> (t_seqOf s)) (t_turn s) (t_caps s)
          ({[s_uuid send]} ∪ t_waiters s) (t_cancelRequested s) (t_ended s) (t_ticks s)
          (t_out s) (t_warnings s) (t_records s) (t_resolved s)).

Definition is_turn_of (taskId : jstr) (t : OpenTurn) : bool := jeqb (s_taskId (ot_send t)) taskId.

Definition markCancelRequested (taskId : jstr) (s : translator) : translator :=
  let s1 := set_cancelRequested ({[taskId]} ∪ t_cancelRequested s) s in
  match t_turn s with
  | Some t => if is_turn_of taskId t
              then set_turn (Some (with_flags (ot_sawStreamText t) true (ot_terminalEmitted t) t)) s1
              else s1
  | None => s1
  end.

Definition markTerminalEmitted (taskId : jstr) (s : translator) : translator :=
  match t_turn s with
  | Some t => if is_turn_of taskId t
              then set_turn (Some (with_flags (ot_sawStreamText t) (ot_interrupted t) true t)) s
              else s
  | None => s
  end.

Section Methods.
(** The URL parser; the clock, read once per [now()]; and the accounting
    sink: absent, or a callback that returns or throws with a message. *)
Context (url_host : jstr -> option jstr) (clock : nat -> jstr)
  (sink : option (TurnAccounting -> option jstr)).

Definition now (s : translator) : jstr * translator := (clock (t_ticks s), tick s).

Definition agentMessage (send : PendingSend) (text : jstr) (s : translator) : Message * translator :=
  let (ts, s1) := now s in
  (mkMessage (s_taskId send ++ js "-status-" ++ ts) (s_contextId send) (s_taskId send)
     ROLE_AGENT [textPart text] (VObj []), s1).

Definition status (state : TaskState) (message : option Message) (s : translator)
  : TaskStatus * translator :=
  let (ts, s1) := now s in (mkStatus state message ts, s1).

Definition taskShell (send : PendingSend) (state : TaskState) (message : option Message)
    (metadata : jsval) (s : translator) : TaskData * translator :=
  let (st, s1) := status state message s in
  (mkTask (s_taskId send) (s_contextId send) st
     (match s_message send with Some m => [m] | None => [] end) metadata, s1).

Definition publishShell (send : PendingSend) (state : TaskState) (message : option Message)
    (metadata : jsval) (s : translator) : translator :=
  let (task, s1) := taskShell send state message metadata s in publish [EvTask task] s1.

Definition emitStatus (send : PendingSend) (state : TaskState) (message : option Message)
    (metadata : jsval) (s : translator) : translator :=
  let (st, s1) := status state message s in
  publish [EvStatus (s_taskId send) (s_contextId send) st metadata] s1.

Definition triggerOf (send : PendingSend) : jstr :=
  match s_message send with
  | Some m => default (js "human") (as_nonempty_str (meta m META_TRIGGER))
  | None => js "human"
  end.

(** A journal sink must never be able to fail a turn. *)
Definition safeRecord (record : TurnAccounting) (s : translator) : translator :=
  match sink with
  | None => s
  | Some call =>
      let s1 := log_record record s in
      match call record with
      | None => s1
      | Some err => warn (js "turn accounting sink failed: " ++ err) s1
      end
  end.

Definition deadTurnRecord (send : PendingSend) (toolsUsed : list jstr) (reason : jstr)
  : TurnAccounting :=
  mkAccounting (s_taskId send) (s_contextId send) (triggerOf send) (js "failed")
    0 0 0 0 0 0 0 toolsUsed [] (Some reason) 0.

Definition find_send (uuid : jstr) (l : list PendingSend) : option PendingSend :=
  snd <$> list_find (fun c => s_uuid c = uuid) l.

Definition new_turn (send : PendingSend) (s : translator) : OpenTurn :=
  mkTurn send (t_seqCounter s) [] None 0 false [] [] 0
    (bool_decide (s_taskId send ∈ t_cancelRequested s)) false.

Definition bind_turn (send : PendingSend) (s : translator) : translator :=
  publishShell send TASK_STATE_WORKING None (VObj []) (set_turn (Some (new_turn send s)) s).

Definition openTurn (userMessageUuid : option jstr) (s : translator) : translator :=
  match userMessageUuid with
  | Some uuid =>
      match find_send uuid (t_pending s) with
      | Some send => bind_turn send s
      | None =>
          match t_pending s with
          | [] => s
          | oldest :: _ =>
              bind_turn oldest
                (warn (js "turn bound to unknown user_message_uuid " ++ uuid
                       ++ js "; attributed to the oldest waiting send " ++ s_messageId oldest) s)
          end
      end
  | None =>
      match t_pending s with
      | [] => s
      | oldest :: _ => bind_turn oldest s
      end
  end.

(** Opens a turn unless one is open. *)
Definition ensureTurn (uuid : option jstr) (s : translator) : translator :=
  match t_turn s with Some _ => s | None => openTurn uuid s end.

Definition handleStreamEvent (parent uuid : option jstr) (event : jsval) (s : translator)
  : translator :=
  match parent with
  | Some _ => s
  | None =>
      let s1 := match uuid with Some _ => ensureTurn uuid s | None => s end in
      if is_text_delta event then
        on_turn (stream_turn event) (ensureTurn None s1)
      else s1
  end.

Definition handleAssistant (parent uuid : option jstr) (aborted : bool) (content : jsval)
    (s : translator) : translator :=
  match parent with
  | Some _ => s
  | None => on_turn (assistant_turn url_host aborted content) (ensureTurn uuid s)
  end.

Definition handleUser (parent : option jstr) (content : jsval) (s : translator) : translator :=
  match parent with
  | Some _ => s
  | None => on_turn (user_turn content) s
  end.

(** Which sends this turn consumed; what is left stays pending. *)
Definition seq_at_most (n : nat) (s : translator) (send : PendingSend) : bool :=
  match t_seqOf s !! s_uuid send with Some k => k <=? n | None => false end.

Definition takeFolded (primary : PendingSend) (queuedTurnCount : nat) (s : translator)
  : list PendingSend * translator :=
  let openSeq := match t_turn s with Some t => ot_openSeq t | None => t_seqCounter s end in
  let rest := filter (fun send => s_uuid send <> s_uuid primary) (t_pending s) in
  let eligible := filter (fun send => seq_at_most openSeq s send = true) rest in
  let ineligibleCount := length rest - length eligible in
  let queuedEligible := queuedTurnCount - ineligibleCount in
  let foldedExtra := length eligible - queuedEligible in
  let folded := take foldedExtra eligible in
  (primary :: folded,
   set_pending (filter (fun send => s_uuid send ∉ s_uuid <$> folded) rest) s).

Definition failure_detail (frame : SDKResultMessage) : jstr :=
  match r_errors frame with
  | [] => r_subtype frame
  | errors => join_with (js "; ") errors
  end.

Definition terminalStateFor (frame : SDKResultMessage) (turn : OpenTurn) (s : translator)
  : TaskState * Message * translator :=
  let answer (state : TaskState) (text : jstr) :=
    let (m, s1) := agentMessage (ot_send turn) text s in (state, m, s1) in
  if ot_interrupted turn || bool_decide (s_taskId (ot_send turn) ∈ t_cancelRequested s) then
    answer TASK_STATE_CANCELED (js "turn interrupted")
  else if is_success frame then
    if r_is_error frame then answer TASK_STATE_FAILED (r_result frame)
    else if bool_decide (is_Some (r_deferred_tool_use frame)) then
      answer TASK_STATE_INPUT_REQUIRED (r_result frame)
    else answer TASK_STATE_COMPLETED (r_result frame)
  else answer TASK_STATE_FAILED (failure_detail frame).

Definition errorOf (frame : SDKResultMessage) (state : TaskState) : option jstr :=
  match state with
  | TASK_STATE_CANCELED => Some (js "turn interrupted")
  | TASK_STATE_FAILED =>
      Some (if is_success frame then r_result frame else failure_detail frame)
  | _ => None
  end.

Definition deltaOf (current previous : Z) : Z :=
  if (previous <=? current)%Z then (current - previous)%Z else current.
Definition deltaOfCost (current previous : Qc) : Qc :=
  if decide (previous <= current)%Qc then (current - previous)%Qc else current.

Definition totals_of (frame : SDKResultMessage) : cumulative :=
  let u := r_usage frame in
  mkCumulative (default 0%Qc (r_total_cost_usd frame)) (default 0%Z (u_input u))
    (default 0%Z (u_output u)) (default 0%Z (u_cacheRead u)) (default 0%Z (u_cacheCreation u)).

Definition accounting_of (frame : SDKResultMessage) (turn : OpenTurn) (state : TaskState)
    (queued : nat) (base : cumulative) : TurnAccounting :=
  let current := totals_of frame in
  mkAccounting (s_taskId (ot_send turn)) (s_contextId (ot_send turn)) (triggerOf (ot_send turn))
    (stateName state) (r_duration_ms frame) (r_duration_api_ms frame)
    (deltaOfCost (cu_cost current) (cu_cost base))
    (deltaOf (cu_input current) (cu_input base))
    (deltaOf (cu_output current) (cu_output base))
    (deltaOf (cu_cacheRead current) (cu_cacheRead base))
    (deltaOf (cu_cacheCreation current) (cu_cacheCreation base))
    (ot_toolNames turn) (default [] (r_permission_denials frame)) (errorOf frame state) queued.

Definition recordAccounting (frame : SDKResultMessage) (turn : OpenTurn) (state : TaskState)
    (queued : nat) (s : translator) : translator :=
  match sink with
  | None => s
  | Some _ =>
      safeRecord (accounting_of frame turn state queued (t_cumulative s))
        (set_generation (t_caps s) (totals_of frame) s)
  end.

Definition questionMetadata (frame : SDKResultMessage) : list (jstr * jsval) :=
  match r_deferred_tool_use frame with
  | Some (name, input) =>
      if is_success frame && jeqb name (js "AskUserQuestion") then
        opt_field META_QUESTIONS (questions_value <$> parseAgentQuestions input)
      else []
  | None => []
  end.

Definition closing_status (state : TaskState) : AgentActivityStatus :=
  match state with
  | TASK_STATE_COMPLETED | TASK_STATE_INPUT_REQUIRED => Done
  | _ => Failed
  end.

(** The loop over the folded sends: all but the primary are acknowledged,
    and every one's waiter is resolved. *)
Definition ackFolded (primary : PendingSend) (s : translator) (send : PendingSend) : translator :=
  resolveWaiter (s_uuid send)
    (if decide (s_uuid send = s_uuid primary) then s
     else publishShell send TASK_STATE_COMPLETED None
            (VObj [(META_FOLDED_INTO, VStr (s_taskId primary))]) s).

Definition handleResult (frame : SDKResultMessage) (s0 : translator) : translator :=
  let s := ensureTurn (r_user_message_uuid frame) s0 in
  match t_turn s with
  | None => warn (js "result frame " ++ r_uuid frame ++ js " matched no pending send; dropped") s
  | Some turn =>
      let queued := default 0 (r_queued_turn_count frame) in
      let (folded, s1) := takeFolded (ot_send turn) queued s in
      let '(state, message, s2) := terminalStateFor frame turn s1 in
      let s3 := recordAccounting frame turn state queued s2 in
      let s4 := on_turn (closeOpenActivities (closing_status state) ;> flushText true)%turn s3 in
      let s5 :=
        if ot_terminalEmitted turn then s4
        else emitStatus (ot_send turn) state (Some message)
               (VObj ([(META_QUEUED_TURN_COUNT, VNum (Z.of_nat queued));
                       (META_FOLDED_MESSAGE_IDS, VArr (VStr ∘ s_messageId <$> folded))]
                      ++ questionMetadata frame)) s4 in
      let s6 := fold_left (ackFolded (ot_send turn)) folded s5 in
      set_turn None
        (set_cancelRequested (t_cancelRequested s6 ∖ {[s_taskId (ot_send turn)]}) s6)
  end.

Definition handleFrame (frame : SDKMessage) (s : translator) : translator :=
  match frame with
  | FSystem subtype capabilities =>
      if jeqb subtype (js "init") then set_generation capabilities no_usage s else s
  | FStreamEvent parent uuid event => handleStreamEvent parent uuid event s
  | FAssistant parent uuid aborted content => handleAssistant parent uuid aborted content s
  | FUser parent content => handleUser parent content s
  | FResult r => handleResult r s
  | FOther => s
  end.

(** One iteration of [endStream]'s loop over the sends that never got an
    answer. *)
Definition failPending (reason : jstr) (recorded : option jstr) (s : translator)
    (send : PendingSend) : translator :=
  let (m, s1) := agentMessage send reason s in
  let s2 := publishShell send TASK_STATE_FAILED (Some m) (VObj []) s1 in
  let s3 := if decide (Some (s_uuid send) = recorded) then s2
            else safeRecord (deadTurnRecord send [] reason) s2 in
  resolveWaiter (s_uuid send) s3.

Definition failOpenTurn (reason : jstr) (turn : OpenTurn) (s : translator) : translator :=
  let s1 := on_turn (closeOpenActivities Failed ;> flushText true)%turn s in
  let (m, s2) := agentMessage (ot_send turn) reason s1 in
  let s3 := emitStatus (ot_send turn) TASK_STATE_FAILED (Some m) (VObj []) s2 in
  let s4 := safeRecord (deadTurnRecord (ot_send turn) (ot_toolNames turn) reason) s3 in
  set_turn None (resolveWaiter (s_uuid (ot_send turn)) s4).

Definition endStream (reason : jstr) (s : translator) : translator :=
  if t_ended s then s else
  let s1 := set_ended s in
  let (s2, recorded) :=
    match t_turn s1 with
    | Some turn => if ot_terminalEmitted turn then (s1, None)
                   else (failOpenTurn reason turn s1, Some (s_uuid (ot_send turn)))
    | None => (s1, None)
    end in
  set_pending [] (fold_left (failPending reason recorded) (t_pending s2) s2).

Definition capabilities (s : translator) : option (list jstr) := t_caps s.
Definition openTaskId (s : translator) : option jstr := s_taskId ∘ ot_send <$> t_turn s.
End Methods.
