(* ===== verification/TranslatorText.v ===== *)
(** Facts about the open turn of [Translator]: which text and which cards
    the handlers publish. *)

From S2P Require Import Prelude Activity Questions A2A Translator.
From Stdlib Require Import Qcanon.
From stdpp Require Import base numbers list gmap.
#[local] Open Scope nat_scope.

(** ** Text chunks *)

(** A text chunk among the events: its text, [append] and [lastChunk]. *)
Definition text_chunk (e : AgentExecutionEvent) : option (jstr * bool * bool) :=
  match e with
  | EvArtifact _ _ a append last =>
      if decide (ar_artifactId a = ASSISTANT_TEXT_ARTIFACT_ID) then
        match ar_parts a with
        | [mkPart (CText s) _ _ _] => Some (s, append, last)
        | _ => None
        end
      else None
  | _ => None
  end.

Definition chunks (es : list AgentExecutionEvent) : list (jstr * bool * bool) := omap text_chunk es.
Definition chunk_texts (es : list AgentExecutionEvent) : jstr :=
  concat ((fun c => c.1.1) <$> chunks es).

(** [append] is false exactly on the first chunk of the task. *)
Fixpoint appends_from (n : nat) (cs : list (jstr * bool * bool)) : Prop :=
  match cs with
  | [] => True
  | c :: rest => c.1.2 = (0 <? n) /\ appends_from (S n) rest
  end.

Lemma chunks_app es1 es2 : chunks (es1 ++ es2) = chunks es1 ++ chunks es2.
Proof. apply omap_app. Qed.

Lemma chunk_texts_app es1 es2 : chunk_texts (es1 ++ es2) = chunk_texts es1 ++ chunk_texts es2.
Proof. unfold chunk_texts. by rewrite chunks_app, fmap_app, concat_app. Qed.

Lemma appends_from_app n cs1 cs2 :
  appends_from n (cs1 ++ cs2) <-> appends_from n cs1 /\ appends_from (n + length cs1) cs2.
Proof.
  revert n; induction cs1 as [|c cs1 IH]; intros n; simpl.
  - rewrite Nat.add_0_r. tauto.
  - rewrite IH, Nat.add_succ_comm. tauto.
Qed.

Definition held (t : OpenTurn) : jstr := default [] (ot_pendingChunk t).

(** The accounting of one step: what it published extends what had been
    emitted, and what is emitted or held grows by exactly [txt]. No chunk
    published on the way is marked last. *)
Record pushes (txt : jstr) (f : turn_step) (t : OpenTurn) : Prop := mk_pushes {
  pu_emitted : ot_emittedText (f t).1 = ot_emittedText t ++ chunk_texts (f t).2;
  pu_total : ot_emittedText (f t).1 ++ held (f t).1 = ot_emittedText t ++ held t ++ txt;
  pu_count : ot_chunksEmitted (f t).1 = ot_chunksEmitted t + length (chunks (f t).2);
  pu_append : appends_from (ot_chunksEmitted t) (chunks (f t).2);
  pu_notlast : Forall (fun c => c.2 = false) (chunks (f t).2);
  pu_saw : ot_sawStreamText (f t).1 = ot_sawStreamText t }.

(** A step that publishes no text and moves none. *)
Lemma pushes_silent f t :
  chunks (f t).2 = [] -> ot_emittedText (f t).1 = ot_emittedText t ->
  ot_pendingChunk (f t).1 = ot_pendingChunk t ->
  ot_chunksEmitted (f t).1 = ot_chunksEmitted t ->
  ot_sawStreamText (f t).1 = ot_sawStreamText t -> pushes [] f t.
Proof.
  intros Hc He Hp Hn Hs.
  split; unfold chunk_texts, held; rewrite ?He, ?Hn, ?Hp, ?Hc, ?app_nil_r; simpl; auto with lia.
Qed.

(** A step is judged by what it does at this turn. *)
Lemma pushes_at a f g t : f t = g t -> pushes a g t -> pushes a f t.
Proof. intros E []. by split; rewrite E. Qed.

Lemma pushes_skip t : pushes [] skip t.
Proof. by apply pushes_silent. Qed.

Lemma then_fst f g t : (then_ f g t).1 = (g (f t).1).1.
Proof. unfold then_. destruct (f t) as [t1 e1]; simpl. by destruct (g t1). Qed.
Lemma then_snd f g t : (then_ f g t).2 = (f t).2 ++ (g (f t).1).2.
Proof. unfold then_. destruct (f t) as [t1 e1]; simpl. by destruct (g t1). Qed.

Lemma pushes_then a b f g t :
  pushes a f t -> pushes b g (f t).1 -> pushes (a ++ b) (then_ f g) t.
Proof.
  intros [E1 T1 C1 A1 L1 S1] [E2 T2 C2 A2 L2 S2].
  split; rewrite ?then_fst, ?then_snd, ?chunk_texts_app, ?chunks_app.
  - by rewrite E2, E1, app_assoc.
  - rewrite T2, (app_assoc _ (held _) b), T1, !app_assoc. done.
  - rewrite C2, C1, length_app. lia.
  - apply appends_from_app. split; [done|]. by rewrite <- C1.
  - by apply Forall_app.
  - congruence.
Qed.

Lemma pushes_then_nil a f g t :
  pushes a f t -> pushes [] g (f t).1 -> pushes a (then_ f g) t.
Proof. intros. rewrite <- (app_nil_r a). by apply pushes_then. Qed.

Lemma chunks_text t s last n :
  chunks [EvArtifact (s_taskId t) (s_contextId t) (text_artifact s) n last] = [(s, n, last)].
Proof. reflexivity. Qed.

Lemma chunks_card t card n :
  chunks [EvArtifact (s_taskId t) (s_contextId t) (activity_artifact card) n false] = [].
Proof. reflexivity. Qed.

(** Flushing without closing moves the held chunk out. *)
Lemma pushes_flush t : pushes [] (flushText false) t.
Proof.
  unfold flushText. split; destruct (ot_pendingChunk t) as [c|] eqn:E;
    unfold held, chunk_texts; rewrite ?then_fst, ?then_snd; simpl;
    rewrite ?E; simpl; rewrite ?app_nil_r; auto; lia.
Qed.

Lemma pushes_pushText text t : pushes text (pushText text) t.
Proof.
  unfold pushText. destruct text as [|c text]; [apply pushes_skip|].
  split; destruct (ot_pendingChunk t) as [h|] eqn:E;
    unfold held, chunk_texts; rewrite ?then_fst, ?then_snd; simpl;
    rewrite ?E; simpl; rewrite ?app_nil_r, <- ?app_assoc; auto; lia.
Qed.

Lemma pushes_emitActivity card t : pushes [] (emitActivity card) t.
Proof. by apply pushes_silent. Qed.

Lemma pushes_tools f t :
  (forall t, ot_emittedText (f t) = ot_emittedText t /\ ot_pendingChunk (f t) = ot_pendingChunk t /\
   ot_chunksEmitted (f t) = ot_chunksEmitted t /\ ot_sawStreamText (f t) = ot_sawStreamText t) ->
  pushes [] (update f) t.
Proof. intros H. destruct (H t) as (? & ? & ? & ?). by apply pushes_silent. Qed.

#[export] Hint Resolve pushes_skip pushes_flush pushes_pushText pushes_emitActivity
  pushes_then_nil : thicket.
#[export] Hint Extern 1 (pushes [] (update _) _) => apply pushes_tools; done : thicket.

Lemma pushes_for_each {A} (l : list A) (f : A -> turn_step) (txt : A -> jstr) (P : OpenTurn -> Prop) t :
  P t ->
  (forall x t, P t -> pushes (txt x) (f x) t /\ P (f x t).1) ->
  pushes (concat (txt <$> l)) (for_each l f) t /\ P (for_each l f t).1.
Proof.
  intros Ht Hf. revert t Ht. induction l as [|x l IH]; intros t Ht; csimpl.
  - split; [apply pushes_skip|done].
  - destruct (Hf x t Ht) as [Hp HP]. destruct (IH _ HP) as [Hp2 HP2].
    split; [by apply pushes_then|by rewrite then_fst].
Qed.

(** An assistant text block, read the way [handleAssistant] reads it. *)
Definition assistant_block_text (block : jsval) : jstr :=
  match asRecord block with
  | Some r =>
      if is_str (prop r (js "type")) (js "tool_use") then []
      else if is_str (prop r (js "type")) (js "text") then default [] (as_str (prop r (js "text")))
      else []
  | None => []
  end.

Lemma pushes_openActivity url_host block t : pushes [] (openActivity url_host block) t.
Proof.
  unfold openActivity.
  destruct (as_str (prop block (js "id"))) as [id|]; [|apply pushes_skip].
  destruct (as_str (prop block (js "name"))) as [name|]; [|apply pushes_skip].
  destruct (has_tool id t) eqn:Eh.
  - eapply pushes_at; [cbv beta; rewrite Eh; reflexivity|apply pushes_skip].
  - eapply (pushes_at _ _ (_ ;> _)%turn); [cbv beta; rewrite Eh; reflexivity|].
    apply pushes_then_nil; [auto with thicket|apply pushes_then_nil; [auto with thicket|]].
    destruct (starts_with _ _); auto with thicket.
Qed.

Lemma pushes_assistant_block url_host block t :
  pushes (if ot_sawStreamText t then [] else assistant_block_text block)
    (assistant_block url_host block) t.
Proof.
  unfold assistant_block, assistant_block_text.
  destruct (asRecord block) as [r|].
  2:{ destruct (ot_sawStreamText t); apply pushes_skip. }
  destruct (is_str (prop r (js "type")) (js "tool_use")).
  { destruct (ot_sawStreamText t); apply pushes_openActivity. }
  destruct (is_str (prop r (js "type")) (js "text")); simpl;
    destruct (ot_sawStreamText t) eqn:Es; simpl;
    try (eapply pushes_at; [cbv beta; rewrite ?Es; reflexivity|apply pushes_skip]).
  destruct (as_str (prop r (js "text"))) as [x|]; simpl.
  - apply (pushes_at _ _ (pushText x)); [by rewrite Es|auto with thicket].
  - apply (pushes_at _ _ skip); [by rewrite Es|auto with thicket].
Qed.

Lemma pushes_user_block block t : pushes [] (user_block block) t.
Proof.
  unfold user_block. destruct (asRecord block) as [r|]; [|apply pushes_skip].
  destruct (negb _); [apply pushes_skip|].
  destruct (as_str (prop r (js "tool_use_id"))) as [id|]; [|apply pushes_skip].
  destruct (assq id (ot_openTools t)) as [open|] eqn:E.
  2:{ apply (pushes_at _ _ skip); [by rewrite E|auto with thicket]. }
  eapply (pushes_at _ _ (_ ;> _)%turn); [cbv beta; rewrite E; reflexivity|].
  apply pushes_then_nil; [auto with thicket|apply pushes_then_nil; [auto with thicket|]].
  destruct (oc_deferred open && _); auto with thicket.
Qed.

(** ** Frames on the open turn *)

(** The text the operator's model wrote in a frame, given whether deltas
    already carried it: deltas always count, a complete message only when
    no delta did; subagent traffic and tool results never. *)
Definition frame_text (saw : bool) (f : SDKMessage) : jstr :=
  match f with
  | FStreamEvent None _ event =>
      if is_text_delta event then default [] (as_str (prop (prop event (js "delta")) (js "text")))
      else []
  | FAssistant None _ _ (VArr blocks) => if saw then [] else concat (assistant_block_text <$> blocks)
  | _ => []
  end.

Definition frame_saw (saw : bool) (f : SDKMessage) : bool :=
  match f with
  | FStreamEvent None _ event =>
      saw || (is_text_delta event
              && bool_decide (is_Some (as_str (prop (prop event (js "delta")) (js "text")))))
  | _ => saw
  end.

Fixpoint frames_text (saw : bool) (fs : list SDKMessage) : jstr :=
  match fs with
  | [] => []
  | f :: rest => frame_text saw f ++ frames_text (frame_saw saw f) rest
  end.

Definition is_result (f : SDKMessage) : bool := match f with FResult _ => true | _ => false end.

(** What a frame other than a result does to a turn that is already open. *)
Definition frame_turn (url_host : jstr -> option jstr) (f : SDKMessage) : turn_step :=
  match f with
  | FStreamEvent None _ event => if is_text_delta event then stream_turn event else skip
  | FAssistant None _ aborted content => assistant_turn url_host aborted content
  | FUser None content => user_turn content
  | _ => skip
  end.

(** As [pushes], without the claim that the delta flag is unchanged. *)
Record moves (txt : jstr) (f : turn_step) (t : OpenTurn) : Prop := mk_moves {
  mv_emitted : ot_emittedText (f t).1 = ot_emittedText t ++ chunk_texts (f t).2;
  mv_total : ot_emittedText (f t).1 ++ held (f t).1 = ot_emittedText t ++ held t ++ txt;
  mv_count : ot_chunksEmitted (f t).1 = ot_chunksEmitted t + length (chunks (f t).2);
  mv_append : appends_from (ot_chunksEmitted t) (chunks (f t).2);
  mv_notlast : Forall (fun c => c.2 = false) (chunks (f t).2) }.

Lemma pushes_moves a f t : pushes a f t -> moves a f t.
Proof. by intros []. Qed.

Lemma frame_turn_moves url_host f t :
  moves (frame_text (ot_sawStreamText t) f) (frame_turn url_host f) t /\
  ot_sawStreamText (frame_turn url_host f t).1 = frame_saw (ot_sawStreamText t) f.
Proof.
  assert (Hskip : moves [] skip t /\ ot_sawStreamText (skip t).1 = ot_sawStreamText t)
    by (split; [apply pushes_moves, pushes_skip|done]).
  destruct f as [|[p|] uuid event|[p|] uuid aborted content|[p|] content|r|]; simpl; auto.
  - destruct (is_text_delta event); simpl; [|by rewrite orb_false_r].
    unfold stream_turn.
    destruct (as_str _) as [x|] eqn:E; simpl; [|by rewrite orb_false_r].
    rewrite bool_decide_eq_true_2, orb_true_r by eauto.
    set (t1 := with_flags true (ot_interrupted t) (ot_terminalEmitted t) t).
    destruct (pushes_pushText x t1) as [H1 H2 H3 H4 H5 H6].
    split; [split; rewrite ?then_fst, ?then_snd; simpl; done|].
    rewrite then_fst. exact H6.
  - assert (Hb : forall blocks t0, ot_sawStreamText t0 = ot_sawStreamText t ->
      pushes (if ot_sawStreamText t then [] else concat (assistant_block_text <$> blocks))
        (for_each blocks (assistant_block url_host)) t0).
    { intros blocks t0 H0.
      pose proof (pushes_for_each blocks (assistant_block url_host)
        (fun b => if ot_sawStreamText t then [] else assistant_block_text b)
        (fun t' => ot_sawStreamText t' = ot_sawStreamText t) t0 H0) as [Hp _].
      - intros b t' Ht'. pose proof (pushes_assistant_block url_host b t') as Hp.
        rewrite Ht' in Hp. split; [done|]. by rewrite (pu_saw _ _ _ Hp).
      - destruct (ot_sawStreamText t); [|done].
        by replace (concat _) with (@nil N) in Hp by (clear; induction blocks; done). }
    assert (Hf : pushes [] (if aborted then update (fun t => with_flags (ot_sawStreamText t) true
        (ot_terminalEmitted t) t) else skip) t) by (destruct aborted; auto with thicket).
    unfold assistant_turn.
    pose proof (pu_saw _ _ _ Hf) as Hsaw.
    destruct content as [| | | | |blocks|];
      try (assert (Hp := pushes_then_nil _ _ _ _ Hf (pushes_skip _));
           split; [apply pushes_moves, Hp|apply (pu_saw _ _ _ Hp)]).
    assert (Hp := pushes_then _ _ _ _ _ Hf (Hb blocks _ Hsaw)).
    split; [apply pushes_moves, Hp|apply (pu_saw _ _ _ Hp)].
  - unfold user_turn. destruct content as [| | | | |blocks|]; auto.
    pose proof (pushes_for_each blocks user_block (fun _ => []) (fun _ => True) t I) as [Hp _].
    { intros b t' _. split; [apply pushes_user_block|done]. }
    replace (concat _) with (@nil N) in Hp by (clear; induction blocks; done).
    split; [apply pushes_moves, Hp|apply (pu_saw _ _ _ Hp)].
Qed.

(** Cards leave the text alone. *)
Lemma pushes_closeOpenActivities st t : pushes [] (closeOpenActivities st) t.
Proof.
  unfold closeOpenActivities. eapply (pushes_at _ _ (_ ;> _)%turn); [reflexivity|].
  apply pushes_then_nil; [|auto with thicket].
  pose proof (pushes_for_each (ot_openTools t)
    (fun '(id, card) => emitActivity (activity id st (oc_described card)))
    (fun _ => []) (fun _ => True) t I) as [Hp _].
  { intros [id card] t' _. split; [apply pushes_emitActivity|done]. }
  by replace (concat _) with (@nil N) in Hp by (clear; induction (ot_openTools t); done).
Qed.

#[export] Hint Resolve pushes_closeOpenActivities : thicket.

(** ** The translator over an open turn *)

Section Translator.
Context (url_host : jstr -> option jstr) (clock : nat -> jstr)
  (sink : option (TurnAccounting -> option jstr)).

Abbreviation handle := (handleFrame url_host clock sink).
Abbreviation result := (handleResult clock sink).

Lemma on_turn_open f s t :
  t_turn s = Some t ->
  t_turn (on_turn f s) = Some (f t).1 /\ t_out (on_turn f s) = t_out s ++ (f t).2.
Proof. intros E. unfold on_turn. rewrite E. by destruct (f t). Qed.

Lemma ensureTurn_open uuid s t : t_turn s = Some t -> ensureTurn clock uuid s = s.
Proof. intros E. unfold ensureTurn. by rewrite E. Qed.

Lemma handleFrame_open f s t :
  is_result f = false -> t_turn s = Some t ->
  t_turn (handle f s) = Some (frame_turn url_host f t).1 /\
  t_out (handle f s) = t_out s ++ (frame_turn url_host f t).2.
Proof.
  intros Hr E.
  assert (Hskip : t_turn s = Some t /\ t_out s = t_out s ++ []) by (by rewrite app_nil_r).
  destruct f as [sub caps|[p|] uuid event|[p|] uuid ab content|[p|] content|r|]; simpl; auto.
  - destruct (jeqb sub _); simpl; auto.
  - assert ((match uuid with Some _ => ensureTurn clock uuid s | None => s end) = s) as ->
      by (destruct uuid; eauto using ensureTurn_open).
    destruct (is_text_delta event); simpl; auto.
    rewrite (ensureTurn_open _ _ _ E). by apply on_turn_open.
  - rewrite (ensureTurn_open _ _ _ E). by apply on_turn_open.
  - by apply on_turn_open.
  - done.
Qed.

(** Text invariant of a run of frames over one turn, [es] being what the
    run published. *)
Definition carried (n : nat) (t0 t : OpenTurn) (es : list AgentExecutionEvent) (txt : jstr) : Prop :=
  ot_emittedText t = ot_emittedText t0 ++ chunk_texts es /\
  ot_emittedText t ++ held t = ot_emittedText t0 ++ held t0 ++ txt /\
  ot_chunksEmitted t = n + length (chunks es) /\
  appends_from n (chunks es) /\ Forall (fun c => c.2 = false) (chunks es).

Lemma handleFrames_open fs : forall s t,
  Forall (fun f => is_result f = false) fs -> t_turn s = Some t ->
  exists t' es, t_turn (fold_left (fun s f => handle f s) fs s) = Some t' /\
    t_out (fold_left (fun s f => handle f s) fs s) = t_out s ++ es /\
    carried (ot_chunksEmitted t) t t' es (frames_text (ot_sawStreamText t) fs).
Proof.
  induction fs as [|f fs IH]; intros s t Hall Ht.
  - exists t, []. unfold carried, chunk_texts; simpl. rewrite Nat.add_0_r.
    split_and!; rewrite ?app_nil_r; auto.
  - inversion Hall as [|? ? Hf Hfs]; subst.
    destruct (handleFrame_open f s t Hf Ht) as [Ht1 Ho1].
    destruct (frame_turn_moves url_host f t) as [[M1 M2 M3 M4 M5] Msaw].
    destruct (IH _ _ Hfs Ht1) as (t' & es & Ht' & Hes & C1 & C2 & C3 & C4 & C5).
    exists t', ((frame_turn url_host f t).2 ++ es). simpl.
    split; [done|]. split; [by rewrite Hes, Ho1, app_assoc|].
    rewrite Msaw in C2. unfold carried.
    rewrite chunk_texts_app, chunks_app, length_app.
    split_and!; [by rewrite C1, M1, app_assoc| |lia| |by apply Forall_app].
    + rewrite C2, (app_assoc _ (held _) (frames_text _ _)), M2, !app_assoc. done.
    + apply appends_from_app. split; [done|]. by rewrite <- M3.
Qed.

(** What [flushText true] publishes. *)
Lemma flush_last t :
  chunks (flushText true t).2 =
  match ot_pendingChunk t with Some c => [(c, 0 <? ot_chunksEmitted t, true)] | None => [] end.
Proof. unfold flushText. destruct (ot_pendingChunk t); reflexivity. Qed.

(** Events that carry no text. *)
Definition no_artifact (e : AgentExecutionEvent) : Prop :=
  match e with EvArtifact _ _ _ _ _ => False | _ => True end.
Definition textless (es : list AgentExecutionEvent) : Prop := Forall no_artifact es.

Lemma textless_chunks es : textless es -> chunks es = [].
Proof. induction 1 as [|e es He _ IH]; [done|]. by destruct e. Qed.

Lemma publish_textless es s : textless es ->
  exists es', t_out (publish es s) = t_out s ++ es' /\ textless es'.
Proof. eauto. Qed.

Lemma emitStatus_out send st m md s : exists es,
  t_out (emitStatus clock send st m md s) = t_out s ++ es /\ textless es.
Proof. eexists. split; [reflexivity|by repeat constructor]. Qed.

Lemma publishShell_out send st m md s : exists es,
  t_out (publishShell clock send st m md s) = t_out s ++ es /\ textless es.
Proof. eexists. split; [reflexivity|by repeat constructor]. Qed.

Lemma ackFolded_out p folded s : exists es,
  t_out (fold_left (ackFolded clock p) folded s) = t_out s ++ es /\ textless es.
Proof.
  revert s; induction folded as [|x l IH]; intros s; simpl.
  - exists []. rewrite app_nil_r. split; [done|constructor].
  - destruct (IH (ackFolded clock p s x)) as (es & -> & Hes).
    assert (exists e, t_out (ackFolded clock p s x) = t_out s ++ e /\ textless e)
      as (e & -> & He).
    { unfold ackFolded. destruct (decide _).
      - exists []. rewrite app_nil_r. split; [done|constructor].
      - eexists; split; [reflexivity|by repeat constructor]. }
    exists (e ++ es). rewrite app_assoc. split; [done|by apply Forall_app].
Qed.

(** Steps that neither publish nor touch the turn. *)
Definition quiet (s s' : translator) : Prop := t_out s' = t_out s /\ t_turn s' = t_turn s.

Lemma takeFolded_quiet p q s : quiet s (takeFolded p q s).2.
Proof. done. Qed.
Lemma terminalStateFor_quiet f t s : quiet s (terminalStateFor clock f t s).2.
Proof. unfold terminalStateFor, agentMessage, now; cbv zeta beta iota. by repeat case_match. Qed.
Lemma safeRecord_quiet r s : quiet s (safeRecord sink r s).
Proof. unfold safeRecord. by repeat case_match. Qed.
Lemma recordAccounting_quiet f t st q s : quiet s (recordAccounting sink f t st q s).
Proof.
  unfold recordAccounting. destruct sink eqn:E; [|done]. rewrite <- E.
  apply (safeRecord_quiet _ (set_generation (t_caps s) (totals_of f) s)).
Qed.

Lemma handleResult_out f s t : t_turn s = Some t -> exists state es,
  t_out (result f s) =
    t_out s ++ ((closeOpenActivities (closing_status state) ;> flushText true)%turn t).2 ++ es
  /\ textless es /\ t_turn (result f s) = None.
Proof.
  intros Et. unfold handleResult. rewrite (ensureTurn_open _ _ _ Et), Et.
  pose proof (takeFolded_quiet (ot_send t) (default 0 (r_queued_turn_count f)) s) as [Ho1 Ht1].
  destruct (takeFolded _ _ _) as [folded s1]; simpl in *.
  pose proof (terminalStateFor_quiet f t s1) as [Ho2 Ht2].
  destruct (terminalStateFor _ _ _ _) as [[state m] s2]; simpl in *.
  pose proof (recordAccounting_quiet f t state (default 0 (r_queued_turn_count f)) s2) as [Ho3 Ht3].
  set (s3 := recordAccounting _ _ _ _ _ _) in *.
  assert (Et3 : t_turn s3 = Some t) by congruence.
  destruct (on_turn_open (closeOpenActivities (closing_status state) ;> flushText true)%turn s3 t Et3)
    as [_ Ho4].
  set (s4 := on_turn _ s3) in *.
  match goal with |- context [fold_left _ _ ?x] => set (s5 := x) end.
  assert (exists e, t_out s5 = t_out s4 ++ e /\ textless e) as (e5 & Ho5 & Hl5).
  { subst s5. destruct (ot_terminalEmitted t).
    - exists []. rewrite app_nil_r. split; [done|constructor].
    - eexists; split; [reflexivity|by repeat constructor]. }
  destruct (ackFolded_out (ot_send t) folded s5) as (e6 & Ho6 & Hl6).
  exists state, (e5 ++ e6). simpl. split_and!; [|by apply Forall_app|done].
  rewrite Ho6, Ho5, Ho4, Ho3, Ho2, Ho1, !app_assoc. done.
Qed.
End Translator.

(** C2: text fidelity. Whatever frames reach a freshly opened turn before
    its result — deltas, complete messages, tool calls and their results,
    subagent traffic, interleaved in any order — the text chunks published
    by the time the result has been handled concatenate to exactly the
    assistant's text, each character once (deltas are not repeated by the
    complete message); the first chunk alone opens the artifact, all later
    ones append, and only the final chunk may be marked last. *)
Theorem translator_text_exact url_host clock sink s t fs r :
  t_turn s = Some t ->
  ot_emittedText t = [] -> ot_pendingChunk t = None -> ot_chunksEmitted t = 0 ->
  Forall (fun f => is_result f = false) fs ->
  let s' := handleFrame url_host clock sink (FResult r)
              (fold_left (fun s f => handleFrame url_host clock sink f s) fs s) in
  exists es, t_out s' = t_out s ++ es /\ t_turn s' = None /\
    chunk_texts es = frames_text (ot_sawStreamText t) fs /\
    appends_from 0 (chunks es) /\
    Forall (fun c => c.2 = false) (take (length (chunks es) - 1) (chunks es)).
Proof.
  intros Et E1 E2 E3 Hfs s'.
  destruct (handleFrames_open url_host clock sink fs s t Hfs Et)
    as (t1 & es & Et1 & Ho1 & C1 & C2 & C3 & C4 & C5).
  destruct (handleResult_out clock sink r _ t1 Et1) as (state & e2 & Ho2 & Hl2 & Hn).
  apply textless_chunks in Hl2.
  exists (es ++ ((closeOpenActivities (closing_status state) ;> flushText true)%turn t1).2 ++ e2).
  subst s'. cbn [handleFrame]. split; [by rewrite Ho2, Ho1, <- app_assoc|]. split; [exact Hn|].
  rewrite then_snd.
  destruct (pushes_closeOpenActivities (closing_status state) t1) as [P1 P2 P3 P4 P5 _].
  set (t2 := (closeOpenActivities (closing_status state) t1).1) in *.
  set (ec := (closeOpenActivities (closing_status state) t1).2) in *.
  pose proof (flush_last t2) as Hfl.
  assert (Hcs : chunks (es ++ (ec ++ (flushText true t2).2) ++ e2) =
    (chunks es ++ chunks ec) ++ chunks (flushText true t2).2).
  { rewrite !chunks_app, Hl2, app_nil_r. by rewrite app_assoc. }
  unfold chunk_texts in *. rewrite Hcs, !fmap_app, !concat_app. clear Hcs.
  assert (Hheld : concat ((fun c => c.1.1) <$> chunks (flushText true t2).2) = held t2).
  { rewrite Hfl. unfold held. destruct (ot_pendingChunk t2); simpl; by rewrite ?app_nil_r. }
  assert (Hn0 : length (chunks es ++ chunks ec) = ot_chunksEmitted t2).
  { rewrite length_app. lia. }
  split_and!.
  - rewrite Hheld. unfold held in C2 at 2. rewrite E1, E2 in C2; simpl in C2.
    rewrite E1 in C1; simpl in C1. rewrite app_nil_r in P2.
    rewrite <- C2, <- P2, <- app_assoc, P1, C1, !app_assoc. done.
  - rewrite E3 in *. apply appends_from_app; split.
    + apply appends_from_app; split; [done|]. by rewrite <- C3.
    + rewrite Hn0, Hfl. destruct (ot_pendingChunk t2); simpl; auto.
  - assert (Hall : Forall (fun c => c.2 = false) (chunks es ++ chunks ec)).
    { apply Forall_app. by split. }
    rewrite Hfl. destruct (ot_pendingChunk t2); simpl.
    + rewrite length_app, Nat.add_sub, take_app_length. done.
    + rewrite app_nil_r. by apply Forall_take.
Qed.

(** A small session used by the witnesses. *)
Definition sample_send : PendingSend := mkSend (js "u1") (js "m1") (js "t1") (js "c1") None.
Definition sample_delta (text : string) : SDKMessage :=
  FStreamEvent None (Some (js "u1"))
    (VObj [(js "type", VStr (js "content_block_delta"));
           (js "delta", VObj [(js "type", VStr (js "text_delta")); (js "text", VStr (js text))])]).
Definition sample_tool : SDKMessage :=
  FAssistant None (Some (js "u1")) false
    (VArr [VObj [(js "type", VStr (js "text")); (js "text", VStr (js "Hello"))];
           VObj [(js "type", VStr (js "tool_use")); (js "id", VStr (js "k1"));
                 (js "name", VStr (js "Read"))]]).
Definition sample_result : SDKResultMessage :=
  mkResult (js "r1") (Some (js "u1")) None (js "success") false (js "Hello") [] None 5 4
    (Some 1%Qc) (mkUsage (Some 10%Z) (Some 20%Z) None None) None.
Definition sample_open : translator :=
  set_turn (Some (new_turn sample_send new_translator)) (set_pending [sample_send] new_translator).

Lemma translator_text_exact_witness :
  exists es, t_out (handleFrame (fun _ => None) (fun _ => []) None (FResult sample_result)
    (fold_left (fun s f => handleFrame (fun _ => None) (fun _ => []) None f s)
       [sample_delta "Hel"; sample_tool; sample_delta "lo"] sample_open)) = [] ++ es /\
    chunk_texts es = js "Hello".
Proof.
  destruct (translator_text_exact (fun _ => None) (fun _ => []) None sample_open
    (new_turn sample_send new_translator)
    [sample_delta "Hel"; sample_tool; sample_delta "lo"] sample_result) as (es & H1 & _ & H2 & _);
    try reflexivity.
  { repeat constructor. }
  exists es. split; [exact H1|]. rewrite H2. vm_compute. reflexivity.
Defined.
