(* ===== verification/TranslatorSends.v ===== *)
(** Facts about the sends of [Translator]: every registered send is either
    waiting or settled, exactly once; which sends a turn folds; what is
    published for whom. *)

From S2P Require Import Prelude Activity Questions A2A Translator TranslatorText.
From Stdlib Require Import Qcanon.
From stdpp Require Import base numbers list gmap.
#[local] Open Scope nat_scope.

Abbreviation uuids := (fmap s_uuid).

(** An event that moves task [tid] to a state it never leaves. *)
Definition settles (tid : jstr) (e : AgentExecutionEvent) : Prop :=
  event_task e = tid /\ terminal <$> event_state e = Some true.

#[export] Instance settles_dec tid e : Decision (settles tid e).
Proof. apply _. Defined.

Definition terms (tid : jstr) (es : list AgentExecutionEvent) : nat :=
  length (filter (settles tid) es).
Definition owed (tid : jstr) (l : list PendingSend) : nat :=
  length (filter (fun x => s_taskId x = tid) l).

Lemma terms_app tid es1 es2 : terms tid (es1 ++ es2) = terms tid es1 + terms tid es2.
Proof. unfold terms. by rewrite filter_app, length_app. Qed.
Lemma owed_app tid l1 l2 : owed tid (l1 ++ l2) = owed tid l1 + owed tid l2.
Proof. unfold owed. by rewrite filter_app, length_app. Qed.
Lemma owed_perm tid l1 l2 : l1 ≡ₚ l2 -> owed tid l1 = owed tid l2.
Proof. intros H. unfold owed. by rewrite H. Qed.
Lemma owed_cons tid x l : owed tid (x :: l) = (if decide (s_taskId x = tid) then 1 else 0) + owed tid l.
Proof. unfold owed. rewrite filter_cons. by case_decide. Qed.

#[export] Instance owed_proper tid : Proper ((≡ₚ) ==> (=)) (owed tid).
Proof. intros l1 l2. apply owed_perm. Qed.

(** ** Runs

    Any interleaving of sends, frames and cancellations, sends carrying
    fresh uuids as the executor's [randomUUID] makes them. *)
Section Runs.
Context (url_host : jstr -> option jstr) (clock : nat -> jstr)
  (sink : option (TurnAccounting -> option jstr)).

Abbreviation handle := (handleFrame url_host clock sink).

(** [run regs s]: the translator is in state [s] after the sends [regs]
    were registered, in that order. *)
Inductive run : list PendingSend -> translator -> Prop :=
| run_new : run [] new_translator
| run_register regs s send s' :
    run regs s -> s_uuid send ∉ uuids regs -> registerSend send s = Some s' ->
    run (regs ++ [send]) s'
| run_frame regs s f : run regs s -> run regs (handle f s)
| run_cancel regs s tid : run regs s -> run regs (markCancelRequested tid s)
| run_terminal regs s tid : run regs s -> run regs (markTerminalEmitted tid s).

(** What handling a frame may do to the bookkeeping of sends: nothing. *)
Record same_sends (s s' : translator) : Prop := mk_same {
  ss_pending : t_pending s' = t_pending s;
  ss_seqCounter : t_seqCounter s' = t_seqCounter s;
  ss_seqOf : t_seqOf s' = t_seqOf s;
  ss_waiters : t_waiters s' = t_waiters s;
  ss_ended : t_ended s' = t_ended s;
  ss_resolved : t_resolved s' = t_resolved s }.

#[export] Instance same_sends_preorder : PreOrder same_sends.
Proof.
  split; [by intros s|]. intros a b c [] []. split; congruence.
Qed.

(** The promises are exactly those of the pending sends; sequence numbers
    are known for them and do not exceed the counter; an open turn belongs
    to a pending send registered no later than the turn opened. *)
Record wf (s : translator) : Prop := mk_wf {
  wf_nodup : NoDup (uuids (t_pending s));
  wf_waiters : forall u, u ∈ t_waiters s <-> u ∈ uuids (t_pending s);
  wf_seq : forall x, x ∈ t_pending s ->
    exists n, t_seqOf s !! s_uuid x = Some n /\ n <= t_seqCounter s;
  wf_turn : forall t, t_turn s = Some t ->
    ot_send t ∈ t_pending s /\ ot_openSeq t <= t_seqCounter s /\
    seq_at_most (ot_openSeq t) s (ot_send t) = true;
  wf_live : t_ended s = false }.

Lemma seq_at_most_same s s' n x : t_seqOf s' = t_seqOf s -> seq_at_most n s' x = seq_at_most n s x.
Proof. intros E. unfold seq_at_most. by rewrite E. Qed.

Lemma wf_same s s' :
  same_sends s s' ->
  (forall t, t_turn s' = Some t ->
     ot_send t ∈ t_pending s /\ ot_openSeq t <= t_seqCounter s /\
     seq_at_most (ot_openSeq t) s (ot_send t) = true) ->
  wf s -> wf s'.
Proof.
  intros [E1 E2 E3 E4 E5 E6] Ht [W1 W2 W3 W4 W5].
  split; rewrite ?E1, ?E2, ?E3, ?E4, ?E5; auto.
  intros t Et. rewrite (seq_at_most_same _ _ _ _ E3). auto.
Qed.

Lemma wf_same_turn s s' : same_sends s s' ->
  (ot_send <$> t_turn s', ot_openSeq <$> t_turn s') = (ot_send <$> t_turn s, ot_openSeq <$> t_turn s) ->
  wf s -> wf s'.
Proof.
  intros Hs Heq W. apply (wf_same s s' Hs); [|done].
  intros t Et. rewrite Et in Heq. destruct (t_turn s) as [t0|] eqn:E0; simplify_eq/=.
  destruct (wf_turn _ W t0 E0). by replace (ot_send t) with (ot_send t0) by congruence;
  replace (ot_openSeq t) with (ot_openSeq t0) by congruence.
Qed.

(** A turn step keeps whose turn it is, and what it publishes is artifacts
    of that turn's task: it never says a state. *)
Definition artifact_of (tid : jstr) (e : AgentExecutionEvent) : Prop :=
  event_task e = tid /\ event_state e = None.
Definition keeps (f : turn_step) : Prop :=
  forall t, ot_send (f t).1 = ot_send t /\ ot_openSeq (f t).1 = ot_openSeq t /\
    Forall (artifact_of (s_taskId (ot_send t))) (f t).2.

Lemma keeps_skip : keeps skip. Proof. intros t. repeat constructor. Qed.
Lemma keeps_then f g : keeps f -> keeps g -> keeps (then_ f g).
Proof.
  intros Hf Hg t. unfold then_. destruct (f t) as [t1 e1] eqn:E1.
  destruct (g t1) as [t2 e2] eqn:E2. simpl.
  specialize (Hf t). specialize (Hg t1). rewrite E1 in Hf. rewrite E2 in Hg. simpl in *.
  destruct Hf as (F1 & F2 & F3), Hg as (G1 & G2 & G3). rewrite F1 in G3.
  split_and!; [congruence|congruence|by apply Forall_app].
Qed.
Lemma keeps_update f : (forall t, ot_send (f t) = ot_send t /\ ot_openSeq (f t) = ot_openSeq t) ->
  keeps (update f).
Proof. intros H t. destruct (H t). split_and!; [done..|constructor]. Qed.
Lemma keeps_for_each {A} (l : list A) f : (forall x, keeps (f x)) -> keeps (for_each l f).
Proof. intros Hf. induction l; simpl; [apply keeps_skip|by apply keeps_then]. Qed.
Lemma keeps_emitChunk c b : keeps (emitChunk c b). Proof. intros t. by repeat constructor. Qed.
Lemma keeps_emitActivity c : keeps (emitActivity c). Proof. intros t. by repeat constructor. Qed.
Lemma keeps_at (f : turn_step) : (forall t, exists g, keeps g /\ f t = g t) -> keeps f.
Proof. intros H t. destruct (H t) as (g & Hg & ->). apply Hg. Qed.

#[local] Hint Resolve keeps_skip keeps_then keeps_emitChunk keeps_emitActivity : thicket.
#[local] Hint Extern 1 (keeps (update _)) => apply keeps_update; done : thicket.

Lemma keeps_flushText b : keeps (flushText b).
Proof.
  apply keeps_at. intros t. unfold flushText. destruct (ot_pendingChunk t) as [c|].
  - exists (emitChunk c b ;> update (set_chunk None))%turn. split; auto with thicket.
  - exists skip. auto with thicket.
Qed.

Lemma keeps_pushText x : keeps (pushText x).
Proof.
  apply keeps_at. intros t. unfold pushText.
  destruct x as [|c x]; [exists skip; auto with thicket|].
  eexists (_ ;> _)%turn. split; [|reflexivity].
  destruct (ot_pendingChunk t); auto with thicket.
Qed.
#[local] Hint Resolve keeps_flushText keeps_pushText : thicket.

Lemma keeps_closeOpenActivities st : keeps (closeOpenActivities st).
Proof.
  apply keeps_at. intros t. eexists (_ ;> _)%turn. split; [|reflexivity].
  apply keeps_then; [|auto with thicket]. apply keeps_for_each.
  intros []; auto with thicket.
Qed.

Lemma keeps_openActivity block : keeps (openActivity url_host block).
Proof.
  apply keeps_at. intros t. unfold openActivity.
  destruct (as_str _) as [id|]; [|exists skip; auto with thicket].
  destruct (as_str _) as [name|]; [|exists skip; auto with thicket].
  destruct (has_tool id t); [exists skip; auto with thicket|].
  eexists (_ ;> _)%turn. split; [|reflexivity]. destruct (starts_with _ _); auto 6 with thicket.
Qed.
#[local] Hint Resolve keeps_openActivity : thicket.

Lemma keeps_assistant_block block : keeps (assistant_block url_host block).
Proof.
  apply keeps_at. intros t. unfold assistant_block.
  destruct (asRecord block) as [r|]; [|exists skip; auto with thicket].
  destruct (is_str _ _); [exists (openActivity url_host r); auto with thicket|].
  destruct (_ && _); [|exists skip; auto with thicket].
  destruct (as_str _) as [x|]; [exists (pushText x)|exists skip]; auto with thicket.
Qed.

Lemma keeps_user_block block : keeps (user_block block).
Proof.
  apply keeps_at. intros t. unfold user_block.
  destruct (asRecord block) as [r|]; [|exists skip; auto with thicket].
  destruct (negb _); [exists skip; auto with thicket|].
  destruct (as_str _) as [id|]; [|exists skip; auto with thicket].
  destruct (assq id _) as [open|]; [|exists skip; auto with thicket].
  eexists (_ ;> _)%turn. split; [|reflexivity]. destruct (_ && _); auto 6 with thicket.
Qed.

Lemma keeps_assistant_turn ab c : keeps (assistant_turn url_host ab c).
Proof.
  unfold assistant_turn. apply keeps_then; [destruct ab; auto with thicket|].
  destruct c; auto with thicket. apply keeps_for_each, keeps_assistant_block.
Qed.
Lemma keeps_user_turn c : keeps (user_turn c).
Proof. destruct c; try apply keeps_skip. apply keeps_for_each, keeps_user_block. Qed.
Lemma keeps_stream_turn e : keeps (stream_turn e).
Proof. unfold stream_turn. destruct (as_str _); auto with thicket. Qed.

#[local] Hint Resolve keeps_closeOpenActivities
  keeps_assistant_turn keeps_user_turn keeps_stream_turn : thicket.

Lemma on_turn_same f s : same_sends s (on_turn f s).
Proof. unfold on_turn. destruct (t_turn s) as [t|]; [|done]. by destruct (f t). Qed.

Lemma on_turn_wf f s : keeps f -> wf s -> wf (on_turn f s).
Proof.
  intros Hk. apply wf_same_turn; [apply on_turn_same|].
  unfold on_turn. destruct (t_turn s) as [t|] eqn:E; [|by rewrite E].
  specialize (Hk t). destruct (f t) as [t' es]; simpl in *. destruct Hk as (? & ? & _). by f_equal; f_equal.
Qed.

Lemma find_send_Some u l x : find_send u l = Some x -> x ∈ l /\ s_uuid x = u.
Proof.
  unfold find_send. intros H. apply fmap_Some in H as ([i y] & Hf & ->).
  apply list_find_Some in Hf as (Hl & Hu & _). split; [|done].
  apply list_elem_of_lookup. eauto.
Qed.

Lemma bind_turn_same send s : same_sends s (bind_turn clock send s).
Proof. done. Qed.

Lemma bind_turn_wf send s : send ∈ t_pending s -> wf s -> wf (bind_turn clock send s).
Proof.
  intros Hin W. apply (wf_same s); [apply bind_turn_same| |done].
  intros t Et. simpl in Et. simplify_eq/=. split_and!; [done|done|].
  destruct (wf_seq _ W _ Hin) as (n & E & Hn). unfold seq_at_most. rewrite E.
  by apply Nat.leb_le.
Qed.

Lemma openTurn_spec uuid s :
  (t_pending s = [] /\ openTurn clock uuid s = s) \/
  exists send w, send ∈ t_pending s /\ same_sends s w /\ t_turn w = t_turn s /\
    t_out w = t_out s /\ t_cancelRequested w = t_cancelRequested s /\
    openTurn clock uuid s = bind_turn clock send w.
Proof.
  unfold openTurn. destruct uuid as [u|].
  - destruct (find_send u (t_pending s)) as [x|] eqn:E.
    + right. apply find_send_Some in E as [? _]. exists x, s. done.
    + destruct (t_pending s) as [|x l] eqn:Ep; [by left|right].
      eexists x, _. split_and!; [by left| | | | |reflexivity]; done.
  - destruct (t_pending s) as [|x l] eqn:Ep; [by left|right].
    exists x, s. split_and!; [by left|..]; done.
Qed.

Lemma ensureTurn_same uuid s : same_sends s (ensureTurn clock uuid s).
Proof.
  unfold ensureTurn. destruct (t_turn s); [done|].
  destruct (openTurn_spec uuid s) as [[_ ->]|(x & w & _ & Hw & _ & _ & _ & ->)]; [done|].
  etrans; [exact Hw|apply bind_turn_same].
Qed.

Lemma ensureTurn_wf uuid s : wf s -> wf (ensureTurn clock uuid s).
Proof.
  intros W. unfold ensureTurn. destruct (t_turn s) eqn:E; [done|].
  destruct (openTurn_spec uuid s) as [[_ ->]|(x & w & Hin & Hw & Ht & _ & _ & ->)]; [done|].
  apply bind_turn_wf; [by rewrite (ss_pending _ _ Hw)|].
  apply (wf_same s w Hw); [|done]. congruence.
Qed.

#[local] Hint Resolve on_turn_wf ensureTurn_wf : thicket.

(** ** Results *)

Lemma seq_at_most_ex n s x : seq_at_most n s x = true ->
  exists k, t_seqOf s !! s_uuid x = Some k /\ k <= n.
Proof.
  unfold seq_at_most. destruct (t_seqOf s !! s_uuid x) as [k|] eqn:E; [|done].
  intros H. apply Nat.leb_le in H. eauto.
Qed.

(** The census of a turn, as the code takes it: everything but the primary;
    of it what was registered no later than the turn opened; of that the
    oldest [extra], the queue count discounted by what it necessarily
    includes. *)
Definition others (t : OpenTurn) (s : translator) : list PendingSend :=
  filter (fun x => s_uuid x <> s_uuid (ot_send t)) (t_pending s).
Definition eligible (t : OpenTurn) (s : translator) : list PendingSend :=
  filter (fun x => seq_at_most (ot_openSeq t) s x = true) (others t s).
Definition extra (t : OpenTurn) (queued : nat) (s : translator) : nat :=
  length (eligible t s) - (queued - (length (others t s) - length (eligible t s))).

Lemma takeFolded_eq t queued s :
  t_turn s = Some t ->
  (takeFolded (ot_send t) queued s).1 = ot_send t :: take (extra t queued s) (eligible t s) /\
  (takeFolded (ot_send t) queued s).2 =
    set_pending (filter (fun x => s_uuid x ∉ uuids (take (extra t queued s) (eligible t s)))
                   (others t s)) s.
Proof. intros E. unfold takeFolded. by rewrite E. Qed.

Lemma NoDup_uuid_inj (l : list PendingSend) x y :
  NoDup (uuids l) -> x ∈ l -> y ∈ l -> s_uuid x = s_uuid y -> x = y.
Proof.
  induction l as [|z l IH]; [set_solver|]. rewrite fmap_cons, NoDup_cons.
  intros [Hz Hl] Hx Hy E. apply elem_of_cons in Hx, Hy.
  destruct Hx as [->|Hx], Hy as [->|Hy]; auto.
  - exfalso. apply Hz. rewrite E. by apply list_elem_of_fmap_2.
  - exfalso. apply Hz. rewrite <- E. by apply list_elem_of_fmap_2.
Qed.

Lemma uuid_filter_perm (l m : list PendingSend) :
  NoDup (uuids l) -> NoDup m -> (forall x, x ∈ m -> x ∈ l) ->
  l ≡ₚ m ++ filter (fun x => s_uuid x ∉ uuids m) l.
Proof.
  intros Hl Hm Hsub.
  assert (HNl : NoDup l) by (by eapply NoDup_fmap_1).
  apply NoDup_Permutation; [done| |].
  - apply NoDup_app. split_and!; [done| |by apply NoDup_filter].
    intros x Hx Hf. apply list_elem_of_filter in Hf as [Hn _]. apply Hn.
    by apply list_elem_of_fmap_2.
  - intros x. rewrite elem_of_app, list_elem_of_filter. split.
    + intros Hx. destruct (decide (s_uuid x ∈ uuids m)) as [Hu|Hu]; [left|by right].
      apply list_elem_of_fmap in Hu as (y & E & Hy).
      by rewrite (NoDup_uuid_inj l x y Hl Hx (Hsub _ Hy) E).
    + intros [Hx|[_ Hx]]; auto.
Qed.

Lemma NoDup_uuids_sub (l m : list PendingSend) :
  NoDup (uuids l) -> m `sublist_of` l -> NoDup (uuids m).
Proof. intros H Hs. eapply sublist_NoDup; [exact H|]. by apply fmap_sublist. Qed.

Lemma others_sub t s : others t s `sublist_of` t_pending s.
Proof. apply sublist_filter. Qed.
Lemma eligible_sub t s : eligible t s `sublist_of` others t s.
Proof. apply sublist_filter. Qed.

(** Nothing is lost and nothing is duplicated: the folded sends and what
    stays pending are together what was pending. *)
Lemma takeFolded_perm t queued s :
  wf s -> t_turn s = Some t ->
  t_pending s ≡ₚ (takeFolded (ot_send t) queued s).1
                 ++ t_pending (takeFolded (ot_send t) queued s).2.
Proof.
  intros W Et. destruct (takeFolded_eq t queued s Et) as [-> ->]. simpl.
  destruct (wf_turn _ W _ Et) as (Hin & _).
  pose proof (wf_nodup _ W) as Hnd.
  assert (Ho : t_pending s ≡ₚ ot_send t :: others t s).
  { etrans; [apply (uuid_filter_perm (t_pending s) [ot_send t] Hnd)|].
    - constructor; [set_solver|constructor].
    - set_solver.
    - simpl. apply perm_skip. unfold others. erewrite list_filter_iff; [reflexivity|].
      intros x; simpl. set_solver. }
  etrans; [exact Ho|]. simpl. apply perm_skip.
  pose proof (NoDup_uuids_sub _ _ Hnd (others_sub t s)) as Hno.
  pose proof (NoDup_uuids_sub _ _ Hno (eligible_sub t s)) as Hne.
  apply uuid_filter_perm; [done| |].
  - eapply NoDup_fmap_1, (NoDup_uuids_sub _ _ Hne), sublist_take.
  - intros x Hx. apply elem_of_take in Hx as (i & Hi & _).
    apply list_elem_of_lookup_2 in Hi. by apply list_elem_of_filter in Hi as [_ ?].
Qed.

Lemma fold_ack p l s :
  NoDup (uuids l) -> (forall x, x ∈ l -> s_uuid x ∈ t_waiters s) ->
  let s' := fold_left (ackFolded clock p) l s in
  t_pending s' = t_pending s /\ t_seqCounter s' = t_seqCounter s /\ t_ended s' = t_ended s /\
  t_turn s' = t_turn s /\ t_cancelRequested s' = t_cancelRequested s /\
  t_resolved s' = t_resolved s ++ uuids l /\
  (forall u, u ∉ uuids l -> t_seqOf s' !! u = t_seqOf s !! u) /\
  (forall u, u ∈ t_waiters s' <-> u ∈ t_waiters s /\ u ∉ uuids l).
Proof.
  revert s; induction l as [|x l IH]; intros s Hnd Hw; simpl.
  { rewrite app_nil_r. split_and!; auto. intros u. set_solver. }
  rewrite fmap_cons, NoDup_cons in Hnd. destruct Hnd as [Hx Hnd].
  set (s1 := ackFolded clock p s x).
  assert (t_pending s1 = t_pending s /\ t_seqCounter s1 = t_seqCounter s /\
    t_ended s1 = t_ended s /\ t_turn s1 = t_turn s /\ t_cancelRequested s1 = t_cancelRequested s /\
    t_resolved s1 = t_resolved s ++ [s_uuid x] /\ t_seqOf s1 = delete (s_uuid x) (t_seqOf s) /\
    t_waiters s1 = t_waiters s ∖ {[s_uuid x]}) as (E1 & E2 & E3 & E4 & E5 & E6 & E7 & E8).
  { subst s1. unfold ackFolded. pose proof (Hw x (list_elem_of_here _ _)) as Hin.
    destruct (decide (s_uuid x = s_uuid p)); simpl; rewrite decide_True by done; done. }
  destruct (IH s1 Hnd) as (F1 & F2 & F3 & F4 & F5 & F6 & F7 & F8).
  { intros y Hy. rewrite E8. apply elem_of_difference. split; [apply Hw; set_solver|].
    rewrite elem_of_singleton. intros E. apply Hx. rewrite <- E. by apply list_elem_of_fmap_2. }
  split_and!; try congruence.
  - by rewrite F6, E6, <- app_assoc.
  - intros u Hu. rewrite F7, E7 by set_solver. apply lookup_delete_ne. set_solver.
  - intros u. rewrite F8, E8. set_solver.
Qed.

Lemma safeRecord_same r s : same_sends s (safeRecord sink r s) /\
  t_turn (safeRecord sink r s) = t_turn s /\ t_out (safeRecord sink r s) = t_out s /\
  t_cancelRequested (safeRecord sink r s) = t_cancelRequested s.
Proof. unfold safeRecord. by repeat case_match. Qed.

Lemma recordAccounting_same f t st q s : same_sends s (recordAccounting sink f t st q s) /\
  t_turn (recordAccounting sink f t st q s) = t_turn s /\
  t_out (recordAccounting sink f t st q s) = t_out s.
Proof.
  unfold recordAccounting. destruct sink as [k|] eqn:E; [|done]. rewrite <- E.
  by destruct (safeRecord_same (accounting_of f t st q (t_cumulative s))
                (set_generation (t_caps s) (totals_of f) s)) as ([] & ? & ? & _).
Qed.

Lemma terminalStateFor_same f t s :
  same_sends s (terminalStateFor clock f t s).2 /\
  t_turn (terminalStateFor clock f t s).2 = t_turn s /\
  t_out (terminalStateFor clock f t s).2 = t_out s.
Proof.
  unfold terminalStateFor, agentMessage, now; cbv zeta beta iota. by repeat case_match.
Qed.

Lemma terms_artifacts tid t es : Forall (artifact_of t) es -> terms tid es = 0.
Proof.
  unfold terms. induction 1 as [|e es [_ He] _ IH]; [done|].
  rewrite filter_cons, decide_False; [done|]. intros [_ H]. by rewrite He in H.
Qed.

Lemma ack_out p l s : exists es, t_out (fold_left (ackFolded clock p) l s) = t_out s ++ es /\
  forall tid, terms tid es = owed tid (filter (fun x => s_uuid x <> s_uuid p) l).
Proof.
  revert s; induction l as [|x l IH]; intros s; simpl.
  { exists []. by rewrite app_nil_r. }
  destruct (IH (ackFolded clock p s x)) as (es & -> & Hes).
  unfold ackFolded. rewrite filter_cons. destruct (decide (s_uuid x = s_uuid p)) as [E|E].
  - exists es. rewrite decide_False by (intros H; by apply H). done.
  - rewrite decide_True by done. simpl.
    eexists (_ :: es). split; [by rewrite <- app_assoc|]. intros tid.
    rewrite owed_cons, <- Hes. unfold terms. rewrite filter_cons. unfold settles; simpl.
    repeat case_decide; simpl; naive_solver.
Qed.

Lemma on_turn_out f s t : keeps f -> t_turn s = Some t ->
  exists es, t_out (on_turn f s) = t_out s ++ es /\ Forall (artifact_of (s_taskId (ot_send t))) es.
Proof.
  intros Hk Et. destruct (Hk t) as (_ & _ & Ha). unfold on_turn. rewrite Et.
  destruct (f t) as [t' es]. by exists es.
Qed.

Definition folded_sends (f : SDKResultMessage) (t : OpenTurn) (s : translator) : list PendingSend :=
  ot_send t :: take (extra t (default 0 (r_queued_turn_count f)) s) (eligible t s).

Lemma folded_others f t s :
  filter (fun x => s_uuid x <> s_uuid (ot_send t)) (folded_sends f t s) =
  take (extra t (default 0 (r_queued_turn_count f)) s) (eligible t s).
Proof.
  unfold folded_sends. rewrite filter_cons, decide_False by (intros H; by apply H).
  apply list_filter_all. rewrite Forall_forall. intros x Hx.
  apply elem_of_take in Hx as (i & Hi & _). apply list_elem_of_lookup_2 in Hi.
  apply list_elem_of_filter in Hi as [_ Hi]. by apply list_elem_of_filter in Hi as [? _].
Qed.

Lemma handleResult_sends f s t :
  wf s -> t_turn s = Some t ->
  let s' := handleResult clock sink f s in
  let folded := folded_sends f t s in
  t_pending s ≡ₚ folded ++ t_pending s' /\
  t_pending s' `sublist_of` t_pending s /\
  t_resolved s' = t_resolved s ++ uuids folded /\
  t_turn s' = None /\ wf s' /\
  exists es, t_out s' = t_out s ++ es /\
    forall tid, owed tid (drop 1 folded) <= terms tid es <= owed tid folded.
Proof.
  intros W Et s' folded. subst s'. unfold handleResult, ensureTurn. rewrite Et, Et.
  set (q := default 0 (r_queued_turn_count f)).
  pose proof (takeFolded_perm t q s W Et) as Hperm.
  destruct (takeFolded_eq t q s Et) as [Hf Hs1].
  destruct (takeFolded (ot_send t) q s) as [fl s1]; simpl in Hf, Hs1, Hperm.
  change (ot_send t :: take (extra t q s) (eligible t s)) with folded in Hf. subst fl.
  pose proof (terminalStateFor_same f t s1) as (S2 & T2 & O2).
  destruct (terminalStateFor clock f t s1) as [[state m] s2]; simpl in S2, T2, O2.
  pose proof (recordAccounting_same f t state q s2) as (S3 & T3 & O3).
  set (s3 := recordAccounting _ _ _ _ _ _) in *.
  assert (Et3 : t_turn s3 = Some t) by (rewrite T3, T2, Hs1; exact Et).
  destruct (on_turn_out (closeOpenActivities (closing_status state) ;> flushText true)%turn s3 t)
    as (e4 & O4 & A4); [auto with thicket|done|].
  pose proof (on_turn_same (closeOpenActivities (closing_status state) ;> flushText true)%turn s3) as S4.
  set (s4 := on_turn _ s3) in *.
  match goal with |- context [fold_left _ _ ?x] => set (s5 := x) end.
  assert (exists e5, same_sends s4 s5 /\ t_out s5 = t_out s4 ++ e5 /\
    forall tid, terms tid e5 <= owed tid [ot_send t]) as (e5 & S5 & O5 & A5).
  { subst s5. destruct (ot_terminalEmitted t).
    - exists []. rewrite app_nil_r. split_and!; [done|done|intros; apply Nat.le_0_l].
    - eexists. split_and!; [done|reflexivity|]. intros tid. rewrite owed_cons.
      unfold terms. rewrite filter_cons. unfold settles; simpl.
      repeat case_decide; simpl; naive_solver lia. }
  assert (S15 : same_sends s1 s5) by (repeat (etrans; [eassumption|]); done).
  destruct (NoDup_app (uuids folded) (uuids (t_pending s1))) as [Happ _].
  rewrite <- fmap_app, <- Hperm in Happ. destruct (Happ (wf_nodup _ W)) as (N1 & N2 & N3).
  assert (Hw5 : t_waiters s5 = t_waiters s) by (rewrite (ss_waiters _ _ S15), Hs1; done).
  destruct (fold_ack (ot_send t) folded s5 N1) as (F1 & F2 & F3 & F4 & F5 & F6 & F7 & F8).
  { intros x Hx. rewrite Hw5. apply (wf_waiters _ W), list_elem_of_fmap_2. rewrite Hperm. set_solver. }
  destruct (ack_out (ot_send t) folded s5) as (e6 & O6 & A6).
  set (s6 := fold_left _ folded s5) in *.
  rewrite (ss_pending _ _ S15) in F1. rewrite (ss_resolved _ _ S15), Hs1 in F6.
  rewrite (ss_seqOf _ _ S15), Hs1 in F7. rewrite (ss_seqCounter _ _ S15), Hs1 in F2.
  rewrite (ss_ended _ _ S15), Hs1 in F3.
  assert (Hin : forall u, u ∈ uuids (t_pending s) <-> u ∈ uuids folded \/ u ∈ uuids (t_pending s1))
    by (intros u; by rewrite Hperm, fmap_app, elem_of_app).
  assert (Hsub : forall x, x ∈ t_pending s1 -> x ∈ t_pending s)
    by (intros x Hx; rewrite Hperm; set_solver).
  assert (Hd : filter (fun x => s_uuid x <> s_uuid (ot_send t)) folded = drop 1 folded)
    by apply folded_others.
  assert (Ho : forall tid, owed tid folded = owed tid [ot_send t] + owed tid (drop 1 folded))
    by (intros tid; by rewrite <- owed_app).
  clearbody folded. simpl in *. split_and!.
  - by rewrite F1.
  - rewrite F1, Hs1. simpl. etrans; [apply sublist_filter|apply others_sub].
  - exact F6.
  - done.
  - split; simpl; [by rewrite F1| | |done|by rewrite F3, (wf_live _ W)].
    + intros u. rewrite F8, Hw5, F1, (wf_waiters _ W), Hin.
      specialize (N2 u). naive_solver.
    + intros x Hx. rewrite F1 in Hx. rewrite F2, F7.
      * by apply (wf_seq _ W), Hsub.
      * intros Hu. apply (N2 _ Hu). by apply list_elem_of_fmap_2.
  - exists (e4 ++ e5 ++ e6). split.
    + by rewrite O6, O5, O4, O3, O2, Hs1, <- !app_assoc.
    + intros tid. rewrite !terms_app, (terms_artifacts tid _ _ A4), A6, Hd, Ho.
      specialize (A5 tid). lia.
Qed.

(** ** Every frame *)

Lemma bind_turn_out send s : exists es, t_out (bind_turn clock send s) = t_out s ++ es /\
  forall tid, terms tid es = 0.
Proof.
  eexists. split; [reflexivity|]. intros tid. unfold terms. rewrite filter_cons.
  unfold settles; simpl. case_decide; [naive_solver|done].
Qed.

Lemma ensureTurn_out uuid s : exists es, t_out (ensureTurn clock uuid s) = t_out s ++ es /\
  forall tid, terms tid es = 0.
Proof.
  assert (exists es, t_out s = t_out s ++ es /\ forall tid, terms tid es = 0)
    by (exists []; by rewrite app_nil_r).
  unfold ensureTurn. destruct (t_turn s); [done|].
  destruct (openTurn_spec uuid s) as [[_ ->]|(x & w & _ & _ & _ & Ho & _ & ->)]; [done|].
  rewrite <- Ho. apply bind_turn_out.
Qed.

Lemma on_turn_terms f s : keeps f -> exists es, t_out (on_turn f s) = t_out s ++ es /\
  forall tid, terms tid es = 0.
Proof.
  intros Hk. destruct (t_turn s) as [t|] eqn:Et.
  - destruct (on_turn_out f s t Hk Et) as (es & ? & ?). exists es. split; [done|].
    intros tid. by eapply terms_artifacts.
  - exists []. unfold on_turn. rewrite Et, app_nil_r. done.
Qed.

(** What a step of the translator may do: [gone] are the sends it settled. *)
Record advances (s s' : translator) (gone : list PendingSend) : Prop := mk_advances {
  ad_wf : wf s';
  ad_perm : t_pending s ≡ₚ gone ++ t_pending s';
  ad_order : t_pending s' `sublist_of` t_pending s;
  ad_resolved : t_resolved s' = t_resolved s ++ uuids gone;
  ad_out : exists es, t_out s' = t_out s ++ es /\
    forall tid, owed tid (drop 1 gone) <= terms tid es <= owed tid gone }.

Lemma advances_idle s s' : wf s' -> same_sends s s' ->
  (exists es, t_out s' = t_out s ++ es /\ forall tid, terms tid es = 0) -> advances s s' [].
Proof.
  intros W [] (es & Ho & Hes). split; [done|by rewrite ss_pending0|by rewrite ss_pending0|by rewrite app_nil_r|].
  exists es. split; [done|]. intros tid. rewrite Hes. by split.
Qed.

Lemma out_trans s1 s2 s3 :
  (exists es, t_out s2 = t_out s1 ++ es /\ forall tid, terms tid es = 0) ->
  (exists es, t_out s3 = t_out s2 ++ es /\ forall tid, terms tid es = 0) ->
  exists es, t_out s3 = t_out s1 ++ es /\ forall tid, terms tid es = 0.
Proof.
  intros (e1 & O1 & H1) (e2 & O2 & H2). exists (e1 ++ e2).
  rewrite O2, O1, app_assoc. split; [done|]. intros tid. by rewrite terms_app, H1, H2.
Qed.

Lemma handleResult_advances f s : wf s -> exists gone, advances s (handleResult clock sink f s) gone.
Proof.
  intros W. destruct (t_turn (ensureTurn clock (r_user_message_uuid f) s)) as [t|] eqn:Et.
  - set (s1 := ensureTurn clock (r_user_message_uuid f) s) in *.
    assert (handleResult clock sink f s = handleResult clock sink f s1) as ->.
    { assert (ensureTurn clock (r_user_message_uuid f) s1 = s1) as E
        by (unfold ensureTurn at 1; by rewrite Et).
      unfold handleResult. rewrite E. done. }
    pose proof (ensureTurn_same (r_user_message_uuid f) s) as Hs.
    destruct (ensureTurn_out (r_user_message_uuid f) s) as (e1 & O1 & T1). fold s1 in Hs, O1.
    destruct (handleResult_sends f s1 t (ensureTurn_wf _ s W) Et)
      as (P & S & R & _ & W' & e2 & O2 & T2).
    exists (folded_sends f t s1). destruct Hs as [E1 _ _ _ _ E6]. rewrite E1 in P, S. rewrite E6 in R.
    split; [done..|]. exists (e1 ++ e2). rewrite O2, O1, app_assoc. split; [done|].
    intros tid. rewrite terms_app, T1. apply T2.
  - exists []. unfold handleResult. rewrite Et. apply advances_idle.
    + eapply wf_same_turn; [| |apply (ensureTurn_wf (r_user_message_uuid f) s W)]; done.
    + etrans; [apply (ensureTurn_same (r_user_message_uuid f) s)|done].
    + apply ensureTurn_out.
Qed.

Lemma handleFrame_advances f s : wf s -> exists gone, advances s (handle f s) gone.
Proof.
  intros W. assert (Hid : advances s s []).
  { apply advances_idle; [done..|]. exists []. by rewrite app_nil_r. }
  destruct f as [sub caps|par u e|par u ab c|par c|r|]; simpl.
  - destruct (jeqb _ _); [|eauto]. exists []. apply advances_idle; [by apply (wf_same_turn s)|done|].
    exists []. by rewrite app_nil_r.
  - unfold handleStreamEvent. destruct par; [eauto|]. set (s1 := match u with Some _ => ensureTurn clock u s | None => s end).
    assert (wf s1 /\ same_sends s s1 /\
      exists es, t_out s1 = t_out s ++ es /\ forall tid, terms tid es = 0) as (W1 & S1 & O1).
    { subst s1. destruct u as [u|];
        [by auto using ensureTurn_wf, ensureTurn_same, ensureTurn_out|].
      split_and!; [done..|]. exists []. by rewrite app_nil_r. }
    destruct (is_text_delta e); [|exists []; by apply advances_idle]. exists []. apply advances_idle.
    + auto with thicket.
    + etrans; [exact S1|]. etrans; [apply ensureTurn_same|apply on_turn_same].
    + eapply out_trans; [exact O1|]. eapply out_trans; [apply (ensureTurn_out None)|].
      apply on_turn_terms. auto with thicket.
  - unfold handleAssistant. destruct par; [eauto|]. exists []. apply advances_idle.
    + auto with thicket.
    + etrans; [apply ensureTurn_same|apply on_turn_same].
    + eapply out_trans; [apply ensureTurn_out|]. apply on_turn_terms. auto with thicket.
  - unfold handleUser. destruct par; [eauto|]. exists []. apply advances_idle;
      [auto with thicket|apply on_turn_same|apply on_turn_terms; auto with thicket].
  - by apply handleResult_advances.
  - eauto.
Qed.

Lemma markTerminalEmitted_same tid s :
  same_sends s (markTerminalEmitted tid s) /\ t_out (markTerminalEmitted tid s) = t_out s.
Proof. unfold markTerminalEmitted. by repeat case_match. Qed.
Lemma markCancelRequested_same tid s :
  same_sends s (markCancelRequested tid s) /\ t_out (markCancelRequested tid s) = t_out s.
Proof. unfold markCancelRequested. by repeat case_match. Qed.

Lemma mark_wf tid s : wf s -> wf (markTerminalEmitted tid s) /\ wf (markCancelRequested tid s).
Proof.
  intros W. split; (eapply wf_same_turn; [| |exact W]);
    [apply markTerminalEmitted_same| |apply markCancelRequested_same|].
  - unfold markTerminalEmitted. destruct (t_turn s) as [t|] eqn:E; rewrite ?E; [|done].
    destruct (is_turn_of tid t); rewrite ?E; done.
  - unfold markCancelRequested. destruct (t_turn s) as [t|] eqn:E; simpl; rewrite ?E; [|done].
    destruct (is_turn_of tid t); simpl; rewrite ?E; done.
Qed.

Lemma registerSend_eq send s : t_ended s = false -> exists s', registerSend send s = Some s' /\
  t_pending s' = t_pending s ++ [send] /\ t_resolved s' = t_resolved s /\ t_out s' = t_out s /\
  t_turn s' = t_turn s /\ t_waiters s' = {[s_uuid send]} ∪ t_waiters s /\
  t_seqCounter s' = S (t_seqCounter s) /\
  t_seqOf s' = <[s_uuid send := S (t_seqCounter s)]> (t_seqOf s) /\ t_ended s' = false.
Proof. intros E. unfold registerSend. rewrite E. eexists. split_and!; reflexivity. Qed.

Lemma registerSend_wf send s s' : s_uuid send ∉ uuids (t_pending s) ->
  registerSend send s = Some s' -> wf s -> wf s'.
Proof.
  intros Hu Hr W. pose proof (wf_live _ W) as E.
  destruct (registerSend_eq send s E) as (s2 & Hr2 & Ep & _ & _ & Et & Ew & Ec & Eq & El).
  rewrite Hr in Hr2. injection Hr2 as <-.
  split; rewrite ?Ep, ?Ew, ?Ec, ?Et, ?Eq; [| | | |exact El].
  - rewrite fmap_app. apply NoDup_app. split_and!; [apply (wf_nodup _ W)| |by apply NoDup_singleton].
    set_solver.
  - intros u. rewrite fmap_app, elem_of_app, elem_of_union, (wf_waiters _ W). set_solver.
  - intros x Hx. apply elem_of_app in Hx as [Hx|Hx].
    + destruct (wf_seq _ W _ Hx) as (n & En & Hn). exists n. rewrite lookup_insert_ne; [auto|].
      intros Heq. apply Hu. rewrite Heq. by apply list_elem_of_fmap_2.
    + apply list_elem_of_singleton in Hx as ->. rewrite lookup_insert_eq. eauto.
  - intros t Et2. destruct (wf_turn _ W _ Et2) as (H1 & H2 & H3).
    split_and!; [set_solver|lia|]. unfold seq_at_most in *.
    rewrite Eq, lookup_insert_ne; [done|]. intros Heq. apply Hu. rewrite Heq. by apply list_elem_of_fmap_2.
Qed.

(** The invariant of runs. *)
Record settled (regs : list PendingSend) (s : translator) : Prop := mk_settled {
  se_wf : wf s;
  se_order : t_pending s `sublist_of` regs;
  se_fresh : NoDup (uuids regs);
  se_perm : uuids regs ≡ₚ t_resolved s ++ uuids (t_pending s);
  se_terms : forall tid, terms tid (t_out s) + owed tid (t_pending s) <= owed tid regs }.

Lemma settled_advances regs s s' gone : settled regs s -> advances s s' gone -> settled regs s'.
Proof.
  intros [W O F P T] [W' P' O' R' (es & Eo & Te)]. split; [done|by etrans|done| |].
  - rewrite R', P, P', fmap_app. by rewrite app_assoc.
  - intros tid. specialize (T tid). specialize (Te tid). rewrite Eo, terms_app.
    rewrite P', owed_app in T. lia.
Qed.

Lemma settled_same regs s s' : settled regs s -> wf s' -> same_sends s s' -> t_out s' = t_out s ->
  settled regs s'.
Proof.
  intros Hs W' Hss Ho. apply (settled_advances regs s s' []); [done|].
  apply advances_idle; [done..|]. exists []. by rewrite Ho, app_nil_r.
Qed.

Lemma run_settled regs s : run regs s -> settled regs s.
Proof.
  induction 1 as [|regs s send s' _ IH Hu Hr|regs s f _ IH|regs s tid _ IH|regs s tid _ IH].
  - split; [split; simpl; try set_solver; constructor|done|constructor|done|done].
  - destruct IH as [W O F P T]. assert (Hp : s_uuid send ∉ uuids (t_pending s)).
    { rewrite P in Hu. set_solver. }
    destruct (registerSend_eq send s (wf_live _ W)) as (s2 & Hr2 & Ep & Er & Eo & _).
    rewrite Hr in Hr2. injection Hr2 as <-. split.
    + by eapply registerSend_wf.
    + rewrite Ep. by apply sublist_app.
    + rewrite fmap_app. apply NoDup_app. split_and!; [done|set_solver|by apply NoDup_singleton].
    + rewrite Er, Ep, !fmap_app, app_assoc. by rewrite P.
    + intros tid. rewrite Eo, Ep, !owed_app. specialize (T tid). lia.
  - destruct (handleFrame_advances f s (se_wf _ _ IH)) as [gone H]. by eapply settled_advances.
  - eapply settled_same; [done|apply (mark_wf tid); apply IH|apply markCancelRequested_same..].
  - eapply settled_same; [done|apply (mark_wf tid); apply IH|apply markTerminalEmitted_same..].
Qed.

(** ** The end of the stream *)

Lemma failPending_step reason rec s x :
  let s' := failPending clock sink reason rec s x in
  t_waiters s' = t_waiters s ∖ {[s_uuid x]} /\
  t_resolved s' = t_resolved s ++ (if decide (s_uuid x ∈ t_waiters s) then [s_uuid x] else []) /\
  t_ended s' = t_ended s /\ t_turn s' = t_turn s /\
  exists e, t_out s' = t_out s ++ [e] /\ settles (s_taskId x) e.
Proof.
  unfold failPending, agentMessage, now; cbv zeta beta iota.
  match goal with |- context [publishShell _ _ _ ?m _ ?s0] =>
    set (s2 := publishShell clock x TASK_STATE_FAILED m (VObj []) s0) end.
  assert (exists e, t_out s2 = t_out s ++ [e] /\ settles (s_taskId x) e) as He by (by eexists).
  set (s3 := if decide _ then s2 else _).
  assert (same_sends s s3 /\ t_out s3 = t_out s2 /\ t_turn s3 = t_turn s) as ([] & Ho & Ht).
  { subst s3. case_decide; [done|].
    destruct (safeRecord_same (deadTurnRecord x [] reason) s2) as (S & T & O & _).
    split_and!; [|done|by rewrite T]. etrans; [|exact S]. done. }
  simpl. rewrite ss_waiters0, ss_resolved0, ss_ended0, Ho. done.
Qed.

Lemma failPending_all reason rec l : forall s, NoDup (uuids l) ->
  let s' := fold_left (failPending clock sink reason rec) l s in
  t_resolved s' = t_resolved s ++ filter (fun u => u ∈ t_waiters s) (uuids l) /\
  t_ended s' = t_ended s /\ t_turn s' = t_turn s /\
  exists es, t_out s' = t_out s ++ es /\ forall tid, owed tid l <= terms tid es.
Proof.
  induction l as [|x l IH]; intros s Hnd; simpl.
  { rewrite app_nil_r. split_and!; [done..|]. exists []. by rewrite app_nil_r. }
  rewrite fmap_cons, NoDup_cons in Hnd. destruct Hnd as [Hx Hnd].
  destruct (failPending_step reason rec s x) as (Ew & Er & El & Et & e & Eo & He).
  set (s1 := failPending clock sink reason rec s x) in *.
  destruct (IH s1 Hnd) as (Er' & El' & Et' & es & Eo' & Hes).
  split_and!; [|congruence|congruence|].
  - rewrite Er', Er, Ew. rewrite filter_cons. rewrite <- app_assoc. f_equal.
    assert (filter (fun u => u ∈ t_waiters s ∖ {[s_uuid x]}) (uuids l)
            = filter (fun u => u ∈ t_waiters s) (uuids l)) as ->.
    { apply filter_ext_elem. intros u Hu. set_solver. }
    by case_decide.
  - exists (e :: es). rewrite Eo', Eo, <- app_assoc. split; [done|].
    intros tid. rewrite owed_cons. specialize (Hes tid). unfold terms in *. rewrite filter_cons.
    destruct (decide (s_taskId x = tid)) as [<-|].
    + rewrite decide_True by done. simpl. lia.
    + case_decide; simpl; (destruct (decide (settles tid e)); simpl; lia).
Qed.

Lemma failOpenTurn_step reason t s : t_turn s = Some t ->
  let s' := failOpenTurn clock sink reason t s in
  let u := s_uuid (ot_send t) in
  t_pending s' = t_pending s /\ t_turn s' = None /\ t_ended s' = t_ended s /\
  t_waiters s' = t_waiters s ∖ {[u]} /\
  t_resolved s' = t_resolved s ++ (if decide (u ∈ t_waiters s) then [u] else []) /\
  exists es, t_out s' = t_out s ++ es /\ terms (s_taskId (ot_send t)) es = 1.
Proof.
  intros Et. unfold failOpenTurn, agentMessage, now; cbv zeta beta iota.
  destruct (on_turn_out (closeOpenActivities Failed ;> flushText true)%turn s t)
    as (e1 & O1 & A1); [auto with thicket|done|].
  pose proof (on_turn_same (closeOpenActivities Failed ;> flushText true)%turn s) as S1.
  set (s1 := on_turn _ s) in *.
  match goal with |- context [emitStatus _ _ _ ?m _ ?s0] =>
    set (s3 := emitStatus clock (ot_send t) TASK_STATE_FAILED m (VObj []) s0) end.
  assert (exists e, t_out s3 = t_out s1 ++ [e] /\ settles (s_taskId (ot_send t)) e)
    as (e & O3 & He) by (by eexists).
  destruct (safeRecord_same (deadTurnRecord (ot_send t) (ot_toolNames t) reason) s3)
    as (S4 & _ & O4 & _).
  set (s4 := safeRecord _ _ _) in *.
  assert (same_sends s s4) as [] by (etrans; [exact S1|]; etrans; [|exact S4]; done).
  simpl. rewrite ss_pending0, ss_ended0, ss_waiters0, ss_resolved0. split_and!; [done..|].
  exists (e1 ++ [e]). rewrite O4, O3, O1, <- app_assoc. split; [done|].
  rewrite terms_app, (terms_artifacts _ _ _ A1). unfold terms. by rewrite filter_cons, decide_True.
Qed.

Lemma endStream_settles reason s : wf s ->
  let s' := endStream clock sink reason s in
  t_pending s' = [] /\ t_ended s' = true /\
  t_resolved s' ≡ₚ t_resolved s ++ uuids (t_pending s) /\
  exists es, t_out s' = t_out s ++ es /\
    (forall tid, owed tid (t_pending s) <= terms tid es) /\
    (forall t, t_turn s = Some t -> ot_terminalEmitted t = false ->
       2 <= terms (s_taskId (ot_send t)) es).
Proof.
  intros W. unfold endStream. rewrite (wf_live _ W). cbv zeta.
  assert (Hall : filter (fun u => u ∈ t_waiters s) (uuids (t_pending s)) = uuids (t_pending s)).
  { apply list_filter_all. rewrite Forall_forall. intros u. apply (wf_waiters _ W). }
  assert (Hopen : forall t, t_turn s = Some t -> 1 <= owed (s_taskId (ot_send t)) (t_pending s)).
  { intros t Et. destruct (wf_turn _ W _ Et) as (Hin & _). apply list_elem_of_split in Hin as (l1 & l2 & ->).
    rewrite owed_app, owed_cons, decide_True by done. lia. }
  change (t_turn (set_ended s)) with (t_turn s).
  destruct (t_turn s) as [t|] eqn:Et; [destruct (ot_terminalEmitted t) eqn:Ee|].
  - destruct (failPending_all reason None (t_pending s) (set_ended s) (wf_nodup _ W))
      as (Er & El & _ & es & Eo & Hes). simpl in *.
    split_and!; [done|done|by rewrite Er, Hall|]. exists es. split_and!; [done|done|]. congruence.
  - destruct (failOpenTurn_step reason t (set_ended s) Et) as (Ep & _ & El & Ew & Er & e1 & Eo & H1).
    set (s2 := failOpenTurn _ _ _ _ _) in *. clearbody s2.
    destruct (failPending_all reason (Some (s_uuid (ot_send t))) (t_pending s2) s2)
      as (Er' & El' & _ & es & Eo' & Hes); [rewrite Ep; apply (wf_nodup _ W)|]. simpl in *.
    rewrite Ep in Er', El', Eo', Hes |- *.
    split_and!; [done|congruence| |].
    + destruct (wf_turn _ W _ Et) as (Hin & _). rewrite decide_True in Er
        by (apply (wf_waiters _ W), list_elem_of_fmap_2, Hin).
      rewrite Er', Er, Ew, <- app_assoc. f_equiv. simpl.
      apply NoDup_Permutation; [|apply (wf_nodup _ W)|].
      * constructor; [rewrite list_elem_of_filter; set_solver|]. apply NoDup_filter, (wf_nodup _ W).
      * intros u. rewrite elem_of_cons, list_elem_of_filter, elem_of_difference, (wf_waiters _ W).
        destruct (decide (u = s_uuid (ot_send t))) as [->|Hne]; [|set_solver].
        split; [intros _; by apply list_elem_of_fmap_2|by left].
    + exists (e1 ++ es). rewrite Eo', Eo, <- app_assoc. split_and!; [done| |].
      * intros tid. rewrite terms_app. specialize (Hes tid). lia.
      * intros t' [= <-] _. rewrite terms_app, H1. specialize (Hes (s_taskId (ot_send t))).
        specialize (Hopen t eq_refl). lia.
  - destruct (failPending_all reason None (t_pending s) (set_ended s) (wf_nodup _ W))
      as (Er & El & _ & es & Eo & Hes). simpl in *.
    split_and!; [done|done|by rewrite Er, Hall|]. exists es. split_and!; [done|done|]. done.
Qed.

(** A frame before the result leaves an open turn the same turn. *)
Lemma nonresult_same f s t : is_result f = false -> t_turn s = Some t ->
  same_sends s (handle f s) /\ exists t', t_turn (handle f s) = Some t' /\
    ot_send t' = ot_send t /\ ot_openSeq t' = ot_openSeq t.
Proof.
  intros Hf Et.
  assert (Hk : forall g s0, keeps g -> t_turn s0 = Some t -> same_sends s s0 ->
    same_sends s (on_turn g s0) /\ exists t', t_turn (on_turn g s0) = Some t' /\
      ot_send t' = ot_send t /\ ot_openSeq t' = ot_openSeq t).
  { intros g s0 Hg E0 Hs. split; [etrans; [exact Hs|apply on_turn_same]|].
    destruct (Hg t) as (? & ? & _). exists (g t).1. unfold on_turn. rewrite E0.
    by destruct (g t). }
  assert (Hn : forall u, ensureTurn clock u s = s) by (intros u; unfold ensureTurn; by rewrite Et).
  destruct f as [sub caps|par u e|par u ab c|par c|r|]; simpl in *; try done.
  - destruct (jeqb _ _); (split; [done|]; by exists t).
  - unfold handleStreamEvent. destruct par; [split; [done|]; by exists t|].
    assert (match u with Some _ => ensureTurn clock u s | None => s end = s) as ->
      by (destruct u; auto).
    rewrite Hn. destruct (is_text_delta e); [apply Hk; [auto with thicket|done|done]|].
    split; [done|]. by exists t.
  - unfold handleAssistant. destruct par; [split; [done|]; by exists t|].
    rewrite Hn. apply Hk; [auto with thicket|done|done].
  - unfold handleUser. destruct par; [split; [done|]; by exists t|].
    apply Hk; [auto with thicket|done|done].
  - split; [done|]. by exists t.
Qed.

Lemma nonresults_same fs : forall s t, Forall (fun f => is_result f = false) fs -> t_turn s = Some t ->
  let s' := fold_left (fun s f => handle f s) fs s in
  same_sends s s' /\ exists t', t_turn s' = Some t' /\
    ot_send t' = ot_send t /\ ot_openSeq t' = ot_openSeq t.
Proof.
  induction fs as [|f fs IH]; intros s t Hfs Et; simpl.
  { split; [done|]. by exists t. }
  inversion Hfs; subst.
  destruct (nonresult_same f s t) as (S1 & t1 & E1 & ? & ?); [done..|].
  destruct (IH _ t1 ltac:(done) E1) as (S2 & t2 & E2 & ? & ?).
  split; [by etrans|]. exists t2. split_and!; [done|congruence|congruence].
Qed.

Lemma late_send_waits f s t x : wf s -> t_turn s = Some t -> x ∈ t_pending s ->
  seq_at_most (ot_openSeq t) s x = false -> x ∈ t_pending (handleResult clock sink f s).
Proof.
  intros W Et Hx Hl. destruct (handleResult_sends f s t W Et) as (P & _).
  rewrite P in Hx. apply elem_of_app in Hx as [Hx|Hx]; [|done]. exfalso.
  unfold folded_sends in Hx. apply elem_of_cons in Hx as [->|Hx].
  - destruct (wf_turn _ W _ Et) as (_ & _ & H). congruence.
  - apply elem_of_take in Hx as (i & Hi & _). apply list_elem_of_lookup_2 in Hi.
    apply list_elem_of_filter in Hi as [H _]. congruence.
Qed.

Lemma others_split t s : others t s ≡ₚ eligible t s ++
  filter (fun x => seq_at_most (ot_openSeq t) s x = false) (others t s).
Proof.
  unfold eligible. induction (others t s) as [|x l IH]; [done|].
  rewrite !filter_cons. destruct (seq_at_most (ot_openSeq t) s x); simpl.
  - by constructor.
  - rewrite IH at 1. by rewrite Permutation_middle.
Qed.
End Runs.

(** ** The theorems *)

(** C1: no send is lost and none is answered twice. In every interleaving
    of sends, frames and cancellations, the sends registered so far are
    exactly those whose promise has resolved plus those still pending —
    with no uuid twice — and the pending ones are still in the order they
    came. *)
Theorem sends_settle_exactly_once url_host clock sink regs s :
  run url_host clock sink regs s ->
  uuids regs ≡ₚ t_resolved s ++ uuids (t_pending s) /\
  NoDup (t_resolved s ++ uuids (t_pending s)) /\
  t_pending s `sublist_of` regs.
Proof.
  intros H. destruct (run_settled _ _ _ _ _ H) as [_ O F P _].
  split_and!; [done| |done]. by rewrite <- P.
Qed.

(** While the stream lives, a task is told at most one terminal state
    per send made to it, and none on account of a send still pending: a
    client never sees a task settle twice. *)
Theorem terminal_at_most_once url_host clock sink regs s tid :
  run url_host clock sink regs s ->
  terms tid (t_out s) + owed tid (t_pending s) <= owed tid regs.
Proof. intros H. apply (run_settled _ _ _ _ _ H). Qed.

(** When the stream ends every send is settled: all promises are
    resolved exactly once, nothing stays pending, every send that was
    waiting gets a failed task, and later sends are refused. *)
Theorem endStream_settles_all url_host clock sink regs s reason :
  run url_host clock sink regs s ->
  let s' := endStream clock sink reason s in
  t_pending s' = [] /\ t_resolved s' ≡ₚ uuids regs /\ NoDup (t_resolved s') /\
  (forall send, registerSend send s' = None) /\
  exists es, t_out s' = t_out s ++ es /\ forall tid, owed tid (t_pending s) <= terms tid es.
Proof.
  intros H s'. destruct (run_settled _ _ _ _ _ H) as [W _ F P _].
  destruct (endStream_settles url_host clock sink reason s W) as (Ep & Ee & Er & es & Eo & Hes & _).
  fold s' in Ep, Ee, Er, Eo. split_and!.
  - done.
  - by rewrite Er, P.
  - by rewrite Er, <- P.
  - intros x. unfold registerSend. by rewrite Ee.
  - by exists es.
Qed.

(** A stream that dies under an open turn settles that turn's task
    twice: once by the status update that closes the turn, and again by the
    loop over the pending sends, which the turn's own send is still one of. *)
Theorem endStream_settles_open_twice url_host clock sink regs s t reason :
  run url_host clock sink regs s -> t_turn s = Some t -> ot_terminalEmitted t = false ->
  exists es, t_out (endStream clock sink reason s) = t_out s ++ es /\
    2 <= terms (s_taskId (ot_send t)) es.
Proof.
  intros H Et Ee.
  destruct (endStream_settles url_host clock sink reason s (se_wf _ _ (run_settled _ _ _ _ _ H)))
    as (_ & _ & _ & es & Eo & _ & H2). exists es. split; [done|]. by apply H2.
Qed.

(** Attribution. If the queue count a result carries is what the CLI's
    FIFO queue holds — the [late] sends, registered after the turn opened,
    and all but the oldest [m] of the others — then the result settles
    exactly the turn's own send and those [m], oldest first, and what stays
    pending is exactly the rest, in order. *)
Theorem result_attributes_fifo url_host clock sink regs s t f m :
  run url_host clock sink regs s -> t_turn s = Some t ->
  let late := filter (fun x => seq_at_most (ot_openSeq t) s x = false) (others t s) in
  m <= length (eligible t s) ->
  r_queued_turn_count f = Some (length (eligible t s) - m + length late) ->
  let s' := handleResult clock sink f s in
  t_resolved s' = t_resolved s ++ s_uuid (ot_send t) :: uuids (take m (eligible t s)) /\
  t_pending s' ≡ₚ drop m (eligible t s) ++ late /\
  t_pending s' `sublist_of` t_pending s.
Proof.
  intros H Et late Hm Hq s'. pose proof (se_wf _ _ (run_settled _ _ _ _ _ H)) as W.
  destruct (handleResult_sends url_host clock sink f s t W Et) as (P & S & R & _). fold s' in P, S, R.
  pose proof (others_split t s) as Ho. fold late in Ho.
  assert (Hl : length (others t s) = length (eligible t s) + length late)
    by (rewrite Ho at 1; apply length_app).
  unfold folded_sends in *. rewrite Hq in P, R. simpl default in P, R.
  replace (extra t (length (eligible t s) - m + length late) s) with m in P, R
    by (unfold extra; lia).
  split_and!; [done| |done].
  destruct (wf_turn _ W _ Et) as (Hin & _).
  assert (Hp : t_pending s ≡ₚ ot_send t :: others t s).
  { etrans; [by apply (takeFolded_perm url_host clock t 0)|].
    destruct (takeFolded_eq t 0 s Et) as [-> ->]. simpl. constructor. symmetry.
    apply uuid_filter_perm.
    - eapply NoDup_uuids_sub; [apply (wf_nodup _ W)|apply others_sub].
    - eapply NoDup_fmap_1, NoDup_uuids_sub; [apply (wf_nodup _ W)|].
      etrans; [apply sublist_take|]. etrans; [apply eligible_sub|apply others_sub].
    - intros x Hx. apply elem_of_take in Hx as (i & Hi & _).
      apply list_elem_of_lookup_2 in Hi. by apply list_elem_of_filter in Hi as [_ ?]. }
  rewrite Hp, Ho in P. simpl in P. apply Permutation_cons_inv in P.
  rewrite <- (take_drop m (eligible t s)) in P at 1. rewrite <- app_assoc in P.
  symmetry. by apply Permutation_app_inv_l in P.
Qed.

(** A send that arrives while a turn is running is never settled by
    that turn's result, whatever the queue count says and whatever frames
    come in between: it waits for a turn of its own. *)
Theorem late_send_never_folded url_host clock sink regs s t x s1 fs r :
  run url_host clock sink regs s -> t_turn s = Some t ->
  s_uuid x ∉ uuids regs -> registerSend x s = Some s1 ->
  Forall (fun f => is_result f = false) fs ->
  x ∈ t_pending (handleResult clock sink r
        (fold_left (fun s f => handleFrame url_host clock sink f s) fs s1)).
Proof.
  intros H Et Hu Hr Hfs. destruct (run_settled _ _ _ _ _ H) as [W O F P _].
  pose proof (run_register _ _ _ _ _ _ _ H Hu Hr) as H1.
  pose proof (se_wf _ _ (run_settled _ _ _ _ _ H1)) as W1.
  destruct (registerSend_eq x s (wf_live _ W)) as (s2 & Hr2 & Ep & _ & _ & Et2 & _ & _ & Eq & _).
  rewrite Hr in Hr2. injection Hr2 as <-. rewrite Et in Et2.
  destruct (nonresults_same url_host clock sink fs s1 t Hfs Et2) as (S2 & t2 & E2 & _ & Eo).
  assert (W2 : wf (fold_left (fun s f => handleFrame url_host clock sink f s) fs s1)).
  { clear -W1. revert s1 W1. induction fs as [|f fs IH]; intros s1 W1; simpl; [done|].
    apply IH. by destruct (handleFrame_advances url_host clock sink f s1 W1) as [? []]. }
  apply late_send_waits with (url_host := url_host) (t := t2); [done|done| |].
  - rewrite (ss_pending _ _ S2), Ep. set_solver.
  - rewrite (seq_at_most_same _ _ _ _ (ss_seqOf _ _ S2)), Eo. unfold seq_at_most.
    rewrite Eq, lookup_insert_eq. apply Nat.leb_gt.
    destruct (wf_turn _ W _ Et) as (_ & H2 & _). lia.
Qed.

(** No dead line. A result that names no known send, arriving between
    turns, still answers somebody: the oldest pending send's promise
    resolves. *)
Theorem stray_result_answers_oldest url_host clock sink regs s x l f :
  run url_host clock sink regs s -> t_turn s = None -> t_pending s = x :: l ->
  (forall u, r_user_message_uuid f = Some u -> u ∉ uuids (t_pending s)) ->
  s_uuid x ∈ t_resolved (handleFrame url_host clock sink (FResult f) s) /\
  x ∉ t_pending (handleFrame url_host clock sink (FResult f) s).
Proof.
  intros H Et Ep Hf. pose proof (se_wf _ _ (run_settled _ _ _ _ _ H)) as W.
  assert (exists t, t_turn (ensureTurn clock (r_user_message_uuid f) s) = Some t /\ ot_send t = x)
    as (t & Et1 & Ex).
  { unfold ensureTurn. rewrite Et. unfold openTurn. destruct (r_user_message_uuid f) as [u|].
    - destruct (find_send u (t_pending s)) as [y|] eqn:E.
      + apply find_send_Some in E as [Hy <-]. destruct (Hf _ eq_refl). by apply list_elem_of_fmap_2.
      + rewrite Ep. by eexists.
    - rewrite Ep. by eexists. }
  cbn [handleFrame].
  assert (handleResult clock sink f s
          = handleResult clock sink f (ensureTurn clock (r_user_message_uuid f) s)) as ->.
  { set (s1 := ensureTurn clock (r_user_message_uuid f) s) in *.
    assert (ensureTurn clock (r_user_message_uuid f) s1 = s1) as E
      by (unfold ensureTurn at 1; by rewrite Et1).
    unfold handleResult. by rewrite E. }
  destruct (handleResult_sends url_host clock sink f _ t (ensureTurn_wf clock _ s W) Et1)
    as (P & _ & R & _ & W' & _).
  rewrite R. split; [set_solver|]. intros Hx.
  pose proof (wf_nodup _ (ensureTurn_wf clock (r_user_message_uuid f) s W)) as Hnd.
  rewrite P, fmap_app in Hnd. apply NoDup_app in Hnd as (_ & Hd & _).
  apply (Hd (s_uuid x)); [unfold folded_sends; rewrite Ex; set_solver|by apply list_elem_of_fmap_2].
Qed.

(** ** Witnesses: two sends, the second behind the first's turn *)

Definition no_host : jstr -> option jstr := fun _ => None.
Definition still : nat -> jstr := fun _ => [].
Definition second_send : PendingSend := mkSend (js "u2") (js "m2") (js "t2") (js "c1") None.
Definition third_send : PendingSend := mkSend (js "u3") (js "m3") (js "t3") (js "c1") None.
Definition registered (x : PendingSend) (s : translator) : translator := default s (registerSend x s).
Definition waiting : translator := registered second_send (registered sample_send new_translator).
Definition working : translator := handleFrame no_host still None (sample_delta "Hel") waiting.
(** The CLI saw two messages waiting: one late, one not yet consumed. *)
Definition queued_result (n : nat) (uuid : option jstr) : SDKResultMessage :=
  mkResult (js "r1") uuid (Some n) (js "success") false (js "Hello") [] None 5 4
    (Some 1%Qc) (mkUsage (Some 10%Z) (Some 20%Z) None None) None.

Lemma waiting_run : run no_host still None [sample_send; second_send] waiting.
Proof.
  apply (run_register _ _ _ [sample_send] (registered sample_send new_translator));
    [apply (run_register _ _ _ [] new_translator); [constructor|set_solver|reflexivity]| |reflexivity].
  apply (bool_decide_unpack _). vm_compute. constructor.
Qed.

Lemma working_run : run no_host still None [sample_send; second_send] working.
Proof. apply run_frame, waiting_run. Qed.

Lemma third_fresh : s_uuid third_send ∉ uuids [sample_send; second_send].
Proof. apply (bool_decide_unpack _). vm_compute. constructor. Qed.

Lemma sends_settle_exactly_once_witness :
  let s := handleFrame no_host still None (FResult (queued_result 1 None)) working in
  uuids [sample_send; second_send] ≡ₚ t_resolved s ++ uuids (t_pending s) /\
  t_resolved s = [js "u1"] /\ uuids (t_pending s) = [js "u2"].
Proof.
  intros s. destruct (sends_settle_exactly_once no_host still None [sample_send; second_send] s)
    as [H _]; [apply run_frame, working_run|].
  split; [exact H|]. split; vm_compute; reflexivity.
Defined.

Lemma terminal_at_most_once_witness :
  let s := handleFrame no_host still None (FResult (queued_result 1 None)) working in
  terms (js "t1") (t_out s) + owed (js "t1") (t_pending s) <= 1 /\ terms (js "t1") (t_out s) = 1.
Proof.
  intros s. split; [|vm_compute; reflexivity].
  exact (terminal_at_most_once no_host still None [sample_send; second_send] s (js "t1")
    (run_frame _ _ _ _ _ _ working_run)).
Defined.

Lemma endStream_settles_all_witness :
  t_resolved (endStream still None (js "gone") working) ≡ₚ [js "u1"; js "u2"].
Proof.
  destruct (endStream_settles_all no_host still None [sample_send; second_send] working (js "gone"))
    as (_ & H & _); [apply working_run|]. exact H.
Defined.

Lemma endStream_settles_open_twice_witness : exists es,
  t_out (endStream still None (js "gone") working) = t_out working ++ es /\
  2 <= terms (js "t1") es.
Proof.
  apply (endStream_settles_open_twice no_host still None [sample_send; second_send] working
    (default (new_turn sample_send working) (t_turn working)) (js "gone"));
    [apply working_run|vm_compute; reflexivity|vm_compute; reflexivity].
Defined.

Lemma result_attributes_fifo_witness :
  let s := registered third_send working in
  let s' := handleResult still None (queued_result 1 None) s in
  t_resolved s' = [js "u1"; js "u2"] /\ t_pending s' ≡ₚ [third_send].
Proof.
  intros s s'.
  destruct (result_attributes_fifo no_host still None [sample_send; second_send; third_send] s
    (default (new_turn sample_send working) (t_turn working)) (queued_result 1 None) 1) as (H1 & H2 & _).
  - apply (run_register _ _ _ [sample_send; second_send] working);
      [apply working_run|apply third_fresh|reflexivity].
  - vm_compute; reflexivity.
  - vm_compute. lia.
  - vm_compute; reflexivity.
  - split; [exact H1|exact H2].
Defined.

Lemma late_send_never_folded_witness :
  third_send ∈ t_pending (handleResult still None (queued_result 0 None)
    (handleFrame no_host still None (sample_delta "lo") (registered third_send working))).
Proof.
  apply (late_send_never_folded no_host still None [sample_send; second_send] working
    (default (new_turn sample_send working) (t_turn working)) third_send
    (registered third_send working) [sample_delta "lo"] (queued_result 0 None)).
  - apply working_run.
  - vm_compute; reflexivity.
  - apply third_fresh.
  - reflexivity.
  - repeat constructor.
Defined.

Lemma stray_result_answers_oldest_witness :
  js "u1" ∈ t_resolved (handleFrame no_host still None
    (FResult (queued_result 2 (Some (js "stranger")))) waiting).
Proof.
  apply (stray_result_answers_oldest no_host still None [sample_send; second_send] waiting sample_send
    [second_send] (queued_result 2 (Some (js "stranger")))).
  - apply waiting_run.
  - reflexivity.
  - vm_compute; reflexivity.
  - intros u [= <-]. apply (bool_decide_unpack _). vm_compute. constructor.
Defined.
