(* ===== verification/TranslatorLedger.v ===== *)
(** What a turn leaves behind: no card still running, and accounting
    records that add up to what the CLI reported. *)

From S2P Require Import Prelude Activity Questions A2A Translator TranslatorText.
From Stdlib Require Import Qcanon.
From stdpp Require Import base numbers list gmap.
#[local] Open Scope nat_scope.

(** ** Cards *)

(** A card among the events: its id, and whether it shows as running. *)
Definition card_shown (e : AgentExecutionEvent) : option (jstr * bool) :=
  match e with
  | EvArtifact _ _ a _ _ =>
      if decide (ar_artifactId a = ACTIVITY_ARTIFACT_ID) then
        match ar_parts a with
        | [mkPart (CData v) _ _ _] =>
            match as_str (prop v (js "id")) with
            | Some id => Some (id, is_str (prop v (js "status")) (js "running"))
            | None => None
            end
        | _ => None
        end
      else None
  | _ => None
  end.

(** The cards a client that replaces a card by its latest status is left
    showing as running. *)
Definition show_card (running : gset jstr) (e : AgentExecutionEvent) : gset jstr :=
  match card_shown e with
  | Some (id, true) => {[id]} ∪ running
  | Some (id, false) => running ∖ {[id]}
  | None => running
  end.
Definition still_running (running : gset jstr) (es : list AgentExecutionEvent) : gset jstr :=
  fold_left show_card es running.

Lemma still_running_app r es1 es2 :
  still_running r (es1 ++ es2) = still_running (still_running r es1) es2.
Proof. apply fold_left_app. Qed.

Lemma still_running_textless r es : textless es -> still_running r es = r.
Proof. induction 1 as [|e es He _ IH]; [done|]. by destruct e. Qed.

(** The tools of a turn whose card was drawn when they started. *)
Definition drawn (p : jstr * OpenCard) : Prop := oc_deferred p.2 = false.
#[export] Instance drawn_dec p : Decision (drawn p).
Proof. unfold drawn. apply _. Defined.
Definition live (t : OpenTurn) : gset jstr := list_to_set ((filter drawn (ot_openTools t)).*1).

Definition tidy (t : OpenTurn) : Prop := NoDup ((ot_openTools t).*1).

(** A step that never leaves a running card without its tool being open. *)
Definition covers (f : turn_step) : Prop := forall t r,
  tidy t -> r ⊆ live t -> tidy (f t).1 /\ still_running r (f t).2 ⊆ live (f t).1.

Lemma covers_skip : covers skip. Proof. by intros t r. Qed.
Lemma covers_then f g : covers f -> covers g -> covers (f ;> g)%turn.
Proof.
  intros Hf Hg t r Ht Hr. rewrite then_fst, then_snd, still_running_app.
  destruct (Hf t r Ht Hr). by apply Hg.
Qed.
Lemma covers_for_each {A} (l : list A) f : (forall x, covers (f x)) -> covers (for_each l f).
Proof. intros Hf. induction l; simpl; [apply covers_skip|by apply covers_then]. Qed.
Lemma covers_at f : (forall t, exists g, covers g /\ f t = g t) -> covers f.
Proof. intros H t. destruct (H t) as (g & Hg & ->). apply Hg. Qed.
Lemma covers_update f : (forall t, ot_openTools (f t) = ot_openTools t) -> covers (update f).
Proof. intros H t r Ht Hr. unfold tidy, live in *. simpl. by rewrite H. Qed.
Lemma covers_emitChunk c b : covers (emitChunk c b). Proof. by intros t r. Qed.

#[local] Hint Resolve covers_skip covers_then covers_emitChunk : thicket.
#[local] Hint Extern 1 (covers (update _)) => apply covers_update; done : thicket.

Lemma covers_flushText b : covers (flushText b).
Proof.
  apply covers_at. intros t. unfold flushText. destruct (ot_pendingChunk t) as [c|].
  - exists (emitChunk c b ;> update (set_chunk None))%turn. auto with thicket.
  - exists skip. auto with thicket.
Qed.

Lemma covers_pushText x : covers (pushText x).
Proof.
  apply covers_at. intros t. unfold pushText.
  destruct x as [|c x]; [exists skip; auto with thicket|].
  eexists (_ ;> _)%turn. split; [|reflexivity]. destruct (ot_pendingChunk t); auto with thicket.
Qed.
#[local] Hint Resolve covers_flushText covers_pushText : thicket.

Lemma flushText_quiet b t r : ot_openTools (flushText b t).1 = ot_openTools t /\
  still_running r (flushText b t).2 = r.
Proof. unfold flushText. by destruct (ot_pendingChunk t). Qed.

Lemma card_activity tid cid id st d ap :
  card_shown (EvArtifact tid cid (activity_artifact (activity id st d)) ap false)
  = Some (id, bool_decide (st = Running)).
Proof. by destruct st. Qed.

Lemma live_delete id t : tidy t ->
  list_to_set ((filter drawn (delete_tool id (ot_openTools t))).*1) =@{gset jstr} live t ∖ {[id]}.
Proof.
  intros _. apply set_eq. intros x. unfold live, delete_tool.
  rewrite elem_of_difference, !elem_of_list_to_set, elem_of_singleton, !list_elem_of_fmap. split.
  - intros ([y c] & -> & H). rewrite !list_elem_of_filter in H. destruct H as (Hd & Hne & Hin).
    split; [|done]. exists (y, c). by rewrite list_elem_of_filter.
  - intros [([y c] & -> & H) Hne]. rewrite list_elem_of_filter in H. destruct H.
    exists (y, c). by rewrite !list_elem_of_filter.
Qed.

Lemma tidy_delete id t : tidy t -> NoDup ((delete_tool id (ot_openTools t)).*1).
Proof. intros H. eapply sublist_NoDup; [exact H|]. apply fmap_sublist, sublist_filter. Qed.

Lemma assq_in {A} id (l : list (jstr * A)) x : assq id l = Some x -> (id, x) ∈ l.
Proof. apply assq_elem. Qed.

Lemma assq_none {A} id (l : list (jstr * A)) : assq id l = None -> id ∉ l.*1.
Proof.
  unfold assq. induction l as [|[k v] l IH]; [set_solver|].
  destruct (bool_decide_reflect (id = k)); [done|]. csimpl. set_solver.
Qed.

Lemma not_live id t open : tidy t -> assq id (ot_openTools t) = Some open ->
  oc_deferred open = true -> id ∉ live t.
Proof.
  intros Ht Ha Hd. unfold live. rewrite elem_of_list_to_set, list_elem_of_fmap.
  intros ([y c] & -> & H). rewrite list_elem_of_filter in H. destruct H as [Hc Hin].
  apply assq_in in Ha. unfold tidy in Ht. unfold drawn in Hc; simpl in *.
  assert (c = open); [|congruence]. clear -Ht Ha Hin.
  induction (ot_openTools t) as [|[k v] l IH]; [set_solver|].
  rewrite fmap_cons, NoDup_cons in Ht. destruct Ht as [Hk Hl]. simpl in *.
  rewrite elem_of_cons in Ha, Hin. destruct Ha as [Ha|Ha], Hin as [Hin|Hin]; simplify_eq; auto;
    exfalso; apply Hk; by eapply (list_elem_of_fmap_2 fst) in Ha || by eapply (list_elem_of_fmap_2 fst) in Hin.
Qed.

Section Covers.
Context (url_host : jstr -> option jstr).

Lemma covers_openActivity block : covers (openActivity url_host block).
Proof.
  intros t r Ht Hr. unfold openActivity.
  destruct (as_str (prop block (js "id"))) as [id|]; [|done].
  destruct (as_str (prop block (js "name"))) as [name|]; [|done].
  destruct (has_tool id t) eqn:Eh; [done|].
  apply bool_decide_eq_false in Eh.
  assert (Hid : id ∉ (ot_openTools t).*1).
  { apply assq_none. destruct (assq id (ot_openTools t)); [|done]. by destruct Eh. }
  generalize (starts_with TOOLBELT_PREFIX name) as b; intros b.
  set (open := mkOpenCard _ _). set (t1 := with_tools (ot_openTools t ++ [(id, open)])
    (add_name name (ot_toolNames t)) (ot_activityEmitted t) t).
  rewrite !then_fst, !then_snd. change ((update _ t).1) with t1. simpl app.
  destruct (flushText_quiet false t1 r) as [Ef Er].
  set (t2 := (flushText false t1).1) in *. rewrite still_running_app, Er.
  assert (Htidy : NoDup ((ot_openTools t1).*1)).
  { simpl. rewrite fmap_app. apply NoDup_app. split_and!; [done|set_solver|apply NoDup_singleton]. }
  assert (Hlive : live t1 = if b then live t else {[id]} ∪ live t).
  { unfold live. change (ot_openTools t1) with (ot_openTools t ++ [(id, open)]).
    rewrite filter_app, fmap_app, list_to_set_app_L, filter_cons.
    clearbody t2. destruct b; simpl; set_solver. }
  assert (Et : tidy t2) by (unfold tidy; by rewrite Ef).
  assert (El : live t2 = live t1) by (unfold live; by rewrite Ef).
  clearbody t2. clear Er Ef. destruct b.
  - split; [done|]. simpl. by rewrite El, Hlive.
  - split; [done|]. unfold emitActivity; simpl. unfold show_card. rewrite card_activity. simpl.
    change (live _) with (live t2) at 1. rewrite El, Hlive. set_solver.
Qed.

Lemma covers_user_block block : covers (user_block block).
Proof.
  intros t r Ht Hr. unfold user_block.
  destruct (asRecord block) as [rec|]; [|done].
  destruct (negb _); [done|].
  destruct (as_str (prop rec (js "tool_use_id"))) as [id|]; [|done].
  destruct (assq id (ot_openTools t)) as [open|] eqn:Ea; [|done].
  set (t1 := with_tools (delete_tool id (ot_openTools t)) (ot_toolNames t) (ot_activityEmitted t) t).
  rewrite !then_fst, !then_snd. change ((update _ t).1) with t1. simpl app.
  destruct (flushText_quiet false t1 r) as [Ef Er].
  set (t2 := (flushText false t1).1) in *. rewrite still_running_app, Er.
  assert (Et : tidy t2) by (unfold tidy; rewrite Ef; by apply tidy_delete).
  assert (El : live t2 = live t ∖ {[id]}) by (unfold live at 1; rewrite Ef; by apply live_delete).
  destruct (oc_deferred open) eqn:Ed; simpl.
  - pose proof (not_live _ _ _ Ht Ea Ed).
    destruct (refusedAsRedundant _); [split; [done|]; simpl; set_solver|].
    split; [done|]. unfold emitActivity; simpl. unfold show_card. rewrite card_activity.
    rewrite bool_decide_false by (by repeat case_match).
    change (live _) with (live t2) at 1. set_solver.
  - split; [done|]. unfold emitActivity; simpl. unfold show_card. rewrite card_activity.
    rewrite bool_decide_false by (by repeat case_match).
    change (live _) with (live t2) at 1. set_solver.
Qed.

Lemma covers_assistant_block block : covers (assistant_block url_host block).
Proof.
  apply covers_at. intros t. unfold assistant_block.
  destruct (asRecord block) as [r|]; [|exists skip; auto with thicket].
  destruct (is_str _ _); [exists (openActivity url_host r); auto using covers_openActivity|].
  destruct (_ && _); [|exists skip; auto with thicket].
  destruct (as_str _) as [x|]; [exists (pushText x)|exists skip]; auto with thicket.
Qed.

Lemma covers_frame_turn f : covers (frame_turn url_host f).
Proof.
  destruct f as [|[p|] uuid event|[p|] uuid ab content|[p|] content|r|]; simpl;
    auto with thicket.
  - destruct (is_text_delta event); [|apply covers_skip]. unfold stream_turn.
    destruct (as_str _); auto with thicket.
  - unfold assistant_turn. apply covers_then; [destruct ab; auto with thicket|].
    destruct content; auto with thicket. apply covers_for_each, covers_assistant_block.
  - unfold user_turn. destruct content; auto with thicket. apply covers_for_each, covers_user_block.
Qed.
End Covers.

(** Closing a turn settles whatever is left. *)
Lemma closeOpenActivities_settles st t r : st <> Running -> r ⊆ live t ->
  still_running r (closeOpenActivities st t).2 = ∅.
Proof.
  intros Hst Hr. unfold closeOpenActivities. rewrite then_snd. simpl. rewrite app_nil_r.
  assert (Hl : forall l (t0 : OpenTurn) r0, r0 ⊆ list_to_set (l.*1) ->
    still_running r0 (for_each l (fun '(id, card) => emitActivity (activity id st (oc_described card))) t0).2 = ∅).
  { clear -Hst. intros l. induction l as [|[id card] l IH]; intros t0 r0 H0.
    - simpl in *. set_solver.
    - cbn [for_each]. rewrite then_snd, still_running_app. apply IH.
      unfold emitActivity; simpl. unfold show_card. rewrite card_activity.
      rewrite bool_decide_false by exact Hst. csimpl in H0. set_solver. }
  apply Hl. etrans; [exact Hr|]. unfold live. intros x.
  rewrite !elem_of_list_to_set, !list_elem_of_fmap. intros (p & -> & Hp).
  apply list_elem_of_filter in Hp as [_ Hp]. eauto.
Qed.

Lemma flush_still b t r : still_running r (flushText b t).2 = r.
Proof. apply flushText_quiet. Qed.

Lemma frames_cover url_host clock sink fs : forall s t r,
  Forall (fun f => is_result f = false) fs -> t_turn s = Some t -> tidy t -> r ⊆ live t ->
  let s' := fold_left (fun s f => handleFrame url_host clock sink f s) fs s in
  exists t' es, t_turn s' = Some t' /\ t_out s' = t_out s ++ es /\
    tidy t' /\ still_running r es ⊆ live t'.
Proof.
  induction fs as [|f fs IH]; intros s t r Hfs Et Ht Hr; simpl.
  { exists t, []. rewrite app_nil_r. done. }
  inversion Hfs as [|? ? Hf Hfs']; subst.
  destruct (handleFrame_open url_host clock sink f s t Hf Et) as [E1 O1].
  destruct (covers_frame_turn url_host f t r Ht Hr) as [H1 R1].
  destruct (IH _ _ _ Hfs' E1 H1 R1) as (t' & es & Et' & Oe & Ht' & Rt).
  exists t', ((frame_turn url_host f t).2 ++ es).
  rewrite Oe, O1, app_assoc, still_running_app. done.
Qed.

(** No card is left running. Whatever frames reach a turn between its
    opening and its result — tool calls, their results, results that never
    come, calls held back because they draw no card — once the result has
    been handled every card a client was shown running has been shown
    settled, so no spinner outlives its turn. *)
Theorem no_card_left_running url_host clock sink s t fs r :
  t_turn s = Some t -> ot_openTools t = [] ->
  Forall (fun f => is_result f = false) fs ->
  exists es, t_out (handleFrame url_host clock sink (FResult r)
      (fold_left (fun s f => handleFrame url_host clock sink f s) fs s)) = t_out s ++ es /\
    still_running ∅ es = ∅.
Proof.
  intros Et E0 Hfs.
  destruct (frames_cover url_host clock sink fs s t ∅ Hfs Et) as (t1 & es & Et1 & Oe & _ & R1).
  { unfold tidy. rewrite E0. constructor. }
  { set_solver. }
  destruct (handleResult_out clock sink r _ t1 Et1) as (state & e2 & O2 & L2 & _).
  exists (es ++ ((closeOpenActivities (closing_status state) ;> flushText true)%turn t1).2 ++ e2).
  split; [cbn [handleFrame]; by rewrite O2, Oe, <- app_assoc|].
  rewrite !still_running_app, (still_running_textless _ _ L2), then_snd, still_running_app, flush_still.
  apply closeOpenActivities_settles; [by destruct state|done].
Qed.

Lemma no_card_left_running_witness :
  exists es, t_out (handleFrame (fun _ => None) (fun _ => []) None (FResult sample_result)
    (handleFrame (fun _ => None) (fun _ => []) None sample_tool sample_open)) = [] ++ es /\
    still_running ∅ es = ∅ /\ 3 <= length es.
Proof.
  destruct (no_card_left_running (fun _ => None) (fun _ => []) None sample_open
    (new_turn sample_send new_translator) [sample_tool] sample_result) as (es & H1 & H2);
    [reflexivity|reflexivity|repeat constructor|].
  exists es. split_and!; [exact H1|exact H2|]. cbn [fold_left] in H1.
  apply (f_equal length) in H1. rewrite length_app in H1.
  assert (E : length (t_out (handleFrame (fun _ => None) (fun _ => []) None (FResult sample_result)
    (handleFrame (fun _ => None) (fun _ => []) None sample_tool sample_open))) = 4) by (vm_compute; reflexivity).
  rewrite E in H1. simpl in H1. lia.
Defined.

(** ** Accounting *)

Definition is_init (f : SDKMessage) : bool :=
  match f with FSystem subtype _ => jeqb subtype (js "init") | _ => false end.

Definition costs (l : list TurnAccounting) : Qc := fold_right (fun r a => (ac_costUsd r + a)%Qc) 0%Qc l.
Definition tokens (field : TurnAccounting -> Z) (l : list TurnAccounting) : Z :=
  fold_right (fun r a => (field r + a)%Z) 0%Z l.

(** The running totals the CLI reports never decrease within a generation. *)
Record at_most (c d : cumulative) : Prop := mk_at_most {
  am_cost : (cu_cost c <= cu_cost d)%Qc;
  am_input : (cu_input c <= cu_input d)%Z;
  am_output : (cu_output c <= cu_output d)%Z;
  am_cacheRead : (cu_cacheRead c <= cu_cacheRead d)%Z;
  am_cacheCreation : (cu_cacheCreation c <= cu_cacheCreation d)%Z }.

Fixpoint grows (c : cumulative) (fs : list SDKMessage) : Prop :=
  match fs with
  | [] => True
  | FResult r :: rest => at_most c (totals_of r) /\ grows (totals_of r) rest
  | _ :: rest => grows c rest
  end.

Lemma at_most_trans c d e : at_most c d -> at_most d e -> at_most c e.
Proof. intros [] []. split; [by eapply Qcle_trans|lia..]. Qed.
Lemma at_most_refl c : at_most c c.
Proof. split; [apply Qcle_refl|lia..]. Qed.

Lemma grows_weaken c d fs : at_most c d -> grows d fs -> grows c fs.
Proof.
  revert c d; induction fs as [|f fs IH]; intros c d H; simpl; [done|].
  destruct f; simpl; try (by apply IH). intros [H1 H2]. split; [by eapply at_most_trans|done].
Qed.

Section Accounting.
Context (url_host : jstr -> option jstr) (clock : nat -> jstr) (call : TurnAccounting -> option jstr).

Abbreviation handle := (handleFrame url_host clock (Some call)).

(** The journal and the baseline. *)
Definition ledger (s : translator) : list TurnAccounting * cumulative :=
  (t_records s, t_cumulative s).

Lemma openTurn_ledger uuid s : ledger (openTurn clock uuid s) = ledger s.
Proof. unfold openTurn, bind_turn, publishShell, taskShell, status, now; cbv zeta beta iota. by repeat case_match. Qed.
Lemma ensureTurn_ledger uuid s : ledger (ensureTurn clock uuid s) = ledger s.
Proof. unfold ensureTurn. destruct (t_turn s); [done|apply openTurn_ledger]. Qed.
Lemma on_turn_ledger f s : ledger (on_turn f s) = ledger s.
Proof. unfold on_turn. destruct (t_turn s) as [t|]; [|done]. by destruct (f t). Qed.
Lemma terminalStateFor_ledger f t s : ledger (terminalStateFor clock f t s).2 = ledger s.
Proof. unfold terminalStateFor, agentMessage, now; cbv zeta beta iota. by repeat case_match. Qed.
Lemma ackFolded_ledger p l : forall s, ledger (fold_left (ackFolded clock p) l s) = ledger s.
Proof.
  induction l as [|x l IH]; intros s; simpl; [done|]. rewrite IH. unfold ackFolded.
  by destruct (decide _).
Qed.
Lemma safeRecord_ledger r s : ledger (safeRecord (Some call) r s) = (t_records s ++ [r], t_cumulative s).
Proof. unfold safeRecord. by destruct (call r). Qed.

Lemma handleResult_ledger f s :
  ledger (handleResult clock (Some call) f s) = ledger s \/
  exists t state queued, ledger (handleResult clock (Some call) f s) =
    (t_records s ++ [accounting_of f t state queued (t_cumulative s)], totals_of f).
Proof.
  unfold handleResult. pose proof (ensureTurn_ledger (r_user_message_uuid f) s) as E0.
  set (s0 := ensureTurn _ _ _) in *. destruct (t_turn s0) as [t|]; [|left; exact E0].
  right. set (queued := default 0 (r_queued_turn_count f)).
  assert (E1 : ledger (takeFolded (ot_send t) queued s0).2 = ledger s0) by done.
  destruct (takeFolded (ot_send t) queued s0) as [folded s1]; simpl in E1.
  pose proof (terminalStateFor_ledger f t s1) as E2.
  destruct (terminalStateFor clock f t s1) as [[state m] s2]; simpl in E2.
  exists t, state, queued.
  assert (E3 : ledger (recordAccounting (Some call) f t state queued s2) =
    (t_records s ++ [accounting_of f t state queued (t_cumulative s)], totals_of f)).
  { assert (ledger s2 = ledger s) as [= Er Ec] by congruence.
    unfold recordAccounting. rewrite safeRecord_ledger; simpl. by rewrite Er, Ec. }
  set (s3 := recordAccounting _ _ _ _ _ _) in *.
  rewrite <- E3.
  etrans; [|etrans; [apply (ackFolded_ledger (ot_send t) folded)|]]; [reflexivity|].
  destruct (ot_terminalEmitted t); [apply on_turn_ledger|]. etrans; [|apply on_turn_ledger]. done.
Qed.

Lemma handle_ledger f s : is_init f = false ->
  ledger (handle f s) = ledger s \/
  exists r t state queued, f = FResult r /\ ledger (handle f s) =
    (t_records s ++ [accounting_of r t state queued (t_cumulative s)], totals_of r).
Proof.
  intros Hi. destruct f as [sub caps|par u e|par u ab c|par c|r|]; simpl in *.
  - rewrite Hi. by left.
  - left. unfold handleStreamEvent. destruct par; [done|].
    destruct (is_text_delta e); rewrite ?on_turn_ledger, ?ensureTurn_ledger;
      destruct u; rewrite ?ensureTurn_ledger; done.
  - left. unfold handleAssistant. destruct par; [done|]. by rewrite on_turn_ledger, ensureTurn_ledger.
  - left. unfold handleUser. destruct par; [done|]. apply on_turn_ledger.
  - destruct (handleResult_ledger r s) as [H|(t & st & q & H)]; [by left|right; eauto 7].
  - by left.
Qed.
End Accounting.

Lemma deltaOf_telescopes c p : (p <= c)%Z -> deltaOf c p = (c - p)%Z.
Proof. intros H. unfold deltaOf. by apply Z.leb_le in H as ->. Qed.
Lemma deltaOfCost_telescopes c p : (p <= c)%Qc -> deltaOfCost c p = (c - p)%Qc.
Proof. intros H. unfold deltaOfCost. by rewrite decide_True. Qed.

Lemma tokens_app field l r : tokens field (l ++ [r]) = (tokens field l + field r)%Z.
Proof. unfold tokens. induction l; simpl; lia. Qed.
Lemma costs_app l r : costs (l ++ [r]) = (costs l + ac_costUsd r)%Qc.
Proof. unfold costs. induction l as [|x l IH]; simpl; [ring|]. rewrite IH. ring. Qed.

Definition journal_sum (l : list TurnAccounting) : cumulative :=
  mkCumulative (costs l) (tokens ac_inputTokens l) (tokens ac_outputTokens l)
    (tokens ac_cacheReadTokens l) (tokens ac_cacheCreationTokens l).
Definition minus (c d : cumulative) : cumulative :=
  mkCumulative (cu_cost c - cu_cost d) (cu_input c - cu_input d) (cu_output c - cu_output d)
    (cu_cacheRead c - cu_cacheRead d) (cu_cacheCreation c - cu_cacheCreation d).

(** What the CLI has reported and the journal has not. *)
Definition unjournaled (s : translator) : cumulative :=
  minus (t_cumulative s) (journal_sum (t_records s)).

Lemma unjournaled_account l c r t state queued : at_most c (totals_of r) ->
  minus (totals_of r) (journal_sum (l ++ [accounting_of r t state queued c])) =
  minus c (journal_sum l).
Proof.
  intros [H1 H2 H3 H4 H5]. unfold minus, journal_sum.
  cbn [cu_cost cu_input cu_output cu_cacheRead cu_cacheCreation].
  rewrite !tokens_app, costs_app. unfold accounting_of.
  cbn [ac_costUsd ac_inputTokens ac_outputTokens ac_cacheReadTokens ac_cacheCreationTokens].
  rewrite deltaOfCost_telescopes, !deltaOf_telescopes by done.
  f_equal; [ring|lia..].
Qed.

Lemma frames_unjournaled url_host clock call fs : forall s,
  Forall (fun f => is_init f = false) fs -> grows (t_cumulative s) fs ->
  unjournaled (fold_left (fun s f => handleFrame url_host clock (Some call) f s) fs s) = unjournaled s.
Proof.
  induction fs as [|f fs IH]; intros s Hi Hg; simpl; [done|].
  inversion Hi as [|? ? Hf Hfs]; subst.
  destruct (handle_ledger url_host clock call f s Hf) as [[= E1 E2]|(r & t & st & q & -> & [= E1 E2])].
  - rewrite IH; [|done|].
    + unfold unjournaled. by rewrite E1, E2.
    + rewrite E2. destruct f; simpl in Hg; try done. destruct Hg as [H1 H2].
      by eapply grows_weaken.
  - simpl in Hg. destruct Hg as [H1 H2]. cbn [handleFrame] in *.
    rewrite IH; [|done|by rewrite E2]. unfold unjournaled. rewrite E1, E2. by apply unjournaled_account.
Qed.

(** The journal adds up. Within one CLI generation, however its frames
    interleave and whichever results find a turn to close, the cost and the
    four token counts of the accounting records sum to exactly the growth
    of the CLI's running totals up to the last accounted result: nothing is
    charged twice and nothing is dropped between turns. *)
Theorem accounting_telescopes url_host clock call s fs :
  Forall (fun f => is_init f = false) fs -> grows (t_cumulative s) fs ->
  let s' := fold_left (fun s f => handleFrame url_host clock (Some call) f s) fs s in
  minus (journal_sum (t_records s')) (journal_sum (t_records s)) =
  minus (t_cumulative s') (t_cumulative s).
Proof.
  intros Hi Hg s'. pose proof (frames_unjournaled url_host clock call fs s Hi Hg) as H.
  fold s' in H. clearbody s'. unfold unjournaled, minus, journal_sum in *.
  pose proof (f_equal cu_cost H) as H1. injection H as _ H2 H3 H4 H5.
  cbn [cu_cost cu_input cu_output cu_cacheRead cu_cacheCreation] in *.
  f_equal; [|lia..].
  replace (costs (t_records s')) with
    (cu_cost (t_cumulative s') - (cu_cost (t_cumulative s') - costs (t_records s')))%Qc by ring.
  rewrite H1. ring.
Qed.

Lemma accounting_telescopes_witness :
  let s' := fold_left (fun s f => handleFrame (fun _ => None) (fun _ => []) (Some (fun _ => None)) f s)
              [sample_tool; FResult sample_result] sample_open in
  minus (journal_sum (t_records s')) (journal_sum []) = minus (t_cumulative s') no_usage /\
  tokens ac_outputTokens (t_records s') = 20%Z.
Proof.
  intros s'. split; [|vm_compute; reflexivity].
  apply (accounting_telescopes (fun _ => None) (fun _ => []) (fun _ => None) sample_open
    [sample_tool; FResult sample_result]); [repeat constructor|].
  split; [|exact I]. split; vm_compute; discriminate.
Defined.
