(* ===== verification/SessionManager.v ===== *)
(** [packages/executor/src/session-manager.ts]: the pool of Claude Code
    subprocesses behind the sessions. Objects the code shares and mutates —
    sessions, subprocess generations, the promise of a spawn — live in
    stores under their own identities; every async function is cut at its
    awaits, so that what can run between two halves of it does. The facts
    are in [SessionPool]. *)

From S2P Require Import Prelude PushQueue A2A.
From Stdlib Require Import Qcanon.
From stdpp Require Import base numbers list gmap.
#[local] Open Scope nat_scope.

Definition QUESTION_TOOL : jstr := js "AskUserQuestion".

(** What a [PreToolUse] hook and a permission callback answer. *)
Inductive permission_answer := Defer | Deny (message : jstr).
Definition deferQuestion : permission_answer := Defer.
Definition denyUnanswerable (toolName : jstr) : permission_answer :=
  Deny (toolName ++ js " needs a permission this agent has no prompt to grant.").

Record harness := mkHarness {
  h_cwd : jstr;
  h_model : jstr;
  h_sessionTtlSeconds : Z;
  h_permissionMode : option jstr }.

(** [personaPrompt] and [mcpServers] are callbacks; the persona may answer
    differently at different times. *)
Record SessionManagerOptions := mkManagerOptions {
  o_harness : harness;
  o_claudeExecutable : option jstr;
  o_maxSessions : option nat;
  o_env : jsval;
  o_mcpServers : option (jstr -> jsval);
  o_allowedTools : option (list jstr);
  o_personaPrompt : option (Z -> option jstr);
  o_workspaces : list (jstr * jstr) }.

(** A working directory as the code has it: a path, or what every object has
    under this name, which is no path. *)
Inductive place := Directory (path : jstr) | Inherited (name : jstr).
#[export] Instance place_eq_dec : EqDecision place.
Proof. solve_decision. Defined.
(** [workspaces[name]]. *)
Definition workspace_at (workspaces : list (jstr * jstr)) (name : jstr) : option place :=
  match assq name workspaces with
  | Some path => Some (Directory path)
  | None => if bool_decide (name ∈ OBJECT_PROTOTYPE) then Some (Inherited name) else None
  end.

(** The options of one [query()]. *)
Record Options := mkOptions {
  op_cwd : place;
  op_model : jstr;
  op_env : jsval;
  op_permissionMode : option jstr;
  op_pathToClaudeCodeExecutable : option jstr;
  op_mcpServers : option jsval;
  op_allowedTools : option (list jstr);
  op_canUseTool : jstr -> permission_answer;
  op_hooks : list (jstr * permission_answer);
  op_systemPromptAppend : option jstr;
  op_resume : option jstr;
  op_sessionId : option jstr }.

Definition UnknownWorkspaceError (workspace : jstr) (known : list jstr) : jstr :=
  js "workspace " ++ dq ++ workspace ++ dq ++ js " is not declared for this agent"
  ++ match known with
     | [] => js " (it declares none)"
     | _ => js "; it declares: " ++ join_with (js ", ") known
     end.

Definition DEFAULT_MAX_SESSIONS : nat := 8.

(** One live subprocess generation; [g_session] is the session its pump was
    started for, and [g_live] holds until the pump has settled. *)
Record Generation := mkGeneration {
  g_session : nat;
  g_cwd : place;
  g_input : queue SDKUserMessage;
  g_q : Options;
  g_aborted : bool;
  g_closing : bool;
  g_live : bool }.

Definition close_input (g : Generation) : Generation :=
  mkGeneration (g_session g) (g_cwd g) (close (g_input g)) (g_q g) (g_aborted g) true (g_live g).
Definition push_input (msg : SDKUserMessage) (g : Generation) : Generation :=
  mkGeneration (g_session g) (g_cwd g) (push msg (g_input g)) (g_q g) (g_aborted g)
    (g_closing g) (g_live g).
Definition abort_generation (g : Generation) : Generation :=
  mkGeneration (g_session g) (g_cwd g) (g_input g) (g_q g) true (g_closing g) (g_live g).
Definition settle_pump (g : Generation) : Generation :=
  mkGeneration (g_session g) (g_cwd g) (g_input g) (g_q g) (g_aborted g) (g_closing g) false.

Record ManagedSession := mkSession {
  ms_id : jstr;
  ms_cwd : place;
  ms_out : queue SDKMessage;
  ms_generation : option nat;
  ms_spawning : option nat;
  ms_pendingTurns : nat;
  ms_lastActivity : Z;
  ms_ttlTimer : option Z }.

Definition set_cwd (cwd : place) (s : ManagedSession) : ManagedSession :=
  mkSession (ms_id s) cwd (ms_out s) (ms_generation s) (ms_spawning s) (ms_pendingTurns s)
    (ms_lastActivity s) (ms_ttlTimer s).
Definition set_out (out : queue SDKMessage) (s : ManagedSession) : ManagedSession :=
  mkSession (ms_id s) (ms_cwd s) out (ms_generation s) (ms_spawning s) (ms_pendingTurns s)
    (ms_lastActivity s) (ms_ttlTimer s).
Definition set_generation_of (g : option nat) (s : ManagedSession) : ManagedSession :=
  mkSession (ms_id s) (ms_cwd s) (ms_out s) g (ms_spawning s) (ms_pendingTurns s)
    (ms_lastActivity s) (ms_ttlTimer s).
Definition set_spawning (p : option nat) (s : ManagedSession) : ManagedSession :=
  mkSession (ms_id s) (ms_cwd s) (ms_out s) (ms_generation s) p (ms_pendingTurns s)
    (ms_lastActivity s) (ms_ttlTimer s).
Definition set_pendingTurns (n : nat) (s : ManagedSession) : ManagedSession :=
  mkSession (ms_id s) (ms_cwd s) (ms_out s) (ms_generation s) (ms_spawning s) n
    (ms_lastActivity s) (ms_ttlTimer s).
Definition set_lastActivity (t : Z) (s : ManagedSession) : ManagedSession :=
  mkSession (ms_id s) (ms_cwd s) (ms_out s) (ms_generation s) (ms_spawning s)
    (ms_pendingTurns s) t (ms_ttlTimer s).
Definition set_ttlTimer (t : option Z) (s : ManagedSession) : ManagedSession :=
  mkSession (ms_id s) (ms_cwd s) (ms_out s) (ms_generation s) (ms_spawning s)
    (ms_pendingTurns s) (ms_lastActivity s) t.

Definition busy (s : ManagedSession) : bool := 0 <? ms_pendingTurns s.

(** A call of [spawnGeneration]: suspended on [sessionExists], finished
    with a generation, or failed; then the [finally] that clears
    [session.spawning] runs and whoever awaits the promise goes on. *)
Inductive spawn_phase := SpWaiting | SpReady (generation : nat) | SpFailed.
Record spawn := mkSpawn {
  sp_session : nat;
  sp_persona : option jstr;
  sp_phase : spawn_phase;
  sp_settled : bool }.

(** A call of [send] suspended on [ensureGeneration]. *)
Inductive send_wait := OnGeneration (generation : nat) | OnSpawn (spawn : nat).
Record pending_call := mkCall {
  pc_session : nat;
  pc_message : SDKUserMessage;
  pc_wait : send_wait }.

(** [m_sessions] is the Map: insertion order is recency order. [m_objects],
    [m_generations], [m_spawns] and [m_calls] are the heap. [m_shutdowns]
    are the calls of [shutdown] waiting for pumps to settle. *)
Record SessionManager := mkManager {
  m_sessions : list (jstr * nat);
  m_objects : gmap nat ManagedSession;
  m_generations : gmap nat Generation;
  m_spawns : gmap nat spawn;
  m_calls : gmap nat pending_call;
  m_next : nat;
  m_shutdownRequested : bool;
  m_shutdowns : list (list nat);
  m_warnings : list jstr }.

Definition new_manager : SessionManager := mkManager [] ∅ ∅ ∅ ∅ 0 false [] [].

Definition set_sessions (l : list (jstr * nat)) (m : SessionManager) : SessionManager :=
  mkManager l (m_objects m) (m_generations m) (m_spawns m) (m_calls m) (m_next m)
    (m_shutdownRequested m) (m_shutdowns m) (m_warnings m).
Definition upd_object (o : nat) (f : ManagedSession -> ManagedSession) (m : SessionManager)
  : SessionManager :=
  mkManager (m_sessions m) (alter f o (m_objects m)) (m_generations m) (m_spawns m) (m_calls m)
    (m_next m) (m_shutdownRequested m) (m_shutdowns m) (m_warnings m).
Definition upd_generation (g : nat) (f : Generation -> Generation) (m : SessionManager)
  : SessionManager :=
  mkManager (m_sessions m) (m_objects m) (alter f g (m_generations m)) (m_spawns m) (m_calls m)
    (m_next m) (m_shutdownRequested m) (m_shutdowns m) (m_warnings m).
Definition upd_spawn (p : nat) (f : spawn -> spawn) (m : SessionManager) : SessionManager :=
  mkManager (m_sessions m) (m_objects m) (m_generations m) (alter f p (m_spawns m)) (m_calls m)
    (m_next m) (m_shutdownRequested m) (m_shutdowns m) (m_warnings m).
Definition drop_call (k : nat) (m : SessionManager) : SessionManager :=
  mkManager (m_sessions m) (m_objects m) (m_generations m) (m_spawns m) (delete k (m_calls m))
    (m_next m) (m_shutdownRequested m) (m_shutdowns m) (m_warnings m).
Definition onWarning (w : jstr) (m : SessionManager) : SessionManager :=
  mkManager (m_sessions m) (m_objects m) (m_generations m) (m_spawns m) (m_calls m) (m_next m)
    (m_shutdownRequested m) (m_shutdowns m) (m_warnings m ++ [w]).

(** Allocation: a fresh identity each. *)
Definition alloc_object (s : ManagedSession) (m : SessionManager) : SessionManager :=
  mkManager (m_sessions m ++ [(ms_id s, m_next m)]) (<[m_next m := s]> (m_objects m))
    (m_generations m) (m_spawns m) (m_calls m) (S (m_next m)) (m_shutdownRequested m)
    (m_shutdowns m) (m_warnings m).
Definition alloc_generation (g : Generation) (m : SessionManager) : SessionManager :=
  mkManager (m_sessions m) (m_objects m) (<[m_next m := g]> (m_generations m)) (m_spawns m)
    (m_calls m) (S (m_next m)) (m_shutdownRequested m) (m_shutdowns m) (m_warnings m).
Definition alloc_spawn (p : spawn) (m : SessionManager) : SessionManager :=
  mkManager (m_sessions m) (m_objects m) (m_generations m) (<[m_next m := p]> (m_spawns m))
    (m_calls m) (S (m_next m)) (m_shutdownRequested m) (m_shutdowns m) (m_warnings m).
Definition alloc_call (c : pending_call) (m : SessionManager) : SessionManager :=
  mkManager (m_sessions m) (m_objects m) (m_generations m) (m_spawns m)
    (<[m_next m := c]> (m_calls m)) (S (m_next m)) (m_shutdownRequested m) (m_shutdowns m)
    (m_warnings m).

Definition generation_of (m : SessionManager) (o : nat) : option nat :=
  m_objects m !! o ≫= ms_generation.
Definition is_busy (m : SessionManager) (o : nat) : bool :=
  match m_objects m !! o with Some s => busy s | None => false end.

Section Manager.
Context (options : SessionManagerOptions).

Definition maxSessions : nat := default DEFAULT_MAX_SESSIONS (o_maxSessions options).
Definition ttlMs : Z := (h_sessionTtlSeconds (o_harness options) * 1000)%Z.

(** [session(contextId)]: the object under this id, made on first use. *)
Definition session (now : Z) (contextId : jstr) (m : SessionManager) : nat * SessionManager :=
  match assq contextId (m_sessions m) with
  | Some o => (o, m)
  | None => (m_next m, alloc_object
      (mkSession contextId (Directory (h_cwd (o_harness options))) new_queue None None 0 now None) m)
  end.

(** The session, or the message of the error thrown. *)
Definition sessionFor (now : Z) (contextId : jstr) (workspace : option jstr) (m : SessionManager)
  : (nat + jstr) * SessionManager :=
  let (o, m1) := session now contextId m in
  match workspace with
  | Some w =>
      match workspace_at (o_workspaces options) w with
      | Some cwd => (inl o, upd_object o (set_cwd cwd) m1)
      | None => (inr (UnknownWorkspaceError w (fst <$> o_workspaces options)), m1)
      end
  | None => (inl o, upd_object o (set_cwd (Directory (h_cwd (o_harness options)))) m1)
  end.

Definition is_hot (m : SessionManager) (entry : jstr * nat) : bool :=
  bool_decide (is_Some (generation_of m (snd entry))).
Definition hotCount (m : SessionManager) : nat :=
  length (filter (fun e => is_hot m e = true) (m_sessions m)).

Definition currentQuery (contextId : jstr) (m : SessionManager) : option Options :=
  o ← assq contextId (m_sessions m); g ← generation_of m o; g_q <$> m_generations m !! g.

Definition armTtl (now : Z) (o : nat) (m : SessionManager) : SessionManager :=
  upd_object o (fun s =>
    set_ttlTimer
      (if bool_decide (ms_generation s = None) || m_shutdownRequested m then None
       else Some (now + ttlMs)%Z) s) m.

(** Marks activity: the session moves to the recent end of the Map. *)
Definition touch (now : Z) (o : nat) (m : SessionManager) : SessionManager :=
  match m_objects m !! o with
  | None => m
  | Some s =>
      armTtl now o
        (set_sessions (filter (fun e => e.1 <> ms_id s) (m_sessions m) ++ [(ms_id s, o)])
           (upd_object o (set_lastActivity now) m))
  end.

(** Close the generation and let the process exit; keep only the id. *)
Definition evict (o : nat) (m : SessionManager) : SessionManager :=
  match generation_of m o with
  | None => m
  | Some g =>
      upd_object o (fun s => set_ttlTimer None (set_generation_of None s))
        (upd_generation g close_input m)
  end.

(** The timer fires: it is unset first. *)
Definition onTtlExpired (now : Z) (o : nat) (m0 : SessionManager) : SessionManager :=
  let m := upd_object o (set_ttlTimer None) m0 in
  match generation_of m o with
  | None => m
  | Some _ => if is_busy m o then armTtl now o m else evict o m
  end.

(** The loop of [enforcePoolCap]; true when it returned early. *)
Fixpoint evict_idle (entries : list (jstr * nat)) (m : SessionManager) : bool * SessionManager :=
  match entries with
  | [] => (false, m)
  | (_, o) :: rest =>
      if bool_decide (is_Some (generation_of m o)) && negb (is_busy m o) then
        let m1 := evict o m in
        if hotCount m1 <? maxSessions then (true, m1) else evict_idle rest m1
      else evict_idle rest m
  end.

Definition enforcePoolCap (m : SessionManager) : SessionManager :=
  if hotCount m <? maxSessions then m else
  let (done, m1) := evict_idle (m_sessions m) m in
  if done then m1 else
  onWarning (js "session pool over cap (" ++ show_nat (hotCount m1) ++ js " >= "
             ++ show_nat maxSessions ++ js ") with all sessions busy") m1.

(** [spawnGeneration] up to its await: the persona is read before it. *)
Definition spawn_start (now : Z) (o : nat) (m : SessionManager) : nat * SessionManager :=
  let m1 := enforcePoolCap m in
  let persona := match o_personaPrompt options with Some p => p now | None => None end in
  (m_next m1, upd_object o (set_spawning (Some (m_next m1)))
                (alloc_spawn (mkSpawn o persona SpWaiting false) m1)).

Definition spawn_options (s : ManagedSession) (persona : option jstr) (exists_ : bool) : Options :=
  mkOptions (ms_cwd s) (h_model (o_harness options)) (o_env options)
    (h_permissionMode (o_harness options)) (o_claudeExecutable options)
    ((fun f => f (ms_id s)) <$> o_mcpServers options) (o_allowedTools options)
    denyUnanswerable [(QUESTION_TOOL, deferQuestion)]
    (match persona with None | Some [] => None | Some p => Some p end)
    (if exists_ then Some (ms_id s) else None) (if exists_ then None else Some (ms_id s)).

(** [spawnGeneration] after its await. *)
Definition spawn_finish (now : Z) (p : nat) (exists_ : bool) (m : SessionManager) : SessionManager :=
  match m_spawns m !! p with
  | None => m
  | Some sp =>
      match m_objects m !! sp_session sp with
      | None => m
      | Some s =>
          let o := sp_session sp in
          let g := m_next m in
          let m1 := alloc_generation
            (mkGeneration o (ms_cwd s) new_queue (spawn_options s (sp_persona sp) exists_)
               false false true) m in
          let m2 := touch now o (upd_object o (set_generation_of (Some g)) m1) in
          upd_spawn p (fun sp => mkSpawn (sp_session sp) (sp_persona sp) (SpReady g) (sp_settled sp)) m2
      end
  end.

(** What [ensureGeneration] answers synchronously: it throws, or the
    generation or the spawn's promise to wait for. *)
Definition ensureGeneration (now : Z) (o : nat) (m : SessionManager)
  : option send_wait * SessionManager :=
  if m_shutdownRequested m then (None, m) else
  let rehomed :=
    match m_objects m !! o with
    | Some s =>
        match ms_generation s ≫= (fun g => m_generations m !! g) with
        | Some g => negb (bool_decide (g_cwd g = ms_cwd s)) && negb (busy s)
        | None => false
        end
    | None => false
    end in
  let m1 := if rehomed then evict o m else m in
  match generation_of m1 o with
  | Some g => (Some (OnGeneration g), m1)
  | None =>
      match m_objects m1 !! o ≫= ms_spawning with
      | Some p => (Some (OnSpawn p), m1)
      | None => let (p, m2) := spawn_start now o m1 in (Some (OnSpawn p), m2)
      end
  end.

(** [send] up to its await, and after it. *)
Definition send_start (now : Z) (o : nat) (message : SDKUserMessage) (m : SessionManager)
  : SessionManager :=
  match ensureGeneration now o m with
  | (None, m1) => m1
  | (Some w, m1) => alloc_call (mkCall o message w) m1
  end.

Definition send_finish (now : Z) (k g : nat) (c : pending_call) (m : SessionManager)
  : SessionManager :=
  let o := pc_session c in
  let m1 := match um_shouldQuery (pc_message c) with
            | Some false => m
            | _ => upd_object o (fun s => set_pendingTurns (S (ms_pendingTurns s)) s) m
            end in
  drop_call k (upd_generation g (push_input (pc_message c)) (touch now o m1)).

Definition interrupt (now : Z) (o : nat) (m : SessionManager) : option nat * SessionManager :=
  match generation_of m o with
  | None => (None, m)
  | Some g => (Some g, touch now o m)
  end.

Definition synthetic_result (uuid reason : jstr) : SDKResultMessage :=
  mkResult uuid None (Some 0) (js "error_during_execution") true [] [reason] None 0 0
    (Some 0%Qc) (mkUsage (Some 0%Z) (Some 0%Z) None None) (Some []).

Definition failPendingTurn (uuid reason : jstr) (o : nat) (m : SessionManager) : SessionManager :=
  upd_object o (fun s =>
    set_out (push (FResult (synthetic_result uuid reason)) (ms_out s)) (set_pendingTurns 0 s)) m.

(** One frame through the pump. *)
Definition pump_frame (now : Z) (g : nat) (frame : SDKMessage) (m : SessionManager) : SessionManager :=
  match m_generations m !! g with
  | None => m
  | Some gen =>
      let o := g_session gen in
      let m1 := match frame with
                | FResult r => upd_object o (set_pendingTurns (default 0 (r_queued_turn_count r))) m
                | _ => m
                end in
      upd_object o (fun s => set_out (push frame (ms_out s)) s) (touch now o m1)
  end.

(** The pump's [finally], after the stream ended ([None]) or threw. *)
Definition pump_exit (uuid : jstr) (g : nat) (error : option jstr) (m : SessionManager)
  : SessionManager :=
  match m_generations m !! g with
  | None => m
  | Some gen =>
      let o := g_session gen in
      let m1 :=
        if g_closing gen then m else
        match error with
        | None => if is_busy m o
                  then failPendingTurn uuid (js "claude code process exited before finishing the turn") o m
                  else m
        | Some detail =>
            let id := match m_objects m !! o with Some s => ms_id s | None => [] end in
            let m' := onWarning (js "session " ++ id ++ js ": subprocess stream failed: " ++ detail) m in
            if is_busy m' o
            then failPendingTurn uuid (js "claude code process crashed: " ++ detail) o m'
            else m'
        end in
      upd_generation g settle_pump
        (upd_object o (fun s =>
           set_pendingTurns 0
             (if bool_decide (ms_generation s = Some g) then set_generation_of None s else s)) m1)
  end.

(** One iteration of [shutdown]'s loop, with the pumps to wait for. *)
Definition shut_session (acc : list nat * SessionManager) (entry : jstr * nat)
  : list nat * SessionManager :=
  let (pumps, m) := acc in
  let o := snd entry in
  let m1 := upd_object o (set_ttlTimer None) m in
  let (pumps', m2) :=
    match generation_of m1 o with
    | Some g => (pumps ++ [g], upd_generation g (fun x => abort_generation (close_input x)) m1)
    | None => (pumps, m1)
    end in
  (pumps', upd_object o (fun s => set_out (close (ms_out s)) s) m2).

Definition shutdown (m : SessionManager) : SessionManager :=
  let m0 := mkManager (m_sessions m) (m_objects m) (m_generations m) (m_spawns m) (m_calls m)
              (m_next m) true (m_shutdowns m) (m_warnings m) in
  let (pumps, m1) := fold_left shut_session (m_sessions m0) ([], m0) in
  mkManager (m_sessions m1) (m_objects m1) (m_generations m1) (m_spawns m1) (m_calls m1)
    (m_next m1) true (m_shutdowns m1 ++ [pumps]) (m_warnings m1).

Definition pump_settled (m : SessionManager) (g : nat) : bool :=
  match m_generations m !! g with Some x => negb (g_live x) | None => true end.

(** ** Events

    Everything that can run: a caller's synchronous part, a continuation
    whose promise is resolved, a timer, a frame or the end of a process. *)
Inductive event :=
| ESessionFor (contextId : jstr) (workspace : option jstr)
| ESend (o : nat) (message : SDKUserMessage)
| ESendResume (k : nat)
| ESpawnResume (p : nat) (exists_ : option bool)
| ESpawnFinally (p : nat)
| EInterrupt (o : nat)
| EFrame (g : nat) (frame : SDKMessage)
| EExit (g : nat) (uuid : jstr) (error : option jstr)
| ETtl (o : nat)
| EShutdown
| EShutdownDone (pumps : list nat).

Definition awaited (m : SessionManager) (c : pending_call) : option (option nat) :=
  match pc_wait c with
  | OnGeneration g => Some (Some g)
  | OnSpawn p =>
      match m_spawns m !! p with
      | Some sp =>
          if sp_settled sp then
            match sp_phase sp with
            | SpReady g => Some (Some g)
            | SpFailed => Some None
            | SpWaiting => None
            end
          else None
      | None => None
      end
  end.

(** [None]: the event cannot happen in this state. *)
Definition step (now : Z) (e : event) (m : SessionManager) : option SessionManager :=
  match e with
  | ESessionFor c w => Some (sessionFor now c w m).2
  | ESend o msg => _ ← m_objects m !! o; Some (send_start now o msg m)
  | ESendResume k =>
      c ← m_calls m !! k;
      match awaited m c with
      | Some (Some g) => Some (send_finish now k g c m)
      | Some None => Some (drop_call k m)
      | None => None
      end
  | ESpawnResume p exists_ =>
      sp ← m_spawns m !! p;
      match sp_phase sp with
      | SpWaiting =>
          Some match exists_ with
               | Some b => spawn_finish now p b m
               | None => upd_spawn p (fun sp => mkSpawn (sp_session sp) (sp_persona sp) SpFailed (sp_settled sp)) m
               end
      | _ => None
      end
  | ESpawnFinally p =>
      sp ← m_spawns m !! p;
      match sp_phase sp with
      | SpWaiting => None
      | _ => if sp_settled sp then None else
             Some (upd_spawn p (fun sp => mkSpawn (sp_session sp) (sp_persona sp) (sp_phase sp) true)
                     (upd_object (sp_session sp) (set_spawning None) m))
      end
  | EInterrupt o => _ ← m_objects m !! o; Some (interrupt now o m).2
  | EFrame g frame =>
      gen ← m_generations m !! g; if g_live gen then Some (pump_frame now g frame m) else None
  | EExit g uuid error =>
      gen ← m_generations m !! g; if g_live gen then Some (pump_exit uuid g error m) else None
  | ETtl o =>
      s ← m_objects m !! o;
      match ms_ttlTimer s with
      | Some deadline => if (deadline <=? now)%Z then Some (onTtlExpired now o m) else None
      | None => None
      end
  | EShutdown => Some (shutdown m)
  | EShutdownDone pumps =>
      if bool_decide (pumps ∈ m_shutdowns m) && forallb (pump_settled m) pumps
      then Some (set_sessions [] m) else None
  end.

Fixpoint play (es : list (Z * event)) (m : SessionManager) : option SessionManager :=
  match es with
  | [] => Some m
  | (now, e) :: rest => m1 ← step now e m; play rest m1
  end.

Definition reachable (m : SessionManager) : Prop := exists es, play es new_manager = Some m.
End Manager.
