(* ===== verification/SessionPool.v ===== *)
(** Facts about [SessionManager]: one process per session and none
    orphaned, busy sessions are not evicted, the pool evicts the least
    recently used, and a crash fails its turn. *)

From S2P Require Import Prelude PushQueue A2A SessionManager.
From Stdlib Require Import Qcanon.
From stdpp Require Import base numbers list gmap.
#[local] Open Scope nat_scope.

Section Pool.
Context (options : SessionManagerOptions).

(** ** The invariant while the manager is not shut down *)
Record owns (m : SessionManager) (o : nat) (s : ManagedSession) (g : nat) (x : Generation) : Prop := mk_owns {
  ow_session : g_session x = o;
  ow_open : g_closing x = false;
  ow_input : q_closed (g_input x) = false;
  ow_live : g_live x = true;
  ow_timer : is_Some (ms_ttlTimer s) }.

Record pool_ok (m : SessionManager) : Prop := mk_pool_ok {
  po_running : m_shutdownRequested m = false;
  po_shutdowns : m_shutdowns m = [];
  po_fresh : forall k, m_next m <= k ->
    m_objects m !! k = None /\ m_generations m !! k = None /\ m_spawns m !! k = None;
  po_current : forall o s g, m_objects m !! o = Some s -> ms_generation s = Some g ->
    exists x, m_generations m !! g = Some x /\ owns m o s g x;
  po_owned : forall g x, m_generations m !! g = Some x -> g_live x = true -> g_closing x = false ->
    exists s, m_objects m !! g_session x = Some s /\ ms_generation s = Some g;
  po_spawn : forall p sp, m_spawns m !! p = Some sp -> sp_settled sp = false ->
    exists s, m_objects m !! sp_session sp = Some s /\ ms_spawning s = Some p /\
      (sp_phase sp = SpWaiting -> ms_generation s = None);
  po_waiting : forall p sp, m_spawns m !! p = Some sp -> sp_phase sp = SpWaiting -> sp_settled sp = false }.

Lemma pool_ok_new : pool_ok new_manager.
Proof. by split; simpl; intros; rewrite ?lookup_empty in *. Qed.

(** Only the stores matter. *)
Lemma pool_ok_same m m' :
  m_shutdownRequested m' = m_shutdownRequested m -> m_shutdowns m' = m_shutdowns m ->
  m_objects m' = m_objects m -> m_generations m' = m_generations m -> m_spawns m' = m_spawns m ->
  m_next m <= m_next m' -> pool_ok m -> pool_ok m'.
Proof.
  intros E1 E2 E3 E4 E5 En [H1 H2 H3 H4 H5 H6 H7].
  split; rewrite ?E1, ?E2, ?E3, ?E4, ?E5; auto.
  - intros k Hk. apply H3. lia.
  - intros o s g Ho Hg. destruct (H4 o s g Ho Hg) as (x & Hx & []). by exists x.
Qed.

(** An update of a session that keeps its process and its promise, and its
    timer if it has a process. *)
Lemma pool_ok_object m o f :
  (forall s, m_objects m !! o = Some s -> ms_generation (f s) = ms_generation s /\
     ms_spawning (f s) = ms_spawning s /\
     (is_Some (ms_generation s) -> is_Some (ms_ttlTimer s) -> is_Some (ms_ttlTimer (f s)))) ->
  pool_ok m -> pool_ok (upd_object o f m).
Proof.
  intros Hf [H1 H2 H3 H4 H5 H6 H7].
  assert (Hl : forall o' s', alter f o (m_objects m) !! o' = Some s' -> exists s,
    m_objects m !! o' = Some s /\ ms_generation s' = ms_generation s /\
    (is_Some (ms_generation s) -> is_Some (ms_ttlTimer s) -> is_Some (ms_ttlTimer s'))).
  { intros o' s' H. apply lookup_alter_Some in H as [(-> & s & Hs & ->)|[? Hs]]; [|by exists s'].
    exists s. destruct (Hf s Hs) as (? & ? & ?). done. }
  assert (Hr : forall o' s, m_objects m !! o' = Some s -> exists s',
    alter f o (m_objects m) !! o' = Some s' /\ ms_generation s' = ms_generation s /\
    ms_spawning s' = ms_spawning s).
  { intros o' s Hs. destruct (decide (o' = o)) as [->|Hne].
    - exists (f s). rewrite lookup_alter_eq, Hs. destruct (Hf s Hs) as (? & ? & ?). done.
    - exists s. by rewrite lookup_alter_ne by done. }
  split; simpl; auto.
  - intros k Hk. destruct (H3 k Hk) as (? & ? & ?). split_and!; auto.
    destruct (alter f o (m_objects m) !! k) eqn:E; [|done].
    apply Hl in E as (? & ? & _). congruence.
  - intros o' s' g Ho Hg. destruct (Hl _ _ Ho) as (s & Hs & Eg & Et). rewrite Eg in Hg.
    destruct (H4 o' s g Hs Hg) as (x & Hx & []). exists x. split; [done|]. split; [done..|].
    apply Et; [rewrite Hg; by eexists|done].
  - intros g x Hx Hlv Hc. destruct (H5 g x Hx Hlv Hc) as (s & Hs & Hg).
    destruct (Hr _ _ Hs) as (s' & ? & ? & _). exists s'. split; congruence.
  - intros p sp Hp Hst. destruct (H6 p sp Hp Hst) as (s & Hs & Hsp & Hw).
    destruct (Hr _ _ Hs) as (s' & ? & Eg & Es). exists s'. rewrite Es, Eg. auto.
Qed.

Lemma pool_ok_armTtl now o m : pool_ok m -> pool_ok (armTtl options now o m).
Proof.
  intros H. apply pool_ok_object; [|done]. intros s Hs. simpl. split_and!; [done..|].
  intros [g Hg] _. rewrite Hg, (po_running _ H), bool_decide_false by done. by eexists.
Qed.

Lemma pool_ok_touch now o m : pool_ok m -> pool_ok (touch options now o m).
Proof.
  intros H. unfold touch. destruct (m_objects m !! o) as [s|]; [|done].
  apply pool_ok_armTtl.
  eapply pool_ok_same; [| | | | | |apply (pool_ok_object m o (set_lastActivity now)); [|done]];
    try done.
Qed.

Lemma generation_of_Some m o g : generation_of m o = Some g ->
  exists s, m_objects m !! o = Some s /\ ms_generation s = Some g.
Proof. unfold generation_of. destruct (m_objects m !! o) as [s|]; simpl; [eauto|done]. Qed.

Lemma pool_ok_evict o m : pool_ok m -> pool_ok (evict o m).
Proof.
  intros [H1 H2 H3 H4 H5 H6 H7]. unfold evict.
  destruct (generation_of m o) as [g|] eqn:Eg; [|by split].
  apply generation_of_Some in Eg as (s & Hs & Hg).
  destruct (H4 o s g Hs Hg) as (x & Hx & [Ho _ _ _ _]).
  split; simpl; auto.
  - intros k Hk. destruct (H3 k Hk) as (E1 & E2 & E3). by rewrite !lookup_alter_None.
  - intros o' s' g' Ho' Hg'.
    apply lookup_alter_Some in Ho' as [(-> & s0 & Hs0 & ->)|[Hne Ho']]; [done|].
    destruct (H4 o' s' g' Ho' Hg') as (x' & Hx' & W). exists x'. split; [|by destruct W].
    rewrite lookup_alter_ne; [done|]. intros ->. destruct W as [W _ _ _ _]. congruence.
  - intros g' x' Hx' Hlv Hc.
    apply lookup_alter_Some in Hx' as [(-> & x0 & Hx0 & ->)|[Hne Hx']]; [done|].
    destruct (H5 g' x' Hx' Hlv Hc) as (s' & Hs' & Hg'). exists s'. split; [|done].
    rewrite lookup_alter_ne; [done|]. intros E. rewrite <- E in Hs'. congruence.
  - intros p sp Hp Hst. destruct (H6 p sp Hp Hst) as (s' & Hs' & Hsp & Hw).
    destruct (decide (o = sp_session sp)) as [->|Hne].
    + rewrite lookup_alter_eq, Hs'. eexists. split; [reflexivity|]. done.
    + rewrite lookup_alter_ne by done. eauto.
Qed.

Lemma evict_idle_ok l : forall m, pool_ok m -> pool_ok (evict_idle options l m).2.
Proof.
  induction l as [|[i o] l IH]; intros m H; simpl; [done|].
  destruct (_ && _); [|by apply IH]. destruct (_ <? _); [by apply pool_ok_evict|].
  by apply IH, pool_ok_evict.
Qed.

Lemma pool_ok_enforce m : pool_ok m -> pool_ok (enforcePoolCap options m).
Proof.
  intros H. unfold enforcePoolCap. destruct (_ <? _); [done|].
  pose proof (evict_idle_ok (m_sessions m) m H) as H1.
  destruct (evict_idle options (m_sessions m) m) as [[] m1]; simpl in H1; [done|].
  by apply (pool_ok_same m1).
Qed.

(** ** Evictions leave every other session alone *)
Lemma evict_objects o m o' : m_objects (evict o m) !! o' =
  if decide (o' = o) then
    (fun s => if decide (is_Some (ms_generation s)) then set_ttlTimer None (set_generation_of None s) else s)
      <$> m_objects m !! o
  else m_objects m !! o'.
Proof.
  unfold evict, generation_of. destruct (decide (o' = o)) as [->|Hne].
  - destruct (m_objects m !! o) as [s|] eqn:E; simpl; [|by rewrite E].
    destruct (ms_generation s) as [g|] eqn:Eg; simpl.
    + by rewrite lookup_alter_eq, E.
    + by rewrite E.
  - destruct (m_objects m !! o ≫= ms_generation); [|done]. simpl. by rewrite lookup_alter_ne.
Qed.

Lemma evict_generation o m o' :
  generation_of (evict o m) o' = if decide (o' = o) then None else generation_of m o'.
Proof.
  unfold generation_of at 1. rewrite evict_objects. case_decide; [|done].
  destruct (m_objects m !! o) as [s|] eqn:E; simpl; [|done].
  destruct (decide (is_Some (ms_generation s))) as [|Hn]; simpl; [done|].
  destruct (ms_generation s); [|done]. destruct Hn. eauto.
Qed.

Lemma evict_busy o m o' : is_busy (evict o m) o' = is_busy m o'.
Proof.
  unfold is_busy. rewrite evict_objects. case_decide; [subst|done].
  destruct (m_objects m !! o) as [s|]; simpl; [|done]. by case_decide.
Qed.

Lemma evict_sessions o m : m_sessions (evict o m) = m_sessions m.
Proof. unfold evict. by destruct (generation_of m o). Qed.

(** ** The pool cap *)
Definition idle_hot (m : SessionManager) (o : nat) : bool :=
  bool_decide (is_Some (generation_of m o)) && negb (is_busy m o).
Definition evict_if_idle (m : SessionManager) (e : jstr * nat) : SessionManager :=
  if idle_hot m e.2 then evict e.2 m else m.
(** The idle sessions among the [k] least recently used, evicted. *)
Definition evicted (k : nat) (m : SessionManager) : SessionManager :=
  fold_left evict_if_idle (take k (m_sessions m)) m.

Lemma evict_idle_prefix l m : maxSessions options <= hotCount m ->
  exists k, k <= length l /\ (evict_idle options l m).2 = fold_left evict_if_idle (take k l) m /\
    (forall j, j < k -> maxSessions options <= hotCount (fold_left evict_if_idle (take j l) m)) /\
    if (evict_idle options l m).1 then hotCount (evict_idle options l m).2 < maxSessions options
    else k = length l.
Proof.
  revert m. induction l as [|[i o] l IH]; intros m Hm.
  { exists 0. split_and!; [done|done|intros; lia|done]. }
  assert (E : forall m1, fold_left evict_if_idle (take 1 [(i, o)]) m = m1 ->
    maxSessions options <= hotCount m1 ->
    exists k, k <= length ((i, o) :: l) /\
      (evict_idle options l m1).2 = fold_left evict_if_idle (take k ((i, o) :: l)) m /\
      (forall j, j < k -> maxSessions options <= hotCount (fold_left evict_if_idle (take j ((i, o) :: l)) m)) /\
      if (evict_idle options l m1).1 then hotCount (evict_idle options l m1).2 < maxSessions options
      else k = length ((i, o) :: l)).
  { intros m1 E1 H1. destruct (IH m1 H1) as (k & Hk & Hr & Hj & Hd). exists (S k). simpl in *.
    split_and!; [lia|by rewrite E1| |destruct (evict_idle options l m1).1; auto].
    intros [|j] Hlt; simpl; [done|]. rewrite E1. apply Hj. lia. }
  simpl in E |- *. unfold evict_if_idle at 1 in E. simpl in E. unfold idle_hot in E.
  destruct (bool_decide (is_Some (generation_of m o)) && negb (is_busy m o)) eqn:Ei.
  - destruct (Nat.ltb_spec (hotCount (evict o m)) (maxSessions options)) as [Hlt|Hge]; simpl.
    + exists 1. simpl. unfold evict_if_idle, idle_hot; simpl. rewrite Ei.
      split_and!; [lia|done| |done]. intros [|j] Hj; simpl; [done|lia].
    + by apply E.
  - by apply E.
Qed.

Lemma fold_evict_spec l : forall m o,
  let m' := fold_left evict_if_idle l m in
  is_busy m' o = is_busy m o /\ m_sessions m' = m_sessions m /\
  (generation_of m' o = None \/ generation_of m' o = generation_of m o) /\
  (o ∈ l.*2 -> idle_hot m' o = false).
Proof.
  induction l as [|[i x] l IH]; intros m o; simpl.
  { split_and!; auto. set_solver. }
  destruct (IH (evict_if_idle m (i, x)) o) as (B & S & G & I).
  assert (Hb : is_busy (evict_if_idle m (i, x)) o = is_busy m o).
  { unfold evict_if_idle; simpl. destruct (idle_hot m x); [apply evict_busy|done]. }
  assert (Hg : generation_of (evict_if_idle m (i, x)) o = None \/
               generation_of (evict_if_idle m (i, x)) o = generation_of m o).
  { unfold evict_if_idle; simpl. destruct (idle_hot m x); [|auto].
    rewrite evict_generation. case_decide; auto. }
  split_and!.
  - congruence.
  - rewrite S. unfold evict_if_idle; simpl. destruct (idle_hot m x); [apply evict_sessions|done].
  - destruct G as [-> | ->]; auto.
  - rewrite elem_of_cons. intros [->|Ho]; [|auto]. unfold idle_hot at 1.
    destruct G as [-> | ->]; [by rewrite bool_decide_false by (intros []; done)|].
    rewrite B. unfold evict_if_idle; simpl. destruct (idle_hot m x) eqn:E; [|exact E].
    rewrite evict_generation, decide_True by done. by rewrite bool_decide_false by (intros []; done).
Qed.

(** ** Every event keeps the invariant *)

Lemma pool_ok_alloc_object s m : ms_generation s = None -> ms_spawning s = None ->
  pool_ok m -> pool_ok (alloc_object s m).
Proof.
  intros Eg Es [H1 H2 H3 H4 H5 H6 H7].
  destruct (H3 (m_next m) (le_n _)) as (En & _ & _).
  split; simpl; auto.
  - intros k Hk. destruct (H3 k ltac:(lia)) as (? & ? & ?). rewrite lookup_insert_ne by lia. auto.
  - intros o s' g Ho Hg. rewrite lookup_insert_Some in Ho. destruct Ho as [[<- <-]|[Hne Ho]]; [congruence|].
    destruct (H4 o s' g Ho Hg) as (x & Hx & []). by exists x.
  - intros g x Hx Hl Hc. destruct (H5 g x Hx Hl Hc) as (s' & Hs & Hg). exists s'.
    rewrite lookup_insert_ne; [done|]. congruence.
  - intros p sp Hp Hst. destruct (H6 p sp Hp Hst) as (s' & Hs & Hr). exists s'.
    rewrite lookup_insert_ne; [done|]. congruence.
Qed.

Lemma pool_ok_session now c m : pool_ok m -> pool_ok (session options now c m).2.
Proof.
  intros H. unfold session. destruct (assq c (m_sessions m)); [done|].
  by apply pool_ok_alloc_object.
Qed.

Lemma pool_ok_sessionFor now c w m : pool_ok m -> pool_ok (sessionFor options now c w m).2.
Proof.
  intros H. unfold sessionFor. pose proof (pool_ok_session now c m H) as H1.
  destruct (session options now c m) as [o m1]; simpl in H1.
  destruct w as [w|]; [destruct (workspace_at _ w)|]; simpl; try done; by apply pool_ok_object.
Qed.

Lemma pool_ok_spawn_start now o m s :
  m_objects m !! o = Some s -> ms_generation s = None -> ms_spawning s = None ->
  pool_ok m -> pool_ok (spawn_start options now o m).2.
Proof.
  intros Hs Eg Es H.
  assert (exists s1, m_objects (enforcePoolCap options m) !! o = Some s1 /\
    ms_generation s1 = None /\ ms_spawning s1 = None) as (s1 & Hs1 & Eg1 & Es1).
  { unfold enforcePoolCap. destruct (_ <? _); [by exists s|].
    assert (Hl : forall l m, (exists s, m_objects m !! o = Some s /\ ms_generation s = None /\ ms_spawning s = None) ->
      exists s, m_objects (evict_idle options l m).2 !! o = Some s /\ ms_generation s = None /\ ms_spawning s = None).
    { induction l as [|[i x] l IH]; intros m0 H0; simpl; [done|].
      assert (H1 : exists s, m_objects (evict x m0) !! o = Some s /\ ms_generation s = None /\ ms_spawning s = None).
      { destruct H0 as (s0 & Hs0 & ? & ?). rewrite evict_objects. case_decide; [subst|by exists s0].
        rewrite Hs0. simpl. case_decide; eexists; (split; [reflexivity|done]). }
      destruct (_ && _); [destruct (_ <? _); auto|auto]. }
    specialize (Hl (m_sessions m) m). destruct (evict_idle options (m_sessions m) m) as [[] m1]; eauto. }
  pose proof (pool_ok_enforce m H) as H1. set (m1 := enforcePoolCap options m) in *.
  assert (Hsp : forall p sp, m_spawns m1 !! p = Some sp -> sp_settled sp = false -> sp_session sp <> o).
  { intros p sp Hp Hst E. destruct (po_spawn _ H1 p sp Hp Hst) as (s' & Hs' & Hw & _).
    rewrite E in Hs'. congruence. }
  unfold spawn_start. fold m1. destruct H1 as [H1 H2 H3 H4 H5 H6 H7].
  split; simpl; auto.
  - intros k Hk. destruct (H3 k ltac:(lia)) as (? & ? & ?).
    rewrite lookup_alter_None, lookup_insert_ne by lia. auto.
  - intros o' s' g Ho Hg. apply lookup_alter_Some in Ho as [(-> & s0 & Hs0 & ->)|[? Ho]].
    + simpl in Hg. congruence.
    + destruct (H4 o' s' g Ho Hg) as (x & Hx & []). by exists x.
  - intros g x Hx Hl Hc. destruct (H5 g x Hx Hl Hc) as (s' & Hs' & Hg).
    exists s'. rewrite lookup_alter_ne; [done|]. intros E. rewrite <- E in Hs'. congruence.
  - intros p sp Hp Hst. rewrite lookup_insert_Some in Hp. destruct Hp as [[<- <-]|[Hne Hp]]; simpl.
    + rewrite lookup_alter_eq, Hs1. eexists. split; [reflexivity|]. done.
    + destruct (H6 p sp Hp Hst) as (s' & Hs' & ? & ?). exists s'.
      rewrite lookup_alter_ne; [done|]. intros E. by apply (Hsp p sp).
  - intros p sp Hp Hw. rewrite lookup_insert_Some in Hp. destruct Hp as [[<- <-]|[Hne Hp]]; eauto.
Qed.

Lemma pool_ok_ensure now o m : is_Some (m_objects m !! o) -> pool_ok m ->
  pool_ok (ensureGeneration options now o m).2.
Proof.
  intros [s Hs] H. unfold ensureGeneration. rewrite (po_running _ H), Hs. cbv zeta.
  match goal with |- context [if ?b then evict o m else m] => set (b0 := b) end.
  set (m1 := if b0 then evict o m else m).
  assert (H1 : pool_ok m1) by (subst m1; destruct b0; [by apply pool_ok_evict|done]).
  assert (is_Some (m_objects m1 !! o)) as [s1 Hs1].
  { subst m1. destruct b0; [rewrite evict_objects, decide_True by done; by rewrite Hs|by rewrite Hs]. }
  clearbody m1. unfold generation_of. rewrite Hs1; simpl.
  destruct (ms_generation s1) as [g|] eqn:Eg; [done|].
  destruct (ms_spawning s1) as [p|] eqn:Ep; [done|].
  exact (pool_ok_spawn_start now o m1 s1 Hs1 Eg Ep H1).
Qed.

Lemma pool_ok_generation g f m :
  (forall x, m_generations m !! g = Some x -> g_session (f x) = g_session x /\
     g_closing (f x) = g_closing x /\ q_closed (g_input (f x)) = q_closed (g_input x) /\
     g_live (f x) = g_live x) ->
  pool_ok m -> pool_ok (upd_generation g f m).
Proof.
  intros Hf [H1 H2 H3 H4 H5 H6 H7]. split; simpl; auto.
  - intros k Hk. rewrite lookup_alter_None. auto.
  - intros o s g' Ho Hg. destruct (H4 o s g' Ho Hg) as (x & Hx & []).
    destruct (decide (g' = g)) as [->|Hne].
    + destruct (Hf x Hx) as (? & ? & ? & ?). exists (f x). rewrite lookup_alter_eq, Hx.
      split; [done|]. split; congruence.
    + exists x. by rewrite lookup_alter_ne by done.
  - intros g' x' Hx' Hl Hc. apply lookup_alter_Some in Hx' as [(-> & x & Hx & ->)|[Hne Hx']]; [|eauto].
    destruct (Hf x Hx) as (E1 & E2 & _ & E4). rewrite E1. apply H5; congruence.
Qed.

Lemma push_closed {A} (x : A) q : q_closed (push x q) = q_closed q.
Proof. unfold push, wake. destruct (q_closed q) eqn:E; [done|]. by repeat case_match. Qed.

Lemma pool_ok_send_finish now k g c m : pool_ok m -> pool_ok (send_finish options now k g c m).
Proof.
  intros H. unfold send_finish. cbv zeta.
  match goal with |- context [touch _ _ _ ?x] => set (m1 := x) end.
  assert (H1 : pool_ok m1).
  { subst m1. destruct (um_shouldQuery (pc_message c)) as [[]|]; try done; by apply pool_ok_object. }
  eapply pool_ok_same; [| | | | | |apply (pool_ok_generation g (push_input (pc_message c)));
    [|apply (pool_ok_touch now (pc_session c) m1 H1)]]; try done.
  intros x _. simpl. by rewrite push_closed.
Qed.

Lemma touch_object now o m s : m_objects m !! o = Some s ->
  exists s', m_objects (touch options now o m) = <[o := s']> (m_objects m) /\
    ms_generation s' = ms_generation s /\ ms_spawning s' = ms_spawning s /\
    ms_pendingTurns s' = ms_pendingTurns s /\ ms_id s' = ms_id s /\ ms_cwd s' = ms_cwd s /\
    ms_out s' = ms_out s /\
    (ms_generation s <> None -> m_shutdownRequested m = false -> is_Some (ms_ttlTimer s')).
Proof.
  intros Hs. unfold touch. rewrite Hs. unfold armTtl. simpl.
  eexists (set_ttlTimer _ (set_lastActivity now s)). split_and!; [|done..|].
  - apply map_eq. intros i. destruct (decide (i = o)) as [->|Hne].
    + by rewrite lookup_alter_eq, lookup_alter_eq, Hs, lookup_insert_eq.
    + by rewrite !lookup_alter_ne, lookup_insert_ne by done.
  - simpl. intros Hg ->. rewrite bool_decide_false by done. by eexists.
Qed.

Lemma touch_rest now o m : m_generations (touch options now o m) = m_generations m /\
  m_spawns (touch options now o m) = m_spawns m /\ m_next (touch options now o m) = m_next m /\
  m_shutdownRequested (touch options now o m) = m_shutdownRequested m /\
  m_shutdowns (touch options now o m) = m_shutdowns m.
Proof. unfold touch. by destruct (m_objects m !! o). Qed.

Lemma pool_ok_spawn_finish now p b m sp : m_spawns m !! p = Some sp -> sp_phase sp = SpWaiting ->
  pool_ok m -> pool_ok (spawn_finish options now p b m).
Proof.
  intros Hp Hw H. pose proof (po_waiting _ H p sp Hp Hw) as Hst.
  destruct (po_spawn _ H p sp Hp Hst) as (s & Hs & Hsw & Hgen). specialize (Hgen Hw).
  unfold spawn_finish. rewrite Hp, Hs.
  set (g := m_next m). set (o := sp_session sp) in *. set (x := mkGeneration _ _ _ _ _ _ _).
  set (m1 := upd_object o (set_generation_of (Some g)) (alloc_generation x m)).
  assert (Hs1 : m_objects m1 !! o = Some (set_generation_of (Some g) s))
    by (subst m1; simpl; by rewrite lookup_alter_eq, Hs).
  destruct (touch_object now o m1 _ Hs1) as (s' & Eo & Eg & Es & _ & _ & _ & _ & Et).
  destruct (touch_rest now o m1) as (Rg & Rs & Rn & Rr & Rd).
  destruct H as [H1 H2 H3 H4 H5 H6 H7].
  destruct (H3 g (le_n _)) as (Fo & Fg & Fp).
  assert (Hno : o <> g) by congruence.
  split; simpl; rewrite ?Eo, ?Rg, ?Rs, ?Rn, ?Rr, ?Rd; simpl; auto.
  - intros k Hk. destruct (H3 k ltac:(lia)) as (? & ? & ?).
    assert (o <> k) by congruence. assert (g <> k) by (subst g; lia).
    rewrite lookup_insert_ne, lookup_insert_ne, !lookup_alter_None by done. auto.
  - intros o' s0 g' Ho Hg. rewrite lookup_insert_Some in Ho. destruct Ho as [[<- <-]|[Hne Ho]].
    + rewrite Eg in Hg. simpl in Hg. injection Hg as <-. exists x. rewrite lookup_insert_eq.
      split; [done|]. split; try done. by apply Et.
    + rewrite lookup_alter_ne in Ho by done. destruct (H4 o' s0 g' Ho Hg) as (x' & Hx' & W).
      assert (g <> g') by (intros E; rewrite <- E in Hx'; congruence).
      exists x'. rewrite lookup_insert_ne by done. split; [done|]. by destruct W.
  - intros g' x' Hx' Hl Hc. rewrite lookup_insert_Some in Hx'. destruct Hx' as [[<- <-]|[Hne Hx']].
    + exists s'. simpl. rewrite lookup_insert_eq. by rewrite Eg.
    + destruct (H5 g' x' Hx' Hl Hc) as (s0 & Hs0 & Hg0). exists s0.
      assert (o <> g_session x') by congruence.
      by rewrite lookup_insert_ne, lookup_alter_ne by done.
  - intros p' sp' Hp' Hst'. apply lookup_alter_Some in Hp' as [(-> & sp0 & Hp0 & ->)|[Hne Hp']].
    + rewrite Hp in Hp0. injection Hp0 as <-. simpl in *. exists s'. fold o.
      rewrite lookup_insert_eq, Es. done.
    + destruct (H6 p' sp' Hp' Hst') as (s0 & Hs0 & Hw0 & Hn0). exists s0.
      assert (o <> sp_session sp') by congruence.
      by rewrite lookup_insert_ne, lookup_alter_ne by done.
  - intros p' sp' Hp' Hw'. apply lookup_alter_Some in Hp' as [(-> & sp0 & Hp0 & ->)|[Hne Hp']]; [done|eauto].
Qed.

Lemma pool_ok_spawn_fail p m sp : m_spawns m !! p = Some sp -> sp_phase sp = SpWaiting -> pool_ok m ->
  pool_ok (upd_spawn p (fun sp => mkSpawn (sp_session sp) (sp_persona sp) SpFailed (sp_settled sp)) m).
Proof.
  intros Hp Hw [H1 H2 H3 H4 H5 H6 H7]. split; simpl; auto.
  - intros k Hk. rewrite lookup_alter_None. auto.
  - intros o s g Ho Hg. destruct (H4 o s g Ho Hg) as (x & Hx & []). by exists x.
  - intros p' sp' Hp' Hst. apply lookup_alter_Some in Hp' as [(-> & sp0 & Hp0 & ->)|[Hne Hp']]; [|eauto].
    simpl in *. destruct (H6 _ sp0 Hp0 Hst) as (s & Hs & ? & _). exists s. done.
  - intros p' sp' Hp' Hw'. apply lookup_alter_Some in Hp' as [(-> & sp0 & Hp0 & ->)|[Hne Hp']]; [done|eauto].
Qed.

Lemma pool_ok_finally p m sp : m_spawns m !! p = Some sp -> sp_phase sp <> SpWaiting ->
  sp_settled sp = false -> pool_ok m ->
  pool_ok (upd_spawn p (fun sp => mkSpawn (sp_session sp) (sp_persona sp) (sp_phase sp) true)
             (upd_object (sp_session sp) (set_spawning None) m)).
Proof.
  intros Hp Hw Hst [H1 H2 H3 H4 H5 H6 H7].
  destruct (H6 p sp Hp Hst) as (s & Hs & Hsw & _). split; simpl; auto.
  - intros k Hk. rewrite !lookup_alter_None. auto.
  - intros o s0 g Ho Hg. apply lookup_alter_Some in Ho as [(-> & s1 & Ho & ->)|[Hne Ho]].
    + destruct (H4 _ s1 g Ho Hg) as (x & Hx & []). by exists x.
    + destruct (H4 o s0 g Ho Hg) as (x & Hx & []). by exists x.
  - intros g x Hx Hl Hc. destruct (H5 g x Hx Hl Hc) as (s0 & Hs0 & Hg0).
    destruct (decide (sp_session sp = g_session x)) as [E|E].
    + rewrite E, lookup_alter_eq, Hs0. by eexists.
    + rewrite lookup_alter_ne by done. eauto.
  - intros p' sp' Hp' Hst'. apply lookup_alter_Some in Hp' as [(-> & sp0 & Hp0 & ->)|[Hne Hp']]; [done|].
    destruct (H6 p' sp' Hp' Hst') as (s0 & Hs0 & Hw0 & Hn0). exists s0.
    rewrite lookup_alter_ne; [done|]. intros E. rewrite E in Hs. congruence.
  - intros p' sp' Hp' Hw'. apply lookup_alter_Some in Hp' as [(-> & sp0 & Hp0 & ->)|[Hne Hp']]; [|eauto].
    simpl in *. congruence.
Qed.

Lemma pool_ok_frame now g f m : pool_ok m -> pool_ok (pump_frame options now g f m).
Proof.
  intros H. unfold pump_frame. destruct (m_generations m !! g) as [x|]; [|done].
  apply pool_ok_object; [by intros s _|]. apply pool_ok_touch.
  destruct f; try done. by apply pool_ok_object.
Qed.

Lemma pool_ok_exit u g e m : pool_ok m -> pool_ok (pump_exit u g e m).
Proof.
  intros H. unfold pump_exit. destruct (m_generations m !! g) as [x|] eqn:Ex; [|done].
  set (o := g_session x). set (m1 := if g_closing x then m else _).
  assert (Hf : forall r m, pool_ok m -> pool_ok (failPendingTurn u r o m))
    by (intros r m0 H0; by apply pool_ok_object).
  assert (pool_ok m1 /\ m_generations m1 !! g = Some x) as [H1 Ex1].
  { subst m1. destruct (g_closing x); [done|]. destruct e as [d|].
    - destruct (is_busy _ o); (split; [|done]); [apply Hf|]; by apply (pool_ok_same m).
    - destruct (is_busy m o); (split; [|done]); auto. }
  clearbody m1. clear H Hf. destruct H1 as [H1 H2 H3 H4 H5 H6 H7].
  split; simpl; auto.
  - intros k Hk. rewrite !lookup_alter_None. auto.
  - intros o' s' g' Ho Hg. apply lookup_alter_Some in Ho as [(-> & s0 & Hs0 & ->)|[Hne Ho]].
    + simpl in Hg. case_bool_decide as Eb; simpl in Hg; [done|].
      destruct (H4 _ s0 g' Hs0 Hg) as (x' & Hx' & []). exists x'.
      rewrite lookup_alter_ne by congruence. split; [done|]. by split.
    + destruct (H4 o' s' g' Ho Hg) as (x' & Hx' & []). exists x'.
      rewrite lookup_alter_ne; [done|]. intros <-.
      assert (x' = x) as -> by congruence. by apply Hne.
  - intros g' x' Hx' Hl Hc. apply lookup_alter_Some in Hx' as [(-> & x0 & Hx0 & ->)|[Hne Hx']]; [done|].
    destruct (H5 g' x' Hx' Hl Hc) as (s0 & Hs0 & Hg0).
    destruct (decide (o = g_session x')) as [E|E].
    + rewrite E, lookup_alter_eq, Hs0. eexists. split; [reflexivity|]. simpl.
      rewrite bool_decide_false by congruence. done.
    + rewrite lookup_alter_ne by done. eauto.
  - intros p sp Hp Hst. destruct (H6 p sp Hp Hst) as (s0 & Hs0 & Hw0 & Hn0).
    destruct (decide (o = sp_session sp)) as [E|E].
    + rewrite E, lookup_alter_eq, Hs0. eexists. split; [reflexivity|]. simpl.
      case_bool_decide; simpl; auto.
    + rewrite lookup_alter_ne by done. eauto.
Qed.

Lemma pool_ok_ttl now o m : pool_ok m -> pool_ok (onTtlExpired options now o m).
Proof.
  intros [H1 H2 H3 H4 H5 H6 H7]. unfold onTtlExpired.
  set (m1 := upd_object o (set_ttlTimer None) m).
  destruct (generation_of m1 o) as [g|] eqn:Eg.
  - (* the timer is unset only until it is armed again or the process is let go *)
    assert (H0 : pool_ok m) by (by split).
    destruct (is_busy m1 o).
    + eapply (pool_ok_same (armTtl options now o m)); [..|by apply pool_ok_armTtl]; try done.
      apply map_eq. intros i. unfold armTtl; simpl. destruct (decide (i = o)) as [->|Hne].
      * rewrite !lookup_alter_eq. by destruct (m_objects m !! o).
      * by rewrite !lookup_alter_ne by done.
    + eapply (pool_ok_same (evict o m)); [..|by apply pool_ok_evict].
      all: apply generation_of_Some in Eg as (s & Hs & Hg); subst m1; simpl in Hs.
      all: apply lookup_alter_Some in Hs as [(_ & s0 & Hs0 & ->)|[? _]]; [|done].
      all: unfold evict, generation_of; simpl; rewrite ?lookup_alter_eq, Hs0; simpl in *; rewrite Hg; try done.
      simpl. apply map_eq. intros i. destruct (decide (i = o)) as [->|Hne].
      * rewrite !lookup_alter_eq, Hs0. done.
      * by rewrite !lookup_alter_ne by done.
  - subst m1. apply pool_ok_object; [|by split]. intros s Hs. simpl. split_and!; [done..|].
    intros [g Hg]. unfold generation_of in Eg. simpl in Eg.
    rewrite lookup_alter_eq, Hs in Eg. simpl in Eg. congruence.
Qed.

Lemma pool_ok_step now e m m' : e <> EShutdown -> pool_ok m -> step options now e m = Some m' ->
  pool_ok m'.
Proof.
  intros He H. destruct e as [c w|o msg|k|p b|p|o|g f|g u er|o| |ps]; simpl; try done.
  - intros [= <-]. by apply pool_ok_sessionFor.
  - destruct (m_objects m !! o) as [s|] eqn:Es; [|done]. intros [= <-]. unfold send_start.
    pose proof (pool_ok_ensure now o m ltac:(by rewrite Es) H) as H1.
    destruct (ensureGeneration options now o m) as [[wt|] m1]; simpl in H1; [|done].
    destruct H1 as [? ? ? ? ? ? ?]. apply (pool_ok_same m1); simpl; auto with lia. by split.
  - destruct (m_calls m !! k) as [c|]; [|done]. simpl.
    destruct (awaited m c) as [[g|]|]; [|intros [= <-]; by apply (pool_ok_same m)|done].
    intros [= <-]. by apply pool_ok_send_finish.
  - destruct (m_spawns m !! p) as [sp|] eqn:Ep; [|done]. simpl.
    destruct (sp_phase sp) eqn:Eph; [|done..]. intros [= <-].
    destruct b as [b|]; [by eapply pool_ok_spawn_finish|by eapply pool_ok_spawn_fail].
  - destruct (m_spawns m !! p) as [sp|] eqn:Ep; [|done]. simpl.
    destruct (sp_phase sp) eqn:Eph; [done|..]; destruct (sp_settled sp) eqn:Est; try done;
      intros [= <-]; apply (pool_ok_finally p m sp); auto; congruence.
  - destruct (m_objects m !! o); [|done]. intros [= <-]. unfold interrupt.
    destruct (generation_of m o); [by apply pool_ok_touch|done].
  - destruct (m_generations m !! g) as [x|]; [|done]. simpl. destruct (g_live x); [|done].
    intros [= <-]. by apply pool_ok_frame.
  - destruct (m_generations m !! g) as [x|]; [|done]. simpl. destruct (g_live x); [|done].
    intros [= <-]. by apply pool_ok_exit.
  - destruct (m_objects m !! o) as [s|]; [|done]. simpl. destruct (ms_ttlTimer s); [|done].
    destruct (_ <=? _)%Z; [|done]. intros [= <-]. by apply pool_ok_ttl.
  - rewrite (po_shutdowns _ H). rewrite bool_decide_false by set_solver. done.
Qed.

Lemma play_ok es : forall m m', Forall (fun e => e.2 <> EShutdown) es -> pool_ok m ->
  play options es m = Some m' -> pool_ok m'.
Proof.
  induction es as [|[now e] es IH]; intros m m' Hes H; simpl; [by intros [= <-]|].
  inversion Hes; subst. destruct (step options now e m) as [m1|] eqn:E; [|done]. simpl.
  apply IH; [done|]. by eapply pool_ok_step.
Qed.
End Pool.

(** The pool cap. Spawning evicts the idle sessions among the [k]
    least recently used, for the smallest [k] that brings the pool under
    its cap; if none does, every session left with a process is in the
    middle of a turn, and that is warned about. A busy session is never
    touched. *)
Theorem enforcePoolCap_lru options m : exists k ws,
  k <= length (m_sessions m) /\
  enforcePoolCap options m = fold_left (fun m w => onWarning w m) ws (evicted k m) /\
  (forall j, j < k -> maxSessions options <= hotCount (evicted j m)) /\
  (forall o, is_busy m o = true -> generation_of (evicted k m) o = generation_of m o) /\
  ((hotCount (evicted k m) < maxSessions options /\ ws = []) \/
   (length ws = 1 /\ forall e, e ∈ m_sessions m -> is_hot (evicted k m) e = true ->
      is_busy (evicted k m) e.2 = true)).
Proof.
  assert (Hb : forall k o, is_busy m o = true -> generation_of (evicted k m) o = generation_of m o).
  { intros k o Hb. unfold evicted. revert Hb. generalize (take k (m_sessions m)) as l.
    intros l. revert m. induction l as [|[i x] l IH]; intros m Hb; simpl; [done|].
    assert (Hb1 : is_busy (evict_if_idle m (i, x)) o = true).
    { unfold evict_if_idle; simpl. destruct (idle_hot m x); [by rewrite evict_busy|done]. }
    rewrite (IH _ Hb1). unfold evict_if_idle; simpl. destruct (idle_hot m x) eqn:Ei; [|done].
    rewrite evict_generation, decide_False; [done|]. intros ->. unfold idle_hot in Ei.
    rewrite Hb, andb_false_r in Ei. done. }
  unfold enforcePoolCap. destruct (Nat.ltb_spec (hotCount m) (maxSessions options)) as [Hlt|Hge].
  { exists 0, []. split_and!; [lia|done|intros; lia|apply (Hb 0)|by left]. }
  destruct (evict_idle_prefix options (m_sessions m) m Hge) as (k & Hk & Hr & Hj & Hd).
  destruct (evict_idle options (m_sessions m) m) as [[] m1]; simpl in *.
  - exists k, []. split_and!; [done|done|done|apply Hb|]. left. unfold evicted. by rewrite <- Hr.
  - subst k m1. eexists (length (m_sessions m)), [_]. split_and!; [done|reflexivity|done|apply Hb|].
    right. split; [done|]. intros e He Hh. unfold evicted in *. rewrite take_ge in * by done.
    destruct (fold_evict_spec (m_sessions m) m e.2) as (_ & _ & _ & I).
    specialize (I (list_elem_of_fmap_2 snd _ _ He)). unfold idle_hot in I. unfold is_hot in Hh.
    change (e.2) with (snd e) in *. rewrite Hh in I. simpl in I. by apply negb_false_iff in I.
Qed.

(** ** Who keeps a process *)

(** Session [o] has process [g], and it is not being closed. *)
Definition holds (m : SessionManager) (o g : nat) : Prop :=
  exists s x, m_objects m !! o = Some s /\ ms_generation s = Some g /\
    m_generations m !! g = Some x /\ g_closing x = false.

Lemma holds_same m m' o g : m_objects m' = m_objects m -> m_generations m' = m_generations m ->
  holds m o g -> holds m' o g.
Proof. intros E1 E2 (s & x & H). exists s, x. by rewrite E1, E2. Qed.

Lemma holds_object f o' m o g :
  (forall s, m_objects m !! o' = Some s -> o' = o -> ms_generation s = Some g ->
     ms_generation (f s) = Some g) ->
  holds m o g -> holds (upd_object o' f m) o g.
Proof.
  intros Hf (s & x & Hs & Hg & Hx & Hc). unfold holds. simpl. destruct (decide (o' = o)) as [->|Hne].
  - exists (f s), x. rewrite lookup_alter_eq, Hs. split_and!; [done|by apply Hf|done|done].
  - exists s, x. by rewrite lookup_alter_ne by done.
Qed.

Lemma holds_generation f g' m o g :
  (forall x, g_closing (f x) = g_closing x) -> holds m o g -> holds (upd_generation g' f m) o g.
Proof.
  intros Hf (s & x & Hs & Hg & Hx & Hc). unfold holds. simpl. destruct (decide (g' = g)) as [->|Hne].
  - exists s, (f x). rewrite lookup_alter_eq, Hx. split_and!; [done..|]. by rewrite Hf.
  - exists s, x. by rewrite lookup_alter_ne by done.
Qed.

Lemma holds_touch options now o' m o g : holds m o g -> holds (touch options now o' m) o g.
Proof.
  intros H. unfold touch. destruct (m_objects m !! o'); [|done]. unfold armTtl.
  apply holds_object; [done|]. eapply holds_same; [reflexivity|reflexivity|]. by apply holds_object.
Qed.

Lemma holds_evict o' m o g : pool_ok m -> o' <> o -> holds m o g -> holds (evict o' m) o g.
Proof.
  intros H Hne (s & x & Hs & Hg & Hx & Hc). unfold evict.
  destruct (generation_of m o') as [g'|] eqn:Eg; [|by exists s, x].
  apply generation_of_Some in Eg as (s' & Hs' & Hg').
  assert (g' <> g).
  { intros ->. destruct (po_current _ H _ _ _ Hs Hg) as (x1 & Hx1 & []).
    destruct (po_current _ H _ _ _ Hs' Hg') as (x2 & Hx2 & []). congruence. }
  exists s, x. simpl. by rewrite !lookup_alter_ne by done.
Qed.

Lemma holds_enforce options m o g : pool_ok m -> is_busy m o = true -> holds m o g ->
  holds (enforcePoolCap options m) o g.
Proof.
  intros H Hb Hh. unfold enforcePoolCap. destruct (_ <? _); [done|].
  assert (Hl : forall l m, pool_ok m -> is_busy m o = true -> holds m o g ->
    holds (evict_idle options l m).2 o g).
  { induction l as [|[i x] l IH]; intros m0 H0 Hb0 Hh0; simpl; [done|].
    destruct (bool_decide _ && negb (is_busy m0 x)) eqn:E; [|by apply IH].
    assert (x <> o) by (intros ->; rewrite Hb0, andb_false_r in E; done).
    assert (holds (evict x m0) o g) by (by apply holds_evict).
    destruct (_ <? _); [done|]. apply IH; [by apply pool_ok_evict|by rewrite evict_busy|done]. }
  specialize (Hl (m_sessions m) m H Hb Hh).
  destruct (evict_idle options (m_sessions m) m) as [[] m1]; [done|]. by eapply holds_same.
Qed.

Lemma holds_alloc_generation x m o g : pool_ok m -> holds m o g -> holds (alloc_generation x m) o g.
Proof.
  intros H (s & x0 & Hs & Hg & Hx & Hc). exists s, x0. simpl. split_and!; try done.
  rewrite lookup_insert_ne; [done|]. intros E.
  destruct (po_fresh _ H (m_next m) (le_n _)) as (_ & F & _). congruence.
Qed.

Lemma holds_ensure options now o' m o g : pool_ok m -> is_Some (m_objects m !! o') ->
  is_busy m o = true -> holds m o g -> holds (ensureGeneration options now o' m).2 o g.
Proof.
  intros H [s Hs] Hb Hh. unfold ensureGeneration. rewrite (po_running _ H), Hs. cbv zeta.
  match goal with |- context [if ?b then evict o' m else m] => destruct b eqn:Eb end.
  - assert (o' <> o).
    { intros ->. unfold is_busy in Hb. rewrite Hs in Hb.
      destruct (ms_generation s ≫= _); [|done]. rewrite Hb, andb_false_r in Eb. done. }
    rewrite evict_generation, decide_True by done.
    assert (H1 : holds (evict o' m) o g) by (by apply holds_evict).
    destruct (m_objects (evict o' m) !! o' ≫= ms_spawning); [done|]. simpl.
    apply holds_object; [done|]. eapply holds_same; [reflexivity|reflexivity|].
    apply holds_enforce; [by apply pool_ok_evict|by rewrite evict_busy|done].
  - destruct (generation_of m o'); [done|]. rewrite Hs. simpl.
    destruct (ms_spawning s); [done|]. simpl. apply holds_object; [done|].
    eapply holds_same; [reflexivity|reflexivity|]. by apply holds_enforce.
Qed.

Lemma holds_step options now e m m' o g : pool_ok m -> step options now e m = Some m' ->
  e <> EShutdown -> (forall u er, e <> EExit g u er) -> is_busy m o = true ->
  holds m o g -> holds m' o g.
Proof.
  intros H Hs He Hx Hb Hh.
  destruct e as [c w|o' msg|k|p b|p|o'|g' f|g' u er|o'| |ps]; simpl in Hs; try done.
  - injection Hs as <-. unfold sessionFor, session. destruct (assq c (m_sessions m)).
    + destruct w; [destruct (workspace_at _ _)|]; simpl; try done; by apply holds_object.
    + assert (holds (alloc_object (mkSession c (Directory (h_cwd (o_harness options))) new_queue None None 0 now None) m) o g).
      { destruct Hh as (s & x & Hso & Hr). exists s, x. simpl. rewrite lookup_insert_ne; [done|].
        intros E. destruct (po_fresh _ H (m_next m) (le_n _)) as (F & _). congruence. }
      destruct w; [destruct (workspace_at _ _)|]; simpl; try done; by apply holds_object.
  - destruct (m_objects m !! o') as [s|] eqn:Eo; [|done]. injection Hs as <-. unfold send_start.
    pose proof (holds_ensure options now o' m o g H ltac:(by rewrite Eo) Hb Hh) as H1.
    destruct (ensureGeneration options now o' m) as [[wt|] m1]; simpl in H1; [|done].
    by eapply holds_same.
  - destruct (m_calls m !! k) as [c|]; [|done]. simpl in Hs.
    destruct (awaited m c) as [[g'|]|]; [| |done]; injection Hs as <-; [|by eapply holds_same].
    unfold send_finish. cbv zeta. eapply holds_same; [reflexivity|reflexivity|].
    apply holds_generation; [done|]. apply holds_touch.
    destruct (um_shouldQuery (pc_message c)) as [[]|]; try done; by apply holds_object.
  - destruct (m_spawns m !! p) as [sp|] eqn:Ep; [|done]. simpl in Hs.
    destruct (sp_phase sp) eqn:Eph; [|done..]. injection Hs as <-.
    destruct b as [b|]; [|by eapply holds_same]. unfold spawn_finish. rewrite Ep.
    destruct (m_objects m !! sp_session sp) as [s|] eqn:Eo; [|done].
    eapply holds_same; [reflexivity|reflexivity|]. apply holds_touch.
    apply holds_object; [|by apply holds_alloc_generation].
    intros s0 Hs0 E Hg0. exfalso. simpl in Hs0. rewrite Eo in Hs0. injection Hs0 as <-.
    destruct (po_spawn _ H p sp Ep (po_waiting _ H p sp Ep Eph)) as (s1 & Hs1 & _ & Hn).
    specialize (Hn Eph). congruence.
  - destruct (m_spawns m !! p) as [sp|]; [|done]. simpl in Hs.
    destruct (sp_phase sp); [done|..]; destruct (sp_settled sp); try done; injection Hs as <-;
      (eapply holds_same; [reflexivity|reflexivity|]); by apply holds_object.
  - destruct (m_objects m !! o'); [|done]. injection Hs as <-. unfold interrupt.
    destruct (generation_of m o'); [by apply holds_touch|done].
  - destruct (m_generations m !! g') as [x|] eqn:Ex; [|done]. simpl in Hs. destruct (g_live x); [|done].
    injection Hs as <-. unfold pump_frame. rewrite Ex. apply holds_object; [done|]. apply holds_touch.
    destruct f; try done. by apply holds_object.
  - destruct (m_generations m !! g') as [x|] eqn:Ex; [|done]. simpl in Hs. destruct (g_live x); [|done].
    injection Hs as <-. unfold pump_exit. rewrite Ex.
    assert (Hne : g' <> g) by (intros ->; by eapply Hx).
    assert (Hf : forall r m, holds m o g -> holds (failPendingTurn u r (g_session x) m) o g)
      by (intros r m0 H0; by apply holds_object).
    apply holds_generation; [done|]. apply holds_object.
    { intros s0 _ _ Hg. simpl. rewrite bool_decide_false by congruence. done. }
    destruct (g_closing x); [done|]. destruct er as [d|].
    + match goal with |- context [is_busy ?a ?b] => destruct (is_busy a b) end;
        [apply Hf|]; by eapply holds_same.
    + destruct (is_busy m (g_session x)); auto.
  - destruct (m_objects m !! o') as [s|] eqn:Eo; [|done]. simpl in Hs. destruct (ms_ttlTimer s); [|done].
    destruct (_ <=? _)%Z; [|done]. injection Hs as <-.
    pose proof (pool_ok_ttl options now o' m H) as H'. revert H'. unfold onTtlExpired.
    set (m1 := upd_object o' (set_ttlTimer None) m).
    assert (H1 : holds m1 o g) by (by apply holds_object).
    destruct (generation_of m1 o') as [g'|] eqn:Eg; [|done].
    destruct (is_busy m1 o') eqn:Eb; [intros _; by apply holds_object|]. intros _.
    assert (o' <> o).
    { intros ->. unfold is_busy in Hb, Eb. subst m1. simpl in Eb. rewrite lookup_alter_eq, Eo in Eb.
      rewrite Eo in Hb. simpl in Eb. change (busy s = false) in Eb. congruence. }
    destruct H1 as (s1 & x1 & Hs1 & Hg1 & Hx1 & Hc1). unfold evict. rewrite Eg.
    apply generation_of_Some in Eg as (s2 & Hs2 & Hg2). subst m1. simpl in *.
    rewrite lookup_alter_ne in Hs1 by done. rewrite lookup_alter_eq, Eo in Hs2. injection Hs2 as <-.
    assert (g' <> g).
    { intros ->. destruct (po_current _ H _ _ _ Hs1 Hg1) as (y1 & Hy1 & []).
      destruct (po_current _ H _ _ _ Eo Hg2) as (y2 & Hy2 & []). congruence. }
    exists s1, x1. simpl. by rewrite !lookup_alter_ne by done.
  - destruct (_ && _); [|done]. injection Hs as <-. by eapply holds_same.
Qed.

(** ** The theorems *)

(** C3: one process per session, none orphaned. Until shutdown, under
    every interleaving of calls, spawns, timers, frames and exits: a live
    subprocess nobody has closed is its session's current one; and a
    session's current subprocess is live, its own, still accepts input, and
    has its idle timer armed — so it cannot be leaked. *)
Theorem one_process_per_session options es m :
  Forall (fun e => e.2 <> EShutdown) es -> play options es new_manager = Some m ->
  (forall g x, m_generations m !! g = Some x -> g_live x = true -> g_closing x = false ->
     generation_of m (g_session x) = Some g) /\
  (forall o s g, m_objects m !! o = Some s -> ms_generation s = Some g ->
     exists x, m_generations m !! g = Some x /\ g_session x = o /\ g_live x = true /\
       g_closing x = false /\ q_closed (g_input x) = false /\ is_Some (ms_ttlTimer s)).
Proof.
  intros Hes Hp. pose proof (play_ok options es _ _ Hes pool_ok_new Hp) as H. split.
  - intros g x Hx Hl Hc. destruct (po_owned _ H g x Hx Hl Hc) as (s & Hs & Hg).
    unfold generation_of. by rewrite Hs.
  - intros o s g Hs Hg. destruct (po_current _ H o s g Hs Hg) as (x & Hx & []). by exists x.
Qed.

(** C4: a session counted busy is never evicted: whatever happens next —
    another session spawning past the cap, a timer, a re-homing — other
    than its own process exiting or a shutdown, it keeps the same process,
    which is not closing and still accepts input. *)
Theorem busy_never_evicted options es m now e m' o s g :
  Forall (fun e => e.2 <> EShutdown) es -> play options es new_manager = Some m ->
  m_objects m !! o = Some s -> busy s = true -> ms_generation s = Some g ->
  e <> EShutdown -> (forall u er, e <> EExit g u er) -> step options now e m = Some m' ->
  exists s' x, m_objects m' !! o = Some s' /\ ms_generation s' = Some g /\
    m_generations m' !! g = Some x /\ g_closing x = false /\ q_closed (g_input x) = false.
Proof.
  intros Hes Hp Hs Hb Hg He Hx Hst. pose proof (play_ok options es _ _ Hes pool_ok_new Hp) as H.
  destruct (po_current _ H o s g Hs Hg) as (x0 & Hx0 & []).
  destruct (holds_step options now e m m' o g H Hst He Hx) as (s' & x & Hs' & Hg' & Hx' & Hc').
  { unfold is_busy. by rewrite Hs. }
  { by exists s, x0. }
  pose proof (pool_ok_step options now e m m' He H Hst) as H'.
  destruct (po_current _ H' o s' g Hs' Hg') as (x1 & Hx1 & []).
  exists s', x. split_and!; try done. congruence.
Qed.

(** A process that dies under a turn fails the turn. An exit nobody
    asked for, while sends await a result, puts exactly one synthetic error
    result on the session's stream, forgets the process and the count of
    pending turns, and leaves the rest of the session as it was, so the
    next send resumes it; an exit while idle adds nothing. *)
Theorem crash_fails_turn options es m now g x s uuid error m' :
  Forall (fun e => e.2 <> EShutdown) es -> play options es new_manager = Some m ->
  m_generations m !! g = Some x -> g_live x = true -> g_closing x = false ->
  m_objects m !! g_session x = Some s -> step options now (EExit g uuid error) m = Some m' ->
  let reason := match error with
                | None => js "claude code process exited before finishing the turn"
                | Some detail => js "claude code process crashed: " ++ detail
                end in
  m_objects m' !! g_session x = Some
    (set_pendingTurns 0 (set_generation_of None
      (if busy s then set_out (push (FResult (synthetic_result uuid reason)) (ms_out s)) s else s))).
Proof.
  intros Hes Hp Hx Hl Hc Hs Hst reason. pose proof (play_ok options es _ _ Hes pool_ok_new Hp) as H.
  simpl in Hst. rewrite Hx in Hst. simpl in Hst. rewrite Hl in Hst. injection Hst as <-.
  destruct (po_owned _ H g x Hx Hl Hc) as (s0 & Hs0 & Hg). rewrite Hs in Hs0. injection Hs0 as <-.
  unfold pump_exit. rewrite Hx, Hc. cbv zeta. simpl. rewrite lookup_alter_eq.
  unfold is_busy. destruct error as [d|]; simpl; rewrite Hs; destruct (busy s) eqn:Eb; simpl;
    rewrite ?lookup_alter_eq, Hs; simpl; by rewrite bool_decide_true by (simpl; congruence).
Qed.

(** ** Concrete runs *)

Definition sample_options : SessionManagerOptions :=
  mkManagerOptions (mkHarness (js "/home/agent") (js "opus") 60 None) None (Some 1) VUndef None None
    None [(js "web", js "/srv/web")].
Definition hello : SDKUserMessage := mkUserMessage (js "hello") (js "u1") None None.
Definition more : SDKUserMessage := mkUserMessage (js "more") (js "u2") None None.
Definition done_result : SDKMessage :=
  FResult (mkResult (js "r1") (Some (js "u1")) (Some 0) (js "success") false (js "Hi") [] None 5 4
    (Some 1%Qc) (mkUsage None None None None) None).

(** A first message: session 0, spawn 1, the suspended send 2, process 3. *)
Definition first_message : list (Z * event) :=
  [(0%Z, ESessionFor (js "c1") None); (0%Z, ESend 0 hello); (1%Z, ESpawnResume 1 (Some false));
   (1%Z, ESpawnFinally 1); (1%Z, ESendResume 2)].
(** Its turn ends, the idle timer fires, and a second message starts
    process 6 while process 3 is still exiting. *)
Definition second_message : list (Z * event) :=
  first_message ++
  [(2%Z, EFrame 3 done_result); (60002%Z, ETtl 0); (60003%Z, ESend 0 more);
   (60004%Z, ESpawnResume 4 (Some true)); (60004%Z, ESpawnFinally 4); (60004%Z, ESendResume 5)].

Definition after (es : list (Z * event)) : SessionManager :=
  default new_manager (play sample_options es new_manager).


Definition no_session : ManagedSession := mkSession [] (Directory []) new_queue None None 0 0 None.
Definition no_process : Generation :=
  mkGeneration 0 (Directory []) new_queue (spawn_options sample_options no_session None true) false true false.
Definition session_at (es : list (Z * event)) (o : nat) : ManagedSession :=
  default no_session (m_objects (after es) !! o).
Definition process_at (es : list (Z * event)) (g : nat) : Generation :=
  default no_process (m_generations (after es) !! g).

(** What has just been computed is there. *)
Lemma after_play es : present (play sample_options es new_manager) = true ->
  play sample_options es new_manager = Some (after es).
Proof. apply (some_default new_manager). Qed.
Lemma session_there es o : present (m_objects (after es) !! o) = true ->
  m_objects (after es) !! o = Some (session_at es o).
Proof. apply (some_default no_session). Qed.
Lemma process_there es g : present (m_generations (after es) !! g) = true ->
  m_generations (after es) !! g = Some (process_at es g).
Proof. apply (some_default no_process). Qed.
Lemma play_snoc options es now e m : play options (es ++ [(now, e)]) m =
  m1 ← play options es m; step options now e m1.
Proof.
  revert m; induction es as [|[t x] es IH]; intros m; simpl.
  - by destruct (step options now e m).
  - destruct (step options t x m); simpl; [apply IH|done].
Qed.
Lemma after_step now e es : present (play sample_options es new_manager) = true ->
  present (play sample_options (es ++ [(now, e)]) new_manager) = true ->
  step sample_options now e (after es) = Some (after (es ++ [(now, e)])).
Proof.
  unfold after. rewrite play_snoc. destruct (play sample_options es new_manager); [|done].
  simpl. destruct (step sample_options now e s); [done|done].
Qed.
Ltac there := first [apply after_play|apply after_step; [evaluated|]|apply session_there|apply process_there]; evaluated.
Ltac no_shutdown := repeat (constructor; [discriminate|]); constructor.

Lemma one_process_per_session_witness :
  generation_of (after second_message) 0 = Some 6 /\
  exists x, m_generations (after second_message) !! 6 = Some x /\ q_closed (g_input x) = false.
Proof.
  destruct (one_process_per_session sample_options second_message (after second_message)) as [_ H].
  - no_shutdown.
  - there.
  - split; [evaluated|].
    destruct (H 0 (session_at second_message 0) 6) as (x & Hx & _ & _ & _ & Hq & _);
      [there|evaluated|]. exists x. exact (conj Hx Hq).
Defined.

Lemma busy_never_evicted_witness : exists s x,
  m_objects (after (first_message ++ [(70000%Z, ETtl 0)])) !! 0 = Some s /\
  ms_generation s = Some 3 /\
  m_generations (after (first_message ++ [(70000%Z, ETtl 0)])) !! 3 = Some x /\ g_closing x = false.
Proof.
  destruct (busy_never_evicted sample_options first_message (after first_message) 70000 (ETtl 0)
    (after (first_message ++ [(70000%Z, ETtl 0)])) 0 (session_at first_message 0) 3)
    as (s & x & H1 & H2 & H3 & H4 & _).
  - no_shutdown.
  - there.
  - there.
  - evaluated.
  - evaluated.
  - discriminate.
  - discriminate.
  - there.
  - exists s, x. split_and!; assumption.
Defined.

Lemma crash_fails_turn_witness :
  let s := session_at first_message 0 in
  let result := FResult (synthetic_result (js "r9") (js "claude code process crashed: boom")) in
  busy s = true /\
  m_objects (after (first_message ++ [(5%Z, EExit 3 (js "r9") (Some (js "boom")))])) !! 0 =
    Some (set_pendingTurns 0 (set_generation_of None
      (if busy s then set_out (push result (ms_out s)) s else s))).
Proof.
  intros s result. split; [evaluated|].
  assert (E : g_session (process_at first_message 3) = 0) by evaluated.
  pose proof (crash_fails_turn sample_options first_message (after first_message) 5 3
    (process_at first_message 3) s (js "r9") (Some (js "boom"))
    (after (first_message ++ [(5%Z, EExit 3 (js "r9") (Some (js "boom")))]))) as H.
  rewrite E in H. apply H; [no_shutdown|there|there|evaluated|evaluated|there|there].
Defined.

(** The exit of an old process can get a new turn evicted. The pump's
    [finally] clears the session's count of pending turns whichever process
    it belonged to; so when an evicted process exits after its successor
    has taken a message, the session no longer counts as busy, and the next
    timer closes the process in the middle of that turn — with no frame of
    its turn ever seen and its message not yet read. *)
Theorem stale_exit_evicts_mid_turn : exists es m x,
  play sample_options es new_manager = Some m /\
  Forall (fun e => e.2 <> EShutdown /\ forall f, e.2 <> EFrame 6 f) es /\
  m_generations m !! 6 = Some x /\ g_live x = true /\ g_closing x = true /\
  q_buffer (g_input x) = [more].
Proof.
  set (es := second_message ++ [(60005%Z, EExit 3 (js "r9") None); (200000%Z, ETtl 0)]).
  exists es, (after es), (process_at es 6). split; [there|]. split.
  { repeat (constructor; [split; discriminate|]). constructor. }
  split; [there|]. split_and!; evaluated.
Qed.

(** Shutting down while a session is being spawned orphans the process.
    [spawnGeneration] does not look at [shutdownRequested] after its await:
    the shutdown finds no process to close and completes, and the process
    then starts, is never asked to stop, and has no idle timer. *)
Theorem shutdown_orphans_spawn : exists es m x s,
  play sample_options es new_manager = Some m /\ (8%Z, EShutdownDone []) ∈ es /\
  m_generations m !! 3 = Some x /\ g_live x = true /\ g_closing x = false /\ g_aborted x = false /\
  m_objects m !! 0 = Some s /\ ms_ttlTimer s = None.
Proof.
  set (es := [(0%Z, ESessionFor (js "c1") None); (0%Z, ESend 0 hello); (7%Z, EShutdown);
              (8%Z, EShutdownDone []); (9%Z, ESpawnResume 1 (Some false))]).
  exists es, (after es), (process_at es 3), (session_at es 0). split; [there|]. split.
  { apply list_elem_of_In. simpl. tauto. }
  split; [there|]. split; [evaluated|]. split; [evaluated|]. split; [evaluated|].
  split; [there|evaluated].
Qed.

(** A workspace of the name of something every object has is not refused as
    unknown: the session gets for its directory what that is. *)
Example inherited_workspace_accepted :
  let '(r, m) := sessionFor sample_options 0 (js "c1") (Some (js "constructor")) new_manager in
  r = inl 0 /\ ms_cwd <$> m_objects m !! 0 = Some (Inherited (js "constructor")).
Proof. split; vm_compute; reflexivity. Qed.
