(* ===== verification/SessionId.v ===== *)
(** [packages/executor/src/session-id.ts]: session identities, derived by
    RFC 4122 v5. Bytes are numbers below 256; SHA-1 is a parameter. *)

From S2P Require Import Prelude.
#[local] Open Scope nat_scope.

Definition THICKET_NAMESPACE : jstr := js "5e0be2bc-7a4f-4a4a-9b25-9c1b2f6f8f31".

(** UTF-8 of a string of UTF-16 units; a lone surrogate encodes as U+FFFD. *)
Definition utf8_of_point (c : N) : list N :=
  if (c <? 128)%N then [c]
  else if (c <? 2048)%N then [(192 + c / 64)%N; (128 + c mod 64)%N]
  else if (c <? 65536)%N then [(224 + c / 4096)%N; (128 + c / 64 mod 64)%N; (128 + c mod 64)%N]
  else [(240 + c / 262144)%N; (128 + c / 4096 mod 64)%N; (128 + c / 64 mod 64)%N; (128 + c mod 64)%N].
Definition is_high (c : N) : bool := ((55296 <=? c) && (c <? 56320))%N.
Definition is_low (c : N) : bool := ((56320 <=? c) && (c <? 57344))%N.

Fixpoint utf8 (s : jstr) : list N :=
  match s with
  | [] => []
  | c :: t =>
      if is_high c then
        match t with
        | d :: t' => if is_low d
                     then utf8_of_point (65536 + (c - 55296) * 1024 + (d - 56320))%N ++ utf8 t'
                     else utf8_of_point 65533 ++ utf8 t
        | [] => utf8_of_point 65533
        end
      else utf8_of_point (if is_low c then 65533%N else c) ++ utf8 t
  end.

(** [Buffer.from(s, "hex")]: pairs of digits, up to the first that is not. *)
Definition hex_value (c : N) : option N :=
  if ((48 <=? c) && (c <=? 57))%N then Some (c - 48)%N
  else if ((97 <=? c) && (c <=? 102))%N then Some (c - 87)%N
  else if ((65 <=? c) && (c <=? 70))%N then Some (c - 55)%N
  else None.
Fixpoint from_hex (s : jstr) : list N :=
  match s with
  | a :: b :: t =>
      match hex_value a, hex_value b with
      | Some x, Some y => (16 * x + y)%N :: from_hex t
      | _, _ => []
      end
  | _ => []
  end.

(** [toString("hex")]. *)
Definition hex_digit (n : N) : N := if (n <? 10)%N then (48 + n)%N else (87 + n)%N.
Definition to_hex (bytes : list N) : jstr := concat ((fun b => [hex_digit (b / 16); hex_digit (b mod 16)]) <$> bytes).

Definition slice (a b : nat) (s : jstr) : jstr := take (b - a) (drop a s).

Section Uuid.
Context (sha1 : list N -> list N).

(** Byte [i] of a buffer, replaced; past the end an assignment is lost. *)
Definition set_byte (i : nat) (f : N -> N) (bytes : list N) : list N := alter f i bytes.

(** [None]: the namespace is not a UUID. *)
Definition uuidv5 (name namespace : jstr) : option jstr :=
  let ns := from_hex (filter (fun c => c <> 45%N) namespace) in
  if negb (length ns =? 16) then None else
  let hash := sha1 (ns ++ utf8 name) in
  let bytes := set_byte 8 (fun b => N.lor (N.land b 63) 128)
                 (set_byte 6 (fun b => N.lor (N.land b 15) 80) (take 16 hash)) in
  let hex := to_hex bytes in
  Some (slice 0 8 hex ++ js "-" ++ slice 8 12 hex ++ js "-" ++ slice 12 16 hex ++ js "-"
        ++ slice 16 20 hex ++ js "-" ++ drop 20 hex).

Definition deriveSessionId (channelId threadTs : jstr) : option jstr :=
  uuidv5 (channelId ++ js ":" ++ threadTs) THICKET_NAMESPACE.

(** ** Properties *)

Lemma version_byte b : (N.lor (N.land b 15) 80 / 16 = 5)%N.
Proof.
  rewrite <- (N.shiftr_div_pow2 _ 4), N.shiftr_lor, N.shiftr_land. simpl. by rewrite N.land_0_r.
Qed.

Lemma variant_byte b : (b < 256)%N -> (8 <= N.lor (N.land b 63) 128 / 16 <= 11)%N.
Proof.
  intros Hb. rewrite <- (N.shiftr_div_pow2 _ 4), N.shiftr_lor, N.shiftr_land.
  change (N.shiftr 63 4) with 3%N. change (N.shiftr 128 4) with 8%N.
  change 3%N with (N.ones 2). rewrite N.land_ones.
  assert (N.shiftr b 4 mod 2 ^ 2 < 4)%N as H by (apply N.mod_lt; done).
  set (r := (N.shiftr b 4 mod 2 ^ 2)%N) in *. clearbody r.
  assert (r = 0 \/ r = 1 \/ r = 2 \/ r = 3)%N as [-> | [-> | [-> | ->]]] by lia; vm_compute; done.
Qed.

Definition is_hex_unit (c : N) : bool := ((48 <=? c) && (c <=? 57) || (97 <=? c) && (c <=? 102))%N.

Lemma hex_digit_unit n : (n < 16)%N -> is_hex_unit (hex_digit n) = true.
Proof.
  intros Hn. unfold is_hex_unit, hex_digit. destruct (N.ltb_spec n 10).
  - apply orb_true_iff. left. apply andb_true_iff. split; apply N.leb_le; lia.
  - apply orb_true_iff. right. apply andb_true_iff. split; apply N.leb_le; lia.
Qed.

Lemma to_hex_length bytes : length (to_hex bytes) = 2 * length bytes.
Proof. unfold to_hex. induction bytes as [|b bs IH]; csimpl; [done|]. lia. Qed.

Lemma to_hex_units bytes : Forall (fun b => b < 256)%N bytes ->
  Forall (fun c => is_hex_unit c = true) (to_hex bytes).
Proof.
  unfold to_hex. induction 1 as [|b bs Hb _ IH]; csimpl; [constructor|].
  repeat constructor; [apply hex_digit_unit|apply hex_digit_unit|exact IH].
  - apply N.Div0.div_lt_upper_bound. lia.
  - by apply N.mod_lt.
Qed.

Lemma to_hex_lookup bytes i b : bytes !! i = Some b ->
  to_hex bytes !! (2 * i) = Some (hex_digit (b / 16)).
Proof.
  unfold to_hex. revert i; induction bytes as [|x bs IH]; intros i; [done|]. destruct i as [|i].
  - by intros [= ->].
  - intros H. replace (2 * S i) with (S (S (2 * i))) by lia. by apply IH.
Qed.
End Uuid.

Lemma log2_byte a : (a < 256)%N -> (N.log2 a < 8)%N.
Proof.
  intros Ha. destruct (N.eq_dec a 0) as [->|]; [done|]. apply N.log2_lt_pow2; [lia|exact Ha].
Qed.

Lemma lor_byte a m : (a < 256)%N -> (m < 256)%N -> (N.lor a m < 256)%N.
Proof.
  intros Ha Hm. destruct (N.eq_dec (N.lor a m) 0) as [->|]; [done|].
  apply (proj2 (N.log2_lt_pow2 (N.lor a m) 8 ltac:(lia))). rewrite N.log2_lor.
  apply log2_byte in Ha, Hm. lia.
Qed.

Lemma land_byte a m : (m < 256)%N -> (N.land a m < 256)%N.
Proof.
  intros Hm. destruct (N.eq_dec (N.land a m) 0) as [->|]; [done|].
  apply (proj2 (N.log2_lt_pow2 (N.land a m) 8 ltac:(lia))).
  pose proof (N.log2_land a m). apply log2_byte in Hm. lia.
Qed.

Lemma alter_Forall {A} (P : A -> Prop) (f : A -> A) i l :
  (forall x, P x -> P (f x)) -> Forall P l -> Forall P (alter f i l).
Proof. intros Hf H. by apply Forall_alter; [|auto]. Qed.

(** A v5 UUID: 36 units, dashes where RFC 4122 puts them, version digit 5,
    variant digit one of 8, 9, a and b, and lower-case hex elsewhere. *)
Definition is_v5 (s : jstr) : Prop :=
  length s = 36 /\
  (forall i, i ∈ [8; 13; 18; 23] -> s !! i = Some 45%N) /\
  s !! 14 = Some 53%N /\
  (exists d, s !! 19 = Some d /\ d ∈ js "89ab") /\
  (forall i c, i < 36 -> i ∉ [8; 13; 18; 23] -> s !! i = Some c -> is_hex_unit c = true).

Lemma dashed_is_v5 hex a b :
  length hex = 32 -> Forall (fun c => is_hex_unit c = true) hex ->
  hex !! 12 = Some 53%N -> hex !! 16 = Some a -> a ∈ js "89ab" -> b = js "-" ->
  is_v5 (slice 0 8 hex ++ b ++ slice 8 12 hex ++ b ++ slice 12 16 hex ++ b
         ++ slice 16 20 hex ++ b ++ drop 20 hex).
Proof.
  intros Hl Hh H12 H16 Ha ->.
  do 32 (destruct hex as [|? hex]; [discriminate Hl|]). destruct hex; [|discriminate Hl].
  simpl in H12, H16. injection H12 as ->. injection H16 as ->.
  split_and!; [reflexivity| |reflexivity|by eexists|].
  - intros i Hi. repeat (apply elem_of_cons in Hi as [-> | Hi]; [reflexivity|]). by apply not_elem_of_nil in Hi.
  - intros i c Hi Hn. rewrite !not_elem_of_cons in Hn. destruct Hn as (N1 & N2 & N3 & N4 & _).
    rewrite Forall_forall in Hh.
    do 36 (destruct i as [|i]; [first [by destruct N1|by destruct N2|by destruct N3|by destruct N4|
      intros [= <-]; apply Hh; repeat (first [by left|right])]|]). lia.
Qed.

(** Every session id is a well-formed v5 UUID. If SHA-1 gives at least
    sixteen bytes, then for every channel and thread the derived id exists
    and is a UUID with the version and variant bits the RFC asks for, so
    the CLI accepts it whatever the thread is called. *)
Theorem deriveSessionId_v5 sha1 channelId threadTs :
  (forall l, 16 <= length (sha1 l) /\ Forall (fun b => b < 256)%N (sha1 l)) ->
  exists id, deriveSessionId sha1 channelId threadTs = Some id /\ is_v5 id.
Proof.
  intros Hsha. unfold deriveSessionId, uuidv5.
  replace (length (from_hex (filter (fun c => c <> 45%N) THICKET_NAMESPACE)) =? 16) with true
    by (vm_compute; reflexivity).
  simpl negb. cbv iota zeta. eexists. split; [reflexivity|].
  destruct (Hsha (from_hex (filter (fun c => c <> 45%N) THICKET_NAMESPACE)
    ++ utf8 (channelId ++ js ":" ++ threadTs))) as [Hlen Hb].
  set (h := sha1 _) in *. clearbody h.
  set (bytes := set_byte 8 _ _).
  assert (Hl : length bytes = 16).
  { subst bytes. unfold set_byte. rewrite !length_alter, length_take. lia. }
  assert (Hby : Forall (fun b => b < 256)%N bytes).
  { subst bytes. unfold set_byte.
    apply alter_Forall; [intros x Hx; apply lor_byte; [by apply land_byte|done]|].
    apply alter_Forall; [intros x Hx; apply lor_byte; [by apply land_byte|done]|].
    by apply Forall_take. }
  destruct (lookup_lt_is_Some_2 (take 16 h) 6) as [b6 E6]; [rewrite length_take; lia|].
  destruct (lookup_lt_is_Some_2 (take 16 h) 8) as [b8 E8]; [rewrite length_take; lia|].
  assert (L6 : bytes !! 6 = Some (N.lor (N.land b6 15) 80)).
  { subst bytes. unfold set_byte. rewrite list_lookup_alter_ne, list_lookup_alter_eq, E6 by done. done. }
  assert (L8 : bytes !! 8 = Some (N.lor (N.land b8 63) 128)).
  { subst bytes. unfold set_byte. rewrite list_lookup_alter_eq, list_lookup_alter_ne, E8 by done. done. }
  assert (Hb8 : (b8 < 256)%N).
  { apply list_elem_of_lookup_2, elem_of_take in E8 as (i & E8 & _).
    rewrite Forall_forall in Hb. apply Hb. by apply list_elem_of_lookup_2 in E8. }
  clearbody bytes. apply (dashed_is_v5 _ (hex_digit (N.lor (N.land b8 63) 128 / 16))).
  - rewrite to_hex_length. lia.
  - by apply to_hex_units.
  - pose proof (to_hex_lookup bytes 6 _ L6) as H6. by rewrite version_byte in H6.
  - exact (to_hex_lookup bytes 8 _ L8).
  - pose proof (variant_byte b8 Hb8) as Hv. set (v := (N.lor (N.land b8 63) 128 / 16)%N) in *. clearbody v.
    assert (v = 8 \/ v = 9 \/ v = 10 \/ v = 11)%N as [-> | [-> | [-> | ->]]] by lia;
      apply (bool_decide_unpack _); vm_compute; constructor.
  - done.
Qed.

Lemma deriveSessionId_v5_witness :
  exists id, deriveSessionId (fun _ => replicate 20 255%N) (js "C1") (js "1700.1") = Some id /\ is_v5 id.
Proof.
  apply (deriveSessionId_v5 (fun _ => replicate 20 255%N)).
  intros l. split; [simpl; lia|]. repeat constructor.
Defined.
