(* ===== verification/Attachments.v ===== *)
(** [packages/executor/src/attachments.ts]: files an inbound message refers
    to, fetched onto this machine. Hashing is a parameter; the file system
    is a map from paths to contents; a fetch is a response whose body
    arrives in chunks and may break off. *)

From S2P Require Import Prelude A2A.
#[local] Open Scope nat_scope.

(** ** [node:path] join, POSIX *)

Definition slash : N := 47.

(** One pass over the segments: empty ones and [.] vanish, [..] removes
    what precedes it unless there is nothing to remove. The result is
    reversed. *)
Definition normal_step (absolute : bool) (out : list jstr) (seg : jstr) : list jstr :=
  match seg with
  | [] | [46%N] => out
  | [46%N; 46%N] =>
      match out with
      | last :: rest => if jeqb last [46%N; 46%N] then seg :: out else rest
      | [] => if absolute then [] else [seg]
      end
  | _ => seg :: out
  end.

Definition segments_of (absolute : bool) (path : jstr) : list jstr :=
  reverse (fold_left (normal_step absolute) (split [slash] path) []).

Definition is_absolute (path : jstr) : bool :=
  match path with c :: _ => (c =? slash)%N | [] => false end.
Definition ends_with_slash (path : jstr) : bool :=
  match last path with Some c => (c =? slash)%N | None => false end.

Definition normalize (path : jstr) : jstr :=
  match path with
  | [] => js "."
  | _ =>
      let absolute := is_absolute path in
      let body := join_with [slash] (segments_of absolute path) in
      match body with
      | [] => if absolute then [slash] else if ends_with_slash path then js "./" else js "."
      | _ => (if absolute then [slash] else []) ++ body
             ++ (if ends_with_slash path then [slash] else [])
      end
  end.

Definition join_path (parts : list jstr) : jstr :=
  normalize (join_with [slash] (filter (fun p => p <> []) parts)).

(** ** The module *)

Definition META_FILE_SIZE : jstr := js "thicket.fileSize".
Definition DEFAULT_MAX_ATTACHMENT_BYTES : Z := (200 * 1024 * 1024)%Z.

Record AttachmentRef := mkRef {
  ar_url : jstr;
  ar_filename : jstr;
  ar_mediaType : jstr;
  ar_size : option Z }.

Record StoredAttachment := mkStored {
  sa_path : jstr;
  sa_filename : jstr;
  sa_mediaType : jstr;
  sa_bytes : Z }.

Definition AttachmentTooLarge (limit : Z) : jstr :=
  js "attachment exceeds " ++ show_Z limit ++ js " bytes".

(** A file system: what each path holds. *)
Abbreviation files := (gmap jstr (list N)).

Section Attachments.
(** [Number(v)] on what is not already a number ([None] is NaN), and the
    hexadecimal SHA-256 of a string's UTF-8 bytes. *)
Context (Number : jsval -> option Z) (sha256 : jstr -> jstr).

(** The url parts of an inbound message, in order. *)
Definition attachment_ref (p : part) : option AttachmentRef :=
  match p_content p with
  | CUrl url =>
      Some (mkRef url (p_filename p)
        (match p_mediaType p with [] => js "application/octet-stream" | m => m end)
        (match prop (p_metadata p) META_FILE_SIZE with
         | VUndef | VNull => Some 0%Z
         | VNum n => Some n
         | v => Number v
         end))
  | _ => None
  end.
Definition attachmentRefs (message : Message) : list AttachmentRef := omap attachment_ref (m_parts message).

Definition is_separator (c : N) : bool := (c =? 47)%N || (c =? 92)%N.
Definition is_control (c : N) : bool := (c <? 32)%N || (c =? 127)%N.

(** [name.split(/[/\\]/).pop()]. *)
Definition after_separator (name : jstr) : jstr :=
  reverse (take_while (fun c => negb (is_separator c)) (reverse name)).

Definition cleaned_name (name : jstr) : jstr :=
  trim (drop_while (fun c => (c =? 46)%N)
          (filter (fun c => is_control c = false) (after_separator name))).

Definition safeName (name : jstr) : jstr :=
  let cleaned := cleaned_name name in
  if jeqb cleaned [] || jeqb cleaned (js ".") || jeqb cleaned (js "..") then js "attachment"
  else if length cleaned <=? 128 then cleaned else drop (length cleaned - 128) cleaned.

Definition is_plain (c : N) : bool :=
  is_digit c || ((65 <=? c) && (c <=? 90) || (97 <=? c) && (c <=? 122)
                 || (c =? 46) || (c =? 95) || (c =? 45))%N.

Definition segment (value : jstr) : jstr :=
  if negb (jeqb value []) && forallb is_plain value && negb (starts_with (js ".") value) then value
  else take 32 (sha256 value).

Definition digest (value : jstr) : jstr := take 16 (sha256 value).

(** [value.toFixed(1)] and [Math.round(value)] of [n / d]; a tie goes up. *)
Definition rounded (n d : Z) : Z := ((2 * n + d) / (2 * d))%Z.
Definition toFixed1 (n d : Z) : jstr :=
  let t := rounded (10 * n) d in show_Z (t / 10) ++ js "." ++ show_Z (t mod 10).

(** The loop over the units: [d] is what the bytes are divided by. *)
Fixpoint scale (units : list jstr) (unit : jstr) (d bytes : Z) : jstr * Z :=
  match units with
  | next :: rest => if (1024 * d <=? bytes)%Z then scale rest next (1024 * d) bytes else (unit, d)
  | [] => (unit, d)
  end.

Definition formatBytes (bytes : Z) : jstr :=
  if (bytes <? 1024)%Z then show_Z bytes ++ js " B" else
  let (unit, d) := scale [js "MB"; js "GB"] (js "KB") 1024 bytes in
  (if (bytes <? 10 * d)%Z then toFixed1 bytes d else show_Z (rounded bytes d)) ++ js " " ++ unit.

(** ** The store *)

(** A body arrives in chunks; it ends, or breaks off with an error. *)
Record response := mkResponse {
  rs_ok : bool;
  rs_status : Z;
  rs_contentLength : option Z;
  rs_body : option (list (list N) * option jstr) }.

Context (dir : jstr) (maxBytes : Z) (fetchImpl : jstr -> response + jstr).

Definition pathFor (contextId : jstr) (ref : AttachmentRef) : jstr :=
  join_path [dir; segment contextId; digest (ar_url ref); safeName (ar_filename ref)].

(** The pipeline into the partial file: chunks are counted as they pass,
    and the one that crosses the limit is not written. *)
Fixpoint pipeline (chunks : list (list N)) (failure : option jstr) (bytes : Z) (written : list N)
  : (Z + jstr) * list N :=
  match chunks with
  | [] => match failure with
          | Some err => (inr err, written)
          | None => (inl bytes, written)
          end
  | chunk :: rest =>
      let bytes' := (bytes + Z.of_nat (length chunk))%Z in
      if (maxBytes <? bytes')%Z then (inr (AttachmentTooLarge maxBytes), written)
      else pipeline rest failure bytes' (written ++ chunk)
  end.

Definition describe (path : jstr) (ref : AttachmentRef) (bytes : Z) : StoredAttachment :=
  mkStored path (safeName (ar_filename ref)) (ar_mediaType ref) bytes.

Definition store (contextId : jstr) (ref : AttachmentRef) (fs : files)
  : (StoredAttachment + jstr) * files :=
  let path := pathFor contextId ref in
  match fs !! path with
  | Some content => (inl (describe path ref (Z.of_nat (length content))), fs)
  | None =>
      if (match ar_size ref with Some n => maxBytes <? n | None => false end)%Z
      then (inr (AttachmentTooLarge maxBytes), fs) else
      match fetchImpl (ar_url ref) with
      | inr err => (inr err, fs)
      | inl response =>
          match rs_ok response, rs_body response with
          | true, Some (chunks, failure) =>
              if (maxBytes <? default 0 (rs_contentLength response))%Z
              then (inr (AttachmentTooLarge maxBytes), fs) else
              let partial := path ++ js ".part" in
              match pipeline chunks failure 0 [] with
              | (inl bytes, written) =>
                  let fs1 := <[partial := written]> fs in
                  (inl (describe path ref bytes), <[path := written]> (delete partial fs1))
              | (inr err, written) =>
                  let fs1 := <[partial := written]> fs in (inr err, delete partial fs1)
              end
          | _, _ => (inr (js "fetch failed: " ++ show_Z (rs_status response)), fs)
          end
      end
  end.
End Attachments.

Record failed_attachment := mkFailed {
  fa_filename : jstr;
  fa_reason : jstr }.

(** What the model sees ahead of the user's words. *)
Definition attachmentPreamble (stored : list StoredAttachment) (failures : list failed_attachment) : jstr :=
  let head :=
    match stored with
    | [] => []
    | [_] => [js "The user attached a file, saved on this machine:"]
    | _ => [js "The user attached " ++ show_nat (length stored) ++ js " files, saved on this machine:"]
    end in
  let lines :=
    head
    ++ ((fun file => js "  " ++ sa_path file ++ js " (" ++ sa_mediaType file ++ js ", "
                     ++ formatBytes (sa_bytes file) ++ js ")") <$> stored)
    ++ ((fun f => js "The user attached " ++ fa_filename f
                  ++ js ", but it could not be retrieved: " ++ fa_reason f) <$> failures) in
  match lines with [] => [] | _ => join_with [10%N] lines ++ [10%N; 10%N] end.

(** ** Properties *)

(** A path segment that can neither traverse nor vanish. *)
Definition plain_segment (s : jstr) : Prop :=
  s <> [] /\ s <> js "." /\ s <> js ".." /\ slash ∉ s.

Definition clean_unit (c : N) : Prop := is_separator c = false /\ is_control c = false.

Lemma cleaned_name_clean name : Forall clean_unit (cleaned_name name).
Proof.
  unfold cleaned_name. apply trim_Forall.
  eapply sublist_Forall; [apply drop_while_sublist|].
  assert (H : Forall (fun c => negb (is_separator c) = true) (after_separator name))
    by apply Forall_reverse, take_while_Forall.
  rewrite Forall_forall in *. intros c Hc. apply list_elem_of_filter in Hc as [Hc Hin].
  split; [|done]. by apply H, negb_true_iff in Hin.
Qed.

Lemma short_not_dots (s : jstr) : length s = 128 -> s <> [] /\ s <> js "." /\ s <> js "..".
Proof. intros H. split_and!; intros ->; vm_compute in H; discriminate. Qed.

Lemma safeName_cases name :
  safeName name = js "attachment" \/
  (Forall clean_unit (safeName name) /\ length (safeName name) <= 128 /\
   safeName name <> [] /\ safeName name <> js "." /\ safeName name <> js "..").
Proof.
  unfold safeName. pose proof (cleaned_name_clean name) as Hc.
  destruct (jeqb (cleaned_name name) [] || jeqb (cleaned_name name) (js ".")
            || jeqb (cleaned_name name) (js "..")) eqn:E; [by left|right].
  apply orb_false_iff in E as [E E3]. apply orb_false_iff in E as [E1 E2].
  apply jeqb_false in E1, E2, E3.
  destruct (Nat.leb_spec (length (cleaned_name name)) 128); [by auto|].
  split; [by apply Forall_drop|]. split; [rewrite length_drop; lia|].
  apply short_not_dots. rewrite length_drop. lia.
Qed.

Lemma clean_no_slash s : Forall clean_unit s -> slash ∉ s.
Proof. rewrite Forall_forall. intros H Hs. by destruct (H _ Hs). Qed.

Lemma safeName_plain name : plain_segment (safeName name).
Proof.
  destruct (safeName_cases name) as [->|(Hc & _ & H1 & H2 & H3)].
  - apply (bool_decide_unpack _). vm_compute. constructor.
  - split_and!; auto. by apply clean_no_slash.
Qed.

(** Lower-case hexadecimal. *)
Definition is_hex (c : N) : bool := is_digit c || ((97 <=? c) && (c <=? 102))%N.

Lemma hex_plain s : s <> [] -> Forall (fun c => is_hex c = true) s -> plain_segment s.
Proof.
  intros Hne H. split_and!; [done| | |].
  1,2: intros ->; inversion H as [|? ? Hx]; vm_compute in Hx; discriminate.
  intros Hs. rewrite Forall_forall in H. by specialize (H _ Hs).
Qed.

Section Contained.
Context (sha256 : jstr -> jstr).
Hypothesis sha256_hex : forall v, length (sha256 v) = 64 /\ Forall (fun c => is_hex c = true) (sha256 v).

Lemma hash_plain n v : 0 < n <= 64 -> plain_segment (take n (sha256 v)).
Proof.
  intros Hn. destruct (sha256_hex v) as [Hl Hh]. apply hex_plain; [|by apply Forall_take].
  intros E. apply (f_equal length) in E. rewrite length_take, Hl in E. simpl in E. lia.
Qed.

Lemma segment_plain v : plain_segment (segment sha256 v).
Proof.
  unfold segment. destruct (negb (jeqb v []) && forallb is_plain v && negb (starts_with (js ".") v)) eqn:E;
    [|apply hash_plain; lia].
  apply andb_true_iff in E as [E E3]. apply andb_true_iff in E as [E1 E2].
  apply negb_true_iff, jeqb_false in E1. apply negb_true_iff in E3.
  rewrite forallb_forall in E2. split_and!; [done|by intros ->|by intros ->|].
  intros Hs. apply list_elem_of_In in Hs. by apply E2 in Hs.
Qed.

Lemma normal_step_plain b out s : plain_segment s -> normal_step b out s = s :: out.
Proof.
  intros (H1 & H2 & H3 & _). change (js ".") with [46%N] in H2. change (js "..") with [46%N; 46%N] in H3.
  unfold normal_step. repeat (case_match; simplify_eq; try done).
Qed.

Lemma segments_of_app b d x y z : plain_segment x -> plain_segment y -> plain_segment z ->
  segments_of b (d ++ slash :: x ++ slash :: y ++ slash :: z) = segments_of b d ++ [x; y; z].
Proof.
  intros Hx Hy Hz. unfold segments_of. rewrite !split_app, !fold_left_app.
  unfold split at 1 2 3. rewrite !split_go_none by (apply Hx || apply Hy || apply Hz). simpl.
  rewrite !normal_step_plain by done. by rewrite !reverse_cons, <- !app_assoc.
Qed.

Lemma join_with_snoc_last l z : z <> [] -> last (join_with [slash] (l ++ [z])) = last z /\
  join_with [slash] (l ++ [z]) <> [].
Proof.
  intros Hz. induction l as [|x l [IH1 IH2]]; [by destruct z|].
  assert (E : join_with [slash] ((x :: l) ++ [z]) = x ++ slash :: join_with [slash] (l ++ [z]))
    by (by destruct l).
  rewrite E. split; [|by destruct x].
  rewrite last_app. change (slash :: ?r) with ([slash] ++ r). rewrite last_app, IH1.
  destruct z as [|c z] using rev_ind; [done|]. by rewrite last_snoc.
Qed.

Lemma plain_no_trailing s : plain_segment s -> ends_with_slash s = false.
Proof.
  intros (_ & _ & _ & H). unfold ends_with_slash. destruct (last s) as [c|] eqn:E; [|done].
  apply N.eqb_neq. intros ->. apply H. apply last_Some in E as [l ->]. set_solver.
Qed.

Lemma join_path_plain d x y z : d <> [] -> plain_segment x -> plain_segment y -> plain_segment z ->
  join_path [d; x; y; z] =
  (if is_absolute d then [slash] else []) ++ join_with [slash] (segments_of (is_absolute d) d ++ [x; y; z]).
Proof.
  intros Hd Hx Hy Hz. unfold join_path.
  rewrite list_filter_all by (repeat constructor; [done|apply Hx|apply Hy|apply Hz]).
  set (path := join_with [slash] [d; x; y; z]).
  assert (Ep : path = d ++ slash :: x ++ slash :: y ++ slash :: z) by done.
  assert (Ea : is_absolute path = is_absolute d) by (rewrite Ep; by destruct d).
  assert (Es : ends_with_slash path = false).
  { rewrite <- (plain_no_trailing z Hz). unfold ends_with_slash.
    change path with (join_with [slash] ([d; x; y] ++ [z])).
    by rewrite (proj1 (join_with_snoc_last [d; x; y] z (proj1 Hz))). }
  unfold normalize. destruct path as [|c p] eqn:E; [by destruct d|]. rewrite <- E in *.
  rewrite Es, Ea, app_nil_r, Ep, segments_of_app by done.
  destruct (join_with_snoc_last (segments_of (is_absolute d) d ++ [x; y]) z (proj1 Hz)) as [_ Hn].
  rewrite <- app_assoc in Hn. simpl app in Hn.
  by destruct (join_with [slash] (segments_of (is_absolute d) d ++ [x; y; z])).
Qed.
End Contained.

(** An uploader's filename cannot escape: whatever it holds, the name a
    file is stored under is one non-empty path segment of at most 128
    units, with no separator of either kind, no control character, and is
    neither [.] nor [..]. *)
Theorem safeName_safe name :
  let n := safeName name in
  plain_segment n /\ length n <= 128 /\ Forall clean_unit n.
Proof.
  split; [apply safeName_plain|].
  destruct (safeName_cases name) as [->|(Hc & Hl & _)]; [|done].
  split; [vm_compute; lia|]. apply (bool_decide_unpack _). vm_compute. constructor.
Qed.

(** the name can still hide: a space before the dot, or a dot that
    cutting to 128 units uncovers, gives a stored name that starts with a
    dot, which the function's comment rules out. *)
Theorem safeName_can_hide :
  safeName (js " .bashrc") = js ".bashrc" /\
  exists name, length name = 129 /\ starts_with (js ".") (safeName name) = true /\ starts_with (js "a.") name = true.
Proof.
  split; [reflexivity|]. exists (js "a." ++ replicate 127 98%N). split_and!; vm_compute; reflexivity.
Qed.

(** Stored files stay inside the store. Given a hash that prints as 64
    hexadecimal digits, the path a file is stored under is the store's own
    directory, normalised, followed by exactly three ordinary segments —
    the context's, the URL's and the file's — so no context id, URL or
    filename can place a file elsewhere or make the path shorter. *)
Theorem pathFor_contained sha256 dir contextId ref :
  (forall v, length (sha256 v) = 64 /\ Forall (fun c => is_hex c = true) (sha256 v)) -> dir <> [] ->
  exists a b c, plain_segment a /\ plain_segment b /\ plain_segment c /\
    pathFor sha256 dir contextId ref =
    (if is_absolute dir then [slash] else [])
    ++ join_with [slash] (segments_of (is_absolute dir) dir ++ [a; b; c]).
Proof.
  intros Hs Hd. exists (segment sha256 contextId), (digest sha256 (ar_url ref)), (safeName (ar_filename ref)).
  assert (Ha : plain_segment (segment sha256 contextId)) by (by apply (segment_plain sha256 Hs)).
  assert (Hb : plain_segment (digest sha256 (ar_url ref))) by (apply (hash_plain sha256 Hs); lia).
  pose proof (safeName_plain (ar_filename ref)) as Hc.
  split_and!; [done..|]. by apply (join_path_plain sha256).
Qed.

Lemma pathFor_contained_witness : exists a b c,
  plain_segment a /\ plain_segment b /\ plain_segment c /\
  pathFor (fun _ => replicate 64 97%N) (js "/var/files/") (js "../../etc") (mkRef (js "u") (js "../passwd") [] None) =
  js "/var/files/" ++ join_with [slash] [a; b; c].
Proof.
  destruct (pathFor_contained (fun _ => replicate 64 97%N) (js "/var/files/") (js "../../etc")
    (mkRef (js "u") (js "../passwd") [] None)) as (a & b & c & Ha & Hb & Hc & E).
  - intros v. split; [reflexivity|]. apply (bool_decide_unpack _). vm_compute. constructor.
  - vm_compute. discriminate.
  - exists a, b, c. split_and!; try assumption.
Defined.

Lemma pipeline_spec maxBytes chunks failure : forall bytes written,
  bytes = Z.of_nat (length written) -> (bytes <= maxBytes)%Z ->
  match pipeline maxBytes chunks failure bytes written with
  | (inl n, content) => failure = None /\ content = written ++ concat chunks /\
                        n = Z.of_nat (length content) /\ (n <= maxBytes)%Z
  | (inr _, _) => failure <> None \/ (maxBytes < bytes + Z.of_nat (length (concat chunks)))%Z
  end.
Proof.
  induction chunks as [|c chunks IH]; intros bytes written Hb Hm; simpl.
  - destruct failure; [by left|]. by rewrite app_nil_r.
  - destruct (Z.ltb_spec maxBytes (bytes + Z.of_nat (length c))) as [Hlt|Hge].
    + right. rewrite length_app. lia.
    + specialize (IH (bytes + Z.of_nat (length c))%Z (written ++ c)).
      destruct (pipeline maxBytes chunks failure _ (written ++ c)) as [[n|e] content].
      * destruct IH as (H1 & H2 & H3 & H4); [rewrite length_app; lia|done|].
        by rewrite <- app_assoc in H2.
      * destruct IH as [IH|IH]; [rewrite length_app; lia|done|by left|]. right.
        rewrite length_app. lia.
Qed.

(** A stored file is complete or absent. When [store] answers, the file
    is there with as many bytes as it says — either it was there before, or
    it is the whole body of a successful response, within the limit; when
    it fails, nothing is at the path, and in every case no partial file is
    left beside it and no other file changed. *)
Theorem store_all_or_nothing (sha256 : jstr -> jstr) (dir : jstr) (maxBytes : Z)
    (fetch : jstr -> response + jstr) (contextId : jstr) (ref : AttachmentRef) (fs : files) :
  (0 <= maxBytes)%Z ->
  let path := pathFor sha256 dir contextId ref in
  let partial := path ++ js ".part" in
  match store sha256 dir maxBytes fetch contextId ref fs with
  | (inl st, fs') =>
      sa_path st = path /\
      ((exists content, fs !! path = Some content /\ fs' = fs /\ sa_bytes st = Z.of_nat (length content)) \/
       (fs !! path = None /\ exists response chunks,
          fetch (ar_url ref) = inl response /\ rs_ok response = true /\
          rs_body response = Some (chunks, None) /\
          sa_bytes st = Z.of_nat (length (concat chunks)) /\ (sa_bytes st <= maxBytes)%Z /\
          fs' = <[path := concat chunks]> (delete partial fs)))
  | (inr _, fs') => fs' !! path = None /\ (fs' = fs \/ fs' = delete partial fs)
  end.
Proof.
  intros Hm path partial. unfold store. fold path partial.
  destruct (fs !! path) as [content|] eqn:Ef; [split; [done|]; left; by exists content|].
  destruct (match ar_size ref with Some n => _ | None => _ end); [by auto|].
  destruct (fetch (ar_url ref)) as [r|err] eqn:Er; [|by auto].
  destruct (rs_ok r) eqn:Eok; [|by auto].
  destruct (rs_body r) as [[chunks failure]|] eqn:Eb; [|by auto].
  destruct (maxBytes <? _)%Z; [by auto|].
  pose proof (pipeline_spec maxBytes chunks failure 0 [] eq_refl Hm) as Hp.
  destruct (pipeline maxBytes chunks failure 0 []) as [[n|e] content]; rewrite delete_insert_eq.
  - destruct Hp as (-> & -> & -> & Hn). split; [done|]. right. split; [done|].
    exists r, chunks. simpl in *. done.
  - split; [by rewrite lookup_delete_None; right|by right].
Qed.

Lemma store_all_or_nothing_witness :
  let fetch (u : jstr) : response + jstr := inl (mkResponse true 200 (Some 2%Z) (Some ([[1%N; 2%N]; [3%N]], None))) in
  let r := store (fun _ => replicate 64 97%N) (js "/d") 2 fetch (js "c1") (mkRef (js "u") (js "f") [] None) ∅ in
  r.1 = inr (AttachmentTooLarge 2) /\
  r.2 !! pathFor (fun _ => replicate 64 97%N) (js "/d") (js "c1") (mkRef (js "u") (js "f") [] None) = None.
Proof.
  intros fetch r.
  pose proof (store_all_or_nothing (fun _ => replicate 64 97%N) (js "/d") 2 fetch (js "c1")
    (mkRef (js "u") (js "f") [] None) ∅ ltac:(lia)) as H.
  split; [vm_compute; reflexivity|]. revert H. fold r.
  assert (E : r.1 = inr (AttachmentTooLarge 2)) by (vm_compute; reflexivity).
  destruct r as [[st|e] fs']; [discriminate E|]. intros [H _]. exact H.
Defined.
