(* ===== verification/Envelope.v ===== *)
(** [packages/executor/src/envelope.ts]: what a surface knows about a
    message, read out of its metadata and rendered as prose. The metadata
    is checked in two places and trusted in the others, so rendering works
    on dynamic values: [None] is the [TypeError] a value of the wrong shape
    raises. *)

From S2P Require Import Prelude A2A.
#[local] Open Scope nat_scope.

Definition META_ENVELOPE : jstr := js "thicket.envelope".

(** [`${v}`]. *)
Fixpoint to_string (v : jsval) : jstr :=
  match v with
  | VUndef => js "undefined"
  | VNull => js "null"
  | VBool true => js "true"
  | VBool false => js "false"
  | VNum n => show_Z n
  | VStr s => s
  | VArr l => join_with (js ",")
                (map (fun x => match x with VUndef | VNull => [] | _ => to_string x end) l)
  | VObj _ => js "[object Object]"
  end.

Definition truthy (v : jsval) : bool :=
  match v with
  | VUndef | VNull | VBool false | VNum 0 | VStr [] => false
  | _ => true
  end.
Definition nullish (v : jsval) : bool := match v with VUndef | VNull => true | _ => false end.
Definition defined (v : jsval) : bool := match v with VUndef => false | _ => true end.

(** The message's envelope, if a bridge wrote one. *)
Definition envelopeOf (message : Message) : option jsval :=
  let raw := meta message META_ENVELOPE in
  if negb (is_object raw) then None else
  if negb (is_str (prop raw (js "surface")) (js "slack") || is_str (prop raw (js "surface")) (js "discord"))
     || negb (bool_decide (is_Some (as_str (prop (prop raw (js "place")) (js "channel")))))
  then None else Some raw.

Definition SURFACE_NAME (surface : jsval) : jstr :=
  if is_str surface (js "slack") then js "Slack" else js "Discord".

Definition who (p : jsval) : option jstr :=
  match p with
  | VUndef => Some (js "someone")
  | VNull => None
  | _ =>
      let self := truthy (prop p (js "self")) in
      let name := prop p (js "name") in
      let label := if self then js "you"
                   else to_string (if nullish name then prop p (js "id") else name) in
      let kind := if self then []
                  else if is_str (prop p (js "kind")) (js "agent") then js " (an agent)"
                  else if is_str (prop p (js "kind")) (js "role") then js " (a role)" else [] in
      Some (if defined name && negb self
            then label ++ kind ++ js " <" ++ to_string (prop p (js "id")) ++ js ">"
            else label ++ kind)
  end.

Definition quote (text : jsval) : option jstr :=
  match text with
  | VStr s =>
      let flat := trim (collapse_ws s) in
      Some (dq ++ (if length flat <=? 300 then flat else take 299 flat ++ js "…") ++ dq)
  | _ => None
  end.

Definition attachment_item (a : jsval) : option jstr :=
  if nullish a then None else
  Some (to_string (prop a (js "name")) ++ js " (" ++ to_string (prop a (js "mediaType")) ++ js ", "
        ++ to_string (prop a (js "size")) ++ js " bytes"
        ++ (if defined (prop a (js "url")) then js ", at " ++ to_string (prop a (js "url")) else [])
        ++ js ")").

(** [undefined], or something of length zero, says nothing. *)
Definition attachmentsLine (refs : jsval) : option jstr :=
  match refs with
  | VUndef | VArr [] | VStr [] => Some []
  | VArr l => items ← mapM attachment_item l; Some (js " It carried " ++ join_with (js ", ") items ++ js ".")
  | VObj _ => match prop refs (js "length") with VNum 0 => Some [] | _ => None end
  | _ => None
  end.

(** The lines one reference adds. *)
Definition reference_lines (ref : jsval) : option (list jstr) :=
  if nullish ref then None else
  let text := prop ref (js "text") in
  if is_str (prop ref (js "kind")) (js "reply") then
    author ← who (prop ref (js "author"));
    said ← (if defined text then q ← quote text; Some (js ", who said " ++ q) else Some []);
    carried ← attachmentsLine (prop ref (js "attachments"));
    Some [js "It replies to " ++ author ++ said ++ js "." ++ carried]
  else if is_str (prop ref (js "kind")) (js "forward") then
    author ← who (prop ref (js "author"));
    q ← quote text;
    carried ← attachmentsLine (prop ref (js "attachments"));
    Some [js "It forwards a message from " ++ author ++ js ": " ++ q ++ js "." ++ carried]
  else if is_str (prop ref (js "kind")) (js "link") then
    let title := prop ref (js "title") in
    Some [js "It links to " ++ to_string (prop ref (js "url"))
          ++ (if defined title then js " (" ++ to_string title ++ js ")" else []) ++ js "."]
  else Some [].

Definition mention_line (env : jsval) : option (list jstr) :=
  match prop env (js "mentions") with
  | VUndef | VNull => Some []
  | VArr l =>
      if existsb nullish l then None else
      match filter (fun m => truthy (prop m (js "self")) = false) l with
      | [] => Some []
      | others => names ← mapM who others; Some [js "It mentions " ++ join_with (js ", ") names ++ js "."]
      end
  | _ => None
  end.

(** Iterating a string yields strings, which have no kind. *)
Definition references_lines (env : jsval) : option (list jstr) :=
  match prop env (js "references") with
  | VUndef | VNull | VStr _ => Some []
  | VArr l => (fun ls => concat ls) <$> mapM reference_lines l
  | _ => None
  end.

Definition where_line (env : jsval) : jstr :=
  let place := prop env (js "place") in
  let thread := prop place (js "thread") in
  let channel := default [] (as_str (prop place (js "channel"))) in
  js "You are in " ++ SURFACE_NAME (prop env (js "surface")) ++ js " " ++ to_string (prop place (js "kind"))
  ++ js " " ++ channel
  ++ (if defined thread && negb (is_str thread channel) then js ", thread " ++ to_string thread else [])
  ++ (if defined (prop place (js "name")) then js " (" ++ to_string (prop place (js "name")) ++ js ")" else [])
  ++ js ". Your reply reaches it on its own — no tool sends it. The ids are for the thicket tools that must name a place: uploading a file here, or reaching a conversation you are not answering in.".

Definition author_line (env : jsval) : option (list jstr) :=
  let author := prop env (js "author") in
  if defined author then
    name ← who author;
    Some [js "The message is from " ++ name
          ++ (if is_str (prop author (js "kind")) (js "operator") then js ", your operator" else []) ++ js "."]
  else Some [].

Definition envelopePreamble (message : Message) : option jstr :=
  match envelopeOf message with
  | None => Some []
  | Some env =>
      author ← author_line env;
      mentions ← mention_line env;
      references ← references_lines env;
      Some (join_with [10%N] (where_line env :: author ++ mentions ++ references) ++ [10%N; 10%N])
  end.

(** ** Links *)

(** [[^\s<>()|]]. *)
Definition url_unit (c : N) : bool :=
  negb (is_ws c || (c =? 60) || (c =? 62) || (c =? 40) || (c =? 41) || (c =? 124))%N.

(** The match of [/https?:\/\/[^\s<>()|]+/] at the start of [s]. *)
Definition url_at (s : jstr) : option jstr :=
  let with_scheme p :=
    if starts_with p s then
      match take_while url_unit (drop (length p) s) with
      | [] => None
      | run => Some (p ++ run)
      end
    else None in
  match with_scheme (js "https://") with
  | Some u => Some u
  | None => with_scheme (js "http://")
  end.

Definition trailing_punctuation (c : N) : bool :=
  ((c =? 46) || (c =? 44) || (c =? 59) || (c =? 58) || (c =? 33) || (c =? 63))%N.

(** Matches do not overlap: [skip] units of the last one are still to pass. *)
Fixpoint links_go (skip : nat) (s : jstr) (found : list jstr) : list jstr :=
  match s with
  | [] => found
  | _ :: t =>
      match skip with
      | S k => links_go k t found
      | O =>
          match url_at s with
          | Some u =>
              let url := drop_trailing trailing_punctuation u in
              links_go (length u - 1) t (if decide (url ∈ found) then found else found ++ [url])
          | None => links_go 0 t found
          end
      end
  end.
Definition linksIn (text : jstr) : list jstr := links_go 0 text [].

(** ** Properties *)

(** The shapes the bridges write, as the TypeScript types state them. *)
Definition participant_ok (p : jsval) : Prop := exists fields, p = VObj fields.
Definition reference_ok (ref : jsval) : Prop :=
  (exists fields, ref = VObj fields) /\
  prop ref (js "author") <> VNull /\
  (defined (prop ref (js "text")) = true -> is_Some (as_str (prop ref (js "text")))) /\
  (is_str (prop ref (js "kind")) (js "forward") = true -> is_Some (as_str (prop ref (js "text")))) /\
  (defined (prop ref (js "attachments")) = true ->
     exists l, prop ref (js "attachments") = VArr l /\ Forall (fun a => nullish a = false) l).
Definition envelope_ok (env : jsval) : Prop :=
  prop env (js "author") <> VNull /\
  (defined (prop env (js "mentions")) = true ->
     exists l, prop env (js "mentions") = VArr l /\ Forall participant_ok l) /\
  (defined (prop env (js "references")) = true ->
     exists l, prop env (js "references") = VArr l /\ Forall reference_ok l).

Lemma who_total p : p <> VNull -> is_Some (who p).
Proof. destruct p; simpl; try done; by eexists. Qed.

Lemma mapM_total {A B} (f : A -> option B) l : Forall (fun x => is_Some (f x)) l -> is_Some (mapM f l).
Proof. apply mapM_is_Some_2. Qed.

Lemma quote_total t : is_Some (as_str t) -> is_Some (quote t).
Proof. destruct t; simpl; intros []; try done; by eexists. Qed.

Lemma attachmentsLine_total v :
  (defined v = true -> exists l, v = VArr l /\ Forall (fun a => nullish a = false) l) ->
  is_Some (attachmentsLine v).
Proof.
  intros H. destruct v as [| | | | |l|]; simpl in *;
    try (destruct (H eq_refl) as (l' & E & _); discriminate E); [by eexists|].
  destruct (H eq_refl) as (l' & [= <-] & Hl). destruct l as [|a l]; [by eexists|].
  destruct (mapM_total attachment_item (a :: l)) as [items ->]; [|by eexists].
  eapply Forall_impl; [exact Hl|]. intros x Hx. unfold attachment_item. rewrite Hx. by eexists.
Qed.

Lemma reference_total ref : reference_ok ref -> is_Some (reference_lines ref).
Proof.
  intros ((fields & E) & Ha & Ht & Hf & Hl). unfold reference_lines.
  assert (nullish ref = false) as -> by (by rewrite E).
  destruct (who_total _ Ha) as [author ->]. destruct (attachmentsLine_total _ Hl) as [carried ->].
  destruct (is_str (prop ref (js "kind")) (js "reply")).
  - destruct (defined (prop ref (js "text"))); simpl; [|by eexists].
    destruct (quote_total _ (Ht eq_refl)) as [q ->]. by eexists.
  - destruct (is_str (prop ref (js "kind")) (js "forward")).
    + destruct (quote_total _ (Hf eq_refl)) as [q ->]. by eexists.
    + destruct (is_str _ _); by eexists.
Qed.

(** Rendering cannot fail. For every envelope of the shape the bridges
    write — any surface, place, author, mentions and references, with or
    without the optional parts — the preamble renders, and what it renders
    begins by saying where the conversation is and ends with a blank line,
    so the user's words stand apart from it. *)
Theorem envelopePreamble_total message env :
  envelopeOf message = Some env -> envelope_ok env ->
  exists rest, envelopePreamble message = Some (where_line env ++ rest ++ [10%N; 10%N]).
Proof.
  intros He (Ha & Hm & Hr). unfold envelopePreamble. rewrite He.
  assert (is_Some (author_line env)) as [author ->].
  { unfold author_line; cbv zeta. destruct (defined (prop env (js "author"))); [|by eexists].
    destruct (who_total _ Ha) as [name ->]. by eexists. }
  assert (is_Some (mention_line env)) as [mentions ->].
  { unfold mention_line. destruct (prop env (js "mentions")) as [| | | | |l|] eqn:E; simpl in Hm;
      try (destruct (Hm eq_refl) as (l' & E' & _); discriminate E'); [by eexists|].
    destruct (Hm eq_refl) as (l' & [= <-] & Hl).
    replace (existsb nullish l) with false.
    2:{ symmetry. rewrite <- not_true_iff_false, existsb_exists. intros (x & Hx & Hn).
        rewrite Forall_forall in Hl. apply list_elem_of_In in Hx.
        destruct (Hl _ Hx) as [fields ->]. done. }
    assert (Hw : Forall (fun p => is_Some (who p)) (filter (fun m => truthy (prop m (js "self")) = false) l)).
    { rewrite Forall_forall in *. intros x Hx. apply list_elem_of_filter in Hx as [_ Hx].
      destruct (Hl _ Hx) as [fields ->]. by eexists. }
    destruct (filter _ l) as [|p others]; [by eexists|].
    destruct (mapM_total who (p :: others) Hw) as [names ->]. by eexists. }
  assert (is_Some (references_lines env)) as [references ->].
  { unfold references_lines. destruct (prop env (js "references")) as [| | | | |l|] eqn:E; simpl in Hr;
      try (destruct (Hr eq_refl) as (l' & E' & _); discriminate E'); [by eexists|].
    destruct (Hr eq_refl) as (l' & [= <-] & Hl).
    destruct (mapM_total reference_lines l) as [ls ->]; [|by eexists].
    eapply Forall_impl; [exact Hl|]. apply reference_total. }
  generalize (where_line env) as w; intros w. cbn [mbind option_bind].
  destruct (author ++ mentions ++ references) as [|x l]; [by exists []|].
  exists ([10%N] ++ join_with [10%N] (x :: l)). f_equal.
  change (join_with [10%N] (w :: x :: l)) with (w ++ [10%N] ++ join_with [10%N] (x :: l)).
  by rewrite <- !app_assoc.
Qed.

Definition sample_envelope : jsval :=
  VObj [(js "surface", VStr (js "slack"));
        (js "place", VObj [(js "kind", VStr (js "channel")); (js "channel", VStr (js "C1"))]);
        (js "mentions", VArr [VObj [(js "id", VStr (js "U2")); (js "kind", VStr (js "agent"))]])].

Lemma envelopePreamble_total_witness : exists rest,
  envelopePreamble (mkMessage (js "m") (js "c") (js "t") ROLE_USER [] (VObj [(META_ENVELOPE, sample_envelope)]))
  = Some (where_line sample_envelope ++ rest ++ [10%N; 10%N]).
Proof.
  apply (envelopePreamble_total
    (mkMessage (js "m") (js "c") (js "t") ROLE_USER [] (VObj [(META_ENVELOPE, sample_envelope)]))
    sample_envelope); [vm_compute; reflexivity|].
  split; [vm_compute; discriminate|]. split; intros H; [|vm_compute in H; discriminate].
  eexists. split; [vm_compute; reflexivity|]. repeat constructor. by eexists.
Defined.
