(* ===== verification/Executor.v ===== *)
(** [packages/executor/src/executor.ts]: the A2A executor over sessions. An
    execution is a call that suspends at each await; frames of a session
    reach its translator in between. The session provider, its sends and
    interrupts answer through events. *)

From S2P Require Import Prelude Activity Questions A2A Translator Attachments Envelope.
#[local] Open Scope nat_scope.

Definition messageText (message : Message) : jstr :=
  concat ((fun p => match p_content p with CText s => s | _ => [] end) <$> m_parts message).

(** ** Preambles *)

Definition threadPreamble (inbound : Message) : jstr :=
  match as_nonempty_str (meta inbound META_SLACK_CHANNEL), as_nonempty_str (meta inbound META_SLACK_THREAD) with
  | Some channel, Some thread =>
      js "You are in Slack channel " ++ channel ++ js ", thread " ++ thread
      ++ js ". Your reply reaches that thread on its own — no tool sends it. The ids are for the thicket tools that must name a place: uploading a file here, or reaching a conversation you are not answering in."
      ++ [10%N; 10%N]
  | _, _ => []
  end.

Definition phone_kind_note (kind : jsval) : jstr :=
  if is_str kind (js "dtmf") then js " This message is digits the operator keyed, not speech."
  else if is_str kind (js "event") then js " This message is an event from the call, not the operator's words."
  else if is_str kind (js "interrupted") then
    js " The operator spoke over your previous reply; this message is what they said."
  else [].

(** [Date.parse] ([None] is NaN); [now] is the clock's reading. *)
Definition phone_running (date_parse : jstr -> option Z) (started : jsval) (now : jstr) : jstr :=
  match as_str started ≫= date_parse with
  | None => []
  | Some startedMs =>
      match date_parse now with
      | None => js " The session has run NaN minutes."
      | Some nowMs =>
          let elapsed := Z.max 0 (nowMs - startedMs) in
          if (elapsed <? 60000)%Z then js " The session began under a minute ago."
          else js " The session has run " ++ show_Z (rounded elapsed 60000) ++ js " minutes."
      end
  end.

Definition phonePreamble (date_parse : jstr -> option Z) (inbound : Message) (now : jstr) : jstr :=
  match as_nonempty_str (meta inbound META_PHONE_CALL) with
  | None => []
  | Some _ =>
      js "You are on a voice call with the operator, who authenticated with their PIN."
      ++ phone_running date_parse (meta inbound META_PHONE_SESSION_STARTED) now
      ++ js " Your reply will be read aloud by text-to-speech: keep it short and speakable — no markdown, code, tables, or lists — and spell out anything that must be exact."
      ++ phone_kind_note (meta inbound META_PHONE_KIND) ++ [10%N; 10%N]
  end.

Definition sendPreamble (inbound : Message) : jstr :=
  if negb (is_str (meta inbound META_TRIGGER) TRIGGER_SEND) then [] else
  let by_ := match as_nonempty_str (meta inbound META_SENDER) with
             | Some sender => js " by the unix user " ++ sender
             | None => []
             end in
  match meta inbound META_UNATTENDED with
  | VBool true =>
      js "This message was sent with `thicket send`" ++ by_
      ++ js " — a script or a hook, not a person, and it did not wait for a reply. Nobody will read what you say here. If the operator needs to know something, tell them through your thicket Slack tools; otherwise do what the message asks and finish."
      ++ [10%N; 10%N]
  | _ =>
      js "This message was sent with `thicket send`" ++ by_
      ++ js ", which is waiting: your reply is printed to their terminal or captured by their script, as plain text."
      ++ [10%N; 10%N]
  end.

(** ** The executor *)

Record RequestContext := mkRequest {
  rq_taskId : jstr;
  rq_contextId : jstr;
  rq_userMessage : Message }.

Record interrupt_receipt := mkReceipt {
  ir_still_queued : jsval;
  ir_cancelled : jsval }.

(** Where a call of [execute] or [cancelTask] is suspended. *)
Inductive call :=
| CallSession (request : RequestContext) (bus : nat)
| CallPreamble (request : RequestContext) (bus : nat) (uuid prefix : jstr)
| CallContextSend (request : RequestContext) (bus : nat)
| CallSend (request : RequestContext) (uuid : jstr)
| CallDone (request : RequestContext) (uuid : jstr)
| CallInterrupt (taskId contextId : jstr) (bus : nat) (supportsCancelQueued : bool).

(** The three maps, the suspended calls, and what the executor did to the
    world: messages handed to sessions, events put on buses, warnings. *)
Record executor := mkExecutor {
  x_contexts : gmap jstr translator;
  x_busByTask : gmap jstr nat;
  x_contextOfTask : gmap jstr jstr;
  x_calls : gmap nat call;
  x_next : nat;
  x_uuids : nat;
  x_ticks : nat;
  x_files : gmap jstr (list N);
  x_sent : list (jstr * SDKUserMessage);
  x_published : list (nat * AgentExecutionEvent);
  x_warnings : list jstr }.

Definition new_executor : executor := mkExecutor ∅ ∅ ∅ ∅ 0 0 0 ∅ [] [] [].

Definition set_contexts (c : gmap jstr translator) (x : executor) : executor :=
  mkExecutor c (x_busByTask x) (x_contextOfTask x) (x_calls x) (x_next x) (x_uuids x) (x_ticks x)
    (x_files x) (x_sent x) (x_published x) (x_warnings x).
Definition set_routes (b : gmap jstr nat) (c : gmap jstr jstr) (x : executor) : executor :=
  mkExecutor (x_contexts x) b c (x_calls x) (x_next x) (x_uuids x) (x_ticks x)
    (x_files x) (x_sent x) (x_published x) (x_warnings x).
Definition set_calls (c : gmap nat call) (x : executor) : executor :=
  mkExecutor (x_contexts x) (x_busByTask x) (x_contextOfTask x) c (x_next x) (x_uuids x) (x_ticks x)
    (x_files x) (x_sent x) (x_published x) (x_warnings x).
Definition start_call (c : call) (x : executor) : executor :=
  mkExecutor (x_contexts x) (x_busByTask x) (x_contextOfTask x) (<[x_next x := c]> (x_calls x))
    (S (x_next x)) (x_uuids x) (x_ticks x) (x_files x) (x_sent x) (x_published x) (x_warnings x).
Definition end_call (k : nat) (x : executor) : executor := set_calls (delete k (x_calls x)) x.
Definition next_uuid (x : executor) : executor :=
  mkExecutor (x_contexts x) (x_busByTask x) (x_contextOfTask x) (x_calls x) (x_next x)
    (S (x_uuids x)) (x_ticks x) (x_files x) (x_sent x) (x_published x) (x_warnings x).
Definition next_tick (x : executor) : executor :=
  mkExecutor (x_contexts x) (x_busByTask x) (x_contextOfTask x) (x_calls x) (x_next x)
    (x_uuids x) (S (x_ticks x)) (x_files x) (x_sent x) (x_published x) (x_warnings x).
Definition set_files (fs : gmap jstr (list N)) (x : executor) : executor :=
  mkExecutor (x_contexts x) (x_busByTask x) (x_contextOfTask x) (x_calls x) (x_next x)
    (x_uuids x) (x_ticks x) fs (x_sent x) (x_published x) (x_warnings x).
Definition session_send (contextId : jstr) (m : SDKUserMessage) (x : executor) : executor :=
  mkExecutor (x_contexts x) (x_busByTask x) (x_contextOfTask x) (x_calls x) (x_next x)
    (x_uuids x) (x_ticks x) (x_files x) (x_sent x ++ [(contextId, m)]) (x_published x) (x_warnings x).
Definition bus_publish (bus : nat) (e : AgentExecutionEvent) (x : executor) : executor :=
  mkExecutor (x_contexts x) (x_busByTask x) (x_contextOfTask x) (x_calls x) (x_next x)
    (x_uuids x) (x_ticks x) (x_files x) (x_sent x) (x_published x ++ [(bus, e)]) (x_warnings x).
Definition warn_all (ws : list jstr) (x : executor) : executor :=
  mkExecutor (x_contexts x) (x_busByTask x) (x_contextOfTask x) (x_calls x) (x_next x)
    (x_uuids x) (x_ticks x) (x_files x) (x_sent x) (x_published x) (x_warnings x ++ ws).

Section Executor.
(** The libraries and callbacks: URL and date parsing, the clock of each
    context's translator and the executor's own, the accounting sink, the
    uuid source, and the attachment store's surroundings ([None]: this agent
    refuses attachments). *)
Context (url_host : jstr -> option jstr) (date_parse : jstr -> option Z)
  (clock : jstr -> nat -> jstr) (own_clock : nat -> jstr)
  (sink : option (TurnAccounting -> option jstr)) (uuid_source : nat -> jstr)
  (Number : jsval -> option Z) (sha256 : jstr -> jstr)
  (attachments : option (jstr * Z * (jstr -> response + jstr))).

(** An event goes to the bus of its task, if that is still listening. *)
Definition route (x : executor) (event : AgentExecutionEvent) : executor :=
  let taskId := event_task event in
  match x_busByTask x !! taskId with
  | Some bus => bus_publish bus event x
  | None => warn_all [js "no live bus for event on task " ++ taskId ++ js "; dropped"] x
  end.

(** A method of a context's translator, its callbacks wired up: what it
    publishes is routed, what it warns about is passed on. *)
Definition with_translator (contextId : jstr) (f : translator -> translator) (x : executor) : executor :=
  match x_contexts x !! contextId with
  | None => x
  | Some tr =>
      let tr' := f tr in
      let x1 := warn_all (drop (length (t_warnings tr)) (t_warnings tr'))
                  (set_contexts (<[contextId := tr']> (x_contexts x)) x) in
      fold_left route (drop (length (t_out tr)) (t_out tr')) x1
  end.

(** The part of [contextState] after [sessionFor] has answered. *)
Definition contextState (contextId : jstr) (x : executor) : executor :=
  match x_contexts x !! contextId with
  | Some _ => x
  | None => set_contexts (<[contextId := new_translator]> (x_contexts x)) x
  end.

Definition refusal_text (reason : jstr) : jstr :=
  js "I can't take this one: this channel is bound to a workspace I don't have — " ++ reason
  ++ js ". Fix the roster (agents.yaml) and try again.".

(** A task that never ran: it exists, and it says why it stopped. *)
Definition publishRefusal (bus : nat) (taskId contextId : jstr) (inbound : Message) (reason : jstr)
    (x : executor) : executor :=
  let message := mkMessage (taskId ++ js "-refused") contextId taskId ROLE_AGENT
                   [textPart (refusal_text reason)] (VObj []) in
  let now := own_clock (x_ticks x) in
  bus_publish bus (EvStatus taskId contextId (mkStatus TASK_STATE_FAILED (Some message) now) (VObj []))
    (bus_publish bus
       (EvTask (mkTask taskId contextId (mkStatus TASK_STATE_WORKING None now) [inbound] (VObj [])))
       (next_tick x)).

Definition canceledStatus (taskId contextId : jstr) (metadata : jsval) (now : jstr) : AgentExecutionEvent :=
  EvStatus taskId contextId
    (mkStatus TASK_STATE_CANCELED
       (Some (mkMessage (taskId ++ js "-canceled") contextId taskId ROLE_AGENT
                [textPart (js "task canceled")] (VObj []))) now) metadata.

Definition workspace_of (inbound : Message) : option jstr := as_nonempty_str (meta inbound META_WORKSPACE).
Definition contextOnly (inbound : Message) : bool :=
  match meta inbound META_SHOULD_QUERY with VBool false => true | _ => false end.
Definition priority_of (inbound : Message) : option jstr :=
  match as_str (meta inbound META_PRIORITY) with
  | Some p => if jeqb p (js "now") || jeqb p (js "next") || jeqb p (js "later") then Some p else None
  | None => None
  end.

(** The loop over an inbound message's attachments. *)
Definition store_one (contextId dir : jstr) (maxBytes : Z) (fetch : jstr -> response + jstr)
    (acc : list StoredAttachment * list failed_attachment * executor) (ref : AttachmentRef)
  : list StoredAttachment * list failed_attachment * executor :=
  let '(stored, failures, x) := acc in
  let (r, fs) := store sha256 dir maxBytes fetch contextId ref (x_files x) in
  match r with
  | inl s => (stored ++ [s], failures, set_files fs x)
  | inr reason =>
      (stored, failures ++ [mkFailed (ar_filename ref) reason],
       warn_all [js "attachment " ++ ar_filename ref ++ js " could not be retrieved: " ++ reason]
         (set_files fs x))
  end.

Definition attachmentsPreamble (contextId : jstr) (inbound : Message) (x : executor) : jstr * executor :=
  let refs := attachmentRefs Number inbound in
  match refs with
  | [] => ([], x)
  | _ =>
      match attachments with
      | None =>
          (attachmentPreamble []
             ((fun r => mkFailed (ar_filename r) (js "this agent does not accept attachments")) <$> refs), x)
      | Some (dir, maxBytes, fetch) =>
          let '(stored, failures, x1) := fold_left (store_one contextId dir maxBytes fetch) refs ([], [], x) in
          (attachmentPreamble stored failures, x1)
      end
  end.

(** What [preamble] says before the attachments; [None] when rendering the
    envelope throws. *)
Definition preamble_prefix (inbound : Message) (now : jstr) : option jstr :=
  envelope ← envelopePreamble inbound;
  Some ((match envelope with [] => threadPreamble inbound | _ => envelope end)
        ++ phonePreamble date_parse inbound now ++ sendPreamble inbound).

(** ** [execute], cut at its awaits *)

Inductive session_answer := SessionReady | UnknownWorkspace (message : jstr) | SessionError.

Definition execute_session (k : nat) (request : RequestContext) (bus : nat) (answer : session_answer)
    (x0 : executor) : executor :=
  let x := end_call k x0 in
  let inbound := rq_userMessage request in
  match answer with
  | SessionError => x
  | UnknownWorkspace message =>
      publishRefusal bus (rq_taskId request) (rq_contextId request) inbound message
        (warn_all [js "turn refused: " ++ message] x)
  | SessionReady =>
      let x1 := next_uuid (contextState (rq_contextId request) x) in
      let uuid := uuid_source (x_uuids x) in
      let now := own_clock (x_ticks x1) in
      match preamble_prefix inbound now with
      | None => x1
      | Some prefix =>
          start_call (CallPreamble request bus uuid prefix)
            (if bool_decide (is_Some (as_nonempty_str (meta inbound META_PHONE_CALL)
                                      ≫= fun _ => as_str (meta inbound META_PHONE_SESSION_STARTED) ≫= date_parse))
             then next_tick x1 else x1)
      end
  end.

Definition sdk_message (inbound : Message) (uuid prefix attached : jstr) : SDKUserMessage :=
  mkUserMessage (prefix ++ attached ++ messageText inbound) uuid
    (if contextOnly inbound then Some false else None) (priority_of inbound).

Definition execute_message (k : nat) (request : RequestContext) (bus : nat) (uuid prefix : jstr)
    (x0 : executor) : executor :=
  let contextId := rq_contextId request in
  let inbound := rq_userMessage request in
  let (attached, x) := attachmentsPreamble contextId inbound (end_call k x0) in
  let message := sdk_message inbound uuid prefix attached in
  if contextOnly inbound then start_call (CallContextSend request bus) (session_send contextId message x) else
  let x1 := set_routes (<[rq_taskId request := bus]> (x_busByTask x))
              (<[rq_taskId request := contextId]> (x_contextOfTask x)) x in
  let send := mkSend uuid (m_messageId inbound) (rq_taskId request) contextId (Some inbound) in
  match x_contexts x1 !! contextId ≫= registerSend send with
  | None => x1
  | Some tr =>
      start_call (CallSend request uuid)
        (session_send contextId message (set_contexts (<[contextId := tr]> (x_contexts x1)) x1))
  end.

Definition context_only_task (request : RequestContext) (now : jstr) : AgentExecutionEvent :=
  EvTask (mkTask (rq_taskId request) (rq_contextId request) (mkStatus TASK_STATE_COMPLETED None now)
            [rq_userMessage request] (VObj [(META_CONTEXT_ONLY, VBool true)])).

(** ** [cancelTask], cut at its await *)

Definition capability : jstr := js "interrupt_cancel_queued_v1".

Definition cancel_start (taskId : jstr) (bus : nat) (x : executor) : executor :=
  match x_contextOfTask x !! taskId ≫= fun c => (fun tr => (c, tr)) <$> x_contexts x !! c with
  | None =>
      let now := own_clock (x_ticks x) in
      bus_publish bus (canceledStatus taskId [] (VObj [(META_QUEUE_STATE, VStr (js "unknown"))]) now)
        (next_tick (warn_all [js "cancelTask: unknown task " ++ taskId] x))
  | Some (contextId, tr) =>
      let supports := match capabilities tr with
                      | Some caps => bool_decide (capability ∈ caps)
                      | None => false
                      end in
      start_call (CallInterrupt taskId contextId bus supports)
        (with_translator contextId (markCancelRequested taskId) x)
  end.

Definition cancel_metadata (receipt : option interrupt_receipt) (supports : bool) : jsval :=
  match receipt with
  | None => VObj [(META_QUEUE_STATE, VStr (js "unknown"))]
  | Some r =>
      VObj [(META_QUEUE_STATE, VStr (if supports then js "queued-cancelled" else js "queued-survives"));
            (META_STILL_QUEUED, ir_still_queued r);
            (META_CANCELLED, if nullish (ir_cancelled r) then VArr [] else ir_cancelled r)]
  end.

Definition cancel_finish (taskId contextId : jstr) (bus : nat) (supports : bool)
    (receipt : option interrupt_receipt) (x : executor) : executor :=
  let now := own_clock (x_ticks x) in
  with_translator contextId (markTerminalEmitted taskId)
    (bus_publish bus (canceledStatus taskId contextId (cancel_metadata receipt supports) now) (next_tick x)).

(** ** Events *)
Inductive xevent :=
| XExecute (request : RequestContext) (bus : nat)
| XSession (k : nat) (answer : session_answer)
| XAttachments (k : nat)
| XSendSettled (k : nat) (ok : bool)
| XTurnDone (k : nat)
| XCancel (taskId : jstr) (bus : nat)
| XInterrupted (k : nat) (receipt : option interrupt_receipt)
| XFrame (contextId : jstr) (frame : SDKMessage)
| XStreamEnd (contextId : jstr) (error : option jstr).

Definition end_reason (error : option jstr) : jstr :=
  match error with
  | None => js "session stream ended without a result"
  | Some e => js "session stream failed: " ++ e
  end.

Definition xstep (e : xevent) (x : executor) : option executor :=
  match e with
  | XExecute request bus => Some (start_call (CallSession request bus) x)
  | XSession k answer =>
      match x_calls x !! k with
      | Some (CallSession request bus) => Some (execute_session k request bus answer x)
      | _ => None
      end
  | XAttachments k =>
      match x_calls x !! k with
      | Some (CallPreamble request bus uuid prefix) => Some (execute_message k request bus uuid prefix x)
      | _ => None
      end
  | XSendSettled k ok =>
      match x_calls x !! k with
      | Some (CallContextSend request bus) =>
          let x1 := end_call k x in
          Some (if ok then bus_publish bus (context_only_task request (own_clock (x_ticks x1))) (next_tick x1)
                else x1)
      | Some (CallSend request uuid) =>
          Some (if ok then start_call (CallDone request uuid) (end_call k x) else end_call k x)
      | _ => None
      end
  | XTurnDone k =>
      match x_calls x !! k with
      | Some (CallDone request uuid) =>
          tr ← x_contexts x !! rq_contextId request;
          if decide (uuid ∈ t_resolved tr) then
            Some (set_routes (delete (rq_taskId request) (x_busByTask x)) (x_contextOfTask x) (end_call k x))
          else None
      | _ => None
      end
  | XCancel taskId bus => Some (cancel_start taskId bus x)
  | XInterrupted k receipt =>
      match x_calls x !! k with
      | Some (CallInterrupt taskId contextId bus supports) =>
          Some (cancel_finish taskId contextId bus supports receipt (end_call k x))
      | _ => None
      end
  | XFrame contextId frame =>
      tr ← x_contexts x !! contextId;
      if t_ended tr then None
      else Some (with_translator contextId (handleFrame url_host (clock contextId) sink frame) x)
  | XStreamEnd contextId error =>
      tr ← x_contexts x !! contextId;
      if t_ended tr then None
      else Some (with_translator contextId (endStream (clock contextId) sink (end_reason error)) x)
  end.

Fixpoint xplay (es : list xevent) (x : executor) : option executor :=
  match es with
  | [] => Some x
  | e :: rest => x1 ← xstep e x; xplay rest x1
  end.
End Executor.
