(* ===== verification/ExecutorRuns.v ===== *)
(** Facts about [Executor]: events reach only the bus of their own task,
    every execution's send is settled by its context's translator, and a
    call's identifiers stay out of the prompt. *)

From S2P Require Import Prelude Activity Questions A2A Translator TranslatorSends Attachments Envelope Executor.
#[local] Open Scope nat_scope.

Section Runs.
Context (url_host : jstr -> option jstr) (date_parse : jstr -> option Z)
  (clock : jstr -> nat -> jstr) (own_clock : nat -> jstr)
  (sink : option (TurnAccounting -> option jstr)) (uuid_source : nat -> jstr)
  (Number : jsval -> option Z) (sha256 : jstr -> jstr)
  (attachments : option (jstr * Z * (jstr -> response + jstr))).

Abbreviation step := (xstep url_host date_parse clock own_clock sink uuid_source Number sha256 attachments).
Abbreviation play := (xplay url_host date_parse clock own_clock sink uuid_source Number sha256 attachments).

(** ** What the pieces leave alone *)

(** Everything but published events, warnings, files and clock ticks. *)
Record same_calls (x x' : executor) : Prop := mk_same_calls {
  sc_bus : x_busByTask x' = x_busByTask x;
  sc_context : x_contextOfTask x' = x_contextOfTask x;
  sc_calls : x_calls x' = x_calls x;
  sc_next : x_next x' = x_next x;
  sc_uuids : x_uuids x' = x_uuids x }.

#[export] Instance same_calls_preorder : PreOrder same_calls.
Proof. split; [by intros x|]. intros a b c [] []. split; congruence. Qed.

Lemma route_same x e : same_calls x (route x e) /\ x_contexts (route x e) = x_contexts x.
Proof. unfold route. by destruct (x_busByTask x !! event_task e). Qed.

Lemma routes_same es : forall x, same_calls x (fold_left route es x) /\
  x_contexts (fold_left route es x) = x_contexts x.
Proof.
  induction es as [|e es IH]; intros x; simpl; [done|].
  destruct (IH (route x e)) as [S1 C1]. destruct (route_same x e) as [S2 C2].
  split; [by etrans|congruence].
Qed.

Lemma with_translator_same c f x : same_calls x (with_translator c f x) /\
  x_contexts (with_translator c f x) =
    match x_contexts x !! c with Some tr => <[c := f tr]> (x_contexts x) | None => x_contexts x end.
Proof.
  unfold with_translator. destruct (x_contexts x !! c) as [tr|]; [|done]. cbv zeta.
  match goal with |- same_calls x (fold_left route ?l ?y) /\ _ =>
    destruct (routes_same l y) as [S C] end.
  rewrite C. split; [|done]. etrans; [|exact S]. done.
Qed.

Lemma store_one_same c dir mb fetch acc ref :
  same_calls acc.2 (store_one sha256 c dir mb fetch acc ref).2 /\
  x_contexts (store_one sha256 c dir mb fetch acc ref).2 = x_contexts acc.2 /\
  x_published (store_one sha256 c dir mb fetch acc ref).2 = x_published acc.2.
Proof.
  destruct acc as [[st fl] x]. unfold store_one.
  by destruct (store sha256 dir mb fetch c ref (x_files x)) as [[s|e] fs].
Qed.

Lemma attachments_same c m x :
  same_calls x (attachmentsPreamble Number sha256 attachments c m x).2 /\
  x_contexts (attachmentsPreamble Number sha256 attachments c m x).2 = x_contexts x /\
  x_published (attachmentsPreamble Number sha256 attachments c m x).2 = x_published x.
Proof.
  unfold attachmentsPreamble. destruct (attachmentRefs Number m) as [|r rs]; [done|].
  destruct attachments as [[[dir mb] fetch]|]; [|done].
  assert (H : forall l acc,
    same_calls acc.2 (fold_left (store_one sha256 c dir mb fetch) l acc).2 /\
    x_contexts (fold_left (store_one sha256 c dir mb fetch) l acc).2 = x_contexts acc.2 /\
    x_published (fold_left (store_one sha256 c dir mb fetch) l acc).2 = x_published acc.2).
  { induction l as [|y l IH]; intros acc; simpl; [done|].
    destruct (IH (store_one sha256 c dir mb fetch acc y)) as (S & C & P).
    destruct (store_one_same c dir mb fetch acc y) as (S' & C' & P').
    split_and!; [by etrans|congruence|congruence]. }
  destruct (H (r :: rs) ([], [], x)) as (S & C & P).
  by destruct (fold_left _ (r :: rs) ([], [], x)) as [[st fl] x1].
Qed.

(** ** Routing *)

(** Who handed the executor a bus for a task. *)
Definition asked (es : list xevent) (bus : nat) (taskId : jstr) : Prop :=
  (exists request, XExecute request bus ∈ es /\ rq_taskId request = taskId) \/ XCancel taskId bus ∈ es.

Lemma asked_mono es es' bus t : asked es bus t -> asked (es ++ es') bus t.
Proof. intros [(r & H & E)|H]; [left; exists r|right]; set_solver. Qed.

Definition call_asked (es : list xevent) (c : call) : Prop :=
  match c with
  | CallSession r bus | CallPreamble r bus _ _ | CallContextSend r bus => asked es bus (rq_taskId r)
  | CallInterrupt t _ bus _ => asked es bus t
  | CallSend _ _ | CallDone _ _ => True
  end.

Record routed (es : list xevent) (x : executor) : Prop := mk_routed {
  ro_bus : forall t bus, x_busByTask x !! t = Some bus -> asked es bus t;
  ro_calls : forall k c, x_calls x !! k = Some c -> call_asked es c;
  ro_out : forall bus e, (bus, e) ∈ x_published x -> asked es bus (event_task e) }.

Lemma routed_route es x e : routed es x -> routed es (route x e).
Proof.
  intros [H1 H2 H3]. unfold route. destruct (x_busByTask x !! event_task e) as [bus|] eqn:E; [|by split].
  split; simpl; auto. intros b e'. rewrite elem_of_app, list_elem_of_singleton.
  intros [Hb|[= -> ->]]; auto.
Qed.

Lemma routed_at es x x' : x_busByTask x' = x_busByTask x -> x_calls x' = x_calls x ->
  x_published x' = x_published x -> routed es x -> routed es x'.
Proof. intros E1 E3 Ep [H1 H2 H3]. split; rewrite ?E1, ?E3, ?Ep; auto. Qed.
Lemma routed_same es x x' : same_calls x x' -> x_published x' = x_published x -> routed es x -> routed es x'.
Proof. intros []. by apply routed_at. Qed.

Lemma routed_with es c f x : routed es x -> routed es (with_translator c f x).
Proof.
  intros H. unfold with_translator. destruct (x_contexts x !! c) as [tr|]; [|done]. cbv zeta.
  assert (Hl : forall l y, routed es y -> routed es (fold_left route l y)).
  { induction l as [|e l IH]; intros y Hy; simpl; [done|]. by apply IH, routed_route. }
  apply Hl. by apply (routed_same es x).
Qed.

Lemma routed_publish es bus e x : asked es bus (event_task e) -> routed es x -> routed es (bus_publish bus e x).
Proof.
  intros Ha [H1 H2 H3]. split; simpl; auto. intros b e'.
  rewrite elem_of_app, list_elem_of_singleton. intros [Hb|[= -> ->]]; auto.
Qed.

Lemma routed_start es c x : call_asked es c -> routed es x -> routed es (start_call c x).
Proof.
  intros Hc [H1 H2 H3]. split; simpl; auto. intros k c'.
  rewrite lookup_insert_Some. intros [[<- <-]|[_ H]]; eauto.
Qed.

Lemma routed_end es k x : routed es x -> routed es (end_call k x).
Proof.
  intros [H1 H2 H3]. split; simpl; auto. intros k' c'. rewrite lookup_delete_Some. intros [_ H]; eauto.
Qed.

Lemma routed_mono es es' x : routed es x -> routed (es ++ es') x.
Proof.
  intros [H1 H2 H3]. split; eauto using asked_mono.
  intros k c Hk. specialize (H2 k c Hk). destruct c; simpl in *; auto using asked_mono.
Qed.

Lemma routed_step es e x x' : routed es x -> step e x = Some x' -> routed (es ++ [e]) x'.
Proof.
  intros H0 Hs. pose proof (routed_mono es [e] x H0) as H. clear H0.
  destruct e as [r bus|k answer|k|k ok|k|t bus|k receipt|c f|c er]; simpl in Hs.
  - injection Hs as <-. apply routed_start; [|done]. left. exists r. set_solver.
  - destruct (x_calls x !! k) as [[r bus| | | | |]|] eqn:Ek; try done. injection Hs as <-.
    pose proof (ro_calls _ _ H _ _ Ek) as Ha. simpl in Ha. pose proof (routed_end _ k _ H) as He.
    unfold execute_session. destruct answer as [|msg|]; [| |done].
    + destruct (preamble_prefix _ _ _) as [prefix|].
      * apply routed_start; [done|].
        assert (routed (es ++ [XSession k SessionReady])
          (next_uuid (contextState (rq_contextId r) (end_call k x)))).
        { unfold contextState. destruct (x_contexts (end_call k x) !! rq_contextId r);
            by apply (routed_at _ (end_call k x)). }
        set (y := next_uuid _) in *. destruct (bool_decide _); [by apply (routed_at _ y)|done].
      * unfold contextState. destruct (x_contexts (end_call k x) !! rq_contextId r);
          by apply (routed_at _ (end_call k x)).
    + unfold publishRefusal. repeat (apply routed_publish; [done|]).
      by apply (routed_same _ (end_call k x)).
  - destruct (x_calls x !! k) as [[|r bus u p| | | |]|] eqn:Ek; try done. injection Hs as <-.
    pose proof (ro_calls _ _ H _ _ Ek) as Ha. simpl in Ha. pose proof (routed_end _ k _ H) as He.
    unfold execute_message.
    destruct (attachments_same (rq_contextId r) (rq_userMessage r) (end_call k x)) as (S & C & P).
    destruct (attachmentsPreamble _ _ _ _ _ _) as [attached x1]; simpl in S, C, P.
    pose proof (routed_same _ _ _ S P He) as H1.
    destruct (contextOnly _); [apply routed_start; [done|]; by apply (routed_same _ x1)|].
    assert (H2 : routed (es ++ [XAttachments k]) (set_routes (<[rq_taskId r := bus]> (x_busByTask x1))
      (<[rq_taskId r := rq_contextId r]> (x_contextOfTask x1)) x1)).
    { destruct H1 as [H1 H2 H3]. split; simpl; auto. intros t b.
      rewrite lookup_insert_Some. intros [[<- <-]|[_ Hb]]; auto. }
    destruct (_ ≫= registerSend _) as [tr|]; [|done].
    apply routed_start; [done|]. by eapply routed_at; [..|exact H2].
  - destruct (x_calls x !! k) as [[| |r bus|r u| |]|] eqn:Ek; try done; injection Hs as <-.
    + pose proof (ro_calls _ _ H _ _ Ek) as Ha. simpl in Ha. pose proof (routed_end _ k _ H) as He.
      destruct ok; [|done]. apply routed_publish; [done|]. by apply (routed_same _ (end_call k x)).
    + destruct ok; [apply routed_start; [done|]|]; by apply routed_end.
  - destruct (x_calls x !! k) as [[| | | |r u|]|] eqn:Ek; try done.
    destruct (x_contexts x !! rq_contextId r) as [tr|]; [|done]. simpl in Hs.
    destruct (decide _); [|done]. injection Hs as <-.
    pose proof (routed_end _ k _ H) as [H1 H2 H3]. split; simpl; auto.
    intros t b. rewrite lookup_delete_Some. intros [_ Hb]; auto.
  - injection Hs as <-. assert (Ha : asked (es ++ [XCancel t bus]) bus t) by (right; set_solver).
    unfold cancel_start. destruct (_ ≫= _) as [[c tr]|].
    + apply routed_start; [done|]. by apply routed_with.
    + apply routed_publish; [done|]. by apply (routed_same _ x).
  - destruct (x_calls x !! k) as [[| | | | |t c bus sup]|] eqn:Ek; try done. injection Hs as <-.
    pose proof (ro_calls _ _ H _ _ Ek) as Ha. simpl in Ha. pose proof (routed_end _ k _ H) as He.
    unfold cancel_finish. apply routed_with, routed_publish; [done|]. by apply (routed_same _ (end_call k x)).
  - destruct (x_contexts x !! c) as [tr|]; [|done]. simpl in Hs. destruct (t_ended tr); [done|].
    injection Hs as <-. by apply routed_with.
  - destruct (x_contexts x !! c) as [tr|]; [|done]. simpl in Hs. destruct (t_ended tr); [done|].
    injection Hs as <-. by apply routed_with.
Qed.

Lemma play_ind (P : list xevent -> executor -> Prop) :
  P [] new_executor ->
  (forall es e x x', P es x -> step e x = Some x' -> P (es ++ [e]) x') ->
  forall es x, play es new_executor = Some x -> P es x.
Proof.
  intros H0 Hs.
  assert (H : forall es es0 x0 x, P es0 x0 -> play es x0 = Some x -> P (es0 ++ es) x).
  { induction es as [|e es IH]; intros es0 x0 x Hp; simpl.
    - intros [= <-]. by rewrite app_nil_r.
    - destruct (step e x0) as [x1|] eqn:E; [|done]. simpl. intros Hx.
      change (e :: es) with ([e] ++ es). rewrite app_assoc. eapply IH; [|exact Hx]. by eapply Hs. }
  intros es x Hx. by apply (H es [] new_executor x).
Qed.

Lemma play_routed es x : play es new_executor = Some x -> routed es x.
Proof.
  apply (play_ind routed); [|intros; by eapply routed_step].
  split; simpl; intros; try by rewrite lookup_empty in *. set_solver.
Qed.

(** ** Settling *)
Context (uuid_inj : forall i j, uuid_source i = uuid_source j -> i = j).

(** A translator whose stream ended, perhaps marked since. *)
Inductive ended (c : jstr) (regs : list PendingSend) : translator -> Prop :=
| ended_stream s reason : run url_host (clock c) sink regs s ->
    ended c regs (endStream (clock c) sink reason s)
| ended_cancel s t : ended c regs s -> ended c regs (markCancelRequested t s)
| ended_terminal s t : ended c regs s -> ended c regs (markTerminalEmitted t s).

Lemma ended_facts c regs s : ended c regs s -> t_ended s = true /\ t_resolved s ≡ₚ uuids regs.
Proof.
  induction 1 as [s reason H|s t _ [IH1 IH2]|s t _ [IH1 IH2]].
  - destruct (run_settled _ _ _ _ _ H) as [W _ _ P _].
    destruct (endStream_settles url_host (clock c) sink reason s W) as (_ & E & R & _).
    split; [done|]. by rewrite R, P.
  - destruct (markCancelRequested_same t s) as [[] _]. by rewrite ss_ended, ss_resolved.
  - destruct (markTerminalEmitted_same t s) as [[] _]. by rewrite ss_ended, ss_resolved.
Qed.

Definition lives (c : jstr) (regs : list PendingSend) (tr : translator) : Prop :=
  run url_host (clock c) sink regs tr \/ ended c regs tr.

Lemma lives_cancel c regs t tr : lives c regs tr -> lives c regs (markCancelRequested t tr).
Proof. intros [H|H]; [left; by apply run_cancel|right; by apply ended_cancel]. Qed.
Lemma lives_terminal c regs t tr : lives c regs tr -> lives c regs (markTerminalEmitted t tr).
Proof. intros [H|H]; [left; by apply run_terminal|right; by apply ended_terminal]. Qed.
Lemma lives_running c regs tr : lives c regs tr -> t_ended tr = false -> run url_host (clock c) sink regs tr.
Proof. intros [H|H] E; [done|]. apply ended_facts in H as [? _]. congruence. Qed.

(** [R] remembers which sends each context's translator was given. *)
Record tracked (R : jstr -> list PendingSend) (x : executor) : Prop := mk_tracked {
  tr_lives : forall c tr, x_contexts x !! c = Some tr -> lives c (R c) tr;
  tr_none : forall c, x_contexts x !! c = None -> R c = [];
  tr_drawn : forall c u, u ∈ uuids (R c) -> exists i, i < x_uuids x /\ u = uuid_source i;
  tr_held : forall k r b u p, x_calls x !! k = Some (CallPreamble r b u p) ->
    (exists i, i < x_uuids x /\ u = uuid_source i) /\ (forall c, u ∉ uuids (R c)) /\
    is_Some (x_contexts x !! rq_contextId r) /\
    (forall k' r' b' p', x_calls x !! k' = Some (CallPreamble r' b' u p') -> k' = k);
  tr_sends : forall k r u, x_calls x !! k = Some (CallSend r u) \/ x_calls x !! k = Some (CallDone r u) ->
    u ∈ uuids (R (rq_contextId r)) /\ is_Some (x_contexts x !! rq_contextId r);
  tr_fresh : forall k, x_next x <= k -> x_calls x !! k = None }.

(** A step that starts no call, registers no send and keeps every context. *)
Lemma tracked_mono R x x' :
  (forall c tr', x_contexts x' !! c = Some tr' -> exists tr, x_contexts x !! c = Some tr /\
     (lives c (R c) tr -> lives c (R c) tr')) ->
  (forall c, x_contexts x' !! c = None -> x_contexts x !! c = None) ->
  x_uuids x' = x_uuids x -> x_next x' = x_next x ->
  (forall k c, x_calls x' !! k = Some c -> x_calls x !! k = Some c) ->
  tracked R x -> tracked R x'.
Proof.
  intros Hc Hn Eu En Hk [H1 H2 H3 H4 H5 H6].
  assert (Hs : forall c, is_Some (x_contexts x !! c) -> is_Some (x_contexts x' !! c)).
  { intros c [tr Htr]. destruct (x_contexts x' !! c) eqn:E; [done|]. apply Hn in E. congruence. }
  split; rewrite ?Eu, ?En; auto.
  - intros c tr' Htr. destruct (Hc c tr' Htr) as (tr & Ht & Hl). auto.
  - intros k r b u p Hp. destruct (H4 _ _ _ _ _ (Hk _ _ Hp)) as (? & ? & ? & Hd). split_and!; auto.
    intros k' r' b' p' Hp'. eapply Hd, Hk, Hp'.
  - intros k r u Hp. destruct (H5 k r u) as [? ?]; [destruct Hp; auto|]. auto.
  - intros k Hk'. destruct (x_calls x' !! k) eqn:E; [|done]. apply Hk in E. rewrite H6 in E; done.
Qed.

Lemma tracked_with R c f x : (forall tr, lives c (R c) tr -> lives c (R c) (f tr)) ->
  tracked R x -> tracked R (with_translator c f x).
Proof.
  intros Hf. destruct (with_translator_same c f x) as [[] C].
  apply tracked_mono; [| |congruence|congruence|congruence].
  - intros c' tr'. rewrite C. destruct (x_contexts x !! c) as [tr|] eqn:E; [|eauto].
    rewrite lookup_insert_Some. intros [[<- <-]|[_ H]]; eauto.
  - intros c'. rewrite C. destruct (x_contexts x !! c) as [tr|] eqn:E; [|done].
    rewrite lookup_insert_None. tauto.
Qed.

Lemma tracked_end R k x : tracked R x -> tracked R (end_call k x).
Proof.
  apply tracked_mono; simpl; eauto. intros k' c. rewrite lookup_delete_Some. tauto.
Qed.

Lemma tracked_same R x x' : same_calls x x' -> x_contexts x' = x_contexts x -> tracked R x -> tracked R x'.
Proof.
  intros [] E. apply tracked_mono; rewrite ?E; try congruence; eauto.
Qed.

(** A call that holds no uuid of its own. *)
Lemma tracked_start R c x :
  match c with
  | CallPreamble _ _ _ _ => False
  | CallSend r u | CallDone r u => u ∈ uuids (R (rq_contextId r)) /\ is_Some (x_contexts x !! rq_contextId r)
  | _ => True
  end -> tracked R x -> tracked R (start_call c x).
Proof.
  intros Hc [H1 H2 H3 H4 H5 H6]. split; simpl; auto.
  - intros k r b u p. rewrite lookup_insert_Some. intros [[<- ->]|[Hk Hp]]; [done|].
    destruct (H4 _ _ _ _ _ Hp) as (? & ? & ? & Hd). split_and!; auto.
    intros k' r' b' p'. rewrite lookup_insert_Some. intros [[<- ->]|[_ Hp']]; [done|eauto].
  - intros k r u. rewrite !lookup_insert_Some. intros [[[<- ->]|[_ Hp]]|[[<- ->]|[_ Hp]]]; eauto.
  - intros k Hk. rewrite lookup_insert_ne by lia. apply H6. lia.
Qed.

Lemma tracked_context R c x : tracked R x -> tracked R (contextState c x) /\
  is_Some (x_contexts (contextState c x) !! c).
Proof.
  intros H. unfold contextState. destruct (x_contexts x !! c) as [tr|] eqn:E.
  { split; [done|]. by rewrite E. }
  destruct H as [H1 H2 H3 H4 H5 H6]. split; [split; simpl; auto|].
  - intros c' tr'. rewrite lookup_insert_Some. intros [[<- <-]|[_ H]]; [|auto].
    rewrite (H2 c E). left. constructor.
  - intros c'. rewrite lookup_insert_None. intros [? _]. auto.
  - intros k r b u p Hp. destruct (H4 _ _ _ _ _ Hp) as (? & ? & [tr' Hi] & ?). split_and!; auto.
    destruct (decide (rq_contextId r = c)) as [<-|Hne]; [by rewrite lookup_insert_eq|].
    rewrite lookup_insert_ne by done. by exists tr'.
  - intros k r u Hp. destruct (H5 k r u Hp) as [? [tr' Hi]]. split; [done|].
    destruct (decide (rq_contextId r = c)) as [<-|Hne]; [by rewrite lookup_insert_eq|].
    rewrite lookup_insert_ne by done. by exists tr'.
  - simpl. by rewrite lookup_insert_eq.
Qed.

(** Drawing a uuid and holding it in a suspended call. *)
Lemma tracked_draw R r b p x x' : tracked R x -> is_Some (x_contexts x !! rq_contextId r) ->
  x_contexts x' = x_contexts x -> x_calls x' = x_calls x -> x_next x' = x_next x ->
  x_uuids x' = S (x_uuids x) ->
  tracked R x' /\ tracked R (start_call (CallPreamble r b (uuid_source (x_uuids x)) p) x').
Proof.
  intros [H1 H2 H3 H4 H5 H6] Hc E1 E2 E3 E4.
  assert (Hnew : forall c u, u ∈ uuids (R c) -> u <> uuid_source (x_uuids x)).
  { intros c u Hu ->. destruct (H3 c _ Hu) as (i & Hi & E). apply uuid_inj in E. lia. }
  assert (T : tracked R x').
  { split; rewrite ?E1, ?E2, ?E3, ?E4; auto.
    - intros c u Hu. destruct (H3 c u Hu) as (i & ? & ?). exists i. split; [lia|done].
    - intros k r' b' u p' Hp. destruct (H4 _ _ _ _ _ Hp) as ((i & ? & ?) & ? & ? & ?).
      split_and!; auto. exists i. split; [lia|done]. }
  split; [done|]. destruct T as [T1 T2 T3 T4 T5 T6]. split; simpl; auto.
  - intros k r' b' u p'. rewrite lookup_insert_Some. intros [[<- [= <- <- <- <-]]|[Hk Hp]].
    + split_and!; [exists (x_uuids x); split; [lia|done]| |by rewrite E1|].
      * intros c Hu. by apply (Hnew c _ Hu).
      * intros k' r'' b'' p''. rewrite lookup_insert_Some. intros [[<- _]|[_ Hp']]; [done|].
        rewrite E2 in Hp'. destruct (H4 _ _ _ _ _ Hp') as ((i & Hi & E) & _).
        apply uuid_inj in E. lia.
    + destruct (T4 _ _ _ _ _ Hp) as (? & ? & ? & Hd). split_and!; auto.
      intros k' r'' b'' p''. rewrite lookup_insert_Some. intros [[<- [= <- <- <- <-]]|[_ Hp']]; [|eauto].
      rewrite E2 in Hp. destruct (H4 _ _ _ _ _ Hp) as ((i & Hi & E) & _). apply uuid_inj in E. lia.
  - intros k r' u. rewrite !lookup_insert_Some. intros [[[_ [=]]|[_ Hp]]|[[_ [=]]|[_ Hp]]]; eauto.
  - intros k Hk. rewrite lookup_insert_ne by lia. apply T6. lia.
Qed.

(** Registering the send a suspended call held a uuid for. *)
Lemma tracked_register R k r b u p x x1 c tr tr' : tracked R x ->
  x_calls x !! k = Some (CallPreamble r b u p) -> c = rq_contextId r ->
  x_contexts x1 = x_contexts x -> x_calls x1 = delete k (x_calls x) -> x_next x1 = x_next x ->
  x_uuids x1 = x_uuids x -> x_contexts x !! c = Some tr ->
  forall send, s_uuid send = u -> registerSend send tr = Some tr' ->
  exists R', forall msg, tracked R'
     (start_call (CallSend r u) (session_send c msg (set_contexts (<[c := tr']> (x_contexts x1)) x1))).
Proof.
  intros [H1 H2 H3 H4 H5 H6] Hk -> E1 E2 E3 E4 Ht send Hu Hr.
  destruct (H4 _ _ _ _ _ Hk) as (Hd & Hf & _ & Hone). set (c := rq_contextId r) in *.
  set (R' := fun c' => if decide (c' = c) then R c ++ [send] else R c').
  assert (Hrun : run url_host (clock c) sink (R c) tr).
  { apply lives_running; [auto|]. unfold registerSend in Hr. by destruct (t_ended tr). }
  assert (Hin : forall c' v, v ∈ uuids (R c') -> v ∈ uuids (R' c')).
  { intros c' v Hv. unfold R'. case_decide as E; [subst c'; set_solver|done]. }
  assert (Hsplit : forall c' v, v ∈ uuids (R' c') -> v ∈ uuids (R c') \/ v = u).
  { intros c' v. unfold R'. case_decide as E; [subst c'|auto]. rewrite fmap_app, elem_of_app.
    intros [?|Hv]; [auto|]. apply list_elem_of_singleton in Hv. right. congruence. }
  exists R'. intros msg. split; simpl; rewrite ?E1, ?E2, ?E3, ?E4.
  - intros c' t. rewrite lookup_insert_Some. intros [[<- <-]|[Hne Hc]].
    + left. unfold R'. rewrite decide_True by done. eapply run_register; [exact Hrun| |exact Hr].
      rewrite Hu. apply Hf.
    + unfold R'. rewrite decide_False by done. auto.
  - intros c'. rewrite lookup_insert_None. intros [Hn Hne]. unfold R'. rewrite decide_False by done. auto.
  - intros c' v Hv. apply Hsplit in Hv as [Hv | ->]; eauto.
  - intros k' r' b' u' p'. rewrite lookup_insert_Some, lookup_delete_Some.
    intros [[_ [=]]|[_ [Hne Hp]]]. destruct (H4 _ _ _ _ _ Hp) as (? & Hf' & [t Hi] & Hd'). split_and!; auto.
    + intros c' Hv. apply Hsplit in Hv as [Hv | ->]; [by apply (Hf' c')|]. apply Hne. symmetry. by eapply Hone.
    + destruct (decide (c = rq_contextId r')) as [E|E]; [rewrite E, lookup_insert_eq by done; by eexists|].
      rewrite lookup_insert_ne by done. by exists t.
    + intros k'' r'' b'' p''. rewrite lookup_insert_Some, lookup_delete_Some.
      intros [[_ [=]]|[_ [_ Hp']]]. eauto.
  - intros k' r' u'. rewrite !lookup_insert_Some, !lookup_delete_Some.
    intros [[[_ [= <- <-]]|[_ [_ Hp]]]|[[_ [=]]|[_ [_ Hp]]]].
    + split; [|fold c; by rewrite lookup_insert_eq].
      unfold R'. rewrite decide_True by done. rewrite fmap_app. set_solver.
    + destruct (H5 k' r' u') as [? [t Hi]]; [auto|]. split; [auto|].
      destruct (decide (c = rq_contextId r')) as [E|E]; [rewrite E, lookup_insert_eq by done; by eexists|].
      rewrite lookup_insert_ne by done. by exists t.
    + destruct (H5 k' r' u') as [? [t Hi]]; [auto|]. split; [auto|].
      destruct (decide (c = rq_contextId r')) as [E|E]; [rewrite E, lookup_insert_eq by done; by eexists|].
      rewrite lookup_insert_ne by done. by exists t.
  - intros k' Hk'. rewrite lookup_insert_ne, lookup_delete_None by lia. right. apply H6. lia.
Qed.

Lemma tracked_step R e x x' : tracked R x -> step e x = Some x' -> exists R', tracked R' x'.
Proof.
  intros H Hs. destruct e as [r bus|k answer|k|k ok|k|t bus|k receipt|c f|c er]; simpl in Hs.
  - injection Hs as <-. exists R. by apply tracked_start.
  - destruct (x_calls x !! k) as [[r bus| | | | |]|] eqn:Ek; try done. injection Hs as <-. exists R.
    pose proof (tracked_end R k x H) as He. unfold execute_session. cbv zeta.
    destruct answer as [|msg|]; [| |done].
    + destruct (tracked_context R (rq_contextId r) (end_call k x) He) as [Hx Hc].
      set (y := contextState (rq_contextId r) (end_call k x)) in *.
      assert (Eu : x_uuids y = x_uuids x)
        by (subst y; unfold contextState; by destruct (x_contexts (end_call k x) !! rq_contextId r)).
      change (x_uuids (end_call k x)) with (x_uuids x). rewrite <- Eu.
      destruct (preamble_prefix _ _ _) as [prefix|].
      * destruct (bool_decide _);
          [apply (tracked_draw R r bus prefix y (next_tick (next_uuid y)))
          |apply (tracked_draw R r bus prefix y (next_uuid y))]; done.
      * by apply (tracked_draw R r bus [] y (next_uuid y)).
    + by apply (tracked_same R (end_call k x)).
  - destruct (x_calls x !! k) as [[|r bus u p| | | |]|] eqn:Ek; try done. injection Hs as <-.
    pose proof (tracked_end R k x H) as He. unfold execute_message. cbv zeta.
    destruct (attachments_same (rq_contextId r) (rq_userMessage r) (end_call k x)) as (S & C & _).
    destruct (attachmentsPreamble _ _ _ _ _ _) as [attached x1]; simpl in S, C.
    pose proof (tracked_same R _ _ S C He) as H1.
    destruct (contextOnly _).
    { exists R. apply tracked_start; [done|]. by apply (tracked_same R x1). }
    simpl. rewrite C. simpl.
    destruct (x_contexts x !! rq_contextId r) as [tr|] eqn:Ec; simpl.
    2:{ exists R. revert H1. apply tracked_mono; simpl; eauto. }
    match goal with |- context [registerSend ?s tr] => destruct (registerSend s tr) as [tr'|] eqn:Er end.
    2:{ exists R. revert H1. apply tracked_mono; simpl; eauto. }
    destruct S as [E1 E2 E3 E4 E5]. simpl in E3, E4, E5.
    set (y := set_routes _ _ x1).
    match type of Er with registerSend ?send _ = _ =>
      destruct (tracked_register R k r bus u p x y (rq_contextId r) tr tr' H Ek eq_refl C E3 E4 E5 Ec
                  send eq_refl Er) as (R' & HR)
    end.
    exists R'. rewrite <- C. apply HR.
  - destruct (x_calls x !! k) as [[| |r bus|r u| |]|] eqn:Ek; try done; injection Hs as <-; exists R.
    + destruct ok; [|by apply tracked_end]. apply (tracked_same R (end_call k x)); [done|done|by apply tracked_end].
    + destruct ok; [|by apply tracked_end]. apply tracked_start; [|by apply tracked_end].
      apply (tr_sends _ _ H k). by left.
  - destruct (x_calls x !! k) as [[| | | |r u|]|] eqn:Ek; try done.
    destruct (x_contexts x !! rq_contextId r) as [tr|]; [|done]. simpl in Hs.
    destruct (decide _); [|done]. injection Hs as <-. exists R.
    pose proof (tracked_end R k x H) as He. revert He. apply tracked_mono; simpl; eauto.
  - injection Hs as <-. exists R. unfold cancel_start. destruct (_ ≫= _) as [[c tr]|].
    + apply tracked_start; [done|]. apply tracked_with; [|done]. intros; by apply lives_cancel.
    + by apply (tracked_same R x).
  - destruct (x_calls x !! k) as [[| | | | |t c bus sup]|] eqn:Ek; try done. injection Hs as <-. exists R.
    unfold cancel_finish. apply tracked_with; [intros; by apply lives_terminal|].
    apply (tracked_same R (end_call k x)); [done|done|by apply tracked_end].
  - destruct (x_contexts x !! c) as [tr|] eqn:Ec; [|done]. simpl in Hs. destruct (t_ended tr) eqn:Ee; [done|].
    injection Hs as <-. exists R. revert H. destruct (with_translator_same c (handleFrame url_host (clock c) sink f) x) as [[] C].
    rewrite Ec in C. apply tracked_mono; rewrite ?C; try congruence.
    + intros c' tr'. rewrite lookup_insert_Some. intros [[<- <-]|[_ H]]; [|eauto].
      exists tr. split; [done|]. intros Hl. left. apply run_frame. by apply lives_running.
    + intros c'. rewrite lookup_insert_None. tauto.
  - destruct (x_contexts x !! c) as [tr|] eqn:Ec; [|done]. simpl in Hs. destruct (t_ended tr) eqn:Ee; [done|].
    injection Hs as <-. exists R. revert H.
    destruct (with_translator_same c (endStream (clock c) sink (end_reason er)) x) as [[] C].
    rewrite Ec in C. apply tracked_mono; rewrite ?C; try congruence.
    + intros c' tr'. rewrite lookup_insert_Some. intros [[<- <-]|[_ H]]; [|eauto].
      exists tr. split; [done|]. intros Hl. right. apply ended_stream. by apply lives_running.
    + intros c'. rewrite lookup_insert_None. tauto.
Qed.

Lemma play_tracked es x : play es new_executor = Some x -> exists R, tracked R x.
Proof.
  apply (play_ind (fun _ x => exists R, tracked R x)).
  - exists (fun _ => []). split; simpl; intros; rewrite ?lookup_empty in *; try done; [set_solver|naive_solver].
  - intros es' e x0 x1 [R HR] Hs. by eapply tracked_step.
Qed.
End Runs.

(** ** The theorems *)

(** C6: no event reaches another task's bus. Under every interleaving of
    executions, cancellations, frames, stream ends and answers of the
    session, an event published on a bus is about a task that bus was
    handed in for, by that task's own execution or cancellation. *)
Theorem events_reach_own_bus url_host date_parse clock own_clock sink uuid_source Number sha256
    attachments es x bus event :
  xplay url_host date_parse clock own_clock sink uuid_source Number sha256 attachments es new_executor
    = Some x ->
  (bus, event) ∈ x_published x -> asked es bus (event_task event).
Proof.
  intros Hp. by apply (play_routed url_host date_parse clock own_clock sink uuid_source Number sha256
    attachments es x Hp).
Qed.

(** C5: no execution is left hanging. With distinct uuids, an execution that
    waits for its turn is waiting for a send its context's translator knows:
    once the stream has ended the execution can return, and before that its
    send is either still pending or already settled, so it can return —
    never lost in between. *)
Theorem execution_never_hangs url_host date_parse clock own_clock sink uuid_source Number sha256
    attachments es x k request uuid :
  (forall i j, uuid_source i = uuid_source j -> i = j) ->
  xplay url_host date_parse clock own_clock sink uuid_source Number sha256 attachments es new_executor
    = Some x ->
  x_calls x !! k = Some (CallDone request uuid) ->
  exists tr, x_contexts x !! rq_contextId request = Some tr /\
    (if t_ended tr || bool_decide (uuid ∈ t_resolved tr) then
       is_Some (xstep url_host date_parse clock own_clock sink uuid_source Number sha256 attachments
                  (XTurnDone k) x)
     else uuid ∈ uuids (t_pending tr)).
Proof.
  intros Hi Hp Hk.
  destruct (play_tracked url_host date_parse clock own_clock sink uuid_source Number sha256 attachments
    Hi es x Hp) as [R HR].
  destruct (tr_sends _ _ _ _ _ _ HR k request uuid (or_intror Hk)) as [Hu [tr Ht]].
  exists tr. split; [done|].
  assert (Hgo : uuid ∈ t_resolved tr -> is_Some (xstep url_host date_parse clock own_clock sink uuid_source
    Number sha256 attachments (XTurnDone k) x)).
  { intros Hr. simpl. rewrite Hk, Ht. simpl. rewrite decide_True by done. by eexists. }
  destruct (tr_lives _ _ _ _ _ _ HR _ _ Ht) as [Hrun|Hend].
  - destruct (run_settled _ _ _ _ _ Hrun) as [W _ _ P _]. rewrite (wf_live _ W). simpl.
    case_bool_decide as Hr; [auto|]. rewrite P, elem_of_app in Hu. tauto.
  - apply ended_facts in Hend as [-> P]. simpl. apply Hgo. by rewrite P.
Qed.

(** The keys that say which call a phone message belongs to. *)
Definition call_keys : list jstr := [META_PHONE_CALL; META_PHONE_FROM; META_PHONE_TO].

Ltac other_keys m Hk :=
  repeat match goal with |- context [meta m ?k] => rewrite (Hk k) by (vm_compute; reflexivity) end.

(** A call's identifiers stay out of the prompt. Two phone messages with
    the same parts and the same metadata except for the call id and the two
    numbers are turned into the very same message to the model: the prompt
    does not depend on those values. *)
Theorem call_ids_not_in_prompt date_parse m1 m2 now uuid prefix attached :
  m_parts m1 = m_parts m2 ->
  (forall key, key ∉ call_keys -> meta m1 key = meta m2 key) ->
  is_Some (as_nonempty_str (meta m1 META_PHONE_CALL)) ->
  is_Some (as_nonempty_str (meta m2 META_PHONE_CALL)) ->
  preamble_prefix date_parse m1 now = preamble_prefix date_parse m2 now /\
  sdk_message m1 uuid prefix attached = sdk_message m2 uuid prefix attached.
Proof.
  intros Hp Hm [c1 H1] [c2 H2].
  assert (Hk : forall key, bool_decide (key ∈ call_keys) = false -> meta m1 key = meta m2 key).
  { intros key Hb. apply Hm. by apply bool_decide_eq_false in Hb. }
  split.
  - unfold preamble_prefix, envelopePreamble, envelopeOf, threadPreamble, phonePreamble, sendPreamble.
    rewrite H1, H2. by other_keys m1 Hk.
  - unfold sdk_message, messageText, contextOnly, priority_of. rewrite Hp. by other_keys m1 Hk.
Qed.

(** ** Witnesses: one execution, its turn and the end of its stream *)

Definition inbound (call : string) : Message :=
  mkMessage (js "m1") (js "c1") (js "t1") ROLE_USER [textPart (js "hi")]
    (VObj [(META_PHONE_CALL, VStr (js call)); (META_PHONE_KIND, VStr (js "dtmf"))]).
Definition sample_request : RequestContext := mkRequest (js "t1") (js "c1") (inbound "CA1").
Definition counted (n : nat) : jstr := [N.of_nat n].
Definition sample_events : list xevent :=
  [XExecute sample_request 7; XSession 0 SessionReady; XAttachments 1; XSendSettled 2 true;
   XFrame (js "c1") (FAssistant None None false (VArr [])); XStreamEnd (js "c1") None].
Definition sample_play (es : list xevent) : option executor :=
  xplay (fun _ => None) (fun _ => None) (fun _ => still) still None counted (fun _ => None)
    (fun _ => []) None es new_executor.
Definition sample_after : executor := default new_executor (sample_play sample_events).

Lemma sample_after_play : sample_play sample_events = Some sample_after.
Proof. vm_compute. reflexivity. Qed.

Lemma counted_inj i j : counted i = counted j -> i = j.
Proof. intros [= H]. lia. Qed.

Lemma events_reach_own_bus_witness :
  length (x_published sample_after) = 3 /\
  forall bus event, (bus, event) ∈ x_published sample_after -> asked sample_events bus (event_task event).
Proof.
  split; [vm_compute; reflexivity|]. intros bus event.
  apply (events_reach_own_bus (fun _ => None) (fun _ => None) (fun _ => still) still None counted
    (fun _ => None) (fun _ => []) None sample_events sample_after bus event).
  apply sample_after_play.
Defined.

Lemma execution_never_hangs_witness :
  is_Some (xstep (fun _ => None) (fun _ => None) (fun _ => still) still None counted (fun _ => None)
    (fun _ => []) None (XTurnDone 3) sample_after).
Proof.
  destruct (execution_never_hangs (fun _ => None) (fun _ => None) (fun _ => still) still None counted
    (fun _ => None) (fun _ => []) None sample_events sample_after 3 sample_request (counted 0))
    as (tr & Ht & H); [apply counted_inj|apply sample_after_play|vm_compute; reflexivity|].
  assert (E : t_ended <$> x_contexts sample_after !! js "c1" = Some true) by (vm_compute; reflexivity).
  change (rq_contextId sample_request) with (js "c1") in Ht. rewrite Ht in E. simpl in E.
  injection E as E. rewrite E in H. exact H.
Defined.

Lemma call_ids_not_in_prompt_witness :
  preamble_prefix (fun _ => None) (inbound "CA1") [] = preamble_prefix (fun _ => None) (inbound "CA2") [].
Proof.
  apply (call_ids_not_in_prompt (fun _ => None) (inbound "CA1") (inbound "CA2") [] [] [] []).
  - reflexivity.
  - intros key Hk. unfold meta, inbound, prop; cbn [m_metadata assq]. unfold assq.
    rewrite bool_decide_false; [reflexivity|]. intros ->. apply Hk. by left.
  - eexists; vm_compute; reflexivity.
  - eexists; vm_compute; reflexivity.
Defined.
