(* ===== verification/Cron.v ===== *)
(** [apps/agentd/src/cron.ts]: the five-field cron matcher. *)

From S2P Require Import Prelude.
#[local] Open Scope Z_scope.

Record CronSpec := mkCron {
  c_minute : gset Z;
  c_hour : gset Z;
  c_dayOfMonth : gset Z;
  c_month : gset Z;
  c_dayOfWeek : gset Z;
  c_anyDayOfMonth : bool;
  c_anyDayOfWeek : bool }.

Definition BOUNDS : list (Z * Z) := [(0, 59); (0, 23); (1, 31); (1, 12); (0, 7)].

(** [/^\d+$/]. *)
Definition all_digits (s : jstr) : bool :=
  match s with [] => false | _ => forallb is_digit s end.

(** [s.split(/\s+/)]. *)
Fixpoint split_ws_go (in_ws : bool) (cur s : jstr) : list jstr :=
  match s with
  | [] => [cur]
  | c :: t =>
      if is_ws c then (if in_ws then split_ws_go true [] t else cur :: split_ws_go true [] t)
      else split_ws_go false (cur ++ [c]) t
  end.
Definition split_ws (s : jstr) : list jstr := split_ws_go false [] s.

(** [/^(\d+)-(\d+)$/]. *)
Definition parse_range (s : jstr) : option (Z * Z) :=
  match split [45%N] s with
  | [a; b] => if all_digits a && all_digits b then Some (digits_value a, digits_value b) else None
  | _ => None
  end.

(** [for (let v = lo; v <= hi; v += step) values.add(v)]; [fuel] bounds the
    iterations, and [hi - lo + 1] of them are enough for a step of at least 1. *)
Fixpoint add_steps (fuel : nat) (v hi step : Z) (values : gset Z) : gset Z :=
  match fuel with
  | O => values
  | S k => if v <=? hi then add_steps k (v + step) hi step ({[v]} ∪ values) else values
  end.

Section Cron.
(** [Number(s)] for a string that is not a run of digits, when that is an
    integer (the code also takes spellings such as [1e1]). *)
Context (other_number : jstr -> option Z).

(** A run of digits too long for a double is [Infinity], not an integer. *)
Definition step_value (s : jstr) : option Z :=
  if all_digits s then
    let n := digits_value s in if n <? 2 ^ 1024 - 2 ^ 970 then Some n else None
  else other_number s.

Definition range_of (rangeRaw : jstr) (stepped : bool) (min max : Z) : option (Z * Z) :=
  if jeqb rangeRaw (js "*") then Some (min, max)
  else if all_digits rangeRaw then
    let lo := digits_value rangeRaw in Some (lo, if stepped then max else lo)
  else parse_range rangeRaw.

Definition parse_part (part : jstr) (min max : Z) (values : gset Z) : option (gset Z) :=
  match split [47%N] part with
  | [] | [] :: _ | _ :: _ :: _ :: _ => None
  | rangeRaw :: rest =>
      step ← (match rest with stepRaw :: _ => step_value stepRaw | [] => Some 1 end);
      if step <? 1 then None else
      r ← range_of rangeRaw (match rest with [] => false | _ => true end) min max;
      let (lo, hi) := (r : Z * Z) in
      if (lo <? min) || (max <? hi) || (hi <? lo) then None
      else Some (add_steps (Z.to_nat (hi - lo + 1)) lo hi step values)
  end.

Fixpoint parse_parts (parts : list jstr) (min max : Z) (values : gset Z) : option (gset Z) :=
  match parts with
  | [] => Some values
  | part :: rest => v ← parse_part part min max values; parse_parts rest min max v
  end.

Definition parseField (field : jstr) (min max : Z) : option (gset Z) :=
  parse_parts (split [44%N] field) min max ∅.

(** [None]: not valid cron. *)
Definition parseCron (expression : jstr) : option CronSpec :=
  match split_ws (trim expression) with
  | [f0; f1; f2; f3; f4] =>
      minute ← parseField f0 0 59;
      hour ← parseField f1 0 23;
      dayOfMonth ← parseField f2 1 31;
      month ← parseField f3 1 12;
      dayOfWeek ← parseField f4 0 7;
      Some (mkCron minute hour dayOfMonth month
              (if decide (7 ∈ dayOfWeek) then {[0]} ∪ dayOfWeek else dayOfWeek)
              (jeqb f2 (js "*")) (jeqb f4 (js "*")))
  | _ => None
  end.
End Cron.

(** What the matcher reads of a local [Date]; [getMonth] counts from 0. *)
Record local_time := mkLocal {
  lt_minutes : Z;
  lt_hours : Z;
  lt_date : Z;
  lt_month : Z;
  lt_day : Z }.

Definition cronMatches (spec : CronSpec) (date : local_time) : bool :=
  let has s v := bool_decide (v ∈ (s : gset Z)) in
  if negb (has (c_minute spec) (lt_minutes date)) || negb (has (c_hour spec) (lt_hours date)) then false
  else if negb (has (c_month spec) (lt_month date + 1)) then false
  else
    let domMatch := has (c_dayOfMonth spec) (lt_date date) in
    let dowMatch := has (c_dayOfWeek spec) (lt_day date) in
    if c_anyDayOfMonth spec && c_anyDayOfWeek spec then true
    else if c_anyDayOfMonth spec then dowMatch
    else if c_anyDayOfWeek spec then domMatch
    else domMatch || dowMatch.

(** ** What a schedule means

    The abstract syntax people write, its spelling, and its denotation. *)
Inductive range := Star | Num (n : Z) | Range (a b : Z).
Record item := mkItem { i_range : range; i_step : option Z }.

#[export] Instance range_eq_dec : EqDecision range.
Proof. solve_decision. Defined.
#[export] Instance item_eq_dec : EqDecision item.
Proof. solve_decision. Defined.

Definition spell_range (r : range) : jstr :=
  match r with
  | Star => js "*"
  | Num n => show_Z n
  | Range a b => show_Z a ++ [45%N] ++ show_Z b
  end.
Definition spell_item (i : item) : jstr :=
  spell_range (i_range i) ++ match i_step i with Some k => 47%N :: show_Z k | None => [] end.
Definition spell_field (items : list item) : jstr := join_with [44%N] (spell_item <$> items).

Definition limits (i : item) (min max : Z) : Z * Z :=
  match i_range i with
  | Star => (min, max)
  | Num n => (n, match i_step i with Some _ => max | None => n end)
  | Range a b => (a, b)
  end.
Definition item_ok (min max : Z) (i : item) : Prop :=
  let (lo, hi) := limits i min max in
  min <= lo /\ lo <= hi /\ hi <= max /\
  match i_step i with Some k => 1 <= k <= 59 | None => True end.
(** [v] is in the range and a whole number of steps from its start. *)
Definition denotes (min max : Z) (i : item) (v : Z) : Prop :=
  let (lo, hi) := limits i min max in
  lo <= v <= hi /\ (v - lo) mod default 1 (i_step i) = 0.

(** ** Properties *)

Lemma add_steps_spec fuel : forall v hi step values, 1 <= step -> hi - v + 1 <= Z.of_nat fuel ->
  forall x, x ∈ add_steps fuel v hi step values <->
    x ∈ values \/ (v <= x <= hi /\ (x - v) mod step = 0).
Proof.
  induction fuel as [|k IH]; intros v hi step values Hs Hf x; simpl.
  - split; [by left|]. intros [?|[? _]]; [done|lia].
  - destruct (Z.leb_spec v hi) as [Hle|Hgt].
    + rewrite IH by lia. rewrite elem_of_union, elem_of_singleton. split.
      * intros [[->|Hx]|[Hr Hm]].
        -- right. split; [lia|]. by rewrite Z.sub_diag, Z.mod_0_l by lia.
        -- by left.
        -- right. split; [lia|]. replace (x - v) with ((x - (v + step)) + 1 * step) by lia.
           by rewrite Z.mod_add by lia.
      * intros [Hx|[Hr Hm]]; [by left; right|].
        destruct (decide (x = v)) as [->|Hne]; [by left; left|]. right.
        assert (step <= x - v).
        { destruct (Z.le_gt_cases step (x - v)); [done|]. rewrite Z.mod_small in Hm by lia. lia. }
        split; [lia|]. replace (x - v) with ((x - (v + step)) + 1 * step) in Hm by lia.
        by rewrite Z.mod_add in Hm by lia.
    + split; [by left|]. intros [?|[? _]]; [done|lia].
Qed.

(** Small decimal numerals, all of them checked. *)
Definition small : list Z := seqZ 0 60.
Definition numeral_ok (n : Z) : bool :=
  all_digits (show_Z n) && (digits_value (show_Z n) =? n) &&
  forallb (fun c => negb (is_ws c) && negb (c =? 45)%N && negb (c =? 47)%N && negb (c =? 44)%N) (show_Z n).

Lemma numerals : forallb numeral_ok small = true.
Proof. vm_compute. reflexivity. Qed.

Lemma numeral n : 0 <= n <= 59 -> all_digits (show_Z n) = true /\ digits_value (show_Z n) = n /\
  Forall (fun c => is_ws c = false /\ c <> 45 /\ c <> 47 /\ c <> 44)%N (show_Z n).
Proof.
  intros Hn. pose proof numerals as H. rewrite forallb_forall in H.
  assert (Hin : n ∈ small) by (apply elem_of_seqZ; lia).
  apply list_elem_of_In, H in Hin. unfold numeral_ok in Hin.
  apply andb_true_iff in Hin as [Hin H3]. apply andb_true_iff in Hin as [H1 H2].
  apply Z.eqb_eq in H2. split_and!; [done|done|].
  rewrite Forall_forall. intros c Hc. rewrite forallb_forall in H3.
  apply list_elem_of_In, H3 in Hc. repeat (apply andb_true_iff in Hc as [Hc ?]).
  repeat match goal with H : negb _ = true |- _ => apply negb_true_iff in H end.
  split_and!; try done; by apply N.eqb_neq.
Qed.

Lemma show_small_star n : 0 <= n <= 59 -> jeqb (show_Z n) (js "*") = false.
Proof.
  intros Hn. unfold jeqb. rewrite bool_decide_eq_false. intros E.
  destruct (numeral n Hn) as [H _]. rewrite E in H. discriminate H.
Qed.

Lemma numeral_free n c : 0 <= n <= 59 -> (c = 45 \/ c = 47 \/ c = 44)%N -> c ∉ show_Z n.
Proof.
  intros Hn Hc Hin. destruct (numeral n Hn) as (_ & _ & H). rewrite Forall_forall in H.
  specialize (H c Hin). naive_solver.
Qed.

Lemma all_digits_app a b c : is_digit c = false -> all_digits (a ++ c :: b) = false.
Proof.
  intros Hc. unfold all_digits. destruct (a ++ c :: b) as [|d l] eqn:E; [by destruct a|].
  rewrite <- E, forallb_app. simpl. by rewrite Hc, andb_false_r.
Qed.

Lemma split_one sep s : sep ∉ s -> split [sep] s = [s].
Proof. intros H. unfold split. by rewrite split_go_none. Qed.

Lemma split_two sep a b : sep ∉ a -> sep ∉ b -> split [sep] (a ++ sep :: b) = [a; b].
Proof. intros Ha Hb. by rewrite split_app, !split_one. Qed.

(** The numbers in an item are small enough to be spelled and read. *)
Lemma item_numbers min max i : 0 <= min -> max <= 59 -> item_ok min max i ->
  match i_range i with
  | Star => True
  | Num n => 0 <= n <= 59
  | Range a b => 0 <= a <= 59 /\ 0 <= b <= 59
  end /\ match i_step i with Some k => 0 <= k <= 59 | None => True end.
Proof.
  unfold item_ok, limits. intros Hmin Hmax H.
  destruct (i_range i), (i_step i); simpl in *; lia.
Qed.

Lemma range_of_spell r stepped min max :
  match r with Star => True | Num n => 0 <= n <= 59 | Range a b => 0 <= a <= 59 /\ 0 <= b <= 59 end ->
  range_of (spell_range r) stepped min max =
  Some (match r with
        | Star => (min, max)
        | Num n => (n, if stepped then max else n)
        | Range a b => (a, b)
        end).
Proof.
  intros H. unfold range_of. destruct r as [|n|a b]; simpl spell_range.
  - done.
  - destruct (numeral n H) as (Hd & Hv & _). by rewrite show_small_star, Hd, Hv.
  - destruct H as [Ha Hb]. destruct (numeral a Ha) as (Hda & Hva & _).
    destruct (numeral b Hb) as (Hdb & Hvb & _).
    replace (jeqb (show_Z a ++ 45%N :: show_Z b) (js "*")) with false.
    2:{ symmetry. apply bool_decide_eq_false. intros E. apply (f_equal (fun s => bool_decide (45%N ∈ s))) in E.
        rewrite bool_decide_true in E by set_solver. vm_compute in E. discriminate E. }
    rewrite all_digits_app by done. unfold parse_range.
    rewrite split_two by (apply numeral_free; auto). by rewrite Hda, Hdb, Hva, Hvb.
Qed.

Lemma spell_range_free r c : (c = 47 \/ c = 44)%N ->
  match r with Star => True | Num n => 0 <= n <= 59 | Range a b => 0 <= a <= 59 /\ 0 <= b <= 59 end ->
  c ∉ spell_range r.
Proof.
  intros Hc H. destruct r as [|n|a b]; simpl.
  - destruct Hc as [-> | ->]; apply (bool_decide_unpack _); vm_compute; constructor.
  - apply numeral_free; [done|tauto].
  - rewrite elem_of_app, elem_of_cons. intros [Hi|[->|Hi]].
    + revert Hi. apply numeral_free; tauto.
    + destruct Hc; discriminate.
    + revert Hi. apply numeral_free; tauto.
Qed.

Section Meaning.
Context (other_number : jstr -> option Z).

Lemma step_value_small k : 0 <= k <= 59 -> step_value other_number (show_Z k) = Some k.
Proof.
  intros Hk. destruct (numeral k Hk) as (Hd & Hv & _). unfold step_value. rewrite Hd, Hv.
  assert ((k <? 2 ^ 1024 - 2 ^ 970) = true) as ->; [|done].
  apply Z.ltb_lt. eapply Z.le_lt_trans; [apply Hk|]. vm_compute. reflexivity.
Qed.

Lemma parse_part_spell i min max values : 0 <= min -> max <= 59 -> item_ok min max i ->
  exists values', parse_part other_number (spell_item i) min max values = Some values' /\
    forall v, v ∈ values' <-> v ∈ values \/ denotes min max i v.
Proof.
  intros Hmin Hmax Hok. destruct (item_numbers min max i Hmin Hmax Hok) as [Hr Hk].
  assert (H47 : 47%N ∉ spell_range (i_range i)) by (apply spell_range_free; tauto).
  unfold parse_part, spell_item, item_ok, denotes, limits in *.
  destruct (i_step i) as [k|] eqn:Ek; simpl in *.
  - rewrite split_two by (done || (apply numeral_free; tauto)).
    destruct (spell_range (i_range i)) as [|c r] eqn:Er.
    { exfalso. destruct (i_range i); simpl in Er; try discriminate.
      - destruct (numeral n Hr) as (Hd & _). by rewrite Er in Hd.
      - by destruct (show_Z a). }
    rewrite step_value_small by lia. simpl.
    replace (k <? 1) with false by (symmetry; apply Z.ltb_ge; destruct (i_range i); lia).
    rewrite <- Er, range_of_spell by done. simpl.
    destruct (i_range i) as [|n|a b]; simpl in *;
      (match goal with |- context [if ?b then None else _] => replace b with false
         by (symmetry; rewrite !orb_false_iff, !Z.ltb_ge; lia) end);
      eexists; (split; [reflexivity|]); intros v; rewrite add_steps_spec by lia; tauto.
  - rewrite app_nil_r, split_one by done.
    destruct (spell_range (i_range i)) as [|c r] eqn:Er.
    { exfalso. destruct (i_range i); simpl in Er; try discriminate.
      - destruct (numeral n Hr) as (Hd & _). by rewrite Er in Hd.
      - by destruct (show_Z a). }
    simpl. rewrite <- Er, range_of_spell by done. simpl.
    destruct (i_range i) as [|n|a b]; simpl in *;
      (match goal with |- context [if ?b then None else _] => replace b with false
         by (symmetry; rewrite !orb_false_iff, !Z.ltb_ge; lia) end);
      eexists; (split; [reflexivity|]); intros v; rewrite add_steps_spec by lia; tauto.
Qed.

Lemma split_join (sep : N) (l : list jstr) : l <> [] -> Forall (fun s => sep ∉ s) l ->
  split [sep] (join_with [sep] l) = l.
Proof.
  intros Hne. induction 1 as [|s l Hs _ IH]; [done|]. destruct l as [|s' l].
  - simpl. by apply split_one.
  - change (join_with [sep] (s :: s' :: l)) with (s ++ sep :: join_with [sep] (s' :: l)).
    rewrite split_app, split_one by done. by rewrite IH.
Qed.

Lemma spell_item_free min max i c : 0 <= min -> max <= 59 -> item_ok min max i -> (c = 44)%N ->
  c ∉ spell_item i.
Proof.
  intros Hmin Hmax Hok ->. destruct (item_numbers min max i Hmin Hmax Hok) as [Hr Hk].
  unfold spell_item. rewrite elem_of_app. intros [Hi|Hi].
  - revert Hi. apply spell_range_free; tauto.
  - destruct (i_step i) as [k|]; [|by apply not_elem_of_nil in Hi].
    apply elem_of_cons in Hi as [[=]|Hi]. revert Hi. apply numeral_free; tauto.
Qed.

Lemma parseField_spell items min max : 0 <= min -> max <= 59 -> items <> [] ->
  Forall (item_ok min max) items ->
  exists values, parseField other_number (spell_field items) min max = Some values /\
    forall v, v ∈ values <-> exists i, i ∈ items /\ denotes min max i v.
Proof.
  intros Hmin Hmax Hne Hall. unfold parseField, spell_field.
  rewrite split_join.
  2:{ by destruct items. }
  2:{ apply Forall_fmap. eapply Forall_impl; [exact Hall|]. intros i Hi. simpl. by eapply spell_item_free. }
  assert (H : forall l values, Forall (item_ok min max) l ->
    exists values', parse_parts other_number (spell_item <$> l) min max values = Some values' /\
      forall v, v ∈ values' <-> v ∈ values \/ exists i, i ∈ l /\ denotes min max i v).
  { induction l as [|i l IH]; intros values Hl; csimpl.
    - exists values. split; [done|]. intros v. set_solver.
    - inversion Hl; subst. destruct (parse_part_spell i min max values) as (v1 & -> & S1); [done..|].
      simpl. destruct (IH v1) as (v2 & -> & S2); [done|]. exists v2. split; [done|].
      intros v. rewrite S2, S1. setoid_rewrite elem_of_cons. naive_solver. }
  destruct (H items ∅ Hall) as (values & -> & S). exists values. split; [done|].
  intros v. rewrite S. set_solver.
Qed.
End Meaning.

(** ** Whole expressions *)

Definition word (s : jstr) : Prop := s <> [] /\ Forall (fun c => is_ws c = false) s.

Lemma split_ws_go_word w b cur t : Forall (fun c => is_ws c = false) w -> w <> [] ->
  split_ws_go b cur (w ++ t) = split_ws_go false (cur ++ w) t.
Proof.
  intros H. revert b cur; induction H as [|c w Hc Hw IH]; intros b cur Hne; [done|].
  simpl. rewrite Hc. destruct w as [|d w]; [done|]. rewrite IH by done. by rewrite <- app_assoc.
Qed.

Lemma split_ws_words ws : ws <> [] -> Forall word ws -> split_ws (join_with [32%N] ws) = ws.
Proof.
  intros Hne H. unfold split_ws.
  assert (G : forall b, split_ws_go b [] (join_with [32%N] ws) = ws); [|apply G].
  induction H as [|w ws [Hw Hf] Hws IH]; intros b; [done|]. destruct ws as [|w' ws].
  - simpl. rewrite <- (app_nil_r w) at 1. by rewrite split_ws_go_word.
  - change (join_with [32%N] (w :: w' :: ws)) with (w ++ 32%N :: join_with [32%N] (w' :: ws)).
    rewrite split_ws_go_word by done. simpl. f_equal. by apply IH.
Qed.

Lemma trim_start_word w t : word w -> trim_start (w ++ t) = w ++ t.
Proof. intros [Hw Hf]. destruct w as [|c w]; [done|]. inversion Hf as [|? ? Hc]. simpl. by rewrite Hc. Qed.

Lemma trim_words ws : ws <> [] -> Forall word ws -> trim (join_with [32%N] ws) = join_with [32%N] ws.
Proof.
  intros Hne H. unfold trim, trim_end.
  assert (Hs : trim_start (join_with [32%N] ws) = join_with [32%N] ws).
  { destruct H as [|w ws Hw Hws]; [done|]. destruct ws as [|w' ws].
    - simpl. rewrite <- (app_nil_r w) at 1. rewrite trim_start_word by done. by rewrite app_nil_r.
    - apply (trim_start_word w ([32%N] ++ join_with [32%N] (w' :: ws))). done. }
  rewrite Hs. clear Hs.
  assert (exists a w, join_with [32%N] ws = a ++ w /\ word w) as (a & w & -> & Hw).
  { clear -Hne H. induction H as [|w ws Hw Hws IH]; [done|]. destruct ws as [|w' ws].
    - exists [], w. done.
    - destruct IH as (a & u & E & Hu); [done|]. exists (w ++ [32%N] ++ a), u. split; [|done].
      change (join_with [32%N] (w :: w' :: ws)) with (w ++ [32%N] ++ join_with [32%N] (w' :: ws)).
      rewrite E. by rewrite <- !app_assoc. }
  rewrite reverse_app, trim_start_word; [by rewrite <- reverse_app, reverse_involutive|].
  destruct Hw as [Hw Hf]. split; [|by apply Forall_reverse].
  intros E. apply (f_equal reverse) in E. by rewrite reverse_involutive in E.
Qed.

Lemma spell_item_word i min max : 0 <= min -> max <= 59 -> item_ok min max i -> word (spell_item i).
Proof.
  intros Hmin Hmax Hok. destruct (item_numbers min max i Hmin Hmax Hok) as [Hr Hk].
  assert (Hn : forall n, 0 <= n <= 59 -> word (show_Z n)).
  { intros n Hn. destruct (numeral n Hn) as (Hd & _ & Hf). split; [by intros E; rewrite E in Hd|].
    eapply Forall_impl; [exact Hf|]. by intros c []. }
  assert (Hwr : word (spell_range (i_range i))).
  { destruct (i_range i) as [|n|a b]; simpl.
    - split; [done|]. apply (bool_decide_unpack _). vm_compute. constructor.
    - by apply Hn.
    - destruct Hr as [Ha Hb]. destruct (Hn a Ha), (Hn b Hb). split; [by destruct (show_Z a)|].
      apply Forall_app. split; [done|]. by constructor. }
  destruct Hwr as [Hw Hf]. unfold spell_item. split; [by destruct (spell_range (i_range i))|].
  apply Forall_app. split; [done|]. destruct (i_step i) as [k|]; [|constructor].
  constructor; [done|]. by apply Hn.
Qed.

Lemma spell_field_word items min max : 0 <= min -> max <= 59 -> items <> [] ->
  Forall (item_ok min max) items -> word (spell_field items).
Proof.
  intros Hmin Hmax Hne. unfold spell_field. induction 1 as [|i items Hi Hall IH]; [done|].
  pose proof (spell_item_word i min max Hmin Hmax Hi) as [Hw Hf]. destruct items as [|i' items]; [done|].
  destruct IH as [_ IH]; [done|]. csimpl in *.
  split; [by destruct (spell_item i)|].
  change (Forall (fun c => is_ws c = false) (spell_item i ++ [44%N] ++ join_with [44%N] (spell_item i' :: (spell_item <$> items)))).
  apply Forall_app. split; [done|]. constructor; [done|exact IH].
Qed.

Lemma star_field items min max : 0 <= min -> max <= 59 -> items <> [] -> Forall (item_ok min max) items ->
  jeqb (spell_field items) (js "*") = bool_decide (items = [mkItem Star None]).
Proof.
  intros Hmin Hmax Hne Hall. apply bool_decide_ext. split; [|by intros ->].
  intros E. pose proof (parseField_spell (fun _ => None)) as _.
  assert (Hsp : split [44%N] (spell_field items) = [js "*"]) by (rewrite E; reflexivity).
  unfold spell_field in Hsp. rewrite split_join in Hsp; [|by destruct items|].
  2:{ apply Forall_fmap. eapply Forall_impl; [exact Hall|]. intros i Hi. simpl. by eapply spell_item_free. }
  destruct items as [|i [|? ?]]; try discriminate. injection Hsp as Hi.
  inversion Hall as [|? ? Hok _]; subst.
  destruct (item_numbers min max i Hmin Hmax Hok) as [Hr Hk].
  unfold spell_item in Hi. destruct i as [r st]; simpl in *.
  assert (st = None) as ->.
  { destruct st as [k|]; [|done]. exfalso.
    apply (f_equal (fun s => bool_decide (47%N ∈ s))) in Hi.
    rewrite bool_decide_true in Hi by set_solver. vm_compute in Hi. discriminate Hi. }
  rewrite app_nil_r in Hi. destruct r as [|n|a b]; [done| |]; exfalso; simpl in Hi.
  - pose proof (show_small_star n Hr) as Hn. rewrite Hi in Hn. discriminate Hn.
  - apply (f_equal (fun s => bool_decide (45%N ∈ s))) in Hi.
    rewrite bool_decide_true in Hi by set_solver. vm_compute in Hi. discriminate Hi.
Qed.

(** A schedule: five fields of items within their bounds. *)
Record schedule := mkSchedule {
  sc_minute : list item;
  sc_hour : list item;
  sc_dom : list item;
  sc_month : list item;
  sc_dow : list item }.
Definition field_ok (min max : Z) (items : list item) : Prop := items <> [] /\ Forall (item_ok min max) items.
Definition schedule_ok (s : schedule) : Prop :=
  field_ok 0 59 (sc_minute s) /\ field_ok 0 23 (sc_hour s) /\ field_ok 1 31 (sc_dom s) /\
  field_ok 1 12 (sc_month s) /\ field_ok 0 7 (sc_dow s).
Definition spell (s : schedule) : jstr :=
  join_with [32%N] [spell_field (sc_minute s); spell_field (sc_hour s); spell_field (sc_dom s);
                    spell_field (sc_month s); spell_field (sc_dow s)].
Definition means (min max : Z) (items : list item) (v : Z) : Prop :=
  exists i, i ∈ items /\ denotes min max i v.
Definition unrestricted (items : list item) : Prop := items = [mkItem Star None].

(** The minutes a schedule fires in. Day-of-week 7 is Sunday; when both
    days are restricted, either will do. *)
Definition fires (s : schedule) (d : local_time) : Prop :=
  let dom := means 1 31 (sc_dom s) (lt_date d) in
  let dow := means 0 7 (sc_dow s) (lt_day d) \/ (lt_day d = 0 /\ means 0 7 (sc_dow s) 7) in
  means 0 59 (sc_minute s) (lt_minutes d) /\ means 0 23 (sc_hour s) (lt_hours d) /\
  means 1 12 (sc_month s) (lt_month d + 1) /\
  ((unrestricted (sc_dom s) /\ unrestricted (sc_dow s)) \/
   (unrestricted (sc_dom s) /\ ~ unrestricted (sc_dow s) /\ dow) \/
   (~ unrestricted (sc_dom s) /\ unrestricted (sc_dow s) /\ dom) \/
   (~ unrestricted (sc_dom s) /\ ~ unrestricted (sc_dow s) /\ (dom \/ dow))).

(** C36: cron means what it says. Every schedule written in cron's notation —
    stars, numbers, ranges, lists and steps within the fields' bounds —
    parses, and the parsed form matches a local minute exactly when the
    schedule's denotation says it fires, Sunday as 0 or 7 and the
    either-day rule included. *)
Theorem cron_fires_as_written other_number s d : schedule_ok s ->
  exists spec, parseCron other_number (spell s) = Some spec /\
    (cronMatches spec d = true <-> fires s d).
Proof.
  intros ((N0 & F0) & (N1 & F1) & (N2 & F2) & (N3 & F3) & (N4 & F4)).
  unfold parseCron, spell.
  assert (Hw : Forall word [spell_field (sc_minute s); spell_field (sc_hour s); spell_field (sc_dom s);
                            spell_field (sc_month s); spell_field (sc_dow s)]).
  { repeat constructor; eapply spell_field_word; try eassumption; done. }
  rewrite trim_words, split_ws_words by done.
  destruct (parseField_spell other_number _ 0 59 ltac:(done) ltac:(done) N0 F0) as (m & -> & M0).
  destruct (parseField_spell other_number _ 0 23 ltac:(done) ltac:(done) N1 F1) as (h & -> & M1).
  destruct (parseField_spell other_number _ 1 31 ltac:(done) ltac:(done) N2 F2) as (dm & -> & M2).
  destruct (parseField_spell other_number _ 1 12 ltac:(done) ltac:(done) N3 F3) as (mo & -> & M3).
  destruct (parseField_spell other_number _ 0 7 ltac:(done) ltac:(done) N4 F4) as (dw & -> & M4).
  simpl. eexists. split; [reflexivity|].
  rewrite (star_field _ 1 31) by done. rewrite (star_field _ 0 7) by done.
  assert (M4' : forall v, v ∈ (if decide (7 ∈ dw) then {[0]} ∪ dw else dw) <->
    means 0 7 (sc_dow s) v \/ (v = 0 /\ means 0 7 (sc_dow s) 7)).
  { intros v. unfold means. rewrite <- !M4. case_decide; set_solver. }
  set (dw' := if decide (7 ∈ dw) then _ else dw) in *. clearbody dw'.
  unfold cronMatches, fires, unrestricted; simpl.
  repeat match goal with |- context [bool_decide ?P] =>
    destruct (bool_decide_reflect P) as [?|?] end; simpl;
    rewrite ?M0, ?M1, ?M2, ?M3, ?M4' in *; unfold means in *; intuition congruence.
Qed.

Definition weekday_mornings : schedule :=
  mkSchedule [mkItem (Range 0 30) (Some 15)] [mkItem (Num 9) None] [mkItem Star None] [mkItem Star None]
    [mkItem (Range 1 5) None; mkItem (Num 7) None].

Lemma cron_fires_as_written_witness :
  spell weekday_mornings = js "0-30/15 9 * * 1-5,7" /\
  exists spec, parseCron (fun _ => None) (spell weekday_mornings) = Some spec /\
    (cronMatches spec (mkLocal 15 9 1 0 0) = true <-> fires weekday_mornings (mkLocal 15 9 1 0 0)).
Proof.
  split; [vm_compute; reflexivity|].
  apply (cron_fires_as_written (fun _ => None) weekday_mornings (mkLocal 15 9 1 0 0)).
  unfold schedule_ok, field_ok, item_ok; simpl.
  split_and!; try discriminate; repeat constructor; simpl; lia.
Defined.
