(* ===== verification/Routines.v ===== *)
(** [apps/agentd/src/store/routines.ts] and [apps/agentd/src/routines.ts]:
    the agent's scheduled work. The table is a list of rows; a scheduler
    pass is cut where it awaits a turn, so that passes, started by a timer
    every twenty seconds, overlap as they do in the program. *)

From S2P Require Import Prelude Cron.
#[local] Open Scope Z_scope.

(** ** The store *)

Record RoutineOrigin := mkOrigin {
  ro_channel : jstr;
  ro_threadTs : jstr;
  ro_contextId : jstr }.

Inductive routine_kind := KCron | KAt.
#[export] Instance routine_kind_eq_dec : EqDecision routine_kind.
Proof. solve_decision. Defined.

Record Routine := mkRoutine {
  r_id : jstr;
  r_name : jstr;
  r_kind : routine_kind;
  r_cron : jstr;
  r_atMs : option Z;
  r_origin : option RoutineOrigin;
  r_firedMs : option Z;
  r_prompt : jstr;
  r_enabled : bool;
  r_consecutiveFailures : Z;
  r_createdMs : Z;
  r_lastRunMs : option Z;
  r_lastOutcome : option jstr }.

(** A row as the database holds it. *)
Record row := mkRow {
  w_id : jstr;
  w_name : jstr;
  w_kind : jstr;
  w_cron : jstr;
  w_at_ms : option Z;
  w_origin_channel : option jstr;
  w_origin_thread_ts : option jstr;
  w_origin_context_id : option jstr;
  w_fired_ms : option Z;
  w_prompt : jstr;
  w_enabled : Z;
  w_consecutive_failures : Z;
  w_created_ms : Z;
  w_last_run_ms : option Z;
  w_last_outcome : option jstr }.

Definition toRoutine (w : row) : Routine :=
  mkRoutine (w_id w) (w_name w) (if jeqb (w_kind w) (js "at") then KAt else KCron) (w_cron w) (w_at_ms w)
    (match w_origin_channel w, w_origin_thread_ts w, w_origin_context_id w with
     | Some c, Some t, Some x => Some (mkOrigin c t x)
     | _, _, _ => None
     end)
    (w_fired_ms w) (w_prompt w) (w_enabled w =? 1) (w_consecutive_failures w) (w_created_ms w)
    (w_last_run_ms w) (w_last_outcome w).

(** The table, in insertion order. *)
Abbreviation table := (list row).

Definition update_where (id : jstr) (f : row -> row) (db : table) : table :=
  (fun w => if jeqb (w_id w) id then f w else w) <$> db.

Definition find_row (id : jstr) (db : table) : option row := snd <$> list_find (fun w => w_id w = id) db.
Definition get (id : jstr) (db : table) : option Routine := toRoutine <$> find_row id db.

(** [ORDER BY created_ms]; rows of the same millisecond stay in insertion
    order. *)
Fixpoint insert_by_created (w : row) (l : list row) : list row :=
  match l with
  | [] => [w]
  | x :: t => if w_created_ms w <? w_created_ms x then w :: l else x :: insert_by_created w t
  end.
Definition by_created (db : table) : list row := fold_left (fun l w => insert_by_created w l) db [].
Definition list_routines (db : table) : list Routine := toRoutine <$> by_created db.

(** Inserting under an id that is taken violates the primary key: [None] is
    the error. *)
Definition insert_row (w : row) (db : table) : option table :=
  match find_row (w_id w) db with Some _ => None | None => Some (db ++ [w]) end.

Definition create (id name cron prompt : jstr) (now : Z) (db : table) : option table :=
  insert_row (mkRow id name (js "cron") cron None None None None None prompt 1 0 now None None) db.

Definition createOneShot (id name : jstr) (atMs : Z) (prompt : jstr) (origin : RoutineOrigin) (now : Z)
    (db : table) : option table :=
  insert_row (mkRow id name (js "at") [] (Some atMs) (Some (ro_channel origin)) (Some (ro_threadTs origin))
                (Some (ro_contextId origin)) None prompt 1 0 now None None) db.

Record RoutineUpdate := mkUpdate {
  u_name : option jstr;
  u_cron : option jstr;
  u_prompt : option jstr;
  u_enabled : option bool }.

Definition set_failures (n : Z) (w : row) : row :=
  mkRow (w_id w) (w_name w) (w_kind w) (w_cron w) (w_at_ms w) (w_origin_channel w) (w_origin_thread_ts w)
    (w_origin_context_id w) (w_fired_ms w) (w_prompt w) (w_enabled w) n (w_created_ms w)
    (w_last_run_ms w) (w_last_outcome w).
Definition set_enabled (n : Z) (w : row) : row :=
  mkRow (w_id w) (w_name w) (w_kind w) (w_cron w) (w_at_ms w) (w_origin_channel w) (w_origin_thread_ts w)
    (w_origin_context_id w) (w_fired_ms w) (w_prompt w) n (w_consecutive_failures w) (w_created_ms w)
    (w_last_run_ms w) (w_last_outcome w).
Definition set_fired (n : Z) (w : row) : row :=
  mkRow (w_id w) (w_name w) (w_kind w) (w_cron w) (w_at_ms w) (w_origin_channel w) (w_origin_thread_ts w)
    (w_origin_context_id w) (Some n) (w_prompt w) (w_enabled w) (w_consecutive_failures w) (w_created_ms w)
    (w_last_run_ms w) (w_last_outcome w).
Definition set_run (now : Z) (outcome : jstr) (failures : Z) (w : row) : row :=
  mkRow (w_id w) (w_name w) (w_kind w) (w_cron w) (w_at_ms w) (w_origin_channel w) (w_origin_thread_ts w)
    (w_origin_context_id w) (w_fired_ms w) (w_prompt w) (w_enabled w) failures (w_created_ms w)
    (Some now) (Some outcome).
Definition set_content (name cron prompt : jstr) (enabled : Z) (w : row) : row :=
  mkRow (w_id w) name (w_kind w) cron (w_at_ms w) (w_origin_channel w) (w_origin_thread_ts w)
    (w_origin_context_id w) (w_fired_ms w) prompt enabled (w_consecutive_failures w) (w_created_ms w)
    (w_last_run_ms w) (w_last_outcome w).

(** False when the id names nothing. *)
Definition update (id : jstr) (u : RoutineUpdate) (db : table) : bool * table :=
  match get id db with
  | None => (false, db)
  | Some existing =>
      let db1 := update_where id
        (set_content (default (r_name existing) (u_name u))
           (match r_kind existing with KAt => [] | KCron => default (r_cron existing) (u_cron u) end)
           (default (r_prompt existing) (u_prompt u))
           (if default (r_enabled existing) (u_enabled u) then 1 else 0)) db in
      (true, match u_enabled u with
             | Some true => update_where id (set_failures 0) db1
             | _ => db1
             end)
  end.

Definition remove (id : jstr) (db : table) : bool * table :=
  let db1 := filter (fun w => w_id w <> id) db in (negb (length db1 =? length db)%nat, db1).

Definition recordRun (id outcome : jstr) (failed : bool) (now : Z) (db : table) : Z * table :=
  let db1 := update_where id
    (fun w => set_run now outcome (if failed then w_consecutive_failures w + 1 else 0) w) db in
  (match get id db1 with Some r => r_consecutiveFailures r | None => 0 end, db1).

Definition disable (id : jstr) (db : table) : table := update_where id (set_enabled 0) db.
Definition markFired (id : jstr) (now : Z) (db : table) : table := update_where id (set_fired now) db.

Definition pruned (maxAgeMs now : Z) (w : row) : bool :=
  jeqb (w_kind w) (js "at") && match w_fired_ms w with Some f => f <? now - maxAgeMs | None => false end.
Definition pruneFired (maxAgeMs now : Z) (db : table) : Z * table :=
  let db1 := filter (fun w => pruned maxAgeMs now w = false) db in
  (Z.of_nat (length db - length db1), db1).

(** ** The runner *)

Definition ROUTINE_FAILURE_LIMIT : Z := 5.
Definition ONE_SHOT_RETRY_LIMIT : Z := 1.

Record RoutineTurnResult := mkTurnResult {
  tr_state : jstr;
  tr_error : option jstr }.

Definition place (origin : option RoutineOrigin) (fallback : jstr) : jstr :=
  match origin with
  | None => fallback
  | Some o => js "channel " ++ ro_channel o ++ js ", thread " ++ ro_threadTs o
  end.

Section Runner.
(** [toISOString], the local wall clock, and [Number] as [Cron] needs it. *)
Context (iso : Z -> jstr) (local : Z -> local_time) (other_number : jstr -> option Z).

Definition routinePrompt (r : Routine) (firedAt : Z) : jstr :=
  js "[Scheduled routine " ++ dq ++ r_name r ++ dq ++ js " fired at " ++ iso firedAt
  ++ js ". You are not talking to anyone: this turn was started by a schedule, and your reply text goes nowhere. Anything worth saying must go through your thicket Slack tools. Silence is the expected outcome most runs — if there is nothing new, post nothing.]"
  ++ [10%N; 10%N] ++ r_prompt r.

Definition oneShotPrompt (r : Routine) (firedAt : Z) : jstr :=
  js "[Scheduled reminder " ++ dq ++ r_name r ++ dq ++ js " fired at " ++ iso firedAt
  ++ js ". This turn was started by a schedule, not by a person: your reply text goes nowhere. You were asked, earlier in this same conversation, to come back now and do the following; report the result there with post_message ("
  ++ place (r_origin r) (js "the conversation where this was asked")
  ++ js ") — that thread is waiting to hear from you, so say something even if the answer is "
  ++ dq ++ js "nothing changed" ++ dq ++ js ".]" ++ [10%N; 10%N] ++ r_prompt r.

Definition disablementPrompt (r : Routine) (lastError : option jstr) : jstr :=
  js "[Routine " ++ dq ++ r_name r ++ dq ++ js " (" ++ r_id r ++ js ") has been disabled after "
  ++ show_Z ROUTINE_FAILURE_LIMIT ++ js " consecutive failing runs. Last error: "
  ++ default (js "unknown") lastError
  ++ js ". Tell the operator once, using post_message in the conversation where this routine's output was expected (or the most sensible one you can see). Include the routine id so it can be fixed and re-enabled.]".

Definition oneShotFailurePrompt (r : Routine) (lastError : option jstr) : jstr :=
  js "[Scheduled reminder " ++ dq ++ r_name r ++ dq ++ js " (" ++ r_id r
  ++ js ") could not be carried out: its run failed, and so did the retry. Last error: "
  ++ default (js "unknown") lastError
  ++ js ". It will not be tried again. Tell the person who asked, once, with post_message in "
  ++ place (r_origin r) (js "the conversation where it was asked")
  ++ js ": what you were meant to do, that it did not happen, and the error — so they can ask again or look into it.]".

(** Where a pass stands: at no turn, awaiting a routine's turn, or awaiting
    the turn that reports a failure. *)
Inductive pass_phase :=
| Scanning
| Running (r : Routine)
| Reporting (r : Routine).

(** A call of [tick]: its clock, the rows still to look at — read once, at
    its start — and where it stands. *)
Record pass := mkPass {
  ps_now : Z;
  ps_rest : list Routine;
  ps_phase : pass_phase }.

(** [rn_started] lists the turns handed to [runTurn], with the prompt. *)
Record runner := mkRunner {
  rn_db : table;
  rn_firedMinute : gmap jstr Z;
  rn_inFlight : gset jstr;
  rn_passes : gmap nat pass;
  rn_next : nat;
  rn_started : list (Routine * jstr);
  rn_log : list (jstr * jstr) }.

Definition new_runner (db : table) : runner := mkRunner db ∅ ∅ ∅ 0 [] [].

Definition set_db (db : table) (x : runner) : runner :=
  mkRunner db (rn_firedMinute x) (rn_inFlight x) (rn_passes x) (rn_next x) (rn_started x) (rn_log x).
Definition set_inFlight (s : gset jstr) (x : runner) : runner :=
  mkRunner (rn_db x) (rn_firedMinute x) s (rn_passes x) (rn_next x) (rn_started x) (rn_log x).
Definition set_firedMinute (m : gmap jstr Z) (x : runner) : runner :=
  mkRunner (rn_db x) m (rn_inFlight x) (rn_passes x) (rn_next x) (rn_started x) (rn_log x).
Definition set_passes (p : gmap nat pass) (x : runner) : runner :=
  mkRunner (rn_db x) (rn_firedMinute x) (rn_inFlight x) p (rn_next x) (rn_started x) (rn_log x).
Definition runTurn (r : Routine) (prompt : jstr) (x : runner) : runner :=
  mkRunner (rn_db x) (rn_firedMinute x) (rn_inFlight x) (rn_passes x) (rn_next x)
    (rn_started x ++ [(r, prompt)]) (rn_log x).
Definition log (message id : jstr) (x : runner) : runner :=
  mkRunner (rn_db x) (rn_firedMinute x) (rn_inFlight x) (rn_passes x) (rn_next x) (rn_started x)
    (rn_log x ++ [(message, id)]).

(** [run] and [runOneShot] up to the await of the turn. *)
Definition start_run (r : Routine) (now : Z) (x : runner) : runner :=
  match r_kind r with
  | KCron =>
      runTurn r (routinePrompt r now)
        (log (js "routine fired") (r_id r) (set_inFlight ({[r_id r]} ∪ rn_inFlight x) x))
  | KAt =>
      runTurn r (oneShotPrompt r now)
        (log (js "one-shot fired") (r_id r) (set_inFlight ({[r_id r]} ∪ rn_inFlight x) x))
  end.

Definition minute_of (now : Z) : Z := now / 60000.

(** Whether the loop of [tick] runs this row, and what it leaves behind if
    it does not. *)
Definition consider (r : Routine) (now : Z) (x : runner) : bool * runner :=
  if negb (r_enabled r) || bool_decide (r_id r ∈ rn_inFlight x) then (false, x) else
  match r_kind r with
  | KAt =>
      match r_firedMs r, r_atMs r with
      | None, Some t => (t <=? now, x)
      | _, _ => (false, x)
      end
  | KCron =>
      if bool_decide (rn_firedMinute x !! r_id r = Some (minute_of now)) then (false, x) else
      match parseCron other_number (r_cron r) with
      | None => (false, log (js "routine has unparseable cron; skipping") (r_id r) x)
      | Some spec =>
          if cronMatches spec (local now)
          then (true, set_firedMinute (<[r_id r := minute_of now]> (rn_firedMinute x)) x)
          else (false, x)
      end
  end.

(** A pass goes on until it awaits a turn or has seen every row. *)
Fixpoint scan (rows : list Routine) (now : Z) (k : nat) (x : runner) : runner :=
  match rows with
  | [] => set_passes (delete k (rn_passes x)) x
  | r :: rest =>
      match consider r now x with
      | (true, x1) =>
          let x2 := start_run r now x1 in
          set_passes (<[k := mkPass now rest (Running r)]> (rn_passes x2)) x2
      | (false, x1) => scan rest now k x1
      end
  end.

Definition tick (now : Z) (x : runner) : runner :=
  let k := rn_next x in
  scan (list_routines (rn_db x)) now k
    (mkRunner (rn_db x) (rn_firedMinute x) (rn_inFlight x) (rn_passes x) (S k) (rn_started x) (rn_log x)).

Definition failed_state (state : jstr) : bool :=
  negb (jeqb state (js "completed")) && negb (jeqb state (js "input-required")).

(** What [attempt] makes of the turn's answer, or of the error it threw. *)
Definition attempted (answer : RoutineTurnResult + jstr) : RoutineTurnResult :=
  match answer with inl r => r | inr err => mkTurnResult (js "failed") (Some err) end.

(** [finally]: the run is over, and the pass goes on. *)
Definition leave_run (r : Routine) (p : pass) (k : nat) (x : runner) : runner :=
  scan (ps_rest p) (ps_now p) k (set_inFlight (rn_inFlight x ∖ {[r_id r]}) x).

Definition await_report (r : Routine) (p : pass) (k : nat) (prompt : jstr) (x : runner) : runner :=
  let x1 := runTurn r prompt x in
  set_passes (<[k := mkPass (ps_now p) (ps_rest p) (Reporting r)]> (rn_passes x1)) x1.

(** The turn of a pass has ended: the rest of [run] or [runOneShot]. *)
Definition turn_ended (wall : Z) (answer : RoutineTurnResult + jstr) (r : Routine) (p : pass) (k : nat)
    (x : runner) : runner :=
  let result := attempted answer in
  let failed := failed_state (tr_state result) in
  let (failures, db1) := recordRun (r_id r) (tr_state result) failed wall (rn_db x) in
  let x1 := set_db db1 x in
  match r_kind r with
  | KCron =>
      let x2 := log (js "routine run finished") (r_id r) x1 in
      if failed && (ROUTINE_FAILURE_LIMIT <=? failures) then
        await_report r p k (disablementPrompt r (tr_error result))
          (log (js "routine disabled after consecutive failures") (r_id r)
             (set_db (disable (r_id r) (rn_db x2)) x2))
      else leave_run r p k x2
  | KAt =>
      let x2 := log (js "one-shot run finished") (r_id r) x1 in
      if negb failed then leave_run r p k (set_db (markFired (r_id r) (ps_now p) (rn_db x2)) x2)
      else if failures <=? ONE_SHOT_RETRY_LIMIT then leave_run r p k x2
      else
        await_report r p k (oneShotFailurePrompt r (tr_error result))
          (log (js "one-shot given up after retry") (r_id r)
             (set_db (markFired (r_id r) (ps_now p) (rn_db x2)) x2))
  end.

Definition report_ended (answer : RoutineTurnResult + jstr) (r : Routine) (p : pass) (k : nat) (x : runner)
  : runner :=
  leave_run r p k
    (match answer with
     | inl _ => x
     | inr _ => log (match r_kind r with
                     | KCron => js "disablement report failed"
                     | KAt => js "one-shot failure report failed"
                     end) (r_id r) x
     end).

(** ** Events: the timer, the end of an awaited turn, and the toolbelt's
    operations on the store. *)
Inductive revent :=
| RTick (now : Z)
| RTurn (k : nat) (wall : Z) (answer : RoutineTurnResult + jstr)
| RStore (db : table).

Definition rstep (e : revent) (x : runner) : option runner :=
  match e with
  | RTick now => Some (tick now x)
  | RTurn k wall answer =>
      p ← rn_passes x !! k;
      match ps_phase p with
      | Running r => Some (turn_ended wall answer r p k x)
      | Reporting r => Some (report_ended answer r p k x)
      | Scanning => None
      end
  | RStore db => Some (set_db db x)
  end.

Fixpoint rplay (es : list revent) (x : runner) : option runner :=
  match es with
  | [] => Some x
  | e :: rest => x1 ← rstep e x; rplay rest x1
  end.
End Runner.
