(* ===== verification/RoutineRuns.v ===== *)
(** What the routine runner of [Routines] guarantees over any interleaving
    of its passes, turns and store operations: a routine never overlaps with
    itself, a one-shot is bounded in the turns it may start while passes do
    not overlap, and what a pass does with rows it read long before. *)

From S2P Require Import Prelude Cron Routines.
#[local] Open Scope Z_scope.

(** The routine whose turn a pass is waiting for. *)
Definition waits_for (p : pass) : option jstr :=
  match ps_phase p with Scanning => None | Running r | Reporting r => Some (r_id r) end.

Section Runs.
Context (iso : Z -> jstr) (local : Z -> local_time) (other_number : jstr -> option Z).
#[local] Abbreviation scan := (scan iso local other_number).
#[local] Abbreviation rstep := (rstep iso local other_number).
#[local] Abbreviation rplay := (rplay iso local other_number).

(** ** A routine never overlaps with itself *)

(** [inFlight] is exactly what the passes wait for, and no two passes wait
    for the same routine; [skip] is the pass that is being advanced. *)
Record exclusive (skip : option nat) (x : runner) : Prop := mkExclusive {
  ex_busy k p : Some k <> skip -> rn_passes x !! k = Some p -> is_Some (waits_for p);
  ex_flight id : id ∈ rn_inFlight x <->
    exists k p, Some k <> skip /\ rn_passes x !! k = Some p /\ waits_for p = Some id;
  ex_unique k1 k2 p1 p2 id : Some k1 <> skip -> Some k2 <> skip ->
    rn_passes x !! k1 = Some p1 -> rn_passes x !! k2 = Some p2 ->
    waits_for p1 = Some id -> waits_for p2 = Some id -> k1 = k2;
  ex_next k : is_Some (rn_passes x !! k) -> (k < rn_next x)%nat }.

(** Only the two tables and the counter matter to it. *)
Lemma exclusive_ext skip x y :
  rn_passes x = rn_passes y -> rn_inFlight x = rn_inFlight y -> rn_next x = rn_next y ->
  exclusive skip x -> exclusive skip y.
Proof. intros Ep Ef En [A B C D]. split; rewrite <- ?Ep, <- ?Ef, <- ?En; done. Qed.

(** A pass that has seen every row is gone. *)
Lemma exclusive_done k x :
  exclusive (Some k) x -> exclusive None (set_passes (delete k (rn_passes x)) x).
Proof.
  intros [A B C D]. split; simpl.
  - intros j p _ Hj. apply lookup_delete_Some in Hj as [Hne Hj]. apply (A j); [congruence|done].
  - intros id. rewrite B. split; intros (j & p & Hs & Hj & Hb); exists j, p.
    + rewrite lookup_delete_ne by congruence. done.
    + apply lookup_delete_Some in Hj as [Hne Hj]. split_and!; [congruence|done|done].
  - intros j1 j2 p1 p2 id _ _ H1 H2. apply lookup_delete_Some in H1 as [N1 H1].
    apply lookup_delete_Some in H2 as [N2 H2]. apply C; congruence.
  - intros j [p Hj]. apply lookup_delete_Some in Hj as [_ Hj]. apply D. by exists p.
Qed.

(** A pass that starts waiting for a routine nobody waits for. *)
Lemma exclusive_await k p id x :
  exclusive (Some k) x -> (k < rn_next x)%nat -> waits_for p = Some id -> id ∉ rn_inFlight x ->
  exclusive None (set_passes (<[k := p]> (rn_passes x)) (set_inFlight ({[id]} ∪ rn_inFlight x) x)).
Proof.
  intros [A B C D] Hk Hp Hid.
  assert (Hother : forall j q, rn_passes x !! j = Some q -> j <> k -> waits_for q <> Some id).
  { intros j q Hj Hne Hq. apply Hid, B. exists j, q. split_and!; [congruence|done|done]. }
  split; simpl.
  - intros j q _ Hj. destruct (decide (j = k)) as [->|Hne].
    + rewrite lookup_insert_eq in Hj. simplify_eq. by exists id.
    + rewrite lookup_insert_ne in Hj by done. apply (A j); [congruence|done].
  - intros id'. rewrite elem_of_union, elem_of_singleton, B. split.
    + intros [-> | (j & q & Hs & Hj & Hq)].
      * exists k, p. by rewrite lookup_insert_eq.
      * exists j, q. rewrite lookup_insert_ne by congruence. done.
    + intros (j & q & _ & Hj & Hq). destruct (decide (j = k)) as [->|Hne].
      * rewrite lookup_insert_eq in Hj. left. congruence.
      * rewrite lookup_insert_ne in Hj by done. right. exists j, q. split; [congruence|done].
  - intros j1 j2 p1 p2 id' _ _ H1 H2 Hb1 Hb2.
    destruct (decide (j1 = k)) as [->|N1], (decide (j2 = k)) as [->|N2]; [done| | |].
    + rewrite lookup_insert_eq in H1. rewrite lookup_insert_ne in H2 by done.
      exfalso. apply (Hother j2 p2 H2 N2). congruence.
    + rewrite lookup_insert_eq in H2. rewrite lookup_insert_ne in H1 by done.
      exfalso. apply (Hother j1 p1 H1 N1). congruence.
    + rewrite lookup_insert_ne in H1, H2 by done. apply (C j1 j2 p1 p2 id'); congruence.
  - intros j Hj. destruct (decide (j = k)) as [->|Hne]; [done|].
    rewrite lookup_insert_ne in Hj by done. by apply D.
Qed.

Lemma consider_same r now x b x' :
  consider local other_number r now x = (b, x') ->
  rn_passes x' = rn_passes x /\ rn_inFlight x' = rn_inFlight x /\ rn_next x' = rn_next x
  /\ rn_db x' = rn_db x /\ rn_started x' = rn_started x.
Proof.
  unfold consider. intros H. repeat case_match; simplify_eq; simpl; split_and!; try done; congruence.
Qed.

Lemma consider_free r now x x' :
  consider local other_number r now x = (true, x') -> (r_id r ∉ rn_inFlight x) /\ r_enabled r = true.
Proof.
  unfold consider. destruct (negb (r_enabled r) || _) eqn:E; [done|]. intros _.
  apply orb_false_iff in E as [E1 E2]. apply negb_false_iff in E1.
  by apply bool_decide_eq_false in E2.
Qed.

Lemma start_run_eq r now x :
  rn_passes (start_run iso r now x) = rn_passes x /\
  rn_inFlight (start_run iso r now x) = ({[r_id r]} ∪ rn_inFlight x) /\
  rn_next (start_run iso r now x) = rn_next x /\ rn_db (start_run iso r now x) = rn_db x /\
  exists prompt, rn_started (start_run iso r now x) = rn_started x ++ [(r, prompt)].
Proof. unfold start_run. destruct (r_kind r); simpl; split_and!; eauto. Qed.

Lemma scan_exclusive rows now k x :
  exclusive (Some k) x -> (k < rn_next x)%nat -> exclusive None (scan rows now k x).
Proof.
  revert x; induction rows as [|r rest IH]; intros x Hx Hk; simpl.
  - by apply exclusive_done.
  - destruct (consider local other_number r now x) as [b x1] eqn:E.
    destruct (consider_same _ _ _ _ _ E) as (Ep & Ef & En & _ & _).
    assert (Hx1 : exclusive (Some k) x1) by (by eapply exclusive_ext; [..|exact Hx]).
    rewrite <- En in Hk. destruct b; [|by apply IH].
    destruct (start_run_eq r now x1) as (Sp & Sf & Sn & _).
    eapply exclusive_ext; [..|apply (exclusive_await k (mkPass now rest (Running r)) (r_id r) x1)];
      simpl; try done; try congruence.
    rewrite Ef. by apply consider_free in E as [? _].
Qed.

(** The pass whose awaited turn ended leaves [inFlight] and is advanced. *)
Lemma exclusive_release k p r x :
  exclusive None x -> rn_passes x !! k = Some p -> waits_for p = Some (r_id r) ->
  exclusive (Some k) (set_inFlight (rn_inFlight x ∖ {[r_id r]}) x).
Proof.
  intros [A B C D] Hk Hp. split; simpl.
  - intros j q _. by apply A.
  - intros id. rewrite elem_of_difference, elem_of_singleton, B. split.
    + intros [(j & q & _ & Hj & Hq) Hne]. exists j, q. split_and!; [|done|done]. congruence.
    + intros (j & q & Hs & Hj & Hq). split; [by exists j, q|]. intros ->.
      apply Hs. f_equal. by apply (C j k q p (r_id r)).
  - intros j1 j2 p1 p2 id _ _. by apply C.
  - exact D.
Qed.

Lemma leave_exclusive k p r x :
  exclusive None x -> rn_passes x !! k = Some p -> waits_for p = Some (r_id r) ->
  exclusive None (leave_run iso local other_number r p k x).
Proof.
  intros Hx Hk Hp. apply scan_exclusive; [by apply exclusive_release with p|].
  simpl. apply (ex_next _ _ Hx). by exists p.
Qed.

(** Turning from a run to the report of its failure keeps the routine. *)
Lemma report_exclusive k p r prompt x :
  exclusive None x -> rn_passes x !! k = Some p -> waits_for p = Some (r_id r) ->
  exclusive None (await_report r p k prompt x).
Proof.
  intros Hx Hk Hp. unfold await_report.
  eapply exclusive_ext; [..|apply (exclusive_await k (mkPass (ps_now p) (ps_rest p) (Reporting r)) (r_id r))];
    [| | |by apply exclusive_release with p|..]; simpl; try done.
  - apply set_eq. intros id. rewrite elem_of_union, elem_of_difference, elem_of_singleton.
    assert (r_id r ∈ rn_inFlight x) by (apply (ex_flight _ _ Hx); by exists k, p).
    destruct (decide (id = r_id r)) as [->|]; tauto.
  - apply (ex_next _ _ Hx). by exists p.
  - set_solver.
Qed.

Lemma rstep_exclusive e x x' : rstep e x = Some x' -> exclusive None x -> exclusive None x'.
Proof.
  intros H Hx. destruct e as [now|k wall answer|db]; simpl in H.
  - injection H as <-. unfold tick. apply scan_exclusive; simpl; [|lia].
    destruct Hx as [A B C D]. split; simpl.
    + intros j p _. by apply A.
    + intros id. rewrite B. split; intros (j & p & Hs & Hj & Hb); exists j, p; split_and!; try done.
      intros [= ->]. assert (rn_next x < rn_next x)%nat by (apply D; by exists p). lia.
    + intros j1 j2 p1 p2 id _ _. by apply C.
    + intros j Hj. apply D in Hj. lia.
  - destruct (rn_passes x !! k) as [p|] eqn:Ek; simpl in H; [|done].
    assert (Hdb : forall db, exclusive None (set_db db x)) by (intros db; by eapply exclusive_ext; [..|exact Hx]).
    destruct (ps_phase p) as [|r|r] eqn:Eph; [done| |]; injection H as <-;
      assert (Hb : waits_for p = Some (r_id r)) by (unfold waits_for; by rewrite Eph).
    + unfold turn_ended. destruct (recordRun _ _ _ _ _) as [failures db1].
      repeat case_match; (apply leave_exclusive || apply report_exclusive); simpl; try done;
        by eapply exclusive_ext; [..|exact Hx].
    + unfold report_ended. apply leave_exclusive; [|by destruct answer|done].
      destruct answer; [done|by eapply exclusive_ext; [..|exact Hx]].
  - injection H as <-. by eapply exclusive_ext; [..|exact Hx].
Qed.

Lemma rplay_exclusive es x x' : rplay es x = Some x' -> exclusive None x -> exclusive None x'.
Proof.
  revert x; induction es as [|e es IH]; intros x H Hx; simpl in H; [by simplify_eq|].
  destruct (rstep e x) as [x1|] eqn:E; simpl in H; [|done].
  apply (IH x1 H). by apply (rstep_exclusive _ _ _ E).
Qed.

Lemma new_exclusive db : exclusive None (new_runner db).
Proof.
  split; simpl; try done.
  - intros id. split; [set_solver|]. by intros (k & p & _ & H & _).
  - intros k [p H]. done.
Qed.

(** C34: a routine never overlaps with itself. However the timer's passes,
    the ends of turns and the toolbelt's changes of the store interleave,
    [inFlight] holds exactly the routines whose run, or whose failure
    report, some pass is waiting for, every pass waits for one, and no two
    passes wait for the same routine. *)
Theorem routine_never_overlaps db es x :
  rplay es (new_runner db) = Some x ->
  (forall id, id ∈ rn_inFlight x <-> exists k p, rn_passes x !! k = Some p /\ waits_for p = Some id) /\
  (forall k p, rn_passes x !! k = Some p -> is_Some (waits_for p)) /\
  (forall k1 k2 p1 p2 id, rn_passes x !! k1 = Some p1 -> rn_passes x !! k2 = Some p2 ->
     waits_for p1 = Some id -> waits_for p2 = Some id -> k1 = k2).
Proof.
  intros H. destruct (rplay_exclusive _ _ _ H (new_exclusive db)) as [A B C _]. split_and!.
  - intros id. rewrite B. split; [intros (k & p & _ & ?)|intros (k & p & ?)]; eauto.
  - intros k p. by apply A.
  - intros k1 k2 p1 p2 id. by apply C.
Qed.
(** ** A one-shot is bounded in the turns it starts *)

Section OneShot.
Context (id : jstr).

(** Passes that do not overlap — the next begins when none is in progress —
    and a store whose row [id] only the runner changes. *)
Fixpoint serial (es : list revent) (x : runner) : Prop :=
  match es with
  | [] => True
  | e :: rest =>
      match e with
      | RTick _ => rn_passes x = ∅
      | RStore db => find_row id db = find_row id (rn_db x) /\ NoDup (w_id <$> db)
      | RTurn _ _ _ => True
      end /\ match rstep e x with Some x1 => serial rest x1 | None => True end
  end.

(** The turns handed out for the one-shot so far. *)
Definition turns (x : runner) : nat := length (filter (fun s => r_id s.1 = id) (rn_started x)).

(** Turns against the row: one per failure, and the one under way. *)
Definition account (running : bool) (w : row) (n : nat) : Prop :=
  match w_fired_ms w with
  | Some _ => running = false /\ (n <= 3)%nat
  | None => Z.of_nat n = w_consecutive_failures w + (if running then 1 else 0)
            /\ 0 <= w_consecutive_failures w <= ONE_SHOT_RETRY_LIMIT
  end.

Definition fresh_rest (w : row) (rest : list Routine) : Prop :=
  NoDup (r_id <$> rest) /\ forall r, r ∈ rest -> r_id r = id -> r = toRoutine w.

Definition pass_ok (w : row) (p : pass) (n : nat) : Prop :=
  fresh_rest w (ps_rest p) /\
  (waits_for p = Some id -> id ∉ r_id <$> ps_rest p) /\
  match ps_phase p with
  | Running r => if decide (r_id r = id) then r_kind r = KAt /\ account true w n else account false w n
  | _ => account false w n
  end.

Definition pending_ok (w : row) (x : runner) : Prop :=
  rn_passes x = ∅ /\ account false w (turns x)
  \/ exists k p, rn_passes x = {[k := p]} /\ pass_ok w p (turns x).

Definition one_shot_ok (x : runner) : Prop :=
  NoDup (w_id <$> rn_db x) /\
  exists w, find_row id (rn_db x) = Some w /\ w_kind w = js "at" /\ pending_ok w x.

Lemma find_row_cons i v db : find_row i (v :: db) = if decide (w_id v = i) then Some v else find_row i db.
Proof.
  unfold find_row. simpl. case_decide; [done|]. by destruct (list_find _ db) as [[j u]|].
Qed.

Lemma find_row_Some i db w : NoDup (w_id <$> db) -> w ∈ db -> w_id w = i -> find_row i db = Some w.
Proof.
  induction db as [|v db IH]; intros Hnd Hw Hi; [by apply elem_of_nil in Hw|].
  apply NoDup_cons in Hnd as [Hv Hnd]. rewrite find_row_cons.
  apply elem_of_cons in Hw as [->|Hw]; [by rewrite decide_True|].
  rewrite decide_False by (intros Hd; apply Hv; rewrite Hd, <- Hi; by apply list_elem_of_fmap_2). by apply IH.
Qed.

Lemma update_where_ids i f db : (forall w, w_id (f w) = w_id w) -> w_id <$> update_where i f db = w_id <$> db.
Proof.
  intros Hf. unfold update_where. rewrite <- list_fmap_compose. apply list_fmap_ext. intros _ w _. simpl.
  by destruct (jeqb (w_id w) i).
Qed.

Lemma find_row_update i j f db :
  (forall w, w_id (f w) = w_id w) ->
  find_row i (update_where j f db) = (if decide (i = j) then f <$> find_row i db else find_row i db).
Proof.
  intros Hf. unfold update_where. induction db as [|v db IH]; [by case_decide|].
  rewrite fmap_cons, !find_row_cons, IH.
  assert (Hid : w_id (if jeqb (w_id v) j then f v else v) = w_id v) by (destruct (jeqb _ _); [apply Hf|done]).
  rewrite Hid. destruct (decide (w_id v = i)) as [<-|Hne]; [|done].
  unfold jeqb. case_bool_decide; case_decide; (done || congruence).
Qed.

Lemma insert_by_created_perm w l : insert_by_created w l ≡ₚ w :: l.
Proof.
  induction l as [|v l IH]; simpl; [done|]. destruct (_ <? _); [done|]. rewrite IH. constructor.
Qed.

Lemma by_created_perm db : by_created db ≡ₚ db.
Proof.
  unfold by_created. cut (forall l, fold_left (fun l w => insert_by_created w l) db l ≡ₚ l ++ db).
  { intros H. apply (H []). }
  induction db as [|w db IH]; intros l; simpl; [by rewrite app_nil_r|].
  rewrite IH, insert_by_created_perm. simpl. by rewrite Permutation_middle.
Qed.

Lemma list_routines_fresh db w :
  NoDup (w_id <$> db) -> find_row id db = Some w -> fresh_rest w (list_routines db).
Proof.
  intros Hnd Hw. unfold list_routines. split.
  - rewrite <- list_fmap_compose. change (r_id ∘ toRoutine) with w_id.
    by rewrite by_created_perm.
  - intros r (v & -> & Hv)%list_elem_of_fmap Hr. rewrite by_created_perm in Hv.
    rewrite (find_row_Some id db v Hnd Hv Hr) in Hw. congruence.
Qed.

Lemma turns_app x y r s :
  rn_started y = rn_started x ++ [(r, s)] -> turns y = (turns x + (if decide (r_id r = id) then 1 else 0))%nat.
Proof.
  intros H. unfold turns. rewrite H, filter_app, length_app, filter_cons. simpl.
  by case_decide.
Qed.

Lemma turns_same x y : rn_started y = rn_started x -> turns y = turns x.
Proof. unfold turns. by intros ->. Qed.

Lemma scan_one_shot w rows now k x :
  NoDup (w_id <$> rn_db x) -> find_row id (rn_db x) = Some w -> w_kind w = js "at" ->
  fresh_rest w rows -> account false w (turns x) ->
  (rn_passes x = ∅ \/ exists p, rn_passes x = {[k := p]}) -> one_shot_ok (scan rows now k x).
Proof.
  intros Hnd Hw Hat. revert x Hnd Hw; induction rows as [|r rest IH]; intros x Hnd Hw Hrows Hacc Hpass; simpl.
  - split; [done|]. exists w. split_and!; [done|done|]. left. simpl. split; [|done].
    destruct Hpass as [-> | [p ->]]; [apply delete_empty|apply delete_singleton_eq].
  - destruct (consider local other_number r now x) as [b x1] eqn:E.
    destruct (consider_same _ _ _ _ _ E) as (Ep & _ & _ & Ed & Es).
    pose proof (turns_same _ _ Es) as Et.
    destruct Hrows as [Hn Hr]. simpl in Hn. apply NoDup_cons in Hn as [Hr0 Hn].
    assert (Hrest : fresh_rest w rest) by (split; [done|intros r' Hr'; apply Hr; by right]).
    destruct b; [|apply IH; rewrite ?Ed, ?Et, ?Ep; done].
    destruct (start_run_eq r now x1) as (Sp & _ & _ & Sd & prompt & Ss).
    pose proof (turns_app _ _ _ _ Ss) as St.
    split; simpl; [by rewrite Sd, Ed|]. exists w. rewrite Sd, Ed. split_and!; [done|done|]. right.
    exists k, (mkPass now rest (Running r)). simpl. rewrite Sp, Ep. split.
    { destruct Hpass as [-> | [p ->]]; [done|apply insert_singleton_eq]. }
    rewrite (turns_same (start_run iso r now x1)) by done. rewrite St, Et.
    split_and!; [done|by intros [= <-]|]. simpl. case_decide as Hid; [|by rewrite Nat.add_0_r].
    assert (r = toRoutine w) as -> by (apply Hr; [by left|done]).
    assert (HK : r_kind (toRoutine w) = KAt) by (simpl; by rewrite Hat).
    split; [done|]. unfold consider in E. rewrite HK in E. unfold account in *. simpl in E.
    destruct (w_fired_ms w); [by repeat case_match|]. lia.
Qed.

Lemma fresh_other w w' rest : fresh_rest w rest -> id ∉ r_id <$> rest -> fresh_rest w' rest.
Proof. intros [Hn _] Hid. split; [done|]. intros r Hr E. exfalso. apply Hid. rewrite <- E. by apply list_elem_of_fmap_2. Qed.

Lemma leave_one_shot w r p k x :
  NoDup (w_id <$> rn_db x) -> find_row id (rn_db x) = Some w -> w_kind w = js "at" ->
  fresh_rest w (ps_rest p) -> account false w (turns x) -> rn_passes x = {[k := p]} ->
  one_shot_ok (leave_run iso local other_number r p k x).
Proof. intros. apply (scan_one_shot w); simpl; eauto. Qed.

Lemma await_one_shot w r p k prompt x :
  NoDup (w_id <$> rn_db x) -> find_row id (rn_db x) = Some w -> w_kind w = js "at" ->
  fresh_rest w (ps_rest p) -> (r_id r = id -> id ∉ r_id <$> ps_rest p) ->
  account false w (turns x + (if decide (r_id r = id) then 1 else 0)) -> rn_passes x = {[k := p]} ->
  one_shot_ok (await_report r p k prompt x).
Proof.
  intros Hnd Hw Hat Hrest Hid Hacc Hp. split; [done|]. exists w. split_and!; [done|done|]. right.
  exists k, (mkPass (ps_now p) (ps_rest p) (Reporting r)). split; [simpl; by rewrite Hp, insert_singleton_eq|].
  split_and!; [done|by intros [= ?]; apply Hid|]. simpl.
  by rewrite (turns_app x _ r prompt) by done.
Qed.

(** What the store operations of a run make of the rows. *)
Lemma recordRun_eq i outcome failed wall db :
  recordRun i outcome failed wall db =
    (match find_row i db with Some w => if failed then w_consecutive_failures w + 1 else 0 | None => 0 end,
     update_where i (fun w => set_run wall outcome (if failed then w_consecutive_failures w + 1 else 0) w) db).
Proof.
  unfold recordRun, get. rewrite find_row_update, decide_True by done. by destruct (find_row i db).
Qed.

Ltac rows := simpl; unfold disable, markFired; rewrite ?update_where_ids by done;
  rewrite ?find_row_update by done; repeat (rewrite decide_False by congruence);
  repeat (rewrite decide_True by congruence).

Lemma turn_ended_one_shot wall answer r p k x w :
  NoDup (w_id <$> rn_db x) -> find_row id (rn_db x) = Some w -> w_kind w = js "at" ->
  rn_passes x = {[k := p]} -> ps_phase p = Running r -> pass_ok w p (turns x) ->
  one_shot_ok (turn_ended iso local other_number wall answer r p k x).
Proof.
  intros Hnd Hw Hat Hp Eph (Hrest & Hid & Hacc). rewrite Eph in Hacc. unfold turn_ended.
  rewrite recordRun_eq. set (failed := failed_state _). clearbody failed.
  unfold waits_for in Hid. rewrite Eph in Hid. destruct (decide (r_id r = id)) as [E|Hne].
  - destruct Hacc as [-> Hacc]. rewrite E, Hw. specialize (Hid (f_equal Some E)).
    unfold account in Hacc. destruct (w_fired_ms w) eqn:Ef; [by destruct Hacc|]. destruct Hacc as [Hn Hf].
    unfold ONE_SHOT_RETRY_LIMIT in *. destruct failed; simpl.
    + case_match eqn:Hle; [apply (leave_one_shot (set_run wall (tr_state (attempted answer)) (w_consecutive_failures w + 1) w))
        |eapply await_one_shot]; rows; rewrite ?Hw; try done.
      * by apply (fresh_other w).
      * unfold account. simpl. rewrite Ef. cbn. unfold ONE_SHOT_RETRY_LIMIT. unfold turns in *. simpl. lia.
      * by apply (fresh_other w).
      * unfold account. simpl. unfold turns in *. simpl. lia.
    + eapply leave_one_shot; rows; rewrite ?Hw; try done; [by apply (fresh_other w)|].
      unfold account. simpl. unfold turns in *. simpl. lia.
  - repeat case_match; try (apply (leave_one_shot w)); try (apply (await_one_shot w)); rows; try done.
    all: unfold turns in *; simpl; by rewrite Nat.add_0_r.
Qed.

Lemma rstep_one_shot e x x' :
  rstep e x = Some x' ->
  match e with
  | RTick _ => rn_passes x = ∅
  | RStore db => find_row id db = find_row id (rn_db x) /\ NoDup (w_id <$> db)
  | RTurn _ _ _ => True
  end -> one_shot_ok x -> one_shot_ok x'.
Proof.
  intros H Hs (Hnd & w & Hw & Hat & Hpend). destruct e as [now|k wall answer|db]; simpl in H.
  - injection H as <-. destruct Hpend as [[_ Hacc]|(k & p & Hk & _)].
    + apply (scan_one_shot w); simpl; try done; [by apply list_routines_fresh|]. by left.
    + rewrite Hs in Hk. symmetry in Hk. by apply map_non_empty_singleton in Hk.
  - destruct (rn_passes x !! k) as [p|] eqn:Ek; simpl in H; [|done].
    destruct Hpend as [[Hk _]|(k' & p' & Hk & Hok)]; [by rewrite Hk in Ek|].
    rewrite Hk in Ek. apply lookup_singleton_Some in Ek as [-> ->].
    destruct (ps_phase p) as [|r|r] eqn:Eph; [done| |]; injection H as <-.
    + by apply (turn_ended_one_shot wall answer r p k x w).
    + destruct Hok as (Hrest & Hid & Hacc). rewrite Eph in Hacc. unfold report_ended.
      apply (leave_one_shot w); destruct answer; done.
  - injection H as <-. destruct Hs as [Hsame Hnd']. split; [done|]. exists w. simpl. rewrite Hsame. done.
Qed.

Lemma rplay_one_shot es x x' : rplay es x = Some x' -> serial es x -> one_shot_ok x -> one_shot_ok x'.
Proof.
  revert x; induction es as [|e es IH]; intros x H Hs Hx; simpl in H, Hs; [by simplify_eq|].
  destruct Hs as [He Hs]. destruct (rstep e x) as [x1|] eqn:E; simpl in H; [|done].
  apply (IH x1 H Hs). by apply (rstep_one_shot e x x1 E).
Qed.

Lemma createOneShot_find name atMs prompt origin now db db' :
  createOneShot id name atMs prompt origin now db = Some db' -> NoDup (w_id <$> db) ->
  NoDup (w_id <$> db') /\ exists w, find_row id db' = Some w /\ w_kind w = js "at"
    /\ w_fired_ms w = None /\ w_consecutive_failures w = 0.
Proof.
  unfold createOneShot, insert_row. simpl. intros H Hnd. destruct (find_row id db) eqn:E; simplify_eq.
  assert (Hid : id ∉ w_id <$> db).
  { intros (w & -> & Hw)%list_elem_of_fmap. by rewrite (find_row_Some (w_id w) db w) in E. }
  assert (Hnd' : forall w, w_id w = id -> NoDup (w_id <$> db ++ [w])).
  { intros w Hwid. rewrite fmap_app. apply NoDup_app. split_and!; [done| |apply NoDup_singleton].
    intros y Hy Hin%list_elem_of_singleton. apply Hid. by rewrite <- Hwid, <- Hin. }
  split; [by apply Hnd'|]. eexists. split; [apply find_row_Some; [by apply Hnd'|apply elem_of_app; right; by left|done]|].
  done.
Qed.

(** A one-shot is given up after its retry. From its creation on, with
    passes that do not overlap and a row only the runner changes, a one-shot
    starts at most three turns — its run, one retry and the report of the
    second failure — and while it is not spent it has started one turn for
    each recorded failure, of which there is at most one, plus the one under
    way. *)
Theorem one_shot_bounded name atMs prompt origin now db db' es x :
  NoDup (w_id <$> db) -> createOneShot id name atMs prompt origin now db = Some db' ->
  serial es (new_runner db') -> rplay es (new_runner db') = Some x ->
  exists r, get id (rn_db x) = Some r /\ (turns x <= 3)%nat /\
    (r_firedMs r = None -> (turns x <= 2)%nat /\ 0 <= r_consecutiveFailures r <= ONE_SHOT_RETRY_LIMIT
       /\ Z.of_nat (turns x) <= r_consecutiveFailures r + 1).
Proof.
  intros Hnd Hc Hs Hp. destruct (createOneShot_find _ _ _ _ _ _ _ Hc Hnd) as (Hnd' & w0 & Hw0 & Hat0 & Hf0 & Hc0).
  assert (H0 : one_shot_ok (new_runner db')).
  { split; [done|]. exists w0. split_and!; [done|done|]. left. split; [done|].
    unfold account. rewrite Hf0, Hc0. done. }
  destruct (rplay_one_shot _ _ _ Hp Hs H0) as (_ & w & Hw & Hat & Hpend). exists (toRoutine w).
  unfold get. rewrite Hw. split; [done|]. simpl. unfold ONE_SHOT_RETRY_LIMIT.
  assert (Hacc : exists b, account b w (turns x)).
  { destruct Hpend as [[_ ?]|(k & p & _ & _ & _ & H)]; [by eexists|].
    destruct (ps_phase p); [by eexists| |by eexists]. case_decide; [destruct H|]; by eexists. }
  destruct Hacc as [b Hacc]. unfold account, ONE_SHOT_RETRY_LIMIT in Hacc.
  destruct (w_fired_ms w); [by destruct Hacc|]. destruct b; split_and!; lia.
Qed.
End OneShot.
End Runs.

(** ** Concrete schedules *)

Definition some_time : local_time := mkLocal 0 9 1 5 1.
Definition hourly_id : jstr := js "r1".
Definition check_id : jstr := js "r2".
Definition asked_in : RoutineOrigin := mkOrigin (js "C1") (js "1.0") (js "ctx").

(** A cron routine that fires every minute, and a one-shot due at 500. *)
Definition table_before : table :=
  default [] (create hourly_id (js "watch") (js "* * * * *") (js "look around") 0 []).
Definition table_of_two : table :=
  default [] (createOneShot check_id (js "check") 500 (js "is it done?") asked_in 1 table_before).

Abbreviation done_turn := (inl (mkTurnResult (js "completed") None)).
Abbreviation failed_turn := (inl (mkTurnResult (js "failed") None)).
Abbreviation run_two es := (rplay (fun _ => []) (fun _ => some_time) (fun _ => None) es (new_runner table_of_two)).

Definition after (es : list revent) : runner := default (new_runner []) (run_two es).
Lemma after_run es : present (run_two es) = true -> run_two es = Some (after es).
Proof. apply some_default. Qed.

Lemma routine_never_overlaps_witness :
  (forall id, id ∈ rn_inFlight (after [RTick 1000; RTick 21000]) <->
     exists k p, rn_passes (after [RTick 1000; RTick 21000]) !! k = Some p /\ waits_for p = Some id) /\
  bool_decide (rn_inFlight (after [RTick 1000; RTick 21000]) = {[hourly_id; check_id]}) = true.
Proof.
  split; [|evaluated].
  refine (proj1 (routine_never_overlaps _ _ _ table_of_two [RTick 1000; RTick 21000] _ _)).
  apply after_run. evaluated.
Defined.

(** The run fails, its retry too, and the report goes out. *)
Definition given_up : list revent :=
  [RTick 1000; RTurn 0 1100 done_turn; RTurn 0 1200 failed_turn;
   RTick 21000; RTurn 1 21100 failed_turn; RTurn 1 21200 done_turn].

Lemma one_shot_bounded_witness :
  (exists r, get check_id (rn_db (after given_up)) = Some r /\ (turns check_id (after given_up) <= 3)%nat) /\
  turns check_id (after given_up) = 3%nat.
Proof.
  split; [|evaluated].
  destruct (one_shot_bounded (fun _ => []) (fun _ => some_time) (fun _ => None) check_id (js "check") 500
              (js "is it done?") asked_in 1 table_before table_of_two given_up (after given_up))
    as (r & Hr & Ht & _).
  - apply NoDup_singleton.
  - evaluated.
  - vm_compute. repeat split.
  - apply after_run. evaluated.
  - by exists r.
Defined.

Definition slow_pass : list revent := [RTick 1000; RTick 21000; RTurn 1 22000 done_turn].
Definition then_removed : list revent :=
  slow_pass ++ [RStore (snd (remove check_id (rn_db (after slow_pass))))].

(** A pass that has waited works from rows it read before. The cron
    routine's turn of one pass lasts while a second pass runs the one-shot to
    completion and marks it fired, and while the row is then removed; the
    first pass fires the one-shot again. *)
Theorem one_shot_fires_after_removal :
  match get check_id (rn_db (after slow_pass)) with
  | Some r => r_firedMs r = Some 21000 /\ r_lastOutcome r = Some (js "completed")
  | None => False
  end /\
  run_two then_removed = Some (after then_removed) /\
  get check_id (rn_db (after then_removed)) = None /\ turns check_id (after then_removed) = 1%nat /\
  run_two (then_removed ++ [RTurn 0 60000 done_turn]) = Some (after (then_removed ++ [RTurn 0 60000 done_turn])) /\
  turns check_id (after (then_removed ++ [RTurn 0 60000 done_turn])) = 2%nat.
Proof.
  split; [vm_compute; split; reflexivity|].
  split_and!; try apply after_run; evaluated.
Qed.
