(* ===== verification/Markdown.v ===== *)
(** [apps/discord/src/markdown.ts]: splitting a long answer into messages
    that each stand alone as Markdown. A string is its list of UTF-16 code
    units, as everywhere; [10] is the newline, [32] the space, [96] the
    backtick and [126] the tilde. *)

From S2P Require Import Prelude.

(** ** Fences *)

Record Fence := mkFence {
  f_marker : jstr;
  f_info : jstr }.
#[export] Instance Fence_eq_dec : EqDecision Fence.
Proof. solve_decision. Defined.

Record Cursor := mkCursor {
  cu_fence : option Fence;
  cu_partial : jstr }.

Definition START : Cursor := mkCursor None [].

Definition reopen (cursor : Cursor) : jstr :=
  match cu_fence cursor with None => [] | Some f => f_marker f ++ f_info f ++ [10%N] end.

Definition closer (fence : Fence) : jstr := 10%N :: f_marker fence.

(** What [.] does not match and a multi-line [^] matches after. *)
Definition line_terminator (c : N) : bool :=
  ((c =? 10) || (c =? 13) || (c =? 8232) || (c =? 8233))%N.

(** Up to [n] leading spaces dropped. *)
Fixpoint strip_spaces (n : nat) (s : jstr) : jstr :=
  match n, s with
  | S k, c :: t => if (c =? 32)%N then strip_spaces k t else s
  | _, _ => s
  end.

(** The run of backticks or tildes that opens the string. *)
Definition fence_char (c : N) : bool := ((c =? 96) || (c =? 126))%N.
Definition run_of (s : jstr) : jstr :=
  match s with
  | c :: _ => if fence_char c then take_while (fun d => d =? c)%N s else []
  | [] => []
  end.

(** [FENCE_LINE]: up to three spaces, the run, and whatever [.] matches up
    to the end of the string. *)
Definition fenceLine (line : jstr) : option Fence :=
  let body := strip_spaces 3 line in
  let run := run_of body in
  let rest := drop (length run) body in
  if (3 <=? length run)%nat && negb (existsb line_terminator rest)
  then Some (mkFence run (trim rest)) else None.

Definition first_char (s : jstr) : option N := head s.

Definition step (fence : option Fence) (line : jstr) : option Fence :=
  match fenceLine line with
  | None => fence
  | Some found =>
      match fence with
      | None =>
          if starts_with [96%N] (f_marker found) && includes [96%N] (f_info found) then None else Some found
      | Some f =>
          if bool_decide (first_char (f_marker found) = first_char (f_marker f))
             && (length (f_marker f) <=? length (f_marker found))%nat
             && jeqb (f_info found) []
          then None else Some f
      end
  end.

Definition advance (cursor : Cursor) (text : jstr) : Cursor :=
  let lines := split [10%N] (cu_partial cursor ++ text) in
  mkCursor (fold_left step (removelast lines) (cu_fence cursor)) (List.last lines []).

(** ** Choosing the cut *)

(** The starts a multi-line [^] sees, each with the text up to the next
    line terminator. *)
Fixpoint lines_any (cur s : jstr) : list jstr :=
  match s with
  | [] => [cur]
  | c :: t => if line_terminator c then cur :: lines_any [] t else lines_any (cur ++ [c]) t
  end.

(** The length of the run the pattern of [reserve] captures in a line. *)
Definition opener_run (line : jstr) : nat :=
  let run := run_of (strip_spaces 3 line) in
  if (3 <=? length run)%nat then length run else 0%nat.

Definition reserve (text : jstr) (cursor : Cursor) : nat :=
  let longest :=
    fold_left (fun acc line => Nat.max acc (opener_run line)) (lines_any [] text)
      (match cu_fence cursor with Some f => length (f_marker f) | None => 0 end) in
  if (longest =? 0)%nat then 0%nat else S longest.

Definition PARAGRAPH : nat := 1.
Definition LINE : nat := 2.
Definition IN_FENCE : nat := 3.

Record Candidate := mkCandidate {
  ca_offset : nat;
  ca_rank : nat;
  ca_fence : option Fence }.

(** [s.indexOf("\n", at)]. *)
Fixpoint newline_in (s : jstr) : option nat :=
  match s with
  | [] => None
  | c :: t => if (c =? 10)%N then Some 0%nat else S <$> newline_in t
  end.
Definition newline_from (text : jstr) (at_ : nat) : option nat :=
  (fun i => at_ + i)%nat <$> newline_in (drop at_ text).

(** Every turn of the loop moves [at] forward, so [S limit] turns reach the
    end of it. *)
Fixpoint candidates_go (fuel : nat) (text : jstr) (limit : nat) (partial : jstr) (fence : option Fence)
    (at_ : nat) (found : list Candidate) : list Candidate :=
  match fuel with
  | O => found
  | S fuel' =>
      if (at_ <=? limit)%nat then
        match newline_from text at_ with
        | None => found
        | Some nl =>
            if (limit <? nl)%nat then found else
            let line := (if (at_ =? 0)%nat then partial else []) ++ take (nl - at_) (drop at_ text) in
            let fence' := step fence line in
            let rank := match fence' with
                        | Some _ => IN_FENCE
                        | None => if jeqb line [] then PARAGRAPH else LINE
                        end in
            candidates_go fuel' text limit partial fence' (S nl) (found ++ [mkCandidate (S nl) rank fence'])
        end
      else found
  end.
Definition candidates (text : jstr) (limit : nat) (cursor : Cursor) : list Candidate :=
  candidates_go (S limit) text limit (cu_partial cursor) (cu_fence cursor) 0 [].

(** [Math.floor(budget * 0.1)]: the double nearest 0.1 lies above it, by
    too little to carry a product of a message's size past an integer. *)
Definition boundary_slack (budget : Z) : Z := (budget / 10)%Z.

Definition pick (found : list Candidate) (budget : Z) : option Candidate :=
  match last found with
  | None => None
  | Some latest =>
      let floor := (Z.of_nat (ca_offset latest) - boundary_slack budget)%Z in
      Some (fold_left (fun best c =>
              if (floor <=? Z.of_nat (ca_offset c))%Z && (ca_rank c <? ca_rank best)%nat then c else best)
            found latest)
  end.

(** ** Taking a chunk *)

Record Chunk := mkChunk {
  ch_head : jstr;
  ch_rest : jstr;
  ch_cursor : Cursor }.

(** [s.lastIndexOf(" ")]. *)
Fixpoint last_space (s : jstr) : option nat :=
  match s with
  | [] => None
  | c :: t =>
      match last_space t with
      | Some i => Some (S i)
      | None => if (c =? 32)%N then Some 0%nat else None
      end
  end.

Definition limit_of (text : jstr) (budget : Z) (cursor : Cursor) : nat :=
  Z.to_nat (Z.max 1 (budget - Z.of_nat (reserve text cursor))).

(** Where a line without a usable boundary is broken. *)
Definition hard_cut (text : jstr) (limit : nat) : nat :=
  match last_space (take (S limit) text) with
  | Some (S i) => S i
  | _ => limit
  end.

Definition takeChunk (text : jstr) (budget : Z) (cursor : Cursor) : Chunk :=
  if (Z.of_nat (length text) <=? budget)%Z then mkChunk text [] (advance cursor text) else
  let limit := limit_of text budget cursor in
  match pick (candidates text limit cursor) budget with
  | Some cut =>
      let raw := take (ca_offset cut) text in
      mkChunk
        (match ca_fence cut with
         | None => drop_trailing (fun c => c =? 10)%N raw
         | Some f => raw ++ f_marker f
         end)
        (drop (ca_offset cut) text) (mkCursor (ca_fence cut) [])
  | None =>
      let at_ := hard_cut text limit in
      let fence := cu_fence (advance cursor (take at_ text)) in
      mkChunk
        (take at_ text ++ match fence with None => [] | Some f => closer f end)
        (drop_while (fun c => c =? 32)%N (drop at_ text)) (mkCursor fence [])
  end.

(** The loop of [splitMarkdown]; [None] only when the fuel runs out. *)
Fixpoint split_loop (fuel : nat) (max : Z) (cursor : Cursor) (rest : jstr) : option (list jstr) :=
  match rest with
  | [] => Some []
  | _ =>
      match fuel with
      | O => None
      | S fuel' =>
          let prefix := reopen cursor in
          let chunk := takeChunk rest (Z.max 1 (max - Z.of_nat (length prefix))) cursor in
          pieces ← split_loop fuel' max (ch_cursor chunk) (ch_rest chunk);
          Some (match ch_head chunk with [] => pieces | _ => (prefix ++ ch_head chunk) :: pieces end)
      end
  end.

Definition splitMarkdown (text : jstr) (max : Z) : option (list jstr) :=
  split_loop (length text) max START text.
