(* ===== verification/MarkdownSplits.v ===== *)
(** What the splitter of [Markdown] guarantees: it always ends, it loses
    nothing but the blanks at its cuts, a piece keeps to the limit while the
    fence it reopens leaves it room, and a piece stands alone. *)

From S2P Require Import Prelude Markdown.

(** ** Lines *)

(** Complete lines, newline included. *)
Definition unlines (ls : list jstr) : jstr := concat (map (fun l => l ++ [10%N]) ls).

Lemma unlines_app a b : unlines (a ++ b) = unlines a ++ unlines b.
Proof. unfold unlines. by rewrite map_app, concat_app. Qed.
Lemma unlines_one l : unlines [l] = l ++ [10%N].
Proof. unfold unlines. simpl. by rewrite app_nil_r. Qed.

Lemma split_unlines ls s :
  Forall (fun l => 10%N ∉ l) ls -> split [10%N] (unlines ls ++ s) = ls ++ split [10%N] s.
Proof.
  induction 1 as [|l ls Hl _ IH]; [done|].
  change (unlines (l :: ls)) with ((l ++ [10%N]) ++ unlines ls).
  rewrite <- !app_assoc. simpl. rewrite split_app, IH. unfold split at 1. by rewrite split_go_none.
Qed.

Lemma split_single s : 10%N ∉ s -> split [10%N] s = [s].
Proof. intros H. unfold split. by rewrite split_go_none. Qed.

(** Every string is its complete lines and what follows the last newline. *)
Lemma lines_of s :
  exists ls l, s = unlines ls ++ l /\ Forall (fun l => 10%N ∉ l) ls /\ (10%N ∉ l) /\ split [10%N] s = ls ++ [l].
Proof.
  cut (exists ls l, s = unlines ls ++ l /\ Forall (fun l => 10%N ∉ l) ls /\ 10%N ∉ l).
  { intros (ls & l & -> & Hls & Hl). exists ls, l. split_and!; [done|done|done|].
    by rewrite split_unlines, split_single. }
  induction s as [|c s (ls & l & -> & Hls & Hl)]; [exists [], []; split_and!; [done|done|set_solver]|].
  destruct (decide (c = 10%N)) as [->|Hc].
  - exists ([] :: ls), l. split_and!; [done| |done]. constructor; [set_solver|done].
  - destruct ls as [|l0 ls].
    + exists [], (c :: l). split_and!; [done|done|]. set_solver.
    + inversion_clear Hls. exists ((c :: l0) :: ls), l. split_and!; [done| |done].
      constructor; [set_solver|done].
Qed.

Lemma advance_lines cursor ls l :
  Forall (fun l => 10%N ∉ l) ls -> 10%N ∉ l -> cu_partial cursor = [] ->
  advance cursor (unlines ls ++ l) = mkCursor (fold_left step ls (cu_fence cursor)) l.
Proof.
  intros Hls Hl Hp. unfold advance. rewrite Hp. simpl. rewrite split_unlines, split_single by done.
  by rewrite removelast_last, List.last_last.
Qed.

(** ** Fence lines *)

Lemma strip_spaces_suffix n s : exists k, s = replicate k 32%N ++ strip_spaces n s.
Proof.
  revert s; induction n as [|n IH]; intros [|c s]; try (by exists 0%nat). simpl.
  destruct (N.eqb_spec c 32) as [->|]; [|by exists 0%nat].
  destruct (IH s) as [k Hk]. exists (S k). simpl. by rewrite <- Hk.
Qed.

Lemma take_while_app p s : s = take_while p s ++ drop (length (take_while p s)) s.
Proof. induction s as [|c s IH]; simpl; [done|]. destruct (p c); simpl; [by rewrite <- IH|done]. Qed.

Lemma run_of_app s : s = run_of s ++ drop (length (run_of s)) s.
Proof.
  unfold run_of. destruct s as [|c s]; [done|]. destruct (fence_char c); [|done]. apply take_while_app.
Qed.

(** A run is one fence character repeated. *)
Lemma run_of_repeat s : run_of s = [] \/ exists c, fence_char c = true /\ Forall (eq c) (run_of s) /\ head (run_of s) = Some c.
Proof.
  unfold run_of. destruct s as [|c s]; [by left|]. destruct (fence_char c) eqn:E; [|by left]. right. exists c.
  split_and!; [done| |simpl; by rewrite N.eqb_refl].
  eapply Forall_impl; [apply take_while_Forall|]. simpl. intros d Hd. by apply N.eqb_eq in Hd.
Qed.

(** A fence's marker is at least three of one fence character. *)
Definition marker_ok (m : jstr) : Prop :=
  (3 <= length m)%nat /\ exists c, fence_char c = true /\ Forall (eq c) m.

Lemma fenceLine_marker l f : fenceLine l = Some f -> marker_ok (f_marker f) /\ opener_run l = length (f_marker f).
Proof.
  unfold fenceLine, opener_run. cbv zeta. intros H. case_match eqn:E; simplify_eq. cbn [f_marker].
  apply andb_true_iff in E as [E _]. rewrite E. apply Nat.leb_le in E. split; [|done].
  split; [done|]. destruct (run_of_repeat (strip_spaces 3 l)) as [Hn|(c & Hc & Hr & _)].
  - rewrite Hn in E. simpl in E. lia.
  - by exists c.
Qed.

(** A fence line holds no line terminator. *)
Lemma fenceLine_line l f : fenceLine l = Some f -> Forall (fun c => line_terminator c = false) l.
Proof.
  unfold fenceLine. intros H. case_match eqn:E; [|done]. apply andb_true_iff in E as [E1 E2].
  apply negb_true_iff in E2. destruct (strip_spaces_suffix 3 l) as [k Hk].
  rewrite Hk, (run_of_app (strip_spaces 3 l)), !Forall_app. split_and!.
  - apply Forall_replicate. done.
  - destruct (run_of_repeat (strip_spaces 3 l)) as [->|(c & Hc & Hr & _)]; [constructor|].
    eapply Forall_impl; [exact Hr|]. intros d <-. unfold fence_char in Hc.
    apply orb_true_iff in Hc as [->%N.eqb_eq| ->%N.eqb_eq]; done.
  - apply Forall_forall. intros c Hc. destruct (line_terminator c) eqn:Et; [|done].
    rewrite <- E2. symmetry. apply existsb_exists. exists c. split; [by apply list_elem_of_In|done].
Qed.

Lemma step_nil fence : step fence [] = fence.
Proof. done. Qed.

(** A fence [step] leaves open was open before, or its line opened it. *)
Lemma step_Some fence l f :
  step fence l = Some f ->
  fence = Some f \/ fence = None /\ fenceLine l = Some f /\
    starts_with [96%N] (f_marker f) && includes [96%N] (f_info f) = false.
Proof.
  unfold step. intros H. destruct (fenceLine l) as [g|]; [|by left].
  destruct fence as [f0|]; [left; by case_match|]. right. case_match eqn:E; [done|]. by simplify_eq.
Qed.

Definition fence_ok (o : option Fence) : Prop := forall f, o = Some f -> marker_ok (f_marker f).

Lemma step_ok fence l : fence_ok fence -> fence_ok (step fence l).
Proof.
  intros H f [->|(-> & Hf & _)]%step_Some; [by apply H|]. by apply fenceLine_marker in Hf as [? _].
Qed.

Lemma fold_step_ok ls fence : fence_ok fence -> fence_ok (fold_left step ls fence).
Proof. revert fence; induction ls as [|l ls IH]; intros fence H; simpl; [done|]. by apply IH, step_ok. Qed.

(** A marker's own line closes its fence. *)
Lemma fenceLine_of_marker m : marker_ok m -> fenceLine m = Some (mkFence m []).
Proof.
  intros [Hl (c & Hc & Hm)]. destruct m as [|d m]; [simpl in Hl; lia|].
  pose proof (Forall_inv Hm) as <-.
  assert (Hs : strip_spaces 3 (c :: m) = c :: m).
  { unfold fence_char in Hc. apply orb_true_iff in Hc as [->%N.eqb_eq| ->%N.eqb_eq]; done. }
  assert (Hr : run_of (c :: m) = c :: m).
  { unfold run_of. rewrite Hc. clear -Hm. induction Hm as [|d l <- _ IH]; simpl; [done|].
    by rewrite N.eqb_refl, IH. }
  unfold fenceLine. rewrite Hs, Hr, drop_all, (proj2 (Nat.leb_le _ _) Hl). done.
Qed.

Lemma step_closer f : marker_ok (f_marker f) -> step (Some f) (f_marker f) = None.
Proof.
  intros H. unfold step. rewrite (fenceLine_of_marker _ H). simpl.
  by rewrite bool_decide_eq_true_2, Nat.leb_refl.
Qed.

(** ** Candidates *)

Lemma newline_in_spec s :
  match newline_in s with
  | Some i => exists t, s = take i s ++ 10%N :: t /\ (10%N ∉ take i s) /\ (i < length s)%nat
  | None => 10%N ∉ s
  end.
Proof.
  induction s as [|c s IH]; simpl; [set_solver|].
  destruct (N.eqb_spec c 10) as [->|Hc]; simpl; [exists s; split_and!; [done|set_solver|lia]|].
  destruct (newline_in s) as [i|]; simpl; [|set_solver].
  destruct IH as (t & Ht & Hn & Hi). exists t. split_and!; [by rewrite <- Ht|set_solver|lia].
Qed.

(** What a candidate stands for: complete lines, and the fence they leave. *)
Record cut_ok (text : jstr) (limit : nat) (fence : option Fence) (c : Candidate) : Prop := mkCutOk {
  ck_le : (ca_offset c <= S limit)%nat;
  ck_pos : (0 < ca_offset c <= length text)%nat;
  ck_lines : exists ls, take (ca_offset c) text = unlines ls /\ Forall (fun l => 10%N ∉ l) ls
               /\ ca_fence c = fold_left step ls fence }.

Lemma candidates_go_ok fuel text limit fence0 fence at_ found ls :
  take at_ text = unlines ls -> (at_ <= length text)%nat -> Forall (fun l => 10%N ∉ l) ls ->
  fence = fold_left step ls fence0 -> Forall (cut_ok text limit fence0) found ->
  Forall (cut_ok text limit fence0) (candidates_go fuel text limit [] fence at_ found).
Proof.
  revert fence at_ found ls; induction fuel as [|fuel IH]; intros fence at_ found ls Ht Hat Hls -> Hf; [done|].
  simpl. case_match; [|done]. unfold newline_from.
  pose proof (newline_in_spec (drop at_ text)) as Hnl.
  destruct (newline_in (drop at_ text)) as [i|]; simpl; [|done].
  destruct Hnl as (t & Hd & Hno & Hi). rewrite length_drop in Hi.
  destruct (Nat.ltb_spec limit (at_ + i)) as [|Hlim]; [done|].
  replace (at_ + i - at_)%nat with i by lia.
  set (line := take i (drop at_ text)) in *.
  assert (Hline : (if at_ =? 0 then [] else []) ++ line = line) by (by destruct at_). rewrite Hline.
  assert (Htake : take (S (at_ + i)) text = unlines (ls ++ [line])).
  { rewrite unlines_app, unlines_one, <- Ht. rewrite <- (take_drop at_ text) at 1. rewrite Hd.
    rewrite take_app_ge by (rewrite length_take; lia). rewrite length_take.
    replace (S (at_ + i) - at_ `min` length text)%nat with (S i) by lia. f_equal.
    replace (S i) with (length (line ++ [10%N])) by (unfold line; rewrite length_app, length_take, length_drop; simpl; lia).
    change (line ++ 10%N :: t) with (line ++ [10%N] ++ t). by rewrite app_assoc, take_app_length. }
  apply (IH _ _ _ (ls ++ [line])); [done|lia| |by rewrite fold_left_app|].
  - apply Forall_app. split; [done|]. by constructor.
  - apply Forall_app. split; [done|]. constructor; [|done]. split; simpl; [lia|lia|].
    exists (ls ++ [line]). split_and!; [done| |by rewrite fold_left_app].
    apply Forall_app. split; [done|]. by constructor.
Qed.

Lemma candidates_ok text limit cursor :
  cu_partial cursor = [] -> Forall (cut_ok text limit (cu_fence cursor)) (candidates text limit cursor).
Proof.
  intros Hp. unfold candidates. rewrite Hp. apply (candidates_go_ok _ _ _ _ _ _ _ []); [done|lia|done|done|done].
Qed.

Lemma pick_elem found budget c : pick found budget = Some c -> c ∈ found.
Proof.
  unfold pick. destruct (last found) as [latest|] eqn:E; [|done]. intros [= <-].
  assert (Hl : latest ∈ found).
  { apply last_Some in E as [l ->]. apply elem_of_app. right. by left. }
  set (floor := (_ - _)%Z). clearbody floor. clear E.
  cut (forall l, l ⊆ found -> forall best, best ∈ found ->
    fold_left (fun best c => if (floor <=? Z.of_nat (ca_offset c))%Z && (ca_rank c <? ca_rank best)%nat
                             then c else best) l best ∈ found).
  { intros H. by apply H. }
  clear latest Hl. induction l as [|x l IH]; intros Hl best Hb; simpl; [done|].
  apply IH; [set_solver|]. case_match; [apply Hl; by left|done].
Qed.

(** The cut a chunk takes at a line boundary. *)
Lemma pick_ok text limit budget cursor c :
  cu_partial cursor = [] -> pick (candidates text limit cursor) budget = Some c ->
  cut_ok text limit (cu_fence cursor) c.
Proof.
  intros Hp Hc%pick_elem. pose proof (candidates_ok text limit cursor Hp) as H.
  rewrite Forall_forall in H. by apply H.
Qed.

Lemma last_space_lt s i : last_space s = Some i -> (i < length s)%nat.
Proof.
  revert i; induction s as [|c s IH]; intros i; simpl; [done|].
  destruct (last_space s) as [j|]; [intros [= <-]; specialize (IH j eq_refl); lia|].
  case_match; intros; simplify_eq; lia.
Qed.

Lemma hard_cut_bounds text limit : (0 < limit)%nat -> (0 < hard_cut text limit <= limit)%nat.
Proof.
  intros Hl. unfold hard_cut. destruct (last_space _) as [[|i]|] eqn:E; [lia| |lia].
  apply last_space_lt in E. rewrite length_take in E. lia.
Qed.

Lemma limit_of_pos text budget cursor : (0 < limit_of text budget cursor)%nat.
Proof. unfold limit_of. lia. Qed.

(** ** The anatomy of a chunk *)

Definition blank (c : N) : Prop := c = 10%N \/ c = 32%N.

Lemma drop_while_split p s : exists sep, s = sep ++ drop_while p s /\ Forall (fun c => p c = true) sep.
Proof.
  induction s as [|c s (sep & IH & Hs)]; simpl; [by exists []|].
  destruct (p c) eqn:E; [|by exists []]. exists (c :: sep). simpl. rewrite <- IH. split; [done|by constructor].
Qed.

Lemma drop_trailing_split p s : exists sep, s = drop_trailing p s ++ sep /\ Forall (fun c => p c = true) sep.
Proof.
  unfold drop_trailing. destruct (drop_while_split p (reverse s)) as (sep & H & Hs). exists (reverse sep).
  split; [|by apply Forall_reverse]. by rewrite <- reverse_app, <- H, reverse_involutive.
Qed.

(** What closes the fence open at the end of a piece. *)
Definition close_of (close : jstr) : Prop :=
  close = [] \/ exists f, close = f_marker f \/ close = closer f.

Lemma chunk_anatomy text budget cursor :
  exists raw close sep,
    ch_head (takeChunk text budget cursor) = raw ++ close /\
    text = raw ++ sep ++ ch_rest (takeChunk text budget cursor) /\
    Forall blank sep /\ close_of close.
Proof.
  unfold takeChunk. case_match; simpl.
  { exists text, [], []. rewrite !app_nil_r. split_and!; [done|done|done|by left]. }
  destruct (pick _ _) as [cut|]; simpl.
  - destruct (ca_fence cut) as [f|].
    + exists (take (ca_offset cut) text), (f_marker f), [].
      split_and!; [done|by rewrite app_nil_l, take_drop|done|right; exists f; by left].
    + destruct (drop_trailing_split (fun c => c =? 10)%N (take (ca_offset cut) text)) as (sep & Hs & Hb).
      exists (drop_trailing (fun c => c =? 10)%N (take (ca_offset cut) text)), [], sep. rewrite app_nil_r.
      split_and!; [done|by rewrite app_assoc, <- Hs, take_drop| |by left].
      eapply Forall_impl; [exact Hb|]. intros c Hc%N.eqb_eq. by left.
  - set (at_ := hard_cut _ _). destruct (drop_while_split (fun c => c =? 32)%N (drop at_ text)) as (sep & Hs & Hb).
    exists (take at_ text). eexists. exists sep. split_and!; [done|by rewrite <- Hs, take_drop| |].
    + eapply Forall_impl; [exact Hb|]. intros c Hc%N.eqb_eq. by right.
    + case_match; [right; eexists; by right|by left].
Qed.

(** ** Termination *)

Lemma candidates_go_pos fuel text limit partial fence at_ found :
  Forall (fun c => 0 < ca_offset c)%nat found ->
  Forall (fun c => 0 < ca_offset c)%nat (candidates_go fuel text limit partial fence at_ found).
Proof.
  revert fence at_ found. induction fuel as [|fuel IH]; intros fence at_ found Hf; cbn [candidates_go]; [done|].
  case_match; [|done]. case_match; [|done]. case_match; [done|]. apply IH, Forall_app. split; [done|].
  constructor; [cbn; lia|done].
Qed.

(** Wherever the cursor stands, taking a chunk shortens the text. *)
Lemma take_shrinks text budget cursor :
  text <> [] -> (length (ch_rest (takeChunk text budget cursor)) < length text)%nat.
Proof.
  intros Ht. assert (0 < length text)%nat by (destruct text; [done|simpl; lia]).
  unfold takeChunk. case_match; simpl; [lia|].
  destruct (pick _ _) as [cut|] eqn:E; simpl.
  - apply pick_elem in E. pose proof (candidates_go_pos (S (limit_of text budget cursor)) text (limit_of text budget cursor)
      (cu_partial cursor) (cu_fence cursor) 0 [] (Forall_nil_2 _)) as Hpos.
    rewrite Forall_forall in Hpos. specialize (Hpos _ E). rewrite length_drop. lia.
  - pose proof (hard_cut_bounds text _ (limit_of_pos text budget cursor)) as Hb.
    set (at_ := hard_cut _ _) in *.
    pose proof (sublist_length _ _ (drop_while_sublist (fun c => c =? 32)%N (drop at_ text))) as Hl.
    rewrite length_drop in Hl. lia.
Qed.

Lemma rest_fresh text budget cursor :
  ch_rest (takeChunk text budget cursor) <> [] -> cu_partial (ch_cursor (takeChunk text budget cursor)) = [].
Proof. unfold takeChunk. case_match; simpl; [done|]. by destruct (pick _ _). Qed.

(** ** The bound on a chunk *)

Definition longest (text : jstr) (cursor : Cursor) : nat :=
  fold_left (fun acc line => Nat.max acc (opener_run line)) (lines_any [] text)
    (match cu_fence cursor with Some f => length (f_marker f) | None => 0 end).

Lemma fold_max_le ls acc :
  (acc <= fold_left (fun acc line => Nat.max acc (opener_run line)) ls acc)%nat /\
  forall l, l ∈ ls -> (opener_run l <= fold_left (fun acc line => Nat.max acc (opener_run line)) ls acc)%nat.
Proof.
  revert acc; induction ls as [|x ls IH]; intros acc; simpl; [split; [done|set_solver]|].
  destruct (IH (Nat.max acc (opener_run x))) as [H1 H2]. split; [lia|].
  intros l [->|Hl]%elem_of_cons; [lia|by apply H2].
Qed.

Lemma lines_any_app cur l t : lines_any cur (l ++ 10%N :: t) = lines_any cur l ++ lines_any [] t.
Proof.
  revert cur; induction l as [|c l IH]; intros cur; simpl; [done|].
  destruct (line_terminator c); simpl; by rewrite IH.
Qed.

Lemma lines_any_none cur l : Forall (fun c => line_terminator c = false) l -> lines_any cur l = [cur ++ l].
Proof.
  intros H; revert cur; induction H as [|c l Hc _ IH]; intros cur; simpl; [by rewrite app_nil_r|].
  rewrite Hc, IH. by rewrite <- app_assoc.
Qed.

Lemma lines_any_unlines ls t l : l ∈ ls -> Forall (fun c => line_terminator c = false) l ->
  l ∈ lines_any [] (unlines ls ++ t).
Proof.
  intros Hl Hn. apply list_elem_of_split in Hl as (a & b & ->).
  rewrite unlines_app. change (unlines (l :: b)) with ((l ++ [10%N]) ++ unlines b).
  assert (Ha : forall s, exists pre, lines_any [] (unlines a ++ s) = pre ++ lines_any [] s).
  { clear. intros s. induction a as [|x a [pre IH]]; [by exists []|].
    change (unlines (x :: a)) with ((x ++ [10%N]) ++ unlines a). rewrite <- !app_assoc. simpl.
    rewrite lines_any_app, IH. eexists. by rewrite app_assoc. }
  rewrite <- !app_assoc. simpl. edestruct Ha as [pre ->]. rewrite lines_any_app, lines_any_none by done.
  apply elem_of_app. right. apply elem_of_app. left. by left.
Qed.

(** The fence complete lines leave open is counted by [reserve]. *)
Lemma fold_step_longest text ls t cursor f :
  text = unlines ls ++ t -> fold_left step ls (cu_fence cursor) = Some f ->
  (length (f_marker f) <= longest text cursor)%nat.
Proof.
  intros -> Hf. unfold longest.
  assert (H : cu_fence cursor = Some f \/ exists l, l ∈ ls /\ fenceLine l = Some f).
  { revert Hf. generalize (cu_fence cursor). induction ls as [|l ls IH]; intros o Hf; simpl in Hf; [by left|].
    apply IH in Hf as [Hf|(l' & Hl & Hf)]; [|right; exists l'; split; [by right|done]].
    apply step_Some in Hf as [->|(_ & Hf & _)]; [by left|]. right. exists l. split; [by left|done]. }
  destruct H as [->|(l & Hl & Hf')]; [apply fold_max_le|].
  destruct (fenceLine_marker _ _ Hf') as [_ <-].
  apply fold_max_le, lines_any_unlines; [done|by apply fenceLine_line in Hf'].
Qed.

Lemma reserve_longest text cursor :
  reserve text cursor = if (longest text cursor =? 0)%nat then 0%nat else S (longest text cursor).
Proof. done. Qed.

Lemma drop_trailing_newline ls :
  ls <> [] -> (length (drop_trailing (fun c => c =? 10)%N (unlines ls)) < length (unlines ls))%nat.
Proof.
  intros Hls. destruct (exists_last Hls) as (a & l & ->).
  rewrite unlines_app, unlines_one. unfold drop_trailing.
  rewrite app_assoc, reverse_app. simpl. rewrite length_reverse, length_app. simpl.
  pose proof (sublist_length _ _ (drop_while_sublist (fun c => c =? 10)%N (reverse (unlines a ++ l)))) as H.
  rewrite length_reverse in H. lia.
Qed.

(** The prefix a hard cut leaves, as lines. *)
Lemma hard_cut_fence text at_ cursor f :
  cu_partial cursor = [] -> cu_fence (advance cursor (take at_ text)) = Some f ->
  (length (f_marker f) <= longest text cursor)%nat.
Proof.
  intros Hp. destruct (lines_of (take at_ text)) as (ls & l & E & Hls & Hl & _).
  rewrite E, advance_lines by done. simpl. intros Hf. apply (fold_step_longest _ ls (l ++ drop at_ text)); [|done].
  by rewrite app_assoc, <- E, take_drop.
Qed.

(** A head keeps to its budget once the budget exceeds the reserve. *)
Lemma head_bounded text budget cursor :
  cu_partial cursor = [] -> (Z.of_nat (reserve text cursor) < budget)%Z -> fence_ok (cu_fence cursor) ->
  (Z.of_nat (length (ch_head (takeChunk text budget cursor))) <= budget)%Z.
Proof.
  intros Hp Hroom Hok. unfold takeChunk. destruct (Z.leb_spec (Z.of_nat (length text)) budget) as [|_]; cbn [ch_head]; [done|]. cbv zeta.
  assert (Hlim : Z.of_nat (limit_of text budget cursor) = (budget - Z.of_nat (reserve text cursor))%Z)
    by (unfold limit_of; lia).
  rewrite reserve_longest in Hlim.
  assert (Hm : forall f, (length (f_marker f) <= longest text cursor)%nat -> marker_ok (f_marker f) ->
            Z.of_nat (limit_of text budget cursor) = (budget - Z.of_nat (S (longest text cursor)))%Z).
  { intros f Hf [Hf3 _]. destruct (Nat.eqb_spec (longest text cursor) 0); [lia|done]. }
  destruct (pick _ _) as [cut|] eqn:E; cbn [ch_head].
  - apply pick_ok in E as [Hle Hpos (ls & Hls & Hno & Hf)]; [|done].
    assert (Hlen : length (take (ca_offset cut) text) = ca_offset cut) by (rewrite length_take; lia).
    destruct (ca_fence cut) as [f|].
    + symmetry in Hf. pose proof (fold_step_ok ls _ Hok f Hf) as Hmk.
      apply (fold_step_longest text ls (drop (ca_offset cut) text)) in Hf; [|by rewrite <- Hls, take_drop].
      specialize (Hm f Hf Hmk). rewrite length_app. lia.
    + assert (ls <> []) by (intros ->; rewrite Hls in Hlen; simpl in Hlen; lia).
      pose proof (drop_trailing_newline ls ltac:(done)) as Hd. rewrite <- Hls, Hlen in Hd.
      destruct (longest text cursor =? 0)%nat; lia.
  - pose proof (hard_cut_bounds text _ (limit_of_pos text budget cursor)) as Hb.
    set (at_ := hard_cut _ _) in *. rewrite length_app, length_take.
    destruct (cu_fence (advance cursor (take at_ text))) as [f|] eqn:Ef.
    + assert (Hmk : marker_ok (f_marker f)).
      { destruct (lines_of (take at_ text)) as (ls & l & El & Hls & Hl & _).
        rewrite El, advance_lines in Ef by done. by apply (fold_step_ok ls _ Hok f Ef). }
      apply hard_cut_fence in Ef; [|done]. specialize (Hm f Ef Hmk).
      change (length (closer f)) with (S (length (f_marker f))). lia.
    + change (length (@nil N)) with 0%nat. destruct (longest text cursor =? 0)%nat; lia.
Qed.

(** ** A reopened fence reads back *)

Lemma trim_start_idem s : trim_start (trim_start s) = trim_start s.
Proof. induction s as [|c s IH]; simpl; [done|]. destruct (is_ws c) eqn:E; [done|]. simpl. by rewrite E. Qed.

Lemma trim_end_idem s : trim_end (trim_end s) = trim_end s.
Proof. unfold trim_end. by rewrite reverse_involutive, trim_start_idem. Qed.

Lemma trim_start_suffix s : exists w, s = w ++ trim_start s.
Proof.
  induction s as [|c s [w IH]]; simpl; [by exists []|]. destruct (is_ws c); [|by exists []].
  exists (c :: w). simpl. by rewrite <- IH.
Qed.

Lemma trim_start_shrinks s : (length (trim_start s) <= length s)%nat.
Proof. induction s as [|c s IH]; simpl; [done|]. destruct (is_ws c); simpl; lia. Qed.

Lemma trim_idem s : trim (trim s) = trim s.
Proof.
  unfold trim. set (u := trim_start s). assert (Hu : trim_start u = u) by apply trim_start_idem. clearbody u.
  rewrite <- (trim_end_idem u) at 2. f_equal.
  destruct (trim_start_suffix (reverse u)) as [w Hw].
  assert (Hsplit : u = trim_end u ++ reverse w).
  { unfold trim_end. rewrite <- reverse_app, <- Hw. by rewrite reverse_involutive. }
  destruct (trim_end u) as [|c t]; [done|]. rewrite Hsplit in Hu. simpl in *.
  destruct (is_ws c) eqn:E; [|done]. pose proof (trim_start_shrinks (t ++ reverse w)) as H.
  rewrite Hu in H. simpl in H. lia.
Qed.

(** A fence some line opened. *)
Definition opened (f : Fence) : Prop :=
  exists l, fenceLine l = Some f /\ starts_with [96%N] (f_marker f) && includes [96%N] (f_info f) = false.

(** Its info string does not continue its marker: true of a backtick fence,
    and of a tilde fence unless its line reads like [~~~ ~]. *)
Definition info_apart (f : Fence) : Prop :=
  forall c, head (f_marker f) = Some c -> head (f_info f) <> Some c.

Lemma backtick_info_apart f : opened f -> head (f_marker f) = Some 96%N -> info_apart f.
Proof.
  intros (l & _ & H) Hm c Hc Hi. rewrite Hm in Hc. simplify_eq.
  destruct (f_marker f) as [|a m]; [done|]. destruct (f_info f) as [|b i]; [done|]. simpl in *. simplify_eq.
Qed.

Lemma take_while_stop p a b :
  Forall (fun c => p c = true) a -> (forall c, head b = Some c -> p c = false) -> take_while p (a ++ b) = a.
Proof.
  intros Ha Hb. induction Ha as [|c a Hc _ IH]; simpl; [|by rewrite Hc, IH].
  destruct b as [|c b]; [done|]. simpl. by rewrite (Hb c eq_refl).
Qed.

Lemma reopened f : opened f -> info_apart f -> step None (f_marker f ++ f_info f) = Some f.
Proof.
  intros (l & Hl & Hb) Hap. pose proof (fenceLine_marker _ _ Hl) as [[Hlen (c & Hc & Hm)] _].
  unfold step. cut (fenceLine (f_marker f ++ f_info f) = Some f); [intros ->; by rewrite Hb|].
  assert (Hinfo : trim (f_info f) = f_info f /\ existsb line_terminator (f_info f) = false).
  { revert Hl. unfold fenceLine. intros H. case_match eqn:E; [|done]. simplify_eq. simpl. split; [apply trim_idem|].
    apply andb_true_iff in E as [_ E%negb_true_iff].
    apply not_true_iff_false. intros (d & Hd & Ht)%existsb_exists.
    assert (HF : Forall (fun d => line_terminator d = false) (drop (length (run_of (strip_spaces 3 l))) (strip_spaces 3 l))).
    { apply Forall_forall. intros x Hx. destruct (line_terminator x) eqn:Ex; [|done]. rewrite <- E.
      symmetry. apply existsb_exists. exists x. split; [by apply list_elem_of_In|done]. }
    apply trim_Forall in HF. rewrite Forall_forall in HF. apply list_elem_of_In in Hd.
    specialize (HF _ Hd). simpl in HF. congruence. }
  destruct Hinfo as [Ht Hn]. destruct f as [m i]. simpl in *.
  destruct m as [|d m]; [simpl in Hlen; lia|]. pose proof (Forall_inv Hm) as <-.
  assert (Hs : strip_spaces 3 ((c :: m) ++ i) = (c :: m) ++ i).
  { unfold fence_char in Hc. apply orb_true_iff in Hc as [->%N.eqb_eq| ->%N.eqb_eq]; done. }
  assert (Hr : run_of ((c :: m) ++ i) = c :: m).
  { change (run_of ((c :: m) ++ i)) with (if fence_char c then take_while (fun d => d =? c)%N ((c :: m) ++ i) else []).
    rewrite Hc. apply take_while_stop.
    - eapply Forall_impl; [exact Hm|]. intros x <-. apply N.eqb_refl.
    - intros x Hx. apply N.eqb_neq. intros ->. by apply (Hap c). }
  unfold fenceLine. rewrite Hs, Hr, drop_app_length, (proj2 (Nat.leb_le _ _) Hlen), Hn, Ht. done.
Qed.

Lemma fold_step_opened ls fence :
  (forall f, fence = Some f -> opened f) -> forall f, fold_left step ls fence = Some f -> opened f.
Proof.
  revert fence; induction ls as [|l ls IH]; intros fence H; simpl; [done|]. apply IH.
  intros f [->|(_ & Hf & Hb)]%step_Some; [by apply H|]. by exists l.
Qed.

Lemma opened_marker f : opened f -> marker_ok (f_marker f).
Proof. intros (l & Hl & _). exact (proj1 (fenceLine_marker _ _ Hl)). Qed.

Lemma opened_line f : opened f -> info_apart f -> 10%N ∉ f_marker f ++ f_info f.
Proof.
  intros Ho Ha. pose proof (reopened f Ho Ha) as H. apply step_Some in H as [|(_ & Hf & _)]; [done|].
  apply fenceLine_line in Hf. rewrite Forall_forall in Hf. intros Hin. by specialize (Hf _ Hin).
Qed.

(** ** A chunk stands alone *)

(** The fence a message leaves open, read from where [fence] stands. *)
Definition fence_after (fence : option Fence) (message : jstr) : option Fence :=
  fold_left step (split [10%N] message) fence.

Lemma fence_after_newlines s n fence : fence_after fence (s ++ replicate n 10%N) = fence_after fence s.
Proof.
  induction n as [|n IH]; [by rewrite app_nil_r|].
  rewrite replicate_S_end, app_assoc. unfold fence_after in *.
  rewrite (split_app 10%N (s ++ replicate n 10%N) []), fold_left_app, IH. done.
Qed.

Lemma Forall_newlines sep : Forall (fun c => (c =? 10)%N = true) sep -> sep = replicate (length sep) 10%N.
Proof. induction 1 as [|c sep Hc%N.eqb_eq _ IH]; simpl; [done|]. by rewrite Hc, <- IH. Qed.

(** The line a chunk breaks for want of a usable boundary. *)
Definition broken_line (text : jstr) (budget : Z) (cursor : Cursor) : option jstr :=
  if (Z.of_nat (length text) <=? budget)%Z then None else
  let limit := limit_of text budget cursor in
  match pick (candidates text limit cursor) budget with
  | Some _ => None
  | None => Some (take (hard_cut text limit) text)
  end.

Lemma candidates_go_grow fuel text limit partial fence at_ found :
  exists more, candidates_go fuel text limit partial fence at_ found = found ++ more.
Proof.
  revert partial fence at_ found; induction fuel as [|fuel IH]; intros; simpl; [exists []; by rewrite app_nil_r|].
  repeat case_match; try (exists []; by rewrite app_nil_r).
  all: match goal with |- context [candidates_go _ _ _ ?p ?f ?a ?l] => destruct (IH p f a l) as [more ->] end;
    rewrite <- app_assoc; by eexists.
Qed.

(** Without a boundary, the broken line is all there is. *)
Lemma broken_line_single text budget cursor l : broken_line text budget cursor = Some l -> 10%N ∉ l.
Proof.
  unfold broken_line. case_match; [done|]. cbv zeta. destruct (pick _ _) as [c|] eqn:E; [done|]. intros [= <-].
  pose proof (hard_cut_bounds text _ (limit_of_pos text budget cursor)) as Hb.
  set (limit := limit_of _ _ _) in *. set (at_ := hard_cut _ _) in *. clearbody at_.
  assert (Hc : candidates text limit cursor = []).
  { unfold pick in E. destruct (last _) eqn:El; [done|]. by apply last_None in El. }
  unfold candidates in Hc. cbn [candidates_go] in Hc. cbv zeta in Hc.
  rewrite (proj2 (Nat.leb_le 0 limit)) in Hc by lia. unfold newline_from in Hc.
  pose proof (newline_in_spec (drop 0 text)) as Hn. rewrite drop_0 in *.
  destruct (newline_in text) as [i|]; simpl in Hc.
  - destruct Hn as (t & Ht & Hi & Hlt). destruct (Nat.ltb_spec limit i) as [Hli|].
    + intros Hin. apply Hi. eapply elem_of_prefix; [exact Hin|].
      replace (take at_ text) with (take at_ (take i text)) by (rewrite take_take; f_equal; lia).
      apply prefix_take.
    + exfalso. match type of Hc with candidates_go ?a ?b ?c ?d ?e ?f ?g = _ =>
        destruct (candidates_go_grow a b c d e f g) as [more Hm]; rewrite Hm in Hc end. done.
  - intros Hin. apply Hn. eapply elem_of_prefix; [exact Hin|apply prefix_take].
Qed.

Lemma chunk_closed text budget cursor :
  cu_partial cursor = [] -> (forall f, cu_fence cursor = Some f -> opened f) ->
  ch_rest (takeChunk text budget cursor) <> [] ->
  (forall l, broken_line text budget cursor = Some l -> fenceLine l = None) ->
  fence_after (cu_fence cursor) (ch_head (takeChunk text budget cursor)) = None.
Proof.
  intros Hp Ho. pose proof (broken_line_single text budget cursor) as Hsingle. revert Hsingle.
  unfold takeChunk, broken_line. case_match; cbn [ch_head ch_rest]; [done|]. cbv zeta.
  assert (Hm : forall ls f, fold_left step ls (cu_fence cursor) = Some f -> marker_ok (f_marker f)).
  { intros ls f Hf. by eapply opened_marker, fold_step_opened. }
  assert (Hnl : forall m, marker_ok m -> 10%N ∉ m).
  { intros m [_ (c & Hc & Hm')] Hin. rewrite Forall_forall in Hm'. rewrite (Hm' _ Hin) in Hc. done. }
  destruct (pick _ _) as [cut|] eqn:E; cbn [ch_head ch_rest]; intros Hsingle _ Hbroken.
  - apply pick_ok in E as [_ _ (ls & Hls & Hno & Hf)]; [|done]. rewrite Hls.
    destruct (ca_fence cut) as [f|].
    + unfold fence_after. rewrite split_unlines, split_single by (try apply Hnl, (Hm ls); done).
      rewrite fold_left_app, <- Hf. simpl. by apply step_closer, (Hm ls).
    + destruct (drop_trailing_split (fun c => c =? 10)%N (unlines ls)) as (sep & Hs & Hb).
      rewrite <- (fence_after_newlines _ (length sep)), <- Forall_newlines, <- Hs by done.
      unfold fence_after. rewrite <- (app_nil_r (unlines ls)), split_unlines, fold_left_app, <- Hf by done. done.
  - set (l := take _ text) in *. specialize (Hsingle l eq_refl). specialize (Hbroken l eq_refl).
    assert (Hadv : cu_fence (advance cursor l) = cu_fence cursor).
    { change l with (unlines [] ++ l). rewrite advance_lines; done. }
    rewrite Hadv. unfold fence_after. destruct (cu_fence cursor) as [f|] eqn:Ef.
    + unfold closer. rewrite split_app, !split_single by (try apply Hnl, (Hm []); done).
      simpl. unfold step at 2. rewrite Hbroken. by apply step_closer, (Hm []).
    + rewrite app_nil_r, split_single by done. simpl. unfold step. by rewrite Hbroken.
Qed.

Lemma chunk_opened text budget cursor f :
  cu_partial cursor = [] -> (forall f, cu_fence cursor = Some f -> opened f) ->
  cu_fence (ch_cursor (takeChunk text budget cursor)) = Some f -> opened f.
Proof.
  intros Hp Ho.
  assert (Hadv : forall s g, cu_fence (advance cursor s) = Some g -> opened g).
  { intros s g. destruct (lines_of s) as (ls & l & -> & Hls & Hl & _). rewrite advance_lines by done.
    by apply fold_step_opened. }
  unfold takeChunk. case_match; cbn [ch_cursor cu_fence]; [by apply Hadv|]. cbv zeta.
  destruct (pick _ _) as [cut|] eqn:E; cbn [ch_cursor cu_fence]; [|by apply Hadv].
  apply pick_ok in E as [_ _ (ls & _ & _ & ->)]; [|done]. by apply fold_step_opened.
Qed.

(** Reopening puts a reader where the cursor stands. *)
Lemma reopen_after cursor s :
  (forall f, cu_fence cursor = Some f -> opened f /\ info_apart f) ->
  fence_after None (reopen cursor ++ s) = fence_after (cu_fence cursor) s.
Proof.
  intros H. unfold reopen. destruct (cu_fence cursor) as [f|]; [|done]. destruct (H f eq_refl) as [Ho Ha].
  unfold fence_after. rewrite <- !app_assoc. simpl. rewrite app_assoc, split_app, fold_left_app.
  rewrite (split_single (f_marker f ++ f_info f)) by (by apply opened_line). simpl. by rewrite reopened.
Qed.

(** ** The loop *)

(** The iterations of [splitMarkdown]: the cursor and the text left. *)
Inductive reached (text : jstr) (max : Z) : Cursor -> jstr -> Prop :=
| reached_start : reached text max START text
| reached_next cursor rest :
    reached text max cursor rest -> rest <> [] ->
    let chunk := takeChunk rest (Z.max 1 (max - Z.of_nat (length (reopen cursor)))) cursor in
    reached text max (ch_cursor chunk) (ch_rest chunk).

Lemma reached_ok text max cursor rest :
  reached text max cursor rest -> rest <> [] ->
  cu_partial cursor = [] /\ forall f, cu_fence cursor = Some f -> opened f.
Proof.
  induction 1 as [|cursor rest Hr IH Hne chunk]; intros Hrest; [done|].
  destruct (IH Hne) as [Hp Ho]. split; [by apply rest_fresh|].
  intros f. by apply chunk_opened.
Qed.

Lemma split_loop_cons fuel max cursor c t :
  split_loop (S fuel) max cursor (c :: t) =
    (let chunk := takeChunk (c :: t) (Z.max 1 (max - Z.of_nat (length (reopen cursor)))) cursor in
     pieces ← split_loop fuel max (ch_cursor chunk) (ch_rest chunk);
     Some (match ch_head chunk with [] => pieces | _ => (reopen cursor ++ ch_head chunk) :: pieces end)).
Proof. done. Qed.

(** A property of every piece the loop reaches holds of the pieces; one that
    needs the text to go on, of all but the last. *)
Lemma split_loop_pieces (P Q : jstr -> Prop) text max :
  (forall cursor rest, reached text max cursor rest -> rest <> [] ->
     let chunk := takeChunk rest (Z.max 1 (max - Z.of_nat (length (reopen cursor)))) cursor in
     P (reopen cursor ++ ch_head chunk) /\ (ch_rest chunk <> [] -> Q (reopen cursor ++ ch_head chunk))) ->
  forall pieces, splitMarkdown text max = Some pieces -> Forall P pieces /\ Forall Q (removelast pieces).
Proof.
  intros HPQ. unfold splitMarkdown. generalize (length text) as fuel. intros fuel.
  generalize (reached_start text max). generalize START, text at 2 3. intros cursor rest.
  revert cursor rest; induction fuel as [|fuel IH]; intros cursor [|c t] Hr pieces H; try (injection H as <-; done); [done|].
  rewrite split_loop_cons in H. cbv zeta in H.
  destruct (HPQ cursor (c :: t) Hr ltac:(done)) as [HP HQ].
  pose proof (reached_next text max cursor (c :: t) Hr ltac:(done)) as Hn. cbv zeta in HP, HQ, Hn.
  set (chunk := takeChunk _ _ _) in *.
  destruct (split_loop fuel max (ch_cursor chunk) (ch_rest chunk)) as [q|] eqn:E; [|done]. simpl in H. simplify_eq.
  destruct (IH _ _ Hn q E) as [HPq HQq]. destruct (ch_head chunk) as [|h hs]; [done|]. split; [by constructor|].
  destruct (decide (ch_rest chunk = [])) as [Er|Er].
  - rewrite Er in E. destruct fuel; simpl in E; by simplify_eq.
  - destruct q as [|p q]; [constructor|]. constructor; [by apply HQ|done].
Qed.

(** One turn of the loop: the line that reopens a fence, the text taken, the
    line that closes its fence, and the blanks dropped behind it. *)
Record cut := mkCut { c_prefix : jstr; c_raw : jstr; c_close : jstr; c_sep : jstr }.

Definition cut_wf (c : cut) : Prop :=
  Forall blank (c_sep c) /\ close_of (c_close c) /\ (exists cursor, c_prefix c = reopen cursor).
Definition cut_piece (c : cut) : jstr := c_prefix c ++ c_raw c ++ c_close c.
Definition cut_text (c : cut) : jstr := c_raw c ++ c_sep c.

Lemma split_loop_cuts fuel max cursor rest :
  (length rest <= fuel)%nat -> (rest <> [] -> cu_partial cursor = []) ->
  exists cuts, Forall cut_wf cuts /\ rest = concat (map cut_text cuts) /\
    split_loop fuel max cursor rest =
      Some (map cut_piece (filter (fun c => c_raw c ++ c_close c <> []) cuts)).
Proof.
  revert cursor rest; induction fuel as [|fuel IH]; intros cursor [|c t] Hf Hp; try (by exists []); [simpl in Hf; lia|].
  rewrite split_loop_cons. cbv zeta. set (budget := Z.max 1 _). clearbody budget.
  pose proof (take_shrinks (c :: t) budget cursor ltac:(done)) as Hlt.
  pose proof (rest_fresh (c :: t) budget cursor) as Hfresh.
  destruct (chunk_anatomy (c :: t) budget cursor) as (raw & close & sep & Hh & Ht & Hs & Hc).
  set (chunk := takeChunk _ _ _) in *. clearbody chunk.
  destruct (IH (ch_cursor chunk) (ch_rest chunk)) as (cuts & Hwf & Hrest & Hloop); [lia|done|].
  exists (mkCut (reopen cursor) raw close sep :: cuts). split_and!.
  - constructor; [|done]. split_and!; [done|done|by exists cursor].
  - simpl. unfold cut_text at 1. simpl. by rewrite <- Hrest, <- app_assoc.
  - rewrite Hloop. simpl. f_equal. rewrite filter_cons. simpl. rewrite <- Hh.
    destruct (ch_head chunk); case_decide; try done. simpl. unfold cut_piece at 2. simpl. by rewrite <- Hh.
Qed.

(** C35: splitting ends, and loses nothing but blanks at its cuts. For every
    text and limit the loop of [splitMarkdown] returns; the text is the
    taken slices, in order, each followed by the newlines or spaces dropped
    behind it; and each piece is its slice between the line that reopens a
    fence and the line that closes one. *)
Theorem split_total_lossless text max :
  exists cuts, Forall cut_wf cuts /\ text = concat (map cut_text cuts) /\
    splitMarkdown text max = Some (map cut_piece (filter (fun c => c_raw c ++ c_close c <> []) cuts)).
Proof. by apply split_loop_cuts. Qed.

(** A piece keeps to the limit as long as every reopened fence leaves
    room for its own closing and one character of text. *)
Theorem split_bounded text max pieces :
  (forall cursor rest, reached text max cursor rest -> rest <> [] ->
     (Z.of_nat (length (reopen cursor)) + Z.of_nat (reserve rest cursor) < max)%Z) ->
  splitMarkdown text max = Some pieces ->
  Forall (fun piece => (Z.of_nat (length piece) <= max)%Z) pieces.
Proof.
  intros Hroom Hs. refine (proj1 (split_loop_pieces _ (fun _ => True) text max _ pieces Hs)).
  intros cursor rest Hr Hne. cbv zeta. split; [|done]. specialize (Hroom cursor rest Hr Hne).
  destruct (reached_ok _ _ _ _ Hr Hne) as [Hp Ho]. rewrite length_app.
  pose proof (head_bounded rest (Z.max 1 (max - Z.of_nat (length (reopen cursor)))) cursor Hp ltac:(lia)) as H.
  specialize (H ltac:(intros f Hf; by apply opened_marker, Ho)). lia.
Qed.

(** A piece stands alone. Read from the top of a fresh message, every
    piece but the last ends with no fence open, as long as no cut breaks a
    fence line itself and no tilde fence's info string starts with a
    tilde. *)
Theorem split_pieces_stand_alone text max pieces :
  (forall cursor rest, reached text max cursor rest -> rest <> [] ->
     (forall f, cu_fence cursor = Some f -> info_apart f) /\
     (forall l, broken_line rest (Z.max 1 (max - Z.of_nat (length (reopen cursor)))) cursor = Some l ->
        fenceLine l = None)) ->
  splitMarkdown text max = Some pieces ->
  Forall (fun piece => fence_after None piece = None) (removelast pieces).
Proof.
  intros Hfine Hs. refine (proj2 (split_loop_pieces (fun _ => True) _ text max _ pieces Hs)).
  intros cursor rest Hr Hne. cbv zeta. split; [done|]. intros Hrest.
  destruct (Hfine cursor rest Hr Hne) as [Hap Hbr]. destruct (reached_ok _ _ _ _ Hr Hne) as [Hp Ho].
  rewrite reopen_after by (intros f Hf; split; [by apply Ho|by apply Hap]). by apply chunk_closed.
Qed.

(** ** A concrete split *)

#[export] Instance Cursor_eq_dec : EqDecision Cursor.
Proof. solve_decision. Defined.

(** The states of the loop, and a way to check something of each. *)
Fixpoint visits (fuel : nat) (max : Z) (cursor : Cursor) (rest : jstr) : list (Cursor * jstr) :=
  (cursor, rest) ::
  match fuel, rest with
  | S fuel', _ :: _ =>
      let chunk := takeChunk rest (Z.max 1 (max - Z.of_nat (length (reopen cursor)))) cursor in
      visits fuel' max (ch_cursor chunk) (ch_rest chunk)
  | _, _ => []
  end.

Lemma visits_head fuel max cursor rest : (cursor, rest) ∈ visits fuel max cursor rest.
Proof. destruct fuel; by left. Qed.

Lemma reached_visits text max cursor rest :
  reached text max cursor rest -> (cursor, rest) ∈ visits (length text) max START text.
Proof.
  intros H. cut (exists pre, visits (length text) max START text
    = pre ++ visits (length text - length pre) max cursor rest /\ (length pre + length rest <= length text)%nat).
  { intros (pre & -> & _). apply elem_of_app. right. apply visits_head. }
  induction H as [|cursor rest Hr (pre & IH & Hl) Hne chunk]; [by exists []; rewrite Nat.sub_0_r|].
  destruct (reached_ok _ _ _ _ Hr Hne) as [Hp _].
  pose proof (take_shrinks rest (Z.max 1 (max - Z.of_nat (length (reopen cursor)))) cursor Hne) as Hlt.
  fold chunk in Hlt. exists (pre ++ [(cursor, rest)]). rewrite length_app. simpl. split; [|lia].
  rewrite IH, <- app_assoc. f_equal. destruct rest as [|c t]; [done|]. simpl in Hl.
  replace (length text - length pre)%nat with (S (length text - (length pre + 1)))%nat by lia. done.
Qed.

Lemma reached_all (ok : Cursor * jstr -> bool) text max :
  forallb ok (visits (length text) max START text) = true ->
  forall cursor rest, reached text max cursor rest -> ok (cursor, rest) = true.
Proof. intros H cursor rest Hr%reached_visits%list_elem_of_In. rewrite forallb_forall in H. by apply H. Qed.

Definition sample_answer : jstr :=
  js "para one" ++ [10%N; 10%N] ++ js "```ts" ++ [10%N] ++ js "let x = 1;" ++ [10%N] ++ js "let y = 2;"
  ++ [10%N] ++ js "```" ++ [10%N] ++ js "tail of the text that is rather long indeed".
Definition sample_pieces : list jstr :=
  [js "para one" ++ [10%N; 10%N] ++ js "```ts" ++ [10%N] ++ js "let x = 1;" ++ [10%N] ++ js "```";
   js "```ts" ++ [10%N] ++ js "let y = 2;" ++ [10%N] ++ js "```";
   js "tail of the text that is"; js "rather long indeed"].

Lemma split_bounded_witness :
  splitMarkdown sample_answer 30 = Some sample_pieces /\
  Forall (fun piece => (Z.of_nat (length piece) <= 30)%Z) sample_pieces.
Proof.
  split; [evaluated|]. apply (split_bounded sample_answer 30); [|evaluated].
  intros cursor rest Hr _.
  apply (reached_all (fun s => Z.of_nat (length (reopen s.1)) + Z.of_nat (reserve s.2 s.1) <? 30)%Z) in Hr; [|evaluated].
  by apply Z.ltb_lt in Hr.
Defined.

Lemma split_pieces_stand_alone_witness :
  splitMarkdown sample_answer 30 = Some sample_pieces /\
  Forall (fun piece => fence_after None piece = None) (removelast sample_pieces).
Proof.
  split; [evaluated|]. apply (split_pieces_stand_alone sample_answer 30); [|evaluated].
  intros cursor rest Hr _. split.
  - intros f Hf c Hc. apply (reached_all (fun s => match cu_fence s.1 with
      | Some f => negb (bool_decide (head (f_marker f) = head (f_info f))) | None => true end)) in Hr; [|evaluated].
    simpl in Hr. rewrite Hf in Hr. apply negb_true_iff, bool_decide_eq_false in Hr. congruence.
  - intros l Hl. apply (reached_all (fun s =>
      match broken_line s.2 (Z.max 1 (30 - Z.of_nat (length (reopen s.1)))) s.1 with
      | Some l => bool_decide (fenceLine l = None) | None => true end)) in Hr; [|evaluated].
    simpl in Hr. rewrite Hl in Hr. by apply bool_decide_eq_true in Hr.
Defined.

(** Where the comments promise more than the code keeps: a cut that breaks
    an opening line leaves the fence open in the piece before it, and an
    opening line almost as long as a message makes a piece too long. *)
Lemma broken_opener_left_open :
  let text := js "```ts title=some/long/path/to.ts" ++ [10%N] ++ js "let x = 1;" ++ [10%N] ++ js "```" in
  match splitMarkdown text 20 with
  | Some (piece :: _) => fence_after None piece <> None
  | _ => False
  end.
Proof. vm_compute. discriminate. Qed.

Lemma long_opener_exceeds_limit :
  let text := js "```aaaaaaaaaaaaa" ++ [10%N] ++ js "let x = 1; let y = 2; let z = 3;" ++ [10%N] ++ js "```" in
  match splitMarkdown text 20 with
  | Some pieces => existsb (fun piece => (20 <? Z.of_nat (length piece))%Z) pieces = true
  | None => False
  end.
Proof. vm_compute. reflexivity. Qed.
