(* ===== verification/Gateway.v ===== *)
(** [apps/discord/src/gateway.ts]: the Gateway connections of one agent and
    the session they share. A connection is cut at its awaits and callbacks:
    the fetch of the connect URL, each socket event, the two heartbeat
    timers and the end of each dispatch handler. *)

From S2P Require Import Prelude.
#[local] Open Scope Z_scope.

(** ** Constants and data *)

Definition GATEWAY_VERSION : Z := 10.

Definition OP_DISPATCH : Z := 0.
Definition OP_HEARTBEAT : Z := 1.
Definition OP_IDENTIFY : Z := 2.
Definition OP_PRESENCE_UPDATE : Z := 3.
Definition OP_RESUME : Z := 6.
Definition OP_RECONNECT : Z := 7.
Definition OP_INVALID_SESSION : Z := 9.
Definition OP_HELLO : Z := 10.
Definition OP_HEARTBEAT_ACK : Z := 11.

Definition GUILDS : Z := Z.shiftl 1 0.
Definition GUILD_MESSAGES : Z := Z.shiftl 1 9.
Definition DIRECT_MESSAGES : Z := Z.shiftl 1 12.
Definition MESSAGE_CONTENT : Z := Z.shiftl 1 15.
Definition BRIDGE_INTENTS : Z :=
  Z.lor (Z.lor (Z.lor GUILDS GUILD_MESSAGES) DIRECT_MESSAGES) MESSAGE_CONTENT.

Definition FATAL_CLOSE : list Z := [4004; 4010; 4011; 4012; 4013; 4014].
Definition SESSION_ENDING_CLOSE : list Z := [4007; 4009].
Definition CLIENT_CLOSE : Z := 4000.

Record GatewaySession := mkGatewaySession {
  gs_sessionId : jstr;
  gs_resumeUrl : jstr;
  gs_seq : option Z;
  gs_userId : jstr }.

(** The store a connection shares with those before and after it: [load]
    reads it, [save] replaces it, [clear] empties it. *)
Abbreviation sessions := (option GatewaySession).

Definition with_seq (session : GatewaySession) (seq : option Z) : GatewaySession :=
  mkGatewaySession (gs_sessionId session) (gs_resumeUrl session) seq (gs_userId session).

Record Frame := mkFrame {
  fr_op : Z;
  fr_d : jsval;
  fr_s : option Z;
  fr_t : option jstr }.

(** What the connection writes to its socket. *)
Inductive outgoing :=
| OHeartbeat (seq : option Z)
| OIdentify (token : jstr) (intents : Z)
| OPresence (presence : jsval)
| OResume (token sessionId : jstr) (seq : option Z).

Record dispatch := mkDispatch {
  di_type : jstr;
  di_data : jsval;
  di_seq : option Z }.

(** [readyState], as far as the code asks. *)
Inductive ready_state := WsNone | WsConnecting | WsOpen | WsClosing | WsClosed.
#[export] Instance ready_state_eq_dec : EqDecision ready_state.
Proof. solve_decision. Defined.

Inductive emitted :=
| EReady
| EResumed
| EClose (code : Z) (fatal : bool).

(** The promise [start] returned. *)
Inductive start_state := NotStarted | Fetching | Connecting | Resolved | Rejected.
#[export] Instance start_state_eq_dec : EqDecision start_state.
Proof. solve_decision. Defined.

(** One [GatewayConnection]. [g_socket] is whether the field holds the
    socket, [g_ready] that socket's own state; [g_chain] the dispatches not
    yet handled, the first being handled; [g_handled] and [g_failed] those
    whose handler returned or threw. *)
Record connection := mkConnection {
  g_socket : bool;
  g_ready : ready_state;
  g_url : jstr;
  g_firstBeat : bool;
  g_beat : bool;
  g_awaitingAck : bool;
  g_seq : option Z;
  g_resuming : bool;
  g_closed : bool;
  g_chain : list dispatch;
  g_selfId : option jstr;
  g_start : start_state;
  g_sent : list outgoing;
  g_events : list emitted;
  g_received : list dispatch;
  g_handled : list dispatch;
  g_failed : list dispatch;
  g_threw : bool }.

Definition new_connection : connection :=
  mkConnection false WsNone [] false false false None false false [] None NotStarted [] [] [] [] [] false.

(** ** Field updates *)

Definition with_socket (held : bool) (ready : ready_state) (c : connection) : connection :=
  mkConnection held ready (g_url c) (g_firstBeat c) (g_beat c) (g_awaitingAck c) (g_seq c) (g_resuming c)
    (g_closed c) (g_chain c) (g_selfId c) (g_start c) (g_sent c) (g_events c) (g_received c) (g_handled c)
    (g_failed c) (g_threw c).
Definition with_url (url : jstr) (c : connection) : connection :=
  mkConnection (g_socket c) (g_ready c) url (g_firstBeat c) (g_beat c) (g_awaitingAck c) (g_seq c)
    (g_resuming c) (g_closed c) (g_chain c) (g_selfId c) (g_start c) (g_sent c) (g_events c) (g_received c)
    (g_handled c) (g_failed c) (g_threw c).
Definition with_timers (first beat : bool) (c : connection) : connection :=
  mkConnection (g_socket c) (g_ready c) (g_url c) first beat (g_awaitingAck c) (g_seq c) (g_resuming c)
    (g_closed c) (g_chain c) (g_selfId c) (g_start c) (g_sent c) (g_events c) (g_received c) (g_handled c)
    (g_failed c) (g_threw c).
Definition with_ack (awaiting : bool) (c : connection) : connection :=
  mkConnection (g_socket c) (g_ready c) (g_url c) (g_firstBeat c) (g_beat c) awaiting (g_seq c) (g_resuming c)
    (g_closed c) (g_chain c) (g_selfId c) (g_start c) (g_sent c) (g_events c) (g_received c) (g_handled c)
    (g_failed c) (g_threw c).
Definition with_last_seq (seq : option Z) (c : connection) : connection :=
  mkConnection (g_socket c) (g_ready c) (g_url c) (g_firstBeat c) (g_beat c) (g_awaitingAck c) seq (g_resuming c)
    (g_closed c) (g_chain c) (g_selfId c) (g_start c) (g_sent c) (g_events c) (g_received c) (g_handled c)
    (g_failed c) (g_threw c).
Definition with_resuming (resuming : bool) (c : connection) : connection :=
  mkConnection (g_socket c) (g_ready c) (g_url c) (g_firstBeat c) (g_beat c) (g_awaitingAck c) (g_seq c) resuming
    (g_closed c) (g_chain c) (g_selfId c) (g_start c) (g_sent c) (g_events c) (g_received c) (g_handled c)
    (g_failed c) (g_threw c).
Definition with_closed (c : connection) : connection :=
  mkConnection (g_socket c) (g_ready c) (g_url c) (g_firstBeat c) (g_beat c) (g_awaitingAck c) (g_seq c)
    (g_resuming c) true (g_chain c) (g_selfId c) (g_start c) (g_sent c) (g_events c) (g_received c)
    (g_handled c) (g_failed c) (g_threw c).
Definition with_chain (chain received handled failed : list dispatch) (c : connection) : connection :=
  mkConnection (g_socket c) (g_ready c) (g_url c) (g_firstBeat c) (g_beat c) (g_awaitingAck c) (g_seq c)
    (g_resuming c) (g_closed c) chain (g_selfId c) (g_start c) (g_sent c) (g_events c) received handled failed
    (g_threw c).
Definition with_self (id : option jstr) (c : connection) : connection :=
  mkConnection (g_socket c) (g_ready c) (g_url c) (g_firstBeat c) (g_beat c) (g_awaitingAck c) (g_seq c)
    (g_resuming c) (g_closed c) (g_chain c) id (g_start c) (g_sent c) (g_events c) (g_received c) (g_handled c)
    (g_failed c) (g_threw c).
Definition with_start (s : start_state) (c : connection) : connection :=
  mkConnection (g_socket c) (g_ready c) (g_url c) (g_firstBeat c) (g_beat c) (g_awaitingAck c) (g_seq c)
    (g_resuming c) (g_closed c) (g_chain c) (g_selfId c) s (g_sent c) (g_events c) (g_received c) (g_handled c)
    (g_failed c) (g_threw c).
Definition with_sent (o : outgoing) (c : connection) : connection :=
  mkConnection (g_socket c) (g_ready c) (g_url c) (g_firstBeat c) (g_beat c) (g_awaitingAck c) (g_seq c)
    (g_resuming c) (g_closed c) (g_chain c) (g_selfId c) (g_start c) (g_sent c ++ [o]) (g_events c)
    (g_received c) (g_handled c) (g_failed c) (g_threw c).
Definition emit (e : emitted) (c : connection) : connection :=
  mkConnection (g_socket c) (g_ready c) (g_url c) (g_firstBeat c) (g_beat c) (g_awaitingAck c) (g_seq c)
    (g_resuming c) (g_closed c) (g_chain c) (g_selfId c) (g_start c) (g_sent c) (g_events c ++ [e])
    (g_received c) (g_handled c) (g_failed c) (g_threw c).
Definition throw (c : connection) : connection :=
  mkConnection (g_socket c) (g_ready c) (g_url c) (g_firstBeat c) (g_beat c) (g_awaitingAck c) (g_seq c)
    (g_resuming c) (g_closed c) (g_chain c) (g_selfId c) (g_start c) (g_sent c) (g_events c) (g_received c)
    (g_handled c) (g_failed c) true.

(** ** The connection

    Its functions take and return the shared session beside it. *)

Abbreviation state := (sessions * connection)%type.

(** The connections of one agent, oldest first, over one session. *)
Abbreviation gateways := (sessions * list connection)%type.

Section Connection.
(** The bot's token, and what [new URL] accepts. *)
Context (token : jstr) (valid_url : jstr -> bool).

Definition stopBeat (c : connection) : connection := with_timers false false c.

(** [socket.close] and [socket.terminate]: the close event comes later. *)
Definition close_socket (c : connection) : connection :=
  match g_ready c with
  | WsOpen | WsConnecting => with_socket (g_socket c) WsClosing c
  | _ => c
  end.

(** A frame for a socket that is not open is dropped. *)
Definition send (frame : outgoing) (c : connection) : connection :=
  if g_socket c && bool_decide (g_ready c = WsOpen) then with_sent frame c else c.

Definition sendBeat (c : connection) : connection :=
  if bool_decide (g_ready c = WsOpen) then with_ack true (with_sent (OHeartbeat (g_seq c)) c) else c.

Definition startBeat (c : connection) : connection := with_timers true false (with_ack false (stopBeat c)).
Definition firstBeat_fired (c : connection) : connection :=
  let c1 := sendBeat (with_timers false (g_beat c) c) in with_timers (g_firstBeat c1) true c1.
Definition beat_fired (c : connection) : connection :=
  if g_awaitingAck c then close_socket c else sendBeat c.

Definition connect_url (base : jstr) : jstr :=
  base ++ (if includes (js "?") base then js "&" else js "?") ++ js "v=" ++ show_Z GATEWAY_VERSION
  ++ js "&encoding=json".

(** [start] from the URL on: a socket is opened, whatever happened since. *)
Definition open_socket (base : jstr) (c : connection) : connection :=
  let url := connect_url base in
  if valid_url url then with_start Connecting (with_url url (with_socket true WsConnecting c))
  else with_start Rejected c.

Definition start (s : state) : state :=
  let (session, c) := s in
  let c1 := with_self (gs_userId <$> session)
              (with_last_seq (session ≫= gs_seq) (with_resuming (present session) c)) in
  (session, match session with
            | Some x => open_socket (gs_resumeUrl x) c1
            | None => with_start Fetching c1
            end).

(** The answer of [GET /gateway/bot]: the URL, if it gave one. *)
Definition gatewayUrl_done (url : option jstr) (c : connection) : connection :=
  match url with Some base => open_socket base c | None => with_start Rejected c end.

(** The first of [resolve] and [reject] settles the promise. *)
Definition settle_start (s : start_state) (c : connection) : connection :=
  match g_start c with Connecting => with_start s c | _ => c end.

Definition stop (c : connection) : connection :=
  let c1 := stopBeat (with_closed c) in
  with_socket false (g_ready (if g_socket c1 then close_socket c1 else c1)) c1.

Definition setPresence (presence : jsval) (c : connection) : connection := send (OPresence presence) c.

(** A READY as documented: strings for the session, the URL and the user;
    reading through anything else throws. *)
Definition ready_of (d : jsval) : option (jstr * jstr * jstr) :=
  match as_str (prop d (js "session_id")), as_str (prop d (js "resume_gateway_url")),
        as_str (prop (prop d (js "user")) (js "id")) with
  | Some i, Some u, Some x => Some (i, u, x)
  | _, _, _ => None
  end.

Definition onSessionDispatch (type : jstr) (data : jsval) (s : state) : state :=
  let (session, c) := s in
  if jeqb type (js "READY") then
    match ready_of data with
    | None => (session, throw c)
    | Some (id, url, user) =>
        (Some (mkGatewaySession id url (g_seq c) user),
         settle_start Resolved (emit EReady (with_self (Some user) c)))
    end
  else
    (match session with
     | Some x =>
         if negb (bool_decide (g_seq c = None)) && negb (bool_decide (gs_seq x = g_seq c))
         then Some (with_seq x (g_seq c)) else session
     | None => session
     end,
     settle_start Resolved (emit EResumed (with_resuming false c))).

Definition onDispatchFrame (type : jstr) (data : jsval) (seq : option Z) (s : state) : state :=
  if jeqb type (js "READY") || jeqb type (js "RESUMED") then onSessionDispatch type data s
  else
    let (session, c) := s in
    let d := mkDispatch type data seq in
    (session, with_chain (g_chain c ++ [d]) (g_received c ++ [d]) (g_handled c) (g_failed c) c).

(** The handler of the first dispatch of the chain is done. *)
Definition dispatch_done (ok : bool) (s : state) : state :=
  let (session, c) := s in
  match g_chain c with
  | [] => s
  | d :: rest =>
      if ok then
        (match di_seq d, session with
         | Some _, Some x => if bool_decide (gs_seq x = di_seq d) then session else Some (with_seq x (di_seq d))
         | _, _ => session
         end,
         with_chain rest (g_received c) (g_handled c ++ [d]) (g_failed c) c)
      else (session, with_chain rest (g_received c) (g_handled c) (g_failed c ++ [d]) c)
  end.

(** Reading a field of it throws. *)
Definition nullish (v : jsval) : bool := match v with VUndef | VNull => true | _ => false end.

Definition onFrame (f : Frame) (s : state) : state :=
  let (session, c0) := s in
  let c := match fr_s f with Some n => with_last_seq (Some n) c0 | None => c0 end in
  if fr_op f =? OP_HELLO then
    if nullish (fr_d f) then (session, throw c) else
    let c1 := startBeat c in
    if g_resuming c1 then
      match session with
      | None => (session, throw c1)
      | Some x => (session, send (OResume token (gs_sessionId x) (g_seq c1)) c1)
      end
    else (session, send (OIdentify token BRIDGE_INTENTS) c1)
  else if fr_op f =? OP_HEARTBEAT_ACK then (session, with_ack false c)
  else if fr_op f =? OP_HEARTBEAT then (session, send (OHeartbeat (g_seq c)) c)
  else if fr_op f =? OP_RECONNECT then (session, close_socket c)
  else if fr_op f =? OP_INVALID_SESSION then
    (match fr_d f with VBool true => session | _ => None end, close_socket c)
  else if fr_op f =? OP_DISPATCH then onDispatchFrame (default [] (fr_t f)) (fr_d f) (fr_s f) (session, c)
  else (session, c).

Definition onClose (code : Z) (s : state) : state :=
  let (session, c0) := s in
  let c := with_socket false WsClosed (stopBeat c0) in
  if g_closed c then (session, c)
  else
    (if bool_decide (code ∈ SESSION_ENDING_CLOSE) then None else session,
     emit (EClose code (bool_decide (code ∈ FATAL_CLOSE))) (with_closed c)).

(** ** Events *)

Inductive gevent :=
| GStart
| GUrl (url : option jstr)
| GOpen
| GFrame (f : Frame)
| GError
| GClose (code : Z)
| GStop
| GPresence (presence : jsval)
| GFirstBeat
| GBeat
| GDone (ok : bool).

(** What can happen to a connection, given where it stands: a socket speaks
    only while it is open or closing and closes once, a timer fires only
    while it is armed, and a handler ends only if one runs. *)
Definition gstep (e : gevent) (s : state) : option state :=
  let (session, c) := s in
  match e with
  | GStart => if decide (g_start c = NotStarted) then Some (start s) else None
  | GUrl url => if decide (g_start c = Fetching) then Some (session, gatewayUrl_done url c) else None
  | GOpen => if decide (g_ready c = WsConnecting) then Some (session, with_socket (g_socket c) WsOpen c) else None
  | GFrame f => if decide (g_ready c = WsOpen \/ g_ready c = WsClosing) then Some (onFrame f s) else None
  | GError => if decide (g_ready c = WsNone \/ g_ready c = WsClosed) then None
              else Some (session, settle_start Rejected c)
  | GClose code =>
      if decide (g_ready c = WsNone \/ g_ready c = WsClosed) then None
      else let (session1, c1) := onClose code s in Some (session1, settle_start Rejected c1)
  | GStop => Some (session, stop c)
  | GPresence p => Some (session, setPresence p c)
  | GFirstBeat => if g_firstBeat c then Some (session, firstBeat_fired c) else None
  | GBeat => if g_beat c then Some (session, beat_fired c) else None
  | GDone ok => match g_chain c with [] => None | _ => Some (dispatch_done ok s) end
  end.

Fixpoint grun (es : list gevent) (s : state) : option state :=
  match es with
  | [] => Some s
  | e :: rest => s1 ← gstep e s; grun rest s1
  end.

Inductive wevent :=
| WNew
| WOn (k : nat) (e : gevent).

Definition wstep (e : wevent) (w : gateways) : option gateways :=
  let (session, cs) := w in
  match e with
  | WNew => Some (session, cs ++ [new_connection])
  | WOn k e =>
      c ← cs !! k;
      s1 ← gstep e (session, c);
      Some (s1.1, <[k := s1.2]> cs)
  end.

Fixpoint wrun (es : list wevent) (w : gateways) : option gateways :=
  match es with
  | [] => Some w
  | e :: rest => w1 ← wstep e w; wrun rest w1
  end.
End Connection.
