(* ===== verification/GatewayRuns.v ===== *)
(** What the connections of [Gateway] guarantee about delivery: while no
    session dispatch overtakes one, the sequence a resume replays from is
    behind every dispatch whose handler has not ended; and what moves it past
    one. *)

From S2P Require Import Prelude Gateway.
#[local] Open Scope Z_scope.

Section Runs.
Context (token : jstr) (valid_url : jstr -> bool).
#[local] Abbreviation gstep := (gstep token valid_url).
#[local] Abbreviation grun := (grun token valid_url).

(** The sequence a resume would replay from. *)
Definition persisted (session : sessions) : option Z := session ≫= gs_seq.

Definition above (o : option Z) (m : Z) : Prop := forall n, o = Some n -> n < m.
Definition at_most (o p : option Z) : Prop := forall m, o = Some m -> exists n, p = Some n /\ m <= n.

(** Discord's side: a dispatch carries a sequence above every one before it,
    no other frame carries one, and a session dispatch comes when nothing is
    in flight. *)
Definition frame_in_order (f : Frame) (c : connection) : Prop :=
  if fr_op f =? OP_DISPATCH then
    (exists m, fr_s f = Some m /\ above (g_seq c) m) /\
    (jeqb (default [] (fr_t f)) (js "READY") || jeqb (default [] (fr_t f)) (js "RESUMED") = true -> g_chain c = [])
  else fr_s f = None.

(** ... in a whole run, in which handlers may throw. *)
Fixpoint in_order (es : list gevent) (s : state) : Prop :=
  match es with
  | [] => True
  | e :: rest =>
      match e with
      | GFrame f => frame_in_order f s.2
      | _ => True
      end /\ match gstep e s with Some s1 => in_order rest s1 | None => True end
  end.

(** Sequences ascend along the chain, from above the persisted one up to the
    last one received; what was received is in the chain, or its handler has
    returned or thrown. *)
Record behind (s : state) : Prop := mkBehind {
  bh_split : forall d, d ∈ g_received s.2 -> d ∈ g_handled s.2 \/ d ∈ g_failed s.2 \/ d ∈ g_chain s.2;
  bh_chain : forall d, d ∈ g_chain s.2 ->
    exists m, di_seq d = Some m /\ above (persisted s.1) m /\ at_most (Some m) (g_seq s.2);
  bh_sorted : forall a d b, g_chain s.2 = a ++ d :: b ->
    forall d' m m', d' ∈ b -> di_seq d = Some m -> di_seq d' = Some m' -> m < m';
  bh_idle : g_start s.2 = NotStarted -> g_received s.2 = [] /\ g_chain s.2 = [] /\ g_ready s.2 = WsNone;
  bh_last : g_start s.2 <> NotStarted -> at_most (persisted s.1) (g_seq s.2) }.


Lemma no_later_trans o p q : at_most o p -> at_most p q -> at_most o q.
Proof. intros H1 H2 m (n & -> & Hn)%H1. destruct (H2 n eq_refl) as (k & -> & Hk). exists k. split; [done|lia]. Qed.

Lemma above_at_most o m : above o m -> at_most o (Some m).
Proof. intros H n Hn. exists m. split; [done|]. specialize (H n Hn). lia. Qed.

(** What leaves delivery alone. *)
Record quiet (c c' : connection) : Prop := mkQuiet {
  qu_received : g_received c' = g_received c;
  qu_handled : g_handled c' = g_handled c;
  qu_failed : g_failed c' = g_failed c;
  qu_chain : g_chain c' = g_chain c;
  qu_seq : g_seq c' = g_seq c;
  qu_start : g_start c' = NotStarted <-> g_start c = NotStarted;
  qu_idle : g_start c = NotStarted -> g_ready c = WsNone -> g_ready c' = WsNone }.

Lemma quiet_trans a b c : quiet a b -> quiet b c -> quiet a c.
Proof.
  intros [] []. split; [congruence..|tauto|]. intros Hs Hr. apply qu_idle1; [by apply qu_start0|auto].
Qed.

Lemma behind_quiet session session' c c' :
  behind (session, c) -> quiet c c' -> session' = session \/ session' = None -> behind (session', c').
Proof.
  intros [A B C I D] [Er Eh Ef Ec Es Est Ei] Hsess. split; simpl in *; rewrite ?Er, ?Eh, ?Ef, ?Ec, ?Es; [done| |done| |].
  - intros d Hd. destruct (B d Hd) as (m & Hm & Ha & Hl). exists m. split_and!; [done| |done].
    destruct Hsess as [-> | ->]; [done|]. intros n Hn. done.
  - intros Hs%Est. destruct (I Hs) as (? & ? & ?). auto.
  - rewrite Est. intros Hs. specialize (D Hs). destruct Hsess as [-> | ->]; [done|]. intros n Hn. done.
Qed.

Ltac settle_quiet := split; simpl; try done; first [intros; congruence|split; congruence|tauto].

Lemma quiet_stop c : quiet c (stop c).
Proof. unfold stop. destruct c as [held ready]; destruct held, ready; split; done. Qed.
Lemma quiet_close_socket c : quiet c (close_socket c).
Proof. unfold close_socket. case_match; settle_quiet. Qed.
Lemma quiet_send o c : quiet c (send o c).
Proof. unfold send. case_match; split; done. Qed.
Lemma quiet_sendBeat c : quiet c (sendBeat c).
Proof. unfold sendBeat. case_match; split; done. Qed.
Lemma quiet_beat c : quiet c (beat_fired c).
Proof. unfold beat_fired. case_match; [apply quiet_close_socket|apply quiet_sendBeat]. Qed.
Lemma quiet_firstBeat c : quiet c (firstBeat_fired c).
Proof.
  unfold firstBeat_fired. cbv zeta. set (c0 := with_timers false (g_beat c) c).
  apply quiet_trans with (sendBeat c0); [|by split].
  apply quiet_trans with c0; [by split|apply quiet_sendBeat].
Qed.
Lemma quiet_settle r c : r <> NotStarted -> quiet c (settle_start r c).
Proof. intros Hr. unfold settle_start. case_match; settle_quiet. Qed.
Lemma quiet_opened base c : g_start c = Fetching -> quiet c (open_socket valid_url base c).
Proof. intros H. unfold open_socket. case_match; settle_quiet. Qed.
Hint Resolve quiet_stop quiet_close_socket quiet_send quiet_sendBeat quiet_beat quiet_firstBeat : thicket.

(** An ordinary dispatch joins the chain. *)
Lemma behind_received session c d m :
  behind (session, c) -> g_ready c <> WsNone -> di_seq d = Some m -> above (g_seq c) m ->
  behind (session, with_chain (g_chain c ++ [d]) (g_received c ++ [d]) (g_handled c) (g_failed c)
                     (with_last_seq (Some m) c)).
Proof.
  intros [A B C I D] Hw Hm Hab. simpl in *.
  assert (Hs : g_start c <> NotStarted) by (intros Hs; by destruct (I Hs) as (_ & _ & ?)). specialize (D Hs).
  assert (Hpm : at_most (persisted session) (Some m)) by (by eapply no_later_trans, above_at_most).
  assert (Hlow : forall e k, e ∈ g_chain c -> di_seq e = Some k -> k < m).
  { intros e k He Hk. destruct (B e He) as (k' & Hk' & _ & Hle). simpl in *.
    destruct (Hle k' eq_refl) as (n & Hn & ?). specialize (Hab n Hn). simplify_eq. lia. }
  split; simpl in *.
  - intros e. rewrite !elem_of_app. intros [He|He]; [|by right; right; right]. destruct (A e He) as [?|[?|?]]; auto.
  - intros e [He|He]%elem_of_app.
    + destruct (B e He) as (k & Hk & Ha & _). exists k. split_and!; [done|done|].
      intros x [= <-]. exists m. split; [done|]. specialize (Hlow e k He Hk). lia.
    + apply list_elem_of_singleton in He as ->. exists m. split_and!; [done| |by intros ? [= <-]; exists m].
      intros n Hn. destruct (D n Hn) as (x & Hx & ?). specialize (Hab x Hx). lia.
  - intros a e b Hsplit e' k k' He' Hk Hk'.
    destruct (exists_last (l := b)) as (b0 & x & ->); [by intros ->; apply elem_of_nil in He'|].
    rewrite app_comm_cons, app_assoc in Hsplit. apply app_inj_tail in Hsplit as [Hc <-].
    apply elem_of_app in He' as [He'|He'].
    + by apply (C a e b0 Hc e').
    + apply list_elem_of_singleton in He' as ->. simplify_eq. apply (Hlow e); [|done].
      rewrite Hc. apply elem_of_app. right. by left.
  - done.
  - done.
Qed.

(** A session dispatch records the last sequence, with nothing in flight. *)
Lemma behind_saved session c c' m :
  behind (session, c) -> g_chain c = [] -> quiet (with_last_seq (Some m) c) c' -> g_ready c <> WsNone ->
  above (g_seq c) m ->
  forall session', persisted session' = Some m \/ session' = session \/ session' = None -> behind (session', c').
Proof.
  intros [A B C I D] Hc [Er Eh Ef Ec Es Est _] Hw Hab session' Hs. simpl in *.
  assert (Hn : g_start c <> NotStarted) by (intros Hn; by destruct (I Hn) as (_ & _ & ?)). specialize (D Hn).
  split; simpl; rewrite ?Er, ?Eh, ?Ef, ?Ec, ?Es, ?Est; [done|rewrite Hc; set_solver|by rewrite Hc; intros [|? ?]|done|intros _].
  destruct Hs as [Hs|[-> | ->]]; [|by eapply no_later_trans, above_at_most|done].
  rewrite Hs. intros n [= <-]. by exists m.
Qed.

(** The handler of the chain's first dispatch returns, or throws. *)
Lemma behind_done ok s : behind s -> g_chain s.2 <> [] -> behind (dispatch_done ok s).
Proof.
  destruct s as [session c]. intros [A B C I D] Hne. simpl in *. destruct (g_chain c) as [|d rest] eqn:E; [done|].
  destruct (B d (list_elem_of_here _ _)) as (m & Hm & Hab & Hle). rewrite Hm.
  assert (Hnext : forall e, e ∈ rest -> exists k, di_seq e = Some k /\ m < k /\ at_most (Some k) (g_seq c)).
  { intros e He. destruct (B e (list_elem_of_further _ _ _ He)) as (k & Hk & _ & Hkl). exists k.
    split_and!; [done| |done]. by apply (C [] d rest eq_refl e m k). }
  assert (Hp : forall session' handled failed, (forall e, e ∈ g_handled c \/ e ∈ g_failed c \/ e = d -> e ∈ handled \/ e ∈ failed) ->
            at_most (persisted session') (Some m) -> (persisted session' <> None -> at_most (persisted session') (g_seq c)) ->
            behind (session', with_chain rest (g_received c) handled failed c)).
  { intros session' handled failed Hd Hs Hseq. split; simpl.
    - intros e [He|[He|He]]%A; [destruct (Hd e); tauto..|]. apply elem_of_cons in He as [->|He]; [destruct (Hd d); tauto|tauto].
    - intros e He. destruct (Hnext e He) as (k & Hk & Hmk & Hkl). exists k. split_and!; [done| |done].
      intros n Hn. destruct (Hs n Hn) as (? & [= <-] & ?). lia.
    - intros a e b Hab'. apply (C (d :: a) e b). by rewrite Hab'.
    - intros Hn. by destruct (I Hn) as (_ & ? & _).
    - intros Hn n Hp. apply Hseq; [by rewrite Hp|done]. }
  assert (Hold : at_most (persisted session) (Some m)) by (by apply above_at_most).
  assert (Hkeep : persisted session <> None -> at_most (persisted session) (g_seq c)).
  { intros _. eapply no_later_trans; [exact Hold|done]. }
  destruct ok.
  - assert (Hd : forall e, e ∈ g_handled c \/ e ∈ g_failed c \/ e = d -> e ∈ g_handled c ++ [d] \/ e ∈ g_failed c).
    { intros e [?|[?| ->]]; [left; apply elem_of_app; by left|by right|left; apply elem_of_app; right; by left]. }
    destruct session as [x|]; [|by apply Hp].
    case_bool_decide as Hx; apply Hp; try done; simpl; try (intros _; done). intros k [= <-]. by exists m.
  - apply Hp; [|done|done]. intros e [?|[?| ->]]; [by left|right; apply elem_of_app; by left|right; apply elem_of_app; right; by left].
Qed.

Lemma session_dispatch_behind session c type data m :
  behind (session, c) -> g_ready c <> WsNone -> g_chain c = [] -> above (g_seq c) m ->
  behind (onSessionDispatch type data (session, with_last_seq (Some m) c)).
Proof.
  intros Hb Hw Hc Hab. unfold onSessionDispatch. destruct (jeqb type (js "READY")).
  - destruct (ready_of data) as [[[id url] user]|].
    + eapply (behind_saved _ _ _ m Hb Hc); [|done|done|by left].
      apply quiet_trans with (emit EReady (with_self (Some user) (with_last_seq (Some m) c))); [by split|].
      by apply quiet_settle.
    + eapply (behind_saved _ _ _ m Hb Hc); [by split|done|done|by right; left].
  - eapply (behind_saved _ _ _ m Hb Hc); [|done|done|].
    + apply quiet_trans with (emit EResumed (with_resuming false (with_last_seq (Some m) c))); [by split|].
      by apply quiet_settle.
    + destruct session as [x|]; [|by right; left]. simpl. case_match; [by left|by right; left].
Qed.

Lemma frame_behind f session c :
  behind (session, c) -> g_ready c <> WsNone -> frame_in_order f c -> behind (onFrame token f (session, c)).
Proof.
  intros Hb Hw Hf. unfold onFrame, frame_in_order in *.
  destruct (fr_op f =? OP_DISPATCH) eqn:Ed.
  - apply Z.eqb_eq in Ed. rewrite Ed. simpl. destruct Hf as [(m & Hm & Hab) Hc]. rewrite Hm.
    unfold onDispatchFrame. destruct (jeqb _ (js "READY") || jeqb _ (js "RESUMED")) eqn:Es.
    + by apply session_dispatch_behind; [| |apply Hc|].
    + by apply (behind_received session c _ m).
  - rewrite Hf. repeat case_match; try done; eapply (behind_quiet _ _ _ _ Hb); auto with thicket; try (by split).
    all: eapply quiet_trans; [|apply quiet_send]; by split.
Qed.

Lemma gstep_behind e s s' :
  gstep e s = Some s' ->
  match e with GFrame f => frame_in_order f s.2 | _ => True end ->
  behind s -> behind s'.
Proof.
  destruct s as [session c]. intros H He Hb.
  destruct e as [|url| |f| |code| |presence| | |ok]; cbn [Gateway.gstep] in H; cbn [snd] in He;
    repeat case_decide; simplify_eq.
  - destruct Hb as [A B C I _]. simpl in *. destruct (I ltac:(done)) as (Hr & Hc & Hw).
    destruct session as [x|]; [unfold open_socket; case_match|]; split; simpl; rewrite ?Hr, ?Hc; try done;
      try set_solver; try (by intros [|? ?]); intros _ n Hn; simpl in *; try done; by exists n.
  - eapply (behind_quiet _ _ _ _ Hb); [|by left]. unfold gatewayUrl_done. case_match; [by apply quiet_opened|].
    settle_quiet.
  - eapply (behind_quiet _ _ _ _ Hb); [|by left]. settle_quiet.
  - apply frame_behind; [done| |done]. intuition congruence.
  - eapply (behind_quiet _ _ _ _ Hb); [by apply quiet_settle|by left].
  - destruct (onClose code (session, c)) as [session1 c1] eqn:E. simplify_eq.
    unfold onClose in E. eapply (behind_quiet _ _ _ _ Hb).
    + apply quiet_trans with c1; [|by apply quiet_settle]. case_match; simplify_eq; settle_quiet; intuition congruence.
    + case_match; simplify_eq; [by left|]. case_bool_decide; [by right|by left].
  - eapply (behind_quiet _ _ _ _ Hb); [apply quiet_stop|by left].
  - eapply (behind_quiet _ _ _ _ Hb); [apply quiet_send|by left].
  - destruct (g_firstBeat c); [|done]. simplify_eq. eapply (behind_quiet _ _ _ _ Hb); [apply quiet_firstBeat|by left].
  - destruct (g_beat c); [|done]. simplify_eq. eapply (behind_quiet _ _ _ _ Hb); [apply quiet_beat|by left].
  - destruct (g_chain c) eqn:Ec; [done|]. simplify_eq. apply behind_done; [done|simpl; by rewrite Ec].
Qed.

Lemma grun_behind es s s' : grun es s = Some s' -> in_order es s -> behind s -> behind s'.
Proof.
  revert s; induction es as [|e es IH]; intros s H Ho Hb; simpl in H, Ho; [by simplify_eq|].
  destruct Ho as [He Ho]. destruct (gstep e s) as [s1|] eqn:E; simpl in H; [|done].
  apply (IH s1 H Ho). apply (gstep_behind e s); [done| |done]. by destruct e.
Qed.

Lemma new_behind session : behind (session, new_connection).
Proof. split; simpl; try done; [set_solver..|by intros [|? ?]]. Qed.

(** C33: delivery is at least once, up to handlers that throw. On a connection
    whose dispatches carry ascending sequences and whose READY and RESUMED
    come with nothing in flight, every dispatch received up to the recorded
    sequence has been handled to its end, or its handler has thrown: a resume
    from there replays every one whose handler has not ended. While no handler
    throws nothing is lost. One that threw is passed as soon as a later one
    returns, and a RESUMED that comes while something is in flight passes
    that: see [sequence_passes_unhandled]. *)
Theorem unhandled_is_replayed session es s :
  grun es (session, new_connection) = Some s -> in_order es (session, new_connection) ->
  forall d m n, d ∈ g_received s.2 -> di_seq d = Some m -> persisted s.1 = Some n ->
    m <= n -> d ∈ g_handled s.2 \/ d ∈ g_failed s.2.
Proof.
  intros H Ho d m n Hd Hm Hn Hle.
  destruct (grun_behind _ _ _ H Ho (new_behind session)) as [A B _ _ _].
  apply A in Hd as [Hd|Hd]; [by left|].
  destruct Hd as [Hd|Hd]; [by right|]. destruct (B d Hd) as (k & Hk & Hab & _). simplify_eq. specialize (Hab n Hn). lia.
Qed.
End Runs.

(** ** Concrete connections *)

Definition frame_ordered (f : Frame) (c : connection) : bool :=
  if fr_op f =? OP_DISPATCH then
    match fr_s f with Some m => match g_seq c with Some n => n <? m | None => true end | None => false end
    && (negb (jeqb (default [] (fr_t f)) (js "READY") || jeqb (default [] (fr_t f)) (js "RESUMED"))
        || match g_chain c with [] => true | _ => false end)
  else match fr_s f with None => true | Some _ => false end.
Fixpoint ordered (token : jstr) (valid_url : jstr -> bool) (es : list gevent) (s : state) : bool :=
  match es with
  | [] => true
  | e :: rest =>
      match e with GFrame f => frame_ordered f s.2 | _ => true end
      && match gstep token valid_url e s with Some s1 => ordered token valid_url rest s1 | None => true end
  end.

Lemma in_order_compute token valid_url es s : ordered token valid_url es s = true -> in_order token valid_url es s.
Proof.
  revert s; induction es as [|e es IH]; intros s; simpl; [done|]. intros [He Hr]%andb_true_iff. split.
  - destruct e; try done. unfold frame_in_order. unfold frame_ordered in He.
    destruct (fr_op f =? OP_DISPATCH) in He |- *; [|by destruct (fr_s f) in He |- *].
    apply andb_true_iff in He as [Hs Hc]. split.
    + destruct (fr_s f) as [m|] in Hs |- *; [|done]. exists m. split; [done|]. intros n Hn. rewrite Hn in Hs. by apply Z.ltb_lt in Hs.
    + intros Ht. rewrite Ht in Hc. simpl in Hc. by destruct (g_chain s.2) in Hc |- *.
  - destruct (gstep _ _ e s); [by apply IH|done].
Qed.

Definition hello : Frame := mkFrame OP_HELLO (VObj [(js "heartbeat_interval", VNum 41250)]) None None.
Definition ready_data (id : jstr) : jsval :=
  VObj [(js "session_id", VStr id); (js "resume_gateway_url", VStr (js "wss://resume"));
        (js "user", VObj [(js "id", VStr (js "99")); (js "username", VStr (js "bot"))])].
Definition ready (id : jstr) (n : Z) : Frame := mkFrame OP_DISPATCH (ready_data id) (Some n) (Some (js "READY")).
Definition resumed (n : Z) : Frame := mkFrame OP_DISPATCH (VObj []) (Some n) (Some (js "RESUMED")).
Definition message (n : Z) : Frame := mkFrame OP_DISPATCH (VObj []) (Some n) (Some (js "MESSAGE_CREATE")).
Definition message_dispatch (n : Z) : dispatch := mkDispatch (js "MESSAGE_CREATE") (VObj []) (Some n).
Definition invalid_session : Frame := mkFrame OP_INVALID_SESSION (VBool false) None None.

Definition identified : list gevent :=
  [GStart; GUrl (Some (js "wss://gateway")); GOpen; GFrame hello; GFrame (ready (js "s1") 1)].
Definition three_messages : list gevent :=
  identified ++ [GFrame (message 2); GFrame (message 3); GFrame (message 4); GFirstBeat; GDone false; GDone true].

Abbreviation run_gateway es := (grun [] (fun _ => true) es (None, new_connection)).
Definition gateway_after (es : list gevent) : state := default (None, new_connection) (run_gateway es).

Lemma gateway_run es : present (run_gateway es) = true -> run_gateway es = Some (gateway_after es).
Proof. apply some_default. Qed.

Lemma unhandled_is_replayed_witness :
  persisted (gateway_after three_messages).1 = Some 3 /\ g_failed (gateway_after three_messages).2 = [message_dispatch 2] /\
  (message_dispatch 3 ∈ g_handled (gateway_after three_messages).2 \/ message_dispatch 3 ∈ g_failed (gateway_after three_messages).2).
Proof.
  split; [evaluated|]. split; [evaluated|].
  apply (unhandled_is_replayed [] (fun _ => true) None three_messages (gateway_after three_messages)) with (m := 3) (n := 3).
  - apply gateway_run. evaluated.
  - apply in_order_compute. evaluated.
  - apply list_elem_of_In. vm_compute. auto.
  - reflexivity.
  - evaluated.
  - done.
Defined.

Abbreviation run_world es := (wrun [] (fun _ => true) es (None, [])).
Definition world_after (es : list wevent) : gateways := default (None, []) (run_world es).
Lemma world_run es : present (run_world es) = true -> run_world es = Some (world_after es).
Proof. apply some_default. Qed.
Definition connection_of (k : nat) (w : gateways) : connection := default new_connection (w.2 !! k).

(** The handler of message 2 throws, that of message 3 returns, and the
    connection that follows resumes. *)
Definition one_fails : list wevent :=
  WNew :: (WOn 0 <$> identified ++ [GFrame (message 2); GFrame (message 3); GDone false; GDone true; GClose 1006])
  ++ WNew :: (WOn 1 <$> [GStart; GOpen; GFrame hello]).

(** The connection resumes, message 2 is replayed, and RESUMED comes while
    its handler runs. *)
Definition resumed_overtakes : list wevent :=
  WNew :: (WOn 0 <$> identified ++ [GClose 1006])
  ++ WNew :: (WOn 1 <$> [GStart; GOpen; GFrame hello; GFrame (message 2); GFrame (resumed 3)]).

(** What a resume no longer replays. A dispatch whose handler threw is
    left behind as soon as the next one's returns: the following connection
    resumes past it. And the RESUMED that ends a replay records its own
    sequence while the replayed dispatches are still being handled. *)
Theorem sequence_passes_unhandled :
  (run_world one_fails = Some (world_after one_fails) /\
   g_failed (connection_of 0 (world_after one_fails)) = [message_dispatch 2] /\
   (message_dispatch 2 ∉ g_handled (connection_of 0 (world_after one_fails))) /\
   g_sent (connection_of 1 (world_after one_fails)) = [OResume [] (js "s1") (Some 3)]) /\
  (run_world resumed_overtakes = Some (world_after resumed_overtakes) /\
   g_chain (connection_of 1 (world_after resumed_overtakes)) = [message_dispatch 2] /\
   persisted (world_after resumed_overtakes).1 = Some 3).
Proof.
  split; split_and!; try (apply world_run); try evaluated.
  intros H. vm_compute in H. inversion H as [|? ? ? H1]; subst; inversion H1.
Qed.

(** A connection that has ended still handles its chain, and records the
    sequence of a session that is gone in the one that replaced it. *)
Definition old_chain : list wevent :=
  WNew :: (WOn 0 <$> identified ++ [GFrame (message 500); GClose 1006])
  ++ WNew :: (WOn 1 <$> [GStart; GOpen; GFrame hello; GFrame invalid_session; GClose 4000])
  ++ WNew :: (WOn 2 <$> [GStart; GUrl (Some (js "wss://gateway")); GOpen; GFrame hello; GFrame (ready (js "s2") 1)])
  ++ [WOn 0 (GDone true)].

Lemma old_chain_moves_new_session :
  run_world old_chain = Some (world_after old_chain) /\
  (world_after old_chain).1 = Some (mkGatewaySession (js "s2") (js "wss://resume") (Some 500) (js "99")).
Proof. split; [apply world_run|]; evaluated. Qed.

(** A connection stopped while it fetches the connect URL opens its socket
    all the same, and nothing closes it. *)
Lemma stopped_while_fetching_connects :
  let c := (gateway_after [GStart; GStop; GUrl (Some (js "wss://gateway")); GOpen; GFrame hello]).2 in
  g_closed c = true /\ g_ready c = WsOpen /\ g_sent c = [OIdentify [] BRIDGE_INTENTS].
Proof. vm_compute. repeat split. Qed.
