(* ===== verification/Supervisor.v ===== *)
(** [apps/discord/src/supervisor.ts]: one connection per agent, restarted
    with backoff. [connect] and [stop] are cut at their awaits, so that
    starts, drops, timers and a stop interleave. *)

From S2P Require Import Prelude.

Definition DEFAULT_BACKOFF_MS : list Z := [1000; 5000; 15000; 60000]%Z.

(** A connection is named by the number the factory made it under; [sl_timer]
    is the delay of an armed reconnect timer. *)
Record Slot := mkSlot {
  sl_agent : jstr;
  sl_connection : option nat;
  sl_attempts : nat;
  sl_timer : option Z }.

(** [sv_pending] are the connects waiting for their connection's [start],
    with their slot; [sv_home] the slot each connection was made for;
    [sv_stopping] the slots [stop] still has to go through, the first being
    waited for. *)
Record supervisor := mkSupervisor {
  sv_backoffMs : list Z;
  sv_slots : list Slot;
  sv_stopped : bool;
  sv_next : nat;
  sv_home : gmap nat nat;
  sv_pending : gset nat;
  sv_stopping : option (list nat);
  sv_closed : gset nat }.

Definition new_supervisor (agents : list jstr) (backoffMs : option (list Z)) : supervisor :=
  mkSupervisor (default DEFAULT_BACKOFF_MS backoffMs) ((fun a => mkSlot a None 0 None) <$> agents)
    false 0 ∅ ∅ None ∅.

Definition on_slot (i : nat) (f : Slot -> Slot) (v : supervisor) : supervisor :=
  mkSupervisor (sv_backoffMs v) (alter f i (sv_slots v)) (sv_stopped v) (sv_next v) (sv_home v) (sv_pending v)
    (sv_stopping v) (sv_closed v).
Arguments on_slot : simpl never.
Definition set_connection (c : option nat) (s : Slot) : Slot :=
  mkSlot (sl_agent s) c (sl_attempts s) (sl_timer s).
Definition set_attempts (n : nat) (s : Slot) : Slot := mkSlot (sl_agent s) (sl_connection s) n (sl_timer s).
Definition set_timer (t : option Z) (s : Slot) : Slot := mkSlot (sl_agent s) (sl_connection s) (sl_attempts s) t.

Definition set_pending (p : gset nat) (v : supervisor) : supervisor :=
  mkSupervisor (sv_backoffMs v) (sv_slots v) (sv_stopped v) (sv_next v) (sv_home v) p (sv_stopping v) (sv_closed v).
Definition set_stopping (l : option (list nat)) (v : supervisor) : supervisor :=
  mkSupervisor (sv_backoffMs v) (sv_slots v) true (sv_next v) (sv_home v) (sv_pending v) l (sv_closed v).
Definition close_connection (c : nat) (v : supervisor) : supervisor :=
  mkSupervisor (sv_backoffMs v) (sv_slots v) (sv_stopped v) (sv_next v) (sv_home v) (sv_pending v)
    (sv_stopping v) ({[c]} ∪ sv_closed v).

(** The delay before the next attempt; an empty schedule falls back on the
    first default. *)
Definition delay_of (backoffMs : list Z) (attempts : nat) : Z :=
  default 1000%Z (backoffMs !! Nat.min attempts (length backoffMs - 1)).

Definition scheduleReconnect (i : nat) (v : supervisor) : supervisor :=
  match sv_slots v !! i with
  | Some s =>
      if sv_stopped v || present (sl_timer s) then v
      else on_slot i (fun s => set_timer (Some (delay_of (sv_backoffMs v) (sl_attempts s)))
                                 (set_attempts (S (sl_attempts s)) s)) v
  | None => v
  end.

(** [connect] up to the await of [connection.start()]. *)
Definition connect (i : nat) (v : supervisor) : supervisor :=
  if sv_stopped v then v else
  let c := sv_next v in
  mkSupervisor (sv_backoffMs v) (sv_slots v) (sv_stopped v) (S c) (<[c := i]> (sv_home v)) ({[c]} ∪ sv_pending v)
    (sv_stopping v) (sv_closed v).

Definition connected (c i : nat) (v : supervisor) : supervisor :=
  on_slot i (fun s => set_attempts 0 (set_connection (Some c) s)) (set_pending (sv_pending v ∖ {[c]}) v).
Definition connect_failed (c i : nat) (v : supervisor) : supervisor :=
  scheduleReconnect i (set_pending (sv_pending v ∖ {[c]}) v).

(** The handler [connect] registers; the reason is only logged. *)
Definition down (i : nat) (v : supervisor) : supervisor :=
  scheduleReconnect i (on_slot i (set_connection None) v).

Definition timer_fired (i : nat) (v : supervisor) : supervisor := connect i (on_slot i (set_timer None) v).

Definition start (v : supervisor) : supervisor :=
  fold_left (fun v i => connect i v) (seq 0 (length (sv_slots v))) v.

(** [stop], slot by slot, up to the next connection it waits for. *)
Fixpoint stop_slots (slots : list nat) (v : supervisor) : supervisor :=
  match slots with
  | [] => set_stopping None v
  | i :: rest =>
      let v1 := on_slot i (set_timer None) v in
      match sv_slots v1 !! i ≫= sl_connection with
      | Some c => set_stopping (Some slots) (close_connection c v1)
      | None => stop_slots rest v1
      end
  end.
Definition stop (v : supervisor) : supervisor :=
  stop_slots (seq 0 (length (sv_slots v))) (set_stopping None v).
(** The stop of the first slot's connection is done. *)
Definition stop_continues (v : supervisor) : supervisor :=
  match sv_stopping v with
  | Some (i :: rest) => stop_slots rest (on_slot i (set_connection None) v)
  | _ => v
  end.

Definition connectedCount (v : supervisor) : nat :=
  length (filter (fun s => is_Some (sl_connection s)) (sv_slots v)).
Definition health (v : supervisor) : list (jstr * bool * nat) :=
  (fun s => (sl_agent s, present (sl_connection s), sl_attempts s)) <$> sv_slots v.

Inductive vevent :=
| VStart
| VConnected (c : nat)
| VFailed (c : nat)
| VDown (c : nat) (reason : jstr)
| VTimer (i : nat)
| VStop
| VStopped.

Definition vstep (e : vevent) (v : supervisor) : option supervisor :=
  match e with
  | VStart => Some (start v)
  | VConnected c =>
      i ← sv_home v !! c;
      if decide (c ∈ sv_pending v) then Some (connected c i v) else None
  | VFailed c =>
      i ← sv_home v !! c;
      if decide (c ∈ sv_pending v) then Some (connect_failed c i v) else None
  | VDown c _ => i ← sv_home v !! c; Some (down i v)
  | VTimer i => s ← sv_slots v !! i; match sl_timer s with Some _ => Some (timer_fired i v) | None => None end
  | VStop => Some (stop v)
  | VStopped => match sv_stopping v with Some _ => Some (stop_continues v) | None => None end
  end.

Fixpoint vrun (es : list vevent) (v : supervisor) : option supervisor :=
  match es with
  | [] => Some v
  | e :: rest => v1 ← vstep e v; vrun rest v1
  end.

(** ** Every slot keeps trying *)

(** A slot is served: connected, connecting, or about to. *)
Definition served (v : supervisor) (i : nat) : Prop :=
  exists s, sv_slots v !! i = Some s /\
    (is_Some (sl_connection s) \/ is_Some (sl_timer s)
     \/ exists c, c ∈ sv_pending v /\ sv_home v !! c = Some i).

Lemma lookup_on_slot i j f v :
  sv_slots (on_slot i f v) !! j = if decide (i = j) then f <$> sv_slots v !! j else sv_slots v !! j.
Proof.
  unfold on_slot. simpl. case_decide as E; [subst; apply list_lookup_alter_eq|by apply list_lookup_alter_ne].
Qed.

(** Numbers not yet handed out name no connection. *)
Record fresh_names (v : supervisor) : Prop := mkFresh {
  fn_home c : is_Some (sv_home v !! c) -> c < sv_next v;
  fn_pending c : c ∈ sv_pending v -> c < sv_next v }.

Record trying (started : bool) (v : supervisor) : Prop := mkTrying {
  tr_fresh : fresh_names v;
  tr_served : started = true -> sv_stopped v = false -> forall i, i < length (sv_slots v) -> served v i }.

(** What the steps change of the supervisor, besides its slots. *)
Lemma schedule_rest i v :
  sv_home (scheduleReconnect i v) = sv_home v /\ sv_pending (scheduleReconnect i v) = sv_pending v /\
  sv_next (scheduleReconnect i v) = sv_next v /\ sv_stopped (scheduleReconnect i v) = sv_stopped v /\
  length (sv_slots (scheduleReconnect i v)) = length (sv_slots v).
Proof.
  unfold scheduleReconnect. repeat case_match; split_and!; try done. unfold on_slot. simpl. apply length_alter.
Qed.

Lemma served_schedule i j v :
  sv_stopped v = false -> i < length (sv_slots v) -> i = j \/ served v j -> served (scheduleReconnect i v) j.
Proof.
  intros Hs Hi Hj. destruct (schedule_rest i v) as (Eh & Ep & _ & _ & _). unfold served. rewrite Eh, Ep.
  unfold scheduleReconnect. destruct (lookup_lt_is_Some_2 _ _ Hi) as [s Es]. rewrite Es, Hs. cbn [orb].
  destruct (sl_timer s) as [t|] eqn:Et; cbn [present].
  - destruct Hj as [<-|Hj]; [|done]. exists s. split; [done|]. right. left. by exists t.
  - destruct (decide (i = j)) as [<-|E].
    + eexists. rewrite lookup_on_slot, decide_True, Es by done. split; [done|]. right. left. by eexists.
    + destruct Hj as [|(s' & Hs' & H)]; [done|]. exists s'. by rewrite lookup_on_slot, decide_False.
Qed.

(** A change to one slot, with the connects under way kept. *)
Lemma served_other i j f v :
  i <> j -> served v j -> served (on_slot i f v) j.
Proof. intros Hne (s & Hs & H). exists s. by rewrite lookup_on_slot, decide_False. Qed.

Lemma connect_served i j v :
  fresh_names v -> sv_stopped v = false -> j < length (sv_slots v) -> i = j \/ served v j -> served (connect i v) j.
Proof.
  intros [Fh Fp] Hs Hj Hij. unfold connect. rewrite Hs. destruct (lookup_lt_is_Some_2 _ _ Hj) as [s Es].
  destruct Hij as [->|(s' & Hs' & H)].
  - exists s. split; [done|]. right. right. exists (sv_next v). simpl. rewrite lookup_insert_eq. split; [set_solver|done].
  - exists s'. split; [done|]. destruct H as [H|[H|(c & Hc & Hh)]]; [by left|by right; left|]. right. right.
    exists c. simpl. split; [set_solver|]. rewrite lookup_insert_ne; [done|]. specialize (Fp c Hc). lia.
Qed.

Lemma connect_fresh i v : fresh_names v -> fresh_names (connect i v).
Proof.
  intros [Fh Fp]. unfold connect. destruct (sv_stopped v); [done|]. split; simpl.
  - intros c Hc. destruct (decide (c = sv_next v)) as [->|Hne]; [lia|].
    rewrite lookup_insert_ne in Hc by done. specialize (Fh c Hc). lia.
  - intros c [->%elem_of_singleton|Hc]%elem_of_union; [lia|]. specialize (Fp c Hc). lia.
Qed.

Lemma connect_rest i v :
  sv_slots (connect i v) = sv_slots v /\ sv_stopped (connect i v) = sv_stopped v.
Proof. unfold connect. by destruct (sv_stopped v) eqn:E. Qed.

(** Fewer pending connects, same names. *)
Lemma fresh_fewer v v' :
  sv_home v' = sv_home v -> sv_next v' = sv_next v -> sv_pending v' ⊆ sv_pending v -> fresh_names v -> fresh_names v'.
Proof. intros Eh En Ep [Fh Fp]. split; rewrite ?Eh, ?En; [done|]. intros c Hc. by apply Fp, Ep. Qed.

Lemma schedule_trying i v :
  fresh_names v -> i < length (sv_slots v) ->
  (sv_stopped v = false -> forall j, j < length (sv_slots v) -> j <> i -> served v j) ->
  trying true (scheduleReconnect i v).
Proof.
  intros F Hi H. destruct (schedule_rest i v) as (Eh & Ep & En & Es & El). split.
  - by apply (fresh_fewer v); rewrite ?Ep.
  - intros _. rewrite Es, El. intros Hs j Hj. apply served_schedule; [done|done|].
    destruct (decide (i = j)); [by left|right; by apply H].
Qed.

Lemma start_trying v : fresh_names v -> trying true (start v).
Proof.
  intros F. unfold start.
  set (n := length (sv_slots v)).
  assert (H : forall k, k <= n -> let v' := fold_left (fun v i => connect i v) (seq 0 k) v in
            fresh_names v' /\ sv_slots v' = sv_slots v /\ sv_stopped v' = sv_stopped v /\
            (sv_stopped v = false -> forall i, i < k -> served v' i)).
  { induction k as [|k IH]; intros Hk; [split_and!; try done; lia|].
    destruct IH as (F' & Es & Est & Hs); [lia|]. cbv zeta. rewrite seq_S, fold_left_app. simpl.
    set (v' := fold_left _ (seq 0 k) v) in *. destruct (connect_rest k v') as [Ec Ect].
    split_and!; [by apply connect_fresh|congruence|congruence|].
    intros Hv i Hi. apply connect_served; [done|congruence|rewrite Es; unfold n in Hk; lia|].
    destruct (decide (k = i)); [by left|right; apply Hs; [done|lia]]. }
  destruct (H n (le_n n)) as (F' & Es & Est & Hs). split; [done|]. intros _. rewrite Est, Es. exact Hs.
Qed.

Lemma stop_slots_stopped l v : sv_stopped (stop_slots l v) = true.
Proof. revert v; induction l as [|i l IH]; intros v; simpl; [done|]. case_match; [done|apply IH]. Qed.

Lemma stop_slots_fresh l v : fresh_names v -> fresh_names (stop_slots l v).
Proof.
  revert v; induction l as [|i l IH]; intros v F; simpl; [by apply (fresh_fewer v)|].
  case_match; [by apply (fresh_fewer v)|]. apply IH. by apply (fresh_fewer v).
Qed.

(** Every connection was made for a slot that exists. *)
Definition homes (v : supervisor) : Prop := forall c i, sv_home v !! c = Some i -> i < length (sv_slots v).

Lemma homes_ext v v' :
  sv_home v' = sv_home v -> length (sv_slots v') = length (sv_slots v) -> homes v -> homes v'.
Proof. intros Eh El H c i. rewrite Eh, El. apply H. Qed.

Lemma homes_connect i v : i < length (sv_slots v) -> homes v -> homes (connect i v).
Proof.
  intros Hi H. unfold connect. destruct (sv_stopped v); [done|]. intros c j. simpl.
  destruct (decide (c = sv_next v)) as [->|Hne]; [rewrite lookup_insert_eq; intros [= <-]; done|].
  rewrite lookup_insert_ne by done. apply H.
Qed.

Lemma length_on_slot i f v : length (sv_slots (on_slot i f v)) = length (sv_slots v).
Proof. apply length_alter. Qed.

Lemma homes_start v : homes v -> homes (start v).
Proof.
  intros H. unfold start.
  assert (Hk : forall l v', (forall i, i ∈ l -> i < length (sv_slots v')) -> homes v' ->
            homes (fold_left (fun v i => connect i v) l v')).
  { induction l as [|i l IH]; intros v' Hl Hv'; simpl; [done|]. destruct (connect_rest i v') as [Es _].
    apply IH; [|apply homes_connect; [apply Hl; by left|done]]. intros j Hj. rewrite Es. apply Hl. by right. }
  apply Hk; [|done]. intros i Hi. apply elem_of_seq in Hi. lia.
Qed.

Lemma homes_stop_slots l v : homes v -> homes (stop_slots l v).
Proof.
  revert v; induction l as [|i l IH]; intros v H; simpl; [done|].
  assert (Hv : homes (on_slot i (set_timer None) v)) by (by apply (homes_ext v); [|apply length_on_slot|]).
  case_match; [done|by apply IH].
Qed.

Lemma homes_schedule i v : homes v -> homes (scheduleReconnect i v).
Proof. intros H. destruct (schedule_rest i v) as (Eh & _ & _ & _ & El). by apply (homes_ext v). Qed.

Definition keeps (v : supervisor) : Prop := trying true v /\ homes v.

Lemma connected_keeps c i v : keeps v -> sv_home v !! c = Some i -> keeps (connected c i v).
Proof.
  intros [[F Hs] H] Hc. split; [split|].
  - apply (fresh_fewer v); [done|done| |done]. unfold connected, on_slot. simpl. set_solver.
  - intros _ Hst j. unfold connected. rewrite length_on_slot. intros Hj. specialize (Hs eq_refl Hst j Hj).
    destruct (decide (i = j)) as [<-|Hne].
    + destruct Hs as (s & Es & _). eexists. rewrite lookup_on_slot, decide_True by done. simpl. rewrite Es.
      split; [done|]. left. by exists c.
    + apply served_other; [done|]. destruct Hs as (s & Es & Hk). exists s. split; [done|].
      destruct Hk as [Hk|[Hk|(c' & Hc' & Hh)]]; [by left|by right; left|]. right. right. exists c'. split; [|done].
      simpl. apply elem_of_difference. split; [done|]. intros ->%elem_of_singleton. congruence.
  - apply (homes_ext v); [done|unfold connected; by rewrite length_on_slot|done].
Qed.

Lemma length_stop_slots l v : length (sv_slots (stop_slots l v)) = length (sv_slots v).
Proof.
  revert v; induction l as [|i l IH]; intros v; simpl; [done|]. case_match; [apply length_on_slot|].
  rewrite IH. apply length_on_slot.
Qed.

Lemma length_start v : length (sv_slots (start v)) = length (sv_slots v).
Proof.
  unfold start. generalize (seq 0 (length (sv_slots v))). intros l.
  revert v; induction l as [|i l IH]; intros v; simpl; [done|]. rewrite IH. by destruct (connect_rest i v) as [-> _].
Qed.

Lemma length_vstep e v v' : vstep e v = Some v' -> length (sv_slots v') = length (sv_slots v).
Proof.
  intros H. destruct e as [|c|c|c reason|i| |]; simpl in H.
  - simplify_eq. apply length_start.
  - destruct (sv_home v !! c) as [i|]; simpl in H; [|done]. case_decide; simplify_eq.
    unfold connected. by rewrite length_on_slot.
  - destruct (sv_home v !! c) as [i|]; simpl in H; [|done]. case_decide; simplify_eq.
    unfold connect_failed. by destruct (schedule_rest i (set_pending (sv_pending v ∖ {[c]}) v)) as (_ & _ & _ & _ & ->).
  - destruct (sv_home v !! c) as [i|]; simpl in H; [|done]. simplify_eq. unfold down.
    destruct (schedule_rest i (on_slot i (set_connection None) v)) as (_ & _ & _ & _ & ->). apply length_on_slot.
  - destruct (sv_slots v !! i) as [s|]; simpl in H; [|done]. case_match; simplify_eq. unfold timer_fired.
    destruct (connect_rest i (on_slot i (set_timer None) v)) as [-> _]. apply length_on_slot.
  - simplify_eq. unfold stop. by rewrite length_stop_slots.
  - unfold stop_continues in H. repeat case_match; simplify_eq; try done. rewrite length_stop_slots. apply length_on_slot.
Qed.

Lemma connect_failed_keeps c i v : keeps v -> sv_home v !! c = Some i -> keeps (connect_failed c i v).
Proof.
  intros [[F Hs] H] Hc. unfold connect_failed. split; [|by apply homes_schedule].
  apply schedule_trying; [|by apply (H c)|].
  - apply (fresh_fewer v); [done|done| |done]. simpl. set_solver.
  - intros Hst j Hj Hne. destruct (Hs eq_refl Hst j Hj) as (s & Es & Hk). exists s. split; [done|].
    destruct Hk as [Hk|[Hk|(c' & Hc' & Hh)]]; [by left|by right; left|]. right. right. exists c'. split; [|done].
    simpl. apply elem_of_difference. split; [done|]. intros ->%elem_of_singleton. congruence.
Qed.

Lemma down_keeps c i v : keeps v -> sv_home v !! c = Some i -> keeps (down i v).
Proof.
  intros [[F Hs] H] Hc. unfold down.
  assert (Hh : homes (on_slot i (set_connection None) v)) by (by apply (homes_ext v); [|apply length_on_slot|]).
  split; [|by apply homes_schedule]. apply schedule_trying; [by apply (fresh_fewer v)|by apply (Hh c)|].
  intros Hst j. rewrite length_on_slot. intros Hj Hne. apply served_other; [done|]. by apply Hs.
Qed.

Lemma timer_keeps i v : keeps v -> i < length (sv_slots v) -> keeps (timer_fired i v).
Proof.
  intros [[F Hs] H] Hi. unfold timer_fired. set (v1 := on_slot i (set_timer None) v).
  assert (F1 : fresh_names v1) by (by apply (fresh_fewer v)).
  assert (El : length (sv_slots v1) = length (sv_slots v)) by apply length_on_slot.
  destruct (connect_rest i v1) as [Es Est]. split; [split|].
  - by apply connect_fresh.
  - intros _. rewrite Est, Es. intros Hst j Hj. apply connect_served; [done|done|done|].
    destruct (decide (i = j)); [by left|right]. apply served_other; [done|]. apply Hs; [done|done|by rewrite <- El].
  - apply homes_connect; [by rewrite El|]. by apply (homes_ext v).
Qed.

Lemma stopped_keeps v : fresh_names v -> homes v -> sv_stopped v = true -> keeps v.
Proof. intros F H Hs. split; [|done]. split; [done|]. intros _ Hs'. congruence. Qed.

Lemma vstep_keeps e v v' : vstep e v = Some v' -> keeps v -> keeps v'.
Proof.
  intros Hst Hk. pose proof Hk as [[F _] H]. destruct e as [|c|c|c reason|i| |]; simpl in Hst.
  - simplify_eq. split; [by apply start_trying|by apply homes_start].
  - destruct (sv_home v !! c) as [i|] eqn:E; simpl in Hst; [|done]. case_decide; simplify_eq. by apply connected_keeps.
  - destruct (sv_home v !! c) as [i|] eqn:E; simpl in Hst; [|done]. case_decide; simplify_eq. by apply connect_failed_keeps.
  - destruct (sv_home v !! c) as [i|] eqn:E; simpl in Hst; [|done]. simplify_eq. by apply (down_keeps c).
  - destruct (sv_slots v !! i) as [s|] eqn:E; simpl in Hst; [|done]. case_match; simplify_eq.
    apply timer_keeps; [done|by apply lookup_lt_Some in E].
  - simplify_eq. apply stopped_keeps; [by apply stop_slots_fresh, (fresh_fewer v)|by apply homes_stop_slots|].
    apply stop_slots_stopped.
  - unfold stop_continues in Hst. repeat case_match; simplify_eq; try done.
    apply stopped_keeps; [by apply stop_slots_fresh, (fresh_fewer v)| |apply stop_slots_stopped].
    apply homes_stop_slots. by apply (homes_ext v); [|apply length_on_slot|].
Qed.

(** The supervisor keeps every agent's connection alive. From its start
    until it is stopped, however starts, failures, drops and timers
    interleave, every slot is connected, waiting for a connection to start,
    or has a reconnect timer armed; no drop is final, whatever its reason. *)
Theorem supervisor_keeps_trying agents backoffMs es v :
  vrun (VStart :: es) (new_supervisor agents backoffMs) = Some v -> sv_stopped v = false ->
  length (sv_slots v) = length agents /\ forall i, i < length agents -> served v i.
Proof.
  simpl. intros Hr Hs. set (v0 := start _) in *.
  assert (H0 : keeps v0).
  { assert (F : fresh_names (new_supervisor agents backoffMs)) by (split; simpl; [by intros c [x Hx]|set_solver]).
    split; [by apply start_trying|]. apply homes_start. by intros c i. }
  assert (L0 : length (sv_slots v0) = length agents).
  { unfold v0. rewrite length_start. simpl. by rewrite length_fmap. }
  clearbody v0. cut (keeps v /\ length (sv_slots v) = length (sv_slots v0)).
  { intros [[[_ Hv] _] El]. rewrite <- L0, <- El. split; [done|]. by apply Hv. }
  clear L0 Hs. revert v0 H0 Hr; induction es as [|e es IH]; intros v0 H0 Hr; simpl in Hr; [by simplify_eq|].
  destruct (vstep e v0) as [v1|] eqn:E; simpl in Hr; [|done].
  destruct (IH v1) as [Hk El]; [by apply (vstep_keeps e v0)|done|]. split; [done|]. rewrite El.
  by apply (length_vstep e).
Qed.

(** A start that fails, a drop after a connect, and the timer in between. *)
Definition rough_start : list vevent :=
  [VFailed 0; VTimer 0; VConnected 2; VConnected 1; VDown 2 (js "gateway closed 4004  (fatal)"); VTimer 0; VFailed 3].

Definition two_agents : supervisor := new_supervisor [js "a"; js "b"] None.
Definition supervised (es : list vevent) : supervisor := default two_agents (vrun (VStart :: es) two_agents).

Lemma supervisor_keeps_trying_witness :
  served (supervised rough_start) 0 /\ served (supervised rough_start) 1 /\
  (sl_timer <$> sv_slots (supervised rough_start)) = [Some 5000%Z; None].
Proof.
  destruct (supervisor_keeps_trying [js "a"; js "b"] None rough_start (supervised rough_start)) as [_ H].
  - apply some_default. evaluated.
  - evaluated.
  - split_and!; [apply H; simpl; lia|apply H; simpl; lia|evaluated].
Defined.

(** A stop that comes while a connection starts leaves the connection live:
    it is stored after [stop] went through its slot, and nobody closes it. *)
Lemma stop_leaves_starting_connection :
  let v := supervised [VConnected 0; VStop; VStopped; VConnected 1] in
  sv_stopped v = true /\ sv_stopping v = None /\ bool_decide (sv_closed v = {[0]}) = true /\
  (sl_connection <$> sv_slots v) = [None; Some 1].
Proof. vm_compute. repeat split. Qed.
