(* ===== verification/PhoneRegistry.v ===== *)
(** [apps/phone/src/state.ts] and [apps/phone/src/registry.ts]: what outlives
    a call. The port the engine keeps its sessions behind, its two
    implementations, and the tables of calls, failed PINs and lockouts. *)

From S2P Require Import Prelude.
#[local] Open Scope Z_scope.

(** ** The session port *)

Record PhoneSession := mkPhoneSession {
  ph_agent : jstr;
  ph_contextId : jstr;
  ph_openedByCall : jstr;
  ph_lastActiveAt : Z;
  ph_openTaskId : option jstr;
  ph_runningTaskId : option jstr }.
#[export] Instance PhoneSession_eq_dec : EqDecision PhoneSession.
Proof. solve_decision. Defined.

Class PhoneStatePort (S : Type) := {
  sessionFor : jstr -> S -> option PhoneSession;
  saveSession : PhoneSession -> S -> S }.

(** What the engine relies on: a saved session is found under its agent, and
    no other agent's changes. *)
Class PhoneStateLaws (S : Type) `{!PhoneStatePort S} := {
  sessionFor_save session s : sessionFor (ph_agent session) (saveSession session s) = Some session;
  sessionFor_save_other agent session s :
    agent <> ph_agent session -> sessionFor agent (saveSession session s) = sessionFor agent s }.

(** [MemoryPhoneState]: a map by agent. *)
Definition MemoryPhoneState : Type := gmap jstr PhoneSession.
Definition new_memory : MemoryPhoneState := (∅ : gmap jstr PhoneSession).
Definition memory_sessionFor (agent : jstr) (s : MemoryPhoneState) : option PhoneSession :=
  (s : gmap jstr PhoneSession) !! agent.
Definition memory_saveSession (session : PhoneSession) (s : MemoryPhoneState) : MemoryPhoneState :=
  <[ph_agent session := session]> (s : gmap jstr PhoneSession).
#[export] Instance memory_port : PhoneStatePort MemoryPhoneState := {
  sessionFor := memory_sessionFor;
  saveSession := memory_saveSession }.

#[export] Instance memory_laws : PhoneStateLaws MemoryPhoneState.
Proof.
  split; [intros session s; apply lookup_insert_eq|].
  intros agent session s Hne. by apply lookup_insert_ne.
Qed.

(** ** The tables *)

Record CallRow := mkCallRow {
  cl_call_sid : jstr;
  cl_from_number : jstr;
  cl_to_number : jstr;
  cl_direction : jstr;
  cl_started_ms : Z;
  cl_agent : option jstr;
  cl_context_id : option jstr;
  cl_ended_ms : option Z;
  cl_end_reason : option jstr }.

Record SessionRow := mkSessionRow {
  sr_agent : jstr;
  sr_context_id : jstr;
  sr_opened_by_call : jstr;
  sr_last_active_ms : Z;
  sr_open_task_id : option jstr;
  sr_running_task_id : option jstr }.

Record CallSessionRow := mkCallSessionRow {
  cs_id : Z;
  cs_call_sid : jstr;
  cs_agent : jstr;
  cs_context_id : jstr;
  cs_started_ms : Z;
  cs_ended_ms : option Z }.

(** Rows in insertion order; [rg_next_id] is what AUTOINCREMENT hands out. *)
Record CallRegistry := mkRegistry {
  rg_calls : list CallRow;
  rg_auth_failures : list (jstr * Z);
  rg_lockouts : gmap jstr Z;
  rg_sessions : list SessionRow;
  rg_call_sessions : list CallSessionRow;
  rg_next_id : Z }.

Definition new_registry : CallRegistry := mkRegistry [] [] ∅ [] [] 1.

Record LockoutPolicy := mkPolicy {
  lp_failedCalls : Z;
  lp_windowSeconds : Z;
  lp_cooldownSeconds : Z }.

Definition with_calls (l : list CallRow) (r : CallRegistry) : CallRegistry :=
  mkRegistry l (rg_auth_failures r) (rg_lockouts r) (rg_sessions r) (rg_call_sessions r) (rg_next_id r).
Definition with_failures (l : list (jstr * Z)) (r : CallRegistry) : CallRegistry :=
  mkRegistry (rg_calls r) l (rg_lockouts r) (rg_sessions r) (rg_call_sessions r) (rg_next_id r).
Definition with_lockouts (m : gmap jstr Z) (r : CallRegistry) : CallRegistry :=
  mkRegistry (rg_calls r) (rg_auth_failures r) m (rg_sessions r) (rg_call_sessions r) (rg_next_id r).
Definition with_sessions (l : list SessionRow) (r : CallRegistry) : CallRegistry :=
  mkRegistry (rg_calls r) (rg_auth_failures r) (rg_lockouts r) l (rg_call_sessions r) (rg_next_id r).
Definition with_call_sessions (l : list CallSessionRow) (next : Z) (r : CallRegistry) : CallRegistry :=
  mkRegistry (rg_calls r) (rg_auth_failures r) (rg_lockouts r) (rg_sessions r) l next.

(** ** Calls *)

(** [ON CONFLICT DO NOTHING]. *)
Definition recordCall (callSid from to direction : jstr) (startedMs : Z) (r : CallRegistry) : CallRegistry :=
  if existsb (fun c => jeqb (cl_call_sid c) callSid) (rg_calls r) then r
  else with_calls (rg_calls r ++ [mkCallRow callSid from to direction startedMs None None None None]) r.

Definition attachSession (callSid agent contextId : jstr) (startedMs : Z) (r : CallRegistry) : CallRegistry :=
  let r1 := with_calls ((fun c => if jeqb (cl_call_sid c) callSid
              then mkCallRow (cl_call_sid c) (cl_from_number c) (cl_to_number c) (cl_direction c) (cl_started_ms c)
                     (Some agent) (Some contextId) (cl_ended_ms c) (cl_end_reason c)
              else c) <$> rg_calls r) r in
  with_call_sessions
    (rg_call_sessions r1 ++ [mkCallSessionRow (rg_next_id r1) callSid agent contextId startedMs None])
    (rg_next_id r1 + 1) r1.

(** The open row of the call and agent that started last; the first of those
    that started together. *)
Fixpoint latest_open (callSid agent : jstr) (l : list CallSessionRow) : option CallSessionRow :=
  match l with
  | [] => None
  | s :: t =>
      let later := latest_open callSid agent t in
      if jeqb (cs_call_sid s) callSid && jeqb (cs_agent s) agent && negb (present (cs_ended_ms s)) then
        match later with
        | Some x => if cs_started_ms s <? cs_started_ms x then Some x else Some s
        | None => Some s
        end
      else later
  end.

Definition detachSession (callSid agent : jstr) (endedMs : Z) (r : CallRegistry) : CallRegistry :=
  match latest_open callSid agent (rg_call_sessions r) with
  | None => r
  | Some x =>
      with_call_sessions ((fun s => if cs_id s =? cs_id x
          then mkCallSessionRow (cs_id s) (cs_call_sid s) (cs_agent s) (cs_context_id s) (cs_started_ms s) (Some endedMs)
          else s) <$> rg_call_sessions r) (rg_next_id r) r
  end.

(** [ORDER BY started_ms, id]: insertion keeps equals in id order. *)
Fixpoint insert_session (x : CallSessionRow) (l : list CallSessionRow) : list CallSessionRow :=
  match l with
  | [] => [x]
  | y :: t => if cs_started_ms x <? cs_started_ms y then x :: l else y :: insert_session x t
  end.
Definition callSessions (callSid : jstr) (r : CallRegistry) : list CallSessionRow :=
  fold_left (fun l x => insert_session x l)
    (filter (fun s => cs_call_sid s = callSid) (rg_call_sessions r)) [].

(** The first reason recorded wins. *)
Definition ending (callSid : jstr) (c : CallRow) : bool :=
  jeqb (cl_call_sid c) callSid && negb (present (cl_ended_ms c)).
Definition endCall (callSid : jstr) (endedMs : Z) (reason : jstr) (r : CallRegistry) : bool * CallRegistry :=
  (existsb (ending callSid) (rg_calls r),
   with_calls ((fun c => if ending callSid c
      then mkCallRow (cl_call_sid c) (cl_from_number c) (cl_to_number c) (cl_direction c) (cl_started_ms c)
             (cl_agent c) (cl_context_id c) (Some endedMs) (Some reason)
      else c) <$> rg_calls r) r).

(** [call], and [openCalls] in the order they started. *)
Definition call (callSid : jstr) (r : CallRegistry) : option CallRow :=
  head (filter (fun c => cl_call_sid c = callSid) (rg_calls r)).
Fixpoint insert_call (x : CallRow) (l : list CallRow) : list CallRow :=
  match l with
  | [] => [x]
  | y :: t => if cl_started_ms x <? cl_started_ms y then x :: l else y :: insert_call x t
  end.
Definition openCalls (r : CallRegistry) : list CallRow :=
  fold_left (fun l x => insert_call x l) (filter (fun c => present (cl_ended_ms c) = false) (rg_calls r)) [].

(** ** Lockouts *)

Definition lockedUntil (number : jstr) (nowMs : Z) (r : CallRegistry) : option Z :=
  match rg_lockouts r !! number with
  | Some until => if nowMs <? until then Some until else None
  | None => None
  end.

Definition recordFailedCall (number : jstr) (nowMs : Z) (policy : LockoutPolicy) (r : CallRegistry)
  : option Z * CallRegistry :=
  let kept := filter (fun f => nowMs - lp_windowSeconds policy * 1000 <= f.2) (rg_auth_failures r) in
  let failures := kept ++ [(number, nowMs)] in
  let n := length (filter (fun f => f.1 = number) failures) in
  if Z.of_nat n <? lp_failedCalls policy then (None, with_failures failures r)
  else
    let until := nowMs + lp_cooldownSeconds policy * 1000 in
    (Some until,
     with_failures (filter (fun f => f.1 <> number) failures)
       (with_lockouts (<[number := until]> (rg_lockouts r)) r)).

(** ** Sessions *)

Definition session_of_row (w : SessionRow) : PhoneSession :=
  mkPhoneSession (sr_agent w) (sr_context_id w) (sr_opened_by_call w) (sr_last_active_ms w)
    (sr_open_task_id w) (sr_running_task_id w).
Definition row_of_session (s : PhoneSession) : SessionRow :=
  mkSessionRow (ph_agent s) (ph_contextId s) (ph_openedByCall s) (ph_lastActiveAt s)
    (ph_openTaskId s) (ph_runningTaskId s).

Definition registry_sessionFor (agent : jstr) (r : CallRegistry) : option PhoneSession :=
  session_of_row <$> head (filter (fun w => sr_agent w = agent) (rg_sessions r)).

(** [ON CONFLICT(agent) DO UPDATE]. *)
Definition registry_saveSession (session : PhoneSession) (r : CallRegistry) : CallRegistry :=
  if existsb (fun w => jeqb (sr_agent w) (ph_agent session)) (rg_sessions r)
  then with_sessions ((fun w => if jeqb (sr_agent w) (ph_agent session) then row_of_session session else w)
                        <$> rg_sessions r) r
  else with_sessions (rg_sessions r ++ [row_of_session session]) r.

#[export] Instance registry_port : PhoneStatePort CallRegistry := {
  sessionFor := registry_sessionFor;
  saveSession := registry_saveSession }.
