(* ===== verification/PhoneLockout.v ===== *)
(** What the tables of [PhoneRegistry] promise the phone engine: the session
    port's laws, the same sessions as the in-memory implementation whatever
    else is recorded, and a lockout that counts exactly the failed calls of
    a sliding window. *)

From S2P Require Import Prelude PhoneRegistry.
#[local] Open Scope Z_scope.

(** ** Sessions *)

Lemma filter_head_fmap (agent : jstr) (f : SessionRow -> SessionRow) l :
  (forall w, sr_agent (f w) = sr_agent w) ->
  head (filter (fun w => sr_agent w = agent) (f <$> l)) = f <$> head (filter (fun w => sr_agent w = agent) l).
Proof.
  intros Hf. induction l as [|w l IH]; [done|]. rewrite fmap_cons, !filter_cons, Hf.
  by case_decide.
Qed.

Lemma filter_head_app (agent : jstr) (l k : list SessionRow) :
  head (filter (fun w => sr_agent w = agent) (l ++ k)) =
    match head (filter (fun w => sr_agent w = agent) l) with
    | Some w => Some w
    | None => head (filter (fun w => sr_agent w = agent) k)
    end.
Proof. rewrite filter_app. by destruct (filter _ l). Qed.

Lemma filter_head_None (agent : jstr) l :
  existsb (fun w => jeqb (sr_agent w) agent) l = false <-> head (filter (fun w => sr_agent w = agent) l) = None.
Proof.
  induction l as [|w l IH]; [done|]. simpl. rewrite filter_cons. unfold jeqb at 1.
  case_bool_decide; case_decide; try done.
Qed.

(** The columns of a session read back as the session. *)
Lemma session_of_row_of s : session_of_row (row_of_session s) = s.
Proof. by destruct s. Qed.

#[export] Instance registry_laws : PhoneStateLaws CallRegistry.
Proof.
  split; cbn [sessionFor saveSession registry_port].
  - intros session r. unfold registry_sessionFor, registry_saveSession.
    destruct (existsb _ (rg_sessions r)) eqn:E; cbn [rg_sessions with_sessions].
    + rewrite filter_head_fmap.
      * destruct (head _) as [w|] eqn:Eh; [|apply filter_head_None in Eh; congruence].
        assert (Hw : sr_agent w = ph_agent session).
        { destruct (filter _ (rg_sessions r)) as [|x l] eqn:Ef; [done|]. simpl in Eh. simplify_eq.
          assert (Hx : w ∈ filter (fun w => sr_agent w = ph_agent session) (rg_sessions r)) by (rewrite Ef; by left).
          by apply list_elem_of_filter in Hx as [? _]. }
        simpl. unfold jeqb. rewrite bool_decide_eq_true_2 by done. by rewrite session_of_row_of.
      * intros w. unfold jeqb. by case_bool_decide.
    + rewrite filter_head_app. apply filter_head_None in E. rewrite E, filter_cons, decide_True by done.
      simpl. by rewrite session_of_row_of.
  - intros agent session r Hne. unfold registry_sessionFor, registry_saveSession.
    destruct (existsb _ (rg_sessions r)) eqn:E; cbn [rg_sessions with_sessions].
    + rewrite filter_head_fmap.
      * destruct (head _) as [w|] eqn:Eh; [|done]. simpl. f_equal.
        destruct (filter _ (rg_sessions r)) as [|x l] eqn:Ef; [done|]. simpl in Eh. simplify_eq.
        assert (Hx : w ∈ filter (fun w => sr_agent w = agent) (rg_sessions r)) by (rewrite Ef; by left).
        apply list_elem_of_filter in Hx as [Hx _]. unfold jeqb. by rewrite bool_decide_eq_false_2 by congruence.
      * intros w. unfold jeqb. by case_bool_decide.
    + rewrite filter_head_app, filter_cons, decide_False by done. by destruct (head _).
Qed.

(** ** The registry implements the in-memory port *)

Inductive registry_op :=
| OpRecordCall (callSid from to direction : jstr) (startedMs : Z)
| OpAttach (callSid agent contextId : jstr) (startedMs : Z)
| OpDetach (callSid agent : jstr) (endedMs : Z)
| OpEndCall (callSid : jstr) (endedMs : Z) (reason : jstr)
| OpFailedCall (number : jstr) (nowMs : Z) (policy : LockoutPolicy)
| OpSave (session : PhoneSession).

Definition registry_step (r : CallRegistry) (o : registry_op) : CallRegistry :=
  match o with
  | OpRecordCall s f t d m => recordCall s f t d m r
  | OpAttach s a c m => attachSession s a c m r
  | OpDetach s a m => detachSession s a m r
  | OpEndCall s m reason => snd (endCall s m reason r)
  | OpFailedCall n m p => snd (recordFailedCall n m p r)
  | OpSave s => saveSession s r
  end.
Definition memory_step (m : MemoryPhoneState) (o : registry_op) : MemoryPhoneState :=
  match o with OpSave s => saveSession s m | _ => m end.

Lemma registry_step_sessions r o :
  match o with OpSave _ => True | _ => rg_sessions (registry_step r o) = rg_sessions r end.
Proof.
  destruct o; simpl; try done.
  - unfold recordCall. by case_match.
  - unfold detachSession. by case_match.
  - unfold recordFailedCall. by case_match.
Qed.

Lemma same_sessions_step r m o :
  (forall agent, sessionFor agent r = sessionFor agent m) ->
  forall agent, sessionFor agent (registry_step r o) = sessionFor agent (memory_step m o).
Proof.
  intros H agent. pose proof (registry_step_sessions r o) as Hs.
  destruct o; try (rewrite <- H; cbn [sessionFor registry_port memory_port]; unfold registry_sessionFor; by rewrite Hs).
  cbn [registry_step memory_step]. destruct (decide (agent = ph_agent session)) as [->|Hne].
  - by rewrite !sessionFor_save.
  - by rewrite !sessionFor_save_other.
Qed.

(** The database behind the session port is the in-memory port. Whatever
    calls, sessions, endings and failures are recorded in between, every
    agent's session is the one the in-memory implementation would hold. *)
Theorem registry_refines_memory ops agent :
  sessionFor agent (fold_left registry_step ops new_registry)
  = sessionFor agent (fold_left memory_step ops new_memory).
Proof.
  assert (H : forall agent, sessionFor agent new_registry = sessionFor agent new_memory) by done.
  revert agent H. generalize new_registry. generalize new_memory.
  induction ops as [|o ops IH]; intros m r agent H; simpl; [apply H|].
  apply IH. intros a. by apply same_sessions_step.
Qed.

(** ** The lockout, against a history of failures *)

(** Per number: every failed call since its last lockout, and when that
    lockout ends. *)
Record lockout_spec := mkLockoutSpec {
  ls_since : jstr -> list Z;
  ls_until : jstr -> option Z }.

Definition in_window (policy : LockoutPolicy) (now t : Z) : bool := now - lp_windowSeconds policy * 1000 <=? t.

Definition spec_failed (number : jstr) (now : Z) (policy : LockoutPolicy) (s : lockout_spec)
  : option Z * lockout_spec :=
  let since := ls_since s number ++ [now] in
  let until := now + lp_cooldownSeconds policy * 1000 in
  if Z.of_nat (length (filter (fun t => in_window policy now t = true) since)) <? lp_failedCalls policy
  then (None, mkLockoutSpec (fun n => if decide (n = number) then since else ls_since s n) (ls_until s))
  else (Some until,
        mkLockoutSpec (fun n => if decide (n = number) then [] else ls_since s n)
          (fun n => if decide (n = number) then Some until else ls_until s n)).

Definition spec_locked (number : jstr) (now : Z) (s : lockout_spec) : option Z :=
  match ls_until s number with Some u => if now <? u then Some u else None | None => None end.

(** A history of failed calls and what recording each answered. *)
Fixpoint replay_failures {S} (f : jstr -> Z -> LockoutPolicy -> S -> option Z * S) (policy : LockoutPolicy)
    (history : list (jstr * Z)) (s : S) : list (option Z) * S :=
  match history with
  | [] => ([], s)
  | (number, now) :: rest =>
      let (answer, s1) := f number now policy s in
      let (answers, s2) := replay_failures f policy rest s1 in (answer :: answers, s2)
  end.

Fixpoint ascending (from : Z) (history : list (jstr * Z)) : Prop :=
  match history with
  | [] => True
  | (_, now) :: rest => from <= now /\ ascending now rest
  end.

Definition times_of (number : jstr) (l : list (jstr * Z)) : list Z := snd <$> filter (fun f => f.1 = number) l.

(** The tables agree with the history from [now] on: pruning drops only what
    no later window can hold. *)
Record lockout_agrees (policy : LockoutPolicy) (now : Z) (r : CallRegistry) (s : lockout_spec) : Prop :=
  mkLockoutAgrees {
    la_failures number t : now <= t ->
      filter (fun x => in_window policy t x = true) (times_of number (rg_auth_failures r))
      = filter (fun x => in_window policy t x = true) (ls_since s number);
    la_until number : rg_lockouts r !! number = ls_until s number }.

Lemma times_of_app number a b : times_of number (a ++ b) = times_of number a ++ times_of number b.
Proof. unfold times_of. by rewrite filter_app, fmap_app. Qed.

Lemma times_of_prune number bound l :
  times_of number (filter (fun f => bound <= f.2) l) = filter (fun t => bound <= t) (times_of number l).
Proof.
  unfold times_of. induction l as [|[n t] l IH]; [done|]. rewrite !filter_cons. simpl.
  destruct (decide (bound <= t)), (decide (n = number)); rewrite ?filter_cons; simpl;
    rewrite ?decide_True, ?decide_False by done; rewrite ?fmap_cons, ?filter_cons; simpl;
    rewrite ?decide_True, ?decide_False by done; rewrite IH; done.
Qed.

Lemma times_of_remove number other l :
  times_of other (filter (fun f => f.1 <> number) l) = if decide (other = number) then [] else times_of other l.
Proof.
  unfold times_of. induction l as [|[n t] l IH]; [by case_decide|]. rewrite !filter_cons. cbn [fst].
  destruct (decide (n = number)) as [->|Hn].
  - rewrite (decide_False (P := number <> number)) by tauto. rewrite IH.
    destruct (decide (number = other)) as [<-|Ho]; [by rewrite !decide_True|done].
  - rewrite decide_True, filter_cons by done. cbn [fst].
    destruct (decide (n = other)) as [<-|Ho]; rewrite ?fmap_cons, IH; [by rewrite !decide_False|done].
Qed.

Lemma length_times number l : length (filter (fun f => f.1 = number) l) = length (times_of number l).
Proof. unfold times_of. by rewrite length_fmap. Qed.

(** A window that opens later sees through the pruning of an earlier one. *)
Lemma window_prune policy now t (l : list Z) :
  now <= t ->
  filter (fun x => in_window policy t x = true) (filter (fun x => now - lp_windowSeconds policy * 1000 <= x) l)
  = filter (fun x => in_window policy t x = true) l.
Proof.
  intros Hle. rewrite list_filter_filter. apply list_filter_iff. intros x. unfold in_window. rewrite Z.leb_le. lia.
Qed.

Lemma failed_agrees policy now0 number now r s :
  0 <= lp_windowSeconds policy -> now0 <= now -> lockout_agrees policy now0 r s ->
  fst (recordFailedCall number now policy r) = fst (spec_failed number now policy s) /\
  lockout_agrees policy now (snd (recordFailedCall number now policy r)) (snd (spec_failed number now policy s)).
Proof.
  intros Hpos Hle [Hf Hu]. unfold recordFailedCall, spec_failed. cbv zeta.
  set (bound := now - lp_windowSeconds policy * 1000).
  set (failures := filter (fun f => bound <= f.2) (rg_auth_failures r) ++ [(number, now)]).
  assert (Hwin : forall n t, now <= t ->
     filter (fun x => in_window policy t x = true) (times_of n failures)
     = filter (fun x => in_window policy t x = true)
         (if decide (n = number) then ls_since s number ++ [now] else ls_since s n)).
  { intros n t Ht. unfold failures. rewrite times_of_app, filter_app, times_of_prune, (window_prune policy now t) by done.
    rewrite Hf by lia. unfold times_of at 1. rewrite filter_cons. simpl. case_decide as E; case_decide as E'; try congruence.
    - subst n. by rewrite filter_app.
    - by rewrite filter_nil, app_nil_r. }
  assert (Hn : length (filter (fun f => f.1 = number) failures)
    = length (filter (fun t => in_window policy now t = true) (ls_since s number ++ [now]))).
  { rewrite length_times. pose proof (Hwin number now ltac:(lia)) as H. rewrite decide_True in H by done. rewrite <- H.
    f_equal. symmetry. apply list_filter_all. unfold failures. rewrite times_of_app, times_of_prune.
    apply Forall_app. split.
    - apply Forall_forall. intros x Hx. apply list_elem_of_filter in Hx as [Hx _]. unfold in_window. by apply Z.leb_le.
    - unfold times_of. rewrite filter_cons, decide_True by done. simpl. repeat constructor.
      unfold in_window. apply Z.leb_le. lia. }
  rewrite Hn. case_match; simpl; (split; [done|]); split; simpl; try done.
  - intros n t Ht. rewrite times_of_remove. case_decide as E; [done|]. rewrite Hwin, decide_False by done. done.
  - intros n. case_decide as E; [subst; apply lookup_insert_eq|by rewrite lookup_insert_ne].
Qed.

Lemma replay_agrees policy now0 history r s :
  0 <= lp_windowSeconds policy -> ascending now0 history -> lockout_agrees policy now0 r s ->
  fst (replay_failures recordFailedCall policy history r) = fst (replay_failures spec_failed policy history s) /\
  forall number, rg_lockouts (snd (replay_failures recordFailedCall policy history r)) !! number
    = ls_until (snd (replay_failures spec_failed policy history s)) number.
Proof.
  intros Hpos. revert now0 r s; induction history as [|[number now] history IH]; intros now0 r s Hasc Hag; simpl.
  - split; [done|]. apply (la_until _ _ _ _ Hag).
  - destruct Hasc as [Hle Hasc].
    destruct (failed_agrees policy now0 number now r s Hpos Hle Hag) as [Ha Hag'].
    destruct (recordFailedCall number now policy r) as [a r1], (spec_failed number now policy s) as [b s1].
    simpl in *. subst b. destruct (IH now r1 s1 Hasc Hag') as [H1 H2].
    destruct (replay_failures recordFailedCall _ _ _), (replay_failures spec_failed _ _ _). simpl in *. by subst.
Qed.

Definition no_failures : lockout_spec := mkLockoutSpec (fun _ => []) (fun _ => None).

(** The lockout counts a sliding window. Over any history of failed
    calls in the order of time, each is answered as the history says — the
    number is locked when its failures since its last lockout, within the
    window, reach the limit — although the table is pruned as it goes, and
    at any time the numbers refused are exactly those whose last lockout has
    not ended. *)
Theorem lockout_counts_window policy history :
  0 <= lp_windowSeconds policy -> (exists from, ascending from history) ->
  fst (replay_failures recordFailedCall policy history new_registry)
    = fst (replay_failures spec_failed policy history no_failures) /\
  forall number now,
    lockedUntil number now (snd (replay_failures recordFailedCall policy history new_registry))
    = spec_locked number now (snd (replay_failures spec_failed policy history no_failures)).
Proof.
  intros Hpos [from Hasc].
  destruct (replay_agrees policy from history new_registry no_failures Hpos Hasc) as [Ha Hu]; [by split|].
  split; [done|]. intros number now. unfold lockedUntil, spec_locked. by rewrite Hu.
Qed.

Definition three_in_an_hour : LockoutPolicy := mkPolicy 3 3600 86400.
Definition caller : jstr := js "+15550001".
Definition some_failures : list (jstr * Z) :=
  [(caller, 0); (caller, 1000); (js "+15550002", 2000); (caller, 3600500); (caller, 3600900); (caller, 3601000)].

Lemma lockout_counts_window_witness :
  fst (replay_failures recordFailedCall three_in_an_hour some_failures new_registry)
    = [None; None; None; None; Some 90000900; None] /\
  fst (replay_failures recordFailedCall three_in_an_hour some_failures new_registry)
    = fst (replay_failures spec_failed three_in_an_hour some_failures no_failures).
Proof.
  split; [evaluated|]. apply (lockout_counts_window three_in_an_hour some_failures); [done|].
  exists 0. vm_compute. repeat split; discriminate.
Defined.
