(* ===== verification/PhonePicker.v ===== *)
(** The words of [apps/phone/src/engine.ts]: how an utterance is normalised,
    which agent it names or nearly names, and which control phrase it is;
    with the roster's view of an agent from [packages/roster/src/phone.ts]. *)

From S2P Require Import Prelude.

(** ** Agents on the phone *)

Record PhoneAgent := mkPhoneAgent {
  pa_name : jstr;
  pa_spokenName : jstr;
  pa_aliases : list jstr;
  pa_resumeWindowSeconds : Z }.

(** A roster entry's [phone] block. *)
Record phone_entry := mkPhoneEntry {
  pe_enabled : bool;
  pe_spokenName : option jstr;
  pe_aliases : list jstr;
  pe_resumeWindowSeconds : Z }.

Definition phoneEnabledAgents (agents : list (jstr * phone_entry)) : list PhoneAgent :=
  omap (fun '(name, e) =>
    if pe_enabled e then
      match pe_spokenName e with
      | Some spoken => Some (mkPhoneAgent name spoken (pe_aliases e) (pe_resumeWindowSeconds e))
      | None => None
      end
    else None) agents.

(** ** Edit distance *)

(** The inner loop over [row], updated in place: [old] is what the row still
    holds from [j] on, [previous] the old [row[j - 1]], [left] the new one. *)
Fixpoint edit_inner (ca : N) (b : jstr) (old : list nat) (previous left : nat) : list nat :=
  match b, old with
  | cb :: b', current :: old' =>
      let v := Nat.min (Nat.min (current + 1) (left + 1)) (previous + (if (ca =? cb)%N then 0 else 1)) in
      v :: edit_inner ca b' old' current v
  | _, _ => []
  end.
Fixpoint edit_outer (i : nat) (a b : jstr) (row : list nat) : list nat :=
  match a with
  | [] => row
  | ca :: a' => edit_outer (S i) a' b (i :: edit_inner ca b (tail row) (hd 0 row) i)
  end.
Definition editDistance (a b : jstr) : nat := List.last (edit_outer 1 a b (seq 0 (S (length b)))) 0.

Section Words.
(** [toLowerCase], and whether a code point is [\p{L}] or [\p{N}]. *)
Context (toLowerCase : jstr -> jstr) (letter_or_number : N -> bool).

(** [.replace(/[^\p{L}\p{N}\s]/gu, " ")]: by code point, so that a surrogate
    pair is replaced by one space. *)
Definition high_surrogate (c : N) : bool := ((55296 <=? c) && (c <=? 56319))%N.
Definition low_surrogate (c : N) : bool := ((56320 <=? c) && (c <=? 57343))%N.
Fixpoint scrub (s : jstr) : jstr :=
  match s with
  | [] => []
  | c :: t =>
      match t with
      | d :: t' =>
          if high_surrogate c && low_surrogate d then
            if letter_or_number ((c - 55296) * 1024 + (d - 56320) + 65536)%N then c :: d :: scrub t'
            else 32%N :: scrub t'
          else (if letter_or_number c || is_ws c then c else 32%N) :: scrub t
      | [] => [if letter_or_number c || is_ws c then c else 32%N]
      end
  end.

Definition normalize (text : jstr) : jstr := trim (collapse_ws (scrub (toLowerCase text))).

(** ** Naming an agent *)

Definition handles (agent : PhoneAgent) : list jstr :=
  normalize <$> pa_spokenName agent :: pa_name agent :: pa_aliases agent.

Definition spaced (s : jstr) : jstr := 32%N :: s ++ [32%N].

Definition agentNamed (agents : list PhoneAgent) (text : jstr) : option PhoneAgent :=
  let words := spaced (normalize text) in
  List.find (fun agent => existsb (fun handle => includes (spaced handle) words) (handles agent)) agents.

(** Whether a word is close enough to a handle, and how close. *)
Definition near (handle word : jstr) : option nat :=
  if (2 <? length word - length handle) || (2 <? length handle - length word) then None
  else
    let distance := editDistance word handle in
    let allowed := Nat.max 1 (2 * length handle / 5) in
    if distance <=? allowed then Some distance else None.

Definition better (agent : PhoneAgent) (found : option nat) (best : option (PhoneAgent * nat))
  : option (PhoneAgent * nat) :=
  match found with
  | None => best
  | Some d =>
      match best with
      | None => Some (agent, d)
      | Some (_, d0) => if d <? d0 then Some (agent, d) else best
      end
  end.

Definition agentNearlyNamed (agents : list PhoneAgent) (text : jstr) : option PhoneAgent :=
  let words := filter (fun word => (3 <=? length word) = true) (split [32%N] (normalize text)) in
  fst <$>
    fold_left (fun best agent =>
      fold_left (fun best handle =>
        fold_left (fun best word => better agent (near handle word) best) words best)
        (handles agent) best)
      agents None.

End Words.

(** ** Phrases *)

(** [\b]: between a character of [[A-Za-z0-9_]] and none. *)
Definition word_char (c : N) : bool :=
  (is_digit c || ((65 <=? c) && (c <=? 90)) || ((97 <=? c) && (c <=? 122)) || (c =? 95))%N.
Definition edge (before after : option N) : bool :=
  xorb (match before with Some c => word_char c | None => false end)
       (match after with Some c => word_char c | None => false end).

(** [/\b(w)\b/] somewhere in the string. *)
Fixpoint word_from (before : option N) (w s : jstr) : bool :=
  (starts_with w s && edge before (head w)
   && edge (last w) (head (drop (length w) s)))
  || match s with [] => false | c :: t => word_from (Some c) w t end.
Definition says (phrases : list jstr) (said : jstr) : bool := existsb (fun w => word_from None w said) phrases.

(** [/^(a|b)$/]. *)
Definition is_one_of (phrases : list jstr) (said : jstr) : bool := existsb (jeqb said) phrases.

Definition CONFIRM_YES : list jstr := js <$> ["yes"; "yeah"; "yep"; "correct"; "right"; "that s it"]%string.
Definition CONFIRM_NO : list jstr := js <$> ["no"; "nope"; "wrong"]%string.
Definition RESUME_YES : list jstr := js <$> ["resume"; "continue"; "pick up"; "carry on"; "yes"]%string.
Definition RESUME_NO : list jstr := js <$> ["new"; "fresh"; "start over"; "no"]%string.
Definition ONLY_YES : list jstr :=
  js <$> ["yes"; "yeah"; "yep"; "sure"; "okay"; "ok"; "please"; "go ahead"; "connect"]%string.
Definition GOODBYE : list jstr := js <$> ["goodbye"; "bye"; "hang up"; "that s all"; "that is all"]%string.
Definition MISSED : list jstr := js <$> ["what did i miss"; "what happened"; "what did it do"]%string.
Definition REPEAT : list jstr := js <$> ["repeat that"; "say that again"; "again"]%string.
Definition STATUS : list jstr := js <$> ["status"]%string.

(** The heads of the switching phrase, in the order the pattern tries them. *)
Definition SWITCH_HEADS : list jstr :=
  js <$> ["switch agents to"; "switch agents"; "switch agent to"; "switch agent"; "switch to"; "switch";
          "change agents to"; "change agents"; "change agent to"; "change agent"; "change to"; "change";
          "put me through to"; "connect me to"; "transfer me to"]%string.

(** [None]: not the phrase; [Some None]: no name after it. *)
Fixpoint switching_from (heads : list jstr) (said : jstr) : option (option jstr) :=
  match heads with
  | [] => None
  | h :: rest =>
      if starts_with h said then
        match drop (length h) said with
        | [] => Some None
        | c :: (d :: t) => if (c =? 32)%N then Some (Some (d :: t)) else switching_from rest said
        | _ => switching_from rest said
        end
      else switching_from rest said
  end.
Definition switching (said : jstr) : option (option jstr) := switching_from SWITCH_HEADS said.

(** ** The distance is Levenshtein's *)

(** [n] single-character edits turn [a] into [b]. *)
Inductive edits : jstr -> jstr -> nat -> Prop :=
| edits_nil : edits [] [] 0
| edits_keep c a b n : edits a b n -> edits (c :: a) (c :: b) n
| edits_change c d a b n : edits a b n -> edits (c :: a) (d :: b) (S n)
| edits_delete c a b n : edits a b n -> edits (c :: a) b (S n)
| edits_insert d a b n : edits a b n -> edits a (d :: b) (S n).

Fixpoint lev (a : jstr) : jstr -> nat :=
  fix lev_b (b : jstr) : nat :=
    match a, b with
    | [], _ => length b
    | _, [] => length a
    | x :: a', y :: b' =>
        Nat.min (Nat.min (lev a' b + 1) (lev_b b' + 1)) (lev a' b' + (if (x =? y)%N then 0 else 1))
    end.

Lemma lev_nil_l b : lev [] b = length b.
Proof. by destruct b. Qed.
Lemma lev_nil_r a : lev a [] = length a.
Proof. by destruct a. Qed.
Lemma lev_cons x a y b :
  lev (x :: a) (y :: b) =
    Nat.min (Nat.min (lev a (y :: b) + 1) (lev (x :: a) b + 1)) (lev a b + (if (x =? y)%N then 0 else 1)).
Proof. done. Qed.

Lemma edits_insert_all b : edits [] b (length b).
Proof. induction b; simpl; by constructor. Qed.
Lemma edits_delete_all a : edits a [] (length a).
Proof. induction a; simpl; by constructor. Qed.

Lemma lev_edits a b : edits a b (lev a b).
Proof.
  revert b; induction a as [|x a IHa]; intros b; [rewrite lev_nil_l; apply edits_insert_all|].
  induction b as [|y b IHb]; [rewrite lev_nil_r; apply edits_delete_all|]. rewrite lev_cons.
  specialize (IHa (y :: b)) as H1. specialize (IHa b) as H3.
  destruct (Nat.min_spec (Nat.min (lev a (y :: b) + 1) (lev (x :: a) b + 1))
              (lev a b + (if (x =? y)%N then 0 else 1))) as [[_ ->]|[_ ->]].
  - destruct (Nat.min_spec (lev a (y :: b) + 1) (lev (x :: a) b + 1)) as [[_ ->]|[_ ->]];
      rewrite Nat.add_1_r; by constructor.
  - destruct (N.eqb_spec x y) as [->|_]; [rewrite Nat.add_0_r|rewrite Nat.add_1_r]; by constructor.
Qed.

Lemma lev_least a b n : edits a b n -> lev a b <= n.
Proof.
  induction 1 as [|c a b n _ IH|c d a b n _ IH|c a b n _ IH|d a b n _ IH].
  - done.
  - rewrite lev_cons, N.eqb_refl. lia.
  - rewrite lev_cons. destruct (c =? d)%N; lia.
  - destruct b as [|y b]; [rewrite lev_nil_r in *; simpl; lia|rewrite lev_cons; lia].
  - destruct a as [|x a]; [rewrite lev_nil_l in *; simpl; lia|rewrite lev_cons; lia].
Qed.

Lemma edits_app a b n a' b' m : edits a b n -> edits a' b' m -> edits (a ++ a') (b ++ b') (n + m).
Proof. intros H H'. induction H; simpl; [done|by constructor..]. Qed.

Lemma edits_reverse a b n : edits a b n -> edits (reverse a) (reverse b) n.
Proof.
  induction 1 as [|c a b n _ IH|c d a b n _ IH|c a b n _ IH|d a b n _ IH]; rewrite ?reverse_nil, ?reverse_cons.
  - constructor.
  - rewrite <- (Nat.add_0_r n). apply edits_app; [done|]. repeat constructor.
  - rewrite <- (Nat.add_1_r n). apply edits_app; [done|]. repeat constructor.
  - rewrite <- (Nat.add_1_r n), <- (app_nil_r (reverse b)). apply edits_app; [done|]. repeat constructor.
  - rewrite <- (Nat.add_1_r n), <- (app_nil_r (reverse a)). apply edits_app; [done|]. repeat constructor.
Qed.

(** A row of the table: the distances of a reversed prefix of [a] to each
    reversed prefix of [b] from [rb] on. *)
Fixpoint row_of (ra rb b : jstr) : list nat :=
  lev ra rb :: match b with [] => [] | c :: b' => row_of ra (c :: rb) b' end.

Lemma edit_inner_row ca ra rb b :
  edit_inner ca b (tail (row_of ra rb b)) (lev ra rb) (lev (ca :: ra) rb) = tail (row_of (ca :: ra) rb b).
Proof.
  revert rb; induction b as [|cb b IH]; intros rb; [done|].
  assert (E : row_of ra (cb :: rb) b = lev ra (cb :: rb) :: tail (row_of ra (cb :: rb) b)) by (by destruct b).
  assert (E' : row_of (ca :: ra) (cb :: rb) b = lev (ca :: ra) (cb :: rb) :: tail (row_of (ca :: ra) (cb :: rb) b))
    by (by destruct b).
  cbn [row_of tail]. rewrite E, E'. cbn [edit_inner]. cbv zeta. rewrite <- lev_cons. f_equal. apply IH.
Qed.

Lemma row_of_start rb b : row_of [] rb b = seq (length rb) (S (length b)).
Proof.
  revert rb; induction b as [|c b IH]; intros rb; cbn [row_of]; rewrite lev_nil_l; [done|]. by rewrite IH.
Qed.

Lemma edit_outer_row a ra b :
  edit_outer (S (length ra)) a b (row_of ra [] b) = row_of (reverse a ++ ra) [] b.
Proof.
  revert ra; induction a as [|ca a IH]; intros ra; [done|]. cbn [edit_outer].
  assert (Hh : hd 0 (row_of ra [] b) = lev ra []) by (by destruct b).
  assert (Hi : S (length ra) = lev (ca :: ra) []) by (by rewrite lev_nil_r).
  rewrite Hh. rewrite Hi at 2 3. rewrite edit_inner_row.
  replace (lev (ca :: ra) [] :: tail (row_of (ca :: ra) [] b)) with (row_of (ca :: ra) [] b) by (by destruct b).
  change (S (S (length ra))) with (S (length (ca :: ra))). rewrite IH, reverse_cons, <- app_assoc. done.
Qed.

Lemma last_row ra rb b : List.last (row_of ra rb b) 0 = lev ra (reverse b ++ rb).
Proof.
  revert rb; induction b as [|c b IH]; intros rb; [done|]. rewrite reverse_cons, <- app_assoc. simpl app.
  rewrite <- IH. cbn [row_of]. by destruct b.
Qed.

(** C37: the rolling-row loop computes the Levenshtein distance: some script
    of that many single-character edits turns one word into the other, and
    none is shorter. *)
Theorem editDistance_least a b :
  edits a b (editDistance a b) /\ forall n, edits a b n -> editDistance a b <= n.
Proof.
  assert (E : editDistance a b = lev (reverse a) (reverse b)).
  { unfold editDistance. change (seq 0 (S (length b))) with (seq (length (@nil N)) (S (length b))).
    rewrite <- (row_of_start [] b). pose proof (edit_outer_row a [] b) as H. simpl length in H.
    by rewrite H, last_row, !app_nil_r. }
  rewrite E. split.
  - rewrite <- (reverse_involutive a) at 1. rewrite <- (reverse_involutive b) at 1. apply edits_reverse, lev_edits.
  - intros n H%edits_reverse. by apply lev_least.
Qed.
