(* ===== verification/A2AClient.v ===== *)
(** [packages/a2a-client/src/types.ts] and the event mapping of
    [packages/a2a-client/src/client.ts]: what a bridge sees of an agent. *)

From S2P Require Import Prelude A2A Activity.

(** A task as the agent's store answers it. *)
Record Task := mkATask {
  at_id : jstr;
  at_contextId : jstr;
  at_status : option (TaskState * option (list part));
  at_artifacts : list (list part) }.

Inductive A2AEvent :=
| AeTask (task : Task)
| AeStatus (taskId contextId : jstr) (state : TaskState) (messageText : option jstr) (metadata : jsval)
| AeArtifact (taskId text : jstr) (append lastChunk : bool)
| AeActivity (taskId : jstr) (activities : list AgentActivity).

(** The SDK's stream payload. *)
Inductive StreamResponse :=
| SrTask (task : Task)
| SrStatus (taskId contextId : jstr) (status : option (TaskState * option (list part))) (metadata : jsval)
| SrArtifact (taskId : jstr) (artifact : option (jstr * list part)) (append lastChunk : bool)
| SrOther.

Definition artifactText (parts : list part) : jstr :=
  concat ((fun p => match p_content p with CText s => s | _ => [] end) <$> parts).

Definition nonempty (s : jstr) : option jstr := match s with [] => None | _ => Some s end.

Definition toA2AEvent (response : StreamResponse) : option A2AEvent :=
  match response with
  | SrTask task => Some (AeTask task)
  | SrStatus _ _ None _ => None
  | SrStatus taskId contextId (Some (state, message)) metadata =>
      Some (AeStatus taskId contextId state (message ≫= fun parts => nonempty (artifactText parts)) metadata)
  | SrArtifact taskId artifact append lastChunk =>
      match artifact with
      | Some (id, parts) =>
          if jeqb id ACTIVITY_ARTIFACT_ID then
            Some (AeActivity taskId
                    (omap (fun p => match p_content p with CData v => parseAgentActivity v | _ => None end) parts))
          else Some (AeArtifact taskId (artifactText parts) append lastChunk)
      | None => Some (AeArtifact taskId [] append lastChunk)
      end
  | SrOther => None
  end.
