(* ===== verification/PhoneEngine.v ===== *)
(** [apps/phone/src/engine.ts]: one call, from its setup to its end. An
    [async] function is a command that runs up to its first await and leaves
    a suspended process; the server handles frames one at a time, while
    timers, turn streams and detached calls run in between. *)

From S2P Require Import Prelude A2A A2AClient SessionId PhoneRegistry PhonePicker.
#[local] Open Scope nat_scope.

(** ** Data *)

Inductive CallState := Idle | Authenticating | Choosing | Connected_ | Ending.
#[export] Instance CallState_eq_dec : EqDecision CallState.
Proof. solve_decision. Defined.

Inductive SessionEnd := Goodbye | Switched | Dropped.

Inductive PhoneAlert :=
| CallerRejected (callSid from : jstr) (locked : bool) (untilMs : option Z)
| AuthFailed (callSid from : jstr) (attempt : nat) (final : bool)
| LockedOut (callSid from : jstr) (untilMs : Z)
| SessionStarted (callSid agent contextId : jstr) (resumed : bool)
| SessionEnded (callSid agent : jstr) (durationMs : Z) (reason : SessionEnd).

(** The frames the engine acts on; the codec's others are [EvOther]. *)
Inductive CallEvent :=
| EvSetup (callSid from to direction : jstr)
| EvSpeech (text : jstr) (final : bool)
| EvKey (digit : jstr)
| EvInterrupt (heard : jstr)
| EvRelayError (description : jstr)
| EvOther.

Record Call := mkCall {
  ca_callSid : jstr;
  ca_from : jstr;
  ca_to : jstr;
  ca_direction : jstr;
  ca_startedAt : Z }.

Record Connected := mkConnected {
  co_agent : PhoneAgent;
  co_contextId : jstr;
  co_startedAt : Z;
  co_awaitingInputTaskId : option jstr }.

(** A turn object. [tn_live] is until its stream is over; [tn_agent] is what
    [forward] was called with, [tn_seen] the events its loop was given. *)
Record Turn := mkTurn {
  tn_seq : nat;
  tn_taskId : option jstr;
  tn_held : option jstr;
  tn_spoken : jstr;
  tn_dropped : bool;
  tn_startedAt : Z;
  tn_firstChunkAt : option Z;
  tn_firstTokenAt : option Z;
  tn_agent : PhoneAgent;
  tn_live : bool;
  tn_seen : list A2AEvent }.

Record TurnLatency := mkLatency {
  tl_seq : nat;
  tl_toFirstChunkMs : option Z;
  tl_toFirstTokenMs : option Z;
  tl_totalMs : Z }.

(** What leaves the engine, in order. A token carries the turn that spoke
    it, if one did; [AcTypeError] is a read through an undefined field. *)
Inductive action :=
| AcSay (by_turn : option nat) (token : jstr) (last : bool)
| AcEnd (handoffData : jstr)
| AcAlert (alert : PhoneAlert)
| AcVerify (digits : jstr) (ok : bool)
| AcFailedCall (from : jstr)
| AcGetTask (agent taskId : jstr)
| AcStream (agent : jstr) (message : Message)
| AcResubscribe (agent taskId : jstr)
| AcWarm (agent : jstr) (message : Message)
| AcCancel (agent taskId : jstr)
| AcTypeError.

Definition PIN_LENGTH : nat := 8.

Record LockoutPort (S : Type) := mkLockoutPort {
  lk_lockedUntil : jstr -> Z -> S -> option Z;
  lk_failedCall : jstr -> Z -> S -> option Z * S }.
Arguments lk_lockedUntil {S} _ _ _ _.
Arguments lk_failedCall {S} _ _ _ _.

(** The engine's options, short of its ports' sides the model is. *)
Record EngineOptions (S : Type) := mkEngineOptions {
  eo_agents : list PhoneAgent;
  eo_verifyPin : jstr -> bool;
  eo_callerAllowed : jstr -> bool;
  eo_lockout : option (LockoutPort S);
  eo_maxPinAttempts : nat;
  eo_warmUp : bool }.
Arguments eo_agents {S} _.
Arguments eo_verifyPin {S} _ _.
Arguments eo_callerAllowed {S} _ _.
Arguments eo_lockout {S} _.
Arguments eo_maxPinAttempts {S} _.
Arguments eo_warmUp {S} _.

(** A turn's own text, and a task's. *)
Definition taskText (task : Task) : jstr :=
  let fromStatus := match at_status task with Some (_, Some parts) => artifactText parts | _ => [] end in
  match fromStatus with
  | [] => concat (artifactText <$> at_artifacts task)
  | _ => fromStatus
  end.

Definition phoneMessageId (callSid : jstr) (seq : nat) : jstr :=
  js "phone-" ++ callSid ++ js "-" ++ show_nat seq.

Definition set_taskId (v : option jstr) (t : Turn) : Turn :=
  mkTurn (tn_seq t) v (tn_held t) (tn_spoken t) (tn_dropped t) (tn_startedAt t) (tn_firstChunkAt t)
    (tn_firstTokenAt t) (tn_agent t) (tn_live t) (tn_seen t).
Definition set_held (v : option jstr) (t : Turn) : Turn :=
  mkTurn (tn_seq t) (tn_taskId t) v (tn_spoken t) (tn_dropped t) (tn_startedAt t) (tn_firstChunkAt t)
    (tn_firstTokenAt t) (tn_agent t) (tn_live t) (tn_seen t).
Definition set_spoken (v : jstr) (t : Turn) : Turn :=
  mkTurn (tn_seq t) (tn_taskId t) (tn_held t) v (tn_dropped t) (tn_startedAt t) (tn_firstChunkAt t)
    (tn_firstTokenAt t) (tn_agent t) (tn_live t) (tn_seen t).
Definition set_dropped (t : Turn) : Turn :=
  mkTurn (tn_seq t) (tn_taskId t) (tn_held t) (tn_spoken t) true (tn_startedAt t) (tn_firstChunkAt t)
    (tn_firstTokenAt t) (tn_agent t) (tn_live t) (tn_seen t).
Definition set_clock (chunk token : option Z) (t : Turn) : Turn :=
  mkTurn (tn_seq t) (tn_taskId t) (tn_held t) (tn_spoken t) (tn_dropped t) (tn_startedAt t) chunk token
    (tn_agent t) (tn_live t) (tn_seen t).
Definition set_over (t : Turn) : Turn :=
  mkTurn (tn_seq t) (tn_taskId t) (tn_held t) (tn_spoken t) (tn_dropped t) (tn_startedAt t) (tn_firstChunkAt t)
    (tn_firstTokenAt t) (tn_agent t) false (tn_seen t).
Definition see (event : A2AEvent) (t : Turn) : Turn :=
  mkTurn (tn_seq t) (tn_taskId t) (tn_held t) (tn_spoken t) (tn_dropped t) (tn_startedAt t) (tn_firstChunkAt t)
    (tn_firstTokenAt t) (tn_agent t) (tn_live t) (tn_seen t ++ [event]).

Declare Scope cmd_scope.
Delimit Scope cmd_scope with cmd.

Section Engine.
(** The session store behind its port. *)
Context {St : Type} `{!PhoneStatePort St}.

(** [en_keyFlush] and [en_choosingReplay] are whether the timer is armed;
    [en_turns] holds the turn objects, [en_turn] the current one's key;
    [en_now] is the clock as the running step reads it. *)
Record engine := mkEngine {
  en_state : CallState;
  en_call : option Call;
  en_connected : option Connected;
  en_pin : jstr;
  en_pinAttempts : nat;
  en_resumeOffer : option (PhoneAgent * PhoneSession);
  en_confirmOffer : option PhoneAgent;
  en_awaySummary : option jstr;
  en_seq : nat;
  en_turn : option nat;
  en_lastReply : jstr;
  en_interruptedAt : option jstr;
  en_keys : jstr;
  en_keyFlush : bool;
  en_choosingReplay : bool;
  en_latencies : list TurnLatency;
  en_turns : gmap nat Turn;
  en_store : St;
  en_now : Z;
  en_log : list action }.

Definition set_state (v : CallState) (e : engine) : engine :=
  mkEngine v (en_call e) (en_connected e) (en_pin e) (en_pinAttempts e) (en_resumeOffer e) (en_confirmOffer e)
    (en_awaySummary e) (en_seq e) (en_turn e) (en_lastReply e) (en_interruptedAt e) (en_keys e) (en_keyFlush e)
    (en_choosingReplay e) (en_latencies e) (en_turns e) (en_store e) (en_now e) (en_log e).
Definition set_call (v : option Call) (e : engine) : engine :=
  mkEngine (en_state e) v (en_connected e) (en_pin e) (en_pinAttempts e) (en_resumeOffer e) (en_confirmOffer e)
    (en_awaySummary e) (en_seq e) (en_turn e) (en_lastReply e) (en_interruptedAt e) (en_keys e) (en_keyFlush e)
    (en_choosingReplay e) (en_latencies e) (en_turns e) (en_store e) (en_now e) (en_log e).
Definition set_connected (v : option Connected) (e : engine) : engine :=
  mkEngine (en_state e) (en_call e) v (en_pin e) (en_pinAttempts e) (en_resumeOffer e) (en_confirmOffer e)
    (en_awaySummary e) (en_seq e) (en_turn e) (en_lastReply e) (en_interruptedAt e) (en_keys e) (en_keyFlush e)
    (en_choosingReplay e) (en_latencies e) (en_turns e) (en_store e) (en_now e) (en_log e).
Definition set_pin (v : jstr) (e : engine) : engine :=
  mkEngine (en_state e) (en_call e) (en_connected e) v (en_pinAttempts e) (en_resumeOffer e) (en_confirmOffer e)
    (en_awaySummary e) (en_seq e) (en_turn e) (en_lastReply e) (en_interruptedAt e) (en_keys e) (en_keyFlush e)
    (en_choosingReplay e) (en_latencies e) (en_turns e) (en_store e) (en_now e) (en_log e).
Definition set_pinAttempts (v : nat) (e : engine) : engine :=
  mkEngine (en_state e) (en_call e) (en_connected e) (en_pin e) v (en_resumeOffer e) (en_confirmOffer e)
    (en_awaySummary e) (en_seq e) (en_turn e) (en_lastReply e) (en_interruptedAt e) (en_keys e) (en_keyFlush e)
    (en_choosingReplay e) (en_latencies e) (en_turns e) (en_store e) (en_now e) (en_log e).
Definition set_resumeOffer (v : option (PhoneAgent * PhoneSession)) (e : engine) : engine :=
  mkEngine (en_state e) (en_call e) (en_connected e) (en_pin e) (en_pinAttempts e) v (en_confirmOffer e)
    (en_awaySummary e) (en_seq e) (en_turn e) (en_lastReply e) (en_interruptedAt e) (en_keys e) (en_keyFlush e)
    (en_choosingReplay e) (en_latencies e) (en_turns e) (en_store e) (en_now e) (en_log e).
Definition set_confirmOffer (v : option PhoneAgent) (e : engine) : engine :=
  mkEngine (en_state e) (en_call e) (en_connected e) (en_pin e) (en_pinAttempts e) (en_resumeOffer e) v
    (en_awaySummary e) (en_seq e) (en_turn e) (en_lastReply e) (en_interruptedAt e) (en_keys e) (en_keyFlush e)
    (en_choosingReplay e) (en_latencies e) (en_turns e) (en_store e) (en_now e) (en_log e).
Definition set_awaySummary (v : option jstr) (e : engine) : engine :=
  mkEngine (en_state e) (en_call e) (en_connected e) (en_pin e) (en_pinAttempts e) (en_resumeOffer e)
    (en_confirmOffer e) v (en_seq e) (en_turn e) (en_lastReply e) (en_interruptedAt e) (en_keys e) (en_keyFlush e)
    (en_choosingReplay e) (en_latencies e) (en_turns e) (en_store e) (en_now e) (en_log e).
Definition set_seq (v : nat) (e : engine) : engine :=
  mkEngine (en_state e) (en_call e) (en_connected e) (en_pin e) (en_pinAttempts e) (en_resumeOffer e)
    (en_confirmOffer e) (en_awaySummary e) v (en_turn e) (en_lastReply e) (en_interruptedAt e) (en_keys e)
    (en_keyFlush e) (en_choosingReplay e) (en_latencies e) (en_turns e) (en_store e) (en_now e) (en_log e).
Definition set_turn (v : option nat) (e : engine) : engine :=
  mkEngine (en_state e) (en_call e) (en_connected e) (en_pin e) (en_pinAttempts e) (en_resumeOffer e)
    (en_confirmOffer e) (en_awaySummary e) (en_seq e) v (en_lastReply e) (en_interruptedAt e) (en_keys e)
    (en_keyFlush e) (en_choosingReplay e) (en_latencies e) (en_turns e) (en_store e) (en_now e) (en_log e).
Definition set_lastReply (v : jstr) (e : engine) : engine :=
  mkEngine (en_state e) (en_call e) (en_connected e) (en_pin e) (en_pinAttempts e) (en_resumeOffer e)
    (en_confirmOffer e) (en_awaySummary e) (en_seq e) (en_turn e) v (en_interruptedAt e) (en_keys e) (en_keyFlush e)
    (en_choosingReplay e) (en_latencies e) (en_turns e) (en_store e) (en_now e) (en_log e).
Definition set_interruptedAt (v : option jstr) (e : engine) : engine :=
  mkEngine (en_state e) (en_call e) (en_connected e) (en_pin e) (en_pinAttempts e) (en_resumeOffer e)
    (en_confirmOffer e) (en_awaySummary e) (en_seq e) (en_turn e) (en_lastReply e) v (en_keys e) (en_keyFlush e)
    (en_choosingReplay e) (en_latencies e) (en_turns e) (en_store e) (en_now e) (en_log e).
Definition set_keys (v : jstr) (e : engine) : engine :=
  mkEngine (en_state e) (en_call e) (en_connected e) (en_pin e) (en_pinAttempts e) (en_resumeOffer e)
    (en_confirmOffer e) (en_awaySummary e) (en_seq e) (en_turn e) (en_lastReply e) (en_interruptedAt e) v
    (en_keyFlush e) (en_choosingReplay e) (en_latencies e) (en_turns e) (en_store e) (en_now e) (en_log e).
Definition set_keyFlush (v : bool) (e : engine) : engine :=
  mkEngine (en_state e) (en_call e) (en_connected e) (en_pin e) (en_pinAttempts e) (en_resumeOffer e)
    (en_confirmOffer e) (en_awaySummary e) (en_seq e) (en_turn e) (en_lastReply e) (en_interruptedAt e) (en_keys e)
    v (en_choosingReplay e) (en_latencies e) (en_turns e) (en_store e) (en_now e) (en_log e).
Definition set_choosingReplay (v : bool) (e : engine) : engine :=
  mkEngine (en_state e) (en_call e) (en_connected e) (en_pin e) (en_pinAttempts e) (en_resumeOffer e)
    (en_confirmOffer e) (en_awaySummary e) (en_seq e) (en_turn e) (en_lastReply e) (en_interruptedAt e) (en_keys e)
    (en_keyFlush e) v (en_latencies e) (en_turns e) (en_store e) (en_now e) (en_log e).
Definition set_latencies (v : list TurnLatency) (e : engine) : engine :=
  mkEngine (en_state e) (en_call e) (en_connected e) (en_pin e) (en_pinAttempts e) (en_resumeOffer e)
    (en_confirmOffer e) (en_awaySummary e) (en_seq e) (en_turn e) (en_lastReply e) (en_interruptedAt e) (en_keys e)
    (en_keyFlush e) (en_choosingReplay e) v (en_turns e) (en_store e) (en_now e) (en_log e).
Definition set_turns (v : gmap nat Turn) (e : engine) : engine :=
  mkEngine (en_state e) (en_call e) (en_connected e) (en_pin e) (en_pinAttempts e) (en_resumeOffer e)
    (en_confirmOffer e) (en_awaySummary e) (en_seq e) (en_turn e) (en_lastReply e) (en_interruptedAt e) (en_keys e)
    (en_keyFlush e) (en_choosingReplay e) (en_latencies e) v (en_store e) (en_now e) (en_log e).
Definition set_store (v : St) (e : engine) : engine :=
  mkEngine (en_state e) (en_call e) (en_connected e) (en_pin e) (en_pinAttempts e) (en_resumeOffer e)
    (en_confirmOffer e) (en_awaySummary e) (en_seq e) (en_turn e) (en_lastReply e) (en_interruptedAt e) (en_keys e)
    (en_keyFlush e) (en_choosingReplay e) (en_latencies e) (en_turns e) v (en_now e) (en_log e).
Definition set_now (v : Z) (e : engine) : engine :=
  mkEngine (en_state e) (en_call e) (en_connected e) (en_pin e) (en_pinAttempts e) (en_resumeOffer e)
    (en_confirmOffer e) (en_awaySummary e) (en_seq e) (en_turn e) (en_lastReply e) (en_interruptedAt e) (en_keys e)
    (en_keyFlush e) (en_choosingReplay e) (en_latencies e) (en_turns e) (en_store e) v (en_log e).
Definition set_log (v : list action) (e : engine) : engine :=
  mkEngine (en_state e) (en_call e) (en_connected e) (en_pin e) (en_pinAttempts e) (en_resumeOffer e)
    (en_confirmOffer e) (en_awaySummary e) (en_seq e) (en_turn e) (en_lastReply e) (en_interruptedAt e) (en_keys e)
    (en_keyFlush e) (en_choosingReplay e) (en_latencies e) (en_turns e) (en_store e) (en_now e) v.

Definition new_engine (store : St) : engine :=
  mkEngine Idle None None [] 0 None None None 0 None [] None [] false false [] ∅ store 0%Z [].

(** ** Processes *)

(** What an await may answer. *)
Inductive answer :=
| AnsDone
| AnsThrow
| AnsTask (task : Task).

(** A suspended function: over, waiting for an answer, or with a detached
    call beside it. *)
Inductive proc :=
| Done
| Await (k : answer -> engine -> engine * proc)
| Fork (detached rest : proc).

Definition cmd : Type := engine -> engine * proc.

Definition ret : cmd := fun e => (e, Done).
Definition act (f : engine -> engine) : cmd := fun e => (f e, Done).
Definition read (c : engine -> cmd) : cmd := fun e => c e e.

(** The command after a suspended function is over. *)
Fixpoint continue (p : proc) (c : cmd) (e : engine) : engine * proc :=
  match p with
  | Done => c e
  | Await k => (e, Await (fun a e1 => match k a e1 with (e2, p2) => continue p2 c e2 end))
  | Fork d q => match continue q c e with (e1, q1) => (e1, Fork d q1) end
  end.
Definition then_ (c1 c2 : cmd) : cmd := fun e => match c1 e with (e1, p) => continue p c2 e1 end.

(** [void f()]: run up to its first await, and not waited for. *)
Definition fork (c : cmd) : cmd := fun e => match c e with (e1, p) => (e1, Fork p Done) end.

Definition perform (a : action) : engine -> engine := fun e => set_log (en_log e ++ [a]) e.
Definition await (a : action) (k : answer -> cmd) : cmd := fun e => (perform a e, Await k).

Notation "c1 ;;; c2" := (then_ c1 c2) (at level 100, c2 at level 200, right associativity) : cmd_scope.
#[local] Open Scope cmd_scope.

(** A frame to the relay. The engine sends texts and ends only, which the
    codec always takes, and the bridge's port (server.ts) writes them to an
    open or closed socket without an exception: its answer is never one. *)
Definition send (a : action) : cmd := await a (fun _ => ret).
Definition alert (a : PhoneAlert) : cmd := await (AcAlert a) (fun _ => ret).
Definition speak (text : jstr) : cmd := act (set_lastReply text) ;;; send (AcSay None text true).
Definition type_error : cmd := act (perform AcTypeError).

Definition upd_turn (k : nat) (f : Turn -> Turn) (e : engine) : engine := set_turns (alter f k (en_turns e)) e.

Section Options.
Context (options : EngineOptions St).
(** [toLowerCase], Unicode's letters and numbers, SHA-1 and [toISOString]. *)
Context (toLowerCase : jstr -> jstr) (letter_or_number : N -> bool) (sha1 : list N -> list N) (iso : Z -> jstr).

#[local] Abbreviation normalize := (normalize toLowerCase letter_or_number).

Definition phoneSessionId (agent openingCallSid : jstr) : jstr :=
  default [] (uuidv5 sha1 (js "phone:" ++ agent ++ js ":" ++ openingCallSid) THICKET_NAMESPACE).

(** ** Ending *)

(** [hangup]: the timers go, the session is saved, and once its alert is
    posted the turn is dropped and the connection forgotten. *)
Definition saved_at_end (c : Connected) (k : Call) (running : option jstr) (e : engine) : PhoneSession :=
  mkPhoneSession (pa_name (co_agent c)) (co_contextId c)
    (match sessionFor (pa_name (co_agent c)) (en_store e) with
     | Some s => ph_openedByCall s
     | None => ca_callSid k
     end)
    (en_now e) (co_awaitingInputTaskId c) running.

Definition current_turn (e : engine) : option (nat * Turn) :=
  match en_turn e with
  | Some k => (fun t => (k, t)) <$> en_turns e !! k
  | None => None
  end.

(** A turn that is there and still forwarded. *)
Definition undropped (e : engine) : option (nat * Turn) :=
  match current_turn e with
  | Some (k, t) => if tn_dropped t then None else Some (k, t)
  | None => None
  end.

Definition hangup (reason : SessionEnd) : cmd := read (fun e0 =>
  if decide (en_state e0 = Ending) then ret else
  act (fun e => set_choosingReplay false (set_keyFlush false (set_state Ending e))) ;;;
  match en_connected e0, en_call e0 with
  | Some connected, Some call =>
      act (fun e => set_store (saveSession
             (saved_at_end connected call (undropped e ≫= fun t => tn_taskId t.2) e) (en_store e)) e) ;;;
      alert (SessionEnded (ca_callSid call) (pa_name (co_agent connected))
               (en_now e0 - co_startedAt connected) reason)
  | _, _ => ret
  end ;;;
  act (fun e => set_connected None
         (match en_turn e with Some k => upd_turn k set_dropped e | None => e end))).

(** ** Turns *)

(** A new turn object for the stream [a] opens; the turn before it is
    dropped, and cancelled if it has a task. *)
Definition finish_turn (k : nat) : cmd := act (fun e =>
  let e1 := if decide (en_turn e = Some k) then set_turn None e else e in
  match en_turns e !! k with
  | None => e1
  | Some t =>
      let since (o : option Z) : option Z := (fun at_ => at_ - tn_startedAt t)%Z <$> o in
      let e2 := upd_turn k set_over e1 in
      if tn_dropped t then e2
      else set_latencies (en_latencies e ++ [mkLatency (tn_seq t) (since (tn_firstChunkAt t))
                            (since (tn_firstTokenAt t)) (en_now e - tn_startedAt t)%Z]) e2
  end).

Definition first_token (now : Z) (t : Turn) : Turn :=
  set_clock (tn_firstChunkAt t) (Some (default now (tn_firstTokenAt t))) t.

(** The stretch of [onTurnEvent] after an await sees the turn as it is then. *)
Definition after_token (k : nat) (token : jstr) : engine -> engine := fun e =>
  upd_turn k (fun t => set_spoken (tn_spoken t ++ token) (first_token (en_now e) t)) e.

Definition ends_utterance (s : TaskState) : bool :=
  match s with
  | TASK_STATE_COMPLETED | TASK_STATE_FAILED | TASK_STATE_CANCELED | TASK_STATE_INPUT_REQUIRED => true
  | _ => false
  end.

Definition reply_is_spoken (k : nat) : cmd := act (fun e =>
  match en_turns e !! k with
  | Some t => match tn_spoken t with [] => e | s => set_lastReply s e end
  | None => e
  end).

Definition set_awaiting (taskId : option jstr) (c : Connected) : Connected :=
  mkConnected (co_agent c) (co_contextId c) (co_startedAt c) taskId.

Definition asks_operator (state : TaskState) (taskId : jstr) : bool :=
  match state, taskId with TASK_STATE_INPUT_REQUIRED, _ :: _ => true | _, _ => false end.

Definition onTurnEvent (k : nat) (event : A2AEvent) : cmd := read (fun e =>
  match en_turns e !! k with
  | None => ret
  | Some t =>
      match event with
      | AeTask task => act (upd_turn k (set_taskId (Some (at_id task))))
      | AeArtifact _ [] _ _ => ret
      | AeArtifact _ text _ _ =>
          act (upd_turn k (fun t => set_clock (Some (default (en_now e) (tn_firstChunkAt t))) (tn_firstTokenAt t) t)) ;;;
          match tn_held t with
          | Some held => send (AcSay (Some k) held false) ;;; act (after_token k held)
          | None => ret
          end ;;;
          act (upd_turn k (set_held (Some text)))
      | AeStatus taskId _ state messageText _ =>
          if negb (ends_utterance state) then ret else
          let asked := asks_operator state taskId in
          if asked && negb (present (en_connected e)) then type_error else
          (if asked then act (fun e => set_connected (set_awaiting (Some taskId) <$> en_connected e) e) else ret) ;;;
          let finalToken := match tn_held t with Some held => held | None => default [] messageText end in
          act (upd_turn k (set_held None)) ;;;
          match finalToken with
          | [] => match tn_spoken t with
                  | [] => ret
                  | _ => send (AcSay (Some k) [] true)
                  end
          | _ => send (AcSay (Some k) finalToken true) ;;; act (after_token k finalToken)
          end ;;;
          reply_is_spoken k
      | AeActivity _ _ => ret
      end
  end).

(** One turn of [forward]'s loop, and its three ways out. *)
Inductive stream_step :=
| StEvent (event : A2AEvent)
| StEnd
| StThrow.

Definition forward (k : nat) (s : stream_step) : cmd := read (fun e =>
  match en_turns e !! k with
  | None => ret
  | Some t =>
      match s with
      | StEvent event => act (upd_turn k (see event)) ;;; (if tn_dropped t then ret else onTurnEvent k event)
      | StEnd => finish_turn k
      | StThrow =>
          (if tn_dropped t then ret
           else speak (js "Something went wrong talking to " ++ pa_spokenName (tn_agent t) ++ js ".")) ;;;
          finish_turn k
      end
  end).

(** [cancelTask] catches everything: an error of the cancellation, and the
    [TypeError] of reading [connected] when there is no connection, go to the
    log, and the function is over. *)
Definition cancelTask (taskId : jstr) : cmd := read (fun e =>
  match en_connected e with
  | Some c => await (AcCancel (pa_name (co_agent c)) taskId) (fun _ => ret)
  | None => ret
  end).

Definition phone_metadata (call : Call) (kind : jstr) (startedAt : Z) : list (jstr * jsval) :=
  [(META_TRIGGER, VStr TRIGGER_PHONE); (META_PHONE_CALL, VStr (ca_callSid call));
   (META_PHONE_FROM, VStr (ca_from call)); (META_PHONE_TO, VStr (ca_to call));
   (META_PHONE_DIRECTION, VStr (ca_direction call)); (META_PHONE_KIND, VStr kind);
   (META_PHONE_SESSION_STARTED, VStr (iso startedAt))].

Definition new_turn (seq : nat) (taskId : option jstr) (agent : PhoneAgent) (now : Z) : Turn :=
  mkTurn seq taskId None [] false now None None agent true [].

(** [buildMessage]. *)
Definition buildMessage (text kind : jstr) (call : Call) (connected : Connected) (seq : nat) : Message :=
  mkMessage (phoneMessageId (ca_callSid call) seq) (co_contextId connected)
    (default [] (co_awaitingInputTaskId connected)) ROLE_USER [textPart text]
    (VObj (phone_metadata call kind (co_startedAt connected))).

(** [startTurn]: a turn still forwarded is dropped, and cancelled if its task
    is known; then the utterance opens the next. *)
Definition drop_previous : cmd := read (fun e =>
  match undropped e with
  | Some (k, t) =>
      act (upd_turn k set_dropped) ;;;
      match tn_taskId t with Some taskId => fork (cancelTask taskId) | None => ret end
  | None => ret
  end).

Definition open_turn (text kind : jstr) : cmd := read (fun e =>
  let k := S (en_seq e) in
  match en_call e, en_connected e with
  | Some call, Some connected =>
      act (fun e =>
        set_turn (Some k)
          (set_turns (<[k := new_turn k None (co_agent connected) (en_now e)]> (en_turns e))
             (perform (AcStream (pa_name (co_agent connected)) (buildMessage text kind call connected k))
                (set_connected (Some (set_awaiting None connected)) (set_seq k e)))))
  | _, _ => act (set_seq k) ;;; type_error
  end).

Definition startTurn (text kind : jstr) : cmd := drop_previous ;;; open_turn text kind.

(** ** Choosing *)

Definition offer : jstr :=
  match pa_spokenName <$> eo_agents options with
  | [] => js "No agent is on the phone right now."
  | [name] => js "Shall I connect you to " ++ name ++ js "?"
  | names => js "Who would you like? " ++ join_with (js ", ") (removelast names) ++ js ", or "
             ++ List.last names [] ++ js "."
  end.

Definition fetchTask (agent : PhoneAgent) (taskId : jstr) (k : option Task -> cmd) : cmd :=
  await (AcGetTask (pa_name agent) taskId) (fun a => k (match a with AnsTask t => Some t | _ => None end)).

Definition task_clause (task : Task) : jstr :=
  match fst <$> at_status task with
  | Some TASK_STATE_WORKING | Some TASK_STATE_SUBMITTED => js " It's still working on what you asked."
  | Some TASK_STATE_INPUT_REQUIRED => js " It's waiting on an answer from you."
  | Some TASK_STATE_COMPLETED => js " It finished what you asked while you were away."
  | Some TASK_STATE_FAILED => js " What you asked failed while you were away."
  | _ => []
  end.

Definition either (a b : option jstr) : option jstr := match a with Some x => Some x | None => b end.

Definition taskSince (agent : PhoneAgent) (previous : PhoneSession) (k : jstr -> cmd) : cmd :=
  match either (ph_runningTaskId previous) (ph_openTaskId previous) with
  | None => k []
  | Some taskId => fetchTask agent taskId (fun t => k (match t with Some task => task_clause task | None => [] end))
  end.

(** A turn for the rest of a task's output. *)
Definition stream_on (agent : PhoneAgent) (taskId : jstr) : cmd := act (fun e =>
  let k := S (en_seq e) in
  set_turn (Some k)
    (set_turns (<[k := new_turn k (Some taskId) agent (en_now e)]> (en_turns e))
       (perform (AcResubscribe (pa_name agent) taskId) (set_seq k e)))).

(** A session picked up while its task still runs is streamed on; one whose
    task is over says what it produced. *)
Definition pickUp (agent : PhoneAgent) (taskId : jstr) : cmd :=
  fetchTask agent taskId (fun found =>
    match found with
    | None => ret
    | Some task =>
        match fst <$> at_status task with
        | Some TASK_STATE_WORKING | Some TASK_STATE_SUBMITTED =>
            speak (js "It's still working. Here's the rest as it comes.") ;;;
            stream_on agent taskId
        | Some TASK_STATE_INPUT_REQUIRED =>
            read (fun e =>
              match en_connected e with
              | None => type_error
              | Some c =>
                  act (set_connected (Some (set_awaiting (Some taskId) c))) ;;;
                  speak (match taskText task with
                         | [] => js "It's waiting on an answer from you."
                         | question => js "It asked: " ++ question
                         end)
              end)
        | Some TASK_STATE_COMPLETED =>
            match taskText task with
            | [] => ret
            | produced =>
                act (set_awaySummary (Some produced)) ;;; speak (js "While you were away, it finished: " ++ produced)
            end
        | Some TASK_STATE_FAILED => speak (js "What you asked failed while you were away.")
        | _ => ret
        end
    end).

(** A context-only message: it starts the subprocess, not a turn. *)
Definition warm (agent : PhoneAgent) (contextId : jstr) : cmd := read (fun e =>
  match en_call e with
  | None => type_error
  | Some call =>
      await (AcWarm (pa_name agent)
               (mkMessage (phoneMessageId (ca_callSid call) 0 ++ js "-warm") contextId [] ROLE_USER
                  [textPart (js "The operator has connected by phone.")]
                  (VObj ((META_SHOULD_QUERY, VBool false) :: phone_metadata call (js "event")
                     (match en_connected e with Some c => co_startedAt c | None => en_now e end)))))
        (fun _ => ret)
  end).

Definition connect (agent : PhoneAgent) (previous : option PhoneSession) : cmd := read (fun e =>
  match en_call e with
  | None => type_error
  | Some call =>
      let now := en_now e in
      let contextId := match previous with Some p => ph_contextId p
                                         | None => phoneSessionId (pa_name agent) (ca_callSid call) end in
      act (fun e =>
        set_state Connected_
          (set_store (saveSession (mkPhoneSession (pa_name agent) contextId
              (match previous with Some p => ph_openedByCall p | None => ca_callSid call end) now None None)
              (en_store e))
            (set_connected (Some (mkConnected agent contextId now (previous ≫= ph_openTaskId))) e))) ;;;
      alert (SessionStarted (ca_callSid call) (pa_name agent) contextId (present previous)) ;;;
      (if eo_warmUp options then fork (warm agent contextId) else ret) ;;;
      speak (match previous with
             | None => js "Connected to " ++ pa_spokenName agent ++ js "."
             | Some _ => js "Resuming with " ++ pa_spokenName agent ++ js "."
             end) ;;;
      match previous ≫= ph_runningTaskId with
      | Some taskId => pickUp agent taskId
      | None => ret
      end
  end).

Definition minutes_ago (now lastActiveAt : Z) : jstr :=
  let minutes := Z.max 1 ((now - lastActiveAt + 30000) / 60000) in
  if (minutes =? 1)%Z then js "a minute" else show_Z minutes ++ js " minutes".

Definition choose (agent : PhoneAgent) : cmd := read (fun e =>
  match sessionFor (pa_name agent) (en_store e) with
  | None => connect agent None
  | Some previous =>
      if (en_now e - ph_lastActiveAt previous <=? pa_resumeWindowSeconds agent * 1000)%Z then
        act (set_resumeOffer (Some (agent, previous))) ;;;
        taskSince agent previous (fun clause =>
          speak (js "You were talking to " ++ pa_spokenName agent ++ js " "
                 ++ minutes_ago (en_now e) (ph_lastActiveAt previous) ++ js " ago." ++ clause
                 ++ js " Resume, or start fresh?"))
      else connect agent None
  end).

(** An agent named, nearly named, or neither. *)
Definition name_heard (text : jstr) : cmd :=
  match agentNamed toLowerCase letter_or_number (eo_agents options) text with
  | Some agent => choose agent
  | None =>
      match agentNearlyNamed toLowerCase letter_or_number (eo_agents options) text with
      | Some nearly =>
          act (set_confirmOffer (Some nearly)) ;;;
          speak (js "Did you say " ++ pa_spokenName nearly ++ js "?")
      | None => speak (js "I didn't catch that. " ++ offer)
      end
  end.

(** With a single agent on offer a plain yes is an answer. *)
Definition choose_named (text : jstr) : cmd :=
  match eo_agents options with
  | [only] => if says ONLY_YES (normalize text) then choose only else name_heard text
  | _ => name_heard text
  end.

(** The session on offer is resumed, left, or asked about again. *)
Definition choose_session (text : jstr) : cmd := read (fun e =>
  let said := normalize text in
  match en_resumeOffer e with
  | Some (agent, session) =>
      if says RESUME_YES said then act (set_resumeOffer None) ;;; connect agent (Some session)
      else if says RESUME_NO said then act (set_resumeOffer None) ;;; connect agent None
      else speak (js "Resume, or start fresh?")
  | None => choose_named text
  end).

Definition onChoice (text : jstr) : cmd :=
  act (set_choosingReplay false) ;;;
  read (fun e =>
    let said := normalize text in
    match en_confirmOffer e with
    | Some confirm =>
        act (set_confirmOffer None) ;;;
        (if says CONFIRM_YES said then choose confirm
         else if says CONFIRM_NO said then speak offer
         else choose_session text)
    | None => choose_session text
    end).

(** The key cut the question off: it is asked again once the keys stop. *)
Definition onChoosingKey : cmd := act (set_choosingReplay true).
Definition choosing_replay : cmd :=
  act (set_choosingReplay false) ;;;
  read (fun e =>
    if negb (bool_decide (en_state e = Choosing)) then ret else
    fork (match en_confirmOffer e, en_resumeOffer e with
          | Some agent, _ => speak (js "Did you say " ++ pa_spokenName agent ++ js "?")
          | None, Some _ => speak (js "Resume, or start fresh?")
          | None, None => speak (js "Hi, it's Aiva. " ++ offer)
          end)).

(** ** Authenticating *)

Definition onSetup (callSid from to direction : jstr) : cmd :=
  act (fun e => set_call (Some (mkCall callSid from to direction (en_now e))) e) ;;;
  read (fun e =>
    if negb (eo_callerAllowed options from) then
      alert (CallerRejected callSid from false None) ;;;
      act (set_state Ending) ;;;
      send (AcEnd (js "rejected"))
    else
      match eo_lockout options ≫= fun l => lk_lockedUntil l from (en_now e) (en_store e) with
      | Some untilMs =>
          alert (CallerRejected callSid from true (Some untilMs)) ;;;
          act (set_state Ending) ;;;
          send (AcEnd (js "locked-out"))
      | None => act (set_state Authenticating)
      end).

Definition record_failure (from : jstr) (k : option Z -> cmd) : cmd := read (fun e =>
  match eo_lockout options with
  | Some l =>
      let (until, store) := lk_failedCall l from (en_now e) (en_store e) in
      act (fun e => perform (AcFailedCall from) (set_store store e)) ;;; k until
  | None => k None
  end).

Definition onPinEntered : cmd := read (fun e =>
  match en_call e with
  | None => type_error
  | Some call =>
      let entered := en_pin e in
      let ok := eo_verifyPin options entered in
      act (fun e => perform (AcVerify entered ok) (set_pin [] e)) ;;;
      if ok then
        act (fun e => set_state Choosing (set_pinAttempts 0 e)) ;;;
        speak (js "Hi, it's Aiva. " ++ offer)
      else
        act (fun e => set_pinAttempts (S (en_pinAttempts e)) e) ;;;
        read (fun e =>
          let final := eo_maxPinAttempts options <=? en_pinAttempts e in
          alert (AuthFailed (ca_callSid call) (ca_from call) (en_pinAttempts e) final) ;;;
          if final then
            act (set_state Ending) ;;;
            record_failure (ca_from call) (fun lockedUntil =>
              match lockedUntil with
              | Some until => alert (LockedOut (ca_callSid call) (ca_from call) until)
              | None => ret
              end ;;;
              speak (js "That's not it. Goodbye.") ;;;
              send (AcEnd (js "auth-failed")))
          else speak (js "That's not it. Try again."))
  end).

Definition onPinDigit (digit : jstr) : cmd :=
  if jeqb digit (js "#") || jeqb digit (js "*") then
    read (fun e => match en_pin e with [] => ret | _ => onPinEntered end)
  else
    act (fun e => set_pin (en_pin e ++ digit) e) ;;;
    read (fun e => if length (en_pin e) <? PIN_LENGTH then ret else onPinEntered).

(** ** Connected *)

Definition onUtterance (text : jstr) : cmd := read (fun e =>
  let said := normalize text in
  if is_one_of GOODBYE said then
    speak (js "Goodbye.") ;;; send (AcEnd (js "goodbye")) ;;; hangup Goodbye
  else
    match switching said with
    | Some target =>
        hangup Switched ;;;
        act (set_state Choosing) ;;;
        match target with
        | None => speak offer
        | Some name => onChoice name
        end
    | None =>
        if is_one_of MISSED said then
          speak (match en_awaySummary e with
                 | None => js "Nothing since you left."
                 | Some s => js "While you were away, it finished: " ++ s
                 end)
        else if is_one_of REPEAT said then
          speak (match en_lastReply e with [] => js "I haven't said anything yet." | s => s end)
        else if is_one_of STATUS said then
          speak (match undropped e with Some _ => js "Still working on it." | None => js "Nothing is running." end)
        else
          act (set_interruptedAt None) ;;;
          match en_interruptedAt e with
          | None => startTurn text (js "speech")
          | Some heard =>
              startTurn (js "[You were interrupted after saying: " ++ dq ++ heard ++ dq ++ js "] " ++ text)
                (js "interrupted")
          end
    end).

Definition onKey (digit : jstr) : cmd := act (fun e => set_keyFlush true (set_keys (en_keys e ++ digit) e)).
Definition key_flush : cmd :=
  read (fun e =>
    let digits := en_keys e in
    act (fun e => set_keyFlush false (set_keys [] e)) ;;;
    match digits with
    | [] => ret
    | _ => if decide (en_state e = Connected_) then startTurn digits (js "dtmf") else ret
    end).

Definition onInterrupt (heard : jstr) : cmd := read (fun e =>
  match undropped e with
  | None => ret
  | Some (k, t) =>
      act (fun e => set_interruptedAt (Some heard) (upd_turn k set_dropped e)) ;;;
      match tn_taskId t with Some taskId => cancelTask taskId | None => ret end
  end).

Definition onConnectedEvent (event : CallEvent) : cmd :=
  match event with
  | EvSpeech text true => onUtterance text
  | EvKey digit => onKey digit
  | EvInterrupt heard => onInterrupt heard
  | _ => ret
  end.

Definition handle (event : CallEvent) : cmd := read (fun e =>
  match en_state e, event with
  | Idle, EvSetup callSid from to direction => onSetup callSid from to direction
  | Authenticating, EvKey digit => onPinDigit digit
  | Choosing, EvSpeech text true => onChoice text
  | Choosing, EvKey _ => onChoosingKey
  | Connected_, _ => onConnectedEvent event
  | _, _ => ret
  end).

(** ** The call as it runs *)

(** What the socket hands over, in order: frames, then its close. *)
Inductive arrival :=
| Frame (event : CallEvent)
| Closed.

(** The engine, the frame being handled, those waiting behind it, detached
    calls, and the turn streams inside an event. *)
Record running := mkRunning {
  ru_engine : engine;
  ru_main : proc;
  ru_queue : list arrival;
  ru_detached : list proc;
  ru_turns : gmap nat proc }.

Definition new_call (store : St) : running := mkRunning (new_engine store) Done [] [] ∅.

(** A process comes apart into its detached calls and itself. *)
Fixpoint parts (p : proc) : list proc :=
  match p with Done => [] | Await _ => [p] | Fork d q => parts d ++ parts q end.
Fixpoint rest_of (p : proc) : proc :=
  match p with Fork _ q => rest_of q | _ => p end.
Fixpoint detached_of (p : proc) : list proc :=
  match p with Fork d q => parts d ++ detached_of q | _ => [] end.
Definition over (p : proc) : bool := match p with Done => true | _ => false end.

Definition run_main (c : cmd) (now : Z) (queue : list arrival) (r : running) : running :=
  match c (set_now now (ru_engine r)) with
  | (e, p) => mkRunning e (rest_of p) queue (ru_detached r ++ detached_of p) (ru_turns r)
  end.
Definition run_detached (c : cmd) (now : Z) (others : list proc) (r : running) : running :=
  match c (set_now now (ru_engine r)) with
  | (e, p) => mkRunning e (ru_main r) (ru_queue r) (others ++ parts p) (ru_turns r)
  end.
Definition run_turn (k : nat) (c : cmd) (now : Z) (r : running) : running :=
  match c (set_now now (ru_engine r)) with
  | (e, p) =>
      mkRunning e (ru_main r) (ru_queue r) (ru_detached r ++ detached_of p)
        (if over (rest_of p) then delete k (ru_turns r) else <[k := rest_of p]> (ru_turns r))
  end.

Definition on_arrival (a : arrival) : cmd :=
  match a with Frame event => handle event | Closed => hangup Dropped end.

Inductive happening :=
| Arrives (a : arrival)
| Handles (now : Z)
| Resumes (a : answer) (now : Z)
| DetachedResumes (i : nat) (a : answer) (now : Z)
| Streams (k : nat) (s : stream_step) (now : Z)
| StreamResumes (k : nat) (a : answer) (now : Z)
| KeysStop (now : Z)
| ReplayDue (now : Z).

(** One happening, where it can be: frames are handled one after the other,
    a stream's events too, and a timer fires only while it is armed. *)
Definition happen (h : happening) (r : running) : option running :=
  match h with
  | Arrives a => Some (mkRunning (ru_engine r) (ru_main r) (ru_queue r ++ [a]) (ru_detached r) (ru_turns r))
  | Handles now =>
      match ru_main r, ru_queue r with
      | Done, a :: rest => Some (run_main (on_arrival a) now rest r)
      | _, _ => None
      end
  | Resumes a now =>
      match ru_main r with Await k => Some (run_main (k a) now (ru_queue r) r) | _ => None end
  | DetachedResumes i a now =>
      match ru_detached r !! i with
      | Some (Await k) => Some (run_detached (k a) now (delete i (ru_detached r)) r)
      | _ => None
      end
  | Streams k s now =>
      match en_turns (ru_engine r) !! k, ru_turns r !! k with
      | Some t, None => if tn_live t then Some (run_turn k (forward k s) now r) else None
      | _, _ => None
      end
  | StreamResumes k a now =>
      match ru_turns r !! k with Some (Await c) => Some (run_turn k (c a) now r) | _ => None end
  | KeysStop now =>
      if en_keyFlush (ru_engine r) then Some (run_detached key_flush now (ru_detached r) r) else None
  | ReplayDue now =>
      if en_choosingReplay (ru_engine r) then Some (run_detached choosing_replay now (ru_detached r) r) else None
  end.

Fixpoint play (hs : list happening) (r : running) : option running :=
  match hs with
  | [] => Some r
  | h :: rest => r1 ← happen h r; play rest r1
  end.
End Options.
End Engine.

Notation "c1 ;;; c2" := (then_ c1 c2) (at level 100, c2 at level 200, right associativity) : cmd_scope.

(** The lockout [main.ts] gives the engine: the registry's. *)
Definition registry_lockout (policy : LockoutPolicy) : LockoutPort CallRegistry :=
  mkLockoutPort CallRegistry lockedUntil (fun from now => recordFailedCall from now policy).
