(* ===== verification/PhoneFrames.v ===== *)
(** What a call's commands leave alone, whatever they do: a frame is a
    preorder on engines that the primitive updates respect, and every
    command, resumed with any answer in any state, then respects it too. *)

From S2P Require Import Prelude A2A A2AClient SessionId PhoneRegistry PhonePicker PhoneEngine.
#[local] Open Scope nat_scope.
#[local] Open Scope cmd_scope.

(** The states after the PIN, and those a call ends in. *)
Definition past_pin (s : CallState) : Prop := s <> Idle /\ s <> Authenticating.

(** Neither a check of a PIN nor words of a turn. *)
Definition plain (a : action) : Prop :=
  match a with AcVerify _ _ | AcSay (Some _) _ _ => False | _ => True end.

(** A turn that has not heard anything yet. *)
Definition fresh (t : Turn) : Prop :=
  tn_seen t = [] /\ tn_held t = None /\ tn_spoken t = [] /\ tn_dropped t = false /\ tn_live t = true.

Section Tame.
Context {St : Type} (G : engine (St := St) -> engine (St := St) -> Prop).

(** A suspended function every stretch of which respects [G]. *)
Inductive tame : proc (St := St) -> Prop :=
| tame_done : tame Done
| tame_await k : (forall a e, G e (k a e).1) -> (forall a e, tame (k a e).2) -> tame (Await k)
| tame_fork d q : tame d -> tame q -> tame (Fork d q).

Definition always_at (e : engine) (c : cmd) : Prop := G e (c e).1 /\ tame (c e).2.
Definition always (c : cmd) : Prop := forall e, always_at e c.

Lemma at_always e c : always c -> always_at e c.
Proof. auto. Qed.

Context `{!PreOrder G}.

Lemma always_ret : always ret.
Proof. intros e. split; [reflexivity|constructor]. Qed.

Lemma always_act f : (forall e, G e (f e)) -> always (act f).
Proof. intros Hf e. split; [apply Hf|constructor]. Qed.

Lemma always_read c : (forall e, always_at e (c e)) -> always (read c).
Proof. intros Hc e. apply Hc. Qed.

Lemma tame_continue p c : tame p -> always c -> forall e, G e (continue p c e).1 /\ tame (continue p c e).2.
Proof.
  intros Hp Hc. induction Hp as [|k Hg Ht IH|d q Hd _ Hq IHq]; intros e; cbn [continue].
  - apply Hc.
  - split; [reflexivity|]. constructor; intros a e1.
    + specialize (IH a e1). destruct (k a e1) as [e2 p2] eqn:E. cbn in IH.
      transitivity e2; [|apply IH]. specialize (Hg a e1). by rewrite E in Hg.
    + specialize (IH a e1). destruct (k a e1) as [e2 p2] eqn:E. apply IH.
  - specialize (IHq e). destruct (continue q c e) as [e1 q1]. destruct IHq. split; [done|]. by constructor.
Qed.

Lemma always_at_then e c1 c2 : always_at e c1 -> always c2 -> always_at e (c1 ;;; c2).
Proof.
  intros [Hg Ht] Hc. unfold then_, always_at. destruct (c1 e) as [e1 p] eqn:E. cbn in Hg, Ht.
  destruct (tame_continue p c2 Ht Hc e1) as [Hg2 Ht2]. split; [by transitivity e1|done].
Qed.

Lemma always_then c1 c2 : always c1 -> always c2 -> always (c1 ;;; c2).
Proof. intros H1 H2 e. by apply always_at_then. Qed.

(** After an update the rest starts from the updated state. *)
Lemma always_at_act_then e f c : G e (f e) -> always_at (f e) c -> always_at e (act f ;;; c).
Proof. intros Hf [Hg Ht]. split; [by transitivity (f e)|done]. Qed.

Lemma always_at_act e f : G e (f e) -> always_at e (act f).
Proof. intros Hf. split; [done|constructor]. Qed.

Lemma always_at_read e c : always_at e (c e) -> always_at e (read c).
Proof. done. Qed.

Lemma always_at_fork e c : always_at e c -> always_at e (fork c).
Proof.
  unfold always_at, fork. destruct (c e) as [e1 p]. intros [Hg Ht]. split; [done|]. constructor; [done|constructor].
Qed.

Lemma always_at_await e a k : G e (perform a e) -> (forall r, always (k r)) -> always_at e (await a k).
Proof. intros Hp Hk. split; [done|]. constructor; intros r e1; apply Hk. Qed.
End Tame.

(** The updates every frame allows: of the fields it does not look at, of
    the log by a plain action, of turns by dropping one or opening another. *)
Class Frame {St : Type} (G : engine (St := St) -> engine (St := St) -> Prop) := {
  frame_preorder :: PreOrder G;
  frame_quiet e e' : en_log e' = en_log e -> en_turns e' = en_turns e -> en_seq e <= en_seq e' ->
    en_state e' = en_state e \/ past_pin (en_state e') -> G e e';
  frame_perform a e : plain a -> G e (perform a e);
  frame_drop k e : G e (upd_turn k set_dropped e);
  frame_open a t e e' : plain a -> fresh t -> en_seq e' = S (en_seq e) ->
    en_turns e' = <[S (en_seq e) := t]> (en_turns e) -> en_log e' = en_log e ++ [a] ->
    en_state e' = en_state e -> G e e' }.

(** One step towards [always]: the combinators are taken apart, updates the
    frame allows are discharged. *)
Ltac quietly := apply frame_quiet; try solve [reflexivity | cbn; lia]; first [by left | by right].
Ltac allowed :=
  first [quietly | solve [auto with frames]
        | match goal with |- _ ?e (?f (upd_turn ?k set_dropped ?e)) => transitivity (upd_turn k set_dropped e);
            [apply frame_drop|quietly] end].
Ltac framed_step :=
  match goal with
  | |- PreOrder _ => apply _
  | |- always _ _ => intros ?
  | |- forall _, _ => intros ?
  | |- always_at _ _ (let _ := _ in _) => cbv zeta
  | |- always_at _ _ ret => apply always_ret
  | |- always_at _ _ (act _ ;;; _) => apply always_at_act_then; [apply _|try allowed|]
  | |- always_at _ _ (read _ ;;; _) => apply always_at_then
  | |- always_at _ _ (_ ;;; _) => apply always_at_then
  | |- always_at _ _ (act _) => apply always_at_act; try allowed
  | |- always_at _ _ (read _) => apply always_at_read; cbv beta
  | |- always_at _ _ (fork _) => apply always_at_fork
  | |- always_at _ _ (await _ _) => apply always_at_await; [apply frame_perform; exact I|]
  | |- always_at _ _ (match _ with _ => _ end) => case_match
  | |- always_at _ _ _ => solve [apply at_always; auto with frames]
  end.
Ltac framed := repeat framed_step.

Create HintDb frames.
#[local] Hint Extern 1 (plain _) => exact I : frames.

Section Commands.
Context {St : Type} `{!PhoneStatePort St} (options : EngineOptions St).
Context (toLowerCase : jstr -> jstr) (letter_or_number : N -> bool) (sha1 : list N -> list N) (iso : Z -> jstr).
Context (G : engine (St := St) -> engine (St := St) -> Prop) `{!Frame G}.

#[local] Abbreviation always := (always G).

Lemma always_send a : plain a -> always (send a).
Proof. intros Ha e. apply always_at_await; [by apply frame_perform|]. intros _. apply always_ret. apply _. Qed.

Lemma always_alert a : always (alert a).
Proof. by apply always_send. Qed.

Lemma always_speak text : always (speak text).
Proof. unfold speak. framed. by apply always_send. Qed.

Lemma always_type_error : always type_error.
Proof. intros e. apply always_at_act. by apply frame_perform. Qed.

#[local] Hint Resolve always_send always_alert always_speak always_type_error : frames.

Lemma frame_let_go e :
  G e (set_connected None (match en_turn e with Some k => upd_turn k set_dropped e | None => e end)).
Proof. destruct (en_turn e) as [k|]; [|quietly]. etransitivity; [apply (frame_drop k)|quietly]. Qed.

Lemma frame_drop_turn k e : G e (upd_turn k set_dropped e).
Proof. apply frame_drop. Qed.
#[local] Hint Resolve frame_let_go frame_drop_turn : frames.

Lemma always_hangup reason : always (hangup reason).
Proof. unfold hangup. framed. Qed.

Lemma always_cancelTask taskId : always (cancelTask taskId).
Proof. unfold cancelTask. framed. Qed.

Lemma always_warm agent contextId : always (warm iso agent contextId).
Proof. unfold warm. framed. Qed.
#[local] Hint Resolve always_hangup always_cancelTask always_warm : frames.

Lemma always_open_turn text kind : always (open_turn iso text kind).
Proof.
  intros e. unfold open_turn. apply always_at_read. cbv zeta.
  destruct (en_call e), (en_connected e) as [c'|].
  1: apply always_at_act; by eapply frame_open; cycle 2; [reflexivity..|exact I|].
  all: framed.
Qed.
#[local] Hint Resolve always_open_turn : frames.

Lemma always_startTurn text kind : always (startTurn iso text kind).
Proof. unfold startTurn, drop_previous. framed. Qed.
#[local] Hint Resolve always_startTurn : frames.

Lemma always_fetchTask agent taskId k : (forall t, always (k t)) -> always (fetchTask agent taskId k).
Proof. intros Hk. unfold fetchTask. framed. Qed.

Lemma always_taskSince agent previous k : (forall s, always (k s)) -> always (taskSince agent previous k).
Proof. intros Hk. unfold taskSince. case_match; [|apply Hk]. apply always_fetchTask. intros [t|]; apply Hk. Qed.

Lemma always_stream_on agent taskId : always (stream_on agent taskId).
Proof. intros e. apply always_at_act. by eapply frame_open; cycle 2; [reflexivity..|exact I|]. Qed.
#[local] Hint Resolve always_stream_on : frames.

Lemma always_pickUp agent taskId : always (pickUp agent taskId).
Proof. apply always_fetchTask. intros [task|]; framed. Qed.
#[local] Hint Resolve always_pickUp : frames.

Lemma always_connect agent previous : always (connect options sha1 iso agent previous).
Proof. unfold connect. framed. Qed.
#[local] Hint Resolve always_connect : frames.

Lemma always_choose agent : always (choose options sha1 iso agent).
Proof. unfold choose. framed. apply at_always, always_taskSince. framed. Qed.
#[local] Hint Resolve always_choose : frames.

Lemma always_onChoice text : always (onChoice options toLowerCase letter_or_number sha1 iso text).
Proof. unfold onChoice, choose_session, choose_named, name_heard. framed. Qed.
#[local] Hint Resolve always_onChoice : frames.
Lemma always_choosing_replay : always (choosing_replay options).
Proof. unfold choosing_replay. framed. Qed.

Lemma always_onUtterance text : always (onUtterance options toLowerCase letter_or_number sha1 iso text).
Proof. unfold onUtterance. framed. Qed.

Lemma always_onInterrupt heard : always (onInterrupt heard).
Proof. unfold onInterrupt. framed. Qed.

Lemma always_key_flush : always (key_flush iso).
Proof. unfold key_flush. framed. Qed.
#[local] Hint Resolve always_choosing_replay always_onUtterance always_onInterrupt always_key_flush : frames.

(** Past the PIN a frame is respected whatever arrives. *)
Lemma always_handle_past_pin event e : past_pin (en_state e) ->
  always_at G e (handle options toLowerCase letter_or_number sha1 iso event).
Proof.
  intros [Hi Ha]. unfold handle, onConnectedEvent, onKey, onChoosingKey. framed; done.
Qed.

(** Before it, by a frame the PIN's own updates respect. *)
Lemma always_handle event :
  (forall e, G e (set_state Authenticating e)) -> (forall d ok e, G e (perform (AcVerify d ok) e)) ->
  always (handle options toLowerCase letter_or_number sha1 iso event).
Proof.
  intros Hs Hv.
  unfold handle, onConnectedEvent, onKey, onChoosingKey, onSetup, onPinDigit, onPinEntered, record_failure. framed.
  all: match goal with |- _ _ (perform _ ?y) => transitivity y; [quietly|] end; apply Hv || by apply frame_perform.
Qed.

(** A turn's stream, by a frame that lets the turn change and speak. *)
Lemma frame_finish k e : (forall f e, G e (upd_turn k f e)) ->
  G e ((finish_turn k e).1).
Proof.
  intros Hf. unfold finish_turn, act. cbn [fst]. set (e1 := if decide _ then _ else _).
  assert (G e e1) as H1 by (unfold e1; case_decide; quietly).
  assert (en_turns e1 = en_turns e) as Ht by (unfold e1; by case_decide).
  destruct (en_turns e !! k) as [t|]; [|done]. transitivity e1; [done|].
  case_match; [apply Hf|]. transitivity (upd_turn k set_over e1); [apply Hf|quietly].
Qed.

Lemma always_reply_is_spoken k : always (reply_is_spoken k).
Proof. unfold reply_is_spoken. framed. repeat case_match; quietly. Qed.
#[local] Hint Resolve always_reply_is_spoken : frames.

Lemma always_forward k s :
  (forall f e, G e (upd_turn k f e)) -> (forall t last e, G e (perform (AcSay (Some k) t last) e)) ->
  always (forward k s).
Proof.
  intros Hf Hs.
  assert (always (finish_turn k)) by (intros e; split; [by apply frame_finish|constructor]).
  assert (forall t last, always (send (AcSay (Some k) t last))).
  { intros t last e. apply always_at_await; [apply Hs|]. intros _. apply always_ret, _. }
  unfold forward, onTurnEvent, after_token. framed.
Qed.
End Commands.

(** ** The whole call *)

Section Running.
Context {St : Type} `{!PhoneStatePort St} (options : EngineOptions St).
Context (toLowerCase : jstr -> jstr) (letter_or_number : N -> bool) (sha1 : list N -> list N) (iso : Z -> jstr).
Context (G : engine (St := St) -> engine (St := St) -> Prop) `{!Frame G}.

#[local] Abbreviation happen := (happen options toLowerCase letter_or_number sha1 iso).

(** Every suspended function is tame, the streams of other turns aside. *)
Definition tame_running (mine : nat -> Prop) (r : running (St := St)) : Prop :=
  tame G (ru_main r) /\ Forall (tame G) (ru_detached r) /\
  (forall k p, mine k -> ru_turns r !! k = Some p -> tame G p).

Lemma tame_rest p : tame G p -> tame G (rest_of p).
Proof. induction 1; cbn; [constructor|by constructor|done]. Qed.

Lemma tame_parts p : tame G p -> Forall (tame G) (parts p).
Proof. induction 1; cbn; [constructor|repeat constructor; done|by apply Forall_app]. Qed.

Lemma tame_detached p : tame G p -> Forall (tame G) (detached_of p).
Proof. induction 1; cbn; [constructor..|apply Forall_app; split; [by apply tame_parts|done]]. Qed.

Lemma frame_now now e : G e (set_now now e).
Proof. quietly. Qed.

Lemma tame_run_main c now queue r mine : tame_running mine r -> always_at G (set_now now (ru_engine r)) c ->
  G (ru_engine r) (ru_engine (run_main c now queue r)) /\ tame_running mine (run_main c now queue r).
Proof.
  intros (_ & Hd & Ht) [Hg Hp]. unfold run_main. destruct (c _) as [e p]. cbn in Hg, Hp |- *. split.
  - etransitivity; [apply (frame_now now)|done].
  - split_and!; [by apply tame_rest| |done]. apply Forall_app; split; [done|by apply tame_detached].
Qed.

Lemma tame_run_detached c now others r mine : tame_running mine r -> Forall (tame G) others ->
  always_at G (set_now now (ru_engine r)) c ->
  G (ru_engine r) (ru_engine (run_detached c now others r)) /\ tame_running mine (run_detached c now others r).
Proof.
  intros (Hm & _ & Ht) Ho [Hg Hp]. unfold run_detached. destruct (c _) as [e p]. cbn in Hg, Hp |- *. split.
  - etransitivity; [apply (frame_now now)|done].
  - split_and!; [done| |done]. apply Forall_app; split; [done|by apply tame_parts].
Qed.

Lemma tame_run_turn k c now r mine : tame_running mine r -> always_at G (set_now now (ru_engine r)) c ->
  G (ru_engine r) (ru_engine (run_turn k c now r)) /\ tame_running mine (run_turn k c now r).
Proof.
  intros (Hm & Hd & Ht) [Hg Hp]. unfold run_turn. destruct (c _) as [e p]. cbn [fst snd ru_engine ru_main ru_detached ru_turns] in *. split.
  - etransitivity; [apply (frame_now now)|done].
  - split_and!; [done|apply Forall_app; split; [done|by apply tame_detached]|].
    intros j q Hj. destruct (over (rest_of p)); cbn [ru_turns]; [rewrite lookup_delete_Some|rewrite lookup_insert_Some].
    + intros [_ Hq]. by eapply Ht.
    + intros [[_ <-]|[_ Hq]]; [by apply tame_rest|by eapply Ht].
Qed.

Lemma tame_answer k a e : tame G (Await k) -> always_at G e (k a).
Proof. inversion 1; subst. by split. Qed.

(** The turn a happening is about. *)
Definition turn_of (h : happening) : option nat :=
  match h with Streams k _ _ | StreamResumes k _ _ => Some k | _ => None end.

Lemma tame_happen h r r' mine :
  (forall now a, always_at G (set_now now (ru_engine r)) (on_arrival options toLowerCase letter_or_number sha1 iso a)) ->
  (forall k s, mine k -> always G (forward k s)) -> (forall k, turn_of h = Some k -> mine k) ->
  tame_running mine r -> happen h r = Some r' -> G (ru_engine r) (ru_engine r') /\ tame_running mine r'.
Proof.
  intros Ha Hf Hk Hr. pose proof Hr as (Hm & Hd & Ht). destruct h; cbn [happen turn_of] in *.
  - intros [= <-]. split; [reflexivity|done].
  - repeat case_match; try done. intros [= <-]. by apply tame_run_main.
  - case_match; try done. intros [= <-]. apply tame_run_main; [done|]. by apply tame_answer.
  - destruct (ru_detached r !! i) as [[]|] eqn:Hi; try done. intros [= <-].
    apply tame_run_detached; [done|by apply Forall_delete|]. apply tame_answer.
    rewrite Forall_lookup in Hd. by eapply Hd.
  - repeat case_match; try done. intros [= <-]. apply tame_run_turn; [done|]. by apply Hf, Hk.
  - destruct (ru_turns r !! k) as [[]|] eqn:Hq; try done. intros [= <-].
    apply tame_run_turn; [done|]. apply tame_answer. eapply Ht; [by apply Hk|done].
  - case_match; try done. intros [= <-]. apply tame_run_detached; [done..|]. by apply always_key_flush.
  - case_match; try done. intros [= <-]. apply tame_run_detached; [done..|]. by apply always_choosing_replay.
Qed.
End Running.
