(* ===== verification/PhoneTriples.v ===== *)
(** Reasoning about one of a call's functions while others run: what it
    leads to from a state, given an invariant that holds whenever it waits
    and a relation that bounds what may happen meanwhile. *)

From S2P Require Import Prelude A2A A2AClient SessionId PhoneRegistry PhonePicker PhoneEngine PhoneFrames.
#[local] Open Scope nat_scope.
#[local] Open Scope cmd_scope.

Section Triples.
Context {St : Type}.
Context (I : engine (St := St) -> Prop) (Rely : engine (St := St) -> engine (St := St) -> Prop).
Context (forked : proc (St := St) -> Prop).

Inductive runs (Q : engine -> Prop) : engine -> proc -> Prop :=
| runs_done e : Q e -> runs Q e Done
| runs_await e k : I e -> (forall a e', Rely e e' -> runs Q (k a e').1 (k a e').2) -> runs Q e (Await k)
| runs_fork e d q : forked d -> runs Q e q -> runs Q e (Fork d q).

Definition does (e : engine) (c : cmd) (Q : engine -> Prop) : Prop := runs Q (c e).1 (c e).2.

Lemma does_ret e (Q : engine -> Prop) : Q e -> does e ret Q.
Proof. by constructor. Qed.

Lemma does_act e f (Q : engine -> Prop) : Q (f e) -> does e (act f) Q.
Proof. by constructor. Qed.

Lemma does_read e c Q : does e (c e) Q -> does e (read c) Q.
Proof. done. Qed.

Lemma runs_continue (Q1 Q2 : engine -> Prop) e p c : runs Q1 e p -> (forall e1, Q1 e1 -> does e1 c Q2) ->
  runs Q2 (continue p c e).1 (continue p c e).2.
Proof.
  intros Hp Hc. induction Hp as [e He|e k Hi _ IH|e d q Hd _ IH]; cbn [continue].
  - by apply Hc.
  - constructor; [done|]. intros a e' He'. specialize (IH a e' He'). by destruct (k a e') as [e2 p2].
  - destruct (continue q c e) as [e1 q1]. by constructor.
Qed.

Lemma does_then e c1 c2 (Q1 Q2 : engine -> Prop) :
  does e c1 Q1 -> (forall e1, Q1 e1 -> does e1 c2 Q2) -> does e (c1 ;;; c2) Q2.
Proof. unfold does, then_. destruct (c1 e) as [e1 p]. intros H1 H2. by eapply runs_continue. Qed.

Lemma does_act_then e f c Q : does (f e) c Q -> does e (act f ;;; c) Q.
Proof. done. Qed.

Lemma does_await e a k Q : I (perform a e) -> (forall r e', Rely (perform a e) e' -> does e' (k r) Q) ->
  does e (await a k) Q.
Proof. intros Hi Hk. by constructor. Qed.

Lemma does_send e a (Q : engine -> Prop) :
  I (perform a e) -> (forall e', Rely (perform a e) e' -> Q e') -> does e (send a) Q.
Proof. intros Hi Hk. apply does_await; [done|]. intros _ e' He'. by apply does_ret, Hk. Qed.

(** An await in front: the rest goes on from what it may find. *)
Lemma does_send_then e a c Q : I (perform a e) -> (forall e', Rely (perform a e) e' -> does e' c Q) ->
  does e (send a ;;; c) Q.
Proof. intros Hi Hk. eapply does_then; [by apply does_send|]. done. Qed.

Lemma does_speak_then e text c Q : I (perform (AcSay None text true) (set_lastReply text e)) ->
  (forall e', Rely (perform (AcSay None text true) (set_lastReply text e)) e' -> does e' c Q) ->
  does e (speak text ;;; c) Q.
Proof. intros Hi Hk. eapply does_then; [by apply does_act_then, does_send|]. done. Qed.

Lemma does_fork_then e c c2 Q : forked (c e).2 -> does (c e).1 c2 Q -> does e (fork c ;;; c2) Q.
Proof.
  intros Hd H2. unfold does, then_, fork. destruct (c e) as [e1 p]. cbn [continue fst snd] in *.
  destruct (c2 e1) as [e2 q] eqn:E. constructor; [done|]. unfold does in H2. by rewrite E in H2.
Qed.

Lemma does_weaken e c (Q Q' : engine -> Prop) : does e c Q -> (forall e', Q e' -> Q' e') -> does e c Q'.
Proof. unfold does. intros H HQ. induction H; constructor; auto. Qed.

(** Where it waits or ends, the invariant holds. *)
Lemma runs_invariant Q e p : (forall e', Q e' -> I e') -> runs Q e p -> I e.
Proof. intros HQ. induction 1; auto. Qed.
End Triples.
