(* ===== verification/PhoneDemo.v ===== *)
(** A bridge with two agents, one operator and the registry behind it, on
    which the phone's theorems are tried out. *)

From S2P Require Import Prelude A2A A2AClient SessionId PhoneRegistry PhonePicker PhoneEngine.
#[local] Open Scope nat_scope.

Definition hearth : PhoneAgent := mkPhoneAgent (js "hearth") (js "Hearth") [] 3600.
Definition forge : PhoneAgent := mkPhoneAgent (js "forge") (js "Forge") [] 3600.
Definition the_operator : jstr := js "+15550100".
Definition the_pin : jstr := js "24681357".

Definition three_strikes : LockoutPolicy := mkPolicy 3 3600 600.

Definition demo_options : EngineOptions CallRegistry :=
  mkEngineOptions CallRegistry [hearth; forge] (jeqb the_pin) (jeqb the_operator)
    (Some (registry_lockout three_strikes)) 2 false.

(** ASCII's lower case and letters; the rest stands in for the platform. *)
Definition ascii_lower (s : jstr) : jstr := (fun c => if ((65 <=? c) && (c <=? 90))%N then (c + 32)%N else c) <$> s.
Definition ascii_alnum (c : N) : bool :=
  (((97 <=? c) && (c <=? 122)) || ((65 <=? c) && (c <=? 90)) || ((48 <=? c) && (c <=? 57)))%N.
Definition no_sha1 (bytes : list N) : list N := repeat 0%N 20.
Definition as_number (t : Z) : jstr := show_Z t.

Abbreviation demo_play := (play demo_options ascii_lower ascii_alnum no_sha1 as_number).
Abbreviation demo_happen := (happen demo_options ascii_lower ascii_alnum no_sha1 as_number).
Abbreviation demo_run hs := (demo_play hs (new_call new_registry)).
Abbreviation demo_none := (new_call new_registry).

(** A frame, handled at [now], with [n] awaits answered at once. *)
Definition frame (now : Z) (n : nat) (event : CallEvent) : list happening :=
  Arrives (Frame event) :: Handles now :: repeat (Resumes AnsDone now) n.

Definition keyed (now : Z) (n : nat) (digits : jstr) : list happening :=
  concat ((fun d => frame now 0 (EvKey [d])) <$> removelast digits) ++ frame now n (EvKey [List.last digits 0%N]).

Definition says_ (now : Z) (n : nat) (text : jstr) : list happening := frame now n (EvSpeech text true).

Definition rings : list happening := frame 0 0 (EvSetup (js "CA1") the_operator (js "+15550199") (js "inbound")).
Definition reaches_hearth : list happening := rings ++ keyed 1 1 the_pin ++ says_ 2 2 (js "Hearth, please.").
Definition asks_hearth : list happening := reaches_hearth ++ says_ 3 0 (js "What is on today?").

(** The call after a run that goes through. *)
Definition call_after (hs : list happening) : running := default demo_none (demo_run hs).

Lemma call_after_run hs : present (demo_run hs) = true -> demo_run hs = Some (call_after hs).
Proof. apply some_default. Qed.

(** What agents were sent, and by which. *)
Definition sent_texts (l : list action) : list (jstr * jstr) :=
  omap (fun a => match a with AcStream agent m => Some (agent, artifactText (m_parts m)) | _ => None end) l.
Definition spoken_texts (l : list action) : list jstr :=
  omap (fun a => match a with AcSay _ text _ => Some text | _ => None end) l.
Definition cancelled (l : list action) : list jstr :=
  omap (fun a => match a with AcCancel _ taskId => Some taskId | _ => None end) l.

Definition task_of (id : jstr) (state : TaskState) (text : jstr) : Task :=
  mkATask id (js "ctx") (Some (state, Some [textPart text])) [].
