(* ===== verification/PhonePin.v ===== *)
(** What a call does before its PIN: nothing is said until one is checked,
    no agent is reached until one is right, and the wrong ones are counted. *)

From S2P Require Import Prelude A2A A2AClient SessionId PhoneRegistry PhonePicker PhoneEngine PhoneFrames PhoneTriples PhoneDemo.
#[local] Open Scope nat_scope.
#[local] Open Scope cmd_scope.

Definition is_check (verdict : bool) (a : action) : bool :=
  match a with AcVerify _ ok => bool_decide (ok = verdict) | _ => false end.
Definition is_say (a : action) : bool := match a with AcSay _ _ _ => true | _ => false end.
(** What reaches an agent. *)
Definition reaches_agent (a : action) : bool :=
  match a with
  | AcGetTask _ _ | AcStream _ _ | AcResubscribe _ _ | AcWarm _ _ | AcCancel _ _ => true
  | _ => false
  end.

Definition checks (verdict : bool) (l : list action) : nat := length (filter (fun a => is_check verdict a = true) l).

(** Nothing is said before the first check. *)
Definition silent_until_check (l : list action) : Prop :=
  forall l1 a l2, l = l1 ++ a :: l2 -> is_say a = true -> exists d ok, AcVerify d ok ∈ l1.

(** What may be logged before the right PIN, and after it. *)
Definition before_pin (a : action) : Prop := reaches_agent a = false /\ is_check true a = false.
Definition no_check (a : action) : Prop := is_check true a = false /\ is_check false a = false.

Lemma checks_app b l k : checks b (l ++ k) = checks b l + checks b k.
Proof. unfold checks. by rewrite filter_app, length_app. Qed.

Lemma checks_none b l : Forall (fun a => is_check b a = false) l -> checks b l = 0.
Proof.
  unfold checks. induction 1 as [|a l Ha _ IH]; [done|]. rewrite filter_cons, decide_False; [done|]. by rewrite Ha.
Qed.

Lemma silent_nil : silent_until_check [].
Proof. intros l1 a l2 H. by destruct l1. Qed.

Lemma silent_snoc l a : silent_until_check l -> (is_say a = true -> exists d ok, AcVerify d ok ∈ l) ->
  silent_until_check (l ++ [a]).
Proof.
  intros Hl Ha l1 b l2 Heq Hb. destruct l2 as [|c l2 _] using rev_ind.
  - apply app_inj_tail in Heq as [-> ->]. by apply Ha.
  - rewrite app_comm_cons, app_assoc in Heq. apply app_inj_tail in Heq as [-> _]. by eapply Hl.
Qed.

Lemma silent_app l k : silent_until_check l -> (exists d ok, AcVerify d ok ∈ l) -> silent_until_check (l ++ k).
Proof.
  intros Hl Hc. induction k as [|a k IH] using rev_ind; [by rewrite app_nil_r|].
  rewrite app_assoc. apply silent_snoc; [done|]. intros _. destruct Hc as (d & ok & Hd).
  exists d, ok. apply elem_of_app. by left.
Qed.

(** ** Past the PIN *)

Section Pin.
Context {St : Type} `{!PhoneStatePort St}.

(** The log only grows, by no more checks, and the state does not go back. *)
Definition PinFrame (e e' : engine (St := St)) : Prop :=
  (exists l, en_log e' = en_log e ++ l /\ Forall no_check l) /\ (past_pin (en_state e) -> past_pin (en_state e')).

#[export] Instance PinFrame_preorder : PreOrder PinFrame.
Proof.
  split.
  - intros e. split; [|done]. exists []. split; [by rewrite app_nil_r|constructor].
  - intros e1 e2 e3 [(l1 & H1 & N1) S1] [(l2 & H2 & N2) S2]. split; [|auto].
    exists (l1 ++ l2). rewrite H2, H1, app_assoc. split; [done|]. by apply Forall_app.
Qed.

Lemma PinFrame_log e e' l : en_log e' = en_log e ++ l -> Forall no_check l -> en_state e' = en_state e -> PinFrame e e'.
Proof. intros Hl Hn Hs. split; [by exists l|by rewrite Hs]. Qed.

Lemma PinFrame_same e e' : en_log e' = en_log e -> en_state e' = en_state e -> PinFrame e e'.
Proof. intros Hl Hs. apply (PinFrame_log e e' []); [by rewrite app_nil_r|constructor|done]. Qed.

Lemma plain_no_check a : plain a -> no_check a.
Proof. by destruct a. Qed.

#[export] Instance PinFrame_frame : Frame PinFrame.
Proof.
  split; try apply _.
  - intros e e' Hl _ _ [Hs|Hs]; [by apply PinFrame_same|]. split; [|done].
    exists []. rewrite app_nil_r. split; [done|constructor].
  - intros a e Ha. eapply PinFrame_log; [done|repeat constructor; by apply plain_no_check|done].
  - intros k e. by apply PinFrame_same.
  - intros a t e e' Ha _ _ _ Hl Hs. eapply PinFrame_log; [done|repeat constructor; by apply plain_no_check|done].
Qed.

Lemma PinFrame_forward k s : always PinFrame (forward k s).
Proof.
  apply always_forward; [apply _|..].
  - intros f e. by apply PinFrame_same.
  - intros t last e. eapply PinFrame_log; [done|repeat constructor|done].
Qed.
End Pin.

(** ** Before the PIN *)

Section Waiting.
Context {St : Type} `{!PhoneStatePort St} (options : EngineOptions St).
Context (toLowerCase : jstr -> jstr) (letter_or_number : N -> bool) (sha1 : list N -> list N) (iso : Z -> jstr).

#[local] Abbreviation handle := (handle options toLowerCase letter_or_number sha1 iso).
#[local] Abbreviation happen := (happen options toLowerCase letter_or_number sha1 iso).
#[local] Abbreviation play := (play options toLowerCase letter_or_number sha1 iso).

(** The attempts a call has: a limit of none still lets one be made. *)
Definition attempts : nat := Nat.max 1 (eo_maxPinAttempts options).

Record waiting (e : engine (St := St)) : Prop := mkWaiting {
  wa_state : en_state e = Idle \/ en_state e = Authenticating \/ en_state e = Ending;
  wa_call : en_state e = Authenticating -> present (en_call e) = true;
  wa_connected : en_connected e = None;
  wa_turns : en_turns e = ∅;
  wa_turn : en_turn e = None;
  wa_keyFlush : en_keyFlush e = false;
  wa_replay : en_choosingReplay e = false;
  wa_log : Forall before_pin (en_log e);
  wa_silent : silent_until_check (en_log e);
  wa_checks : checks false (en_log e) = en_pinAttempts e;
  wa_attempts : en_pinAttempts e <= attempts }.

(** Once the attempts are used up the call is ended, and counted. *)
Definition settled (e : engine (St := St)) : Prop :=
  en_pinAttempts e = attempts ->
  en_state e = Ending /\ AcEnd (js "auth-failed") ∈ en_log e /\
  (present (eo_lockout options) = true -> exists from, AcFailedCall from ∈ en_log e).

Definition waits (e : engine (St := St)) : Prop := waiting e /\ settled e.

(** Nothing else runs before the PIN. *)
Definition alone (e e' : engine (St := St)) : Prop := exists now, e' = set_now now e.
Definition nothing (p : proc (St := St)) : Prop := False.

#[local] Abbreviation does := (does waiting alone nothing).

(** Nothing [waiting] or [settled] speaks of has changed. *)
Definition same_wait (e e' : engine (St := St)) : Prop :=
  en_state e' = en_state e /\ en_call e' = en_call e /\ en_connected e' = en_connected e /\
  en_turns e' = en_turns e /\ en_turn e' = en_turn e /\ en_keyFlush e' = en_keyFlush e /\
  en_choosingReplay e' = en_choosingReplay e /\ en_log e' = en_log e /\ en_pinAttempts e' = en_pinAttempts e.

Lemma waiting_same e e' : same_wait e e' -> waiting e -> waiting e'.
Proof.
  intros (Hs & Hc & Hco & Hts & Ht & Hk & Hr & Hl & Hp) []. constructor; by rewrite ?Hs, ?Hc, ?Hco, ?Hts, ?Ht, ?Hk, ?Hr, ?Hl, ?Hp.
Qed.

Lemma settled_kept e e' : same_wait e e' -> settled e -> settled e'.
Proof. intros (Hs & _ & _ & _ & _ & _ & _ & Hl & Hp). unfold settled. by rewrite Hs, Hl, Hp. Qed.

Lemma waiting_perform a e : waiting e -> before_pin a -> is_check false a = false ->
  (is_say a = true -> exists d ok, AcVerify d ok ∈ en_log e) -> waiting (perform a e).
Proof.
  intros [] Ha Hf Hs. constructor; try done; cbn [en_log perform set_log].
  - apply Forall_app. split; [done|by apply Forall_singleton].
  - by apply silent_snoc.
  - rewrite checks_app, (checks_none false [a]), Nat.add_0_r; [done|by apply Forall_singleton].
Qed.

Lemma waiting_state s e : waiting e -> s = Ending \/ s = Authenticating /\ present (en_call e) = true ->
  waiting (set_state s e).
Proof.
  intros [] Hs. constructor; try done; cbn [en_state set_state en_call].
  - destruct Hs as [->|[-> _]]; auto.
  - by destruct Hs as [->|[-> ?]].
Qed.

(** A wrong PIN, checked and counted. *)
Lemma waiting_wrong d e : waiting e -> en_pinAttempts e < attempts ->
  waiting (set_pinAttempts (S (en_pinAttempts e)) (perform (AcVerify d false) (set_pin [] e))).
Proof.
  intros [] Ha. constructor; try done; cbn [en_log en_pinAttempts set_pinAttempts perform set_log set_pin].
  - apply Forall_app. split; [done|]. repeat constructor.
  - by apply silent_snoc.
  - rewrite checks_app, wa_checks0. replace (checks false [AcVerify d false]) with 1 by reflexivity. lia.
Qed.

(** A PIN has been checked. *)
Definition checked (e : engine (St := St)) : Prop := exists d ok, AcVerify d ok ∈ en_log e.

(** Later in the same function: what has not changed, and that the log has
    only grown. *)
Record later (e e' : engine (St := St)) : Prop := mkLater {
  la_waiting : waiting e';
  la_state : en_state e' = en_state e;
  la_call : en_call e' = en_call e;
  la_attempts : en_pinAttempts e' = en_pinAttempts e;
  la_log : forall a, a ∈ en_log e -> a ∈ en_log e' }.

Lemma later_checked e e' : later e e' -> checked e -> checked e'.
Proof. intros [] (d & ok & Hd). exists d, ok. auto. Qed.

Lemma later_perform a text e now : waiting e -> before_pin a -> is_check false a = false ->
  (is_say a = true -> checked e) -> later e (set_now now (perform a (set_lastReply text e))).
Proof.
  intros He Ha Hf Hs. constructor; try done.
  - eapply (waiting_same (perform a (set_lastReply text e))); [done|]. apply waiting_perform; try done.
    by eapply waiting_same; [|exact He].
  - intros b Hb. apply elem_of_app. by left.
Qed.

Lemma does_alert_then e a c Q : waiting e -> (forall e', later e e' -> does e' c Q) -> does e (alert a ;;; c) Q.
Proof.
  intros He Hc. apply does_send_then; [by apply waiting_perform|].
  intros e' [now ->]. apply Hc. by apply (later_perform (AcAlert a) (en_lastReply e) e now).
Qed.

Lemma does_alert e a (Q : engine -> Prop) : waiting e -> (forall e', later e e' -> Q e') -> does e (alert a) Q.
Proof.
  intros He Hc. apply does_send; [by apply waiting_perform|].
  intros e' [now ->]. apply Hc. by apply (later_perform (AcAlert a) (en_lastReply e) e now).
Qed.

Lemma does_say_then e text c Q : waiting e -> checked e -> (forall e', later e e' -> does e' c Q) ->
  does e (speak text ;;; c) Q.
Proof.
  intros He Hv Hc. apply does_speak_then.
  - eapply (waiting_same (set_now (en_now e) _)); [|by apply (later_perform (AcSay None text true) text e (en_now e))]. done.
  - intros e' [now ->]. apply Hc. by apply later_perform.
Qed.

Lemma does_say e text (Q : engine -> Prop) : waiting e -> checked e -> (forall e', later e e' -> Q e') ->
  does e (speak text) Q.
Proof.
  intros He Hv HQ. apply does_act_then, does_send.
  - eapply (waiting_same (set_now (en_now e) _)); [|by apply (later_perform (AcSay None text true) text e (en_now e))]. done.
  - intros e' [now ->]. apply HQ. by apply later_perform.
Qed.

(** The call's last word to the caller's end of the line. *)
Lemma does_end e reason (Q : engine -> Prop) : waiting e ->
  (forall e', later e e' -> AcEnd (js reason) ∈ en_log e' -> Q e') -> does e (send (AcEnd (js reason))) Q.
Proof.
  intros He HQ. apply does_send; [by apply waiting_perform|]. intros e' [now ->]. apply HQ.
  - by apply (later_perform (AcEnd (js reason)) (en_lastReply e) e now).
  - apply elem_of_app. right. by constructor.
Qed.

(** Before the attempts are used up [settled] says nothing. *)
Lemma waits_more e : waiting e -> en_pinAttempts e < attempts -> waits e.
Proof. intros He Ha. split; [done|]. intros Heq. lia. Qed.

(** The failed call is counted, if anyone counts. *)
Lemma does_record_failure e from k Q : waiting e ->
  (forall until e', later e e' -> (present (eo_lockout options) = true -> AcFailedCall from ∈ en_log e') ->
     does e' (k until) Q) ->
  does e (record_failure options from k) Q.
Proof.
  intros He Hk. unfold record_failure. apply does_read. destruct (eo_lockout options) as [l|].
  - destruct (lk_failedCall l from (en_now e) (en_store e)) as [until store].
    apply does_act_then, Hk; [constructor; try done|].
    + apply waiting_perform; [by eapply waiting_same; [|exact He]|done..].
    + intros a Ha. apply elem_of_app. by left.
    + intros _. apply elem_of_app. right. by constructor.
  - by apply Hk.
Qed.

Lemma later_refl e : waiting e -> later e e.
Proof. by constructor. Qed.

Lemma later_trans e1 e2 e3 : later e1 e2 -> later e2 e3 -> later e1 e3.
Proof. intros [] []. constructor; [done|congruence..|auto]. Qed.

(** A right PIN has been entered, after fewer wrong ones than allowed. *)
Definition verified (e : engine (St := St)) : Prop :=
  exists l1 d l2, en_log e = l1 ++ AcVerify d true :: l2 /\ eo_verifyPin options d = true /\
    Forall before_pin l1 /\ silent_until_check l1 /\ checks false l1 < attempts /\
    Forall no_check l2 /\ past_pin (en_state e).

Lemma verified_frame e e' : verified e -> PinFrame e e' -> verified e'.
Proof.
  intros (l1 & d & l2 & Hl & Hd & Hb & Hq & Hc & Hn & Hp) [(l & Hl' & Hn') Hs].
  exists l1, d, (l2 ++ l). rewrite Hl', Hl, <- app_assoc. split_and!; try done; [by apply Forall_app|auto].
Qed.

(** The attempts used up, the caller is told and the call ends. *)
Lemma does_goodbye e from c : waiting e -> checked e -> en_state e = Ending ->
  (present (eo_lockout options) = true -> AcFailedCall from ∈ en_log e) ->
  (forall Q, (forall e', later e e' -> Q e') -> does e c Q) ->
  does e (c ;;; speak (js "That's not it. Goodbye.") ;;; send (AcEnd (js "auth-failed"))) waits.
Proof.
  intros He Hch Hs Hf Hc. eapply does_then; [by apply (Hc (later e))|]. intros e1 H1.
  apply does_say_then; [apply H1|by eapply later_checked|]. intros e2 H2.
  apply does_end; [apply H2|]. intros e3 H3 Hend. pose proof (later_trans _ _ _ (later_trans _ _ _ H1 H2) H3) as H.
  split; [apply H|]. intros _. split_and!; [by rewrite (la_state _ _ H)|done|].
  intros Hl. exists from. by apply H, Hf.
Qed.

(** A wrong PIN is said to be wrong, and the last one ends the call. *)
Lemma wrong_pin call e : waits e -> en_pinAttempts e < attempts -> en_call e = Some call ->
  eo_verifyPin options (en_pin e) = false -> does e (onPinEntered options) waits.
Proof.
  intros [He _] Ha Hc Hv. unfold onPinEntered. apply does_read. rewrite Hc, Hv.
  apply does_act_then, does_act_then, does_read.
  set (e1 := set_pinAttempts _ _). assert (waiting e1) as H1 by exact (waiting_wrong (en_pin e) e He Ha).
  assert (checked e1) as Hs.
  { exists (en_pin e), false. apply elem_of_app. right. by constructor. }
  clearbody e1. apply does_alert_then; [done|]. intros e2 H2.
  destruct (Nat.leb_spec (eo_maxPinAttempts options) (en_pinAttempts e1)) as [Hf|Hf].
  - apply does_act_then, does_record_failure; [apply waiting_state; [apply H2|by left]|].
    intros locked e3 H3 Hfc. apply (does_goodbye e3 (ca_from call)); [apply H3| |by rewrite (la_state _ _ H3)|done|].
    + exact (later_checked _ _ H3 (later_checked _ _ H2 Hs)).
    + intros Q HQ. destruct locked; [apply does_alert; [apply H3|done]|]. by apply does_ret, HQ, later_refl, H3.
  - apply does_say; [apply H2|by eapply later_checked|]. intros e3 H3.
    apply waits_more; [apply H3|]. rewrite (la_attempts _ _ H3), (la_attempts _ _ H2). unfold attempts. lia.
Qed.
(** ** The call *)

(** A function started before the PIN waits on there, or has seen it. *)
Definition gated (e : engine (St := St)) (p : proc) : Prop :=
  runs waiting alone nothing waits e p \/ verified e /\ tame PinFrame p.

Lemma waits_same e e' : same_wait e e' -> waits e -> waits e'.
Proof. intros Hs [He Hd]. split; [by eapply waiting_same|by eapply settled_kept]. Qed.

Lemma right_pin e : waits e -> present (en_call e) = true -> eo_verifyPin options (en_pin e) = true ->
  en_pinAttempts e < attempts -> verified (onPinEntered options e).1 /\ tame PinFrame (onPinEntered options e).2.
Proof.
  intros [He _] Hc Hv Ha. unfold onPinEntered, read. destruct (en_call e) as [call|]; [|done]. rewrite Hv.
  unfold then_ at 1, act at 1. cbn [continue].
  set (e1 := perform _ _).
  assert (always_at PinFrame (set_state Choosing (set_pinAttempts 0 e1)) (speak (js "Hi, it's Aiva. " ++ offer options)))
    as [Hf Ht] by (apply at_always, always_speak, _).
  split; [|done]. eapply verified_frame; [|exact Hf]. exists (en_log e), (en_pin e), [].
  split_and!; try done; try apply He. by rewrite (wa_checks _ He).
Qed.

Lemma gated_digit digit e : waits e -> en_state e = Authenticating ->
  gated (onPinDigit options digit e).1 (onPinDigit options digit e).2.
Proof.
  intros He Hs.
  assert (en_pinAttempts e < attempts) as Ha.
  { destruct He as [He Hd]. pose proof (wa_attempts _ He).
    destruct (decide (en_pinAttempts e = attempts)) as [Heq|]; [|lia]. apply Hd in Heq as [He' _]. congruence. }
  assert (forall e', same_wait e e' ->
    gated (onPinEntered options e').1 (onPinEntered options e').2) as Hin.
  { intros e' Hsame. pose proof Hsame as (Hs' & Hc' & _ & _ & _ & _ & _ & _ & Hp').
    assert (waits e') as He' by by apply (waits_same e).
    pose proof (wa_call _ (proj1 He') (eq_trans Hs' Hs)) as Hc.
    destruct (eo_verifyPin options (en_pin e')) eqn:Hv.
    - right. apply right_pin; try done. by rewrite Hp'.
    - left. destruct (en_call e') as [call|] eqn:Hcall; [|done]. apply (wrong_pin call); try done. by rewrite Hp'. }
  unfold onPinDigit. case_match.
  - unfold read. destruct (en_pin e); [left; by apply does_ret|]. by apply Hin.
  - unfold then_, act, read. cbn [continue]. case_match; [left; apply does_ret|by apply Hin].
    by apply (waits_same e).
Qed.

Lemma waits_setup callSid from to direction e : waits e -> en_state e = Idle ->
  does e (onSetup options callSid from to direction) waits.
Proof.
  intros [He Hd] Hs. unfold onSetup. apply does_act_then, does_read.
  set (e1 := set_call _ e).
  assert (en_pinAttempts e1 < attempts) as Ha.
  { pose proof (wa_attempts _ He). destruct (decide (en_pinAttempts e = attempts)) as [Heq|]; [|cbn; lia].
    apply Hd in Heq as [He' _]. congruence. }
  assert (waiting e1) as H1 by (destruct He; by constructor).
  assert (present (en_call e1) = true) as Hc by done. clearbody e1.
  assert (forall e2 reason, later e1 e2 -> does e2 (act (set_state Ending) ;;; send (AcEnd (js reason))) waits) as Hend.
  { intros e2 reason H2. apply does_act_then, does_end; [apply waiting_state; [apply H2|by left]|].
    intros e3 H3 _. apply waits_more; [apply H3|]. by rewrite (la_attempts _ _ H3); cbn; rewrite (la_attempts _ _ H2). }
  destruct (eo_callerAllowed options from); cbn [negb]; [destruct (_ ≫= _)|].
  - apply does_alert_then; [done|]. auto.
  - apply does_act, waits_more; [|done]. apply waiting_state; auto.
  - apply does_alert_then; [done|]. auto.
Qed.

Lemma waits_hangup reason e : waits e -> does e (hangup reason) waits.
Proof.
  intros [He Hd]. unfold hangup. apply does_read. case_decide as Hs; [by apply does_ret|].
  apply does_act_then. rewrite (wa_connected _ He). apply does_act_then, does_act.
  cbn [en_turn set_choosingReplay set_keyFlush set_state]. rewrite (wa_turn _ He).
  assert (waiting (set_state Ending e)) as H1 by (apply waiting_state; auto).
  split.
  - destruct H1. by constructor.
  - intros Heq. destruct (Hd Heq) as (? & ? & ?). by split_and!.
Qed.

Lemma waits_now now e : waits e -> waits (set_now now e).
Proof. by apply waits_same. Qed.

Lemma gated_arrival a e : waits e ->
  gated (on_arrival options toLowerCase letter_or_number sha1 iso a e).1
        (on_arrival options toLowerCase letter_or_number sha1 iso a e).2.
Proof.
  intros He. assert (gated (ret e).1 (ret e).2) as Hret by (left; by apply does_ret).
  destruct a as [event|]; cbn [on_arrival]; [|left; by apply waits_hangup].
  unfold handle, read. destruct (wa_state _ (proj1 He)) as [Hs|[Hs|Hs]]; rewrite Hs; destruct event; try done.
  - left. by apply waits_setup.
  - by apply gated_digit.
Qed.

Definition early (r : running) : Prop :=
  ru_detached r = [] /\ ru_turns r = ∅ /\ runs waiting alone nothing waits (ru_engine r) (ru_main r).
Definition late (r : running) : Prop := verified (ru_engine r) /\ tame_running PinFrame (fun _ => True) r.

Lemma runs_unforked e p : runs waiting alone nothing waits e p -> rest_of p = p /\ detached_of p = [].
Proof. by destruct 1. Qed.

Lemma gated_main c now queue r : ru_detached r = [] -> ru_turns r = ∅ ->
  gated (c (set_now now (ru_engine r))).1 (c (set_now now (ru_engine r))).2 ->
  early (run_main c now queue r) \/ late (run_main c now queue r).
Proof.
  intros Hd Ht. unfold run_main. destruct (c _) as [e p]. cbn [fst snd]. intros [Hr|[Hv Hp]]; [left|right].
  - destruct (runs_unforked _ _ Hr) as [-> ->]. split_and!; cbn; [by rewrite Hd|done..].
  - split; [done|]. split_and!; cbn; [by apply tame_rest|rewrite Hd; by apply tame_detached|].
    intros k q _. by rewrite Ht, lookup_empty.
Qed.

Lemma happen_early h r r' : early r -> happen h r = Some r' -> early r' \/ late r'.
Proof.
  intros (Hd & Ht & Hm) Hh. pose proof (runs_invariant _ _ _ _ _ _ (fun _ => @proj1 _ _) Hm) as He.
  destruct h; cbn [PhoneEngine.happen] in Hh.
  - injection Hh as <-. by left.
  - destruct (ru_main r) eqn:Em; try done. destruct (ru_queue r); try done. injection Hh as <-.
    apply gated_main; try done. apply gated_arrival, waits_now. by inversion Hm.
  - destruct (ru_main r) as [|k|] eqn:Em; try done. injection Hh as <-. apply gated_main; try done.
    left. inversion Hm; subst. by match goal with H : forall a e', alone _ _ -> _ |- _ => apply H; eexists end.
  - by rewrite Hd in Hh.
  - by rewrite (wa_turns _ He) in Hh.
  - by rewrite Ht, lookup_empty in Hh.
  - by rewrite (wa_keyFlush _ He) in Hh.
  - by rewrite (wa_replay _ He) in Hh.
Qed.

Lemma happen_late h r r' : late r -> happen h r = Some r' -> late r'.
Proof.
  intros [Hv Ht] Hh.
  assert (PinFrame (ru_engine r) (ru_engine r') /\ tame_running PinFrame (fun _ => True) r') as [Hf Ht'].
  { eapply tame_happen; [apply _| |by intros; apply PinFrame_forward|done|done|done].
    intros now [event|]; cbn [on_arrival]; [|apply at_always, always_hangup, _].
    apply always_handle_past_pin; [apply _|]. by destruct Hv as (? & ? & ? & ? & ? & ? & ? & ? & ? & ?). }
  split; [by eapply verified_frame|done].
Qed.

Lemma play_gated hs store r : play hs (new_call store) = Some r -> early r \/ late r.
Proof.
  enough (forall r0, early r0 \/ late r0 -> play hs r0 = Some r -> early r \/ late r) as H.
  { apply H. left. split_and!; try done. constructor. split.
    - constructor; try done; cbn; [by left|apply silent_nil|lia].
    - intros Heq. unfold attempts in Heq. cbn in Heq. lia. }
  induction hs as [|h hs IH]; cbn [PhoneEngine.play]; intros r0 Hr0; [by intros [= <-]|].
  intros Hp. apply bind_Some in Hp as (r1 & H1 & Hp). apply (IH r1); [|done].
  destruct Hr0; [by eapply happen_early|right; by eapply happen_late].
Qed.
(** Where a log with a right PIN in it splits, either side of the check. *)
Lemma verified_split e l1 a l2 : verified e -> en_log e = l1 ++ a :: l2 ->
  (before_pin a /\ exists l, silent_until_check (l1 ++ a :: l)) \/
  is_check true a = true \/ (exists d, AcVerify d true ∈ l1 /\ eo_verifyPin options d = true).
Proof.
  intros (k1 & d & k2 & Hl & Hd & Hb & Hq & _ & Hn & _) Heq. rewrite Hl in Heq.
  apply app_eq_inv in Heq as [([|b k] & -> & Hk)|([|b k] & -> & Hk)]; simplify_eq/=.
  - auto.
  - left. apply Forall_app in Hb as [_ Hb]. apply Forall_cons in Hb as [Hb _]. split; [done|by exists k].
  - auto.
  - right; right. exists d. split; [apply elem_of_app; right; by constructor|done].
Qed.

(** C7: No agent is reached, by whatever arrives in whatever order, before a
    PIN that the policy accepts has been checked, and nothing at all is
    said before some PIN has been. *)
Theorem pin_comes_first hs store r l1 a l2 :
  play hs (new_call store) = Some r -> en_log (ru_engine r) = l1 ++ a :: l2 ->
  (reaches_agent a = true -> exists d, AcVerify d true ∈ l1 /\ eo_verifyPin options d = true) /\
  (is_say a = true -> exists d ok, AcVerify d ok ∈ l1).
Proof.
  intros Hp Hl. destruct (play_gated _ _ _ Hp) as [(_ & _ & Hr)|[Hv _]].
  - apply (runs_invariant _ _ _ _ _ _ (fun _ => @proj1 _ _)) in Hr as [].
    rewrite Hl in *. apply Forall_app in wa_log0 as [_ Hb]. apply Forall_cons in Hb as [[Ha _] _].
    split; [by rewrite Ha|by eapply wa_silent0].
  - destruct (verified_split _ _ _ _ Hv Hl) as [[[Ha _] [l Hs]]|[Hc|(d & Hd & Hok)]].
    + split; [by rewrite Ha|by eapply Hs].
    + by destruct a.
    + split; [by exists d|by exists d, true].
Qed.

(** A call checks at most as many wrong PINs as it may have attempts.
    When they are used up no agent is ever reached and no PIN accepted, and
    once the last answer is given the call has been ended and, under a
    lockout, counted as failed. *)
Theorem pin_attempts_bounded hs store r : play hs (new_call store) = Some r ->
  let log := en_log (ru_engine r) in
  checks false log <= attempts /\
  (checks false log = attempts -> checks true log = 0 /\ Forall (fun a => reaches_agent a = false) log) /\
  (checks false log = attempts -> ru_main r = Done -> AcEnd (js "auth-failed") ∈ log /\
     (present (eo_lockout options) = true -> exists from, AcFailedCall from ∈ log)).
Proof.
  intros Hp log. destruct (play_gated _ _ _ Hp) as [(_ & _ & Hr)|[Hv _]].
  - pose proof (runs_invariant _ _ _ _ _ _ (fun _ => @proj1 _ _) Hr) as []. unfold log. rewrite wa_checks0.
    split_and!; [done| |].
    + intros _. split; [apply checks_none|]; eapply Forall_impl; try apply wa_log0; by intros a [].
    + intros Heq Hm. rewrite Hm in Hr. inversion Hr as [? [_ Hd] | |]; subst. by destruct (Hd Heq) as (_ & ? & ?).
  - destruct Hv as (l1 & d & l2 & Hl & _ & _ & _ & Hlt & Hn & _).
    assert (checks false log < attempts); [|split_and!; intros; lia].
    unfold log. rewrite Hl, checks_app, <- (Nat.add_0_r (attempts)). apply Nat.add_lt_le_mono; [done|].
    rewrite (checks_none false); [done|]. constructor; [done|]. eapply Forall_impl; [done|]. by intros a [].
Qed.
End Waiting.

Lemma pin_comes_first_witness :
  let log := en_log (ru_engine (call_after asks_hearth)) in
  (exists m, log !! 4 = Some (AcStream (js "hearth") m)) /\
  exists d, AcVerify d true ∈ take 4 log /\ jeqb the_pin d = true.
Proof.
  split; [eexists; evaluated|].
  eapply (pin_comes_first demo_options ascii_lower ascii_alnum no_sha1 as_number asks_hearth new_registry
            (call_after asks_hearth) _ (List.nth 4 (en_log (ru_engine (call_after asks_hearth))) AcTypeError)
            (drop 5 (en_log (ru_engine (call_after asks_hearth))))).
  - apply call_after_run. evaluated.
  - evaluated.
  - evaluated.
Defined.

(** Two wrong PINs of the two allowed, and the answers waited for. *)
Definition fails_twice : list happening :=
  rings ++ keyed 1 2 (js "11111111") ++ keyed 2 3 (js "22222222").

Lemma pin_attempts_bounded_witness :
  let log := en_log (ru_engine (call_after fails_twice)) in
  checks false log = 2 /\ AcEnd (js "auth-failed") ∈ log /\ exists from, AcFailedCall from ∈ log.
Proof.
  split; [evaluated|].
  destruct (pin_attempts_bounded demo_options ascii_lower ascii_alnum no_sha1 as_number fails_twice new_registry
              (call_after fails_twice)) as (_ & _ & H).
  - apply call_after_run. evaluated.
  - destruct H as [H1 H2]; [evaluated|evaluated|]. split; [exact H1|]. apply H2. evaluated.
Defined.
