(* ===== verification/PhoneStates.v ===== *)
(** What a call's state promises: past setup there is a call, a connected
    call has an agent, one turn at most still speaks and it is the current
    one; so no step reads a field that is not there. *)

From S2P Require Import Prelude A2A A2AClient SessionId PhoneRegistry PhonePicker PhoneEngine PhoneFrames PhoneTriples PhoneDemo.
#[local] Open Scope nat_scope.
#[local] Open Scope cmd_scope.

(** Being forwarded: its stream is open and it has not been dropped. *)
Definition speaking (t : Turn) : bool := tn_live t && negb (tn_dropped t).

Section States.
Context {St : Type} `{!PhoneStatePort St}.
Implicit Types e : engine (St := St).

(** Nothing is being forwarded. *)
Definition hushed (e : engine (St := St)) : Prop := forall j t, en_turns e !! j = Some t -> speaking t = false.

Record wellformed (e : engine (St := St)) : Prop := mkWellformed {
  wf_call : en_state e <> Idle -> en_state e <> Ending -> present (en_call e) = true;
  wf_connected : en_state e = Connected_ -> present (en_connected e) = true;
  wf_flush : en_state e <> Connected_ -> en_keyFlush e = false;
  wf_hushed : en_state e <> Connected_ -> en_state e <> Ending -> hushed e;
  wf_turns : forall j t, en_turns e !! j = Some t -> speaking t = true ->
    en_turn e = Some j /\ present (en_connected e) = true;
  wf_bounded : forall j t, en_turns e !! j = Some t -> j <= en_seq e;
  wf_log : AcTypeError ∉ en_log e }.

(** What a step beside the main function keeps. *)
Record kept_state (e e' : engine (St := St)) : Prop := mkKeptState {
  ks_state : en_state e' = en_state e;
  ks_call : en_call e' = en_call e;
  ks_flush : en_keyFlush e = false -> en_keyFlush e' = false;
  ks_hushed : en_keyFlush e = false -> hushed e -> hushed e' }.

Definition Steady (e e' : engine (St := St)) : Prop := wellformed e -> wellformed e' /\ kept_state e e'.

#[export] Instance Steady_preorder : PreOrder Steady.
Proof.
  split.
  - intros e He. split; [done|by constructor].
  - intros e1 e2 e3 H12 H23 H1. destruct (H12 H1) as [H2 []], (H23 H2) as [H3 []]. split; [done|].
    constructor; try congruence; auto.
Qed.

(** An update that leaves everything [wellformed] is about alone. *)
Record calm (e e' : engine (St := St)) : Prop := mkCalm {
  cm_state : en_state e' = en_state e;
  cm_call : en_call e' = en_call e;
  cm_connected : present (en_connected e') = present (en_connected e);
  cm_flush : en_keyFlush e' = en_keyFlush e;
  cm_turn : en_turn e' = en_turn e;
  cm_turns : en_turns e' = en_turns e;
  cm_seq : en_seq e <= en_seq e';
  cm_log : AcTypeError ∈ en_log e' -> AcTypeError ∈ en_log e }.

Lemma wellformed_calm e e' : calm e e' -> wellformed e -> wellformed e'.
Proof.
  intros [Hs Hc Hco Hf Ht Hts Hq Hl] []. constructor; unfold hushed; rewrite ?Hs, ?Hc, ?Hco, ?Hf, ?Ht, ?Hts; auto.
  intros j t Hj. specialize (wf_bounded0 j t Hj). lia.
Qed.

Lemma calm_steady e e' : calm e e' -> Steady e e'.
Proof.
  intros Hcalm He. split; [by eapply wellformed_calm|]. destruct Hcalm as [Hs Hc _ Hf _ Hts _ _].
  constructor; unfold hushed; rewrite ?Hf, ?Hts; done.
Qed.

Lemma calm_perform a e : a <> AcTypeError -> calm e (perform a e).
Proof.
  intros Ha. constructor; try done. cbn. intros [H|H]%elem_of_app; [done|].
  apply list_elem_of_singleton in H. by rewrite H in Ha.
Qed.

(** An update of one turn that does not set it speaking. *)
Lemma steady_upd k f e : (forall t, speaking (f t) = true -> speaking t = true) -> Steady e (upd_turn k f e).
Proof.
  intros Hf He.
  assert (forall j t, en_turns (upd_turn k f e) !! j = Some t ->
    exists t0, en_turns e !! j = Some t0 /\ (speaking t = true -> speaking t0 = true)) as Hback.
  { intros j t. cbn [en_turns upd_turn set_turns]. rewrite lookup_alter_Some.
    intros [(<- & t0 & H0 & ->)|[_ H0]]; [exists t0; auto|by exists t]. }
  assert (hushed e -> hushed (upd_turn k f e)) as Hh.
  { intros H j t Hj. destruct (Hback j t Hj) as (t0 & H0 & Hs). specialize (H j t0 H0).
    destruct (speaking t); [|done]. by rewrite H in Hs; specialize (Hs eq_refl). }
  destruct He. split; [|by constructor].
  constructor; try done; [by auto|..].
  - intros j t Hj Hs. destruct (Hback j t Hj) as (t0 & H0 & Hs0). by eapply wf_turns0; [|auto].
  - intros j t Hj. destruct (Hback j t Hj) as (t0 & H0 & _). by eapply wf_bounded0.
Qed.
(** *** The functions that run beside the main one *)

Context (options : EngineOptions St) (iso : Z -> jstr).
#[local] Abbreviation always := (always Steady).
#[local] Abbreviation always_at := (always_at Steady).

Ltac calmly := apply calm_steady; by constructor.

Lemma steady_send a : a <> AcTypeError -> always (send a).
Proof.
  intros Ha e. apply always_at_await; [by apply calm_steady, calm_perform|]. intros _. apply always_ret, _.
Qed.

Lemma steady_speak text : always (speak text).
Proof. apply always_then; [apply _|apply always_act; intros e; calmly|by apply steady_send]. Qed.

Lemma steady_cancelTask taskId : always (cancelTask taskId).
Proof.
  intros e. unfold cancelTask. apply always_at_read. destruct (en_connected e); [|apply always_ret, _].
  apply always_at_await; [by apply calm_steady, calm_perform|]. intros _. apply always_ret, _.
Qed.

Lemma steady_warm agent contextId e : present (en_call e) = true -> always_at e (warm iso agent contextId).
Proof.
  intros Hc. unfold warm. apply always_at_read. destruct (en_call e); [|done].
  apply always_at_await; [by apply calm_steady, calm_perform|]. intros _. apply always_ret, _.
Qed.

Lemma steady_choosing_replay : always (choosing_replay options).
Proof.
  apply always_then; [apply _|apply always_act; intros e; calmly|]. intros e. apply always_at_read.
  case_match; [apply always_ret, _|]. apply always_at_fork. repeat case_match; apply steady_speak.
Qed.

(** A turn opened over the one before it. *)
Lemma wellformed_open e e' t : wellformed e -> en_state e = Connected_ -> hushed e ->
  en_state e' = en_state e -> en_call e' = en_call e -> present (en_connected e') = true ->
  en_turn e' = Some (S (en_seq e)) -> en_turns e' = <[S (en_seq e) := t]> (en_turns e) ->
  en_seq e' = S (en_seq e) -> AcTypeError ∉ en_log e' -> wellformed e'.
Proof.
  intros [] Hs Hh Hs' Hc Hco Ht Hts Hq Hl. constructor; rewrite ?Hs', ?Hc, ?Hco; try done.
  - intros j u. rewrite Hts, lookup_insert_Some. intros [[<- _]|[_ Hu]] Hsp; [done|].
    by rewrite (Hh j u Hu) in Hsp.
  - intros j u. rewrite Hts, Hq, lookup_insert_Some. intros [[<- _]|[_ Hu]]; [done|].
    specialize (wf_bounded0 j u Hu). lia.
Qed.

Lemma undropped_spec e k t : undropped e = Some (k, t) ->
  en_turn e = Some k /\ en_turns e !! k = Some t /\ tn_dropped t = false.
Proof.
  unfold undropped, current_turn. destruct (en_turn e) as [j|]; [|done].
  destruct (en_turns e !! j) as [u|] eqn:Hj; [|done]. cbn. destruct (tn_dropped u) eqn:Hd; [done|].
  intros [= <- <-]. done.
Qed.

(** With its current turn dropped a call forwards nothing. *)
Lemma hushed_current e : wellformed e -> (forall k t, en_turn e = Some k -> en_turns e !! k = Some t -> speaking t = false) ->
  hushed e.
Proof.
  intros He Hc j t Hj. destruct (speaking t) eqn:Hs; [|done]. destruct (wf_turns _ He j t Hj Hs) as [Ht _].
  by rewrite <- (Hc j t Ht Hj).
Qed.

Lemma speaking_dropped t : speaking (set_dropped t) = false.
Proof. apply andb_false_r. Qed.

Lemma hushed_undropped e : wellformed e -> undropped e = None -> hushed e.
Proof.
  intros He Hu. apply hushed_current; [done|]. intros k t Hk Ht. unfold undropped, current_turn in Hu.
  rewrite Hk, Ht in Hu. cbn in Hu. unfold speaking. destruct (tn_dropped t); [apply andb_false_r|done].
Qed.

Lemma hushed_drop e k : wellformed e -> en_turn e = Some k -> hushed (upd_turn k set_dropped e).
Proof.
  intros He Hk. apply hushed_current.
  - apply steady_upd; [by intros t; rewrite speaking_dropped|done].
  - intros j t Hj. cbn in Hj. rewrite Hk in Hj. injection Hj as <-. cbn [en_turns upd_turn set_turns].
    rewrite lookup_alter_eq. intros Ht. apply fmap_Some in Ht as (u & _ & ->). apply speaking_dropped.
Qed.
Lemma drop_previous_forks e :
  (drop_previous e).2 = Done \/ exists d, (drop_previous e).2 = Fork d Done /\ tame Steady d.
Proof.
  unfold drop_previous, read, then_, act. destruct (undropped e) as [[k t]|]; [|by left]. cbn [continue].
  destruct (tn_taskId t) as [taskId|]; [|by left]. right. unfold fork.
  pose proof (steady_cancelTask taskId (upd_turn k set_dropped e)) as [_ Ht].
  destruct (cancelTask _ _) as [e1 p]. by exists p.
Qed.

Lemma drop_previous_hushes e : wellformed e ->
  let e1 := (drop_previous e).1 in
  wellformed e1 /\ hushed e1 /\ en_state e1 = en_state e /\ en_call e1 = en_call e /\
  en_connected e1 = en_connected e /\ en_keyFlush e1 = en_keyFlush e.
Proof.
  intros He. unfold drop_previous, read. destruct (undropped e) as [[k t]|] eqn:Hu.
  2: { split_and!; auto. by apply hushed_undropped. }
  destruct (undropped_spec _ _ _ Hu) as (Hk & _ & _).
  assert (Steady e (upd_turn k set_dropped e)) as Hst by (apply steady_upd; intros u; by rewrite speaking_dropped).
  destruct (Hst He) as [H1 _]. pose proof (hushed_drop e k He Hk) as Hh.
  unfold then_, act. cbn [continue]. destruct (tn_taskId t) as [taskId|]; [|by split_and!; auto].
  unfold fork, cancelTask, read. destruct (en_connected (upd_turn k set_dropped e)) as [c|] eqn:Hc; cbn.
  - split_and!; try done. eapply wellformed_calm; [by apply calm_perform|done].
  - by split_and!.
Qed.

Lemma open_turn_opens text kind e : wellformed e -> hushed e -> en_state e = Connected_ ->
  let (e1, p) := open_turn iso text kind e in
  p = Done /\ wellformed e1 /\ en_state e1 = en_state e /\ en_call e1 = en_call e /\ en_keyFlush e1 = en_keyFlush e.
Proof.
  intros He Hh Hs. unfold open_turn, read, act. pose proof (wf_connected _ He Hs) as Hco.
  assert (present (en_call e) = true) as Hc by (apply wf_call; congruence).
  destruct (en_call e) as [call|] eqn:Hcall; [|done]. destruct (en_connected e) as [c|]; [|done].
  split_and!; try done. eapply (wellformed_open e); try done.
  cbn [en_log set_turn set_turns perform set_log set_connected set_seq].
  intros [H|H]%elem_of_app; [by apply wf_log in H|by apply list_elem_of_singleton in H].
Qed.

(** A connected call takes an utterance, or the keys that have stopped. *)
Lemma startTurn_starts text kind e : wellformed e -> en_state e = Connected_ ->
  let e1 := (startTurn iso text kind e).1 in
  wellformed e1 /\ en_state e1 = en_state e /\ en_call e1 = en_call e /\ en_keyFlush e1 = en_keyFlush e.
Proof.
  intros He Hs. destruct (drop_previous_hushes e He) as (H1 & Hh & Hs1 & Hc1 & _ & Hf1).
  unfold startTurn, then_. pose proof (drop_previous_forks e) as Hp. destruct (drop_previous e) as [e1 p].
  cbn [fst snd] in *. pose proof (open_turn_opens text kind e1 H1 Hh) as H2. rewrite Hs1 in H2. specialize (H2 Hs).
  destruct Hp as [->|(d & -> & _)]; cbn [continue]; destruct (open_turn iso text kind e1) as [e2 p2];
    destruct H2 as (_ & H2 & Hs2 & Hc2 & Hf2); cbn; (split_and!; congruence || done).
Qed.

Lemma startTurn_forks text kind e :
  (startTurn iso text kind e).2 = Done \/ exists d, (startTurn iso text kind e).2 = Fork d Done /\ tame Steady d.
Proof.
  unfold startTurn, then_. pose proof (drop_previous_forks e) as Hp. destruct (drop_previous e) as [e1 p].
  assert (snd (open_turn iso text kind e1) = Done) as Ho.
  { unfold open_turn, read, act, then_, type_error. by destruct (en_call e1), (en_connected e1). }
  cbn [snd] in Hp. destruct (open_turn iso text kind e1) as [e2 p2] eqn:E. cbn in Ho. subst p2.
  destruct Hp as [->|(d & -> & Hd)]; cbn [continue]; rewrite E; cbn; [by left|right; by exists d].
Qed.

Lemma startTurn_tame text kind e : tame Steady (startTurn iso text kind e).2.
Proof. destruct (startTurn_forks text kind e) as [->|(d & -> & Hd)]; [constructor|by repeat constructor]. Qed.

Lemma steady_key_flush e : en_keyFlush e = true -> always_at e (key_flush iso).
Proof.
  intros Hk. unfold PhoneFrames.always_at, key_flush, read, then_ at 1 2, act. cbn [continue].
  set (e1 := set_keyFlush false (set_keys [] e)).
  assert (wellformed e -> wellformed e1 /\ en_state e = Connected_) as H1.
  { intros He. assert (en_state e = Connected_) as Hs.
    { destruct (decide (en_state e = Connected_)) as [|Hn]; [done|]. apply wf_flush in Hn; [congruence|done]. }
    split; [|done]. destruct He. constructor; try done; cbn; auto. }
  assert (Steady e e1 /\ tame Steady (Done (St := St))) as Hret.
  { split; [|constructor]. intros He. destruct (H1 He). split; [done|]. by constructor. }
  destruct (en_keys e); [exact Hret|]. case_decide as Hs; [|exact Hret].
  split; [|apply startTurn_tame]. intros He. destruct (H1 He) as [Hw _].
  destruct (startTurn_starts (n :: l) (js "dtmf") e1 Hw Hs) as (H2 & Hs2 & Hc2 & Hf2).
  split; [done|]. constructor; [by rewrite Hs2|by rewrite Hc2|by rewrite Hk..].
Qed.
Lemma speaking_flags t t' : tn_live t' = tn_live t -> tn_dropped t' = tn_dropped t -> speaking t' = speaking t.
Proof. unfold speaking. by intros -> ->. Qed.

Lemma speaking_over t : speaking (set_over t) = false.
Proof. done. Qed.

Lemma steady_same f k e : (forall t, tn_live (f t) = tn_live t) -> (forall t, tn_dropped (f t) = tn_dropped t) ->
  Steady e (upd_turn k f e).
Proof. intros Hl Hd. apply steady_upd. intros t. by rewrite (speaking_flags t (f t)). Qed.

Lemma steady_finish_turn k : always (finish_turn k).
Proof.
  intros e. split; [|constructor]. unfold finish_turn, act. cbn [fst].
  set (e1 := if decide _ then _ else _).
  assert (Steady e (upd_turn k set_over e1)) as Hst.
  { intros He. assert (Steady e (upd_turn k set_over e)) as H1 by (apply steady_upd; intros u; by rewrite speaking_over).
    destruct (H1 He) as [Hw Hk]. unfold e1. case_decide as Ht; [|done]. split; [|by destruct Hk].
    destruct Hw. constructor; try done. intros j u Hj Hsp. destruct (wf_turns0 j u Hj Hsp) as [Hcur Hco].
    cbn in Hcur. rewrite Ht in Hcur. injection Hcur as ->.
    cbn [en_turns upd_turn set_turns set_turn] in Hj. rewrite lookup_alter_eq in Hj.
    apply fmap_Some in Hj as (u0 & _ & ->). done. }
  destruct (en_turns e !! k) as [t|] eqn:Hk.
  - case_match; [done|]. etransitivity; [exact Hst|]. calmly.
  - unfold e1. case_decide as Ht; [|done]. intros He. split; [|by constructor]. destruct He. constructor; try done.
    intros j u Hj Hsp. destruct (wf_turns0 j u Hj Hsp) as [Hcur _]. cbn in Hj; congruence.
Qed.

Lemma steady_reply k : always (reply_is_spoken k).
Proof. apply always_act. intros e. repeat case_match; first [reflexivity | calmly]. Qed.

Lemma steady_token k text last : always (send (AcSay (Some k) text last) ;;; act (after_token k text)).
Proof. apply always_then; [apply _|by apply steady_send|]. apply always_act. intros e. by apply steady_same. Qed.

Lemma steady_event k event t e : en_turns e !! k = Some t -> speaking t = true -> always_at e (onTurnEvent k event).
Proof.
  intros Hk Hsp. unfold onTurnEvent. apply always_at_read. cbv beta. rewrite Hk.
  assert (forall f, (forall t, tn_live (f t) = tn_live t) -> (forall t, tn_dropped (f t) = tn_dropped t) ->
    always (act (upd_turn k f))) as Hupd by (intros f Hl Hd; apply always_act; intros e'; by apply steady_same).
  destruct event as [task|taskId ? state message ?|? [|c text]|]; try apply always_ret, _.
  - by apply Hupd.
  - destruct (ends_utterance state); cbn [negb]; [|apply always_ret, _].
    cbv zeta. destruct (asks_operator state taskId && negb (present (en_connected e))) eqn:Hno.
    { apply always_at_act. intros He. destruct (wf_turns _ He k t Hk Hsp) as [_ Hco].
      rewrite Hco, andb_false_r in Hno. done. }
    apply always_at_then; [apply _| |].
    + destruct (asks_operator state taskId); [|apply always_ret, _]. apply always_at_act, calm_steady.
      constructor; try done. cbn. by destruct (en_connected e).
    + apply always_then; [apply _|by apply Hupd|]. apply always_then; [apply _| |apply steady_reply].
      destruct (match tn_held t with Some h => h | None => _ end); [|apply steady_token].
      destruct (tn_spoken t); [apply always_ret, _|by apply steady_send].
  - apply always_at_then; [apply _|by apply Hupd|]. apply always_then; [apply _| |by apply Hupd].
    destruct (tn_held t); [apply steady_token|apply always_ret, _].
Qed.

Lemma steady_forward k s e : (forall t, en_turns e !! k = Some t -> tn_live t = true) -> always_at e (forward k s).
Proof.
  intros Hlive. unfold forward. apply always_at_read. cbv beta.
  destruct (en_turns e !! k) as [t|] eqn:Hk; [|apply always_ret, _]. specialize (Hlive t eq_refl).
  destruct s as [event| |].
  - apply always_at_act_then; [apply _|by apply steady_same|].
    destruct (tn_dropped t) eqn:Hd; [apply always_ret, _|]. apply (steady_event k event (see event t)).
    + cbn [en_turns upd_turn set_turns]. by rewrite lookup_alter_eq, Hk.
    + unfold speaking. cbn. by rewrite Hlive, Hd.
  - apply steady_finish_turn.
  - apply always_at_then; [apply _| |apply steady_finish_turn].
    destruct (tn_dropped t); [apply always_ret, _|apply steady_speak].
Qed.
End States.
