(* ===== verification/PhoneSpeech.v ===== *)
(** What a turn says: whatever else the call does meanwhile, the tokens sent
    for a turn that was not dropped are exactly the text of the events its
    stream brought, and only the last of them closes the utterance. *)

From S2P Require Import Prelude A2A A2AClient SessionId PhoneRegistry PhonePicker PhoneEngine PhoneFrames PhoneTriples PhoneDemo.
#[local] Open Scope nat_scope.
#[local] Open Scope cmd_scope.

(** The tokens a turn has sent, and whether each was marked last. *)
Definition tokens (k : nat) (l : list action) : list (jstr * bool) :=
  omap (fun a => match a with
                 | AcSay (Some j) text last => if decide (j = k) then Some (text, last) else None
                 | _ => None
                 end) l.

Definition said (l : list (jstr * bool)) : jstr := concat (fst <$> l).

(** ** The reference: events one by one *)

(** What is said so far, and the chunk held back. *)
Definition hear (s : list (jstr * bool) * option jstr) (event : A2AEvent) : list (jstr * bool) * option jstr :=
  let (sent, held) := s in
  match event with
  | AeArtifact _ ((_ :: _) as text) _ _ =>
      (sent ++ match held with Some h => [(h, false)] | None => [] end, Some text)
  | AeStatus _ _ state messageText _ =>
      if ends_utterance state then
        (match match held with Some h => h | None => default [] messageText end with
         | [] => match said sent with [] => sent | _ => sent ++ [([], true)] end
         | closing => sent ++ [(closing, true)]
         end, None)
      else s
  | _ => s
  end.

(** The text of an event's chunk. *)
Definition chunk (event : A2AEvent) : option jstr :=
  match event with AeArtifact _ ((_ :: _) as text) _ _ => Some text | _ => None end.
Definition goes_on (event : A2AEvent) : bool :=
  match event with AeStatus _ _ state _ _ => negb (ends_utterance state) | _ => true end.

(** The whole reply: the chunks, or the final message when there are none. *)
Definition reply (chunks : list jstr) (message : jstr) : list (jstr * bool) :=
  match List.rev chunks with
  | final :: earlier => ((fun c => (c, false)) <$> List.rev earlier) ++ [(final, true)]
  | [] => match message with [] => [] | _ => [(message, true)] end
  end.

Lemma hear_chunks events s : Forall (fun ev => goes_on ev = true) events ->
  fold_left hear events s =
    match List.rev (omap chunk events) with
    | final :: earlier =>
        (s.1 ++ match s.2 with Some h => [(h, false)] | None => [] end ++ ((fun c => (c, false)) <$> List.rev earlier),
         Some final)
    | [] => s
    end.
Proof.
  revert s. induction events as [|ev events IH]; intros [sent held] Hev; [done|].
  apply Forall_cons in Hev as [Hgo Hev]. cbn [fold_left]. rewrite IH by done.
  assert (chunk ev = None -> hear (sent, held) ev = (sent, held)) as Hnone.
  { destruct ev as [|? state ? ? ?|? [] ? ?|]; try done. cbn in *. by destruct (ends_utterance _). }
  cbn [omap list_omap]. destruct (chunk ev) as [text|] eqn:Hc; [|by rewrite Hnone].
  destruct ev as [| |? [|c t] ? ?|]; try done. injection Hc as <-. cbn [hear List.rev fst snd].
  destruct (List.rev (omap chunk events)) as [|final earlier] eqn:Hr; cbn [app].
  - by rewrite app_nil_r.
  - rewrite rev_app_distr. cbn [List.rev app]. rewrite fmap_cons. f_equal.
    rewrite <- !app_assoc. cbn. by destruct held.
Qed.

Lemma hear_reply events taskId contextId state message metadata :
  Forall (fun ev => goes_on ev = true) events -> ends_utterance state = true ->
  fold_left hear (events ++ [AeStatus taskId contextId state message metadata]) ([], None) =
    (reply (omap chunk events) (default [] message), None).
Proof.
  intros Hev Hs. rewrite fold_left_app, (hear_chunks events) by done. cbn [fst snd app fold_left]. unfold reply.
  assert (Forall (fun c => c <> []) (List.rev (omap chunk events))) as Hne.
  { apply Forall_rev, Forall_forall. intros c Hc. apply list_elem_of_omap in Hc as (ev & _ & Hc).
    destruct ev as [| |? [] ? ?|]; try done. by injection Hc as <-. }
  destruct (List.rev (omap chunk events)) as [|final earlier]; cbn [hear]; rewrite Hs.
  - by destruct (default [] message).
  - apply Forall_cons in Hne as [Hf _]. by destruct final.
Qed.

(** ** One turn among the rest of the call *)

Section Speech.
Context {St : Type} `{!PhoneStatePort St}.
Context (k : nat).

(** A turn's key is never given out again. *)
Definition bounded (e : engine (St := St)) : Prop := forall j, is_Some (en_turns e !! j) -> j <= en_seq e.

(** The same turn, but that it may have been dropped. *)
Definition kept (t t' : Turn) : Prop :=
  tn_seen t' = tn_seen t /\ tn_held t' = tn_held t /\ tn_spoken t' = tn_spoken t /\ tn_live t' = tn_live t /\
  (tn_dropped t = true -> tn_dropped t' = true).

Definition unheard (t : Turn) : Prop := tn_seen t = [] /\ tn_held t = None /\ tn_spoken t = [].

(** Turn [k] as the others leave it: its own business is untouched. *)
Definition KeptFrame (e e' : engine (St := St)) : Prop :=
  bounded e -> bounded e' /\ tokens k (en_log e') = tokens k (en_log e) /\
  match en_turns e !! k with
  | Some t => exists t', en_turns e' !! k = Some t' /\ kept t t'
  | None => forall t', en_turns e' !! k = Some t' -> unheard t'
  end.

Lemma kept_trans t1 t2 t3 : kept t1 t2 -> kept t2 t3 -> kept t1 t3.
Proof. intros (?&?&?&?&?) (?&?&?&?&?). split_and!; try congruence. auto. Qed.

Lemma kept_unheard t t' : kept t t' -> unheard t -> unheard t'.
Proof. intros (?&?&?&?&?) (?&?&?). split_and!; congruence. Qed.

#[export] Instance KeptFrame_preorder : PreOrder KeptFrame.
Proof.
  split.
  - intros e Hb. split_and!; [done..|]. destruct (en_turns e !! k) as [t|] eqn:Ht; [|by intros].
    by exists t.
  - intros e1 e2 e3 H12 H23 Hb. destruct (H12 Hb) as (Hb2 & Hl2 & Ht2), (H23 Hb2) as (Hb3 & Hl3 & Ht3).
    split_and!; [done|congruence|]. destruct (en_turns e1 !! k) as [t1|].
    + destruct Ht2 as (t2 & Ht2 & Hk2). rewrite Ht2 in Ht3. destruct Ht3 as (t3 & Ht3 & Hk3).
      exists t3. split; [done|by eapply kept_trans].
    + destruct (en_turns e2 !! k) as [t2|]; [|done]. destruct Ht3 as (t3 & Ht3 & Hk3). rewrite Ht3.
      intros t' [= <-]. eapply kept_unheard; [done|]. by apply Ht2.
Qed.

Lemma sent_tokens_app j l l' : tokens j (l ++ l') = tokens j l ++ tokens j l'.
Proof. apply omap_app. Qed.

Lemma tokens_plain a : plain a -> tokens k [a] = [].
Proof. by destruct a as [[]| | | | | | | | | |]. Qed.

Lemma KeptFrame_same e e' : tokens k (en_log e') = tokens k (en_log e) -> en_turns e' = en_turns e ->
  en_seq e <= en_seq e' -> KeptFrame e e'.
Proof.
  intros Hl Ht Hs Hb. rewrite Ht. split_and!; [|done|].
  - intros j Hj. rewrite Ht in Hj. specialize (Hb j Hj). lia.
  - destruct (en_turns e !! k) as [t|]; [by exists t|by intros].
Qed.

Lemma bounded_alter f j e : bounded e -> bounded (upd_turn j f e).
Proof.
  intros Hb i. cbn [en_turns upd_turn set_turns en_seq]. rewrite lookup_alter_is_Some. apply Hb.
Qed.

Lemma KeptFrame_other f j e : j <> k -> KeptFrame e (upd_turn j f e).
Proof.
  intros Hj Hb. split_and!; [by apply bounded_alter|done|]. cbn [en_turns upd_turn set_turns].
  rewrite lookup_alter_ne by done. destruct (en_turns e !! k) as [t|]; [by exists t|done].
Qed.

#[export] Instance KeptFrame_frame : Frame KeptFrame.
Proof.
  split; try apply _.
  - intros e e' Hl Ht Hs _. apply KeptFrame_same; congruence.
  - intros a e Ha. apply KeptFrame_same; [|done..]. cbn [en_log perform set_log]. by rewrite sent_tokens_app, tokens_plain, app_nil_r.
  - intros j e. destruct (decide (j = k)) as [->|Hne]; [|by apply KeptFrame_other].
    intros Hb. split_and!; [by apply bounded_alter|done|]. cbn [en_turns upd_turn set_turns].
    rewrite lookup_alter_eq. destruct (en_turns e !! k) as [t|]; [by eexists|done].
  - intros a t e e' Ha (Hf1 & Hf2 & Hf3 & _) Hs Ht Hl _ Hb. rewrite Hl, Ht. split_and!.
    + intros j. rewrite Ht. intros [<- |[_ Hj]]%lookup_insert_is_Some; [lia|]. specialize (Hb j Hj). lia.
    + by rewrite sent_tokens_app, tokens_plain, app_nil_r.
    + destruct (en_turns e !! k) as [t0|] eqn:H0.
      * rewrite lookup_insert_ne; [by exists t0|]. specialize (Hb k (mk_is_Some _ _ H0)). lia.
      * destruct (decide (S (en_seq e) = k)) as [<-|Hne].
        -- rewrite lookup_insert_eq. by intros t' [= <-].
        -- rewrite lookup_insert_ne, H0; done.
Qed.

Lemma KeptFrame_forward j s : j <> k -> always KeptFrame (forward j s).
Proof.
  intros Hj. apply always_forward; [apply _|..].
  - intros f e. by apply KeptFrame_other.
  - intros t last e. apply KeptFrame_same; [|done..]. cbn [en_log perform set_log]. rewrite sent_tokens_app. cbn.
    by rewrite decide_False, app_nil_r.
Qed.
(** *** The turn's own stream *)

Definition others (e e' : engine (St := St)) : Prop := bounded e /\ KeptFrame e e'.
Definition unforked (p : proc (St := St)) : Prop := False.
Definition any (e : engine (St := St)) : Prop := True.

#[local] Abbreviation does := (does any others unforked).

(** Turn [k] has sent [sent], holds [held] and has seen [seen]. *)
Definition stands (sent : list (jstr * bool)) (held : option jstr) (spoken : jstr) (seen : list A2AEvent)
    (e : engine (St := St)) : Prop :=
  bounded e /\ tokens k (en_log e) = sent /\
  exists t, en_turns e !! k = Some t /\ tn_seen t = seen /\ tn_held t = held /\ tn_spoken t = spoken.

(** A turn that was not dropped has said what its events say. *)
Definition spoke (e : engine (St := St)) : Prop :=
  bounded e /\
  match en_turns e !! k with
  | None => tokens k (en_log e) = []
  | Some t => tn_dropped t = false ->
      fold_left hear (tn_seen t) ([], None) = (tokens k (en_log e), tn_held t) /\
      tn_spoken t = said (tokens k (en_log e))
  end.

Lemma stands_others sent held spoken seen e e' : stands sent held spoken seen e -> others e e' ->
  stands sent held spoken seen e'.
Proof.
  intros (Hb & Hl & t & Ht & Hs) [_ Hk]. destruct (Hk Hb) as (Hb' & Hl' & Ht'). rewrite Ht in Ht'.
  destruct Ht' as (t' & Ht' & H1 & H2 & H3 & _ & _). split_and!; [done|congruence|]. exists t'.
  destruct Hs as (? & ? & ?). split_and!; congruence.
Qed.

Lemma spoke_others e e' : spoke e -> others e e' -> spoke e'.
Proof.
  intros [Hb Hs] [_ Hk]. destruct (Hk Hb) as (Hb' & Hl' & Ht'). split; [done|]. rewrite Hl'.
  destruct (en_turns e !! k) as [t|].
  - destruct Ht' as (t' & -> & H1 & H2 & H3 & _ & Hd). rewrite H1, H2, H3. intros Hn. apply Hs.
    destruct (tn_dropped t); [|done]. by rewrite Hd in Hn.
  - rewrite Hs in *. destruct (en_turns e' !! k) as [t'|]; [|done].
    destruct (Ht' t' eq_refl) as (-> & -> & ->). done.
Qed.

Lemma stands_spoke sent held seen e : stands sent held (said sent) seen e ->
  fold_left hear seen ([], None) = (sent, held) -> spoke e.
Proof. intros (Hb & Hl & t & Ht & <- & <- & Hsp) Hf. split; [done|]. rewrite Ht. intros _. by rewrite Hl. Qed.

Lemma stands_upd f sent held spoken seen held' spoken' seen' e : stands sent held spoken seen e ->
  (forall t, tn_seen t = seen -> tn_held t = held -> tn_spoken t = spoken ->
     tn_seen (f t) = seen' /\ tn_held (f t) = held' /\ tn_spoken (f t) = spoken') ->
  stands sent held' spoken' seen' (upd_turn k f e).
Proof.
  intros (Hb & Hl & t & Ht & H1 & H2 & H3) Hf. split_and!; [by apply bounded_alter|done|].
  exists (f t). cbn [en_turns upd_turn set_turns]. rewrite lookup_alter_eq, Ht. split; [done|]. by apply Hf.
Qed.

Lemma stands_say text last sent held spoken seen e : stands sent held spoken seen e ->
  stands (sent ++ [(text, last)]) held spoken seen (perform (AcSay (Some k) text last) e).
Proof.
  intros (Hb & <- & Ht). split_and!; [done| |done]. cbn [en_log perform set_log].
  rewrite sent_tokens_app. cbn. by rewrite decide_True.
Qed.

Lemma said_snoc sent text last : said (sent ++ [(text, last)]) = said sent ++ text.
Proof. unfold said. rewrite fmap_app, concat_app. cbn. by rewrite app_nil_r. Qed.

Ltac turn_fields := intros ? ? ? ?; rewrite ?said_snoc; split_and!; cbn; congruence.

(** A token goes out, and the turn has spoken it when it has. *)
Lemma does_token text last sent held seen e c Q : stands sent held (said sent) seen e ->
  (forall e', stands (sent ++ [(text, last)]) held (said (sent ++ [(text, last)])) seen e' -> does e' c Q) ->
  does e ((send (AcSay (Some k) text last) ;;; act (after_token k text)) ;;; c) Q.
Proof.
  intros He Hc. eapply does_then; [|exact Hc]. apply does_send_then; [done|]. intros e' He'. apply does_act.
  eapply stands_upd; [eapply stands_others, He'; by apply stands_say|].
  turn_fields.
Qed.

Lemma fold_hear_snoc seen ev s : fold_left hear (seen ++ [ev]) s = hear (fold_left hear seen s) ev.
Proof. apply fold_left_app. Qed.

Lemma does_artifact taskId c text append lastChunk sent held seen e :
  stands sent held (said sent) (seen ++ [AeArtifact taskId (c :: text) append lastChunk]) e ->
  fold_left hear seen ([], None) = (sent, held) ->
  does e (onTurnEvent k (AeArtifact taskId (c :: text) append lastChunk)) spoke.
Proof.
  intros He Hf. pose proof He as (Hb & Hl & t & Ht & Hse & Hh & Hsp).
  unfold onTurnEvent. apply does_read. rewrite Ht. apply does_act_then. rewrite Hh.
  set (e1 := upd_turn _ _ e).
  assert (stands sent held (said sent) (seen ++ [AeArtifact taskId (c :: text) append lastChunk]) e1) as H1.
  { eapply stands_upd; [exact He|]. turn_fields. }
  clearbody e1.
  assert (forall e2 sent2, stands sent2 held (said sent2) (seen ++ [AeArtifact taskId (c :: text) append lastChunk]) e2 ->
    sent2 = sent ++ match held with Some h => [(h, false)] | None => [] end ->
    does e2 (act (upd_turn k (set_held (Some (c :: text))))) spoke) as Hend.
  { intros e2 sent2 H2 Hs2. apply does_act. apply (stands_spoke sent2 (Some (c :: text)) (seen ++ [AeArtifact taskId (c :: text) append lastChunk])).
    - eapply stands_upd; [exact H2|]. turn_fields.
    - by rewrite fold_hear_snoc, Hf, Hs2. }
  destruct held as [h|].
  - eapply does_token; [exact H1|]. intros e2 H2. by eapply Hend.
  - eapply Hend; [exact H1|]. by rewrite app_nil_r.
Qed.
(** The end of the reply: what was held back, or the final message. *)
Lemma does_status taskId contextId state message metadata sent held seen e :
  stands sent held (said sent) (seen ++ [AeStatus taskId contextId state message metadata]) e ->
  fold_left hear seen ([], None) = (sent, held) -> present (en_connected e) = true ->
  does e (onTurnEvent k (AeStatus taskId contextId state message metadata)) spoke.
Proof.
  intros He Hf Hco. pose proof He as (Hb & Hl & t & Ht & Hse & Hh & Hsp).
  set (all := seen ++ _) in *. unfold onTurnEvent. apply does_read. rewrite Ht.
  destruct (ends_utterance state) eqn:Hends; cbn [negb].
  2: { apply does_ret, (stands_spoke sent held all e He). unfold all. rewrite fold_hear_snoc, Hf. cbn. by rewrite Hends. }
  set (final := match tn_held t with Some h => h | None => default [] message end).
  assert (forall e1 sent1, stands sent1 None (said sent1) all e1 ->
    sent1 = (match final with
             | [] => match said sent with [] => sent | _ => sent ++ [([], true)] end
             | _ => sent ++ [(final, true)]
             end) ->
    does e1 (reply_is_spoken k) spoke) as Hend.
  { intros e1 sent1 H1 Hs1. apply does_act. assert (spoke e1) as Hsp1.
    - apply (stands_spoke sent1 None all e1 H1). unfold all. rewrite fold_hear_snoc, Hf. cbn [hear].
      rewrite Hends, <- Hh. fold final. rewrite Hs1. by destruct final.
    - destruct (en_turns e1 !! k) as [t1|]; [destruct (tn_spoken t1)|]; exact Hsp1. }
  clearbody all.
  assert (forall e1, stands sent held (said sent) all e1 ->
    does e1 (act (upd_turn k (set_held None)) ;;;
             match final with
             | [] => match tn_spoken t with [] => ret | _ => send (AcSay (Some k) [] true) end
             | _ => send (AcSay (Some k) final true) ;;; act (after_token k final)
             end ;;; reply_is_spoken k) spoke) as Hgo.
  { intros e1 H1. apply does_act_then. set (e2 := upd_turn _ _ e1).
    assert (stands sent None (said sent) all e2) as H2 by (eapply stands_upd; [exact H1|turn_fields]). clearbody e2.
    rewrite Hsp. destruct final as [|c text] eqn:Hfin; [destruct (said sent) eqn:Hsaid|].
    - eapply does_then; [apply does_ret, H2|]. intros e3 H3. eapply Hend; [by rewrite Hsaid|done].
    - apply does_send_then; [done|]. intros e3 H3. eapply (Hend _ (sent ++ [([], true)])); [|done].
      rewrite said_snoc, app_nil_r, Hsaid. eapply stands_others, H3. by apply stands_say.
    - eapply does_token; [exact H2|]. intros e3 H3. by eapply Hend. }
  rewrite Hco, andb_false_r. eapply (does_then _ _ _ _ _ _ (stands sent held (said sent) all)); [|exact Hgo].
  destruct (asks_operator state taskId); [by apply does_act|by apply does_ret].
Qed.

(** *** Its stream *)

Lemma spoke_upd f e : (forall t, kept t (f t)) -> spoke e -> spoke (upd_turn k f e).
Proof.
  intros Hf [Hb Hs]. split; [by apply bounded_alter|]. cbn [en_turns upd_turn set_turns].
  rewrite lookup_alter_eq. destruct (en_turns e !! k) as [t|]; [|done]. cbn [fmap option_fmap option_map].
  destruct (Hf t) as (-> & -> & -> & _ & Hd). intros Hn. apply Hs. destruct (tn_dropped t); [|done].
  by rewrite Hd in Hn.
Qed.

(** A field of the engine the turn does not depend on. *)
Lemma spoke_quiet e e' : en_log e' = en_log e -> en_turns e' = en_turns e -> en_seq e' = en_seq e -> spoke e -> spoke e'.
Proof.
  intros Hl Ht Hq [Hb Hs]. split; [|by rewrite Ht, Hl]. intros j. rewrite Ht, Hq. apply Hb.
Qed.

Lemma spoke_over e : spoke e -> spoke (upd_turn k set_over e).
Proof.
  intros [Hb Hs]. split; [by apply bounded_alter|]. cbn [en_turns upd_turn set_turns].
  rewrite lookup_alter_eq. by destruct (en_turns e !! k) as [t|].
Qed.

Lemma does_finish e : spoke e -> does e (finish_turn k) spoke.
Proof.
  intros He. apply does_act. cbv beta zeta. set (e1 := if decide _ then _ else _).
  assert (spoke e1) as H1 by (unfold e1; case_decide; [by eapply spoke_quiet|done]).
  assert (spoke (upd_turn k set_over e1)) as H2 by by apply spoke_over.
  destruct (en_turns e !! k) as [t|]; [|done]. case_match; [done|]. by eapply spoke_quiet; [..|exact H2].
Qed.

Lemma does_apology text e : spoke e -> does e (speak text) spoke.
Proof.
  intros He. apply does_act_then, does_send; [done|]. intros e' He'. eapply spoke_others; [|exact He'].
  eapply spoke_others; [exact He|]. split; [apply He|]. apply KeptFrame_same; [|done..].
  cbn [en_log perform set_log set_lastReply]. by rewrite sent_tokens_app, app_nil_r.
Qed.

Lemma does_event event t e : stands (tokens k (en_log e)) (tn_held t) (tn_spoken t) (tn_seen t ++ [event]) e ->
  fold_left hear (tn_seen t) ([], None) = (tokens k (en_log e), tn_held t) ->
  tn_spoken t = said (tokens k (en_log e)) -> present (en_connected e) = true ->
  does e (onTurnEvent k event) spoke.
Proof.
  intros Hst Hf Hsp Hco. rewrite Hsp in Hst.
  assert (hear (tokens k (en_log e), tn_held t) event = (tokens k (en_log e), tn_held t) -> spoke e) as Hsame.
  { intros Hh. eapply stands_spoke; [exact Hst|]. by rewrite fold_hear_snoc, Hf. }
  destruct event as [task|taskId ? state message ?|? [|c text]|].
  - destruct Hst as (Hb & _ & u & Hu & _). unfold onTurnEvent. apply does_read. rewrite Hu. apply does_act.
    apply spoke_upd; [done|by apply Hsame].
  - by eapply does_status.
  - destruct Hst as (Hb & _ & u & Hu & _). unfold onTurnEvent. apply does_read. rewrite Hu. by apply does_ret, Hsame.
  - by eapply does_artifact.
  - destruct Hst as (Hb & _ & u & Hu & _). unfold onTurnEvent. apply does_read. rewrite Hu. by apply does_ret, Hsame.
Qed.

Lemma does_forward s t e : spoke e -> en_turns e !! k = Some t ->
  (tn_dropped t = false -> present (en_connected e) = true) -> does e (forward k s) spoke.
Proof.
  intros He Ht Hco. unfold forward. apply does_read. rewrite Ht. pose proof He as [Hb Hs]. rewrite Ht in Hs.
  destruct s as [event| |]; [|by apply does_finish|].
  - apply does_act_then. destruct (tn_dropped t) eqn:Hd.
    + apply does_ret. split; [by apply bounded_alter|]. cbn [en_turns upd_turn set_turns].
      rewrite lookup_alter_eq, Ht. cbn. by rewrite Hd.
    + destruct (Hs eq_refl) as [Hf Hsp]. apply (does_event event t); [|done|done|by apply Hco].
      apply (stands_upd (see event) (tokens k (en_log e)) (tn_held t) (tn_spoken t) (tn_seen t)); [|turn_fields].
      split_and!; [done..|]. by exists t.
  - destruct (tn_dropped t).
    + eapply does_then; [by apply does_ret, He|]. apply does_finish.
    + eapply does_then; [by apply does_apology|]. apply does_finish.
Qed.
End Speech.
