(* ===== verification/PhoneCalls.v ===== *)
(** A whole call keeps its promises: its main function, run against
    whatever timers, streams and detached calls do meanwhile, never reads
    what is not there, and never has two turns speaking. *)

From S2P Require Import Prelude A2A A2AClient SessionId PhoneRegistry PhonePicker PhoneEngine PhoneFrames PhoneTriples.
From S2P Require Import PhoneDemo PhoneStates PhoneSpeech.
#[local] Open Scope nat_scope.
#[local] Open Scope cmd_scope.

Section Main.
Context {St : Type} `{!PhoneStatePort St} (options : EngineOptions St).
Context (toLowerCase : jstr -> jstr) (letter_or_number : N -> bool) (sha1 : list N -> list N) (iso : Z -> jstr).
Implicit Types (e : engine (St := St)) (r : running (St := St)).

#[local] Abbreviation does := (does wellformed Steady (tame Steady)).

(** Ended, with nothing forwarded any more. *)
Definition ended e : Prop := wellformed e /\ en_state e = Ending /\ hushed e /\ en_keyFlush e = false.
(** Between turns: connected, or about to be. *)
Definition between e : Prop := wellformed e /\ en_state e = Connected_ /\ hushed e /\ en_keyFlush e = false.

Lemma between_kept e e' : between e -> wellformed e' -> kept_state e e' -> between e'.
Proof. intros (_ & Hs & Hh & Hf) Hw []. split_and!; [done|congruence|auto..]. Qed.

Lemma main_send e a (Q : engine -> Prop) : wellformed e -> a <> AcTypeError ->
  (forall e', wellformed e' -> kept_state e e' -> Q e') -> does e (send a) Q.
Proof.
  intros He Ha HQ. assert (calm e (perform a e)) as Hc by by apply calm_perform.
  destruct (calm_steady _ _ Hc He) as [Hw Hk1]. apply does_send; [done|]. intros e' He'.
  destruct (He' Hw) as [Hw' Hk2]. apply HQ; [done|]. by destruct (transitivity (calm_steady _ _ Hc) He' He).
Qed.

Lemma main_then e c1 c2 (Q1 Q2 : engine -> Prop) : does e c1 Q1 -> (forall e', Q1 e' -> does e' c2 Q2) ->
  does e (c1 ;;; c2) Q2.
Proof. apply does_then. Qed.

Lemma main_speak e text (Q : engine -> Prop) : wellformed e ->
  (forall e', wellformed e' -> kept_state e e' -> Q e') -> does e (speak text) Q.
Proof.
  intros He HQ. apply does_act_then.
  assert (calm e (set_lastReply text e)) as Hc by by constructor. destruct (calm_steady _ _ Hc He) as [Hw Hk].
  apply main_send; [done|done|]. intros e' Hw' []. by apply HQ.
Qed.

Lemma main_send_then e a c Q : wellformed e -> a <> AcTypeError ->
  (forall e', wellformed e' -> kept_state e e' -> does e' c Q) -> does e (send a ;;; c) Q.
Proof.
  intros He Ha Hc. apply (main_then _ _ _ (fun e' => wellformed e' /\ kept_state e e')); [by apply main_send|].
  intros e' [Hw Hk]. by apply Hc.
Qed.

Lemma main_speak_then e text c Q : wellformed e ->
  (forall e', wellformed e' -> kept_state e e' -> does e' c Q) -> does e (speak text ;;; c) Q.
Proof.
  intros He Hc. apply (main_then _ _ _ (fun e' => wellformed e' /\ kept_state e e')); [by apply main_speak|].
  intros e' [Hw Hk]. by apply Hc.
Qed.

Lemma main_alert_then e a c Q : wellformed e ->
  (forall e', wellformed e' -> kept_state e e' -> does e' c Q) -> does e (alert a ;;; c) Q.
Proof. intros. by apply main_send_then. Qed.

Lemma main_say e text : wellformed e -> does e (speak text) wellformed.
Proof. intros He. by apply main_speak. Qed.

(** *** Ending *)

Lemma main_hangup reason e : wellformed e -> en_state e <> Ending ->
  does e (hangup reason) (fun e' => ended e' /\ en_call e' = en_call e).
Proof.
  intros He Hs. unfold hangup. apply does_read. rewrite decide_False by done. apply does_act_then.
  set (e1 := set_choosingReplay _ _).
  assert (wellformed e1) as H1 by (destruct He; by constructor).
  assert (en_state e1 = Ending /\ en_keyFlush e1 = false /\ en_call e1 = en_call e) as (Hs1 & Hf1 & Hc1) by done.
  clearbody e1.
  apply (main_then _ _ _ (fun e' => wellformed e' /\ en_state e' = Ending /\ en_keyFlush e' = false /\
    en_call e' = en_call e)).
  - destruct (en_connected e) as [c|]; [|by apply does_ret]. destruct (en_call e) as [call|]; [|by apply does_ret].
    apply does_act_then, main_send; [|done|].
    + eapply wellformed_calm; [|exact H1]. by constructor.
    + intros e' Hw Hk. split_and!; [done|by rewrite (ks_state _ _ Hk)|by apply (ks_flush _ _ Hk)|by rewrite (ks_call _ _ Hk)].
  - intros e2 (H2 & Hs2 & Hf2 & Hc2). apply does_act.
    set (e3 := match en_turn e2 with Some k => _ | None => _ end).
    assert (wellformed e3 /\ hushed e3 /\ en_state e3 = Ending /\ en_keyFlush e3 = false /\ en_call e3 = en_call e)
      as (H3 & Hh3 & Hs3 & Hf3 & Hc3).
    { unfold e3. destruct (en_turn e2) as [k|] eqn:Hk.
      - split_and!; [|by apply hushed_drop|done..].
        apply steady_upd; [by intros t; rewrite speaking_dropped|done].
      - split_and!; [done| |done..]. apply hushed_current; [done|]. intros k t Hk'. congruence. }
    clearbody e3. split; [|done]. split_and!; [|done..]. destruct H3. constructor; try done.
    + cbn. congruence.
    + intros j t Hj Hsp. by rewrite (Hh3 j t Hj) in Hsp.
Qed.

Lemma main_end reason e : wellformed e -> does e (hangup reason) wellformed.
Proof.
  intros He. destruct (decide (en_state e = Ending)) as [Hs|Hs].
  - unfold hangup. apply does_read. rewrite decide_True by done. by apply does_ret.
  - eapply does_weaken; [by apply main_hangup|]. by intros e' [[] _].
Qed.
(** *** Connecting *)

Lemma main_stream_on agent taskId e : between e -> does e (stream_on agent taskId) wellformed.
Proof.
  intros (He & Hs & Hh & _). apply does_act. eapply (wellformed_open e); try done.
  - exact (wf_connected _ He Hs).
  - cbn. intros [H|H]%elem_of_app; [by apply wf_log in H|by apply list_elem_of_singleton in H].
Qed.

Lemma main_pickUp agent taskId e : between e -> does e (pickUp agent taskId) wellformed.
Proof.
  intros He. unfold pickUp, fetchTask.
  assert (calm e (perform (AcGetTask (pa_name agent) taskId) e)) as Hc by by apply calm_perform.
  destruct (calm_steady _ _ Hc (proj1 He)) as [Hw Hk]. apply does_await; [done|].
  intros r e1 Hr. destruct (Hr Hw) as [H1 Hk1]. assert (between e1) as Hb.
  { eapply between_kept; [|exact H1|exact Hk1]. by eapply between_kept. }
  clear Hr. destruct (match r with AnsTask t => Some t | _ => None end) as [task|]; [|by apply does_ret].
  destruct (fst <$> at_status task) as [[]|]; try (by apply does_ret).
  - apply main_speak_then; [done|]. intros e2 H2 Hk2. apply main_stream_on. by eapply between_kept.
  - apply main_speak_then; [done|]. intros e2 H2 Hk2. apply main_stream_on. by eapply between_kept.
  - destruct (taskText task); [by apply does_ret|]. apply does_act_then, main_say.
    eapply wellformed_calm; [|exact H1]. by constructor.
  - by apply main_say.
  - apply does_read. destruct Hb as (_ & Hs & _). pose proof (wf_connected _ H1 Hs) as Hco.
    destruct (en_connected e1) as [c|] eqn:Hcon; [|done]. apply does_act_then, main_say.
    eapply wellformed_calm; [|exact H1]. constructor; try done. by rewrite Hcon.
Qed.

Lemma main_connect agent previous e : wellformed e -> en_state e = Choosing ->
  does e (connect options sha1 iso agent previous) wellformed.
Proof.
  intros He Hs. unfold connect. apply does_read. cbv beta.
  assert (present (en_call e) = true) as Hc by (apply wf_call; congruence).
  destruct (en_call e) as [call|] eqn:Hcall; [|done]. cbv zeta. apply does_act_then. set (e1 := set_state Connected_ _).
  assert (between e1) as H1.
  { assert (hushed e) as Hh by (apply (wf_hushed _ He); congruence).
    split_and!; [|done|exact Hh|apply (wf_flush _ He); congruence].
    constructor; try done; try apply He; cbn; [by rewrite Hcall|]. intros j t Hj Hsp. by rewrite (Hh j t Hj) in Hsp. }
  assert (present (en_call e1) = true) as Hc1 by (cbn; by rewrite Hcall). clearbody e1.
  apply main_alert_then; [apply H1|]. intros e2 H2 Hk2.
  assert (between e2) as Hb2 by by eapply between_kept.
  assert (present (en_call e2) = true) as Hc2 by by rewrite (ks_call _ _ Hk2).
  assert (forall e3, between e3 -> does e3
    (speak (match previous with
            | None => js "Connected to " ++ pa_spokenName agent ++ js "."
            | Some _ => js "Resuming with " ++ pa_spokenName agent ++ js "."
            end) ;;;
     match previous ≫= ph_runningTaskId with Some taskId => pickUp agent taskId | None => ret end) wellformed) as Hrest.
  { intros e3 Hb3. apply main_speak_then; [apply Hb3|]. intros e4 H4 Hk4.
    destruct (previous ≫= ph_runningTaskId); [|by apply does_ret]. apply main_pickUp. by eapply between_kept. }
  destruct (eo_warmUp options).
  - pose proof (steady_warm iso agent (match previous with Some p => ph_contextId p
      | None => phoneSessionId sha1 (pa_name agent) (ca_callSid call) end) e2 Hc2) as [Hg Ht].
    apply does_fork_then; [done|]. apply Hrest. destruct (Hg H2). by eapply between_kept.
  - eapply main_then; [by apply does_ret, Hb2|]. exact Hrest.
Qed.

(** *** Choosing *)

Lemma main_choose agent e : wellformed e -> en_state e = Choosing -> does e (choose options sha1 iso agent) wellformed.
Proof.
  intros He Hs. unfold choose. apply does_read.
  destruct (sessionFor (pa_name agent) (en_store e)) as [previous|]; [|by apply main_connect].
  case_match; [|by apply main_connect]. apply does_act_then. set (e1 := set_resumeOffer _ e).
  assert (wellformed e1) as H1 by (eapply wellformed_calm; [|exact He]; by constructor). clearbody e1.
  unfold taskSince. destruct (either _ _) as [taskId|]; [|by apply main_say].
  assert (calm e1 (perform (AcGetTask (pa_name agent) taskId) e1)) as Hc by by apply calm_perform.
  destruct (calm_steady _ _ Hc H1) as [Hw _]. apply does_await; [done|].
  intros r e2 Hr. destruct (Hr Hw) as [H2 _]. by apply main_say.
Qed.
Lemma main_name_heard text e : wellformed e -> en_state e = Choosing ->
  does e (name_heard options toLowerCase letter_or_number sha1 iso text) wellformed.
Proof.
  intros He Hs. unfold name_heard. case_match; [by apply main_choose|]. case_match; [|by apply main_say].
  apply does_act_then, main_say. eapply wellformed_calm; [|exact He]. by constructor.
Qed.

Lemma main_choose_session text e : wellformed e -> en_state e = Choosing ->
  does e (choose_session options toLowerCase letter_or_number sha1 iso text) wellformed.
Proof.
  intros He Hs. unfold choose_session. apply does_read. destruct (en_resumeOffer e) as [[agent session]|].
  - assert (wellformed (set_resumeOffer None e)) as H1 by (eapply wellformed_calm; [|exact He]; by constructor).
    case_match; [by apply does_act_then, main_connect|]. case_match; [by apply does_act_then, main_connect|].
    by apply main_say.
  - unfold choose_named. destruct (eo_agents options) as [|only [|? ?]]; [by apply main_name_heard| |by apply main_name_heard].
    case_match; [by apply main_choose|by apply main_name_heard].
Qed.

Lemma main_onChoice text e : wellformed e -> en_state e = Choosing ->
  does e (onChoice options toLowerCase letter_or_number sha1 iso text) wellformed.
Proof.
  intros He Hs. unfold onChoice. apply does_act_then, does_read.
  assert (wellformed (set_choosingReplay false e)) as H1 by (eapply wellformed_calm; [|exact He]; by constructor).
  cbn [en_confirmOffer set_choosingReplay]. destruct (en_confirmOffer e) as [agent|]; [|by apply main_choose_session].
  apply does_act_then. assert (wellformed (set_confirmOffer None (set_choosingReplay false e))) as H2.
  { eapply wellformed_calm; [|exact H1]. by constructor. }
  case_match; [by apply main_choose|]. case_match; [by apply main_say|by apply main_choose_session].
Qed.

(** *** Authenticating *)

(** A state nothing is promised of beyond what every state promises. *)
Lemma wellformed_state s e : wellformed e -> s = Ending \/ s = Authenticating \/ s = Choosing ->
  present (en_call e) = true -> en_keyFlush e = false -> s = Ending \/ hushed e -> wellformed (set_state s e).
Proof.
  intros [] Hs Hc Hf Hh. constructor; try done; cbn.
  - by destruct Hs as [->|[->| ->]].
  - intros _ Hne. by destruct Hh.
Qed.

Lemma wellformed_ending e : wellformed e -> en_keyFlush e = false -> wellformed (set_state Ending e).
Proof. intros [] Hf. by constructor. Qed.

Lemma main_refuse e reason : wellformed e -> en_keyFlush e = false ->
  does e (act (set_state Ending) ;;; send (AcEnd reason)) wellformed.
Proof. intros He Hf. apply does_act_then, main_send; [by apply wellformed_ending|done|done]. Qed.

Lemma main_onSetup callSid from to direction e : wellformed e -> en_state e = Idle ->
  does e (onSetup options callSid from to direction) wellformed.
Proof.
  intros He Hs. unfold onSetup. apply does_act_then, does_read. set (e1 := set_call _ e).
  assert (hushed e1 /\ en_keyFlush e1 = false /\ present (en_call e1) = true) as (Hh & Hf & Hc).
  { split_and!; [apply (wf_hushed _ He); congruence|apply (wf_flush _ He); congruence|done]. }
  assert (wellformed e1) as H1 by (destruct He; by constructor). clearbody e1.
  case_match; [|case_match].
  - apply main_alert_then; [done|]. intros e2 H2 Hk. apply main_refuse; [done|by apply (ks_flush _ _ Hk)].
  - apply main_alert_then; [done|]. intros e2 H2 Hk. apply main_refuse; [done|by apply (ks_flush _ _ Hk)].
  - apply does_act, wellformed_state; auto.
Qed.

Lemma main_record_failure from k e : wellformed e -> en_keyFlush e = false ->
  (forall locked e', wellformed e' -> does e' (k locked) wellformed) ->
  does e (record_failure options from k) wellformed.
Proof.
  intros He Hf Hk. unfold record_failure. apply does_read. destruct (eo_lockout options) as [l|]; [|by apply Hk].
  destruct (lk_failedCall _ _ _ _) as [locked store]. apply does_act_then, Hk.
  eapply (wellformed_calm (set_store store e)); [by apply calm_perform|]. eapply wellformed_calm; [|exact He]. by constructor.
Qed.

Lemma main_onPinEntered e : wellformed e -> en_state e = Authenticating -> does e (onPinEntered options) wellformed.
Proof.
  intros He Hs. unfold onPinEntered. apply does_read.
  assert (present (en_call e) = true) as Hc by (apply wf_call; congruence).
  destruct (en_call e) as [call|] eqn:Hcall; [|done]. apply does_act_then. set (e1 := perform _ _).
  assert (wellformed e1) as H1.
  { eapply (wellformed_calm (set_pin [] e)); [by apply calm_perform|]. eapply wellformed_calm; [|exact He]. by constructor. }
  assert (en_state e1 = Authenticating) as Hs1 by done.
  assert (hushed e1 /\ en_keyFlush e1 = false /\ present (en_call e1) = true) as (Hh & Hf & Hc1).
  { split_and!; [apply (wf_hushed _ H1); congruence|apply (wf_flush _ H1); congruence|by cbn; rewrite Hcall]. }
  clearbody e1. destruct (eo_verifyPin _ _).
  - apply does_act_then, main_say, wellformed_state; auto. eapply wellformed_calm; [|exact H1]. by constructor.
  - apply does_act_then, does_read, main_alert_then.
    { eapply wellformed_calm; [|exact H1]. by constructor. }
    intros e2 H2 Hk. case_match; [|by apply main_say]. apply does_act_then, main_record_failure.
    + apply wellformed_ending; [done|by apply (ks_flush _ _ Hk)].
    + by apply (ks_flush _ _ Hk).
    + intros locked e3 H3. apply (main_then _ _ _ wellformed).
      * destruct locked; [by apply main_send|by apply does_ret].
      * intros e4 H4. apply main_speak_then; [done|]. intros e5 H5 _. by apply main_send.
Qed.

Lemma main_onPinDigit digit e : wellformed e -> en_state e = Authenticating -> does e (onPinDigit options digit) wellformed.
Proof.
  intros He Hs. unfold onPinDigit. case_match.
  - apply does_read. destruct (en_pin e); [by apply does_ret|by apply main_onPinEntered].
  - apply does_act_then, does_read.
    assert (wellformed (set_pin (en_pin e ++ digit) e)) as H1 by (eapply wellformed_calm; [|exact He]; by constructor).
    case_match; [by apply does_ret|by apply main_onPinEntered].
Qed.

(** *** Connected *)

Lemma main_startTurn text kind e : wellformed e -> en_state e = Connected_ -> does e (startTurn iso text kind) wellformed.
Proof.
  intros He Hs. destruct (startTurn_starts iso text kind e He Hs) as (H1 & _).
  unfold PhoneTriples.does. pose proof (startTurn_forks iso text kind e) as Hf.
  destruct (startTurn iso text kind e) as [e1 p]. cbn [fst snd] in *.
  destruct Hf as [->|(d & -> & Hd)]; [by constructor|]. constructor; [done|by constructor].
Qed.

Lemma main_cancelTask taskId e : wellformed e -> does e (cancelTask taskId) wellformed.
Proof.
  intros He. unfold cancelTask. apply does_read. destruct (en_connected e); [|by apply does_ret].
  by apply main_send.
Qed.

Lemma main_onUtterance text e : wellformed e -> en_state e = Connected_ ->
  does e (onUtterance options toLowerCase letter_or_number sha1 iso text) wellformed.
Proof.
  intros He Hs. unfold onUtterance. apply does_read. cbv zeta.
  destruct (is_one_of GOODBYE _).
  { apply main_speak_then; [done|]. intros e1 H1 _. apply main_send_then; [done..|]. intros e2 H2 _. by apply main_end. }
  destruct (switching _) as [target|].
  { eapply main_then; [apply main_hangup; congruence|]. intros e1 [(H1 & Hs1 & Hh1 & Hf1) Hc1]. apply does_act_then.
    assert (wellformed (set_state Choosing e1)) as H2.
    { apply wellformed_state; auto. rewrite Hc1. apply wf_call; congruence. }
    destruct target; [by apply main_onChoice|by apply main_say]. }
  case_match; [by apply main_say|]. case_match; [by apply main_say|]. case_match; [by apply main_say|].
  apply does_act_then. assert (wellformed (set_interruptedAt None e)) as Hw.
  { eapply wellformed_calm; [|exact He]. by constructor. }
  destruct (en_interruptedAt e); by apply main_startTurn.
Qed.

Lemma main_onInterrupt heard e : wellformed e -> does e (onInterrupt heard) wellformed.
Proof.
  intros He. unfold onInterrupt. apply does_read. destruct (undropped e) as [[k t]|]; [|by apply does_ret].
  apply does_act_then. assert (wellformed (set_interruptedAt (Some heard) (upd_turn k set_dropped e))) as H1.
  { eapply (wellformed_calm (upd_turn k set_dropped e)); [by constructor|].
    apply steady_upd; [by intros u; rewrite speaking_dropped|done]. }
  destruct (tn_taskId t); [by apply main_cancelTask|by apply does_ret].
Qed.

(** Every frame, in every state. *)
Lemma main_handle event e : wellformed e ->
  does e (handle options toLowerCase letter_or_number sha1 iso event) wellformed.
Proof.
  intros He. unfold handle. apply does_read. destruct (en_state e) eqn:Hs, event; try (by apply does_ret).
  - by apply main_onSetup.
  - by apply main_onPinDigit.
  - destruct final; [by apply main_onChoice|by apply does_ret].
  - apply does_act. eapply wellformed_calm; [|exact He]. by constructor.
  - cbn. destruct final; [by apply main_onUtterance|by apply does_ret].
  - apply does_act. destruct He. by constructor.
  - by apply main_onInterrupt.
Qed.

Lemma main_arrival a e : wellformed e ->
  does e (on_arrival options toLowerCase letter_or_number sha1 iso a) wellformed.
Proof. destruct a; [by apply main_handle|by apply main_end]. Qed.

(** ** The whole call *)

#[local] Abbreviation happen := (happen options toLowerCase letter_or_number sha1 iso).
#[local] Abbreviation play := (play options toLowerCase letter_or_number sha1 iso).

Record sound (r : running (St := St)) : Prop := mkSound {
  so_engine : wellformed (ru_engine r);
  so_main : runs wellformed Steady (tame Steady) wellformed (ru_engine r) (ru_main r);
  so_detached : Forall (tame Steady) (ru_detached r);
  so_turns : forall k p, ru_turns r !! k = Some p -> tame Steady p }.

#[local] Abbreviation truns := (runs wellformed Steady (tame Steady) wellformed).

Lemma truns_wellformed e p : truns e p -> wellformed e.
Proof. by apply runs_invariant. Qed.

Lemma truns_rest e p : truns e p -> truns e (rest_of p) /\ Forall (tame Steady) (detached_of p).
Proof.
  induction 1 as [e He|e k Hi Hk _|e d q Hd Hq [IH1 IH2]]; cbn.
  1,2: (split; [by constructor|constructor]).
  split; [done|]. apply Forall_app; split; [by apply tame_parts|done].
Qed.

(** What the others do does not disturb the main function. *)
Lemma truns_steady e e' p : truns e p -> Steady e e' -> truns e' p.
Proof.
  intros Hp He. assert (wellformed e') as Hw by (apply He; by eapply truns_wellformed).
  induction Hp as [e H|e k Hi Hk _|e d q Hd Hq IH]; [by constructor| |constructor; [done|by apply IH]].
  constructor; [done|]. intros a e2 H2. apply Hk. by transitivity e'.
Qed.

Lemma sound_main c now queue r : sound r -> (forall e, wellformed e -> does e c wellformed) \/
  (exists k a, ru_main r = Await k /\ c = k a) -> sound (run_main c now queue r).
Proof.
  intros [Hw Hm Hd Ht] Hc.
  assert (truns (c (set_now now (ru_engine r))).1 (c (set_now now (ru_engine r))).2) as Hr.
  { assert (Steady (ru_engine r) (set_now now (ru_engine r))) as Hn by (apply calm_steady; by constructor).
    destruct Hc as [Hc|(k & a & Hk & ->)]; [apply Hc, Hn, Hw|].
    rewrite Hk in Hm. inversion Hm; subst. auto. }
  unfold run_main. destruct (c _) as [e p]. destruct (truns_rest _ _ Hr) as [Hr1 Hr2].
  constructor; cbn [ru_engine ru_main ru_detached ru_turns]; [by eapply truns_wellformed|done|by apply Forall_app|done].
Qed.

Lemma sound_beside r e detached turns queue : sound r -> Steady (ru_engine r) e -> Forall (tame Steady) detached ->
  (forall k p, turns !! k = Some p -> tame Steady p) -> sound (mkRunning e (ru_main r) queue detached turns).
Proof. intros [Hw Hm Hd Ht] He Hd' Ht'. constructor; cbn; [by apply He|by eapply truns_steady|done..]. Qed.

Lemma sound_detached c now others r : sound r -> Forall (tame Steady) others ->
  always_at Steady (set_now now (ru_engine r)) c -> sound (run_detached c now others r).
Proof.
  intros Hr Ho [Hg Hp]. unfold run_detached. destruct (c _) as [e p]. cbn [fst snd] in *. apply sound_beside; [done| | |apply Hr].
  - etransitivity; [|exact Hg]. apply calm_steady; by constructor.
  - apply Forall_app; split; [done|by apply tame_parts].
Qed.

Lemma sound_turn k c now r : sound r -> always_at Steady (set_now now (ru_engine r)) c -> sound (run_turn k c now r).
Proof.
  intros Hr [Hg Hp]. unfold run_turn. destruct (c _) as [e p]. cbn [fst snd] in *. apply sound_beside; [done| | |].
  - etransitivity; [|exact Hg]. apply calm_steady; by constructor.
  - apply Forall_app; split; [apply Hr|by apply tame_detached].
  - intros j q. destruct (over (rest_of p)); [rewrite lookup_delete_Some|rewrite lookup_insert_Some].
    + intros [_ Hq]. by eapply so_turns.
    + intros [[_ <-]|[_ Hq]]; [by apply tame_rest|by eapply so_turns].
Qed.

Lemma sound_happen h r r' : sound r -> happen h r = Some r' -> sound r'.
Proof.
  intros Hr. pose proof Hr as [Hw Hm Hd Ht]. destruct h; cbn [PhoneEngine.happen].
  - intros [= <-]. by constructor.
  - destruct (ru_main r), (ru_queue r); try done. intros [= <-]. apply sound_main; [done|]. left. intros e. apply main_arrival.
  - destruct (ru_main r) eqn:Hmain; try done. intros [= <-]. apply sound_main; [done|]. right. by repeat eexists.
  - destruct (ru_detached r !! i) as [[]|] eqn:Hi; try done. intros [= <-].
    apply sound_detached; [done|by apply Forall_delete|]. apply tame_answer. rewrite Forall_lookup in Hd. by eapply Hd.
  - destruct (en_turns (ru_engine r) !! k) as [t|] eqn:Hk; [|done]. destruct (ru_turns r !! k); [done|].
    destruct (tn_live t) eqn:Hl; [|done]. intros [= <-]. apply sound_turn; [done|]. apply steady_forward.
    cbn. intros u Hu. congruence.
  - destruct (ru_turns r !! k) as [[]|] eqn:Hk; try done. intros [= <-].
    apply sound_turn; [done|]. apply tame_answer. by eapply Ht.
  - destruct (en_keyFlush (ru_engine r)) eqn:Hf; [|done]. intros [= <-]. apply sound_detached; [done..|]. by apply steady_key_flush.
  - case_match; [|done]. intros [= <-]. apply sound_detached; [done..|]. apply steady_choosing_replay.
Qed.

Lemma sound_new store : sound (new_call store).
Proof.
  assert (wellformed (new_engine store)) as H.
  { constructor; try done; cbn.
    all: first [apply not_elem_of_nil | intros j t; by rewrite lookup_empty | intros _ _ j t; cbn; by rewrite lookup_empty]. }
  constructor; cbn; [done|by constructor|constructor|]. intros k p. by rewrite lookup_empty.
Qed.

Lemma play_sound hs store r : play hs (new_call store) = Some r -> sound r.
Proof.
  enough (forall r0, sound r0 -> play hs r0 = Some r -> sound r) as H by (apply H, sound_new).
  induction hs as [|h hs IH]; cbn [PhoneEngine.play]; intros r0 Hr0; [by intros [= <-]|].
  intros Hp. apply bind_Some in Hp as (r1 & H1 & Hp). eapply IH; [|done]. by eapply sound_happen.
Qed.
End Main.
