(* ===== verification/PhoneTurns.v ===== *)
(** The properties of a call's turns: nothing undefined is read, the current
    turn alone speaks and never once dropped, and what it says is its
    agent's text. *)

From S2P Require Import Prelude A2A A2AClient SessionId PhoneRegistry PhonePicker PhoneEngine PhoneFrames PhoneTriples.
From S2P Require Import PhoneDemo PhoneStates PhoneSpeech PhoneCalls.
#[local] Open Scope nat_scope.
#[local] Open Scope cmd_scope.

(** ** A stream says at most one thing per event *)

Section Mute.
Context {St : Type} `{!PhoneStatePort St} (k : nat).
Implicit Types e : engine (St := St).

Definition Mute e e' : Prop := tokens k (en_log e') = tokens k (en_log e).

#[export] Instance Mute_preorder : PreOrder Mute.
Proof. split; [by intros e|]. unfold Mute. intros e1 e2 e3. congruence. Qed.

Lemma mute_act f : (forall e, en_log (f e) = en_log e) -> always Mute (act f).
Proof. intros Hf. apply always_act. intros e. unfold Mute. by rewrite Hf. Qed.

Lemma mute_finish : always Mute (finish_turn k).
Proof. intros e. split; [|constructor]. unfold Mute, finish_turn, act. cbn. repeat case_match; done. Qed.

Lemma mute_reply : always Mute (reply_is_spoken k).
Proof. apply mute_act. intros e. by repeat case_match. Qed.

(** The part of a command that is left after its first stretch. *)
Definition then_mute e (c : cmd) : Prop := tame Mute (c e).2.

Lemma then_mute_ret e : then_mute e ret.
Proof. constructor. Qed.

Lemma then_mute_send e a : then_mute e (send a).
Proof. constructor; intros _ e'; cbn; [reflexivity|constructor]. Qed.

Lemma then_mute_read e c : then_mute e (c e) -> then_mute e (read c).
Proof. done. Qed.

Lemma then_mute_act e f c : then_mute (f e) c -> then_mute e (act f ;;; c).
Proof. done. Qed.

Lemma then_mute_then e c1 c2 : then_mute e c1 -> always Mute c2 -> then_mute e (c1 ;;; c2).
Proof.
  unfold then_mute, then_. destruct (c1 e) as [e1 p]. intros Hp Hc. by apply tame_continue; try apply _.
Qed.

Lemma then_mute_token e text last : then_mute e (send (AcSay (Some k) text last) ;;; act (after_token k text)).
Proof. apply then_mute_then; [apply then_mute_send|by apply mute_act]. Qed.

Lemma then_mute_event event e : then_mute e (onTurnEvent k event).
Proof.
  unfold onTurnEvent. apply then_mute_read. cbv beta. destruct (en_turns e !! k) as [t|]; [|constructor].
  destruct event as [task|taskId ? state message ?|? [|c text]|]; try constructor.
  - destruct (ends_utterance state); cbn [negb]; [|constructor]. cbv zeta.
    destruct (asks_operator state taskId && _); [constructor|].
    set (final := match tn_held t with Some held => held | None => default [] message end).
    assert (forall e1, then_mute e1 (act (upd_turn k (set_held None)) ;;;
      match final with
      | [] => match tn_spoken t with [] => ret | _ => send (AcSay (Some k) [] true) end
      | _ => send (AcSay (Some k) final true) ;;; act (after_token k final)
      end ;;; reply_is_spoken k)) as Hrest.
    { intros e1. apply then_mute_act, then_mute_then; [|apply mute_reply].
      destruct final; [|apply then_mute_token]. destruct (tn_spoken t); [apply then_mute_ret|apply then_mute_send]. }
    destruct (asks_operator state taskId); [apply then_mute_act|]; apply Hrest.
  - apply then_mute_act, then_mute_then; [|by apply mute_act].
    destruct (tn_held t); [apply then_mute_token|apply then_mute_ret].
Qed.

Lemma then_mute_forward s e : then_mute e (forward k s).
Proof.
  unfold forward. apply then_mute_read. cbv beta. destruct (en_turns e !! k) as [t|]; [|constructor].
  destruct s.
  - apply then_mute_act. destruct (tn_dropped t); [apply then_mute_ret|apply then_mute_event].
  - constructor.
  - apply then_mute_then; [|apply mute_finish]. destruct (tn_dropped t); [apply then_mute_ret|].
    apply then_mute_act, then_mute_send.
Qed.
(** A turn that has been dropped is drained without a word. *)
Lemma dropped_is_mute s t e : en_turns e !! k = Some t -> tn_dropped t = true -> Mute e (forward k s e).1.
Proof.
  intros Ht Hd. unfold forward, read. rewrite Ht, Hd. destruct s; [done|apply mute_finish|apply mute_finish].
Qed.
End Mute.

(** ** The whole call, for one turn *)

Section Turns.
Context {St : Type} `{!PhoneStatePort St} (options : EngineOptions St).
Context (toLowerCase : jstr -> jstr) (letter_or_number : N -> bool) (sha1 : list N -> list N) (iso : Z -> jstr).
Context (k : nat).
Implicit Types (e : engine (St := St)) (r : running (St := St)).

#[local] Abbreviation happen := (happen options toLowerCase letter_or_number sha1 iso).
#[local] Abbreviation play := (play options toLowerCase letter_or_number sha1 iso).
#[local] Abbreviation streams := (runs any (others k) unforked (spoke k)).

(** Everything else keeps the turn, and the turn's own stream ends where its
    tokens are its text. *)
Record follows r : Prop := mkFollows {
  fo_bounded : bounded (ru_engine r);
  fo_rest : tame_running (KeptFrame k) (fun j => j <> k) r;
  fo_turn : match ru_turns r !! k with
            | None => spoke k (ru_engine r)
            | Some p => streams (ru_engine r) p /\ tame (Mute k) p
            end }.

Lemma others_now now e : bounded e -> others k e (set_now now e).
Proof. intros Hb. split; [done|]. by apply KeptFrame_same. Qed.

Lemma streams_others e e' p : streams e p -> others k e e' -> streams e' p.
Proof.
  intros Hp Ho. inversion Hp as [? Hs|? c _ Hc|? ? ? []]; subst.
  - constructor. by eapply spoke_others.
  - constructor; [done|]. intros a e2 [Hb2 Hk2]. apply Hc. destruct Ho as [Hb Hk]. split; [done|]. by transitivity e'.
Qed.

Lemma streams_unforked e p : streams e p -> rest_of p = p /\ detached_of p = [].
Proof. destruct 1 as [| |? ? ? []]; done. Qed.

(** A stretch of the turn's own stream. *)
Lemma follows_turn c now r : follows r -> streams (c (set_now now (ru_engine r))).1 (c (set_now now (ru_engine r))).2 ->
  tame (Mute k) (c (set_now now (ru_engine r))).2 -> bounded (c (set_now now (ru_engine r))).1 -> follows (run_turn k c now r).
Proof.
  intros [Hb (Hm & Hd & Ht) Hf] Hs Hmute Hb'. unfold run_turn. destruct (c _) as [e p]. cbn [fst snd] in *.
  destruct (streams_unforked _ _ Hs) as [-> ->]. constructor; cbn [ru_engine ru_turns]; [done| |].
  - split_and!; cbn [ru_main ru_detached ru_turns]; [done|by rewrite app_nil_r|]. intros j q Hj.
    destruct (over p); [rewrite lookup_delete_ne by done|rewrite lookup_insert_ne by done]; by apply Ht.
  - destruct p; cbn [over].
    + rewrite lookup_delete_eq. by inversion Hs.
    + by rewrite lookup_insert_eq.
    + by rewrite lookup_insert_eq.
Qed.
Lemma sound_bounded r : sound r -> bounded (ru_engine r).
Proof. intros Hr j [t Ht]. by eapply (wf_bounded _ (so_engine _ Hr)). Qed.

Lemma run_main_turns c now queue r : ru_turns (run_main c now queue r) = ru_turns r.
Proof. unfold run_main. by destruct (c _). Qed.

Lemma run_detached_turns c now others r : ru_turns (run_detached c now others r) = ru_turns r.
Proof. unfold run_detached. by destruct (c _). Qed.

Lemma run_turn_turns j c now r : j <> k -> ru_turns (run_turn j c now r) !! k = ru_turns r !! k.
Proof.
  intros Hj. unfold run_turn. destruct (c _) as [e p]. cbn [ru_turns].
  destruct (over (rest_of p)); [by rewrite lookup_delete_ne|by rewrite lookup_insert_ne].
Qed.

(** Only its own stream resumes a stream. *)
Lemma happen_turns h r r' : turn_of h <> Some k -> happen h r = Some r' -> ru_turns r' !! k = ru_turns r !! k.
Proof.
  intros Hne. destruct h; cbn [PhoneEngine.happen turn_of] in *; repeat case_match; try done; intros [= <-];
    rewrite ?run_main_turns, ?run_detached_turns, ?run_turn_turns; congruence || done.
Qed.

(** Anything else that happens. *)
Lemma follows_rest h r r' : follows r -> turn_of h <> Some k -> happen h r = Some r' ->
  follows r' /\ tokens k (en_log (ru_engine r')) = tokens k (en_log (ru_engine r)).
Proof.
  intros [Hb Hr Hf] Hne Hh.
  assert (KeptFrame k (ru_engine r) (ru_engine r') /\ tame_running (KeptFrame k) (fun j => j <> k) r') as [Hk Hr'].
  { eapply tame_happen; [apply _| | | |exact Hr|exact Hh].
    - intros now [event|]; cbn [on_arrival]; [|apply at_always, always_hangup, _]. apply at_always, always_handle; [apply _|..].
      + intros e. by apply KeptFrame_same.
      + intros d ok e. apply KeptFrame_same; [|done..]. cbn [en_log perform set_log]. by rewrite sent_tokens_app, app_nil_r.
    - intros j s Hj. by apply KeptFrame_forward.
    - intros j Hj ->. by rewrite Hj in Hne. }
  destruct (Hk Hb) as (Hb' & Htok & _). split; [|done]. constructor; [done|done|].
  rewrite (happen_turns _ _ _ Hne Hh). destruct (ru_turns r !! k) as [p|] eqn:Hp; [|by eapply spoke_others].
  destruct Hf as [Hs Hm]. split; [|done]. by eapply streams_others.
Qed.

(** Its own stream: an event while it is idle, or the rest of one. *)
Lemma follows_own h r r' : sound r -> follows r -> turn_of h = Some k -> happen h r = Some r' ->
  follows r' /\
  (tokens k (en_log (ru_engine r')) = tokens k (en_log (ru_engine r)) \/
   exists t, en_turns (ru_engine r) !! k = Some t /\ speaking t = true).
Proof.
  intros Hr Hf Hk Hh. pose proof (sound_bounded _ (sound_happen _ _ _ _ _ _ _ _ Hr Hh)) as Hb'.
  destruct h; cbn [PhoneEngine.happen turn_of] in *; try done; injection Hk as ->.
  - destruct (en_turns (ru_engine r) !! k) as [t|] eqn:Ht; [|done]. destruct (ru_turns r !! k) as [p|] eqn:Hp; [done|].
    destruct (tn_live t) eqn:Hl; [|done]. injection Hh as <-.
    pose proof Hf as [Hb _ Hsp]. rewrite Hp in Hsp.
    assert (spoke k (set_now now (ru_engine r))) as Hs by (eapply spoke_others, others_now; done).
    assert (tn_dropped t = false -> present (en_connected (set_now now (ru_engine r))) = true) as Hco.
    { intros Hd. eapply (wf_turns _ (so_engine _ Hr)); [exact Ht|]. unfold speaking. by rewrite Hl, Hd. }
    pose proof (does_forward k s t _ Hs Ht Hco) as Hd. pose proof (then_mute_forward k s (set_now now (ru_engine r))) as Hm.
    split.
    + apply follows_turn; [done|exact Hd|exact Hm|]. unfold run_turn in Hb'. by destruct (forward k s _).
    + destruct (tn_dropped t) eqn:Hdr; [left|right; exists t; split; [done|]; unfold speaking; by rewrite Hl, Hdr].
      pose proof (dropped_is_mute k s t (set_now now (ru_engine r)) Ht Hdr) as Hmute. unfold run_turn.
      by destruct (forward k s _).
  - destruct (ru_turns r !! k) as [[|c|]|] eqn:Hp; try done. injection Hh as <-.
    pose proof Hf as [Hb _ Hsp]. rewrite Hp in Hsp. destruct Hsp as [Hs Hm].
    inversion Hs as [|? ? _ Hc|]; subst. inversion Hm as [|? Hg Ht|]; subst.
    specialize (Hc a _ (others_now now _ Hb)). split.
    + apply follows_turn; [done|exact Hc|apply Ht|]. unfold run_turn in Hb'. by destruct (c a _).
    + left. unfold run_turn. specialize (Hg a (set_now now (ru_engine r))). by destruct (c a _).
Qed.

Lemma follows_new store : follows (new_call store).
Proof.
  pose proof (sound_bounded _ (sound_new store)) as Hb. constructor; [done|split_and!; [constructor..|]|].
  - intros j p _ Hj. cbn [ru_turns new_call] in Hj. by rewrite lookup_empty in Hj.
  - cbn [ru_turns new_call]. rewrite lookup_empty. split; [done|]. cbn [en_turns ru_engine new_call new_engine].
    by rewrite lookup_empty.
Qed.

Lemma play_follows hs store r : play hs (new_call store) = Some r -> sound r /\ follows r.
Proof.
  enough (forall r0, sound r0 -> follows r0 -> play hs r0 = Some r -> sound r /\ follows r) as H.
  { apply H; [apply sound_new|apply follows_new]. }
  induction hs as [|h hs IH]; cbn [PhoneEngine.play]; intros r0 Hs0 Hf0; [by intros [= <-]|].
  intros Hp. apply bind_Some in Hp as (r1 & H1 & Hp). apply (IH r1); [by eapply sound_happen| |done].
  destruct (decide (turn_of h = Some k)); [by eapply follows_own|by eapply follows_rest].
Qed.

(** C31: What a turn says is what its agent wrote: for a turn that was not
    dropped, once its stream has brought a closing status, the tokens sent
    are exactly its artifact chunks in order, or the status's message when
    there were none, and only the last of them closes the utterance. This
    under every interleaving with frames, timers and the turns before. *)
Theorem turn_speaks_exactly hs store r t events taskId contextId state message metadata :
  play hs (new_call store) = Some r ->
  en_turns (ru_engine r) !! k = Some t -> tn_dropped t = false -> ru_turns r !! k = None ->
  tn_seen t = events ++ [AeStatus taskId contextId state message metadata] ->
  Forall (fun ev => goes_on ev = true) events -> ends_utterance state = true ->
  tokens k (en_log (ru_engine r)) = reply (omap chunk events) (default [] message).
Proof.
  intros Hp Ht Hd Hn Hs Hev He. destruct (play_follows _ _ _ Hp) as [_ [_ _ Hf]].
  rewrite Hn in Hf. destruct Hf as [_ Hf]. rewrite Ht in Hf. destruct (Hf Hd) as [Hfold _].
  rewrite Hs, hear_reply in Hfold by done. congruence.
Qed.

(** Only the current turn speaks: whatever happens, when a token of turn
    [k] goes out then [k] is the current turn, its stream is open and it has
    not been dropped by an interrupt, a newer utterance or a hangup. *)
Theorem only_current_turn_speaks hs store r h r' :
  play hs (new_call store) = Some r -> happen h r = Some r' ->
  tokens k (en_log (ru_engine r')) <> tokens k (en_log (ru_engine r)) ->
  en_turn (ru_engine r) = Some k /\ exists t, en_turns (ru_engine r) !! k = Some t /\ speaking t = true.
Proof.
  intros Hp Hh Hne. destruct (play_follows _ _ _ Hp) as [Hs Hf].
  destruct (decide (turn_of h = Some k)) as [Hk|Hk].
  - destruct (follows_own _ _ _ Hs Hf Hk Hh) as [_ [Heq|(t & Ht & Hsp)]]; [done|].
    split; [|by exists t]. by eapply (wf_turns _ (so_engine _ Hs)).
  - by destruct (follows_rest _ _ _ Hf Hk Hh).
Qed.

(** C32: No step of a call reads a field that is not there: a [TypeError] is
    never thrown, an authenticated call has its record, a connected one its
    agent, and at most one turn is still being forwarded. *)
Theorem call_state_is_sound hs store r : play hs (new_call store) = Some r ->
  let e := ru_engine r in
  (AcTypeError ∉ en_log e) /\
  (en_state e <> Idle -> en_state e <> Ending -> present (en_call e) = true) /\
  (en_state e = Connected_ -> present (en_connected e) = true) /\
  (forall i j t u, en_turns e !! i = Some t -> speaking t = true -> en_turns e !! j = Some u -> speaking u = true -> i = j).
Proof.
  intros Hp e. destruct (play_sound _ _ _ _ _ _ _ _ Hp) as [Hw _ _ _].
  split_and!; [apply Hw|apply Hw|apply Hw|]. intros i j t u Hi Hsi Hj Hsj.
  destruct (wf_turns _ Hw i t Hi Hsi), (wf_turns _ Hw j u Hj Hsj). congruence.
Qed.
End Turns.

(** ** One reply, heard to its end *)

Definition event (now : Z) (n : nat) (ev : A2AEvent) : list happening :=
  Streams 1 (StEvent ev) now :: repeat (StreamResumes 1 AnsDone now) n.

Definition the_chunks : list A2AEvent :=
  [AeTask (task_of (js "t1") TASK_STATE_WORKING []);
   AeArtifact (js "t1") (js "Two ") false false;
   AeArtifact (js "t1") (js "meetings.") true false].
Definition completed : A2AEvent := AeStatus (js "t1") [] TASK_STATE_COMPLETED None VUndef.

Definition hears_hearth : list happening :=
  asks_hearth ++ event 4 0 (AeTask (task_of (js "t1") TASK_STATE_WORKING []))
    ++ event 5 0 (AeArtifact (js "t1") (js "Two ") false false).
Definition heard_out : list happening :=
  hears_hearth ++ event 6 1 (AeArtifact (js "t1") (js "meetings.") true false) ++ event 7 1 completed.

Lemma turn_speaks_exactly_witness :
  let log := en_log (ru_engine (call_after heard_out)) in
  tokens 1 log = [(js "Two ", false); (js "meetings.", true)] /\
  tokens 1 log = reply (omap chunk the_chunks) [].
Proof.
  split; [evaluated|].
  refine (turn_speaks_exactly demo_options ascii_lower ascii_alnum no_sha1 as_number 1 heard_out new_registry
           (call_after heard_out) (default (new_turn 0 None hearth 0) (en_turns (ru_engine (call_after heard_out)) !! 1))
           the_chunks (js "t1") [] TASK_STATE_COMPLETED None VUndef _ _ _ _ _ _ _).
  - apply call_after_run. evaluated.
  - apply some_default. evaluated.
  - evaluated.
  - evaluated.
  - evaluated.
  - repeat constructor.
  - evaluated.
Defined.

Lemma only_current_turn_speaks_witness :
  let r := call_after hears_hearth in
  en_turn (ru_engine r) = Some 1 /\ exists t, en_turns (ru_engine r) !! 1 = Some t /\ speaking t = true.
Proof.
  apply (only_current_turn_speaks demo_options ascii_lower ascii_alnum no_sha1 as_number 1 hears_hearth new_registry
           (call_after hears_hearth) (Streams 1 (StEvent (AeArtifact (js "t1") (js "meetings.") true false)) 6)
           (call_after (hears_hearth ++ [Streams 1 (StEvent (AeArtifact (js "t1") (js "meetings.") true false)) 6]))).
  - apply call_after_run. evaluated.
  - transitivity (demo_run (hears_hearth ++ [Streams 1 (StEvent (AeArtifact (js "t1") (js "meetings.") true false)) 6])).
    + evaluated.
    + apply call_after_run. evaluated.
  - apply (bool_decide_unpack _). evaluated.
Defined.

Lemma call_state_is_sound_witness :
  let e := ru_engine (call_after heard_out) in
  en_state e = Connected_ /\ present (en_connected e) = true /\ (AcTypeError ∉ en_log e).
Proof.
  destruct (call_state_is_sound demo_options ascii_lower ascii_alnum no_sha1 as_number heard_out new_registry
              (call_after heard_out)) as (H1 & _ & H2 & _).
  - apply call_after_run. evaluated.
  - assert (en_state (ru_engine (call_after heard_out)) = Connected_) as Hs by evaluated.
    split_and!; [exact Hs|exact (H2 Hs)|exact H1].
Defined.
