(* ===== verification/PhoneFindings.v ===== *)
(** What the model shows of a call that its comments do not say: what is left
    of one agent's session in the next, and a task that is never cancelled. *)

From S2P Require Import Prelude A2A A2AClient SessionId PhoneRegistry PhonePicker PhoneEngine PhoneDemo PhoneTurns.
#[local] Open Scope nat_scope.

#[local] Abbreviation log_after hs := (en_log (ru_engine (call_after hs))).

Definition to_forge : list happening := says_ 10 2 (js "Switch to Forge.").
Definition to_forge_after_alert : list happening := says_ 10 3 (js "Switch to Forge.").

(** The operator talks over Hearth, moves to Forge, and Forge's first message
    quotes what Hearth had been saying: nothing clears [interruptedAt] but
    the next utterance that starts a turn. *)
Definition barge_in_then_switch : list happening :=
  hears_hearth ++ frame 8 1 (EvInterrupt (js "Your salary is")) ++ to_forge_after_alert ++ says_ 11 0 (js "Hello.").

Lemma interruption_follows_switch :
  present (demo_run barge_in_then_switch) = true /\
  sent_texts (log_after barge_in_then_switch) =
    [(js "hearth", js "What is on today?");
     (js "forge", js "[You were interrupted after saying: " ++ dq ++ js "Your salary is" ++ dq ++ js "] Hello.")].
Proof. split; evaluated. Qed.

(** Keys pressed for Hearth and not yet sent when the operator moves to Forge
    are sent to Forge, before those pressed for it: [hangup] cancels the
    timer and leaves the digits. *)
Definition keys_then_switch : list happening :=
  reaches_hearth ++ frame 8 0 (EvKey (js "4")) ++ to_forge_after_alert ++ frame 11 0 (EvKey (js "2")) ++ [KeysStop 13].

Lemma keys_follow_switch :
  present (demo_run keys_then_switch) = true /\
  sent_texts (log_after keys_then_switch) = [(js "forge", js "42")].
Proof. split; evaluated. Qed.

(** An utterance that comes before the stream has named its task drops the
    turn, and a drained event never sets [taskId]: the task is not
    cancelled, then or later. *)
Definition spoken_over_early : list happening :=
  asks_hearth ++ says_ 4 0 (js "No, tomorrow.") ++ event 5 0 (AeTask (task_of (js "t1") TASK_STATE_WORKING []))
    ++ says_ 6 0 (js "Never mind.") ++ says_ 7 3 (js "goodbye").

Lemma early_turn_never_cancelled :
  present (demo_run spoken_over_early) = true /\
  length (sent_texts (log_after spoken_over_early)) = 3 /\ cancelled (log_after spoken_over_early) = [].
Proof. split_and!; evaluated. Qed.

(** What Hearth finished while the operator was away is still told as missed
    when it is Forge that is asked. *)
Definition was_away : CallRegistry :=
  saveSession (mkPhoneSession (js "hearth") (js "c1") (js "CA0") 0 None (Some (js "t0"))) new_registry.
Definition resumes_then_switches : list happening :=
  rings ++ keyed 1 1 the_pin ++ says_ 2 0 (js "Hearth") ++
  [Resumes (AnsTask (task_of (js "t0") TASK_STATE_COMPLETED (js "The report is done."))) 2; Resumes AnsDone 2] ++
  says_ 3 2 (js "resume") ++
  [Resumes (AnsTask (task_of (js "t0") TASK_STATE_COMPLETED (js "The report is done."))) 3; Resumes AnsDone 3] ++
  to_forge_after_alert ++ says_ 11 1 (js "What did I miss?").

Lemma summary_follows_switch :
  (en_connected ∘ ru_engine <$> demo_play resumes_then_switches (new_call was_away)) ≫= (fmap (pa_name ∘ co_agent))
    = Some (js "forge") /\
  ((fun r => List.last (spoken_texts (en_log (ru_engine r))) []) <$> demo_play resumes_then_switches (new_call was_away))
    = Some (js "While you were away, it finished: The report is done.").
Proof. split; evaluated. Qed.

(** The comment on [CallState] has nothing spoken before [choosing] and
    nothing reaching an agent before [connected]; a wrong PIN is answered,
    and the agent's task store is asked while choosing. *)
Definition wrong_once : list happening := rings ++ keyed 1 2 (js "11111111").
Definition offers_session : list happening := rings ++ keyed 1 1 the_pin ++ says_ 2 0 (js "Hearth").

Lemma speaks_before_choosing :
  en_state (ru_engine (call_after wrong_once)) = Authenticating /\
  spoken_texts (log_after wrong_once) = [js "That's not it. Try again."].
Proof. split; evaluated. Qed.

Lemma asks_agent_while_choosing :
  ((fun r => bool_decide (en_state (ru_engine r) = Choosing)) <$> demo_play offers_session (new_call was_away)) = Some true /\
  ((fun r => List.last (en_log (ru_engine r)) AcTypeError) <$> demo_play offers_session (new_call was_away))
    = Some (AcGetTask (js "hearth") (js "t0")).
Proof. split; evaluated. Qed.
