(* ===== verification/Json.v ===== *)
(** JSON text, as [JSON.stringify] writes it and [JSON.parse] reads it, on
    the values the development knows: numbers are integers, so a text with a
    fraction or an exponent is outside the model. *)

From S2P Require Import Prelude SessionId.
#[local] Open Scope nat_scope.

(** ** Writing *)

Definition escape (c : N) : jstr :=
  if (c =? 8)%N then js "\b" else if (c =? 9)%N then js "\t" else if (c =? 10)%N then js "\n"
  else if (c =? 12)%N then js "\f" else if (c =? 13)%N then js "\r"
  else js "\u" ++ [hex_digit (c / 4096); hex_digit (c / 256 mod 16); hex_digit (c / 16 mod 16); hex_digit (c mod 16)].

Definition is_quote (c : N) : bool := (c =? 34)%N.
Definition is_backslash (c : N) : bool := (c =? 92)%N.

(** A unit that stands for itself: a surrogate does so only in a pair. *)
Definition plain_unit (c : N) : bool :=
  negb (is_quote c || is_backslash c || (c <? 32)%N || is_high c || is_low c).

Fixpoint quoted (s : jstr) : jstr :=
  match s with
  | [] => []
  | c :: t =>
      if plain_unit c then c :: quoted t
      else if is_quote c || is_backslash c then 92%N :: c :: quoted t
      else if is_high c then
        match t with
        | d :: t' => if is_low d then c :: d :: quoted t' else escape c ++ quoted t
        | [] => escape c
        end
      else escape c ++ quoted t
  end.

Definition json_string (s : jstr) : jstr := dq ++ quoted s ++ dq.

(** What has no JSON form: [undefined] in an array is [null], in an object
    its key is left out. *)
Fixpoint stringify (v : jsval) : jstr :=
  match v with
  | VUndef | VNull => js "null"
  | VBool true => js "true"
  | VBool false => js "false"
  | VNum n => show_Z n
  | VStr s => json_string s
  | VArr l => js "[" ++ join_with (js ",") (map stringify l) ++ js "]"
  | VObj fs =>
      js "{" ++ join_with (js ",")
        (omap (fun kv => match kv with (_, VUndef) => None | (k, x) => Some (json_string k ++ js ":" ++ stringify x) end) fs)
      ++ js "}"
  end.

(** ** Reading *)

Definition json_ws (c : N) : bool := ((c =? 32) || (c =? 9) || (c =? 10) || (c =? 13))%N.
Definition skip (s : jstr) : jstr := drop_while json_ws s.

Definition unescape (c : N) : option N :=
  if (c =? 98)%N then Some 8%N else if (c =? 116)%N then Some 9%N else if (c =? 110)%N then Some 10%N
  else if (c =? 102)%N then Some 12%N else if (c =? 114)%N then Some 13%N
  else if (is_quote c || is_backslash c || (c =? 47))%N then Some c else None.

(** The string up to its closing quote, and what follows it. *)
Fixpoint read_string (s : jstr) : option (jstr * jstr) :=
  match s with
  | [] => None
  | c :: t =>
      if is_quote c then Some ([], t)
      else if is_backslash c then
        match t with
        | u :: t1 =>
            if (u =? 117)%N then
              match t1 with
              | a :: b :: c1 :: d :: t2 =>
                  match hex_value a, hex_value b, hex_value c1, hex_value d with
                  | Some x, Some y, Some z, Some w =>
                      '(r, rest) ← read_string t2; Some (((x * 16 + y) * 16 + z) * 16 + w :: r, rest)%N
                  | _, _, _, _ => None
                  end
              | _ => None
              end
            else match unescape u with
                 | Some e => '(r, rest) ← read_string t1; Some (e :: r, rest)
                 | None => None
                 end
        | [] => None
        end
      else if (c <? 32)%N then None
      else '(r, rest) ← read_string t; Some (c :: r, rest)
  end.

(** A key that comes again keeps its place and takes the later value. *)
Fixpoint put_field (k : jstr) (v : jsval) (fs : list (jstr * jsval)) : list (jstr * jsval) :=
  match fs with
  | [] => [(k, v)]
  | (k', w) :: t => if bool_decide (k = k') then (k, v) :: t else (k', w) :: put_field k v t
  end.

(** An integer without leading zeros; [None] on a fraction or an exponent. *)
Definition read_number (s : jstr) : option (jsval * jstr) :=
  let neg := starts_with (js "-") s in
  let body := if neg then drop 1 s else s in
  let ds := take_while is_digit body in
  let rest := drop (length ds) body in
  if negb (numeral ds) || (starts_with (js "0") ds && (1 <? length ds))
     || existsb (fun p => starts_with p rest) [js "."; js "e"; js "E"]
  then None
  else Some (VNum (if neg then - digits_value ds else digits_value ds)%Z, rest).

Definition read_literal (s : jstr) : option (jsval * jstr) :=
  if starts_with (js "null") s then Some (VNull, drop 4 s)
  else if starts_with (js "true") s then Some (VBool true, drop 4 s)
  else if starts_with (js "false") s then Some (VBool false, drop 5 s)
  else read_number s.

Fixpoint read_value (fuel : nat) (s : jstr) : option (jsval * jstr) :=
  match fuel with
  | O => None
  | S f =>
      match skip s with
      | 34%N :: t => '(x, r) ← read_string t; Some (VStr x, r)
      | 91%N :: t =>
          match skip t with
          | 93%N :: r => Some (VArr [], r)
          | _ => '(l, r) ← read_elements f t; Some (VArr l, r)
          end
      | 123%N :: t =>
          match skip t with
          | 125%N :: r => Some (VObj [], r)
          | _ => '(fs, r) ← read_members f t []; Some (VObj fs, r)
          end
      | s' => read_literal s'
      end
  end
with read_elements (fuel : nat) (s : jstr) : option (list jsval * jstr) :=
  match fuel with
  | O => None
  | S f =>
      '(v, r) ← read_value f s;
      match skip r with
      | 44%N :: r' => '(l, rest) ← read_elements f r'; Some (v :: l, rest)
      | 93%N :: r' => Some ([v], r')
      | _ => None
      end
  end
with read_members (fuel : nat) (s : jstr) (acc : list (jstr * jsval)) : option (list (jstr * jsval) * jstr) :=
  match fuel with
  | O => None
  | S f =>
      match skip s with
      | 34%N :: t =>
          '(k, r) ← read_string t;
          match skip r with
          | 58%N :: r' =>
              '(v, r2) ← read_value f r';
              match skip r2 with
              | 44%N :: r3 => read_members f r3 (put_field k v acc)
              | 125%N :: r3 => Some (put_field k v acc, r3)
              | _ => None
              end
          | _ => None
          end
      | _ => None
      end
  end.

(** Every two turns of the reader consume a unit. *)
Definition parse (s : jstr) : option jsval :=
  '(v, r) ← read_value (2 * length s + 2) s;
  match skip r with [] => Some v | _ => None end.

(** ** What is written reads back *)

Section Induction.
Context (P : jsval -> Prop).
Context (HU : P VUndef) (HN : P VNull) (HB : forall b, P (VBool b)) (HZ : forall n, P (VNum n)) (HS : forall s, P (VStr s)).
Context (HA : forall l, Forall P l -> P (VArr l)) (HO : forall fs, Forall (fun kv => P (snd kv)) fs -> P (VObj fs)).

Fixpoint jsval_deep_ind (v : jsval) : P v :=
  match v with
  | VUndef => HU
  | VNull => HN
  | VBool b => HB b
  | VNum n => HZ n
  | VStr s => HS s
  | VArr l => HA l ((fix go l := match l return Forall P l with
                                 | [] => Forall_nil_2 P
                                 | x :: t => Forall_cons_2 P x t (jsval_deep_ind x) (go t)
                                 end) l)
  | VObj fs => HO fs ((fix go l := match l return Forall (fun kv => P (snd kv)) l with
                                   | [] => Forall_nil_2 _
                                   | kv :: t => Forall_cons_2 _ kv t (jsval_deep_ind (snd kv)) (go t)
                                   end) fs)
  end.
End Induction.

(** Values JSON has a text for: nothing is undefined, keys are unique. *)
Fixpoint json_ok (v : jsval) : Prop :=
  match v with
  | VUndef => False
  | VArr l => (fix all l := match l with [] => True | x :: t => json_ok x /\ all t end) l
  | VObj fs => NoDup (fst <$> fs) /\ (fix all l := match l with [] => True | (_, x) :: t => json_ok x /\ all t end) fs
  | _ => True
  end.

Lemma json_ok_arr l : json_ok (VArr l) <-> Forall json_ok l.
Proof. simpl. induction l as [|x l IH]; [by split|]. rewrite Forall_cons. tauto. Qed.

Lemma json_ok_obj fs : json_ok (VObj fs) <-> NoDup (fst <$> fs) /\ Forall (fun kv => json_ok (snd kv)) fs.
Proof.
  simpl. apply and_iff_compat_l. induction fs as [|[k x] fs IH]; [by split|]. rewrite Forall_cons. simpl. tauto.
Qed.

Lemma hex_back n : (n < 16)%N -> hex_value (hex_digit n) = Some n.
Proof.
  intros Hn.
  assert (n ∈ [0; 1; 2; 3; 4; 5; 6; 7; 8; 9; 10; 11; 12; 13; 14; 15]%N) as H by (rewrite !elem_of_cons; lia).
  repeat (apply elem_of_cons in H as [->|H]; [reflexivity|]). by apply elem_of_nil in H.
Qed.

Lemma hex_digits c : (c < 65536)%N ->
  ((((c / 4096) * 16 + c / 256 mod 16) * 16 + c / 16 mod 16) * 16 + c mod 16 = c)%N /\
  (c / 4096 < 16 /\ c / 256 mod 16 < 16 /\ c / 16 mod 16 < 16 /\ c mod 16 < 16)%N.
Proof.
  intros Hc. split_and!; try (apply N.mod_lt; lia); [|apply N.Div0.div_lt_upper_bound; lia].
  change 4096%N with (16 * 16 * 16)%N. change 256%N with (16 * 16)%N. rewrite <- !N.Div0.div_div.
  pose proof (N.div_mod c 16 ltac:(lia)). pose proof (N.div_mod (c / 16) 16 ltac:(lia)).
  pose proof (N.div_mod (c / 16 / 16) 16 ltac:(lia)). lia.
Qed.

Lemma read_escaped c t : (c < 65536)%N ->
  read_string (escape c ++ t) = '(r, rest) ← read_string t; Some (c :: r, rest).
Proof.
  intros Hc. unfold escape.
  destruct (N.eqb_spec c 8) as [->|_]; [reflexivity|]. destruct (N.eqb_spec c 9) as [->|_]; [reflexivity|].
  destruct (N.eqb_spec c 10) as [->|_]; [reflexivity|]. destruct (N.eqb_spec c 12) as [->|_]; [reflexivity|].
  destruct (N.eqb_spec c 13) as [->|_]; [reflexivity|].
  destruct (hex_digits c Hc) as (E & H1 & H2 & H3 & H4).
  change (js "\u") with [92; 117]%N. cbn [app read_string is_quote is_backslash].
  rewrite !hex_back by done. by rewrite E.
Qed.

Lemma read_plain c t : plain_unit c = true -> read_string (c :: t) = '(r, rest) ← read_string t; Some (c :: r, rest).
Proof.
  unfold plain_unit. rewrite negb_true_iff, !orb_false_iff. intros [[[[Hq Hb] Hw] _] _].
  cbn [read_string]. by rewrite Hq, Hb, Hw.
Qed.

(** A surrogate is read as it stands. *)
Lemma read_surrogate c t : is_high c = true \/ is_low c = true ->
  read_string (c :: t) = '(r, rest) ← read_string t; Some (c :: r, rest).
Proof.
  intros H. assert (55296 <= c)%N.
  { unfold is_high, is_low in H. rewrite !andb_true_iff, !N.leb_le in H. lia. }
  cbn [read_string]. unfold is_quote, is_backslash.
  rewrite (proj2 (N.eqb_neq c 34)), (proj2 (N.eqb_neq c 92)), (proj2 (N.ltb_ge c 32)) by lia. done.
Qed.

Lemma escaped_small c : plain_unit c = false -> is_quote c || is_backslash c = false -> (c < 65536)%N.
Proof.
  unfold plain_unit. rewrite negb_false_iff. intros H Hqb. rewrite Hqb in H. simpl in H.
  unfold is_high, is_low in H. rewrite !orb_true_iff, !andb_true_iff, !N.ltb_lt in H. lia.
Qed.

Lemma read_quoted_upto n s rest : length s <= n -> read_string (quoted s ++ dq ++ rest) = Some (s, rest).
Proof.
  revert s; induction n as [|n IH]; intros [|c t] Hl; cbn [length] in Hl; try lia; try reflexivity.
  assert (IHt : read_string (quoted t ++ dq ++ rest) = Some (t, rest)) by (apply IH; lia).
  cbn [quoted]. destruct (plain_unit c) eqn:Hp.
  { cbn [app]. by rewrite read_plain, IHt. }
  destruct (is_quote c || is_backslash c) eqn:Hqb.
  { apply orb_true_iff in Hqb as [Hc|Hc]; apply N.eqb_eq in Hc as ->; cbn [app];
      (remember (quoted t ++ dq ++ rest) as u; cbn; by rewrite IHt). }
  pose proof (escaped_small c Hp Hqb) as Hs.
  destruct (is_high c) eqn:Hh; [|by rewrite <- (app_assoc (escape c)), read_escaped, IHt].
  destruct t as [|d t']; [by rewrite read_escaped|].
  destruct (is_low d) eqn:Hd; [|by rewrite <- (app_assoc (escape c)), read_escaped, IHt].
  cbn [app]. rewrite read_surrogate, read_surrogate by eauto. rewrite IH; [done|]. cbn [length] in Hl. lia.
Qed.

Lemma read_quoted s rest : read_string (quoted s ++ dq ++ rest) = Some (s, rest).
Proof. by apply (read_quoted_upto (length s)). Qed.

(** No unit of [rest] may continue a number. *)
Definition ends_number (rest : jstr) : Prop :=
  match rest with [] => True | c :: _ => is_digit c = false /\ c ∉ js ".eE" end.

Lemma take_while_all p ds t : Forall (fun c => p c = true) ds -> (match t with [] => True | c :: _ => p c = false end) ->
  take_while p (ds ++ t) = ds.
Proof.
  intros H Ht. induction H as [|c ds Hc _ IH]; cbn [app take_while].
  - destruct t; [done|]. cbn. by rewrite Ht.
  - by rewrite Hc, IH.
Qed.

Lemma numeral_stop rest : ends_number rest -> match rest with [] => True | c :: _ => is_digit c = false end.
Proof. by destruct rest; [|intros []]. Qed.

Lemma read_number_written z rest : ends_number rest -> read_number (show_Z z ++ rest) = Some (VNum z, rest).
Proof.
  intros Hr.
  assert (Hpos : forall z (neg : bool), (0 <= z)%Z ->
    (let ds := take_while is_digit (show_Z z ++ rest) in
     let rest' := drop (length ds) (show_Z z ++ rest) in
     if negb (numeral ds) || (starts_with (js "0") ds && (1 <? length ds))
        || existsb (fun p => starts_with p rest') [js "."; js "e"; js "E"]
     then None
     else Some (VNum (if neg then - digits_value ds else digits_value ds)%Z, rest'))
    = Some (VNum (if neg then - z else z)%Z, rest)).
  { clear z. intros z neg Hz. cbv zeta. destruct (show_Z_digits z Hz) as (Hn & Hv & H0).
    rewrite (take_while_all is_digit (show_Z z) rest) by first [by apply numeral_stop | by apply numeral_digits in Hn as [_ ?]].
    rewrite drop_app_length, Hn, H0, Hv. cbn [negb orb].
    assert (existsb (fun p => starts_with p rest) [js "."; js "e"; js "E"] = false) as ->; [|done].
    destruct rest as [|c rest]; [done|]. destruct Hr as [_ Hc].
    change (js ".eE") with [46; 101; 69]%N in Hc.
    rewrite !not_elem_of_cons in Hc. destruct Hc as (H1 & H2 & H3 & _).
    change (existsb _ _) with ((46 =? c)%N && true || ((101 =? c)%N && true || ((69 =? c)%N && true || false))).
    rewrite !(proj2 (N.eqb_neq _ _)) by congruence. done. }
  unfold read_number. destruct (Z.le_gt_cases 0 z) as [Hz|Hz].
  - assert (starts_with (js "-") (show_Z z ++ rest) = false) as ->.
    { destruct (show_Z_digits z Hz) as ([Hne Hd]%numeral_digits & _ & _).
      destruct (show_Z z) as [|c s]; [done|]. apply Forall_inv in Hd.
      unfold is_digit in Hd. apply andb_true_iff in Hd as [Hd _]. apply N.leb_le in Hd.
      change ((45 =? c)%N && true = false). rewrite (proj2 (N.eqb_neq _ _)); [done|lia]. }
    apply (Hpos z false Hz).
  - destruct z as [|p|p]; [lia|lia|]. rewrite show_Z_neg. apply (Hpos (Z.pos p) true). lia.
Qed.

Fixpoint depth (v : jsval) : nat :=
  match v with
  | VArr l => 2 + length l + list_max (map depth l)
  | VObj fs => 2 + length fs + list_max (map (fun kv => depth (snd kv)) fs)
  | _ => 1
  end.

Lemma depth_elem l x : x ∈ l -> depth x <= list_max (map depth l).
Proof.
  intros Hx. pose proof (proj1 (list_max_le (map depth l) _) (le_n _)) as H.
  rewrite List.Forall_forall in H. apply H, in_map, list_elem_of_In. done.
Qed.

(** What a value's text starts with: nothing a reader skips, and no
    closing bracket. *)
Definition opens (s : jstr) : Prop :=
  match s with
  | c :: _ => json_ws c = false /\ c <> 93%N /\ c <> 125%N
  | [] => False
  end.

Lemma opens_skip s t : opens s -> skip (s ++ t) = s ++ t.
Proof. destruct s as [|c s]; [done|]. intros [H _]. unfold skip. cbn [app drop_while]. by rewrite H. Qed.

Lemma digit_cases c : is_digit c = true -> c ∈ [48; 49; 50; 51; 52; 53; 54; 55; 56; 57]%N.
Proof. unfold is_digit. rewrite andb_true_iff, !N.leb_le, !elem_of_cons. lia. Qed.

(** The first unit of a number decides how it is read. *)
Lemma number_head z : exists c t, show_Z z = c :: t /\ c ∈ [45; 48; 49; 50; 51; 52; 53; 54; 55; 56; 57]%N.
Proof.
  destruct (Z.le_gt_cases 0 z) as [Hz|Hz].
  - destruct (show_Z_digits z Hz) as ([Hne Hd]%numeral_digits & _).
    destruct (show_Z z) as [|c t]; [done|]. exists c, t. split; [done|]. apply Forall_inv, digit_cases in Hd. by right.
  - destruct z as [|p|p]; [lia|lia|]. exists 45%N, (show_Z (Z.pos p)). split; [by apply show_Z_neg|by left].
Qed.

Lemma opens_stringify v : v <> VUndef -> opens (stringify v).
Proof.
  destruct v as [| |[]|z|s|l|fs]; intros H; try done; cbn [stringify].
  destruct (number_head z) as (c & t & -> & Hc). unfold opens.
  repeat (apply elem_of_cons in Hc as [->|Hc]; [done|]). by apply elem_of_nil in Hc.
Qed.

Lemma read_value_number f z rest : ends_number rest -> read_value (S f) (show_Z z ++ rest) = Some (VNum z, rest).
Proof.
  intros Hr. cbn [read_value]. rewrite opens_skip by by apply (opens_stringify (VNum z)).
  rewrite <- (read_number_written z rest Hr).
  destruct (number_head z) as (c & t & -> & Hc).
  repeat (apply elem_of_cons in Hc as [->|Hc]; [reflexivity|]). by apply elem_of_nil in Hc.
Qed.

Lemma put_field_new k v fs : k ∉ fst <$> fs -> put_field k v fs = fs ++ [(k, v)].
Proof.
  induction fs as [|[k' w] fs IH]; [done|]. rewrite fmap_cons, not_elem_of_cons. intros [Hk Hfs]. cbn.
  rewrite bool_decide_eq_false_2 by done. by rewrite IH.
Qed.

(** A field's text. *)
Definition field_text (kv : jstr * jsval) : jstr := json_string (fst kv) ++ js ":" ++ stringify (snd kv).

Lemma fields_texts fs : Forall (fun kv => json_ok (snd kv)) fs ->
  omap (fun kv => match kv with (_, VUndef) => None | (k, x) => Some (json_string k ++ js ":" ++ stringify x) end) fs
  = map field_text fs.
Proof.
  induction 1 as [|[k x] fs Hx _ IH]; [done|]. cbn [omap list_omap]. simpl in Hx.
  destruct x; try done; cbn [map]; f_equal; exact IH.
Qed.

Definition reads (v : jsval) : Prop :=
  forall f rest, json_ok v -> depth v <= f -> ends_number rest -> read_value f (stringify v ++ rest) = Some (v, rest).

Lemma json_ok_defined v : json_ok v -> v <> VUndef.
Proof. by destruct v. Qed.

Lemma ends_comma s : ends_number (44%N :: s). Proof. split; [done|]. by vm_compute; intros H; repeat (apply elem_of_cons in H as [?|H]; [done|]); apply elem_of_nil in H. Qed.

Lemma ends_bracket s : ends_number (93%N :: s) /\ ends_number (125%N :: s).
Proof.
  split; (split; [done|]); change (js ".eE") with [46; 101; 69]%N; rewrite !not_elem_of_cons;
    split_and!; try done; apply not_elem_of_nil.
Qed.

Lemma join_cons sep x y l : join_with sep (x :: y :: l) = x ++ sep ++ join_with sep (y :: l).
Proof. reflexivity. Qed.

Lemma read_elements_written l f rest : l <> [] -> Forall reads l -> Forall json_ok l ->
  length l + list_max (map depth l) <= f ->
  read_elements f (join_with (js ",") (map stringify l) ++ js "]" ++ rest) = Some (l, rest).
Proof.
  revert f; induction l as [|x l IH]; intros f Hne Hr Hok Hf; [done|].
  apply Forall_cons in Hr as [Hx Hr]. apply Forall_cons in Hok as [Ox Ok]. cbn [map length] in Hf.
  destruct f as [|f]; [lia|]. change (list_max (depth x :: map depth l)) with (Nat.max (depth x) (list_max (map depth l))) in Hf.
  destruct l as [|y l].
  - cbn [map join_with read_elements]. rewrite Hx; [done|done|lia|apply ends_bracket].
  - cbn [map]. rewrite join_cons, <- !app_assoc. change (js "," ++ ?s) with (44%N :: s). cbn [read_elements].
    rewrite Hx; [|done|lia|apply ends_comma]. cbn [mbind option_bind].
    change (skip (44%N :: ?s)) with (44%N :: s). cbv iota beta. rewrite IH; [done..|]. lia.
Qed.

Lemma read_members_written fs f rest acc : fs <> [] -> Forall (fun kv => reads (snd kv)) fs ->
  Forall (fun kv => json_ok (snd kv)) fs -> NoDup (fst <$> acc ++ fs) ->
  length fs + list_max (map (fun kv => depth (snd kv)) fs) <= f ->
  read_members f (join_with (js ",") (map field_text fs) ++ js "}" ++ rest) acc = Some (acc ++ fs, rest).
Proof.
  revert f acc; induction fs as [|[k x] fs IH]; intros f acc Hne Hr Hok Hnd Hf; [done|].
  apply Forall_cons in Hr as [Hx Hr]. apply Forall_cons in Hok as [Ox Ok]. simpl in Hx, Ox.
  destruct f as [|f]; [cbn in Hf; lia|]. cbn [map] in Hf.
  change (list_max (?a :: ?t)) with (Nat.max a (list_max t)) in Hf. cbn [snd length] in Hf.
  assert (Hk : k ∉ fst <$> acc).
  { rewrite fmap_app, fmap_cons in Hnd. apply NoDup_app in Hnd as (_ & Hd & _). intros Hin. apply (Hd k Hin). by left. }
  assert (Hhead : forall t, read_members (S f) (field_text (k, x) ++ t) acc =
            '(v, r2) ← read_value f (stringify x ++ t);
            match skip r2 with
            | 44%N :: r3 => read_members f r3 (put_field k v acc)
            | 125%N :: r3 => Some (put_field k v acc, r3)
            | _ => None
            end).
  { intros t. unfold field_text, json_string. cbn [fst snd]. rewrite <- !app_assoc.
    change (dq ++ ?s) with (34%N :: s) at 1. cbn [read_members]. change (skip (34%N :: ?s)) with (34%N :: s).
    cbv iota beta. rewrite read_quoted. reflexivity. }
  destruct fs as [|kv fs].
  - cbn [map join_with]. rewrite Hhead, Hx; [|done|lia|apply ends_bracket]. cbn [mbind option_bind].
    change (skip (js "}" ++ rest)) with (125%N :: rest). cbv iota beta. by rewrite put_field_new.
  - cbn [map]. rewrite join_cons, <- !app_assoc, Hhead. rewrite Hx; [|done|lia|apply ends_comma].
    cbn [mbind option_bind]. change (skip (js "," ++ ?s)) with (44%N :: s). cbv iota beta.
    rewrite put_field_new, IH; [by rewrite <- app_assoc|done|done|done|by rewrite <- app_assoc|lia|done].
Qed.

Lemma read_written v : reads v.
Proof.
  induction v as [| |b|z|s|l IH|fs IH] using jsval_deep_ind; intros f rest Hok Hf Hr.
  - done.
  - destruct f; [cbn in Hf; lia|reflexivity].
  - destruct f; [cbn in Hf; lia|]. by destruct b.
  - destruct f; [cbn in Hf; lia|]. by apply read_value_number.
  - destruct f; [cbn in Hf; lia|]. cbn [stringify]. unfold json_string. rewrite <- !app_assoc.
    change (dq ++ ?s) with (34%N :: s) at 1. cbn [read_value]. change (skip (34%N :: ?s)) with (34%N :: s).
    cbv iota beta. by rewrite read_quoted.
  - destruct f; [cbn in Hf; lia|]. apply json_ok_arr in Hok. cbn [stringify]. rewrite <- !app_assoc.
    change (js "[" ++ ?s) with (91%N :: s). cbn [read_value]. change (skip (91%N :: ?s)) with (91%N :: s). cbv iota beta.
    change (2 + length l + list_max (map depth l) <= S f) in Hf. destruct l as [|x l]; [reflexivity|].
    rewrite read_elements_written; [|done|done|done|cbn [length] in *; lia].
    assert (opens (join_with (js ",") (map stringify (x :: l)))) as Ho.
    { apply Forall_inv, json_ok_defined, opens_stringify in Hok. cbn [map].
      destruct l; [done|]. cbn [map]. rewrite join_cons. by destruct (stringify x). }
    rewrite opens_skip by done. destruct (join_with _ _) as [|c t]; [done|]. destruct Ho as (_ & H93 & _).
    cbn [app]. by repeat case_match; simplify_eq.
  - destruct f; [cbn in Hf; lia|]. apply json_ok_obj in Hok as [Hnd Hok]. cbn [stringify]. rewrite fields_texts by done.
    rewrite <- !app_assoc. change (js "{" ++ ?s) with (123%N :: s). cbn [read_value].
    change (skip (123%N :: ?s)) with (123%N :: s). cbv iota beta. cbn [depth] in Hf.
    destruct fs as [|[k x] fs]; [reflexivity|].
    rewrite read_members_written; [|done|done|done|done|lia].
    assert (exists t, join_with (js ",") (map field_text ((k, x) :: fs)) ++ js "}" ++ rest = 34%N :: t) as [t ->].
    { cbn [map]. destruct fs; [by eexists|]. cbn [map]. rewrite join_cons. by eexists. }
    reflexivity.
Qed.

(** ** Enough fuel *)

Lemma show_Z_nonempty z : 1 <= length (show_Z z).
Proof. destruct (number_head z) as (c & t & -> & _). cbn. lia. Qed.

Lemma join_length sep x l : length (join_with sep (x :: l)) = length x + list_sum (map (fun y => length sep + length y) l).
Proof.
  revert x; induction l as [|y l IH]; intros x; [cbn; lia|]. rewrite join_cons, !length_app, IH. cbn [map]. change (list_sum (?a :: ?t)) with (a + list_sum t). cbv beta. lia.
Qed.

Lemma texts_room (A : Type) (text : A -> jstr) (d : A -> nat) l :
  Forall (fun x => d x <= 2 * length (text x)) l ->
  length l + list_max (map d l) <= 2 * length (join_with (js ",") (map text l)) + 1.
Proof.
  destruct l as [|x l]; [cbn; lia|]. rewrite Forall_cons. intros [Hx Hl]. cbn [map]. rewrite join_length.
  change (length (js ",")) with 1. change (list_max (?a :: ?t)) with (Nat.max a (list_max t)). cbn [length].
  assert (length l + list_max (map d l) <= 2 * list_sum (map (fun y => 1 + length y) (map text l)) /\
          2 * length l <= 2 * list_sum (map (fun y => 1 + length y) (map text l))) as [H1 H2]; [|lia].
  clear Hx x. induction Hl as [|y l Hy _ [IH1 IH2]]; [cbn; lia|]. cbn [map length].
  change (list_max (?a :: ?t)) with (Nat.max a (list_max t)). change (list_sum (?a :: ?t)) with (a + list_sum t). lia.
Qed.

Lemma depth_bound v : json_ok v -> depth v <= 2 * length (stringify v).
Proof.
  induction v as [| |b|z|s|l IH|fs IH] using jsval_deep_ind; intros Hok.
  - done.
  - vm_compute. lia.
  - destruct b; vm_compute; lia.
  - pose proof (show_Z_nonempty z). cbn [depth stringify]. lia.
  - cbn [depth stringify]. unfold json_string. rewrite !length_app. cbn. lia.
  - apply json_ok_arr in Hok. cbn [stringify]. rewrite !length_app. change (length (js "[")) with 1. change (length (js "]")) with 1.
    change (depth (VArr l)) with (2 + length l + list_max (map depth l)).
    assert (Hl : Forall (fun x => depth x <= 2 * length (stringify x)) l).
    { rewrite Forall_forall in *. auto. }
    apply texts_room in Hl. lia.
  - apply json_ok_obj in Hok as [_ Hok]. cbn [stringify]. rewrite fields_texts by done. rewrite !length_app.
    change (length (js "{")) with 1. change (length (js "}")) with 1.
    change (depth (VObj fs)) with (2 + length fs + list_max (map (fun kv => depth (snd kv)) fs)).
    assert (Hl : Forall (fun kv => depth (snd kv) <= 2 * length (field_text kv)) fs).
    { rewrite Forall_forall in *. intros kv Hkv. unfold field_text. rewrite !length_app. specialize (IH kv Hkv (Hok kv Hkv)). lia. }
    apply texts_room in Hl. lia.
Qed.

Lemma parse_stringify v : json_ok v -> parse (stringify v) = Some v.
Proof.
  intros Hok. unfold parse. rewrite <- (app_nil_r (stringify v)) at 2.
  rewrite read_written; [done|done| |done]. pose proof (depth_bound v Hok). lia.
Qed.
