(* ===== verification/SlackState.v ===== *)
(** [apps/slack/src/state.ts]: what a Slack bridge remembers across
    restarts, as the rows of its tables. Every write takes the time
    [Date.now()] would give. *)

From S2P Require Import Prelude Json.
#[local] Open Scope Z_scope.

Record InFlightTask := mkInFlight {
  if_taskId : jstr;
  if_agent : jstr;
  if_channel : jstr;
  if_threadTs : jstr;
  if_streamTs : option jstr;
  if_messageTs : option jstr;
  if_authorId : option jstr;
  if_opening : option bool }.

Record RecordedFile := mkRecordedFile {
  rf_fileId : jstr;
  rf_agent : jstr;
  rf_channel : jstr;
  rf_threadTs : jstr;
  rf_name : jstr;
  rf_mimetype : jstr;
  rf_size : Z;
  rf_url : jstr }.

Record QueuedRequest := mkQueued {
  qr_id : Z;
  qr_agent : jstr;
  qr_channel : jstr;
  qr_threadTs : jstr;
  qr_text : jstr;
  qr_messageTs : jstr;
  qr_fileIds : list jstr;
  qr_authorId : option jstr }.

Record PendingQuestion := mkPendingQuestion {
  pq_agent : jstr;
  pq_channel : jstr;
  pq_messageTs : jstr;
  pq_threadTs : jstr;
  pq_questions : jsval }.

(** ** Rows *)

Record TaskRow := mkTaskRow {
  tr_task_id : jstr;
  tr_agent : jstr;
  tr_channel : jstr;
  tr_thread_ts : jstr;
  tr_stream_ts : option jstr;
  tr_created_ms : Z;
  tr_message_ts : option jstr;
  tr_author : option jstr;
  tr_opening : option Z }.

Record QuestionRow := mkQuestionRow {
  qn_channel : jstr;
  qn_message_ts : jstr;
  qn_agent : jstr;
  qn_thread_ts : jstr;
  qn_questions : jstr;
  qn_created_ms : Z }.

Record QueuedRow := mkQueuedRow {
  qd_id : Z;
  qd_agent : jstr;
  qd_channel : jstr;
  qd_thread_ts : jstr;
  qd_text : jstr;
  qd_message_ts : jstr;
  qd_created_ms : Z;
  qd_file_ids : jstr;
  qd_author : option jstr }.

(** Rows in the order of their rowids; a replaced row moves to the end.
    [bs_next_id] is what AUTOINCREMENT hands out. *)
Record BridgeState := mkBridgeState {
  bs_tasks : list TaskRow;
  bs_contexts : gmap (jstr * jstr) jstr;
  bs_files : list (RecordedFile * Z);
  bs_questions : list QuestionRow;
  bs_queued : list QueuedRow;
  bs_next_id : Z }.

Definition new_state : BridgeState := mkBridgeState [] ∅ [] [] [] 1.

Definition with_tasks (l : list TaskRow) (s : BridgeState) : BridgeState :=
  mkBridgeState l (bs_contexts s) (bs_files s) (bs_questions s) (bs_queued s) (bs_next_id s).
Definition with_contexts (m : gmap (jstr * jstr) jstr) (s : BridgeState) : BridgeState :=
  mkBridgeState (bs_tasks s) m (bs_files s) (bs_questions s) (bs_queued s) (bs_next_id s).
Definition with_files (l : list (RecordedFile * Z)) (s : BridgeState) : BridgeState :=
  mkBridgeState (bs_tasks s) (bs_contexts s) l (bs_questions s) (bs_queued s) (bs_next_id s).
Definition with_questions (l : list QuestionRow) (s : BridgeState) : BridgeState :=
  mkBridgeState (bs_tasks s) (bs_contexts s) (bs_files s) l (bs_queued s) (bs_next_id s).
Definition with_queued (l : list QueuedRow) (next : Z) (s : BridgeState) : BridgeState :=
  mkBridgeState (bs_tasks s) (bs_contexts s) (bs_files s) (bs_questions s) l next.

(** ** Tasks *)

Definition task_row (task : InFlightTask) (now : Z) : TaskRow :=
  mkTaskRow (if_taskId task) (if_agent task) (if_channel task) (if_threadTs task) (if_streamTs task) now
    (if_messageTs task) (if_authorId task) ((fun b : bool => if b then 1 else 0) <$> if_opening task).

Definition task_of_row (r : TaskRow) : InFlightTask :=
  mkInFlight (tr_task_id r) (tr_agent r) (tr_channel r) (tr_thread_ts r) (tr_stream_ts r) (tr_message_ts r)
    (tr_author r) ((fun n => n =? 1) <$> tr_opening r).

Definition recordTask (task : InFlightTask) (now : Z) (s : BridgeState) : BridgeState :=
  with_tasks (filter (fun r => tr_task_id r <> if_taskId task) (bs_tasks s) ++ [task_row task now]) s.

Definition set_stream (streamTs : option jstr) (r : TaskRow) : TaskRow :=
  mkTaskRow (tr_task_id r) (tr_agent r) (tr_channel r) (tr_thread_ts r) streamTs (tr_created_ms r)
    (tr_message_ts r) (tr_author r) (tr_opening r).

Definition setStreamTs (taskId : jstr) (streamTs : option jstr) (s : BridgeState) : BridgeState :=
  with_tasks ((fun r => if decide (tr_task_id r = taskId) then set_stream streamTs r else r) <$> bs_tasks s) s.

Definition taskById (taskId : jstr) (s : BridgeState) : option InFlightTask :=
  task_of_row <$> find (fun r => jeqb (tr_task_id r) taskId) (bs_tasks s).

(** [ORDER BY created_ms]: among equals, the order of the rows. *)
Fixpoint insert_row (r : TaskRow) (l : list TaskRow) : list TaskRow :=
  match l with
  | [] => [r]
  | x :: t => if tr_created_ms r <=? tr_created_ms x then r :: l else x :: insert_row r t
  end.
Definition by_created (l : list TaskRow) : list TaskRow := foldr insert_row [] l.

Definition tasksForThread (channel threadTs : jstr) (s : BridgeState) : list InFlightTask :=
  task_of_row <$> by_created (filter (fun r => tr_channel r = channel /\ tr_thread_ts r = threadTs) (bs_tasks s)).

Definition allTasks (s : BridgeState) : list InFlightTask := task_of_row <$> by_created (bs_tasks s).

Definition removeTask (taskId : jstr) (s : BridgeState) : BridgeState :=
  with_tasks (filter (fun r => tr_task_id r <> taskId) (bs_tasks s)) s.

(** ** Files *)

Definition recordFile (file : RecordedFile) (now : Z) (s : BridgeState) : BridgeState :=
  with_files (filter (fun r => rf_fileId (fst r) <> rf_fileId file) (bs_files s) ++ [(file, now)]) s.

Definition fileFor (agent fileId : jstr) (s : BridgeState) : option RecordedFile :=
  fst <$> find (fun r => jeqb (rf_agent (fst r)) agent && jeqb (rf_fileId (fst r)) fileId) (bs_files s).

Definition pruneFiles (olderThanMs now : Z) (s : BridgeState) : Z * BridgeState :=
  let kept := filter (fun r => ~ snd r < now - olderThanMs) (bs_files s) in
  (Z.of_nat (length (bs_files s)) - Z.of_nat (length kept), with_files kept s).

(** ** Contexts *)

Definition contextFor (channel threadTs : jstr) (s : BridgeState) : option jstr := bs_contexts s !! (channel, threadTs).

Definition saveContext (channel threadTs contextId : jstr) (s : BridgeState) : BridgeState :=
  with_contexts (<[(channel, threadTs) := contextId]> (bs_contexts s)) s.

Definition isEngaged (channel threadTs : jstr) (s : BridgeState) : bool := bool_decide (is_Some (contextFor channel threadTs s)).

(** ** The offline queue *)

Definition parseIds (raw : jstr) : list jstr :=
  match parse raw with
  | Some (VArr l) => omap as_str l
  | _ => []
  end.

(** [Omit<QueuedRequest, "id">]: the id given is not looked at. *)
Definition enqueue (request : QueuedRequest) (now : Z) (s : BridgeState) : BridgeState :=
  with_queued
    (bs_queued s ++ [mkQueuedRow (bs_next_id s) (qr_agent request) (qr_channel request) (qr_threadTs request)
                       (qr_text request) (qr_messageTs request) now
                       (stringify (VArr (VStr <$> qr_fileIds request))) (qr_authorId request)])
    (bs_next_id s + 1) s.

Definition request_of_row (r : QueuedRow) : QueuedRequest :=
  mkQueued (qd_id r) (qd_agent r) (qd_channel r) (qd_thread_ts r) (qd_text r) (qd_message_ts r)
    (parseIds (qd_file_ids r)) (qd_author r).

(** [ORDER BY id] is the order of insertion, because ids only grow. *)
Definition queuedFor (agent : jstr) (s : BridgeState) : list QueuedRequest :=
  request_of_row <$> filter (fun r => qd_agent r = agent) (bs_queued s).

Definition dequeue (id : Z) (s : BridgeState) : BridgeState :=
  with_queued (filter (fun r => qd_id r <> id) (bs_queued s)) (bs_next_id s) s.

(** ** Questions *)

Definition recordQuestion (question : PendingQuestion) (now : Z) (s : BridgeState) : BridgeState :=
  with_questions
    (filter (fun r => ~ (qn_channel r = pq_channel question /\ qn_message_ts r = pq_messageTs question)) (bs_questions s)
     ++ [mkQuestionRow (pq_channel question) (pq_messageTs question) (pq_agent question) (pq_threadTs question)
           (stringify (pq_questions question)) now]) s.

Definition questionFor (channel messageTs : jstr) (s : BridgeState) : option PendingQuestion :=
  r ← find (fun r => jeqb (qn_channel r) channel && jeqb (qn_message_ts r) messageTs) (bs_questions s);
  questions ← parse (qn_questions r);
  Some (mkPendingQuestion (qn_agent r) channel messageTs (qn_thread_ts r) questions).

Definition removeQuestion (channel messageTs : jstr) (s : BridgeState) : BridgeState :=
  with_questions (filter (fun r => ~ (qn_channel r = channel /\ qn_message_ts r = messageTs)) (bs_questions s)) s.
