(* ===== verification/SlackTables.v ===== *)
(** The bridge's tables against what they are for: maps from ids to what was
    last recorded under them, and a queue. *)

From S2P Require Import Prelude Json SlackState.
#[local] Open Scope Z_scope.

(** ** Rows found by a key *)

Section Table.
Context {Row Key : Type} `{!EqDecision Key} (key : Row -> Key).

Definition by_key (k : Key) (l : list Row) : option Row := List.find (fun r => bool_decide (key r = k)) l.
Definition unique_keys (l : list Row) : Prop := NoDup (key <$> l).

Lemma by_key_app k l1 l2 : by_key k (l1 ++ l2) = match by_key k l1 with Some r => Some r | None => by_key k l2 end.
Proof. unfold by_key. induction l1 as [|r l1 IH]; [done|]. cbn. by destruct (bool_decide _). Qed.

Lemma by_key_without k k' l :
  by_key k (filter (fun r => key r <> k') l) = if decide (k = k') then None else by_key k l.
Proof.
  induction l as [|r l IH]; [by case_decide|]. rewrite filter_cons. unfold by_key in *. cbn [List.find].
  destruct (decide (key r <> k')) as [H|H]; cbn [List.find]; rewrite IH.
  - case_decide; [|done]. by rewrite bool_decide_eq_false_2 by congruence.
  - case_decide; [done|]. rewrite bool_decide_eq_false_2; [done|]. intros ?. apply H. congruence.
Qed.

Lemma by_key_put k k' r l : key r = k' ->
  by_key k (filter (fun x => key x <> k') l ++ [r]) = if decide (k = k') then Some r else by_key k l.
Proof.
  intros <-. rewrite by_key_app, by_key_without. case_decide as Hk.
  - subst. unfold by_key. cbn. by rewrite bool_decide_eq_true_2.
  - destruct (by_key k l); [done|]. unfold by_key. cbn. by rewrite bool_decide_eq_false_2 by congruence.
Qed.

Lemma by_key_map k f l : (forall r, key (f r) = key r) -> by_key k (f <$> l) = f <$> by_key k l.
Proof.
  intros Hf. unfold by_key. induction l as [|r l IH]; [done|]. cbn. rewrite Hf. by destruct (bool_decide _).
Qed.

Lemma by_key_Some k l r : by_key k l = Some r -> r ∈ l /\ key r = k.
Proof.
  intros H. apply List.find_some in H as [Hin Hk]. split; [by apply list_elem_of_In|]. by apply bool_decide_eq_true in Hk.
Qed.

Lemma by_key_elem l r : unique_keys l -> r ∈ l -> by_key (key r) l = Some r.
Proof.
  unfold unique_keys, by_key. induction l as [|x l IH]; [by intros _ ?%elem_of_nil|]. rewrite fmap_cons, NoDup_cons.
  intros [Hx Hl] [->|Hr]%elem_of_cons; cbn; [by rewrite bool_decide_eq_true_2|].
  rewrite bool_decide_eq_false_2; [by apply IH|]. intros E. apply Hx. rewrite E. by apply list_elem_of_fmap_2.
Qed.

Lemma unique_sublist l k : l `sublist_of` k -> unique_keys k -> unique_keys l.
Proof. intros Hs Hk. eapply sublist_NoDup; [exact Hk|]. by apply fmap_sublist. Qed.

Lemma unique_filter (P : Row -> Prop) `{!forall r, Decision (P r)} l : unique_keys l -> unique_keys (filter P l).
Proof. apply unique_sublist, sublist_filter. Qed.

Lemma unique_put k r l : key r = k -> unique_keys l -> unique_keys (filter (fun x => key x <> k) l ++ [r]).
Proof.
  intros <- Hl. unfold unique_keys. rewrite fmap_app. apply NoDup_app. split_and!.
  - by apply unique_filter.
  - intros k (x & -> & Hx)%list_elem_of_fmap. apply list_elem_of_filter in Hx as [Hne _].
    cbn. by rewrite elem_of_cons, elem_of_nil; intros [E|[]].
  - repeat constructor. by intros ?%elem_of_nil.
Qed.

(** A filter on a table with unique keys. *)
Lemma by_key_filter (P : Row -> Prop) `{!forall r, Decision (P r)} k l : unique_keys l ->
  by_key k (filter P l) = match by_key k l with Some r => if decide (P r) then Some r else None | None => None end.
Proof.
  unfold unique_keys, by_key. induction l as [|r l IH]; [done|]. rewrite fmap_cons, NoDup_cons. intros [Hr Hl].
  rewrite filter_cons. cbn [List.find]. destruct (decide (key r = k)) as [<-|Hk].
  - rewrite (bool_decide_eq_true_2 _ (eq_refl (key r))). case_decide; cbn [List.find]; [by rewrite bool_decide_eq_true_2|].
    rewrite IH by done. destruct (List.find _ l) as [x|] eqn:E; [|done]. exfalso. apply Hr.
    apply List.find_some in E as [Hin E]. apply bool_decide_eq_true in E. rewrite <- E.
    apply list_elem_of_fmap_2. by apply list_elem_of_In.
  - rewrite (bool_decide_eq_false_2 (key r = k)) by done. case_decide; cbn [List.find]; [|by apply IH].
    rewrite (bool_decide_eq_false_2 (key r = k)) by done. by apply IH.
Qed.
End Table.
#[local] Arguments by_key : simpl never.
#[local] Arguments stringify : simpl never.
#[local] Arguments parse : simpl never.

(** ** What the tables stand for *)

Record memory := mkMemory {
  me_tasks : gmap jstr InFlightTask;
  me_files : gmap jstr (RecordedFile * Z);
  me_contexts : gmap (jstr * jstr) jstr;
  me_questions : gmap (jstr * jstr) PendingQuestion;
  me_queue : list QueuedRequest;
  me_next : Z }.

Definition new_memory : memory := mkMemory ∅ ∅ ∅ ∅ [] 1.

Inductive write :=
| WRecordTask (task : InFlightTask)
| WSetStreamTs (taskId : jstr) (streamTs : option jstr)
| WRemoveTask (taskId : jstr)
| WRecordFile (file : RecordedFile)
| WPruneFiles (olderThanMs : Z)
| WSaveContext (channel threadTs contextId : jstr)
| WEnqueue (request : QueuedRequest)
| WDequeue (id : Z)
| WRecordQuestion (question : PendingQuestion)
| WRemoveQuestion (channel messageTs : jstr).

Definition write_state (w : write) (now : Z) (s : BridgeState) : BridgeState :=
  match w with
  | WRecordTask task => recordTask task now s
  | WSetStreamTs taskId streamTs => setStreamTs taskId streamTs s
  | WRemoveTask taskId => removeTask taskId s
  | WRecordFile file => recordFile file now s
  | WPruneFiles olderThanMs => snd (pruneFiles olderThanMs now s)
  | WSaveContext channel threadTs contextId => saveContext channel threadTs contextId s
  | WEnqueue request => enqueue request now s
  | WDequeue id => dequeue id s
  | WRecordQuestion question => recordQuestion question now s
  | WRemoveQuestion channel messageTs => removeQuestion channel messageTs s
  end.

Definition on_stream (streamTs : option jstr) (t : InFlightTask) : InFlightTask :=
  mkInFlight (if_taskId t) (if_agent t) (if_channel t) (if_threadTs t) streamTs (if_messageTs t) (if_authorId t) (if_opening t).
Definition numbered (id : Z) (r : QueuedRequest) : QueuedRequest :=
  mkQueued id (qr_agent r) (qr_channel r) (qr_threadTs r) (qr_text r) (qr_messageTs r) (qr_fileIds r) (qr_authorId r).

Definition write_memory (w : write) (now : Z) (m : memory) : memory :=
  match w with
  | WRecordTask task => mkMemory (<[if_taskId task := task]> (me_tasks m)) (me_files m) (me_contexts m) (me_questions m) (me_queue m) (me_next m)
  | WSetStreamTs taskId streamTs =>
      mkMemory (alter (on_stream streamTs) taskId (me_tasks m)) (me_files m) (me_contexts m) (me_questions m) (me_queue m) (me_next m)
  | WRemoveTask taskId => mkMemory (delete taskId (me_tasks m)) (me_files m) (me_contexts m) (me_questions m) (me_queue m) (me_next m)
  | WRecordFile file => mkMemory (me_tasks m) (<[rf_fileId file := (file, now)]> (me_files m)) (me_contexts m) (me_questions m) (me_queue m) (me_next m)
  | WPruneFiles olderThanMs =>
      mkMemory (me_tasks m) (filter (fun kv => ~ snd (snd kv) < now - olderThanMs) (me_files m)) (me_contexts m) (me_questions m) (me_queue m) (me_next m)
  | WSaveContext channel threadTs contextId =>
      mkMemory (me_tasks m) (me_files m) (<[(channel, threadTs) := contextId]> (me_contexts m)) (me_questions m) (me_queue m) (me_next m)
  | WEnqueue request => mkMemory (me_tasks m) (me_files m) (me_contexts m) (me_questions m) (me_queue m ++ [numbered (me_next m) request]) (me_next m + 1)
  | WDequeue id => mkMemory (me_tasks m) (me_files m) (me_contexts m) (me_questions m) (filter (fun r => qr_id r <> id) (me_queue m)) (me_next m)
  | WRecordQuestion q =>
      mkMemory (me_tasks m) (me_files m) (me_contexts m) (<[(pq_channel q, pq_messageTs q) := q]> (me_questions m)) (me_queue m) (me_next m)
  | WRemoveQuestion channel messageTs =>
      mkMemory (me_tasks m) (me_files m) (me_contexts m) (delete (channel, messageTs) (me_questions m)) (me_queue m) (me_next m)
  end.

(** A question is recorded with a JSON value. *)
Definition writable (w : write) : Prop :=
  match w with WRecordQuestion q => json_ok (pq_questions q) | _ => True end.

Definition write_all (history : list (write * Z)) (s : BridgeState) : BridgeState :=
  fold_left (fun s w => write_state (fst w) (snd w) s) history s.
Definition remember_all (history : list (write * Z)) (m : memory) : memory :=
  fold_left (fun m w => write_memory (fst w) (snd w) m) history m.

(** Every read answers from the memory. *)
Definition reads_from (s : BridgeState) (m : memory) : Prop :=
  (forall taskId, taskById taskId s = me_tasks m !! taskId) /\
  allTasks s ≡ₚ (map_to_list (me_tasks m)).*2 /\
  (forall channel threadTs, tasksForThread channel threadTs s ≡ₚ
     filter (fun t => if_channel t = channel /\ if_threadTs t = threadTs) (map_to_list (me_tasks m)).*2) /\
  (forall agent fileId, fileFor agent fileId s =
     r ← me_files m !! fileId; if decide (rf_agent (fst r) = agent) then Some (fst r) else None) /\
  (forall channel threadTs, contextFor channel threadTs s = me_contexts m !! (channel, threadTs)) /\
  (forall channel messageTs, questionFor channel messageTs s = me_questions m !! (channel, messageTs)) /\
  (forall agent, queuedFor agent s = filter (fun r => qr_agent r = agent) (me_queue m)).

(** ** The relation the writes keep *)

Definition question_key (r : QuestionRow) : jstr * jstr := (qn_channel r, qn_message_ts r).
Definition question_of_row (r : QuestionRow) : option PendingQuestion :=
  questions ← parse (qn_questions r);
  Some (mkPendingQuestion (qn_agent r) (qn_channel r) (qn_message_ts r) (qn_thread_ts r) questions).
Definition file_key (r : RecordedFile * Z) : jstr := rf_fileId (fst r).

Record stands_for (s : BridgeState) (m : memory) : Prop := {
  sf_task_keys : unique_keys tr_task_id (bs_tasks s);
  sf_tasks t : task_of_row <$> by_key tr_task_id t (bs_tasks s) = me_tasks m !! t;
  sf_file_keys : unique_keys file_key (bs_files s);
  sf_files f : by_key file_key f (bs_files s) = me_files m !! f;
  sf_contexts : bs_contexts s = me_contexts m;
  sf_questions k : by_key question_key k (bs_questions s) ≫= question_of_row = me_questions m !! k;
  sf_queue : request_of_row <$> bs_queued s = me_queue m;
  sf_next : bs_next_id s = me_next m }.

Lemma opening_back task now : task_of_row (task_row task now) = task.
Proof. destruct task as [? ? ? ? ? ? ? [[]|]]; reflexivity. Qed.

Lemma ids_back ids : parseIds (stringify (VArr (VStr <$> ids))) = ids.
Proof.
  unfold parseIds. rewrite parse_stringify.
  - induction ids as [|x ids IH]; [done|]. csimpl. by rewrite IH.
  - apply json_ok_arr. by induction ids; constructor.
Qed.

Lemma question_keys_filter k (l : list QuestionRow) :
  filter (fun r => ~ (qn_channel r = fst k /\ qn_message_ts r = snd k)) l = filter (fun r => question_key r <> k) l.
Proof.
  apply filter_ext_elem. intros r _. unfold question_key. destruct k as [a b]. cbn.
  split; intros H E; apply H; [by simplify_eq|]. by destruct E as [-> ->].
Qed.

Lemma stands_for_write w now s m : writable w -> stands_for s m -> stands_for (write_state w now s) (write_memory w now m).
Proof.
  intros Hw [Htk Ht Hfk Hf Hc Hq Hqu Hn].
  destruct w as [task|taskId streamTs|taskId|file|older|c th ctx|req|id|q|c ts]; cbn [write_state write_memory].
  - split; cbn; try done; [by apply unique_put|]. intros t.
    rewrite by_key_put, lookup_insert by done.
    destruct (decide (t = if_taskId task)) as [->|H].
    + rewrite decide_True by done. cbn. by rewrite opening_back.
    + rewrite decide_False by done. apply Ht.
  - split; cbn; try done.
    + unfold unique_keys in *. rewrite <- list_fmap_compose.
      rewrite (list_fmap_ext (tr_task_id ∘ _) tr_task_id); [done|]. intros _ r _. cbn. by case_decide.
    + intros t. rewrite by_key_map by (intros r; by case_decide). rewrite lookup_alter, <- !Ht.
      destruct (by_key tr_task_id t (bs_tasks s)) as [r|] eqn:E.
      * apply by_key_Some in E as Hr. destruct Hr as [_ Hr]. cbn. rewrite Hr.
        destruct (decide (taskId = t)) as [->|H]; [|by rewrite decide_False by congruence].
        by rewrite decide_True, E by done.
      * case_decide as H; [|done]. by rewrite H, E.
  - split; cbn; try done; [by apply unique_filter|]. intros t. rewrite by_key_without, lookup_delete.
    destruct (decide (t = taskId)) as [->|H]; [by rewrite decide_True|]. rewrite decide_False by congruence. apply Ht.
  - split; cbn; try done; [by apply (unique_put file_key)|]. intros f.
    rewrite (by_key_put file_key), lookup_insert by done.
    destruct (decide (f = rf_fileId file)) as [->|H]; [by rewrite decide_True|]. by rewrite decide_False by congruence.
  - split; cbn; try done; [by apply unique_filter|]. intros f. rewrite by_key_filter, Hf by done.
    rewrite map_lookup_filter. destruct (me_files m !! f) as [r|]; [|done]. cbn.
    unfold guard. by case_decide.
  - split; cbn; try done. by rewrite Hc.
  - split; cbn; try done; [|by rewrite Hn]. rewrite fmap_app, Hqu, Hn. cbn. unfold request_of_row, numbered. cbn.
    by rewrite ids_back.
  - split; cbn; try done. rewrite <- Hqu. clear. induction (bs_queued s) as [|r l IH]; [done|].
    rewrite fmap_cons, !filter_cons. cbn [qr_id request_of_row]. by case_decide; rewrite ?fmap_cons, IH.
  - split; cbn; try done. intros k.
    rewrite (question_keys_filter (pq_channel q, pq_messageTs q)).
    rewrite by_key_put, lookup_insert by done.
    destruct (decide (k = _)) as [->|H].
    + rewrite decide_True by done. cbn. unfold question_of_row. cbn. rewrite parse_stringify by done. by destruct q.
    + rewrite decide_False by congruence. apply Hq.
  - split; cbn; try done. intros k. rewrite (question_keys_filter (c, ts)), by_key_without, lookup_delete.
    destruct (decide (k = (c, ts))) as [->|H]; [by rewrite decide_True|]. rewrite decide_False by congruence. apply Hq.
Qed.

Lemma stands_for_all history s m : Forall (fun w => writable (fst w)) history -> stands_for s m ->
  stands_for (write_all history s) (remember_all history m).
Proof.
  intros Hw; revert s m. induction Hw as [|[w now] history Hw _ IH]; intros s m H; [done|].
  cbn. by apply IH, stands_for_write.
Qed.

(** ** Reading back *)

Lemma insert_row_perm r l : insert_row r l ≡ₚ r :: l.
Proof.
  induction l as [|x l IH]; [done|]. cbn. case_match; [done|]. rewrite IH. apply Permutation_swap.
Qed.

Lemma rows_by_created_perm l : by_created l ≡ₚ l.
Proof. induction l as [|r l IH]; [done|]. cbn. by rewrite insert_row_perm, IH. Qed.

Lemma tasks_are_values s m : stands_for s m -> task_of_row <$> bs_tasks s ≡ₚ (map_to_list (me_tasks m)).*2.
Proof.
  intros [Hk Ht _ _ _ _ _ _].
  assert (Hpairs : (fun r => (tr_task_id r, task_of_row r)) <$> bs_tasks s ≡ₚ map_to_list (me_tasks m)).
  { apply NoDup_Permutation.
    - apply (NoDup_fmap_1 fst). by rewrite <- list_fmap_compose.
    - apply NoDup_map_to_list.
    - intros [t x]. rewrite elem_of_map_to_list, <- Ht, list_elem_of_fmap. split.
      + intros (r & [= -> ->] & Hr). pose proof (by_key_elem tr_task_id _ r Hk Hr) as E. by rewrite E.
      + intros (r & [Hr <-]%by_key_Some & ->)%fmap_Some. by exists r. }
  rewrite <- Hpairs, <- list_fmap_compose. done.
Qed.

Lemma find_same {A} (f g : A -> bool) l : (forall x, f x = g x) -> List.find f l = List.find g l.
Proof. intros H. induction l as [|x l IH]; [done|]. cbn. by rewrite H, IH. Qed.

Lemma find_within (P Q : RecordedFile * Z -> bool) l :
  unique_keys file_key l -> (forall x, Q x = true -> forall y, Q y = true -> file_key x = file_key y) ->
  List.find (fun r => P r && Q r) l = r ← List.find Q l; if P r then Some r else None.
Proof.
  unfold unique_keys. induction l as [|x l IH]; [done|]. rewrite fmap_cons, NoDup_cons. intros [Hx Hl] HQ. cbn.
  destruct (Q x) eqn:E; [|by rewrite andb_false_r, IH]. rewrite andb_true_r. destruct (P x) eqn:EP; cbn; [by rewrite EP|].
  rewrite EP, IH by done. destruct (List.find Q l) as [y|] eqn:Ey; [|done]. exfalso. apply Hx.
  apply List.find_some in Ey as [Hin Ey]. rewrite (HQ x E y Ey). by apply list_elem_of_fmap_2, list_elem_of_In.
Qed.

Lemma reads_from_stands s m : stands_for s m -> reads_from s m.
Proof.
  intros H. pose proof (tasks_are_values s m H) as Hv. destruct H as [Hk Ht Hfk Hf Hc Hq Hqu _]. split_and!.
  - done.
  - unfold allTasks. by rewrite rows_by_created_perm.
  - intros c th. unfold tasksForThread. rewrite rows_by_created_perm, <- Hv. clear. induction (bs_tasks s) as [|r l IH]; [done|].
    rewrite fmap_cons, !filter_cons. cbn [if_channel if_threadTs task_of_row]. case_decide; [|done].
    by rewrite fmap_cons, IH.
  - intros agent f. unfold fileFor. rewrite <- Hf. unfold by_key.
    rewrite (find_within (fun r => jeqb (rf_agent (fst r)) agent) (fun r => jeqb (rf_fileId (fst r)) f)); [|done|].
    + unfold jeqb, file_key. destruct (List.find _ _) as [r|]; [|done]. cbn. case_bool_decide; by case_decide.
    + unfold jeqb, file_key. intros x Hx y Hy. rewrite bool_decide_eq_true in Hx, Hy. congruence.
  - intros c th. unfold contextFor. by rewrite Hc.
  - intros c ts. rewrite <- Hq. unfold questionFor, by_key.
    rewrite (find_same _ (fun r => bool_decide (question_key r = (c, ts)))).
    + destruct (List.find _ _) as [r|] eqn:E; [|done]. apply List.find_some in E as [_ E].
      apply bool_decide_eq_true in E. unfold question_key in E. injection E as <- <-. done.
    + intros r. unfold jeqb, question_key. rewrite <- bool_decide_and. apply bool_decide_ext.
      split; [by intros [-> ->]|by intros [= -> ->]].
  - intros agent. unfold queuedFor. rewrite <- Hqu. clear. induction (bs_queued s) as [|r l IH]; [done|].
    rewrite fmap_cons, !filter_cons. cbn [qr_agent request_of_row]. case_decide; [|done].
    by rewrite fmap_cons, IH.
Qed.

(** C30: the tables are maps and a queue. After any history of writes a task
    is read back as it was last recorded, with the last stream set for it,
    until it is removed; a file is found by its own agent alone, with its
    descriptor as recorded, until it is pruned; a thread's context is the
    last one saved; a question is read back out of its JSON exactly as it was
    posted until it is removed; and the queue hands an agent its requests,
    files and author included, in the order they were queued. *)
Theorem state_reads_back history :
  Forall (fun w => writable (fst w)) history ->
  reads_from (write_all history new_state) (remember_all history new_memory).
Proof.
  intros Hw. apply reads_from_stands, stands_for_all; [done|].
  split; try done; intros; by rewrite lookup_empty || constructor.
Qed.

Definition demo_history : list (write * Z) :=
  [(WRecordTask (mkInFlight (js "t1") (js "hearth") (js "C1") (js "1.0") None (Some (js "1.0")) (Some (js "U1")) (Some true)), 10);
   (WSetStreamTs (js "t1") (Some (js "9.9")), 11);
   (WRecordFile (mkRecordedFile (js "F1") (js "hearth") (js "C1") (js "1.0") (js "a.png") (js "image/png") 3 (js "https://x")), 12);
   (WRecordQuestion (mkPendingQuestion (js "hearth") (js "C1") (js "2.0") (js "1.0")
      (VArr [VObj [(js "question", VStr (js "Deploy?")); (js "multiSelect", VBool false)]])), 13);
   (WEnqueue (mkQueued 0 (js "hearth") (js "C1") (js "1.0") (js "later") (js "3.0") [js "F1"] None), 14);
   (WRemoveTask (js "t0"), 15)].

Lemma state_reads_back_witness :
  reads_from (write_all demo_history new_state) (remember_all demo_history new_memory).
Proof.
  apply (state_reads_back demo_history). unfold demo_history. repeat (apply Forall_cons; split); try exact I; [|by constructor].
  cbn. split_and!; try exact I. apply (bool_decide_unpack _). vm_compute. exact I.
Defined.
