(* ===== verification/Values.v ===== *)
(** Dynamic values as the bridges read them, and the standard functions on
    strings they share. *)

From S2P Require Import Prelude Envelope SessionId.
#[local] Open Scope nat_scope.

Definition ellipsis : jstr := js "…".

(** [a ?? b], and [String(v ?? "")]. *)
Definition or_else (a b : jsval) : jsval := if nullish a then b else a.
Definition string_of (v : jsval) : jstr := to_string (or_else v (VStr [])).

(** [(v as …).k]: fails on what has no properties, is absent on primitives. *)
Definition get (v : jsval) (k : jstr) : option jsval := if nullish v then None else Some (prop v k).
(** [(v as … | undefined)?.k]. *)
Definition get_opt (v : jsval) (k : jstr) : jsval := if nullish v then VUndef else prop v k.

(** Capitals and digits. *)
Definition id_unit (c : N) : bool := ((65 <=? c) && (c <=? 90) || (48 <=? c) && (c <=? 57))%N.

(** [encodeURIComponent]; [None] is its [URIError] on a lone surrogate. *)
Definition unreserved (c : N) : bool :=
  id_unit c || ((97 <=? c) && (c <=? 122))%N || bool_decide (c ∈ js "-_.!~*'()").
Fixpoint well_formed (s : jstr) : bool :=
  match s with
  | [] => true
  | c :: t => if is_high c then match t with d :: t' => is_low d && well_formed t' | [] => false end
              else negb (is_low c) && well_formed t
  end.
Definition upper_hex (n : N) : N := if (n <? 10)%N then (48 + n)%N else (55 + n)%N.
Definition encodeURIComponent (s : jstr) : option jstr :=
  if well_formed s
  then Some (concat ((fun b => if unreserved b then [b] else [37; upper_hex (b / 16); upper_hex (b mod 16)]%N) <$> utf8 s))
  else None.
