(* ===== verification/Numbers.v ===== *)
(** [Number(v)] as the language defines it: the numeral a string spells,
    rounded to the nearest double. *)

From S2P Require Import Prelude Envelope.
#[local] Open Scope Z_scope.

(** A double: [Finite negative m e] is [m * 2^e], with its sign. *)
Inductive number :=
| NaN
| Infinite (negative : bool)
| Finite (negative : bool) (m e : Z).

(** The nearest double to [num / den], ties to even: 53 bits, the least
    exponent -1074, and past 2^1024 infinite. *)
Definition scaled (num den e : Z) : Z * Z := if e <? 0 then (num * 2 ^ (- e), den) else (num, den * 2 ^ e).
Definition half_even (num den : Z) : Z :=
  let q := num / den in
  match (2 * (num mod den) ?= den) with Lt => q | Gt => q + 1 | Eq => if Z.even q then q else q + 1 end.
Definition magnitude (num den : Z) : Z :=
  let l := Z.log2 num - Z.log2 den in
  let '(n, d) := scaled num den l in if n <? d then l - 1 else l.
Definition round_double (negative : bool) (num den : Z) : number :=
  if num =? 0 then Finite negative 0 0 else
  let e := Z.max (-1074) (magnitude num den - 52) in
  let '(n, d) := scaled num den e in
  let q := half_even n d in
  if (0 <=? e) && (2 ^ 1024 <=? q * 2 ^ e) then Infinite negative else Finite negative q e.

(** ** Numerals *)

Definition of_decimal (negative : bool) (m e : Z) : number :=
  if e <? 0 then round_double negative m (10 ^ (- e)) else round_double negative (m * 10 ^ e) 1.

(** [ExponentPart], to the end of the string. *)
Definition exponent_part (s : jstr) : option Z :=
  match s with
  | [] => Some 0
  | c :: t =>
      if negb ((c =? 101) || (c =? 69))%N then None else
      let '(sign, digits) := match t with 43%N :: d => (1, d) | 45%N :: d => (-1, d) | d => (1, d) end in
      if negb (bool_decide (digits = [])) && forallb is_digit digits then Some (sign * digits_value digits) else None
  end.

Definition unsigned_decimal (s : jstr) : option (Z * Z) :=
  let whole := take_while is_digit s in
  let after := drop_while is_digit s in
  let '(fraction, rest) := match after with 46%N :: t => (take_while is_digit t, drop_while is_digit t) | _ => ([], after) end in
  if bool_decide (whole ++ fraction = []) then None else
  e ← exponent_part rest;
  Some (digits_value (whole ++ fraction), e - Z.of_nat (length fraction)).

(** A run of digits in base 16, 8 or 2. *)
Definition digit_in (base c : N) : option Z :=
  let d := if is_digit c then (c - 48)%N
           else if ((97 <=? c) && (c <=? 102))%N then (c - 87)%N
           else if ((65 <=? c) && (c <=? 70))%N then (c - 55)%N else base in
  if (d <? base)%N then Some (Z.of_N d) else None.
Definition in_base (base : N) (s : jstr) : number :=
  match mapM (digit_in base) s with
  | Some (d :: ds) => round_double false (fold_left (fun acc d => acc * Z.of_N base + d) (d :: ds) 0) 1
  | _ => NaN
  end.

Definition signed_decimal (negative : bool) (s : jstr) : number :=
  if jeqb s (js "Infinity") then Infinite negative else
  match unsigned_decimal s with Some (m, e) => of_decimal negative m e | None => NaN end.

Definition number_of_string (str : jstr) : number :=
  match trim str with
  | [] => Finite false 0 0
  | 48%N :: c :: t =>
      if ((c =? 120) || (c =? 88))%N then in_base 16 t
      else if ((c =? 111) || (c =? 79))%N then in_base 8 t
      else if ((c =? 98) || (c =? 66))%N then in_base 2 t
      else signed_decimal false (48%N :: c :: t)
  | 43%N :: t => signed_decimal false t
  | 45%N :: t => signed_decimal true t
  | s => signed_decimal false s
  end.

(** A value that is a number already is an integer here. *)
Definition Number (v : jsval) : number :=
  match v with
  | VUndef | VObj _ => NaN
  | VNull | VBool false => Finite false 0 0
  | VBool true => Finite false 1 0
  | VNum n => Finite (n <? 0) (Z.abs n) 0
  | VStr s => number_of_string s
  | VArr _ => number_of_string (to_string v)
  end.

(** [Math.floor] of what is not negative. *)
Definition floor_of (m e : Z) : Z := Z.shiftl m e.

(** ** Rounding is exact where it can be *)

Lemma half_even_exact n : half_even n 1 = n.
Proof. unfold half_even. by rewrite Z.div_1_r, Z.mod_1_r. Qed.

Lemma half_even_multiple q d : 0 < d -> half_even (q * d) d = q.
Proof. intros Hd. unfold half_even. rewrite Z.div_mul, Z.mod_mul by lia. by destruct d. Qed.

Lemma magnitude_integer n : 0 < n -> magnitude n 1 = Z.log2 n.
Proof.
  intros Hn. unfold magnitude, scaled. rewrite Z.sub_0_r. pose proof (Z.log2_nonneg n).
  destruct (Z.ltb_spec (Z.log2 n) 0); [lia|]. pose proof (Z.log2_spec n Hn).
  destruct (Z.ltb_spec n (1 * 2 ^ Z.log2 n)); [lia|done].
Qed.

(** A natural number below 2^53 is a double. *)
Lemma round_double_small n : 0 < n < 2 ^ 53 ->
  exists m e, round_double false n 1 = Finite false m e /\ floor_of m e = n /\ 0 < m.
Proof.
  intros Hn. unfold round_double. destruct (Z.eqb_spec n 0); [lia|]. rewrite magnitude_integer by lia.
  pose proof (Z.log2_nonneg n). assert (Z.log2 n < 53) by (apply Z.log2_lt_pow2; lia).
  set (e := Z.max _ _). assert (He : -1074 <= e <= 0) by lia. unfold scaled. destruct (Z.ltb_spec e 0).
  - rewrite half_even_exact. destruct (Z.leb_spec 0 e); [lia|]. cbn [andb]. eexists _, _. split; [done|].
    assert (0 < 2 ^ (- e)) by (apply Z.pow_pos_nonneg; lia). split; [|lia].
    unfold floor_of. rewrite <- (Z.opp_involutive e) at 2. rewrite <- Z.shiftr_opp_r, Z.shiftr_div_pow2 by lia.
    rewrite Z.opp_involutive. apply Z.div_mul. lia.
  - assert (e = 0) as -> by lia. rewrite Z.mul_1_r, half_even_exact.
    destruct (Z.leb_spec (2 ^ 1024) n) as [Hbig|Hsmall].
    + exfalso. assert (2 ^ 53 <= 2 ^ 1024) by (apply Z.pow_le_mono_r; lia). lia.
    + exists n, 0. by split_and!; [| |lia].
Qed.
