(* ===== verification/Bytes.v ===== *)
(** Strings as bytes: [Buffer.from(s)] is [utf8] of SessionId.v, and here are
    the way back, base 64, and what becomes of a string that passes through
    UTF-8. *)

From S2P Require Import Prelude SessionId Json Values.
#[local] Open Scope N_scope.

(** ** Well-formed strings *)

(** [s.toWellFormed()]: each lone surrogate is replaced by U+FFFD. *)
Fixpoint to_well_formed (s : jstr) : jstr :=
  match s with
  | [] => []
  | c :: t =>
      if is_high c then
        match t with
        | d :: t' => if is_low d then c :: d :: to_well_formed t' else 65533 :: to_well_formed t
        | [] => [65533]
        end
      else (if is_low c then 65533 else c) :: to_well_formed t
  end.

(** ** Reading UTF-8 *)

(** A sequence begun: how many bytes are still to come, what the next may
    be, and the point so far. *)
Record pending := mkPending {
  pd_needed : nat;
  pd_low : N;
  pd_high : N;
  pd_point : N }.

Definition units_of_point (p : N) : jstr :=
  if p <? 65536 then [p] else [55296 + (p - 65536) / 1024; 56320 + (p - 65536) mod 1024].

Definition begin (b : N) : jstr * option pending :=
  if b <? 128 then ([b], None)
  else if (194 <=? b) && (b <=? 223) then ([], Some (mkPending 1 128 191 (b - 192)))
  else if (224 <=? b) && (b <=? 239)
  then ([], Some (mkPending 2 (if b =? 224 then 160 else 128) (if b =? 237 then 159 else 191) (b - 224)))
  else if (240 <=? b) && (b <=? 244)
  then ([], Some (mkPending 3 (if b =? 240 then 144 else 128) (if b =? 244 then 143 else 191) (b - 240)))
  else ([65533], None).

Definition feed (p : option pending) (b : N) : jstr * option pending :=
  match p with
  | None => begin b
  | Some (mkPending needed low high point) =>
      if (low <=? b) && (b <=? high) then
        let point' := point * 64 + (b - 128) in
        match needed with
        | S (S n) => ([], Some (mkPending (S n) 128 191 point'))
        | _ => (units_of_point point', None)
        end
      else let '(units, p') := begin b in (65533 :: units, p')
  end.

Fixpoint decode_from (p : option pending) (bytes : list N) : jstr :=
  match bytes with
  | [] => match p with Some _ => [65533] | None => [] end
  | b :: t => let '(units, p') := feed p b in units ++ decode_from p' t
  end.

(** [buffer.toString("utf-8")]: what is no sequence reads as U+FFFD. *)
Definition utf8_decode : list N -> jstr := decode_from None.

(** ** Base 64 *)

Definition digit64 (n : N) : N :=
  if n <? 26 then 65 + n else if n <? 52 then 71 + n else if n <? 62 then n - 4 else if n =? 62 then 43 else 47.
Definition value64 (c : N) : option N :=
  if (65 <=? c) && (c <=? 90) then Some (c - 65)
  else if (97 <=? c) && (c <=? 122) then Some (c - 71)
  else if (48 <=? c) && (c <=? 57) then Some (c + 4)
  else if (c =? 43) || (c =? 45) then Some 62
  else if (c =? 47) || (c =? 95) then Some 63
  else None.

(** [buffer.toString("base64")]. *)
Fixpoint to_base64 (bytes : list N) : jstr :=
  match bytes with
  | a :: b :: c :: t =>
      [digit64 (a / 4); digit64 (a mod 4 * 16 + b / 16); digit64 (b mod 16 * 4 + c / 64); digit64 (c mod 64)] ++ to_base64 t
  | [a; b] => [digit64 (a / 4); digit64 (a mod 4 * 16 + b / 16); digit64 (b mod 16 * 4); 61]
  | [a] => [digit64 (a / 4); digit64 (a mod 4 * 16); 61; 61]
  | [] => []
  end.

Fixpoint of_sextets (l : list N) : list N :=
  match l with
  | a :: b :: c :: d :: t => [a * 4 + b / 16; b mod 16 * 16 + c / 4; c mod 4 * 64 + d] ++ of_sextets t
  | [a; b; c] => [a * 4 + b / 16; b mod 16 * 16 + c / 4]
  | [a; b] => [a * 4 + b / 16]
  | _ => []
  end.

(** [Buffer.from(s, "base64")]: either alphabet, and what is in neither is
    passed over. *)
Definition from_base64 (s : jstr) : list N := of_sextets (omap value64 s).

(** ** Round trips *)

Ltac arith := zify; Z.to_euclidean_division_equations; lia.
Ltac decide_all := repeat match goal with
  | |- context [?a <? ?b] => destruct (N.ltb_spec a b); [try (exfalso; arith)|try (exfalso; arith)]
  | |- context [?a <=? ?b] => destruct (N.leb_spec a b); [try (exfalso; arith)|try (exfalso; arith)]
  | |- context [?a =? ?b] => destruct (N.eqb_spec a b); [try (exfalso; arith)|try (exfalso; arith)]
  end; cbn [andb orb negb].

Lemma value_digit n : n < 64 -> value64 (digit64 n) = Some n.
Proof. intros Hn. unfold value64, digit64. decide_all; f_equal; arith. Qed.

Lemma by_threes (P : list N -> Prop) : P [] -> (forall a, P [a]) -> (forall a b, P [a; b]) ->
  (forall a b c t, P t -> P (a :: b :: c :: t)) -> forall l, P l.
Proof. intros H0 H1 H2 H3. fix go 1. intros [|a [|b [|c t]]]; [apply H0|apply H1|apply H2|apply H3, go]. Qed.

Lemma read_digit n t : n < 64 -> omap value64 (digit64 n :: t) = n :: omap value64 t.
Proof. intros Hn. cbn. by rewrite value_digit. Qed.

Lemma base64_roundtrip bytes : Forall (fun b => b < 256) bytes -> from_base64 (to_base64 bytes) = bytes.
Proof.
  unfold from_base64. induction bytes as [|a|a b|a b c t IH] using by_threes; [done|..]; rewrite ?Forall_cons; intros H; cbn [to_base64 app].
  - rewrite !read_digit by arith. cbn. f_equal. arith.
  - rewrite !read_digit by arith. cbn. repeat f_equal; arith.
  - destruct H as (Ha & Hb & Hc & Ht). rewrite !read_digit by arith. cbn [of_sextets app]. rewrite IH by done. repeat f_equal; arith.
Qed.

Lemma to_base64_nonempty bytes : bytes <> [] -> to_base64 bytes <> [].
Proof. by destruct bytes as [|a [|b [|c t]]]. Qed.

(** A point that UTF-8 encodes. *)
Definition scalar (p : N) : Prop := p < 55296 \/ 57344 <= p < 1114112.

Lemma utf8_of_point_bytes p : scalar p -> Forall (fun b => b < 256) (utf8_of_point p).
Proof. unfold scalar, utf8_of_point. intros Hp. decide_all; repeat constructor; arith. Qed.

Lemma decode_point p rest : scalar p -> decode_from None (utf8_of_point p ++ rest) = units_of_point p ++ decode_from None rest.
Proof.
  unfold scalar, utf8_of_point. intros Hp. decide_all; cbn [app decode_from feed].
  - unfold begin, units_of_point. decide_all. done.
  - unfold begin. decide_all. cbn [decode_from feed]. decide_all. unfold units_of_point. decide_all. cbn. f_equal. arith.
  - unfold begin. decide_all; cbn [decode_from feed]; decide_all; cbn [decode_from feed app]; decide_all; unfold units_of_point; decide_all; cbn; f_equal; arith.
  - unfold begin. decide_all; cbn [decode_from feed]; decide_all; cbn [decode_from feed app]; decide_all; cbn [decode_from feed app]; decide_all; unfold units_of_point; decide_all; cbn; repeat f_equal; arith.
Qed.

(** Units are of 16 bits. *)
Definition units (s : jstr) : Prop := Forall (fun c => c < 65536) s.

Lemma by_pairs (P : jstr -> Prop) : P [] -> (forall c t, P t -> (forall d t', t = d :: t' -> P t') -> P (c :: t)) -> forall s, P s.
Proof.
  intros H0 H1 s. cut (P s /\ (forall d t', s = d :: t' -> P t')); [tauto|].
  induction s as [|c t [IH1 IH2]]; [done|]. split; [by apply H1|]. by intros d t' [= <- <-].
Qed.

Lemma is_high_range c : is_high c = true -> 55296 <= c < 56320.
Proof. unfold is_high. rewrite andb_true_iff, N.leb_le, N.ltb_lt. lia. Qed.
Lemma is_low_range c : is_low c = true -> 56320 <= c < 57344.
Proof. unfold is_low. rewrite andb_true_iff, N.leb_le, N.ltb_lt. lia. Qed.
Lemma not_surrogate c : is_high c = false -> is_low c = false -> c < 55296 \/ 57344 <= c.
Proof. unfold is_high, is_low. rewrite !andb_false_iff, !N.leb_gt, !N.ltb_ge. lia. Qed.

Lemma units_of_pair c d : is_high c = true -> is_low d = true ->
  scalar (65536 + (c - 55296) * 1024 + (d - 56320)) /\ units_of_point (65536 + (c - 55296) * 1024 + (d - 56320)) = [c; d].
Proof.
  intros Hc%is_high_range Hd%is_low_range. unfold scalar, units_of_point. split; [arith|].
  destruct (N.ltb_spec (65536 + (c - 55296) * 1024 + (d - 56320)) 65536); [exfalso; arith|]. repeat f_equal; arith.
Qed.

Lemma units_of_unit c : c < 65536 -> units_of_point c = [c].
Proof. intros Hc. unfold units_of_point. by destruct (N.ltb_spec c 65536); [|lia]. Qed.

(** The units of a string come one by one, but for surrogates in pairs. *)
Lemma utf8_cases (P : jstr -> Prop) :
  P [] ->
  (forall c d t, is_high c = true -> is_low d = true -> P t -> P (c :: d :: t)) ->
  (forall c t, is_high c = false -> is_low c = false -> P t -> P (c :: t)) ->
  (forall c t, is_low c = true \/ is_high c = true /\ (match t with d :: _ => is_low d = false | [] => True end) -> P t -> P (c :: t)) ->
  forall s, P s.
Proof.
  intros H0 H1 H2 H3 s. induction s as [|c t IH1 IH2] using by_pairs; [done|].
  destruct (is_high c) eqn:Eh.
  - destruct t as [|d t']; [by apply H3; [right|apply IH1]|]. destruct (is_low d) eqn:El.
    + apply H1; [done..|]. by apply (IH2 d t' eq_refl).
    + by apply H3; [right|apply IH1].
  - destruct (is_low c) eqn:El; [by apply H3; [left|apply IH1]|by apply H2; [..|apply IH1]].
Qed.

Lemma low_not_high c : is_low c = true -> is_high c = false.
Proof. intros H%is_low_range. unfold is_high. apply andb_false_iff. rewrite N.ltb_ge. lia. Qed.

(** What [utf8] writes of each, and [to_well_formed] makes of it. *)
Lemma through_pair c d t : is_high c = true -> is_low d = true ->
  utf8 (c :: d :: t) = utf8_of_point (65536 + (c - 55296) * 1024 + (d - 56320)) ++ utf8 t /\
  to_well_formed (c :: d :: t) = c :: d :: to_well_formed t.
Proof. intros Hc Hd. cbn. by rewrite Hc, Hd. Qed.
Lemma through_unit c t : is_high c = false -> is_low c = false ->
  utf8 (c :: t) = utf8_of_point c ++ utf8 t /\ to_well_formed (c :: t) = c :: to_well_formed t.
Proof. intros Hc Hd. cbn. by rewrite Hc, Hd. Qed.
Lemma through_lone c t : is_low c = true \/ is_high c = true /\ (match t with d :: _ => is_low d = false | [] => True end) ->
  utf8 (c :: t) = utf8_of_point 65533 ++ utf8 t /\ to_well_formed (c :: t) = 65533 :: to_well_formed t.
Proof.
  intros [Hl|[Hh Ht]].
  - cbn. by rewrite (low_not_high c Hl), Hl.
  - cbn. rewrite Hh. destruct t as [|d t']; [by split|]. by rewrite Ht.
Qed.

(** Through UTF-8 and back a string is made well formed. *)
Lemma utf8_roundtrip s : units s -> utf8_decode (utf8 s) = to_well_formed s.
Proof.
  unfold utf8_decode. revert s. apply (utf8_cases (fun s => units s -> decode_from None (utf8 s) = to_well_formed s)); [done|..].
  - intros c d t Hc Hd IH [_ [_ Ht]%Forall_cons]%Forall_cons. destruct (through_pair c d t Hc Hd) as [-> ->].
    destruct (units_of_pair c d Hc Hd) as [Hs E]. by rewrite decode_point, E, IH.
  - intros c t Hc Hd IH [Hlt Ht]%Forall_cons. destruct (through_unit c t Hc Hd) as [-> ->].
    rewrite decode_point, (units_of_unit c Hlt), IH; [done..|]. destruct (not_surrogate c Hc Hd); [by left|right; lia].
  - intros c t Hl IH [_ Ht]%Forall_cons. destruct (through_lone c t Hl) as [-> ->]. rewrite decode_point, IH by (done || right; lia). done.
Qed.

Lemma utf8_bytes s : units s -> Forall (fun b => b < 256) (utf8 s).
Proof.
  revert s. apply (utf8_cases (fun s => units s -> Forall (fun b => b < 256) (utf8 s))); [constructor|..].
  - intros c d t Hc Hd IH [_ [_ Ht]%Forall_cons]%Forall_cons. destruct (through_pair c d t Hc Hd) as [-> _].
    apply Forall_app. split; [by apply utf8_of_point_bytes, units_of_pair|by apply IH].
  - intros c t Hc Hd IH [Hlt Ht]%Forall_cons. destruct (through_unit c t Hc Hd) as [-> _]. apply Forall_app. split; [|by apply IH].
    apply utf8_of_point_bytes. destruct (not_surrogate c Hc Hd); [by left|right; lia].
  - intros c t Hl IH [_ Ht]%Forall_cons. destruct (through_lone c t Hl) as [-> _]. apply Forall_app. split; [by repeat constructor|by apply IH].
Qed.

Lemma to_well_formed_units s : units s -> units (to_well_formed s).
Proof.
  revert s. apply (utf8_cases (fun s => units s -> units (to_well_formed s))); [constructor|..].
  - intros c d t Hc Hd IH [? [? Ht]%Forall_cons]%Forall_cons. destruct (through_pair c d t Hc Hd) as [_ ->].
    repeat constructor; [done..|by apply IH].
  - intros c t Hc Hd IH [Hlt Ht]%Forall_cons. destruct (through_unit c t Hc Hd) as [_ ->]. constructor; [done|by apply IH].
  - intros c t Hl IH [_ Ht]%Forall_cons. destruct (through_lone c t Hl) as [_ ->]. constructor; [done|by apply IH].
Qed.

Lemma to_well_formed_fixes s : well_formed (to_well_formed s) = true.
Proof.
  revert s. apply utf8_cases; [done|..].
  - intros c d t Hc Hd IH. destruct (through_pair c d t Hc Hd) as [_ ->]. cbn. by rewrite Hc, Hd.
  - intros c t Hc Hd IH. destruct (through_unit c t Hc Hd) as [_ ->]. cbn. by rewrite Hc, Hd.
  - intros c t Hl IH. by destruct (through_lone c t Hl) as [_ ->].
Qed.

Lemma well_formed_fixed s : well_formed s = true -> to_well_formed s = s.
Proof.
  revert s. apply (utf8_cases (fun s => well_formed s = true -> to_well_formed s = s)); [done|..].
  - intros c d t Hc Hd IH. destruct (through_pair c d t Hc Hd) as [_ ->]. cbn. rewrite Hc, Hd. intros H. by rewrite IH.
  - intros c t Hc Hd IH. destruct (through_unit c t Hc Hd) as [_ ->]. cbn. rewrite Hc, Hd. intros H. by rewrite IH.
  - intros c t [Hl|[Hh Ht]] IH; cbn; [by rewrite (low_not_high c Hl), Hl|]. rewrite Hh. destruct t as [|d t']; [done|]. by rewrite Ht.
Qed.

Lemma to_well_formed_twice s : to_well_formed (to_well_formed s) = to_well_formed s.
Proof. apply well_formed_fixed, to_well_formed_fixes. Qed.

Lemma to_well_formed_elem s c : c ∈ to_well_formed s -> c ∈ s \/ c = 65533.
Proof.
  revert s. apply (utf8_cases (fun s => c ∈ to_well_formed s -> c ∈ s \/ c = 65533)); [by left|..].
  - intros c0 d t Hc Hd IH. destruct (through_pair c0 d t Hc Hd) as [_ ->]. rewrite !elem_of_cons. tauto.
  - intros c0 t Hc Hd IH. destruct (through_unit c0 t Hc Hd) as [_ ->]. rewrite !elem_of_cons. tauto.
  - intros c0 t Hl IH. destruct (through_lone c0 t Hl) as [_ ->]. rewrite !elem_of_cons. tauto.
Qed.

(** ** JSON text is well formed *)

Lemma well_formed_app a b : well_formed a = true -> well_formed b = true -> well_formed (a ++ b) = true.
Proof.
  intros Ha Hb. revert a Ha. apply (utf8_cases (fun a => well_formed a = true -> well_formed (a ++ b) = true)); [done|..].
  - intros c d t Hc Hd IH. cbn. rewrite Hc, Hd. apply IH.
  - intros c t Hc Hd IH. cbn. rewrite Hc, Hd. apply IH.
  - intros c t [Hl|[Hh Ht]] IH; cbn; [by rewrite (low_not_high c Hl), Hl|]. rewrite Hh. destruct t as [|d t']; [done|]. by rewrite Ht.
Qed.

Lemma well_formed_small s : Forall (fun c => c < 55296) s -> well_formed s = true.
Proof.
  induction 1 as [|c s Hc _ IH]; [done|]. cbn. unfold is_high at 1, is_low.
  rewrite (proj2 (N.leb_gt 55296 c)), (proj2 (N.leb_gt 56320 c)) by lia. exact IH.
Qed.

Lemma well_formed_join sep l : well_formed sep = true -> Forall (fun s => well_formed s = true) l -> well_formed (join_with sep l) = true.
Proof.
  intros Hs. induction 1 as [|x l Hx Hl IH]; [done|]. destruct l as [|y l]; [done|]. rewrite join_cons.
  by repeat apply well_formed_app.
Qed.

Lemma hex_digit_small n : n < 16 -> hex_digit n < 55296.
Proof. intros Hn. unfold hex_digit. destruct (n <? 10); lia. Qed.

Lemma well_formed_escape c : c < 65536 -> well_formed (escape c) = true.
Proof.
  intros Hc. unfold escape. repeat match goal with |- context [if ?b then _ else _] => destruct b; [reflexivity|] end.
  destruct (hex_digits c Hc) as (_ & H1 & H2 & H3 & H4). apply well_formed_small, Forall_app. split.
  - vm_compute. repeat constructor.
  - repeat constructor; by apply hex_digit_small.
Qed.

Lemma plain_surrogate c : is_high c = true \/ is_low c = true -> plain_unit c = false /\ is_quote c || is_backslash c = false /\ c < 65536.
Proof.
  intros H. assert (55296 <= c < 57344) by (destruct H as [?%is_high_range|?%is_low_range]; lia).
  unfold plain_unit, is_quote, is_backslash. rewrite (proj2 (N.eqb_neq c 34)), (proj2 (N.eqb_neq c 92)) by lia.
  split_and!; [|done|lia]. apply negb_false_iff. destruct H as [->| ->]; by rewrite ?orb_true_r.
Qed.

Lemma well_formed_quoted s : well_formed (quoted s) = true.
Proof.
  revert s. apply utf8_cases; [done|..].
  - intros c d t Hc Hd IH. destruct (plain_surrogate c) as (Hp & Hq & _); [by left|]. cbn [quoted]. rewrite Hp, Hq, Hc, Hd.
    cbn. by rewrite Hc, Hd.
  - intros c t Hc Hd IH. cbn [quoted]. destruct (plain_unit c) eqn:Hp; [cbn; by rewrite Hc, Hd|].
    destruct (is_quote c || is_backslash c) eqn:Hq; [cbn; by rewrite Hc, Hd|]. rewrite Hc.
    apply well_formed_app; [|done]. by apply well_formed_escape, escaped_small.
  - intros c t H IH. assert (is_high c = true \/ is_low c = true) as Hs by tauto.
    destruct (plain_surrogate c Hs) as (Hp & Hq & Hlt). cbn [quoted]. rewrite Hp, Hq.
    assert (well_formed (escape c ++ quoted t) = true) as He by (apply well_formed_app; [by apply well_formed_escape|done]).
    destruct H as [Hl|[Hh Ht]]; [by rewrite (low_not_high c Hl)|]. rewrite Hh. destruct t as [|d t']; [by apply well_formed_escape|by rewrite Ht].
Qed.

Lemma well_formed_string s : well_formed (json_string s) = true.
Proof. unfold json_string. apply well_formed_app; [done|]. apply well_formed_app; [apply well_formed_quoted|done]. Qed.

Lemma well_formed_show_Z z : well_formed (show_Z z) = true.
Proof.
  assert (Hpos : forall z, (0 <= z)%Z -> Forall (fun c => c < 55296) (show_Z z)).
  { intros z' Hz. destruct (numeral_digits (show_Z z') (proj1 (show_Z_numeral z' Hz))) as [_ H]. eapply Forall_impl; [exact H|].
    intros c. unfold is_digit. rewrite andb_true_iff, N.leb_le, N.leb_le. lia. }
  apply well_formed_small. destruct z as [|p|p]; [by apply Hpos..|]. rewrite show_Z_neg. constructor; [lia|]. by apply Hpos.
Qed.

Lemma well_formed_stringify v : well_formed (stringify v) = true.
Proof.
  induction v as [| |[]|z|s|l IH|fs IH] using jsval_deep_ind; cbn [stringify]; try reflexivity.
  - apply well_formed_show_Z.
  - apply well_formed_string.
  - apply well_formed_app; [done|]. apply well_formed_app; [|done]. apply well_formed_join; [done|]. by apply Forall_fmap.
  - apply well_formed_app; [done|]. apply well_formed_app; [|done]. apply well_formed_join; [done|].
    induction IH as [|[k x] fs Hx _ IH]; [constructor|]. cbn [snd] in Hx. cbn [omap list_omap].
    destruct x; try exact IH; (constructor; [|exact IH]);
      (apply well_formed_app; [apply well_formed_string|apply well_formed_app; [done|exact Hx]]).
Qed.
