(* ===== verification/SlackQuestions.v ===== *)
(** [apps/slack/src/questions.ts]: an agent's questions as Block Kit blocks,
    and what an interaction with those blocks answers. *)

From S2P Require Import Prelude Questions Values.
#[local] Open Scope nat_scope.

Definition PREFIX : jstr := js "thicket_q".
Definition SUBMIT_ACTION : jstr := PREFIX ++ js ":submit".
Definition LABEL_MAX : nat := 75.
Definition DESCRIPTION_MAX : nat := 75.
Definition SECTION_MAX : nat := 3000.

Definition clip (text : jstr) (max : nat) : jstr :=
  let flat := trim (collapse_ws text) in
  if length flat <=? max then flat else take (max - 1) flat ++ ellipsis.

(** ** Block Kit, as far as it is used *)

Inductive text_object :=
| PlainText (text : jstr)
| Mrkdwn (text : jstr).

Record choice := mkChoice {
  ch_text : text_object;
  ch_value : jstr;
  ch_description : option text_object }.

Inductive element :=
| Button (action_id : jstr) (text : text_object) (value : jstr) (primary : bool)
| Choices (checkboxes : bool) (action_id : jstr) (options : list choice).

Inductive block :=
| Section_ (block_id : option jstr) (text : text_object)
| Actions (block_id : jstr) (elements : list element)
| Context_ (elements : list text_object).

(** One tapped or changed element ([apps/slack/src/types.ts]). *)
Record BlockAction := mkBlockAction {
  ba_actionId : jstr;
  ba_blockId : jstr;
  ba_value : option jstr;
  ba_selected : option (list jstr) }.

(** Selected values by block and element. *)
Abbreviation element_state := (gmap jstr (gmap jstr (list jstr))).

(** ** Rendering *)

Definition plain (text : jstr) (max : nat) : text_object := PlainText (clip text max).

Definition mrkdwn (text : jstr) : text_object :=
  let trimmed := trim text in
  Mrkdwn (if length trimmed <=? SECTION_MAX then trimmed else take (SECTION_MAX - 1) trimmed ++ ellipsis).

Definition blockId (index : nat) : jstr := PREFIX ++ js ":" ++ show_nat index.
Definition actionId (index : nat) : jstr := PREFIX ++ js ":answer:" ++ show_nat index.
Definition optionValue (question option : nat) : jstr := show_nat question ++ js ":" ++ show_nat option.

(** [/^(\d+):(\d+)$/]. [Number] rounds a numeral past 2^53 to another as
    large, which no list of options reaches either. *)
Definition parseOptionValue (value : jstr) : option (Z * Z) :=
  match split (js ":") value with
  | [a; b] => if numeral a && numeral b then Some (digits_value a, digits_value b) else None
  | _ => None
  end.

Definition heading (q : AgentQuestion) : jstr :=
  match q_header q with
  | None => q_question q
  | Some h => js "*" ++ clip h LABEL_MAX ++ js "*" ++ [10%N] ++ q_question q
  end.

Definition optionElement (qi oi : nat) (option : AgentQuestionOption) : choice :=
  mkChoice (plain (o_label option) LABEL_MAX) (optionValue qi oi)
    ((fun d => plain d DESCRIPTION_MAX) <$> o_description option).

Definition isForm (questions : list AgentQuestion) : bool :=
  match questions with [q] => q_multiSelect q | _ => true end.

Definition question_blocks (form : bool) (qi : nat) (q : AgentQuestion) : list block :=
  [Section_ (Some (PREFIX ++ js ":text:" ++ show_nat qi)) (mrkdwn (heading q));
   Actions (blockId qi)
     (if form then [Choices (q_multiSelect q) (actionId qi) (imap (optionElement qi) (q_options q))]
      else imap (fun oi option => Button (actionId qi ++ js ":" ++ show_nat oi) (plain (o_label option) LABEL_MAX)
                                    (optionValue qi oi) false) (q_options q))].

Definition renderQuestionBlocks (questions : list AgentQuestion) : list block :=
  concat (imap (question_blocks (isForm questions)) questions)
  ++ (if isForm questions
      then [Actions (PREFIX ++ js ":controls") [Button SUBMIT_ACTION (plain (js "Submit") LABEL_MAX) (js "submit") true]]
      else []).

Definition questionFallbackText (questions : list AgentQuestion) : jstr := join_with (js " ") (q_question <$> questions).

(** ** Reading a tap *)

(** One answer per question, as indexes into its options. *)
Definition Answers : Type := list (list nat).

Inductive decoded := Answered (answers : Answers) | Incomplete.

Definition isQuestionAction (action : BlockAction) : bool := starts_with (PREFIX ++ js ":") (ba_actionId action).

(** An index of an option the question has. *)
Definition valid_option (q : AgentQuestion) (oi : Z) : option nat :=
  if decide (0 <= oi < Z.of_nat (length (q_options q)))%Z then Some (Z.to_nat oi) else None.

Definition picked (qi : nat) (q : AgentQuestion) (values : list jstr) : list nat :=
  omap (fun v => match parseOptionValue v with
                 | Some (question, option) => if (question =? Z.of_nat qi)%Z then valid_option q option else None
                 | None => None
                 end) values.

(** The loop over the questions of a form, from question [qi]. *)
Fixpoint form_answers (qi : nat) (questions : list AgentQuestion) (actions : list BlockAction)
    (state : option element_state) : option Answers :=
  match questions with
  | [] => Some []
  | q :: rest =>
      let fromState := st ← state; by_action ← st !! blockId qi; by_action !! actionId qi in
      let fromAction := a ← List.find (fun a => jeqb (ba_actionId a) (actionId qi)) actions; ba_selected a in
      let values := match fromState with Some v => v | None => default [] fromAction end in
      match picked qi q values with
      | [] => None
      | chosen => answers ← form_answers (S qi) rest actions state; Some (chosen :: answers)
      end
  end.

Definition decodeAnswers (questions : list AgentQuestion) (actions : list BlockAction) (state : option element_state)
    : option decoded :=
  let ours := filter (fun a => isQuestionAction a = true) actions in
  match ours with
  | [] => None
  | _ =>
      match questions, isForm questions with
      | q :: _, false =>
          tap ← List.find (fun a => present (ba_value a)) ours;
          value ← ba_value tap;
          '(question, option) ← parseOptionValue value;
          if (question =? 0)%Z then (fun oi => Answered [[oi]]) <$> valid_option q option else None
      | _, _ =>
          if existsb (fun a => jeqb (ba_actionId a) SUBMIT_ACTION) ours
          then Some (match form_answers 0 questions actions state with Some answers => Answered answers | None => Incomplete end)
          else None
      end
  end.

(** ** The answer *)

(** [None]: a label is read off an option that is not there. *)
Definition labels (q : AgentQuestion) (chosen : list nat) : option jstr :=
  join_with (js ", ") <$> mapM (fun oi => o_label <$> q_options q !! oi) chosen.

Definition answer_line (answers : Answers) (qi : nat) (q : AgentQuestion) : option jstr :=
  text ← labels q (default [] (answers !! qi));
  Some (default (q_question q) (q_header q) ++ js ": " ++ text).

Definition answerText (questions : list AgentQuestion) (answers : Answers) : option jstr :=
  join_with [10%N] <$> mapM id (imap (answer_line answers) questions).

Definition answered_blocks (answers : Answers) (userId : jstr) (qi : nat) (q : AgentQuestion) : option (list block) :=
  text ← labels q (default [] (answers !! qi));
  Some [Section_ None (mrkdwn (heading q)); Context_ [mrkdwn (js "✓ " ++ text ++ js " — chosen by <@" ++ userId ++ js ">")]].

Definition renderAnsweredBlocks (questions : list AgentQuestion) (answers : Answers) (userId : jstr) : option (list block) :=
  (fun l => concat l) <$> mapM id (imap (answered_blocks answers userId) questions).

(** ** Values and ids *)

Lemma digits_no_colon s : Forall (fun c => is_digit c = true) s -> 58%N ∉ s.
Proof. intros H Hin. rewrite Forall_forall in H. specialize (H _ Hin). done. Qed.

Lemma parse_optionValue question option :
  parseOptionValue (optionValue question option) = Some (Z.of_nat question, Z.of_nat option).
Proof.
  destruct (show_nat_numeral question) as [Ha Va], (show_nat_numeral option) as [Hb Vb].
  unfold parseOptionValue, optionValue. change (js ":") with [58%N]. cbn [app].
  rewrite split_app. unfold split. rewrite !split_go_none by (apply digits_no_colon; by apply numeral_digits).
  cbn [app]. by rewrite Ha, Hb, Va, Vb.
Qed.

Lemma show_nat_inj a b : show_nat a = show_nat b -> a = b.
Proof.
  intros E. destruct (show_nat_numeral a) as [_ Va], (show_nat_numeral b) as [_ Vb]. rewrite E in Va. lia.
Qed.

Lemma blockId_inj a b : blockId a = blockId b -> a = b.
Proof. unfold blockId. by intros H%app_inv_head%app_inv_head%show_nat_inj. Qed.

Lemma picked_values qi q chosen : Forall (fun oi => oi < length (q_options q)) chosen ->
  picked qi q (optionValue qi <$> chosen) = chosen.
Proof.
  unfold picked. induction 1 as [|oi chosen Hoi _ IH]; [done|]. csimpl. rewrite parse_optionValue, Z.eqb_refl.
  unfold valid_option. rewrite decide_True by lia. rewrite Nat2Z.id. f_equal. exact IH.
Qed.

Lemma picked_valid qi q values : Forall (fun oi => is_Some (q_options q !! oi)) (picked qi q values).
Proof.
  apply omap_Forall. intros v oi. destruct (parseOptionValue v) as [[a b]|]; [|done]. case_match; [|done].
  unfold valid_option. case_decide; [|done]. intros [= <-]. apply lookup_lt_is_Some. lia.
Qed.

(** ** What is decoded is valid *)

Definition answer_valid (q : AgentQuestion) (chosen : list nat) : Prop :=
  chosen <> [] /\ Forall (fun oi => is_Some (q_options q !! oi)) chosen.

Lemma form_answers_valid qi questions actions state answers :
  form_answers qi questions actions state = Some answers -> Forall2 answer_valid questions answers.
Proof.
  revert qi answers; induction questions as [|q questions IH]; intros qi answers; cbn [form_answers]; [by intros [= <-]|].
  cbv zeta. set (values := match _ with Some v => v | None => _ end). pose proof (picked_valid qi q values) as Hv.
  destruct (picked qi q values) as [|o chosen] eqn:E; [done|].
  destruct (form_answers (S qi) questions actions state) as [rest|] eqn:Er; [|done]. intros [= <-].
  constructor; [by split|by eapply IH].
Qed.

Lemma decodeAnswers_valid questions actions state answers :
  decodeAnswers questions actions state = Some (Answered answers) ->
  Forall2 answer_valid questions answers /\ (isForm questions = false -> exists oi, answers = [[oi]]).
Proof.
  unfold decodeAnswers. destruct (filter _ actions) as [|a ours]; [done|].
  assert (Hform : forall out : option decoded, out = Some (Answered answers) ->
    out = (if existsb (fun a => jeqb (ba_actionId a) SUBMIT_ACTION) (a :: ours)
           then Some (match form_answers 0 questions actions state with Some answers => Answered answers | None => Incomplete end)
           else None) -> Forall2 answer_valid questions answers).
  { intros out -> H. destruct (existsb _ _); [|done]. destruct (form_answers _ _ _ _) as [l|] eqn:E; [|done].
    injection H as <-. by eapply form_answers_valid. }
  destruct questions as [|q rest]; [intros H; split; [by eapply Hform|done]|].
  destruct (isForm (q :: rest)) eqn:Ef; [intros H; split; [by eapply Hform|done]|].
  destruct (List.find _ _) as [tap|]; [|done]. cbn [mbind option_bind]. destruct (ba_value tap) as [value|]; [|done].
  cbn [mbind option_bind]. destruct (parseOptionValue value) as [[a1 b1]|]; [|done]. cbn [mbind option_bind].
  destruct (a1 =? 0)%Z; [|done]. unfold valid_option. case_decide as Hb; [|done]. cbn. intros [= <-].
  destruct rest; [|done]. split; [|by eauto]. constructor; [|constructor]. split; [done|].
  constructor; [|constructor]. apply lookup_lt_is_Some. lia.
Qed.

Lemma mapM_is_Some {A B} (f : A -> option B) l : Forall (fun x => is_Some (f x)) l -> is_Some (mapM f l).
Proof.
  induction 1 as [|x l [y Hy] _ [ys IH]]; [by eexists|]. cbn. rewrite Hy. cbn. rewrite IH. by eexists.
Qed.

Lemma labels_valid q chosen : answer_valid q chosen -> is_Some (labels q chosen).
Proof.
  intros [_ H]. unfold labels. apply fmap_is_Some, mapM_is_Some. eapply Forall_impl; [exact H|].
  intros oi Hoi. by apply fmap_is_Some.
Qed.

(** What is written line by line, each from a valid answer, is written. *)
Lemma lines_written {B} (line : nat -> AgentQuestion -> option B) questions (answers : Answers) :
  Forall2 answer_valid questions answers ->
  (forall qi q chosen, answers !! qi = Some chosen -> answer_valid q chosen -> is_Some (line qi q)) ->
  is_Some (mapM id (imap line questions)).
Proof.
  intros H Hline. apply mapM_is_Some, Forall_lookup. intros i o Ho. rewrite list_lookup_imap in Ho.
  apply fmap_Some in Ho as (q & Hq & ->). destruct (Forall2_lookup_l _ _ _ _ _ H Hq) as (chosen & Hc & Hv). by eapply Hline.
Qed.

(** Whatever an interaction carries — taps on other elements, values
    that were never offered, a state with too little or too much — the answers
    decoded from it choose only options that exist, at least one for every
    question and exactly one where a button answers outright, so the reply to
    the agent and the redrawn message can always be written. *)
Theorem decoded_answers_valid questions actions state answers userId :
  decodeAnswers questions actions state = Some (Answered answers) ->
  Forall2 answer_valid questions answers /\
  (isForm questions = false -> exists oi, answers = [[oi]]) /\
  is_Some (answerText questions answers) /\ is_Some (renderAnsweredBlocks questions answers userId).
Proof.
  intros [Hv Hone]%decodeAnswers_valid. split_and!; [done|done|..]; apply fmap_is_Some, (lines_written _ _ answers); try done;
    intros qi q chosen Hq H; destruct (labels_valid q chosen H) as [text Ht]; unfold answer_line, answered_blocks;
    rewrite Hq; cbn [default id]; rewrite Ht; by eexists.
Qed.

Definition demo_questions : list AgentQuestion :=
  [mkQuestion (js "Where to?") (Some (js "Target")) false [mkOption (js "staging") None; mkOption (js "prod") (Some (js "careful"))];
   mkQuestion (js "What with it?") None true [mkOption (js "logs") None; mkOption (js "metrics") None; mkOption (js "traces") None]].

Definition demo_state : element_state :=
  {[ blockId 0 := {[ actionId 0 := [js "0:1"; js "1:0"; js "0:9"] ]}; blockId 1 := {[ actionId 1 := [js "1:2"; js "1:0"] ]} ]}.

Definition submit_tap : BlockAction := mkBlockAction SUBMIT_ACTION (PREFIX ++ js ":controls") (Some (js "submit")) None.

Lemma decoded_answers_valid_witness :
  let answers := [[1]; [2; 0]] in
  Forall2 answer_valid demo_questions answers /\
  (isForm demo_questions = false -> exists oi, answers = [[oi]]) /\
  is_Some (answerText demo_questions answers) /\ is_Some (renderAnsweredBlocks demo_questions answers (js "U1")).
Proof.
  intros answers. apply (decoded_answers_valid demo_questions [submit_tap] (Some demo_state) answers (js "U1")). evaluated.
Defined.

(** ** What was rendered is what a tap means *)

(** A button among the blocks, with the block it is in. *)
Definition has_button (blocks : list block) (bid aid : jstr) (text : text_object) (value : jstr) : Prop :=
  exists elements primary, Actions bid elements ∈ blocks /\ Button aid text value primary ∈ elements.

(** The state Slack sends when these options of each group are selected. *)
Definition selects (state : element_state) (g : jstr * jstr * list choice) (chosen : list nat) : Prop :=
  match g with
  | (bid, aid, options) =>
      state !! bid ≫= (fun by_action => by_action !! aid) = mapM (fun oi => ch_value <$> options !! oi) chosen /\
      chosen <> [] /\ Forall (fun oi => oi < length options) chosen
  end.

Lemma optionElement_value qi q oi : oi < length (q_options q) ->
  ch_value <$> imap (optionElement qi) (q_options q) !! oi = Some (optionValue qi oi).
Proof.
  intros H. rewrite list_lookup_imap. apply lookup_lt_is_Some in H as [o Ho]. by rewrite Ho.
Qed.

Lemma selected_values qi q chosen : Forall (fun oi => oi < length (q_options q)) chosen ->
  mapM (fun oi => ch_value <$> imap (optionElement qi) (q_options q) !! oi) chosen = Some (optionValue qi <$> chosen).
Proof.
  induction 1 as [|oi chosen Hoi _ IH]; [done|]. cbn [mapM]. rewrite optionElement_value by done. cbn [mbind option_bind]. by rewrite IH.
Qed.

Lemma form_answers_selected qi questions actions state chosen :
  Forall2 (selects state)
    (imap (fun i q => (blockId (qi + i), actionId (qi + i), imap (optionElement (qi + i)) (q_options q))) questions) chosen ->
  form_answers qi questions actions (Some state) = Some chosen.
Proof.
  revert qi chosen; induction questions as [|q questions IH]; intros qi chosen.
  { cbn. by intros ->%Forall2_nil_inv_l. }
  cbn [imap]. rewrite (imap_ext (_ ∘ S) (fun i q => (blockId (S qi + i), actionId (S qi + i), imap (optionElement (S qi + i)) (q_options q)))).
  2:{ intros i x _. cbn. by rewrite <- plus_n_Sm. }
  intros (c & rest & (Hst & Hne & Hlt) & Hrest & ->)%Forall2_cons_inv_l. rewrite Nat.add_0_r in *.
  rewrite length_imap in Hlt. rewrite selected_values in Hst by done.
  cbn [form_answers]. cbv zeta. cbn [mbind option_bind]. rewrite Hst.
  rewrite picked_values by done. rewrite (IH (S qi) rest Hrest). by destruct c.
Qed.

Lemma decode_button q oi bid aid st : isForm [q] = false -> oi < length (q_options q) -> starts_with (PREFIX ++ js ":") aid = true ->
  decodeAnswers [q] [mkBlockAction aid bid (Some (optionValue 0 oi)) None] st = Some (Answered [[oi]]).
Proof.
  intros Hf Hoi Haid. unfold decodeAnswers. rewrite filter_cons, decide_True by done. rewrite Hf.
  cbn [filter list_filter List.find ba_value present mbind option_bind].
  rewrite parse_optionValue. cbn [mbind option_bind]. change (Z.of_nat 0 =? 0)%Z with true. cbv iota.
  unfold valid_option. rewrite decide_True by lia. cbn. by rewrite Nat2Z.id.
Qed.

Lemma decode_submit questions bid st chosen : isForm questions = true ->
  Forall2 (selects st) (imap (fun i q => (blockId i, actionId i, imap (optionElement i) (q_options q))) questions) chosen ->
  decodeAnswers questions [mkBlockAction SUBMIT_ACTION bid (Some (js "submit")) None] (Some st) = Some (Answered chosen).
Proof.
  intros Hf Hsel.
  assert (Hg : form_answers 0 questions [mkBlockAction SUBMIT_ACTION bid (Some (js "submit")) None] (Some st) = Some chosen)
    by (by apply form_answers_selected).
  unfold decodeAnswers. rewrite filter_cons, decide_True by done. destruct questions; [|rewrite Hf]; by rewrite Hg.
Qed.

(** A button of a message that needs no form is an option's. *)
Lemma rendered_button q bid aid text value : isForm [q] = false ->
  has_button (renderQuestionBlocks [q]) bid aid text value ->
  exists oi option, q_options q !! oi = Some option /\ text = plain (o_label option) LABEL_MAX /\
    bid = blockId 0 /\ aid = actionId 0 ++ js ":" ++ show_nat oi /\ value = optionValue 0 oi.
Proof.
  intros Hf (elements & primary & Hb & He). unfold renderQuestionBlocks in Hb. rewrite Hf in Hb.
  cbn [imap concat question_blocks app] in Hb. rewrite !elem_of_cons, elem_of_nil in Hb.
  destruct Hb as [Hb|[Hb|[]]]; [done|]. injection Hb as -> ->.
  apply list_elem_of_lookup in He as [oi He]. rewrite list_lookup_imap in He.
  apply fmap_Some in He as (option & Ho & [= -> -> -> ->]). by exists oi, option.
Qed.

(** A form's only button is Submit. *)
Lemma rendered_submit questions bid aid text value : isForm questions = true ->
  has_button (renderQuestionBlocks questions) bid aid text value ->
  bid = PREFIX ++ js ":controls" /\ aid = SUBMIT_ACTION /\ value = js "submit".
Proof.
  intros Hf (elements & primary & Hb & He). unfold renderQuestionBlocks in Hb. rewrite Hf in Hb.
  apply elem_of_app in Hb as [Hb|[Hb|?%elem_of_nil]%elem_of_cons]; [|injection Hb as -> ->|done].
  - apply list_elem_of_In, in_concat in Hb as (bs & Hbs & Hb). apply list_elem_of_In, list_elem_of_lookup in Hbs as [i Hbs].
    rewrite list_lookup_imap in Hbs. apply fmap_Some in Hbs as (q & _ & ->). cbn in Hb.
    destruct Hb as [Hb|[Hb|[]]]; [done|]. injection Hb as <- <-.
    by apply elem_of_cons in He as [?|?%elem_of_nil].
  - apply elem_of_cons in He as [He|?%elem_of_nil]; [|done]. injection He as -> -> -> _. done.
Qed.

Definition demo_single : AgentQuestion := mkQuestion (js "Ok?") None false [mkOption (js "yes") None; mkOption (js "no") None].
