(* ===== verification/SlackTranslate.v ===== *)
(** [apps/slack/src/translate.ts] and the event types of
    [apps/slack/src/types.ts]: what a Slack payload means to the bridge.
    Payloads are dynamic values; reading a property of [null] or [undefined]
    through a cast is a [TypeError], here [None] of the outer option. *)

From S2P Require Import Prelude Envelope SlackQuestions Values.
#[local] Open Scope nat_scope.

Record SlackFile := mkSlackFile {
  sl_id : jstr;
  sl_name : jstr;
  sl_mimetype : jstr;
  sl_size : Z;
  sl_downloadUrl : jstr }.

Record MessageEvent := mkMessageEvent {
  me_channel : jstr;
  me_threadTs : jstr;
  me_text : jstr;
  me_messageTs : jstr;
  me_files : list SlackFile;
  me_authorId : jstr;
  me_viaApp : bool }.

Record TapEvent := mkTapEvent {
  ta_channel : jstr;
  ta_messageTs : jstr;
  ta_threadTs : option jstr;
  ta_userId : jstr;
  ta_actions : list BlockAction;
  ta_state : option element_state }.

Inductive InboundEvent :=
| Dm (event : MessageEvent)
| Mention (event : MessageEvent)
| ThreadMessage (event : MessageEvent)
| SessionStopped (channel threadTs : jstr)
| BlockActions (event : TapEvent).

Definition parseFile (raw : jsval) : option SlackFile :=
  if negb (is_object raw) then None else
  match prop raw (js "id"), or_else (prop raw (js "url_private_download")) (prop raw (js "url_private")) with
  | VStr id, VStr downloadUrl =>
      Some (mkSlackFile id (default id (as_nonempty_str (prop raw (js "name"))))
              (default (js "application/octet-stream") (as_nonempty_str (prop raw (js "mimetype"))))
              (match prop raw (js "size") with VNum n => n | _ => 0%Z end) downloadUrl)
  | _, _ => None
  end.

Definition parseFiles (value : jsval) : list SlackFile :=
  match value with VArr l => omap parseFile l | _ => [] end.

(** The fields a mention and a message share. *)
Definition message_event (event : jsval) (authorId : jstr) : MessageEvent :=
  let ts := string_of (prop event (js "ts")) in
  mkMessageEvent (string_of (prop event (js "channel")))
    (to_string (or_else (prop event (js "thread_ts")) (VStr ts))) (string_of (prop event (js "text"))) ts
    (parseFiles (prop event (js "files"))) authorId (defined (prop event (js "bot_id"))).

Definition translateSlackEvent (event : jsval) : option InboundEvent :=
  let type := prop event (js "type") in
  if is_str type (js "app_mention") then
    Some (Mention (message_event event (default [] (as_str (prop event (js "user"))))))
  else if is_str type (js "message") then
    if defined (prop event (js "subtype")) && negb (is_str (prop event (js "subtype")) (js "file_share")) then None else
    match as_nonempty_str (prop event (js "user")) with
    | None => None
    | Some user =>
        let common := message_event event user in
        if is_str (prop event (js "channel_type")) (js "im") then Some (Dm common)
        else if defined (prop event (js "thread_ts")) then Some (ThreadMessage common)
        else None
    end
  else if is_str type (js "agent_session_stopped") then
    let session := or_else (prop event (js "session")) event in
    let channel := to_string (or_else (prop session (js "channel_id")) (or_else (prop session (js "channel")) (VStr []))) in
    let threadTs := string_of (prop session (js "thread_ts")) in
    if jeqb channel [] || jeqb threadTs [] then None else Some (SessionStopped channel threadTs)
  else None.

(** ** Interactions *)

(** [None]: an entry is [null] or [undefined]. *)
Definition selectedValues (value : jsval) : option (option (list jstr)) :=
  match value with
  | VArr l => values ← mapM (fun o => get o (js "value")) l; Some (Some (omap as_str values))
  | _ => Some None
  end.

Definition parseAction (raw : jsval) : option (option BlockAction) :=
  if negb (is_object raw) then Some None else
  match prop raw (js "action_id") with
  | VStr action_id =>
      let single := get_opt (prop raw (js "selected_option")) (js "value") in
      listed ← selectedValues (prop raw (js "selected_options"));
      let selected := match listed with Some l => Some l | None => (fun s => [s]) <$> as_str single end in
      Some (Some (mkBlockAction action_id (default [] (as_str (prop raw (js "block_id"))))
                    (as_str (prop raw (js "value"))) selected))
  | _ => Some None
  end.

(** [Object.entries]: an array's entries are keyed by their indexes. *)
Definition entries (v : jsval) : list (jstr * jsval) :=
  match v with
  | VObj fs => fs
  | VArr l => imap (fun i x => (show_nat i, x)) l
  | _ => []
  end.

(** [{ action_id: actionId, ...element }]: what the element itself says of
    [action_id] wins; spreading anything but an object adds nothing, bar a
    string's or an array's indexes, which are not read. *)
Definition with_action_id (actionId : jstr) (element : jsval) : jsval :=
  match element with
  | VObj fs => VObj (match assq (js "action_id") fs with Some _ => fs | None => (js "action_id", VStr actionId) :: fs end)
  | _ => VObj [(js "action_id", VStr actionId)]
  end.

Definition add_selected (blockId actionId : jstr) (selected : list jstr) (state : element_state) : element_state :=
  <[blockId := <[actionId := selected]> (default ∅ (state !! blockId))]> state.

(** One block's elements, in order. *)
Fixpoint parse_elements (blockId : jstr) (elements : list (jstr * jsval)) (state : element_state) : option element_state :=
  match elements with
  | [] => Some state
  | (actionId, element) :: rest =>
      parsed ← parseAction (with_action_id actionId element);
      parse_elements blockId rest
        (match parsed ≫= ba_selected with Some selected => add_selected blockId actionId selected state | None => state end)
  end.

Fixpoint parse_blocks (blocks : list (jstr * jsval)) (state : element_state) : option element_state :=
  match blocks with
  | [] => Some state
  | (blockId, byAction) :: rest =>
      state' ← (if is_object byAction then parse_elements blockId (entries byAction) state else Some state);
      parse_blocks rest state'
  end.

Definition parseState (raw : jsval) : option (option element_state) :=
  let values := get_opt raw (js "values") in
  if negb (is_object values) then Some None else Some <$> parse_blocks (entries values) ∅.

Definition translateSlackInteraction (payload : jsval) : option (option InboundEvent) :=
  if negb (is_str (prop payload (js "type")) (js "block_actions")) then Some None else
  let message := prop payload (js "message") in
  let container := prop payload (js "container") in
  match get_opt (prop payload (js "channel")) (js "id"),
        or_else (get_opt message (js "ts")) (get_opt container (js "message_ts")),
        get_opt (prop payload (js "user")) (js "id") with
  | VStr channel, VStr messageTs, VStr userId =>
      actions ← match prop payload (js "actions") with VArr l => mapM parseAction l | _ => Some [] end;
      match omap id actions with
      | [] => Some None
      | actions' =>
          let threadTs := or_else (get_opt message (js "thread_ts")) (get_opt container (js "thread_ts")) in
          state ← parseState (prop payload (js "state"));
          Some (Some (BlockActions (mkTapEvent channel messageTs (as_str threadTs) userId actions' state)))
      end
  | _, _, _ => Some None
  end.
