(* ===== verification/SlackTaps.v ===== *)
(** From a tap in Slack to the agent's answer: the payload Slack documents
    for an interaction with a question message, through
    [translateSlackInteraction] and [decodeAnswers]. *)

From S2P Require Import Prelude Questions Envelope SlackQuestions SlackTranslate Values.
#[local] Open Scope nat_scope.

(** ** What Slack sends *)

Definition interaction (channel messageTs userId : jstr) (actions : list jsval) (values : list (jstr * jsval)) : jsval :=
  VObj [(js "type", VStr (js "block_actions"));
        (js "channel", VObj [(js "id", VStr channel)]);
        (js "message", VObj [(js "ts", VStr messageTs)]);
        (js "user", VObj [(js "id", VStr userId)]);
        (js "actions", VArr actions);
        (js "state", VObj [(js "values", VObj values)])].

Definition button_tap (bid aid value : jstr) : jsval :=
  VObj [(js "action_id", VStr aid); (js "block_id", VStr bid); (js "value", VStr value)].

Definition offered (value : jstr) : jsval := VObj [(js "value", VStr value)].

(** A group's current selection: checkboxes list theirs, a radio group has one. *)
Definition group_value (qi : nat) (q : AgentQuestion) (chosen : list nat) : jsval :=
  if q_multiSelect q
  then VObj [(js "type", VStr (js "checkboxes")); (js "selected_options", VArr ((fun oi => offered (optionValue qi oi)) <$> chosen))]
  else VObj [(js "type", VStr (js "radio_buttons"));
             (js "selected_option", match chosen with oi :: _ => offered (optionValue qi oi) | [] => VNull end)].

Fixpoint form_values (qi : nat) (questions : list AgentQuestion) (chosen : Answers) : list (jstr * jsval) :=
  match questions, chosen with
  | q :: questions', c :: chosen' => (blockId qi, VObj [(actionId qi, group_value qi q c)]) :: form_values (S qi) questions' chosen'
  | _, _ => []
  end.

(** What a person can select of a question before pressing Submit. *)
Definition selectable (q : AgentQuestion) (chosen : list nat) : Prop :=
  answer_valid q chosen /\ (q_multiSelect q = false -> length chosen = 1).

(** ** Translating it *)

Lemma selectedValues_offered (f : nat -> jstr) chosen :
  selectedValues (VArr ((fun oi => offered (f oi)) <$> chosen)) = Some (Some (f <$> chosen)).
Proof.
  unfold selectedValues.
  assert (mapM (fun o => get o (js "value")) ((fun oi => offered (f oi)) <$> chosen) = Some ((fun oi => VStr (f oi)) <$> chosen)) as ->.
  { induction chosen as [|oi chosen IH]; [done|]. rewrite fmap_cons. cbn [mapM]. by rewrite IH. }
  cbn [mbind option_bind]. do 2 f_equal. induction chosen as [|oi chosen IH]; [done|]. csimpl. by f_equal.
Qed.

Lemma parse_group qi q chosen : selectable q chosen ->
  parseAction (with_action_id (actionId qi) (group_value qi q chosen)) =
  Some (Some (mkBlockAction (actionId qi) [] None (Some (optionValue qi <$> chosen)))).
Proof.
  intros [_ Hone]. unfold group_value. destruct (q_multiSelect q).
  - unfold parseAction, with_action_id. 
    set (sel := VArr _). change (assq (js "action_id") _) with (@None jsval). cbv iota.
    change (prop _ (js "action_id")) with (VStr (actionId qi)). cbn [is_object negb]. cbv iota.
    change (prop _ (js "selected_options")) with sel. unfold sel. rewrite selectedValues_offered. reflexivity.
  - destruct chosen as [|oi [|]]; try discriminate (Hone eq_refl). reflexivity.
Qed.

Lemma add_selected_eq (bid aid : jstr) (l : list jstr) (st : element_state) :
  add_selected bid aid l st !! bid ≫= (fun by_action => by_action !! aid) = Some l.
Proof. unfold add_selected. rewrite lookup_insert_eq. cbn. apply lookup_insert_eq. Qed.

Lemma add_selected_ne (bid bid' aid : jstr) (l : list jstr) (st : element_state) : bid <> bid' -> add_selected bid aid l st !! bid' = st !! bid'.
Proof. intros H. unfold add_selected. by apply lookup_insert_ne. Qed.

Lemma parse_form qi questions chosen st : Forall2 selectable questions chosen ->
  exists st', parse_blocks (form_values qi questions chosen) st = Some st' /\
    (forall k, k < qi -> st' !! blockId k = st !! blockId k) /\
    Forall2 (selects st')
      (imap (fun i q => (blockId (qi + i), actionId (qi + i), imap (optionElement (qi + i)) (q_options q))) questions) chosen.
Proof.
  intros H; revert qi st. induction H as [|q c questions chosen Hq _ IH]; intros qi st; [by eexists|].
  cbn [form_values parse_blocks is_object entries parse_elements]. rewrite parse_group by done.
  cbn [mbind option_bind ba_selected].
  destruct (IH (S qi) (add_selected (blockId qi) (actionId qi) (optionValue qi <$> c) st)) as (st' & E & Hk & Hs).
  exists st'. split_and!; [done| |].
  - intros k Hlt. rewrite Hk by lia. apply add_selected_ne. intros ->%blockId_inj. lia.
  - cbn [imap]. constructor.
    + destruct Hq as [[Hne Hv] _].
      assert (Hlt : Forall (fun oi => oi < length (q_options q)) c).
      { eapply Forall_impl; [exact Hv|]. intros oi. cbn. apply lookup_lt_is_Some. }
      cbn [selects]. rewrite Nat.add_0_r, length_imap, selected_values by done. split_and!; [|done|done].
      rewrite Hk by lia. apply add_selected_eq.
    + rewrite (imap_ext (_ ∘ S) (fun i q => (blockId (S qi + i), actionId (S qi + i), imap (optionElement (S qi + i)) (q_options q)))); [done|].
      intros i x _. cbn. by rewrite <- plus_n_Sm.
Qed.

Definition decoded_event (questions : list AgentQuestion) (event : option (option InboundEvent)) : option decoded :=
  match event with
  | Some (Some (BlockActions tap)) => decodeAnswers questions (ta_actions tap) (ta_state tap)
  | _ => None
  end.

Lemma translate_button_tap channel messageTs userId bid aid value values st :
  parse_blocks values ∅ = Some st ->
  translateSlackInteraction (interaction channel messageTs userId [button_tap bid aid value] values) =
  Some (Some (BlockActions (mkTapEvent channel messageTs None userId [mkBlockAction aid bid (Some value) None] (Some st)))).
Proof.
  intros Hst. unfold translateSlackInteraction, interaction.
  change (is_str (prop _ (js "type")) (js "block_actions")) with true. cbn [negb]. cbv iota zeta.
  change (prop _ (js "channel")) with (VObj [(js "id", VStr channel)]).
  change (prop _ (js "message")) with (VObj [(js "ts", VStr messageTs)]).
  change (prop _ (js "user")) with (VObj [(js "id", VStr userId)]).
  change (prop _ (js "actions")) with (VArr [button_tap bid aid value]).
  change (prop _ (js "container")) with VUndef.
  change (prop _ (js "state")) with (VObj [(js "values", VObj values)]).
  change (get_opt (VObj [(js "id", VStr channel)]) (js "id")) with (VStr channel).
  change (get_opt (VObj [(js "id", VStr userId)]) (js "id")) with (VStr userId).
  change (or_else _ (get_opt VUndef (js "message_ts"))) with (VStr messageTs). cbv iota.
  assert (parseAction (button_tap bid aid value) = Some (Some (mkBlockAction aid bid (Some value) None))) as Ha by reflexivity.
  cbn [mapM]. rewrite Ha. cbn [mbind option_bind omap list_omap id]. unfold parseState.
  change (get_opt _ (js "values")) with (VObj values). cbn [is_object negb entries]. cbv iota. rewrite Hst. reflexivity.
Qed.

(** C29: an answer given by tapping reaches the agent as it was given. The
    payload Slack sends for a tap on any button of a question message
    translates and decodes to the option whose label that button shows,
    whatever state it carries; where the questions make a form its only button
    is Submit, and the payload of Submit, carrying the person's selection in
    every group, decodes to exactly that selection, question by question. *)
Theorem tapped_answer_reaches_agent channel messageTs userId bid aid text value :
  (forall q values st, isForm [q] = false -> has_button (renderQuestionBlocks [q]) bid aid text value ->
     parse_blocks values ∅ = Some st ->
     exists oi option, q_options q !! oi = Some option /\ text = plain (o_label option) LABEL_MAX /\
       decoded_event [q] (translateSlackInteraction
         (interaction channel messageTs userId [button_tap bid aid value] values)) = Some (Answered [[oi]])) /\
  (forall questions chosen, isForm questions = true -> has_button (renderQuestionBlocks questions) bid aid text value ->
     Forall2 selectable questions chosen ->
     decoded_event questions (translateSlackInteraction
       (interaction channel messageTs userId [button_tap bid aid value] (form_values 0 questions chosen))) = Some (Answered chosen)).
Proof.
  split.
  - intros q values st Hf Hb Hst. rewrite (translate_button_tap _ _ _ _ _ _ _ _ Hst). cbn [decoded_event ta_actions ta_state].
    destruct (rendered_button _ _ _ _ _ Hf Hb) as (oi & option & Ho & -> & -> & -> & ->). exists oi, option.
    split_and!; [done..|]. apply decode_button; [done|by apply lookup_lt_Some in Ho|done].
  - intros questions chosen Hf Hb Hsel. destruct (parse_form 0 questions chosen ∅ Hsel) as (st & Hst & _ & Hs).
    rewrite (translate_button_tap _ _ _ _ _ _ _ _ Hst). cbn [decoded_event ta_actions ta_state].
    destruct (rendered_submit _ _ _ _ _ Hf Hb) as (-> & -> & ->). by apply decode_submit.
Qed.

Lemma tapped_answer_reaches_agent_witness :
  (exists oi option, q_options demo_single !! oi = Some option /\ plain (js "no") LABEL_MAX = plain (o_label option) LABEL_MAX /\
     decoded_event [demo_single] (translateSlackInteraction (interaction (js "C1") (js "2.0") (js "U1")
       [button_tap (blockId 0) (actionId 0 ++ js ":1") (js "0:1")] [])) = Some (Answered [[oi]])) /\
  decoded_event demo_questions (translateSlackInteraction (interaction (js "C1") (js "2.0") (js "U1")
    [button_tap (PREFIX ++ js ":controls") SUBMIT_ACTION (js "submit")] (form_values 0 demo_questions [[1]; [2; 0]])))
  = Some (Answered [[1]; [2; 0]]).
Proof.
  split.
  - apply (proj1 (tapped_answer_reaches_agent (js "C1") (js "2.0") (js "U1") (blockId 0) (actionId 0 ++ js ":1")
      (plain (js "no") LABEL_MAX) (js "0:1")) demo_single [] ∅ eq_refl); [|reflexivity].
    eexists _, false. split; [right; left|]; right; left.
  - apply (proj2 (tapped_answer_reaches_agent (js "C1") (js "2.0") (js "U1") (PREFIX ++ js ":controls") SUBMIT_ACTION
      (plain (js "Submit") LABEL_MAX) (js "submit")) demo_questions [[1]; [2; 0]] eq_refl).
    + eexists _, true. split; [|left]. do 4 right. left.
    + repeat constructor; try (intros [=]); try (by eexists); evaluated.
Defined.
