(* ===== verification/Async.v ===== *)
(** Asynchronous functions as resumptions. An [async] function runs without
    interruption from one await to the next; what it awaits is a request to
    the world, answered by a value or by an exception. Any number of such
    calls are under way at once, over one shared state, and the world decides
    which of them goes on next. *)

From S2P Require Import Prelude.
#[local] Open Scope nat_scope.

(** What a call came to; an error is known by its message. *)
Inductive result (A : Type) :=
| Val (a : A)
| Exn (message : jstr).
Arguments Val {A} a.
Arguments Exn {A} message.

Declare Scope async_scope.
Delimit Scope async_scope with async.

(** ** Programs *)

Section Programs.
(** The state, the requests with what they are answered by, and the streams
    that are iterated over with what they yield. *)
Context {S Rq Src Ev : Type} {An : Rq -> Type}.

(** [Each src body k] is [for await (const event of src) body(event)], then
    [k] with how the loop ended. *)
Inductive prog (A : Type) : Type :=
| Ret (a : A)
| Throw (message : jstr)
| Get (k : S -> prog A)
| Upd (f : S -> S) (p : prog A)
| Await (r : Rq) (k : result (An r) -> prog A)
| Each (src : Src) (body : Ev -> prog unit) (k : result unit -> prog A).
End Programs.
Arguments prog S {Rq} Src Ev An A.
Arguments Ret {S Rq Src Ev An A} a.
Arguments Throw {S Rq Src Ev An A} message.
Arguments Get {S Rq Src Ev An A} k.
Arguments Upd {S Rq Src Ev An A} f p.
Arguments Await {S Rq Src Ev An A} r k.
Arguments Each {S Rq Src Ev An A} src body k.

Section Combinators.
Context {S Rq Src Ev : Type} {An : Rq -> Type}.
#[local] Abbreviation prog := (prog S Src Ev An).

Definition of_result {A : Type} (r : result A) : prog A := match r with Val a => Ret a | Exn e => Throw e end.

(** Whatever [p] comes to, [k] goes on with it. *)
Fixpoint attempt {A B : Type} (p : prog A) (k : result A -> prog B) : prog B :=
  match p with
  | Ret a => k (Val a)
  | Throw e => k (Exn e)
  | Get g => Get (fun s => attempt (g s) k)
  | Upd f q => Upd f (attempt q k)
  | Await r g => Await r (fun x => attempt (g x) k)
  | Each src body g => Each src body (fun x => attempt (g x) k)
  end.

Definition bind {A B : Type} (p : prog A) (k : A -> prog B) : prog B :=
  attempt p (fun r => match r with Val a => k a | Exn e => Throw e end).

(** [try { p } catch (e) { h(e) }] and [try { p } finally { f }]. *)
Definition try_catch {A : Type} (p : prog A) (h : jstr -> prog A) : prog A :=
  attempt p (fun r => match r with Val a => Ret a | Exn e => h e end).
Definition try_finally {A : Type} (p : prog A) (f : prog unit) : prog A :=
  attempt p (fun r => bind f (fun _ => of_result r)).

Definition skip_ : prog unit := Ret tt.
Definition update (f : S -> S) : prog unit := Upd f (Ret tt).
Definition read {A : Type} (k : S -> prog A) : prog A := Get k.
Definition call (r : Rq) : prog (An r) := Await r of_result.
Definition for_each (src : Src) (body : Ev -> prog unit) : prog unit := Each src body of_result.

Fixpoint for_list {X} (l : list X) (body : X -> prog unit) : prog unit :=
  match l with
  | [] => skip_
  | x :: t => bind (body x) (fun _ => for_list t body)
  end.
End Combinators.

Notation "'let*' x := p 'in' q" := (bind p (fun x => q)) (at level 10, x name, p at level 200, q at level 200) : async_scope.
Notation "p ;;; q" := (bind p (fun _ => q)) (at level 100, q at level 200, right associativity) : async_scope.

(** ** Calls under way *)

Section Running.
Context {S Rq Src Ev : Type} {An : Rq -> Type}.
#[local] Abbreviation prog := (prog S Src Ev An).
(** How a request, the start of an iteration and an answer are noted, and
    what is noted when a call is resumed. *)
Context (issue : Rq -> S -> S) (receive : forall r, result (An r) -> S -> S) (yielded : Src -> option Ev -> S -> S).
Context (enter : nat -> Z -> S -> S).
(** Whether a request can be answered now. *)
Context (ready : Rq -> S -> bool).

(** Up to the next await, or the end. *)
Fixpoint run {A : Type} (p : prog A) (s : S) : S * prog A :=
  match p with
  | Get g => run (g s) s
  | Upd f q => run q (f s)
  | Await r g => (issue r s, Await r g)
  | _ => (s, p)
  end.

(** The world resumes a call: it answers a request, or yields an event of
    the stream iterated over, or ends or breaks it. *)
Inductive input :=
| Reply (answer : forall r, result (An r))
| Yield (event : Ev)
| Finish
| Break (message : jstr).

(** What resuming a suspended call makes it do; [None] when the input does
    not fit. *)
Definition resumed {A : Type} (p : prog A) (i : input) (s : S) : option (S * prog A) :=
  match p, i with
  | Await r g, Reply answer => if ready r s then Some (receive r (answer r) s, g (answer r)) else None
  | Each src body g, Yield event =>
      Some (yielded src (Some event) s,
            attempt (body event) (fun r => match r with Val _ => Each src body g | Exn e => g (Exn e) end))
  | Each src _ g, Finish => Some (yielded src None s, g (Val tt))
  | Each src _ g, Break e => Some (yielded src None s, g (Exn e))
  | _, _ => None
  end.

(** Call [t] on its own, among others: each time it is resumed, what the
    others did meanwhile, the time and the input. *)
Fixpoint played {A : Type} (t : nat) (p : prog A) (s : S) (turns : list ((S -> S) * Z * input)) : option (S * prog A) :=
  match turns with
  | [] => Some (run p s)
  | (others, now, i) :: rest =>
      '(s', q) ← resumed (snd (run p s)) i (enter t now (others (fst (run p s))));
      played t q s' rest
  end.

(** The state and the calls under way, by the order they were made in. *)
Record world := mkWorld {
  w_state : S;
  w_calls : gmap nat (prog unit);
  w_next : nat }.

Inductive happening :=
| Called (now : Z) (p : prog unit)
| Resumed (call : nat) (now : Z) (i : input).

Definition suspended (p : prog unit) : bool := match p with Await _ _ | Each _ _ _ => true | _ => false end.

Definition settle (t : nat) (sp : S * prog unit) (calls : gmap nat (prog unit)) (next : nat) : world :=
  mkWorld (fst sp) (if suspended (snd sp) then <[t := snd sp]> calls else delete t calls) next.

Definition happen (h : happening) (w : world) : option world :=
  match h with
  | Called now p => Some (settle (w_next w) (run p (enter (w_next w) now (w_state w))) (w_calls w) (Datatypes.S (w_next w)))
  | Resumed t now i =>
      p ← w_calls w !! t;
      '(s, q) ← resumed p i (enter t now (w_state w));
      Some (settle t (run q s) (w_calls w) (w_next w))
  end.

Fixpoint happen_all (hs : list happening) (w : world) : option world :=
  match hs with
  | [] => Some w
  | h :: t => w' ← happen h w; happen_all t w'
  end.
End Running.
Arguments input {Rq} Ev An.
Arguments world S {Rq} Src Ev An.
Arguments happening S {Rq} Src Ev An.
