(* ===== verification/AsyncLogic.v ===== *)
(** Reasoning about asynchronous calls that share a state: an invariant that
    holds whenever a call waits, and for each call a relation that bounds
    what the others may do meanwhile. *)

From S2P Require Import Prelude Async.
#[local] Open Scope nat_scope.

Section Logic.
Context {S Rq Src Ev : Type} {An : Rq -> Type}.
#[local] Abbreviation prog := (prog S Src Ev An).
Context (issue : Rq -> S -> S) (receive : forall r, result (An r) -> S -> S) (yielded : Src -> option Ev -> S -> S).
Context (enter : nat -> Z -> S -> S) (ready : Rq -> S -> bool).
(** What the world is known to answer and to yield. *)
Context (sane : forall r, result (An r) -> S -> Prop) (fits : nat -> Src -> Ev -> S -> Prop).
Context (Inv : S -> Prop) (rely : nat -> S -> S -> Prop).
Context {rely_preorder : forall t, PreOrder (rely t)}.

(** What call [t] may do at once: what every other call allows. *)
Definition guar (t : nat) (s s' : S) : Prop := forall t', t' <> t -> rely t' s s'.

#[export] Instance guar_preorder t : PreOrder (guar t).
Proof. split; [by intros s t' _|]. intros s1 s2 s3 H1 H2 t' Ht. transitivity s2; auto. Qed.

(** Call [t] runs [p] from [s]: every update is one the others allow, the
    invariant holds at every await, and [Q] when it is over. *)
Fixpoint wp (t : nat) {A : Type} (p : prog A) (s : S) (Q : result A -> S -> Prop) : Prop :=
  match p with
  | Ret a => Q (Val a) s
  | Throw e => Q (Exn e) s
  | Get g => wp t (g s) s Q
  | Upd f q => guar t s (f s) /\ wp t q (f s) Q
  | Await r g =>
      guar t s (issue r s) /\ Inv (issue r s) /\
      forall a s1 now, rely t (issue r s) s1 -> Inv s1 ->
        ready r (enter t now s1) = true -> sane r a (enter t now s1) ->
        guar t s1 (receive r a (enter t now s1)) /\ wp t (g a) (receive r a (enter t now s1)) Q
  | Each src body g =>
      exists I : S -> Prop, I s /\ forall s1, I s1 -> Inv s1 /\
        forall s2 now, rely t s1 s2 -> Inv s2 ->
          (forall e, fits t src e s2 ->
             guar t s2 (yielded src (Some e) (enter t now s2)) /\
             wp t (body e) (yielded src (Some e) (enter t now s2))
               (fun r s3 => match r with Val _ => I s3 | Exn m => wp t (g (Exn m)) s3 Q end)) /\
          guar t s2 (yielded src None (enter t now s2)) /\
          forall r, wp t (g r) (yielded src None (enter t now s2)) Q
  end.

Lemma wp_mono t {A : Type} (p : prog A) s (Q Q' : result A -> S -> Prop) :
  (forall r s', Q r s' -> Q' r s') -> wp t p s Q -> wp t p s Q'.
Proof.
  revert s Q Q'. induction p as [A a|A e|A g IH|A f q IH|A r g IH|A src body IHb g IH]; intros s Q Q' HQ; cbn.
  - apply HQ.
  - apply HQ.
  - by apply IH.
  - intros [Hg H]. split; [done|by eapply IH].
  - intros (Hg & Hi & H). split_and!; [done..|]. intros a s1 now H1 H2 H3 H4. destruct (H a s1 now H1 H2 H3 H4) as [? Hw].
    split; [done|]. by eapply IH.
  - intros (I & Hs & H). exists I. split; [done|]. intros s1 H1. destruct (H s1 H1) as [Hi H2]. split; [done|].
    intros s2 now H3 H4. destruct (H2 s2 now H3 H4) as (He & Hg & Hk). split_and!; [|done|intros r; by eapply IH].
    intros e Hf. destruct (He e Hf) as [? Hb]. split; [done|]. eapply IHb; [|exact Hb].
    intros [u|m] s3; [done|]. by apply IH.
Qed.

Lemma wp_attempt t {A B : Type} (p : prog A) (k : result A -> prog B) s Q :
  wp t p s (fun r s' => wp t (k r) s' Q) -> wp t (attempt p k) s Q.
Proof.
  revert B k s Q. induction p as [A a|A e|A g IH|A f q IH|A r g IH|A src body IHb g IH]; intros B k s Q; cbn.
  - done.
  - done.
  - apply IH.
  - intros [Hg H]. split; [done|by apply IH].
  - intros (Hg & Hi & H). split_and!; [done..|]. intros a s1 now H1 H2 H3 H4. destruct (H a s1 now H1 H2 H3 H4) as [? Hw].
    split; [done|by apply IH].
  - intros (I & Hs & H). exists I. split; [done|]. intros s1 H1. destruct (H s1 H1) as [Hi H2]. split; [done|].
    intros s2 now H3 H4. destruct (H2 s2 now H3 H4) as (He & Hg & Hk). split_and!; [|done|intros r; by apply IH].
    intros e Hf. destruct (He e Hf) as [? Hb]. split; [done|]. eapply wp_mono; [|exact Hb].
    intros [u|m] s3; [done|]. by apply IH.
Qed.

Lemma wp_bind t {A B : Type} (p : prog A) (k : A -> prog B) s Q :
  wp t p s (fun r s' => match r with Val a => wp t (k a) s' Q | Exn e => Q (Exn e) s' end) -> wp t (bind p k) s Q.
Proof. intros H. apply wp_attempt. eapply wp_mono; [|exact H]. by intros [a|e] s'. Qed.

Lemma wp_try_catch t {A : Type} (p : prog A) (h : jstr -> prog A) s Q :
  wp t p s (fun r s' => match r with Val a => Q (Val a) s' | Exn e => wp t (h e) s' Q end) -> wp t (try_catch p h) s Q.
Proof. intros H. apply wp_attempt. eapply wp_mono; [|exact H]. by intros [a|e] s'. Qed.

Lemma wp_try_finally t {A : Type} (p : prog A) (f : prog unit) s Q :
  wp t p s (fun r s' => wp t f s' (fun rf s'' => match rf with Val _ => Q r s'' | Exn e => Q (Exn e) s'' end)) ->
  wp t (try_finally p f) s Q.
Proof.
  intros H. apply wp_attempt. eapply wp_mono; [|exact H]. intros r s' Hf. apply wp_bind. eapply wp_mono; [|exact Hf].
  intros [u|e] s''; [by destruct r|done].
Qed.

Lemma wp_update t f s (Q : result unit -> S -> Prop) : guar t s (f s) -> Q (Val tt) (f s) -> wp t (update f) s Q.
Proof. by split. Qed.

Lemma wp_read t {A : Type} (k : S -> prog A) s Q : wp t (k s) s Q -> wp t (read k) s Q.
Proof. done. Qed.

Lemma wp_call t r s Q :
  guar t s (issue r s) -> Inv (issue r s) ->
  (forall a s1 now, rely t (issue r s) s1 -> Inv s1 -> ready r (enter t now s1) = true -> sane r a (enter t now s1) ->
     guar t s1 (receive r a (enter t now s1)) /\ Q a (receive r a (enter t now s1))) ->
  wp t (call r) s Q.
Proof.
  intros Hg Hi H. cbn. split_and!; [done..|]. intros a s1 now H1 H2 H3 H4. destruct (H a s1 now H1 H2 H3 H4) as [? HQ].
  split; [done|]. by destruct a.
Qed.

(** A loop over a stream, by an invariant of its own. *)
Lemma wp_for_each t (I : S -> Prop) src body s Q :
  I s -> (forall s1, I s1 -> Inv s1) ->
  (forall s1 s2 now e, I s1 -> rely t s1 s2 -> Inv s2 -> fits t src e s2 ->
     guar t s2 (yielded src (Some e) (enter t now s2)) /\
     wp t (body e) (yielded src (Some e) (enter t now s2))
       (fun r s3 => match r with Val _ => I s3 | Exn m => Q (Exn m) s3 end)) ->
  (forall s1 s2 now, I s1 -> rely t s1 s2 -> Inv s2 ->
     guar t s2 (yielded src None (enter t now s2)) /\ forall r, Q r (yielded src None (enter t now s2))) ->
  wp t (for_each src body) s Q.
Proof.
  intros Hs Hinv Hbody Hend. cbn. exists I. split; [done|]. intros s1 H1. split; [by apply Hinv|]. intros s2 now H2 H3.
  destruct (Hend s1 s2 now H1 H2 H3) as [Hg HQ]. split_and!; [|done|intros [u|m]; apply HQ].
  intros e He. destruct (Hbody s1 s2 now e H1 H2 H3 He) as [? Hb]. split; [done|]. eapply wp_mono; [|exact Hb].
  by intros [u|m] s3.
Qed.

Lemma wp_for_list t {X} (l : list X) (body : X -> prog unit) (I : S -> Prop) s (Q : result unit -> S -> Prop) :
  I s -> (forall x s, x ∈ l -> I s -> wp t (body x) s (fun r s' => match r with Val _ => I s' | Exn e => Q (Exn e) s' end)) ->
  (forall s, I s -> Q (Val tt) s) -> wp t (for_list l body) s Q.
Proof.
  intros Hs Hb HQ. revert s Hs. induction l as [|x l IH]; intros s Hs; cbn [for_list]; [by apply HQ|].
  apply wp_bind. eapply wp_mono; [|apply Hb; [by left|done]]. intros [u|e] s'; [|done]. apply IH.
  intros y s'' Hy. apply Hb. by right.
Qed.

(** ** An assertion of one call *)

Section Keeps.
Context (t : nat) (L : S -> Prop).

(** An update, and a program, that keep it. *)
Definition steps (f : S -> S) : Prop := forall s, L s -> guar t s (f s) /\ L (f s).
Definition keeps {A : Type} (p : prog A) : Prop := forall s, L s -> wp t p s (fun _ => L).

Lemma keeps_ret {A : Type} (a : A) : keeps (Ret a).
Proof. by intros s. Qed.
Lemma keeps_throw {A : Type} m : keeps (Throw m : prog A).
Proof. by intros s. Qed.
Lemma keeps_read {A : Type} (k : S -> prog A) : (forall s, L s -> keeps (k s)) -> keeps (read k).
Proof. intros Hk s Hs. by apply Hk. Qed.
Lemma keeps_step f : steps f -> keeps (update f).
Proof. intros Hf s Hs. by apply Hf. Qed.
Lemma keeps_attempt {A B : Type} (p : prog A) (k : result A -> prog B) : keeps p -> (forall r, keeps (k r)) -> keeps (attempt p k).
Proof. intros Hp Hk s Hs. apply wp_attempt. eapply wp_mono; [|by apply Hp]. intros r s'. apply Hk. Qed.
Lemma keeps_bind {A B : Type} (p : prog A) (k : A -> prog B) : keeps p -> (forall a, keeps (k a)) -> keeps (bind p k).
Proof. intros Hp Hk. apply keeps_attempt; [done|]. intros [a|e]; [apply Hk|apply keeps_throw]. Qed.
Lemma keeps_try {A : Type} (p : prog A) h : keeps p -> (forall e, keeps (h e)) -> keeps (try_catch p h).
Proof. intros Hp Hk. apply keeps_attempt; [done|]. intros [a|e]; [apply keeps_ret|apply Hk]. Qed.
Lemma keeps_finally {A : Type} (p : prog A) f : keeps p -> keeps f -> keeps (try_finally p f).
Proof.
  intros Hp Hf. apply keeps_attempt; [done|]. intros r. apply keeps_bind; [done|]. intros _. destruct r; [apply keeps_ret|apply keeps_throw].
Qed.
Lemma keeps_list {X} (l : list X) body : (forall x, x ∈ l -> keeps (body x)) -> keeps (for_list l body).
Proof.
  induction l as [|x l IH]; intros Hb; [apply keeps_ret|]. apply keeps_bind; [apply Hb; by left|]. intros _. apply IH.
  intros y Hy. apply Hb. by right.
Qed.

(** A request, and a loop over a stream, where answers and events are. *)
Lemma keeps_call r : (forall s, L s -> Inv s) -> steps (issue r) ->
  (forall a s s1 now, L s -> rely t s s1 -> Inv s1 -> sane r a (enter t now s1) ->
     guar t s1 (receive r a (enter t now s1)) /\ L (receive r a (enter t now s1))) ->
  keeps (call r).
Proof.
  intros Hinv Hi Hb s Hs. destruct (Hi s Hs) as [Hg HL]. apply wp_call; [done|by apply Hinv|].
  intros a s1 now H1 H2 _ H3. by eapply Hb.
Qed.
Lemma keeps_each src body : (forall s, L s -> Inv s) ->
  (forall e s s1 now, L s -> rely t s s1 -> Inv s1 ->
     guar t s1 (yielded src e (enter t now s1)) /\ L (yielded src e (enter t now s1))) ->
  (forall e, keeps (body e)) -> keeps (for_each src body).
Proof.
  intros Hinv Hy Hb s Hs. apply (wp_for_each t L); [done|done|..].
  - intros s1 s2 now e H1 H2 H3 _. destruct (Hy (Some e) s1 s2 now H1 H2 H3) as [Hg HL]. split; [done|].
    eapply wp_mono; [|by apply Hb]. by intros [].
  - intros s1 s2 now H1 H2 H3. destruct (Hy None s1 s2 now H1 H2 H3) as [Hg HL]. by split.
Qed.
End Keeps.

(** ** Many calls *)

(** A suspended call is prepared for whatever the others leave behind. *)
Definition waits (t : nat) {A : Type} (p : prog A) (s : S) (Q : result A -> S -> Prop) : Prop :=
  match p with
  | Await r g =>
      forall a s1 now, rely t s s1 -> Inv s1 -> ready r (enter t now s1) = true -> sane r a (enter t now s1) ->
        guar t s1 (receive r a (enter t now s1)) /\ wp t (g a) (receive r a (enter t now s1)) Q
  | Each src body g =>
      exists I : S -> Prop, (exists s0, I s0 /\ rely t s0 s) /\ forall s1, I s1 -> Inv s1 /\
        forall s2 now, rely t s1 s2 -> Inv s2 ->
          (forall e, fits t src e s2 ->
             guar t s2 (yielded src (Some e) (enter t now s2)) /\
             wp t (body e) (yielded src (Some e) (enter t now s2))
               (fun r s3 => match r with Val _ => I s3 | Exn m => wp t (g (Exn m)) s3 Q end)) /\
          guar t s2 (yielded src None (enter t now s2)) /\
          forall r, wp t (g r) (yielded src None (enter t now s2)) Q
  | _ => True
  end.

Lemma waits_rely t {A : Type} (p : prog A) s s' Q : waits t p s Q -> rely t s s' -> waits t p s' Q.
Proof.
  destruct p; cbn; try done.
  - intros H Hr a s1 now H1. apply H. by etransitivity.
  - intros (I & (s0 & H0 & Hs) & H) Hr. exists I. split; [|done]. exists s0. split; [done|]. by etransitivity.
Qed.

Lemma run_wp t {A : Type} (p : prog A) s (Q : result A -> S -> Prop) : (forall r s', Q r s' -> Inv s') -> wp t p s Q ->
  guar t s (fst (run issue p s)) /\ Inv (fst (run issue p s)) /\ waits t (snd (run issue p s)) (fst (run issue p s)) Q.
Proof.
  intros HQ. revert s. induction p as [A a|A e|A g IH|A f q IH|A r g IH|A src body IHb g IH]; intros s; cbn.
  - intros H. split_and!; [done|by eapply HQ|done].
  - intros H. split_and!; [done|by eapply HQ|done].
  - by apply IH.
  - intros [Hg H]. destruct (IH Q HQ _ H) as (? & ? & ?). split_and!; [by etransitivity|done..].
  - by intros (Hg & Hi & H).
  - intros (I & Hs & H). destruct (H s Hs) as [Hi _]. split_and!; [done..|]. exists I. split; [by exists s|done].
Qed.

(** A call that comes to its end has done what it should. *)
Definition comes_to {A : Type} (q : prog A) (s : S) (Q : result A -> S -> Prop) : Prop :=
  match q with Ret a => Q (Val a) s | Throw e => Q (Exn e) s | _ => True end.

Lemma run_comes_to t {A : Type} (p : prog A) s (Q : result A -> S -> Prop) :
  wp t p s Q -> comes_to (snd (run issue p s)) (fst (run issue p s)) Q.
Proof. revert s. induction p as [A a|A e|A g IH|A f q IH|A r g IH|A src body IHb g IH]; intros s; cbn; [done..|by apply IH|intros [_ H]; by apply IH|done|done]. Qed.

Definition turn_ok (t : nat) (turn : (S -> S) * Z * input Ev An) : Prop :=
  (forall s, Inv s -> rely t s (fst (fst turn) s) /\ Inv (fst (fst turn) s)) /\
  match snd turn with
  | Reply answer => forall r s, sane r (answer r) s
  | Yield e => forall src s, fits t src e s
  | _ => True
  end.

Lemma resumed_wp t {A : Type} (q q' : prog A) s now others i s' Q :
  turn_ok t (others, now, i) -> Inv s -> waits t q s Q -> resumed receive yielded ready q i (enter t now (others s)) = Some (s', q') ->
  wp t q' s' Q.
Proof.
  intros [Ho Hi] Hs Hw Hr. destruct (Ho s Hs) as [Hrely Hinv]. cbn [fst snd] in *.
  destruct q as [a|e|g|f q|r g|src body g], i as [answer|e'| |m]; cbn [resumed waits] in *; try done.
  - destruct (ready r _) eqn:Hready; [|done]. injection Hr as <- <-. by apply (Hw (answer r) (others s) now).
  - injection Hr as <- <-. destruct Hw as (I & (s0 & H0 & Hs0) & H). destruct (H s0 H0) as [_ H2].
    destruct (H2 (others s) now) as (He & _ & _); [by etransitivity|done|]. destruct (He e' (Hi _ _)) as [_ Hb].
    apply wp_attempt. eapply wp_mono; [|exact Hb]. intros [u|m] s3; [|done]. intros H3. by exists I.
  - injection Hr as <- <-. destruct Hw as (I & (s0 & H0 & Hs0) & H). destruct (H s0 H0) as [_ H2].
    destruct (H2 (others s) now) as (_ & _ & Hk); [by etransitivity|done|]. apply Hk.
  - injection Hr as <- <-. destruct Hw as (I & (s0 & H0 & Hs0) & H). destruct (H s0 H0) as [_ H2].
    destruct (H2 (others s) now) as (_ & _ & Hk); [by etransitivity|done|]. apply Hk.
Qed.

Theorem played_keeps t {A : Type} (p q : prog A) s s' turns (Q : result A -> S -> Prop) :
  (forall r s, Q r s -> Inv s) -> wp t p s Q -> Forall (turn_ok t) turns ->
  played issue receive yielded enter ready t p s turns = Some (s', q) -> Inv s' /\ comes_to q s' Q.
Proof.
  intros HQ Hp Hok. revert p s Hp. induction Hok as [|[[others now] i] turns Hturn _ IH]; intros p s Hp; cbn [played].
  - intros [= E]. pose proof (run_comes_to t p s Q Hp) as H. destruct (run_wp t p s Q HQ Hp) as (_ & Hi & _). by rewrite E in H, Hi.
  - destruct (run_wp t p s Q HQ Hp) as (_ & Hi & Hw).
    destruct (resumed _ _ _ (snd (run issue p s)) i _) as [[s1 q1]|] eqn:E; [|done]. cbn. apply IH.
    by eapply resumed_wp.
Qed.

Theorem played_sound t {A : Type} (p q : prog A) s s' turns (Q : result A -> S -> Prop) :
  (forall r s, Q r s -> Inv s) -> wp t p s Q -> Forall (turn_ok t) turns ->
  played issue receive yielded enter ready t p s turns = Some (s', q) -> comes_to q s' Q.
Proof. intros HQ Hp Hok Hpl. by apply (played_keeps t p q s s' turns Q). Qed.

(** The calls that may be made, each by its place among them, and what may
    be answered and yielded. *)
Definition allowed_at (start : nat -> Z -> prog unit -> S -> Prop) (h : happening S Src Ev An) (w : world S Src Ev An) : Prop :=
  match h with
  | Called now p => start (w_next w) now p (w_state w)
  | Resumed t now i =>
      match w_calls w !! t, i with
      | Some (Await r _), Reply answer => sane r (answer r) (enter t now (w_state w))
      | Some (Each src _ _), Yield e => fits t src e (w_state w)
      | _, _ => True
      end
  end.
Definition allowed (start : Z -> prog unit -> S -> Prop) : happening S Src Ev An -> world S Src Ev An -> Prop := allowed_at (fun _ => start).

(** What holds of a call before it is made, which others cannot change. *)
Context (unborn : nat -> S -> Prop).

Record sound (w : world S Src Ev An) : Prop := {
  sound_inv : Inv (w_state w);
  sound_waits t p : w_calls w !! t = Some p -> waits t p (w_state w) (fun _ => Inv);
  sound_fresh t : w_next w <= t -> w_calls w !! t = None /\ unborn t (w_state w) }.

Hypothesis unborn_stable : forall t s s', unborn t s -> rely t s s' -> unborn t s'.

Lemma settle_sound t p s0 s calls next :
  (forall t' q, t' <> t -> calls !! t' = Some q -> waits t' q s0 (fun _ => Inv)) -> (forall t', next <= t' -> calls !! t' = None /\ unborn t' s0) ->
  t < next -> guar t s0 s -> wp t p s (fun _ => Inv) ->
  sound (settle t (run issue p s) calls next) /\ guar t s0 (fst (run issue p s)).
Proof.
  intros Hcalls Hfresh Ht Hg Hp. destruct (run_wp t p s (fun _ => Inv) (fun _ _ H => H) Hp) as (Hr & Hi & Hw). split; [|by etransitivity].
  unfold settle. split; cbn.
  - done.
  - intros t' q. assert (Hothers : t' <> t -> calls !! t' = Some q -> waits t' q (fst (run issue p s)) (fun _ => Inv)).
    { intros Hne Hq. eapply waits_rely; [by eapply Hcalls|]. etransitivity; [by apply Hg|by apply Hr]. }
    destruct (suspended _); [rewrite lookup_insert_Some|rewrite lookup_delete_Some].
    + intros [[<- <-]|[Hne Hq]]; [done|]. by apply Hothers.
    + intros [Hne Hq]. by apply Hothers.
  - intros t' Ht'. assert (t' <> t) by lia. destruct (Hfresh t' Ht') as [Hnone Hun]. split.
    + destruct (suspended _); [by rewrite lookup_insert_ne by done|by rewrite lookup_delete_ne by done].
    + eapply unborn_stable; [exact Hun|]. etransitivity; [by apply Hg|by apply Hr].
Qed.

Section Starts.
Context (start : nat -> Z -> prog unit -> S -> Prop).
Hypothesis start_wp : forall t now p s, Inv s -> unborn t s -> start t now p s ->
  guar t s (enter t now s) /\ wp t p (enter t now s) (fun _ => Inv).

(** The call that a happening makes or resumes. *)
Definition acting (h : happening S Src Ev An) (w : world S Src Ev An) : nat :=
  match h with Called _ _ => w_next w | Resumed t _ _ => t end.

Lemma happen_sound h w w' : sound w -> allowed_at start h w ->
  happen issue receive yielded enter ready h w = Some w' -> sound w' /\ guar (acting h w) (w_state w) (w_state w').
Proof.
  intros [Hi Hw Hf] Hok. destruct h as [now p|t now i]; cbn [happen].
  - intros [= <-]. destruct (start_wp (w_next w) now p (w_state w) Hi (proj2 (Hf _ (le_n _))) Hok) as [Hg Hp].
    apply (settle_sound (w_next w) p (w_state w) (enter (w_next w) now (w_state w)) (w_calls w) (Datatypes.S (w_next w)));
      [|intros t' H1; apply Hf; lia|lia|done|done].
    intros t' q _ Hq. by apply Hw.
  - destruct (w_calls w !! t) as [p|] eqn:Hp; [|done]. cbn [mbind option_bind].
    pose proof (Hw t p Hp) as Hwait. cbn [allowed_at] in Hok. rewrite Hp in Hok.
    assert (Hlt : t < w_next w).
    { destruct (Nat.lt_ge_cases t (w_next w)) as [|H]; [done|]. rewrite (proj1 (Hf t H)) in Hp. done. }
    assert (Hnext : forall s0 s q, s0 = w_state w -> guar t s0 s -> wp t q s (fun _ => Inv) ->
              let w1 := settle t (run issue q s) (w_calls w) (w_next w) in sound w1 /\ guar t (w_state w) (w_state w1)).
    { intros s0 s q -> Hg Hq w1. apply (settle_sound t q (w_state w) s (w_calls w) (w_next w)); [|exact Hf|done|done|done].
      intros t' q' _ Hq'. by apply Hw. }
    destruct p as [a|e|g|f q|r g|src body g], i as [answer|e'| |m]; cbn [resumed waits] in *; try done.
    + destruct (ready r _) eqn:Hr; [|done]. cbn [mbind option_bind]. intros [= <-].
      destruct (Hwait (answer r) (w_state w) now) as [Hg Hq]; [done..|]. by eapply Hnext.
    + cbn [mbind option_bind]. intros [= <-]. destruct Hwait as (I & (s0 & H0 & Hs0) & H). destruct (H s0 H0) as [_ H2].
      destruct (H2 (w_state w) now Hs0 Hi) as (He & _ & _). destruct (He e' Hok) as [Hg Hb].
      eapply Hnext; [done|exact Hg|]. apply wp_attempt. eapply wp_mono; [|exact Hb]. intros [u|m] s3; [|done].
      intros H3. cbn. by exists I.
    + cbn [mbind option_bind]. intros [= <-]. destruct Hwait as (I & (s0 & H0 & Hs0) & H). destruct (H s0 H0) as [_ H2].
      destruct (H2 (w_state w) now Hs0 Hi) as (_ & Hg & Hk). by eapply Hnext.
    + cbn [mbind option_bind]. intros [= <-]. destruct Hwait as (I & (s0 & H0 & Hs0) & H). destruct (H s0 H0) as [_ H2].
      destruct (H2 (w_state w) now Hs0 Hi) as (_ & Hg & Hk). by eapply Hnext.
Qed.

(** Histories in which only allowed things happen. *)
Fixpoint all_allowed_at (hs : list (happening S Src Ev An)) (w : world S Src Ev An) : Prop :=
  match hs with
  | [] => True
  | h :: t => allowed_at start h w /\
      match happen issue receive yielded enter ready h w with Some w' => all_allowed_at t w' | None => True end
  end.

Theorem history_sound_at hs w w' : sound w -> all_allowed_at hs w ->
  happen_all issue receive yielded enter ready hs w = Some w' -> sound w'.
Proof.
  revert w. induction hs as [|h hs IH]; intros w Hw Hok; cbn; [by intros [= <-]|]. destruct Hok as [Hh Hok].
  destruct (happen _ _ _ _ _ h w) as [w1|] eqn:E; [|done]. cbn. apply IH; [|done]. by apply (happen_sound h w).
Qed.
End Starts.

(** Where it does not matter which call it is. *)
Fixpoint all_allowed (start : Z -> prog unit -> S -> Prop) (hs : list (happening S Src Ev An)) (w : world S Src Ev An) : Prop :=
  match hs with
  | [] => True
  | h :: t => allowed start h w /\
      match happen issue receive yielded enter ready h w with Some w' => all_allowed start t w' | None => True end
  end.

Lemma all_allowed_anywhere start hs w : all_allowed start hs w -> all_allowed_at (fun _ => start) hs w.
Proof.
  revert w. induction hs as [|h hs IH]; intros w; [done|]. intros [Hh Hhs]. split; [done|].
  destruct (happen _ _ _ _ _ h w); [by apply IH|done].
Qed.

Theorem history_sound start hs w w' :
  (forall t now p s, Inv s -> unborn t s -> start now p s -> guar t s (enter t now s) /\ wp t p (enter t now s) (fun _ => Inv)) ->
  sound w -> all_allowed start hs w -> happen_all issue receive yielded enter ready hs w = Some w' -> sound w'.
Proof. intros Hstart Hw Hok. eapply history_sound_at; [exact Hstart|done|by apply all_allowed_anywhere]. Qed.

(** The calls of a history, in the order they are made in. *)
Definition called (hs : list (happening S Src Ev An)) : list (prog unit) :=
  omap (fun h => match h with Called _ p => Some p | _ => None end) hs.

(** Each call is the one the history makes at its place. *)
Lemma all_allowed_called start hs w before : length before = w_next w -> all_allowed start hs w ->
  all_allowed_at (fun t now p s => (before ++ called hs) !! t = Some p /\ start now p s) hs w.
Proof.
  revert w before. induction hs as [|h hs IH]; intros w before Hn; [done|]. intros [Hh Hhs]. split.
  - destruct h as [now p|t now i]; [|exact Hh]. split; [|done]. cbn. by rewrite <- Hn, lookup_app_r, Nat.sub_diag by lia.
  - destruct (happen _ _ _ _ _ h w) as [w1|] eqn:E; [|done]. destruct h as [now p|t now i].
    + cbn. rewrite cons_middle, app_assoc. apply (IH w1 (before ++ [p])); [|done]. injection E as <-. cbn. rewrite length_app. cbn. lia.
    + apply (IH w1 before); [|done]. cbn in E. destruct (w_calls w !! t); [|done]. cbn in E.
      destruct (resumed _ _ _ _ _ _) as [[s q]|]; [|done]. by injection E as <-.
Qed.
End Logic.

(** A history is allowed when its calls and its answers are at any time. *)
Lemma any_history {S Rq Src Ev : Type} {An : Rq -> Type} issue receive yielded enter ready sane start
    (hs : list (happening S Src Ev An)) w :
  Forall (fun h => match h with
                   | Called now p => forall s, start now p s
                   | Resumed _ _ (Reply a) => forall r s, sane r (a r) s
                   | _ => True
                   end) hs ->
  all_allowed issue receive yielded enter ready sane (fun _ _ _ _ => True) start hs w.
Proof.
  intros Hhs. revert w. induction Hhs as [|h hs Hh _ IH]; intros w; [done|]. cbn [all_allowed]. split.
  - destruct h as [now p|t now i]; [apply Hh|]. cbn. destruct (_ !! _) as [[]|], i; done.
  - destruct (happen _ _ _ _ _ h w); [apply IH|done].
Qed.

(** ** Calls that iterate over no stream *)

Section Ends.
Context {S Rq Src Ev : Type} {An : Rq -> Type}.
#[local] Abbreviation prog := (prog S Src Ev An).
Context (issue : Rq -> S -> S) (receive : forall r, result (An r) -> S -> S) (yielded : Src -> option Ev -> S -> S).
Context (enter : nat -> Z -> S -> S) (ready : Rq -> S -> bool).

(** What the others do, the time and the answer, each time it is resumed. *)
Abbreviation reply := ((S -> S) * Z * (forall r, result (An r)))%type.
Definition inputs (turns : nat -> reply) (n : nat) : list ((S -> S) * Z * input Ev An) :=
  (fun i => let '(others, now, a) := turns i in (others, now, Reply a)) <$> seq 0 n.

Lemma inputs_S turns n : inputs turns (Datatypes.S n) =
  (let '(others, now, a) := turns 0 in (others, now, Reply a)) :: inputs (fun i => turns (Datatypes.S i)) n.
Proof. unfold inputs. cbn [seq fmap list_fmap]. f_equal. by rewrite <- fmap_S_seq, <- list_fmap_compose. Qed.

Lemma played_run {A : Type} t (p p' : prog A) s s' turns : run issue p s = run issue p' s' ->
  played issue receive yielded enter ready t p s turns = played issue receive yielded enter ready t p' s' turns.
Proof. intros E. destruct turns as [|[[others now] i] turns]; cbn [played]; by rewrite E. Qed.

(** If what it awaits is always answered, it comes to an end. *)
Lemma played_ends {A : Type} t (p : prog A) s turns : (Src -> False) -> (forall r s, ready r s = true) ->
  exists n s' r, played issue receive yielded enter ready t p s (inputs turns n) = Some (s', of_result r).
Proof.
  intros Hsrc Hready. revert s turns. induction p as [A a|A e|A g IH|A f q IH|A r g IH|A src body IHb g IH]; intros s turns.
  - by exists 0, s, (Val a).
  - by exists 0, s, (Exn e).
  - destruct (IH s s turns) as (n & s' & r & H). exists n, s', r. rewrite <- H. by apply played_run.
  - destruct (IH (f s) turns) as (n & s' & r & H). exists n, s', r. rewrite <- H. by apply played_run.
  - destruct (turns 0) as [[others now] a] eqn:E.
    destruct (IH (a r) (receive r (a r) (enter t now (others (issue r s)))) (fun i => turns (Datatypes.S i))) as (n & s' & r' & H).
    exists (Datatypes.S n), s', r'. rewrite inputs_S, E. cbn. by rewrite Hready.
  - by destruct (Hsrc src).
Qed.
End Ends.
