(* ===== verification/SlackEngine.v ===== *)
(** [apps/slack/src/engine.ts]: the policy machine between Slack and one
    agent. Every async method is a program over the engine's state; what it
    awaits of Slack and of the agent is a request the world answers. *)

From S2P Require Import Prelude A2A A2AClient Activity Questions Envelope SessionId Markdown Async Values.
From S2P Require Import SlackState SlackQuestions SlackTranslate.
#[local] Open Scope nat_scope.

(** ** Options and constants *)

Inductive Queueing := Harness | Bridge.
Inductive ContextPolicy := Native | Replay.
#[export] Instance Queueing_eq_dec : EqDecision Queueing.
Proof. solve_decision. Defined.

(** [eo_bindings] in the order of the object's keys. *)
Record EngineOptions := mkEngineOptions {
  eo_agent : jstr;
  eo_queueing : Queueing;
  eo_context : ContextPolicy;
  eo_fileBaseUrl : option jstr;
  eo_streamTextBudget : Z;
  eo_bindings : list (jstr * jstr) }.

Definition REPLAY_LIMIT : nat := 50.
Definition STREAM_TEXT_BUDGET : Z := 2800.
Definition CARD_OVERHEAD : Z := 40.
Definition THINKING : jstr := js "is thinking…".
Definition TITLE_MAX : nat := 200.
Definition META_FILE_SIZE : jstr := js "thicket.fileSize".

Definition cardCost (activity : AgentActivity) : Z :=
  Z.of_nat (length (a_title activity)) + Z.of_nat (length (default [] (a_details activity))) + CARD_OVERHEAD.

Definition closeCost (cursor : Cursor) : Z :=
  match cu_fence cursor with None => 0 | Some f => Z.of_nat (length (f_marker f)) + 1 end.

(** [TERMINAL]. *)
Definition TERMINAL (state : TaskState) : bool :=
  match state with
  | TASK_STATE_COMPLETED | TASK_STATE_FAILED | TASK_STATE_CANCELED | TASK_STATE_REJECTED => true
  | _ => false
  end.

Definition sessionTitle (text : jstr) : option jstr :=
  let flat := trim (collapse_ws text) in
  match flat with
  | [] => None
  | _ => Some (if length flat <=? TITLE_MAX then flat else take (TITLE_MAX - 1) flat ++ ellipsis)
  end.

Definition filePart (url : jstr) (file : RecordedFile) : part :=
  mkPart (CUrl url) (rf_mimetype file) (rf_name file) (VObj [(META_FILE_SIZE, VNum (rf_size file))]).

(** A mention at the start of [s], [<@ID>] or [<@ID|label>]: the id, of
    capitals and digits, and how long the match is. *)
Definition mention_at (s : jstr) : option (jstr * nat) :=
  if negb (starts_with (js "<@") s) then None else
  let id := take_while id_unit (drop 2 s) in
  let rest := drop (2 + length id) s in
  let label := match rest with 124%N :: t => 1 + length (take_while (fun c => negb (c =? 62)%N) t) | _ => 0 end in
  match id, drop label rest with
  | _ :: _, 62%N :: _ => Some (id, 3 + length id + label)
  | _, _ => None
  end.

(** Matches do not overlap: [skip] units of the last one are still to pass. *)
Fixpoint mentions_go (skip : nat) (s : jstr) (seen : list jstr) : list jstr :=
  match s with
  | [] => seen
  | _ :: t =>
      match skip with
      | S k => mentions_go k t seen
      | O => match mention_at s with
             | Some (id, n) => mentions_go (n - 1) t (if decide (id ∈ seen) then seen else seen ++ [id])
             | None => mentions_go 0 t seen
             end
      end
  end.
Definition person (id : jstr) : jsval := VObj [(js "id", VStr id); (js "kind", VStr (js "person"))].
Definition mentionsIn (text : jstr) : list jsval := person <$> mentions_go 0 text [].

Inductive SlackSessionStatus := SsProcessing | SsActive | SsSuspended.
#[export] Instance SlackSessionStatus_eq_dec : EqDecision SlackSessionStatus.
Proof. solve_decision. Defined.

Definition slackStatusFor (state : TaskState) : SlackSessionStatus :=
  match state with
  | TASK_STATE_SUBMITTED | TASK_STATE_WORKING => SsProcessing
  | TASK_STATE_AUTH_REQUIRED => SsSuspended
  | _ => SsActive
  end.

(** ** What is awaited *)

Record SlackMessage := mkSlackMessage {
  sk_ts : jstr;
  sk_authorId : option jstr;
  sk_botId : option jstr;
  sk_text : jstr }.

(** The calls of the agent's client and of Slack; [RqAfter] is the promise
    of an earlier turn of the same thread. *)
Inductive request :=
| RqFetchCard
| RqSend (message : Message)
| RqCancel (taskId : jstr)
| RqSetStatus (channel threadTs : jstr) (status : SlackSessionStatus) (title : option jstr)
| RqSetThreadStatus (channel threadTs status : jstr)
| RqIsBotUser (userId : jstr)
| RqPostMessage (channel threadTs text : jstr)
| RqPostBlocks (channel threadTs text : jstr) (blocks : list block)
| RqUpdateMessage (channel messageTs text : jstr) (blocks : list block)
| RqStartStream (channel threadTs : jstr) (recipient : option jstr)
| RqAppendStream (channel streamTs text : jstr)
| RqAppendActivity (channel streamTs : jstr) (activity : AgentActivity)
| RqStopStream (channel streamTs : jstr)
| RqReplies (channel threadTs : jstr) (limit : nat)
| RqAddReaction (channel messageTs emoji : jstr)
| RqChannelName (channel : jstr)
| RqAfter (ticket : option nat).

Definition answer (r : request) : Type :=
  match r with
  | RqFetchCard | RqIsBotUser _ => bool
  | RqSend _ => Task
  | RqPostBlocks _ _ _ _ | RqStartStream _ _ _ => jstr
  | RqReplies _ _ _ => list SlackMessage
  | RqChannelName _ => option jstr
  | _ => unit
  end.

(** The agent's event streams. *)
Inductive source :=
| SrcStream (message : Message)
| SrcResubscribe (taskId : jstr).

(** What is noted as it happens, with the call it happens in: awaits and
    their answers, streams and their events, and when a turn of a chain takes
    its place, begins and is over. *)
Inductive note_ :=
| Sent (r : request)
| Got (r : request) (a : result (answer r))
| Opened (src : source)
| Heard (src : source) (event : option A2AEvent)
| Joined (key : jstr) (ticket : nat)
| Began (key : jstr) (ticket : nat)
| Ended (key : jstr) (ticket : nat).

(** ** State *)

Record streams := mkStreams {
  sm_activityOff : gset jstr;
  sm_streamlessText : gmap jstr jstr;
  sm_streamOff : gset jstr;
  sm_streamedChars : gmap jstr Z;
  sm_streamCursor : gmap jstr Cursor;
  sm_streamReopen : gset jstr;
  sm_chargedCards : gmap jstr (gset jstr);
  sm_openCards : gmap jstr (list (jstr * jstr));
  sm_staleStreams : gset jstr }.

(** [th_chains] holds, for each thread, the turn whose promise is its
    chain's end. *)
Record threads := mkThreads {
  th_chains : gmap jstr nat;
  th_turnsOpen : gmap jstr Z;
  th_pendingRelease : gmap jstr SlackSessionStatus;
  th_noteOff : gset jstr;
  th_channelNames : gmap jstr (option jstr) }.

(** [en_tickets] numbers the turns of the chains and [en_settled] holds those
    that are over; [en_now] and [en_running] are the clock and the call that
    runs, [en_pumping] the thread each call consumes a stream for, [en_log]
    what was noted. *)
Record engine := mkEngine {
  en_streams : streams;
  en_threads : threads;
  en_store : BridgeState;
  en_tickets : nat;
  en_settled : gset nat;
  en_now : Z;
  en_running : nat;
  en_pumping : gmap nat jstr;
  en_log : list (nat * note_) }.

Definition new_streams : streams := mkStreams ∅ ∅ ∅ ∅ ∅ ∅ ∅ ∅ ∅.
Definition new_engine (store : BridgeState) : engine :=
  mkEngine new_streams (mkThreads ∅ ∅ ∅ ∅ ∅) store 0 ∅ 0%Z 0 ∅ [].

Definition set_activityOff (v : gset jstr) (x : streams) : streams :=
  mkStreams v (sm_streamlessText x) (sm_streamOff x) (sm_streamedChars x) (sm_streamCursor x) (sm_streamReopen x) (sm_chargedCards x) (sm_openCards x) (sm_staleStreams x).
Definition set_streamlessText (v : gmap jstr jstr) (x : streams) : streams :=
  mkStreams (sm_activityOff x) v (sm_streamOff x) (sm_streamedChars x) (sm_streamCursor x) (sm_streamReopen x) (sm_chargedCards x) (sm_openCards x) (sm_staleStreams x).
Definition set_streamOff (v : gset jstr) (x : streams) : streams :=
  mkStreams (sm_activityOff x) (sm_streamlessText x) v (sm_streamedChars x) (sm_streamCursor x) (sm_streamReopen x) (sm_chargedCards x) (sm_openCards x) (sm_staleStreams x).
Definition set_streamedChars (v : gmap jstr Z) (x : streams) : streams :=
  mkStreams (sm_activityOff x) (sm_streamlessText x) (sm_streamOff x) v (sm_streamCursor x) (sm_streamReopen x) (sm_chargedCards x) (sm_openCards x) (sm_staleStreams x).
Definition set_streamCursor (v : gmap jstr Cursor) (x : streams) : streams :=
  mkStreams (sm_activityOff x) (sm_streamlessText x) (sm_streamOff x) (sm_streamedChars x) v (sm_streamReopen x) (sm_chargedCards x) (sm_openCards x) (sm_staleStreams x).
Definition set_streamReopen (v : gset jstr) (x : streams) : streams :=
  mkStreams (sm_activityOff x) (sm_streamlessText x) (sm_streamOff x) (sm_streamedChars x) (sm_streamCursor x) v (sm_chargedCards x) (sm_openCards x) (sm_staleStreams x).
Definition set_chargedCards (v : gmap jstr (gset jstr)) (x : streams) : streams :=
  mkStreams (sm_activityOff x) (sm_streamlessText x) (sm_streamOff x) (sm_streamedChars x) (sm_streamCursor x) (sm_streamReopen x) v (sm_openCards x) (sm_staleStreams x).
Definition set_openCards (v : gmap jstr (list (jstr * jstr))) (x : streams) : streams :=
  mkStreams (sm_activityOff x) (sm_streamlessText x) (sm_streamOff x) (sm_streamedChars x) (sm_streamCursor x) (sm_streamReopen x) (sm_chargedCards x) v (sm_staleStreams x).
Definition set_staleStreams (v : gset jstr) (x : streams) : streams :=
  mkStreams (sm_activityOff x) (sm_streamlessText x) (sm_streamOff x) (sm_streamedChars x) (sm_streamCursor x) (sm_streamReopen x) (sm_chargedCards x) (sm_openCards x) v.

Definition set_chains (v : gmap jstr nat) (x : threads) : threads :=
  mkThreads v (th_turnsOpen x) (th_pendingRelease x) (th_noteOff x) (th_channelNames x).
Definition set_turnsOpen (v : gmap jstr Z) (x : threads) : threads :=
  mkThreads (th_chains x) v (th_pendingRelease x) (th_noteOff x) (th_channelNames x).
Definition set_pendingRelease (v : gmap jstr SlackSessionStatus) (x : threads) : threads :=
  mkThreads (th_chains x) (th_turnsOpen x) v (th_noteOff x) (th_channelNames x).
Definition set_noteOff (v : gset jstr) (x : threads) : threads :=
  mkThreads (th_chains x) (th_turnsOpen x) (th_pendingRelease x) v (th_channelNames x).
Definition set_channelNames (v : gmap jstr (option jstr)) (x : threads) : threads :=
  mkThreads (th_chains x) (th_turnsOpen x) (th_pendingRelease x) (th_noteOff x) v.

Definition set_streams (v : streams) (x : engine) : engine :=
  mkEngine v (en_threads x) (en_store x) (en_tickets x) (en_settled x) (en_now x) (en_running x) (en_pumping x) (en_log x).
Definition set_threads (v : threads) (x : engine) : engine :=
  mkEngine (en_streams x) v (en_store x) (en_tickets x) (en_settled x) (en_now x) (en_running x) (en_pumping x) (en_log x).
Definition set_store (v : BridgeState) (x : engine) : engine :=
  mkEngine (en_streams x) (en_threads x) v (en_tickets x) (en_settled x) (en_now x) (en_running x) (en_pumping x) (en_log x).
Definition set_tickets (v : nat) (x : engine) : engine :=
  mkEngine (en_streams x) (en_threads x) (en_store x) v (en_settled x) (en_now x) (en_running x) (en_pumping x) (en_log x).
Definition set_settled (v : gset nat) (x : engine) : engine :=
  mkEngine (en_streams x) (en_threads x) (en_store x) (en_tickets x) v (en_now x) (en_running x) (en_pumping x) (en_log x).
Definition set_now (v : Z) (x : engine) : engine :=
  mkEngine (en_streams x) (en_threads x) (en_store x) (en_tickets x) (en_settled x) v (en_running x) (en_pumping x) (en_log x).
Definition set_running (v : nat) (x : engine) : engine :=
  mkEngine (en_streams x) (en_threads x) (en_store x) (en_tickets x) (en_settled x) (en_now x) v (en_pumping x) (en_log x).
Definition set_pumping (v : gmap nat jstr) (x : engine) : engine :=
  mkEngine (en_streams x) (en_threads x) (en_store x) (en_tickets x) (en_settled x) (en_now x) (en_running x) v (en_log x).
Definition set_log (v : list (nat * note_)) (x : engine) : engine :=
  mkEngine (en_streams x) (en_threads x) (en_store x) (en_tickets x) (en_settled x) (en_now x) (en_running x) (en_pumping x) v.

Definition on_streams (f : streams -> streams) (e : engine) : engine := set_streams (f (en_streams e)) e.
Definition on_threads (f : threads -> threads) (e : engine) : engine := set_threads (f (en_threads e)) e.
Definition on_store (f : Z -> BridgeState -> BridgeState) (e : engine) : engine := set_store (f (en_now e) (en_store e)) e.

Definition noted (n : note_) (e : engine) : engine := set_log (en_log e ++ [(en_running e, n)]) e.

(** How the world sees a call: its requests and their answers are noted. *)
Definition issue (r : request) : engine -> engine := noted (Sent r).
Definition receive (r : request) (a : result (answer r)) : engine -> engine := noted (Got r a).
Definition yielded (src : source) (event : option A2AEvent) : engine -> engine := noted (Heard src event).
Definition enter (t : nat) (now : Z) (e : engine) : engine := set_now now (set_running t e).
Definition ready (r : request) (e : engine) : bool :=
  match r with RqAfter (Some ticket) => bool_decide (ticket ∈ en_settled e) | _ => true end.

Abbreviation cmd := (prog engine source A2AEvent answer).

Definition ask (r : request) : cmd (answer r) := call r.

#[local] Open Scope async_scope.

Section Engine.
Context (options : EngineOptions).
(** SHA-1, and whether [Number(v) > 0] for a value that is not a number. *)
Context (sha1 : list N -> list N) (positive_number : jsval -> bool).

Definition agent : jstr := eo_agent options.
Definition fileBaseUrl : option jstr := drop_trailing (fun c => c =? 47)%N <$> eo_fileBaseUrl options.
Definition thread_key (channel threadTs : jstr) : jstr := channel ++ js ":" ++ threadTs.

Definition stream_of (taskId : jstr) (e : engine) : option jstr := taskById taskId (en_store e) ≫= if_streamTs.
Definition cursor_of (taskId : jstr) (e : engine) : option Cursor := sm_streamCursor (en_streams e) !! taskId.
Definition used_chars (taskId : jstr) (e : engine) : Z := default 0%Z (sm_streamedChars (en_streams e) !! taskId).

(** ** The streamed message *)

(** [sealFence]: a refusal is caught. *)
Definition sealFence (taskId channel : jstr) : cmd unit :=
  read (fun e =>
    match cursor_of taskId e ≫= (fun c => (fun f => (c, f)) <$> cu_fence c), stream_of taskId e with
    | Some (cursor, fence), Some streamTs =>
        let eol := if jeqb (cu_partial cursor) [] then [] else [10%N] in
        try_catch (ask (RqAppendStream channel streamTs (eol ++ f_marker fence))) (fun _ => skip_)
    | _, _ => skip_
    end).

(** The bookkeeping of [closeStream]. *)
Definition fresh_message (taskId : jstr) (x : streams) : streams :=
  let x1 := set_chargedCards (delete taskId (sm_chargedCards x)) (set_streamedChars (delete taskId (sm_streamedChars x)) x) in
  match sm_streamCursor x !! taskId with
  | Some (mkCursor (Some f) _) =>
      set_streamReopen ({[taskId]} ∪ sm_streamReopen x1)
        (set_streamCursor (<[taskId := mkCursor (Some f) []]> (sm_streamCursor x1)) x1)
  | _ => x1
  end.

Definition closeStream (taskId channel : jstr) : cmd unit :=
  update (on_streams (fresh_message taskId)) ;;;
  read (fun e =>
    match stream_of taskId e with
    | None => skip_
    | Some streamTs =>
        update (on_store (fun _ => setStreamTs taskId None)) ;;;
        try_catch (ask (RqStopStream channel streamTs)) (fun _ => skip_)
    end).

Definition closeIfStale (taskId channel : jstr) : cmd unit :=
  read (fun e =>
    if bool_decide (taskId ∈ sm_staleStreams (en_streams e)) then
      update (on_streams (fun x => set_staleStreams (sm_staleStreams x ∖ {[taskId]}) x)) ;;;
      sealFence taskId channel ;;;
      closeStream taskId channel
    else skip_).

Definition ensureStream (taskId channel threadTs : jstr) : cmd jstr :=
  closeIfStale taskId channel ;;;
  read (fun e =>
    let record := taskById taskId (en_store e) in
    match record ≫= if_streamTs with
    | Some streamTs => Ret streamTs
    | None =>
        let* streamTs := ask (RqStartStream channel threadTs (record ≫= if_authorId)) in
        update (on_store (fun now =>
          match record with
          | None => recordTask (mkInFlight taskId agent channel threadTs (Some streamTs) None None None) now
          | Some _ => setStreamTs taskId (Some streamTs)
          end)) ;;;
        Ret streamTs
    end).

(** What an accepted append leaves behind. *)
Definition appended (taskId : jstr) (used : Z) (written : nat) (x : streams) : streams :=
  set_streamReopen (sm_streamReopen x ∖ {[taskId]})
    (set_streamedChars (<[taskId := (used + Z.of_nat written)%Z]> (sm_streamedChars x)) x).

(** The loop of [appendWithRollover]; running out of fuel is an error of
    its own. A turn of the loop either shortens the text or starts a fresh
    message before one that does. *)
Definition out_of_fuel : jstr := js "out of fuel".

Fixpoint append_loop (fuel : nat) (taskId channel threadTs text : jstr) : cmd unit :=
  match text, fuel with
  | [], _ => skip_
  | _, O => Throw out_of_fuel
  | _, S fuel' =>
      read (fun e =>
        let used := used_chars taskId e in
        let cursor := default START (cursor_of taskId e) in
        let prefix := if bool_decide (taskId ∈ sm_streamReopen (en_streams e)) then reopen cursor else [] in
        let left := (eo_streamTextBudget options - used - Z.of_nat (length prefix))%Z in
        if ((0 <? used) && (left <? 1 + closeCost cursor))%Z then
          closeStream taskId channel ;;;
          append_loop fuel' taskId channel threadTs text
        else
          let chunk := takeChunk text (Z.max left 1) cursor in
          (if jeqb (ch_head chunk) [] then skip_
           else
             let* streamTs := ensureStream taskId channel threadTs in
             ask (RqAppendStream channel streamTs (prefix ++ ch_head chunk)) ;;;
             update (on_streams (appended taskId used (length prefix + length (ch_head chunk))))) ;;;
          update (on_streams (fun x => set_streamCursor (<[taskId := ch_cursor chunk]> (sm_streamCursor x)) x)) ;;;
          (if jeqb (ch_rest chunk) [] then skip_ else closeStream taskId channel) ;;;
          append_loop fuel' taskId channel threadTs (ch_rest chunk))
  end.

Definition appendWithRollover (taskId text : jstr) (lastChunk : bool) (channel threadTs : jstr) : cmd unit :=
  append_loop (2 * length text) taskId channel threadTs text ;;;
  if lastChunk then closeStream taskId channel else skip_.

Definition buffer (taskId text : jstr) (x : streams) : streams :=
  set_streamlessText (<[taskId := default [] (sm_streamlessText x !! taskId) ++ text]> (sm_streamlessText x)) x.

Definition abandonStream (taskId : jstr) : cmd unit :=
  update (on_streams (fun x =>
    mkStreams ({[taskId]} ∪ sm_activityOff x) (sm_streamlessText x) ({[taskId]} ∪ sm_streamOff x)
      (delete taskId (sm_streamedChars x)) (delete taskId (sm_streamCursor x)) (sm_streamReopen x ∖ {[taskId]})
      (delete taskId (sm_chargedCards x)) (sm_openCards x) (sm_staleStreams x ∖ {[taskId]}))) ;;;
  update (on_store (fun _ => setStreamTs taskId None)).

(** Whether the card was charged already, and whether it still fits. *)
Definition card_charged (taskId : jstr) (activity : AgentActivity) (e : engine) : bool :=
  match sm_chargedCards (en_streams e) !! taskId with Some ids => bool_decide (a_id activity ∈ ids) | None => false end.

(** [charged] is the set the method holds on to: a rollover forgets it. *)
Definition charge (taskId : jstr) (charged : gset jstr) (activity : AgentActivity) (x : streams) : streams :=
  set_streamedChars (<[taskId := (default 0 (sm_streamedChars x !! taskId) + cardCost activity)%Z]> (sm_streamedChars x))
    (set_chargedCards (<[taskId := {[a_id activity]} ∪ charged]> (sm_chargedCards x)) x).

Definition chargeCard (taskId channel : jstr) (activity : AgentActivity) : cmd unit :=
  read (fun e =>
    if card_charged taskId activity e then skip_ else
    let used := used_chars taskId e in
    if ((0 <? used) && (eo_streamTextBudget options <? used + cardCost activity))%Z then
      sealFence taskId channel ;;;
      closeStream taskId channel ;;;
      update (on_streams (charge taskId ∅ activity))
    else update (on_streams (charge taskId (default ∅ (sm_chargedCards (en_streams e) !! taskId)) activity))).

(** ** The status line *)

Definition note (channel threadTs status : jstr) : cmd unit :=
  read (fun e =>
    if bool_decide (thread_key channel threadTs ∈ th_noteOff (en_threads e)) then skip_ else
    try_catch (ask (RqSetThreadStatus channel threadTs status))
      (fun _ => update (on_threads (fun x => set_noteOff ({[thread_key channel threadTs]} ∪ th_noteOff x) x)))).

(** A [Map]: a key set again keeps its place. *)
Fixpoint map_set (k v : jstr) (l : list (jstr * jstr)) : list (jstr * jstr) :=
  match l with
  | [] => [(k, v)]
  | (k', w) :: t => if bool_decide (k = k') then (k, v) :: t else (k', w) :: map_set k v t
  end.
Definition map_delete (k : jstr) (l : list (jstr * jstr)) : list (jstr * jstr) := filter (fun kv => fst kv <> k) l.

Definition move_card (activity : AgentActivity) (open : list (jstr * jstr)) : list (jstr * jstr) :=
  if decide (a_status activity = Running) then map_set (a_id activity) (a_title activity) open
  else map_delete (a_id activity) open.

Definition step_text (open : list (jstr * jstr)) : jstr :=
  match last open with Some (_, title) => title ++ ellipsis | None => THINKING end.

(** [stepLine]: the cards as they are after the move. *)
Definition stepLine (taskId : jstr) (activity : AgentActivity) : cmd jstr :=
  update (on_streams (fun x =>
    set_openCards (<[taskId := move_card activity (default [] (sm_openCards x !! taskId))]> (sm_openCards x)) x)) ;;;
  read (fun e => Ret (step_text (default [] (sm_openCards (en_streams e) !! taskId)))).

(** ** Questions and statuses *)

Definition offerQuestions (channel threadTs : jstr) (metadata : jsval) : cmd unit :=
  match parseAgentQuestions (prop metadata META_QUESTIONS) with
  | None => skip_
  | Some questions =>
      try_catch
        (let* messageTs := ask (RqPostBlocks channel threadTs (questionFallbackText questions) (renderQuestionBlocks questions)) in
         update (on_store (recordQuestion (mkPendingQuestion agent channel messageTs threadTs (questions_value questions)))))
        (fun _ => skip_)
  end.

(** [Number(metadata?.[META_QUEUED_TURN_COUNT] ?? 0) > 0]. *)
Definition more_turns_queued (metadata : jsval) : bool :=
  match or_else (prop metadata META_QUEUED_TURN_COUNT) (VNum 0) with VNum n => (0 <? n)%Z | v => positive_number v end.

(** What a terminal state clears of its task. *)
Definition forget_task (taskId : jstr) (x : streams) : streams :=
  mkStreams (sm_activityOff x ∖ {[taskId]}) (sm_streamlessText x) (sm_streamOff x ∖ {[taskId]}) (sm_streamedChars x)
    (delete taskId (sm_streamCursor x)) (sm_streamReopen x ∖ {[taskId]}) (sm_chargedCards x)
    (delete taskId (sm_openCards x)) (sm_staleStreams x ∖ {[taskId]}).

Definition deliver_buffered (taskId channel threadTs : jstr) : cmd unit :=
  read (fun e =>
    match sm_streamlessText (en_streams e) !! taskId with
    | None => skip_
    | Some buffered =>
        update (on_streams (fun x => set_streamlessText (delete taskId (sm_streamlessText x)) x)) ;;;
        if jeqb (trim buffered) [] then skip_ else ask (RqPostMessage channel threadTs buffered)
    end).

(** The end of a task, once its answer is out. *)
Definition finish_task (taskId : jstr) (state : TaskState) (channel threadTs : jstr) (metadata : jsval) : cmd unit :=
  let key := thread_key channel threadTs in
  closeStream taskId channel ;;;
  note channel threadTs [] ;;;
  update (on_streams (forget_task taskId)) ;;;
  update (on_store (fun _ => removeTask taskId)) ;;;
  if more_turns_queued metadata then skip_ else
  read (fun e =>
    if (0 <? default 0 (th_turnsOpen (en_threads e) !! key))%Z
    then update (on_threads (fun x => set_pendingRelease (<[key := slackStatusFor state]> (th_pendingRelease x)) x))
    else ask (RqSetStatus channel threadTs (slackStatusFor state) None)).

Definition applyStatus (taskId : jstr) (state : TaskState) (channel threadTs : jstr) (messageText : option jstr)
    (metadata : jsval) : cmd unit :=
  if decide (state = TASK_STATE_AUTH_REQUIRED) then
    ask (RqPostMessage channel threadTs
      (default (agent ++ js " needs authentication before it can continue. Check its configuration.") messageText)) ;;;
    ask (RqSetStatus channel threadTs SsSuspended None)
  else
    (if decide (state = TASK_STATE_FAILED \/ state = TASK_STATE_REJECTED)
     then ask (RqPostMessage channel threadTs (default (agent ++ js " could not complete this request.") messageText))
     else skip_) ;;;
    (if decide (state = TASK_STATE_INPUT_REQUIRED) then offerQuestions channel threadTs metadata else skip_) ;;;
    if TERMINAL state then
      deliver_buffered taskId channel threadTs ;;;
      finish_task taskId state channel threadTs metadata
    else ask (RqSetStatus channel threadTs (slackStatusFor state) None).

(** ** Streams of events *)

(** What a stream's turn was sent with; absent after a resubscription. *)
Record turn_origin := mkOrigin {
  to_messageTs : option jstr;
  to_authorId : option jstr;
  to_opening : option bool }.

Definition record_task (task : Task) (channel threadTs : jstr) (sentContextId : option jstr) (origin : turn_origin)
    (now : Z) (s : BridgeState) : BridgeState :=
  let s1 := recordTask (mkInFlight (at_id task) agent channel threadTs None (to_messageTs origin) (to_authorId origin)
              (to_opening origin)) now s in
  match sentContextId with
  | Some sent => if jeqb (at_contextId task) sent then s1 else saveContext channel threadTs (at_contextId task) s1
  | None => s1
  end.

Definition handleA2AEvent (channel threadTs : jstr) (sentContextId : option jstr) (origin : turn_origin) (event : A2AEvent)
    : cmd unit :=
  match event with
  | AeTask task =>
      update (on_store (record_task task channel threadTs sentContextId origin)) ;;;
      match at_status task with
      | Some (state, _) => applyStatus (at_id task) state channel threadTs None VUndef
      | None => skip_
      end
  | AeArtifact taskId text _ lastChunk =>
      read (fun e =>
        if bool_decide (taskId ∈ sm_streamOff (en_streams e)) then update (on_streams (buffer taskId text)) else
        closeIfStale taskId channel ;;;
        try_catch (appendWithRollover taskId text lastChunk channel threadTs)
          (fun _ => abandonStream taskId ;;; update (on_streams (buffer taskId text))))
  | AeActivity taskId activities =>
      read (fun e =>
        if bool_decide (taskId ∈ sm_activityOff (en_streams e)) then skip_ else
        closeIfStale taskId channel ;;;
        try_catch
          (for_list activities (fun activity =>
             chargeCard taskId channel activity ;;;
             let* streamTs := ensureStream taskId channel threadTs in
             ask (RqAppendActivity channel streamTs activity) ;;;
             let* line := stepLine taskId activity in
             note channel threadTs line))
          (fun _ => update (on_streams (fun x => set_activityOff ({[taskId]} ∪ sm_activityOff x) x))))
  | AeStatus taskId _ state messageText metadata => applyStatus taskId state channel threadTs messageText metadata
  end.

Definition pump (src : source) (channel threadTs : jstr) (sentContextId : option jstr) (origin : turn_origin) : cmd unit :=
  update (noted (Opened src)) ;;;
  for_each src (handleA2AEvent channel threadTs sentContextId origin).

(** The counting of [pumpTracked], with the call it is for. *)
Definition open_turn (key : jstr) (e : engine) : engine :=
  set_pumping (<[en_running e := key]> (en_pumping e))
    (on_threads (fun x => set_turnsOpen (<[key := (default 0 (th_turnsOpen x !! key) + 1)%Z]> (th_turnsOpen x)) x) e).

Definition close_turn (key : jstr) (e : engine) : engine :=
  set_pumping (delete (en_running e) (en_pumping e))
    (on_threads (fun x => set_turnsOpen (<[key := (default 1 (th_turnsOpen x !! key) - 1)%Z]> (th_turnsOpen x)) x) e).

Definition release_if_last (channel threadTs : jstr) : cmd unit :=
  let key := thread_key channel threadTs in
  read (fun e =>
    if (default 0 (th_turnsOpen (en_threads e) !! key) =? 0)%Z then
      match th_pendingRelease (en_threads e) !! key with
      | Some release =>
          update (on_threads (fun x => set_pendingRelease (delete key (th_pendingRelease x)) x)) ;;;
          ask (RqSetStatus channel threadTs release None)
      | None => skip_
      end
    else skip_).

Definition pumpTracked (src : source) (channel threadTs : jstr) (sentContextId : option jstr) (origin : turn_origin)
    : cmd unit :=
  update (open_turn (thread_key channel threadTs)) ;;;
  try_finally (pump src channel threadTs sentContextId origin)
    (update (close_turn (thread_key channel threadTs)) ;;; release_if_last channel threadTs).

(** ** Turns *)

Definition contextIdFor (channel threadTs : jstr) (e : engine) : jstr :=
  default (default [] (deriveSessionId sha1 channel threadTs)) (contextFor channel threadTs (en_store e)).

Inductive binding := Bound (workspace : option jstr) | Unresolved (error : jstr).

Definition hash : jstr := js "#".

(** [workspaceFor]. *)
Definition workspace_by_name (channel : jstr) (e : engine) : binding :=
  match th_channelNames (en_threads e) !! channel with
  | Some (Some name) => Bound (assq (hash ++ name) (eo_bindings options))
  | _ => Unresolved (js "Slack reports no name for this channel")
  end.

Definition remember_name (channel : jstr) (name : option jstr) (x : threads) : threads :=
  set_channelNames (<[channel := name]> (th_channelNames x)) x.

Definition workspaceFor (channel : jstr) : cmd binding :=
  let bindings := eo_bindings options in
  if bool_decide (bindings = []) || starts_with (js "D") channel then Ret (Bound None) else
  match assq channel bindings with
  | Some direct => Ret (Bound (Some direct))
  | None =>
      if negb (existsb (fun kv => starts_with hash (fst kv)) bindings) then Ret (Bound None) else
      read (fun e =>
        match th_channelNames (en_threads e) !! channel with
        | Some _ => Ret (workspace_by_name channel e)
        | None =>
            try_catch
              (let* name := ask (RqChannelName channel) in
               update (on_threads (remember_name channel name)) ;;;
               read (fun e' => Ret (workspace_by_name channel e')))
              (fun message => Ret (Unresolved (js "channel lookup failed: " ++ message)))
        end)
  end.

Definition file_url (fileId : jstr) : option jstr :=
  encoded ← encodeURIComponent fileId;
  Some (match fileBaseUrl with Some base => base | None => js "undefined" end ++ js "/files/" ++ encoded).

Definition link_reference (url : jstr) : jsval := VObj [(js "kind", VStr (js "link")); (js "url", VStr url)].

Definition envelope (channel threadTs text messageTs : jstr) (authorId : option jstr) : jsval :=
  VObj ([(js "surface", VStr (js "slack"));
         (js "place", VObj [(js "kind", VStr (if starts_with (js "D") channel then js "DM" else js "channel"));
                            (js "channel", VStr channel); (js "thread", VStr threadTs); (js "message", VStr messageTs)])]
        ++ opt_field (js "author") (person <$> authorId)
        ++ opt_field (js "mentions") (match mentionsIn text with [] => None | l => Some (VArr l) end)
        ++ opt_field (js "references") (match linksIn text with [] => None | l => Some (VArr (link_reference <$> l)) end)).

(** [None]: a file's id cannot be encoded. *)
Definition buildMessage (channel threadTs text messageTs : jstr) (shouldQuery : bool) (fileIds : list jstr)
    (workspace authorId : option jstr) (e : engine) : option Message :=
  let files := omap (fun id => fileFor agent id (en_store e)) fileIds in
  fileParts ← mapM (fun file => (fun url => filePart url file) <$> file_url (rf_fileId file)) files;
  Some (mkMessage (js "slack-" ++ channel ++ js "-" ++ messageTs) (contextIdFor channel threadTs e) [] ROLE_USER
    (textPart text :: fileParts)
    (VObj ([(META_SLACK_CHANNEL, VStr channel); (META_SLACK_THREAD, VStr threadTs);
            (META_ENVELOPE, envelope channel threadTs text messageTs authorId)]
           ++ opt_field META_WORKSPACE (VStr <$> workspace)
           ++ (if shouldQuery then [] else [(META_SHOULD_QUERY, VBool false)])))).

Definition with_message (channel threadTs text messageTs : jstr) (shouldQuery : bool) (fileIds : list jstr)
    (workspace authorId : option jstr) (k : Message -> cmd unit) : cmd unit :=
  read (fun e =>
    match buildMessage channel threadTs text messageTs shouldQuery fileIds workspace authorId e with
    | Some message => k message
    | None => Throw (js "URI malformed")
    end).

Definition transcript_line (m : SlackMessage) : jstr :=
  js "[" ++ match sk_authorId m, sk_botId m with Some a, _ => a | None, Some b => b | None, None => js "unknown" end
  ++ js "] " ++ sk_text m.

Definition replay_text (text messageTs : jstr) (messages : list SlackMessage) : jstr :=
  match transcript_line <$> filter (fun m => sk_ts m <> messageTs /\ sk_text m <> []) messages with
  | [] => text
  | transcript =>
      js "Thread so far, replayed because you keep no conversation state:" ++ [10%N]
      ++ join_with [10%N] transcript ++ [10%N; 10%N] ++ js "Current message:" ++ [10%N] ++ text
  end.

Definition withReplayContext (channel threadTs text messageTs : jstr) : cmd jstr :=
  match eo_context options with
  | Native => Ret text
  | Replay =>
      try_catch
        (let* messages := ask (RqReplies channel threadTs REPLAY_LIMIT) in Ret (replay_text text messageTs messages))
        (fun _ => Ret text)
  end.

Definition unreachable (channel threadTs text messageTs : jstr) (fileIds : list jstr) (authorId : option jstr) : cmd unit :=
  update (on_store (enqueue (mkQueued 0 agent channel threadTs text messageTs fileIds authorId))) ;;;
  ask (RqPostMessage channel threadTs
    (agent ++ js " is unreachable right now (its machine may be asleep). Your message is queued and will be delivered when it comes back.")) ;;;
  ask (RqSetStatus channel threadTs SsActive None).

Definition part_text (p : part) : jstr := match p_content p with CText s => s | _ => [] end.

Definition final_text (task : Task) : jstr :=
  let statusMessage := match at_status task with Some (_, Some parts) => concat (part_text <$> parts) | _ => [] end in
  match statusMessage with [] => concat (part_text <$> concat (at_artifacts task)) | _ => statusMessage end.

Definition finishBlocking (task : Task) (channel threadTs sentContextId : jstr) : cmd unit :=
  (if jeqb (at_contextId task) sentContextId then skip_
   else update (on_store (fun _ => saveContext channel threadTs (at_contextId task)))) ;;;
  let state := match at_status task with Some (state, _) => state | None => TASK_STATE_UNSPECIFIED end in
  (if decide (state = TASK_STATE_COMPLETED \/ state = TASK_STATE_INPUT_REQUIRED)
   then ask (RqPostMessage channel threadTs (final_text task)) else skip_) ;;;
  applyStatus (at_id task) state channel threadTs (match final_text task with [] => None | t => Some t end) VUndef.

(** The turn once its workspace is known. *)
Definition deliver_turn (channel threadTs text messageTs : jstr) (fileIds : list jstr) (authorId : option jstr)
    (contextId : jstr) (opening : bool) (workspace : option jstr) : cmd unit :=
  let* card := attempt (ask RqFetchCard) (fun r => Ret r) in
  match card with
  | Exn _ => unreachable channel threadTs text messageTs fileIds authorId
  | Val streaming =>
      let* outgoing := withReplayContext channel threadTs text messageTs in
      with_message channel threadTs outgoing messageTs true fileIds workspace authorId (fun message =>
        try_catch
          (if streaming
           then pumpTracked (SrcStream message) channel threadTs (Some contextId) (mkOrigin (Some messageTs) authorId (Some opening))
           else
             let* task := ask (RqSend message) in
             finishBlocking task channel threadTs contextId)
          (fun err =>
             ask (RqPostMessage channel threadTs (js "Something went wrong talking to " ++ agent ++ js ": " ++ err)) ;;;
             ask (RqSetStatus channel threadTs SsActive None)))
  end.

Definition runTurn (channel threadTs text messageTs : jstr) (fileIds : list jstr) (authorId : option jstr) : cmd unit :=
  read (fun e =>
    let contextId := contextIdFor channel threadTs e in
    let opening := negb (isEngaged channel threadTs (en_store e)) in
    update (on_store (fun _ => saveContext channel threadTs contextId)) ;;;
    (if opening then try_catch (ask (RqAddReaction channel messageTs (js "eyes"))) (fun _ => skip_) else skip_) ;;;
    ask (RqSetStatus channel threadTs SsProcessing (if opening then sessionTitle text else None)) ;;;
    note channel threadTs THINKING ;;;
    let* bound := workspaceFor channel in
    match bound with
    | Unresolved error =>
        ask (RqPostMessage channel threadTs
          (js "I can't tell which channel this is (" ++ error
           ++ js "), so I won't guess which workspace to work in. Try again in a moment.")) ;;;
        note channel threadTs [] ;;;
        ask (RqSetStatus channel threadTs SsActive None)
    | Bound workspace => deliver_turn channel threadTs text messageTs fileIds authorId contextId opening workspace
    end).

Definition stale_streams (channel threadTs : jstr) (e : engine) : list jstr :=
  if_taskId <$> filter (fun t => if_agent t = agent /\ if_streamTs t <> None) (tasksForThread channel threadTs (en_store e)).

Definition markStreamsStale (channel threadTs : jstr) (e : engine) : engine :=
  on_streams (fun x => set_staleStreams (list_to_set (stale_streams channel threadTs e) ∪ sm_staleStreams x) x) e.

(** A link of a thread's chain: it takes the chain's end as its own, and
    settles whether or not the turn fails. *)
Definition join_chain (key : jstr) (e : engine) : engine :=
  noted (Joined key (en_tickets e))
    (set_tickets (S (en_tickets e)) (on_threads (fun x => set_chains (<[key := en_tickets e]> (th_chains x)) x) e)).
Definition settle_ticket (key : jstr) (ticket : nat) (e : engine) : engine :=
  noted (Ended key ticket) (set_settled ({[ticket]} ∪ en_settled e) e).

Definition trigger (channel threadTs text messageTs : jstr) (fileIds : list jstr) (authorId : option jstr) : cmd unit :=
  update (markStreamsStale channel threadTs) ;;;
  match eo_queueing options with
  | Harness => runTurn channel threadTs text messageTs fileIds authorId
  | Bridge =>
      let key := thread_key channel threadTs in
      read (fun e =>
        let prev := th_chains (en_threads e) !! key in
        let ticket := en_tickets e in
        update (join_chain key) ;;;
        attempt (ask (RqAfter prev)) (fun _ =>
          update (noted (Began key ticket)) ;;;
          try_finally (runTurn channel threadTs text messageTs fileIds authorId) (update (settle_ticket key ticket))))
  end.

(** ** What the engine is called with *)

Definition authoredByBot (event : MessageEvent) : cmd bool :=
  if negb (me_viaApp event) then Ret false
  else try_catch (ask (RqIsBotUser (me_authorId event))) (fun _ => Ret true).

Definition recorded_file (event : MessageEvent) (file : SlackFile) : RecordedFile :=
  mkRecordedFile (sl_id file) agent (me_channel event) (me_threadTs event) (sl_name file) (sl_mimetype file)
    (sl_size file) (sl_downloadUrl file).

Definition acceptFiles (event : MessageEvent) : cmd (list jstr) :=
  match me_files event, fileBaseUrl with
  | [], _ => Ret []
  | _, None =>
      ask (RqPostMessage (me_channel event) (me_threadTs event)
        (js "I can't read attachments yet — " ++ agent
         ++ js " has no reachable address configured for file transfer. I'll answer what I can from your message.")) ;;;
      Ret []
  | files, Some _ =>
      update (on_store (fun now s => fold_left (fun s file => recordFile (recorded_file event file) now s) files s)) ;;;
      Ret (sl_id <$> files)
  end.

Definition on_turn_message (event : MessageEvent) : cmd unit :=
  let* files := acceptFiles event in
  trigger (me_channel event) (me_threadTs event) (me_text event) (me_messageTs event) files (Some (me_authorId event)).

Definition on_thread_message (event : MessageEvent) : cmd unit :=
  let channel := me_channel event in
  let threadTs := me_threadTs event in
  read (fun e =>
    if negb (isEngaged channel threadTs (en_store e)) then skip_ else
    let* files := acceptFiles event in
    match eo_context options with
    | Replay => skip_
    | Native =>
        update (markStreamsStale channel threadTs) ;;;
        let* bound := workspaceFor channel in
        match bound with
        | Unresolved _ => skip_
        | Bound workspace =>
            with_message channel threadTs (me_text event) (me_messageTs event) false files workspace (Some (me_authorId event))
              (fun message => ask (RqSend message) ;;; skip_)
        end
    end).

(** Whoever wrote a message through an app may be a bot. *)
Definition unless_bot (event : MessageEvent) (p : cmd unit) : cmd unit :=
  let* isBot := authoredByBot event in if isBot then skip_ else p.

Definition answerByTap (event : TapEvent) : cmd unit :=
  if negb (existsb isQuestionAction (ta_actions event)) then skip_ else
  let channel := ta_channel event in
  read (fun e =>
    let pending := questionFor channel (ta_messageTs event) (en_store e) in
    match pending, pending ≫= (fun p => parseAgentQuestions (pq_questions p)) with
    | Some p, Some questions =>
        match decodeAnswers questions (ta_actions event) (ta_state event) with
        | None => skip_
        | Some Incomplete => ask (RqPostMessage channel (pq_threadTs p) (js "Pick an option for every question, then Submit."))
        | Some (Answered answers) =>
            update (on_store (fun _ => removeQuestion channel (ta_messageTs event))) ;;;
            match answerText questions answers, renderAnsweredBlocks questions answers (ta_userId event) with
            | Some text, Some blocks =>
                try_catch (ask (RqUpdateMessage channel (ta_messageTs event) text blocks)) (fun _ => skip_) ;;;
                trigger channel (pq_threadTs p) text (ta_messageTs event) [] (Some (ta_userId event))
            | _, _ => Throw (js "Cannot read properties of undefined (reading 'label')")
            end
        end
    | _, _ =>
        ask (RqPostMessage channel (default (ta_messageTs event) (ta_threadTs event))
          (js "That question has already been answered, or I've lost track of it — just reply here in the thread and I'll take it from there."))
    end).

Definition handleEvent (event : InboundEvent) : cmd unit :=
  match event with
  | SessionStopped channel threadTs =>
      read (fun e => for_list (tasksForThread channel threadTs (en_store e)) (fun task => ask (RqCancel (if_taskId task))))
  | BlockActions tap => answerByTap tap
  | Dm message | Mention message => unless_bot message (on_turn_message message)
  | ThreadMessage message => unless_bot message (on_thread_message message)
  end.

(** [start]: the calls it makes and does not wait for. *)
Definition start (e : engine) : list (cmd unit) :=
  (fun task => try_catch
     (pumpTracked (SrcResubscribe (if_taskId task)) (if_channel task) (if_threadTs task) None (mkOrigin None None None))
     (fun _ => skip_))
  <$> filter (fun task => if_agent task = agent) (allTasks (en_store e)).

(** [flushQueue], but for the number it returns. *)
Definition flushQueue : cmd unit :=
  read (fun e =>
    match queuedFor agent (en_store e) with
    | [] => skip_
    | queued =>
        let* card := attempt (ask RqFetchCard) (fun r => Ret r) in
        match card with
        | Exn _ => skip_
        | Val _ =>
            for_list queued (fun request =>
              update (on_store (fun _ => dequeue (qr_id request))) ;;;
              trigger (qr_channel request) (qr_threadTs request) (qr_text request) (qr_messageTs request)
                (qr_fileIds request) (qr_authorId request))
        end
    end).
End Engine.

(** ** Whole histories *)

(** The calls made of an engine: events as they arrive, the queue's flush,
    and the resubscriptions of [start]. *)
Definition entry (options : EngineOptions) (sha1 : list N -> list N) (positive_number : jsval -> bool)
    (now : Z) (p : cmd unit) (e : engine) : Prop :=
  (exists event, p = handleEvent options sha1 positive_number event) \/
  p = flushQueue options sha1 positive_number \/
  p ∈ start options positive_number e.

Abbreviation engine_world := (world engine source A2AEvent answer).
Abbreviation engine_happening := (happening engine source A2AEvent answer).
Definition engine_happen : engine_happening -> engine_world -> option engine_world := happen issue receive yielded enter ready.
Definition engine_history : list engine_happening -> engine_world -> option engine_world :=
  happen_all issue receive yielded enter ready.
Definition new_world (store : BridgeState) : engine_world := mkWorld (new_engine store) ∅ 0.
