(* ===== verification/SlackSteady.v ===== *)
(** What every method of the Slack engine keeps, for any property a call can
    hold on to while others run: a local assertion that quiet updates, noted
    requests and the others' doings preserve is preserved by each method. *)

From S2P Require Import Prelude A2A A2AClient Activity Questions Envelope SessionId Markdown Async AsyncLogic Values.
From S2P Require Import SlackState SlackQuestions SlackTranslate SlackEngine.
#[local] Open Scope nat_scope.
#[local] Open Scope async_scope.

(** The others only add notes of their own. *)
Definition others_note (t : nat) (e e' : engine) : Prop :=
  exists l, en_log e' = en_log e ++ l /\ Forall (fun n => fst n <> t) l.
#[export] Instance others_note_preorder t : PreOrder (others_note t).
Proof.
  split; [intros e; exists []; by rewrite app_nil_r|]. intros e1 e2 e3 (l1 & E1 & H1) (l2 & E2 & H2).
  exists (l1 ++ l2). rewrite E2, E1, app_assoc. split; [done|by apply Forall_app].
Qed.

Lemma others_note_own t e e' note : others_note t e e' -> (t, note) ∈ en_log e' <-> (t, note) ∈ en_log e.
Proof.
  intros (l & -> & Hl). rewrite elem_of_app. split; [|by left]. intros [H|H]; [done|].
  rewrite Forall_forall in Hl. by apply Hl in H.
Qed.

(** An update of what a task's stream looks like, of the store, or of which
    status lines were given up: the rest stays. *)
Record quiet (f : engine -> engine) : Prop := {
  quiet_chains e : th_chains (en_threads (f e)) = th_chains (en_threads e);
  quiet_turns e : th_turnsOpen (en_threads (f e)) = th_turnsOpen (en_threads e);
  quiet_release e : th_pendingRelease (en_threads (f e)) = th_pendingRelease (en_threads e);
  quiet_names e : th_channelNames (en_threads (f e)) = th_channelNames (en_threads e);
  quiet_tickets e : en_tickets (f e) = en_tickets e;
  quiet_settled e : en_settled (f e) = en_settled e;
  quiet_running e : en_running (f e) = en_running e;
  quiet_pumping e : en_pumping (f e) = en_pumping e;
  quiet_log e : en_log (f e) = en_log e }.

(** A quiet update that leaves alone what is held back of an answer. *)
Definition gentle (f : engine -> engine) : Prop :=
  quiet f /\
  forall e, sm_streamlessText (en_streams (f e)) = sm_streamlessText (en_streams e) /\
            sm_streamOff (en_streams (f e)) = sm_streamOff (en_streams e).

(** The updates an assertion is known to be kept by. *)
Class Lenient (mild : (engine -> engine) -> Prop) := lenient f : quiet f -> mild f.
Class Tolerant (mild : (engine -> engine) -> Prop) := tolerant f : gentle f -> mild f.
(** Whether an event ends its task, and whether it brings text. *)
Definition ends (event : A2AEvent) : bool :=
  match event with
  | AeTask task => match at_status task with Some (state, _) => TERMINAL state | None => false end
  | AeStatus _ _ state _ _ => TERMINAL state
  | _ => false
  end.
Definition is_artifact (event : A2AEvent) : bool := match event with AeArtifact _ _ _ _ => true | _ => false end.

(** Any text may be appended. *)
Class Appends (fine : request -> Prop) := appends channel streamTs text : fine (RqAppendStream channel streamTs text).
#[export] Instance quiet_lenient : Lenient quiet.
Proof. by intros f. Qed.
#[export] Instance quiet_tolerant : Tolerant quiet.
Proof. by intros f [H _]. Qed.
#[export] Instance gentle_tolerant : Tolerant gentle.
Proof. by intros f. Qed.

#[export] Instance anything_appends : Appends (fun _ => True).
Proof. done. Qed.

Create HintDb steady.

Lemma quiet_streams f : quiet (on_streams f).
Proof. by split. Qed.
Lemma quiet_store f : quiet (on_store f).
Proof. by split. Qed.
Lemma quiet_noteOff v : quiet (on_threads (fun x => set_noteOff (v x) x)).
Proof. by split. Qed.
Lemma quiet_stale channel threadTs options : quiet (markStreamsStale options channel threadTs).
Proof. by split. Qed.
#[export] Hint Resolve quiet_streams quiet_store quiet_noteOff quiet_stale : steady.

Lemma gentle_streams f :
  (forall x, sm_streamlessText (f x) = sm_streamlessText x /\ sm_streamOff (f x) = sm_streamOff x) -> gentle (on_streams f).
Proof. intros Hf. split; [by split|]. intros e. apply Hf. Qed.
Lemma gentle_store f : gentle (on_store f).
Proof. by split; [split|]. Qed.
Lemma gentle_noteOff v : gentle (on_threads (fun x => set_noteOff (v x) x)).
Proof. by split; [split|]. Qed.
Lemma gentle_stale channel threadTs options : gentle (markStreamsStale options channel threadTs).
Proof. by split; [split|]. Qed.
Lemma gentle_fresh taskId : gentle (on_streams (fresh_message taskId)).
Proof. apply gentle_streams. intros x. unfold fresh_message. by destruct (_ !! _) as [[[f|] p]|]. Qed.
#[export] Hint Resolve gentle_store gentle_noteOff gentle_stale gentle_fresh : steady.
#[export] Hint Extern 3 (gentle (on_streams _)) => apply gentle_streams; by split : steady.

Section Steady.
Context (options : EngineOptions) (sha1 : list N -> list N) (positive_number : jsval -> bool).
Context (sane : forall r, result (answer r) -> engine -> Prop) (fits : nat -> source -> A2AEvent -> engine -> Prop).
Context (Inv : engine -> Prop) (rely : nat -> engine -> engine -> Prop) {rely_preorder : forall t, PreOrder (rely t)}.
Context (t : nat).

#[local] Abbreviation wp := (wp issue receive yielded enter ready sane fits Inv rely t).
#[local] Abbreviation guar := (guar rely t).

(** The assertion, and the requests and streams it allows. *)
Context (L : engine -> Prop) (fine : request -> Prop) (source_ok : source -> Prop).

#[local] Abbreviation steps := (steps rely t L).
Definition stays {A : Type} (p : cmd A) : Prop := keeps issue receive yielded enter ready sane fits Inv rely t L p.

Class Steady (mild : (engine -> engine) -> Prop) : Prop := {
  steady_inv s : L s -> Inv s;
  steady_quiet f : mild f -> steps f;
  steady_issue r : fine r -> steps (issue r);
  steady_back r a s s1 now : fine r -> L s -> rely t s s1 -> Inv s1 -> sane r a (enter t now s1) ->
    guar s1 (receive r a (enter t now s1)) /\ L (receive r a (enter t now s1));
  steady_heard src e s s1 now : source_ok src -> L s -> rely t s s1 -> Inv s1 ->
    guar s1 (yielded src e (enter t now s1)) /\ L (yielded src e (enter t now s1));
  steady_release key v s : L s -> (0 < default 0%Z (th_turnsOpen (en_threads s) !! key))%Z ->
    guar s (on_threads (fun x => set_pendingRelease (<[key := v]> (th_pendingRelease x)) x) s) /\
    L (on_threads (fun x => set_pendingRelease (<[key := v]> (th_pendingRelease x)) x) s);
  steady_fine r : match r with RqSend _ | RqAfter _ | RqAppendStream _ _ _ => True | _ => fine r end;
  steady_seal channel streamTs eol f : eol = [] \/ eol = [10%N] -> fine (RqAppendStream channel streamTs (eol ++ f_marker f));
  steady_opened src : source_ok src -> steps (noted (Opened src)) }.

Context {mild : (engine -> engine) -> Prop} {steadiness : Steady mild}.

Lemma stays_ret {A : Type} (a : A) : stays (Ret a).
Proof. apply keeps_ret. Qed.
Lemma stays_throw {A : Type} m : stays (Throw m : cmd A).
Proof. apply keeps_throw. Qed.
Lemma stays_read {A : Type} (k : engine -> cmd A) : (forall e, stays (k e)) -> stays (read k).
Proof. intros Hk. apply keeps_read. intros s _. apply Hk. Qed.
Lemma stays_step f : steps f -> stays (update f).
Proof. apply keeps_step. Qed.
Lemma stays_update f : mild f -> stays (update f).
Proof. intros Hf. by apply stays_step, steady_quiet. Qed.
Lemma stays_ask r : fine r -> stays (ask r).
Proof.
  intros Hr. apply keeps_call; [apply steady_inv|by apply steady_issue|]. intros a s s1 now. by apply steady_back.
Qed.
Lemma stays_attempt {A B : Type} (p : cmd A) (k : result A -> cmd B) : stays p -> (forall r, stays (k r)) -> stays (attempt p k).
Proof. apply keeps_attempt. Qed.
Lemma stays_bind {A B : Type} (p : cmd A) (k : A -> cmd B) : stays p -> (forall a, stays (k a)) -> stays (bind p k).
Proof. apply keeps_bind. Qed.
Lemma stays_try {A : Type} (p : cmd A) h : stays p -> (forall e, stays (h e)) -> stays (try_catch p h).
Proof. apply keeps_try. Qed.
Lemma stays_finally {A : Type} (p : cmd A) f : stays p -> stays f -> stays (try_finally p f).
Proof. apply keeps_finally. Qed.
Lemma stays_list {X} (l : list X) body : (forall x, stays (body x)) -> stays (for_list l body).
Proof. intros Hb. apply keeps_list. intros x _. apply Hb. Qed.
Lemma stays_each src body : source_ok src -> (forall e, stays (body e)) -> stays (for_each src body).
Proof. intros Hsrc. apply keeps_each; [apply steady_inv|]. intros e s s1 now. by apply steady_heard. Qed.

Lemma stays_match_option {A X : Type} (o : option X) (f : X -> cmd A) (g : cmd A) :
  (forall x, stays (f x)) -> stays g -> stays (match o with Some x => f x | None => g end).
Proof. intros Hf Hg. destruct o; [apply Hf|done]. Qed.

(** One step towards [stays]. *)
Ltac fine_request := match goal with |- fine ?r => exact (steady_fine r) end.
Ltac steady_step :=
  match goal with
  | |- forall _, _ => intros ?
  | |- stays (Ret _) => apply stays_ret
  | |- stays skip_ => apply stays_ret
  | |- stays (Throw _) => apply stays_throw
  | |- stays (update _) => apply stays_update; first [apply tolerant; solve [auto with steady] | apply lenient; solve [auto with steady]]
  | |- stays (ask _) => apply stays_ask; solve [fine_request | auto with steady]
  | |- stays (read _) => solve [auto 2 with steady]
  | |- stays (read _) => apply stays_read; intros ?; cbv beta zeta
  | |- stays (bind _ _) => apply stays_bind
  | |- stays (try_catch _ _) => apply stays_try
  | |- stays (try_finally _ _) => apply stays_finally
  | |- stays (for_list _ _) => apply stays_list
  | |- stays (attempt _ _) => apply stays_attempt
  | |- stays (let _ := _ in _) => cbv zeta
  | |- stays _ => solve [auto with steady]
  | |- stays (match ?x with _ => _ end) => destruct x
  end.
Ltac steady := repeat steady_step.

(** ** The streamed message *)

Section Tolerant.
Context {tolerance : Tolerant mild}.

Lemma stays_sealFence taskId channel : stays (sealFence taskId channel).
Proof.
  unfold sealFence. apply stays_read. intros e. destruct (cursor_of _ _ ≫= _) as [[c f]|]; [|steady].
  destruct (stream_of _ _); [|steady]. cbv zeta. apply stays_try; [|steady].
  apply stays_ask, steady_seal. destruct (jeqb _ _); auto.
Qed.
Lemma stays_closeStream taskId channel : stays (closeStream taskId channel).
Proof. unfold closeStream. steady. Qed.
#[local] Hint Resolve stays_sealFence stays_closeStream : steady.

Lemma stays_closeIfStale taskId channel : stays (closeIfStale taskId channel).
Proof. unfold closeIfStale. steady. Qed.
#[local] Hint Resolve stays_closeIfStale : steady.

Lemma stays_ensureStream taskId channel threadTs : stays (ensureStream options taskId channel threadTs).
Proof. unfold ensureStream. steady. Qed.
#[local] Hint Resolve stays_ensureStream : steady.

Lemma stays_chargeCard taskId channel activity : stays (chargeCard options taskId channel activity).
Proof. unfold chargeCard. steady. Qed.
Lemma stays_note channel threadTs status : stays (note channel threadTs status).
Proof. unfold note. steady. Qed.
Lemma stays_stepLine taskId activity : stays (stepLine taskId activity).
Proof. unfold stepLine. steady. Qed.
#[local] Hint Resolve stays_chargeCard stays_note stays_stepLine : steady.

Lemma stays_offerQuestions channel threadTs metadata : stays (offerQuestions options channel threadTs metadata).
Proof. unfold offerQuestions. steady. Qed.
#[local] Hint Resolve stays_offerQuestions : steady.

(** A status that does not end its task. *)
Lemma stays_applyOpen taskId state channel threadTs messageText metadata : TERMINAL state = false ->
  stays (applyStatus options positive_number taskId state channel threadTs messageText metadata).
Proof. intros Hstate. unfold applyStatus. rewrite Hstate. steady. Qed.

(** Events that neither end their task nor bring text. *)
Lemma stays_openEvent channel threadTs sent origin event :
  ends event = false -> is_artifact event = false ->
  stays (handleA2AEvent options positive_number channel threadTs sent origin event).
Proof.
  intros He Ha. destruct event as [task|taskId ctx state text metadata|taskId text app lastChunk|taskId activities];
    cbn [handleA2AEvent ends is_artifact] in *; [|by apply stays_applyOpen|done|steady].
  apply stays_bind; [steady|]. intros _. destruct (at_status task) as [[state parts]|]; [by apply stays_applyOpen|apply stays_ret].
Qed.
End Tolerant.

Section Lenient.
Context {lenience : Lenient mild} {tolerance : Tolerant mild} {appending : Appends fine}.
#[local] Hint Extern 1 (fine (RqAppendStream _ _ _)) => apply appends : steady.
#[local] Hint Resolve stays_sealFence stays_closeStream stays_closeIfStale stays_ensureStream stays_chargeCard stays_note
  stays_stepLine stays_offerQuestions : steady.

Lemma stays_append_loop fuel taskId channel threadTs text : stays (append_loop options fuel taskId channel threadTs text).
Proof.
  revert text. induction fuel as [|fuel IH]; intros text; cbn [append_loop]; [steady|]. steady.
Qed.
#[local] Hint Resolve stays_append_loop : steady.

Lemma stays_append taskId text lastChunk channel threadTs : stays (appendWithRollover options taskId text lastChunk channel threadTs).
Proof. unfold appendWithRollover. steady. Qed.

Lemma stays_abandon taskId : stays (abandonStream taskId).
Proof. unfold abandonStream. steady. Qed.
#[local] Hint Resolve stays_append stays_abandon : steady.
Lemma stays_deliver taskId channel threadTs : stays (deliver_buffered taskId channel threadTs).
Proof. unfold deliver_buffered. steady. Qed.
#[local] Hint Resolve stays_deliver : steady.

Lemma stays_hold_release channel threadTs state :
  stays (read (fun e =>
    if (0 <? default 0 (th_turnsOpen (en_threads e) !! thread_key channel threadTs))%Z
    then update (on_threads (fun x => set_pendingRelease
           (<[thread_key channel threadTs := slackStatusFor state]> (th_pendingRelease x)) x))
    else ask (RqSetStatus channel threadTs (slackStatusFor state) None))).
Proof.
  intros s Hs. destruct (Z.ltb_spec 0 (default 0%Z (th_turnsOpen (en_threads s) !! thread_key channel threadTs))) as [H|H].
  - unfold read. cbn [AsyncLogic.wp]. rewrite (proj2 (Z.ltb_lt _ _) H). by apply steady_release.
  - unfold read. cbn [AsyncLogic.wp]. rewrite (proj2 (Z.ltb_ge _ _) H). by apply stays_ask; [exact (steady_fine (RqSetStatus _ _ _ _))|].
Qed.
#[local] Hint Resolve stays_hold_release : steady.

Lemma stays_finish taskId state channel threadTs metadata :
  stays (finish_task positive_number taskId state channel threadTs metadata).
Proof. unfold finish_task. steady. Qed.
#[local] Hint Resolve stays_finish : steady.

Lemma stays_applyStatus taskId state channel threadTs messageText metadata :
  stays (applyStatus options positive_number taskId state channel threadTs messageText metadata).
Proof. unfold applyStatus. steady. Qed.
#[local] Hint Resolve stays_applyStatus : steady.

Lemma stays_handleA2A channel threadTs sent origin event :
  stays (handleA2AEvent options positive_number channel threadTs sent origin event).
Proof. unfold handleA2AEvent. steady. Qed.
#[local] Hint Resolve stays_handleA2A : steady.

(** ** Turns *)

Lemma stays_pump src channel threadTs sent origin : source_ok src ->
  stays (pump options positive_number src channel threadTs sent origin).
Proof.
  intros Hsrc. unfold pump. apply stays_bind; [by apply stays_step, steady_opened|]. intros _.
  apply stays_each; [done|]. steady.
Qed.

(** Where the counting of open turns is nothing to the assertion. *)
Lemma stays_pumpTracked src channel threadTs sent origin :
  (forall key, steps (open_turn key)) -> (forall key, steps (close_turn key)) ->
  (forall key, steps (on_threads (fun x => set_pendingRelease (delete key (th_pendingRelease x)) x))) ->
  source_ok src -> stays (pumpTracked options positive_number src channel threadTs sent origin).
Proof.
  intros Ho Hc Hr Hsrc. unfold pumpTracked, release_if_last.
  apply stays_bind; [by apply stays_step|]. intros _. apply stays_finally; [by apply stays_pump|].
  apply stays_bind; [by apply stays_step|]. intros _. apply stays_read. intros e. cbv zeta.
  destruct (_ =? 0)%Z; [|apply stays_ret]. destruct (_ !! _); [|apply stays_ret].
  apply stays_bind; [by apply stays_step|]. intros _. apply stays_ask. fine_request.
Qed.

(** The names of channels, where they are nothing to it. *)
Lemma stays_workspaceFor channel : (forall name, steps (on_threads (remember_name channel name))) ->
  stays (workspaceFor options channel).
Proof.
  intros Hn. unfold workspaceFor. cbv zeta. destruct (_ || _); [apply stays_ret|]. destruct (assq _ _); [apply stays_ret|].
  destruct (negb _); [apply stays_ret|]. steady. by apply stays_step.
Qed.

Section Turns.
Context (workspace_ok : jstr -> option jstr -> Prop).
Hypothesis workspaces : forall channel s, L s ->
  wp (workspaceFor options channel) s
    (fun r s' => L s' /\ forall workspace, r = Val (Bound workspace) -> workspace_ok channel workspace).
Hypothesis sends : forall channel threadTs text messageTs query fileIds workspace author s message,
  workspace_ok channel workspace ->
  buildMessage options sha1 channel threadTs text messageTs query fileIds workspace author s = Some message ->
  fine (RqSend message).
Hypothesis opens : forall channel threadTs text messageTs query fileIds workspace author s message,
  workspace_ok channel workspace ->
  buildMessage options sha1 channel threadTs text messageTs query fileIds workspace author s = Some message ->
  source_ok (SrcStream message).
Hypothesis pumps : forall src channel threadTs sent origin, source_ok src ->
  stays (pumpTracked options positive_number src channel threadTs sent origin).

Lemma stays_workspace {A : Type} channel (k : binding -> cmd A) :
  (forall error, stays (k (Unresolved error))) ->
  (forall workspace, workspace_ok channel workspace -> stays (k (Bound workspace))) ->
  stays (bind (workspaceFor options channel) k).
Proof.
  intros Hu Hb s Hs. apply wp_bind. eapply wp_mono; [|by apply workspaces]. intros [[w|e]|e] s' [HL Hw]; [|by apply Hu|done].
  apply Hb; [by apply Hw|done].
Qed.

Lemma stays_message (P : Message -> Prop) channel threadTs text messageTs query fileIds workspace author k :
  (forall s message, buildMessage options sha1 channel threadTs text messageTs query fileIds workspace author s = Some message ->
     P message) ->
  (forall message, P message -> stays (k message)) ->
  stays (with_message options sha1 channel threadTs text messageTs query fileIds workspace author k).
Proof.
  intros HP Hk. apply stays_read. intros e. destruct (buildMessage _ _ _ _ _ _ _ _ _ _ e) as [m|] eqn:E; [|apply stays_throw].
  apply Hk. by eapply HP.
Qed.

Lemma stays_replay channel threadTs text messageTs : stays (withReplayContext options channel threadTs text messageTs).
Proof. unfold withReplayContext. steady. Qed.
Lemma stays_unreachable channel threadTs text messageTs fileIds author :
  stays (unreachable options channel threadTs text messageTs fileIds author).
Proof. unfold unreachable. steady. Qed.
Lemma stays_finishBlocking task channel threadTs sent :
  stays (finishBlocking options positive_number task channel threadTs sent).
Proof. unfold finishBlocking. steady. Qed.
#[local] Hint Resolve stays_replay stays_unreachable stays_finishBlocking : steady.

Lemma stays_deliver_turn channel threadTs text messageTs fileIds author contextId opening workspace :
  workspace_ok channel workspace ->
  stays (deliver_turn options sha1 positive_number channel threadTs text messageTs fileIds author contextId opening workspace).
Proof.
  intros Hw. unfold deliver_turn. apply stays_bind; [steady|]. intros [streaming|]; [|steady].
  apply stays_bind; [steady|]. intros outgoing.
  apply (stays_message (fun message => fine (RqSend message) /\ source_ok (SrcStream message))).
  { intros s message Hm. split; [by eapply sends|by eapply opens]. }
  intros message [Hm Ho]. apply stays_try; [|steady]. destruct streaming; [by apply pumps|]. apply stays_bind; [by apply stays_ask|]. steady.
Qed.

Lemma stays_runTurn channel threadTs text messageTs fileIds author :
  stays (runTurn options sha1 positive_number channel threadTs text messageTs fileIds author).
Proof.
  unfold runTurn. apply stays_read. intros e. cbv zeta.
  repeat (apply stays_bind; [solve [steady]|]; intros ?). apply stays_workspace; [steady|].
  intros workspace Hw. by apply stays_deliver_turn.
Qed.

(** Where the chains are nothing to it. *)
Lemma stays_trigger channel threadTs text messageTs fileIds author :
  (forall key, steps (join_chain key)) -> (forall key ticket, steps (noted (Began key ticket))) ->
  (forall key ticket, steps (settle_ticket key ticket)) -> (forall prev, fine (RqAfter prev)) ->
  stays (trigger options sha1 positive_number channel threadTs text messageTs fileIds author).
Proof.
  intros Hj Hb Hs Ha. unfold trigger. apply stays_bind; [steady|]. intros _.
  destruct (eo_queueing options); [apply stays_runTurn|]. cbv zeta. apply stays_read. intros e.
  apply stays_bind; [by apply stays_step|]. intros _. apply stays_attempt; [by apply stays_ask|]. intros _.
  apply stays_bind; [by apply stays_step|]. intros _. apply stays_finally; [apply stays_runTurn|by apply stays_step].
Qed.

Hypothesis triggers : forall channel threadTs text messageTs fileIds author,
  stays (trigger options sha1 positive_number channel threadTs text messageTs fileIds author).

Lemma stays_acceptFiles event : stays (acceptFiles options event).
Proof. unfold acceptFiles. steady. Qed.
Lemma stays_authoredByBot event : stays (authoredByBot event).
Proof. unfold authoredByBot. steady. Qed.
#[local] Hint Resolve stays_acceptFiles stays_authoredByBot triggers : steady.

Lemma stays_handleEvent event : stays (handleEvent options sha1 positive_number event).
Proof.
  unfold handleEvent, unless_bot, on_turn_message, answerByTap.
  destruct event as [m|m|m|channel threadTs|tap]; [steady..| | |].
  - apply stays_bind; [steady|]. intros [|]; [steady|]. unfold on_thread_message. cbv zeta.
    apply stays_read. intros e. destruct (negb _); [steady|]. apply stays_bind; [steady|]. intros files.
    destruct (eo_context options); [|steady]. apply stays_bind; [steady|]. intros _. apply stays_workspace; [steady|].
    intros workspace Hw. apply (stays_message (fun message => fine (RqSend message))); [intros s message Hm; by eapply sends|].
    intros message Hm. apply stays_bind; [by apply stays_ask|steady].
  - steady.
  - steady.
Qed.

Lemma stays_flushQueue : stays (flushQueue options sha1 positive_number).
Proof. unfold flushQueue. steady. Qed.

Hypothesis resubscribes : forall taskId, source_ok (SrcResubscribe taskId).

Lemma stays_start e p : p ∈ start options positive_number e -> stays p.
Proof.
  unfold start. intros (task & -> & _)%list_elem_of_fmap. apply stays_try; [by apply pumps|steady].
Qed.

(** Every call that is made of an engine. *)
Lemma stays_entry now p e : entry options sha1 positive_number now p e -> stays p.
Proof.
  intros [[event ->]|[->|Hstart]]; [apply stays_handleEvent|apply stays_flushQueue|by eapply stays_start].
Qed.
End Turns.
End Lenient.
End Steady.
