(* ===== verification/SlackDemo.v ===== *)
(** A thread with one agent in it, on which the engine's theorems are tried
    out. *)

From S2P Require Import Prelude A2A A2AClient Activity Questions Envelope SessionId Markdown Async AsyncLogic Values.
From S2P Require Import SlackState SlackQuestions SlackTranslate SlackEngine.
#[local] Open Scope nat_scope.

Definition demo_bindings : list (jstr * jstr) := [(js "C7", js "/work/seven"); (js "#general", js "/work/general")].
Definition harness_options : EngineOptions := mkEngineOptions (js "hearth") Harness Native (Some (js "http://files/")) STREAM_TEXT_BUDGET [].
Definition bridge_options : EngineOptions := mkEngineOptions (js "hearth") Bridge Native (Some (js "http://files/")) STREAM_TEXT_BUDGET [].
Definition bound_options : EngineOptions := mkEngineOptions (js "hearth") Harness Native (Some (js "http://files/")) STREAM_TEXT_BUDGET demo_bindings.
Definition zero_sha1 (bytes : list N) : list N := repeat 0%N 20.
Definition no_number (v : jsval) : bool := false.

(** What was said in the thread [1.0] of the channel [C1]. *)
Definition said_at (ts text : jstr) : MessageEvent := mkMessageEvent (js "C1") (js "1.0") text ts [] (js "U1") false.

(** Slack and the agent do as they are asked. *)
Definition obliging (r : request) : result (answer r) :=
  match r with
  | RqFetchCard => Val true
  | RqIsBotUser _ => Val false
  | RqSend _ => Exn (js "not streaming")
  | RqPostBlocks _ _ _ _ => Val (js "9.0")
  | RqStartStream _ _ _ => Val (js "5.0")
  | RqReplies _ _ _ => Val []
  | RqChannelName _ => Val (Some (js "general"))
  | _ => Val tt
  end.

Definition replies (t n : nat) : list engine_happening := repeat (Resumed t 1000%Z (Reply obliging)) n.
Definition yields (t : nat) (event : A2AEvent) : engine_happening := Resumed t 1000%Z (Yield event).
Definition finishes (t : nat) : engine_happening := Resumed t 1000%Z Finish.
Definition mentioned (options : EngineOptions) (ts text : jstr) : engine_happening :=
  Called 1000%Z (handleEvent options zero_sha1 no_number (Mention (said_at ts text))).

(** A turn of call [t], from the agent's first event to the end of its stream
    but for the release of the session. *)
Definition streamed_turn (t : nat) (task text : jstr) : list engine_happening :=
  yields t (AeTask (mkATask task (js "ctx") (Some (TASK_STATE_WORKING, None)) [])) :: replies t 1 ++
  yields t (AeArtifact task text false true) :: replies t 3 ++
  yields t (AeStatus task (js "ctx") TASK_STATE_COMPLETED None VUndef) :: replies t 1.

(** The world a history leads to. *)
Definition world_after (hs : list engine_happening) : engine_world := default (new_world new_state) (engine_history hs (new_world new_state)).
Lemma world_after_run hs : present (engine_history hs (new_world new_state)) = true ->
  engine_history hs (new_world new_state) = Some (world_after hs).
Proof. apply some_default. Qed.

Lemma mentioned_entry options ts text (s : engine) now : exists e, entry options zero_sha1 no_number now (handleEvent options zero_sha1 no_number (Mention (said_at ts text))) e.
Proof. exists s. left. by eexists. Qed.

(** A history of mentions is one of the engine's. *)
Ltac of_mentions :=
  apply any_history; cbv [replies streamed_turn yields finishes repeat app];
  repeat first [apply Forall_nil; exact I
               | apply Forall_cons; split;
                 [first [exact I | intros ? ?; exact I | let s := fresh in intros s; exact (mentioned_entry _ _ _ s _) | auto]|]].
