(* ===== verification/SlackSessions.v ===== *)
(** The session's status: what a turn that ended has put off until the
    thread's last stream drains is never left behind. *)

From S2P Require Import Prelude A2A A2AClient Activity Questions Envelope SessionId Markdown Async AsyncLogic Values.
From S2P Require Import SlackState SlackQuestions SlackTranslate SlackEngine SlackSteady SlackDemo.
#[local] Open Scope nat_scope.
#[local] Open Scope async_scope.

(** How many calls consume a stream for a thread. *)
Definition pumps_of (key : jstr) (e : engine) : nat := size (filter (fun kv => snd kv = key) (en_pumping e)).
Definition turns_open (key : jstr) (e : engine) : Z := default 0%Z (th_turnsOpen (en_threads e) !! key).

(** Streams are counted as they are, and a release is pending only while one
    is open. *)
Record sessions_ok (e : engine) : Prop := {
  so_counted key : turns_open key e = Z.of_nat (pumps_of key e);
  so_pending key : is_Some (th_pendingRelease (en_threads e) !! key) -> 0 < pumps_of key e }.

(** The others leave the entry of a call alone. *)
Definition own_pump (t : nat) (e e' : engine) : Prop := en_pumping e' !! t = en_pumping e !! t.
#[export] Instance own_pump_preorder t : PreOrder (own_pump t).
Proof. split; [by intros e|]. unfold own_pump. intros e1 e2 e3 H1 H2. congruence. Qed.

Definition pumping_for (t : nat) (x : option jstr) (e : engine) : Prop :=
  sessions_ok e /\ en_running e = t /\ en_pumping e !! t = x.

Lemma sessions_ok_same e e' :
  th_turnsOpen (en_threads e') = th_turnsOpen (en_threads e) ->
  th_pendingRelease (en_threads e') = th_pendingRelease (en_threads e) ->
  en_pumping e' = en_pumping e -> sessions_ok e -> sessions_ok e'.
Proof.
  intros Ht Hr Hp [Hc Hn]. split; intros key; unfold turns_open, pumps_of in *.
  - by rewrite Ht, Hp.
  - rewrite Hr, Hp. apply Hn.
Qed.

Section Sessions.
Context (options : EngineOptions) (sha1 : list N -> list N) (positive_number : jsval -> bool).
#[local] Abbreviation anything := (fun _ _ _ => True).
#[local] Abbreviation any_event := (fun _ _ _ _ => True).

(** An update of nothing that is counted. *)
Lemma pumping_step t x f :
  (forall e, th_turnsOpen (en_threads (f e)) = th_turnsOpen (en_threads e)) ->
  (forall e, th_pendingRelease (en_threads (f e)) = th_pendingRelease (en_threads e)) ->
  (forall e, en_running (f e) = en_running e) -> (forall e, en_pumping (f e) = en_pumping e) ->
  steps own_pump t (pumping_for t x) f.
Proof.
  intros H1 H2 H3 H4 s (Hs & Hrun & Hp). split; [intros t' _; unfold own_pump; by rewrite H4|].
  split_and!; [by apply (sessions_ok_same s)|by rewrite H3|by rewrite H4].
Qed.

Lemma pumping_steady t x : Steady anything sessions_ok own_pump t (pumping_for t x) (fun _ => True) (fun _ => True) quiet.
Proof.
  split.
  - by intros s [H _].
  - intros f Hf. apply pumping_step; apply Hf.
  - intros r _ s (Hs & Hrun & Hp). split; [by intros t' _|]. split_and!; [by apply (sessions_ok_same s)|done|done].
  - intros r a s s1 now _ (_ & _ & Hp) Hr Hs1 _. split; [by intros t' _|].
    split_and!; [by apply (sessions_ok_same s1)|done|]. unfold own_pump in Hr. by rewrite <- Hp, <- Hr.
  - intros src e s s1 now _ (_ & _ & Hp) Hr Hs1. split; [by intros t' _|].
    split_and!; [by apply (sessions_ok_same s1)|done|]. unfold own_pump in Hr. by rewrite <- Hp, <- Hr.
  - intros key v s ([Hc Hn] & Hrun & Hp) Hopen. split; [by intros t' _|]. split_and!; [|done|done].
    split; intros k; [apply Hc|]. unfold pumps_of. cbn. rewrite lookup_insert_is_Some. intros [->|[_ H]]; [|by apply Hn].
    specialize (Hc k). unfold turns_open, pumps_of in Hc. rewrite Hc in Hopen. lia.
  - by destruct r.
  - done.
  - intros src _ s (Hs & Hrun & Hp). split; [by intros t' _|]. split_and!; [by apply (sessions_ok_same s)|done|done].
Qed.

Lemma pumps_of_insert t key k e : en_pumping e !! t = None ->
  size (filter (fun kv => snd kv = k) (<[t := key]> (en_pumping e))) = (if decide (k = key) then 1 else 0) + pumps_of k e.
Proof.
  intros Ht. unfold pumps_of. destruct (decide (k = key)) as [->|Hne].
  - rewrite map_filter_insert_True by done. rewrite map_size_insert_None; [done|].
    apply map_lookup_filter_None. by left.
  - rewrite map_filter_insert_False by (cbn; congruence). by rewrite delete_id.
Qed.

Lemma pumps_of_delete t key k e : en_pumping e !! t = Some key ->
  (if decide (k = key) then 1 else 0) + size (filter (fun kv => snd kv = k) (delete t (en_pumping e))) = pumps_of k e.
Proof.
  intros Ht. unfold pumps_of. rewrite <- (insert_delete_id (en_pumping e) t key) at 2 by done.
  destruct (decide (k = key)) as [->|Hne].
  - rewrite map_filter_insert_True by done. rewrite map_size_insert_None; [done|].
    apply map_lookup_filter_None. left. apply lookup_delete_eq.
  - rewrite map_filter_insert_False by (cbn; congruence). by rewrite (delete_id (delete t _)) by apply lookup_delete_eq.
Qed.

Lemma own_pump_update t f e : en_running e = t ->
  (forall t', t' <> en_running e -> en_pumping (f e) !! t' = en_pumping e !! t') -> guar own_pump t e (f e).
Proof. intros <- H t' Ht. unfold own_pump. by apply H. Qed.

#[local] Abbreviation wp := (wp issue receive yielded enter ready anything any_event sessions_ok own_pump).

Lemma open_turn_counts t key s : pumping_for t None s ->
  guar own_pump t s (open_turn key s) /\ pumping_for t (Some key) (open_turn key s).
Proof.
  intros ([Hc Hn] & Hrun & Hp). split.
  - apply own_pump_update; [done|]. intros t' Ht. cbn. by rewrite lookup_insert_ne by congruence.
  - split_and!; [|done|cbn; rewrite Hrun; apply lookup_insert_eq]. rewrite <- Hrun in Hp.
    split; intros k; unfold turns_open, pumps_of; cbn; rewrite (pumps_of_insert _ key k s Hp).
    + rewrite lookup_insert. specialize (Hc k). unfold turns_open in Hc. destruct (decide (key = k)) as [->|Hne].
      * rewrite decide_True by done. cbn. rewrite Hc. lia.
      * rewrite decide_False by congruence. rewrite Hc. lia.
    + intros H. apply Hn in H. lia.
Qed.

(** Once the count is taken back, only a last release is out of place. *)
Lemma close_turn_counts t key s : pumping_for t (Some key) s ->
  guar own_pump t s (close_turn key s) /\
  en_running (close_turn key s) = t /\ en_pumping (close_turn key s) !! t = None /\
  (forall k, turns_open k (close_turn key s) = Z.of_nat (pumps_of k (close_turn key s))) /\
  (forall k, is_Some (th_pendingRelease (en_threads (close_turn key s)) !! k) ->
     0 < pumps_of k (close_turn key s) \/ k = key /\ pumps_of k (close_turn key s) = 0).
Proof.
  intros ([Hc Hn] & Hrun & Hp). pose proof Hp as Hp'. rewrite <- Hrun in Hp'.
  pose proof (fun k => pumps_of_delete (en_running s) key k s Hp') as Hcount. split_and!.
  - apply own_pump_update; [done|]. intros t' Ht. cbn. by rewrite lookup_delete_ne by congruence.
  - done.
  - cbn. rewrite Hrun. apply lookup_delete_eq.
  - intros k. specialize (Hcount k). specialize (Hc k). unfold turns_open, pumps_of in *. cbn. rewrite lookup_insert.
    destruct (decide (key = k)) as [->|Hne].
    + rewrite decide_True in Hcount by done. destruct (th_turnsOpen _ !! k) as [n|]; cbn in *; lia.
    + rewrite decide_False in Hcount by congruence. rewrite Hc. lia.
  - intros k H. specialize (Hcount k). specialize (Hn k H). unfold pumps_of in *. cbn.
    destruct (decide (k = key)) as [->|]; [|left; lia]. destruct (size (filter _ (delete _ _))); [by right|left; lia].
Qed.

Lemma pumpTracked_keeps t src channel threadTs sent origin s : pumping_for t None s ->
  wp t (pumpTracked options positive_number src channel threadTs sent origin) s (fun _ => pumping_for t None).
Proof.
  intros Hs. pose proof (pumping_steady t) as Hsteady. set (key := thread_key channel threadTs).
  destruct (open_turn_counts t key s Hs) as [Hg Hopen]. unfold pumpTracked. apply wp_bind. split; [exact Hg|].
  apply wp_try_finally. eapply wp_mono; [|apply (stays_pump _ _ _ _ _ _ _ (pumping_for t (Some key)) (fun _ => True) (fun _ => True)); [|done]].
  2:{ done. }
  intros r s1 H1. destruct (close_turn_counts t key s1 H1) as (Hg1 & Hrun & Hp & Hc & Hn).
  apply wp_bind. split; [exact Hg1|]. cbn beta iota. change (thread_key channel threadTs) with key.
  set (s2 := close_turn key s1) in *. unfold release_if_last. cbv zeta. apply wp_read.
  change (thread_key channel threadTs) with key. pose proof (Hc key) as Hkey. unfold turns_open in Hkey. rewrite Hkey.
  assert (Hdone : (pumps_of key s2 = 0 -> th_pendingRelease (en_threads s2) !! key = None) -> pumping_for t None s2).
  { intros Hnone. split_and!; [|done|done]. split; [done|]. intros k Hk. destruct (Hn k Hk) as [|[-> H0]]; [done|].
    rewrite Hnone in Hk by done. by destruct Hk. }
  destruct (Z.eqb_spec (Z.of_nat (pumps_of key s2)) 0) as [H0|H0].
  - destruct (th_pendingRelease (en_threads s2) !! key) as [release|] eqn:Er; [|by apply Hdone].
    apply wp_bind. split; [by intros t' _|].
    pose proof (stays_ask anything any_event sessions_ok own_pump t (pumping_for t None) (fun _ => True) (fun _ => True)
      (RqSetStatus channel threadTs release None) I) as Hask.
    eapply (wp_mono _ _ _ _ _ _ _ _ _ t (ask (RqSetStatus channel threadTs release None))); [|apply Hask]; [by intros [u|e] s'|].
    split_and!; [|done|done]. split; [exact Hc|]. intros k. cbn. rewrite lookup_delete_is_Some. intros [Hne Hk].
    destruct (Hn k Hk) as [|[-> _]]; [done|congruence].
  - apply Hdone. intros ?. lia.
Qed.

Lemma entry_keeps t now p s : sessions_ok s -> en_pumping s !! t = None -> (exists e, entry options sha1 positive_number now p e) ->
  guar own_pump t s (enter t now s) /\ wp t p (enter t now s) (fun _ => sessions_ok).
Proof.
  intros Hs Hp [e Hentry]. split; [by intros t' _|]. pose proof (pumping_steady t None) as Hsteady.
  assert (HL : pumping_for t None (enter t now s)) by (split_and!; [by apply (sessions_ok_same s)|done|done]).
  assert (Hpumps : forall src channel threadTs sent origin, True ->
    stays anything any_event sessions_ok own_pump t (pumping_for t None)
      (pumpTracked options positive_number src channel threadTs sent origin)) by (intros; intros s' Hs'; by apply pumpTracked_keeps).
  assert (Hws : forall channel s, pumping_for t None s -> wp t (workspaceFor options channel) s
    (fun r s' => pumping_for t None s' /\ forall workspace : option jstr, r = Val (Bound workspace) -> True)).
  { intros channel s' Hs'. eapply wp_mono; [|apply (stays_workspaceFor options anything any_event sessions_ok own_pump t
      (pumping_for t None) (fun _ => True) (fun _ => True) channel); [|exact Hs']]; [by auto|]. intros name. by apply pumping_step. }
  assert (Htrigger : forall channel threadTs text messageTs fileIds author,
    stays anything any_event sessions_ok own_pump t (pumping_for t None)
      (trigger options sha1 positive_number channel threadTs text messageTs fileIds author)).
  { intros. eapply (stays_trigger options sha1 positive_number _ _ _ _ _ _ (fun _ => True) (fun _ => True) (fun _ _ => True)); [exact Hws|done|done|intros ? ? ? ? ? _; apply Hpumps; done|..];
      [by intros; apply pumping_step..|done]. }
  pose proof (stays_entry options sha1 positive_number anything any_event sessions_ok own_pump t (pumping_for t None)
    (fun _ => True) (fun _ => True) (fun _ _ => True) Hws (fun _ _ _ _ _ _ _ _ _ _ _ _ => I)
    Hpumps Htrigger (fun _ => I) now p e Hentry) as Hstay.
  eapply wp_mono; [|apply (Hstay _ HL)]. by intros r s' [H _].
Qed.
End Sessions.

(** C28: a deferred release is never stranded. Whatever arrives, in whatever
    order Slack and the agent answer, with any number of turns and streams
    under way: the engine counts a thread's open streams exactly, and a status
    put off until they drain is pending only while one of them is open, so
    when the last stream of a thread is over its status has been released. *)
Theorem release_is_never_stranded options sha1 positive_number store hs w :
  all_allowed issue receive yielded enter ready (fun _ _ _ => True) (fun _ _ _ _ => True)
    (fun now p _ => exists e, entry options sha1 positive_number now p e) hs (new_world store) ->
  engine_history hs (new_world store) = Some w ->
  forall key, turns_open key (w_state w) = Z.of_nat (pumps_of key (w_state w)) /\
    (pumps_of key (w_state w) = 0 -> th_pendingRelease (en_threads (w_state w)) !! key = None).
Proof.
  intros Hok Hrun.
  assert (Hsound : sound issue receive yielded enter ready (fun _ _ _ => True) (fun _ _ _ _ => True) sessions_ok own_pump
    (fun t e => en_pumping e !! t = None) w).
  { eapply history_sound; [apply _| | | |exact Hok|exact Hrun].
    - intros t s s' H Hr. unfold own_pump in Hr. congruence.
    - intros t now p s Hs Hp Hentry. by apply (entry_keeps options sha1 positive_number).
    - split; cbn; [|done|done]. split; [done|]. by intros key [? ?]. }
  intros key. destruct (sound_inv _ _ _ _ _ _ _ _ _ _ _ Hsound) as [Hc Hn]. split; [apply Hc|].
  intros H0. destruct (th_pendingRelease _ !! key) eqn:E; [|done]. specialize (Hn key). rewrite E in Hn.
  specialize (Hn (ex_intro _ _ eq_refl)). lia.
Qed.

(** The agent is done but its stream is still open; then it ends. *)
Definition deferred_run : list engine_happening :=
  mentioned harness_options (js "1.0") (js "hi") :: replies 0 4 ++ streamed_turn 0 (js "t1") (js "hello").
Definition released_run : list engine_happening := deferred_run ++ [finishes 0].

Lemma release_is_never_stranded_witness :
  let key := thread_key (js "C1") (js "1.0") in
  let w := w_state (world_after deferred_run) in
  let w' := w_state (world_after released_run) in
  (th_pendingRelease (en_threads w) !! key = Some SsActive /\ pumps_of key w = 1) /\
  (pumps_of key w' = 0 /\ th_pendingRelease (en_threads w') !! key = None).
Proof.
  cbv zeta. split; [by vm_compute|]. assert (H0 : pumps_of (thread_key (js "C1") (js "1.0")) (w_state (world_after released_run)) = 0) by reflexivity.
  split; [exact H0|].
  refine (proj2 (release_is_never_stranded harness_options zero_sha1 no_number new_state released_run (world_after released_run) _ _ _) H0).
  - unfold released_run, deferred_run. of_mentions.
  - apply world_after_run. reflexivity.
Defined.
