(* ===== verification/SlackChains.v ===== *)
(** Queueing by the bridge: the turns of a thread form a line. *)

From S2P Require Import Prelude A2A A2AClient Activity Questions Envelope SessionId Markdown Async AsyncLogic Values.
From S2P Require Import SlackState SlackQuestions SlackTranslate SlackEngine SlackSteady SlackDemo.
#[local] Open Scope nat_scope.
#[local] Open Scope async_scope.

(** ** A thread's line, as its notes tell it *)

(** The turns that joined a thread's chain, in order. *)
Definition joined (key : jstr) (log : list (nat * note_)) : list nat :=
  omap (fun n => match snd n with Joined k ticket => if decide (k = key) then Some ticket else None | _ => None end) log.

(** How they began and ended, in order. *)
Inductive moment := Begins (ticket : nat) | Ends (ticket : nat).
Definition lane (key : jstr) (log : list (nat * note_)) : list moment :=
  omap (fun n => match snd n with
                 | Began k ticket => if decide (k = key) then Some (Begins ticket) else None
                 | Ended k ticket => if decide (k = key) then Some (Ends ticket) else None
                 | _ => None
                 end) log.

(** A call's place: the turn it took, its thread and its number. *)
Definition placed (log : list (nat * note_)) (t : nat) (key : jstr) (ticket : nat) : Prop := (t, Joined key ticket) ∈ log.

(** [turns] is a line of turns one after the other, of which [past] are over
    and at most one, [now], is under way. *)
Definition in_line (turns : list nat) (moments : list moment) (past now waiting : list nat) : Prop :=
  turns = past ++ now ++ waiting /\ length now <= 1 /\
  moments = (past ≫= (fun n => [Begins n; Ends n])) ++ (Begins <$> now).

Lemma joined_app key l1 l2 : joined key (l1 ++ l2) = joined key l1 ++ joined key l2.
Proof. apply omap_app. Qed.
Lemma lane_app key l1 l2 : lane key (l1 ++ l2) = lane key l1 ++ lane key l2.
Proof. apply omap_app. Qed.

Lemma elem_joined key log n : n ∈ joined key log <-> exists t, placed log t key n.
Proof.
  unfold joined, placed. rewrite list_elem_of_omap. split.
  - intros ([t note] & Hin & H). cbn in H. destruct note; try done. case_decide; [|done]. exists t. congruence.
  - intros [t Hin]. exists (t, Joined key n). cbn. by rewrite decide_True.
Qed.

(** A call whose turn is under way. *)
Definition has_turn (log : list (nat * note_)) (t : nat) : Prop :=
  exists key n, placed log t key n /\ (t, Began key n) ∈ log /\ ((t, Ended key n) ∉ log).

(** ** The invariant *)

Record chains_ok (e : engine) : Prop := {
  co_line key : exists past now waiting, in_line (joined key (en_log e)) (lane key (en_log e)) past now waiting /\
    Forall (fun n => n ∈ en_settled e) past /\ Forall (fun n => n ∉ en_settled e) (now ++ waiting);
  co_last key : th_chains (en_threads e) !! key = last (joined key (en_log e));
  co_small t key n : placed (en_log e) t key n -> n < en_tickets e;
  co_settled n : n ∈ en_settled e -> n < en_tickets e;
  co_owner t t' key key' n : placed (en_log e) t key n -> placed (en_log e) t' key' n -> t = t' /\ key = key';
  co_once key : NoDup (joined key (en_log e));
  co_own t key n : (t, Began key n) ∈ en_log e \/ (t, Ended key n) ∈ en_log e -> placed (en_log e) t key n;
  co_ended n : n ∈ en_settled e <-> exists t key, (t, Ended key n) ∈ en_log e;
  co_streams l1 t message l2 : en_log e = l1 ++ (t, Opened (SrcStream message)) :: l2 -> has_turn l1 t }.

(** Where a call is in its line: outside, waiting for a place behind [prev],
    or with its turn under way. *)
Inductive place :=
| Outside
| Behind (key : jstr) (ticket : nat) (prev : option nat)
| Under_way (key : jstr) (ticket : nat).

Definition at_place (t : nat) (p : place) (e : engine) : Prop :=
  match p with
  | Outside => forall key n, placed (en_log e) t key n -> (t, Ended key n) ∈ en_log e
  | Behind key n prev =>
      placed (en_log e) t key n /\ ((t, Began key n) ∉ en_log e) /\ ((t, Ended key n) ∉ en_log e) /\
      (exists i, joined key (en_log e) !! i = Some n /\ prev = match i with O => None | S j => joined key (en_log e) !! j end) /\
      (forall key' n', placed (en_log e) t key' n' -> n' <> n -> (t, Ended key' n') ∈ en_log e)
  | Under_way key n =>
      placed (en_log e) t key n /\ (t, Began key n) ∈ en_log e /\ ((t, Ended key n) ∉ en_log e) /\
      (forall key' n', placed (en_log e) t key' n' -> n' <> n -> (t, Ended key' n') ∈ en_log e)
  end.

Definition in_place (t : nat) (p : place) (e : engine) : Prop := chains_ok e /\ en_running e = t /\ at_place t p e.

Lemma at_place_stable t p e e' : others_note t e e' -> at_place t p e -> at_place t p e'.
Proof.
  intros Ho. pose proof (fun note => others_note_own t e e' note Ho) as Hown. unfold placed.
  destruct p as [|key n prev|key n]; cbn; unfold placed.
  - intros H k m Hm. rewrite Hown in *. by apply H.
  - intros (H1 & H2 & H3 & (i & Hi & Hp) & H4). rewrite !Hown. split_and!; [done..| |].
    + exists i. destruct Ho as (l & -> & _). rewrite joined_app. split; [by apply lookup_app_l_Some|].
      subst prev. destruct i as [|j]; [done|]. assert (j < length (joined key (en_log e))) by (apply lookup_lt_Some in Hi; lia).
      by rewrite lookup_app_l.
    + intros k m Hm. rewrite Hown in *. by apply H4.
  - intros (H1 & H2 & H3 & H4). rewrite !Hown. split_and!; [done..|]. intros k m Hm. rewrite Hown in *. by apply H4.
Qed.

(** ** Notes that are nothing to the line *)

Definition aside (n : note_) : Prop :=
  match n with Joined _ _ | Began _ _ | Ended _ _ | Opened (SrcStream _) => False | _ => True end.

Lemma exists_last_or_nil {A} (l : list A) : l = [] \/ exists l' x, l = l' ++ [x].
Proof. destruct l as [|x l] using rev_ind; [by left|right; by eexists _, _]. Qed.

Lemma app_single_inv {A} (l l1 l2 : list A) x y : l ++ [x] = l1 ++ y :: l2 -> (exists l2', l2 = l2' ++ [x] /\ l = l1 ++ y :: l2') \/ (l2 = [] /\ l = l1 /\ x = y).
Proof.
  destruct (exists_last_or_nil l2) as [->|(l2' & z & ->)].
  - intros [-> ->]%app_inj_tail. by right.
  - rewrite app_comm_cons, app_assoc. intros [-> ->]%app_inj_tail. left. by exists l2'.
Qed.

Lemma in_log_aside (t0 : nat) (n0 : note_) (t : nat) (n : note_) (log : list (nat * note_)) : aside n0 -> ~ aside n -> (t, n) ∈ log ++ [(t0, n0)] <-> (t, n) ∈ log.
Proof.
  intros Ha Hn. rewrite elem_of_app, elem_of_cons, elem_of_nil. split; [|by left]. intros [H|[H|[]]]; [done|].
  injection H as -> ->. done.
Qed.

Lemma joined_aside key log (t : nat) (n : note_) : aside n -> joined key (log ++ [(t, n)]) = joined key log.
Proof. intros Ha. rewrite joined_app. destruct n; try done; cbn; by rewrite app_nil_r. Qed.
Lemma lane_aside key log (t : nat) (n : note_) : aside n -> lane key (log ++ [(t, n)]) = lane key log.
Proof. intros Ha. rewrite lane_app. destruct n; try done; cbn; by rewrite app_nil_r. Qed.

Lemma chains_ok_aside e e' (t : nat) (n : note_) : aside n -> en_log e' = en_log e ++ [(t, n)] ->
  th_chains (en_threads e') = th_chains (en_threads e) -> en_tickets e' = en_tickets e -> en_settled e' = en_settled e ->
  chains_ok e -> chains_ok e'.
Proof.
  intros Ha Hl Hc Ht Hs [H1 H2 H3 H4 H5 H6 H7 H8 H9].
  assert (Hin : forall t' n', ~ aside n' -> (t', n') ∈ en_log e' <-> (t', n') ∈ en_log e)
    by (intros; rewrite Hl; by apply in_log_aside).
  split; unfold placed in *.
  - intros key. rewrite Hl, joined_aside, lane_aside, Hs by done. apply H1.
  - intros key. rewrite Hc, Hl, joined_aside by done. apply H2.
  - intros t' key m. rewrite Hin, Ht by (by intros []). apply H3.
  - intros m. rewrite Hs, Ht. apply H4.
  - intros t1 t2 k1 k2 m. rewrite !Hin by (by intros []). apply H5.
  - intros key. rewrite Hl, joined_aside by done. apply H6.
  - intros t' key m. rewrite !Hin by (by intros []). apply H7.
  - intros m. rewrite Hs, H8. by setoid_rewrite Hin; [|by intros []].
  - intros l1 t' m l2 E. rewrite Hl in E. destruct (app_single_inv _ _ _ _ _ E) as [(l2' & -> & El)|(-> & <- & [= -> ->])]; [|done].
    by eapply H9.
Qed.

Lemma at_place_aside e e' (t t0 : nat) (n : note_) p : aside n -> en_log e' = en_log e ++ [(t0, n)] -> at_place t p e -> at_place t p e'.
Proof.
  intros Ha Hl.
  assert (Hin : forall t' n', ~ aside n' -> (t', n') ∈ en_log e' <-> (t', n') ∈ en_log e)
    by (intros; rewrite Hl; by apply in_log_aside).
  destruct p as [|key m prev|key m]; cbn; unfold placed.
  - intros H k x. rewrite !Hin by (by intros []). apply H.
  - intros (H1 & H2 & H3 & H4 & H5). rewrite !Hin by (by intros []). split_and!; [done..| |].
    + destruct H4 as (i & Hi & Hp). exists i. by rewrite Hl, joined_aside.
    + intros k x. rewrite !Hin by (by intros []). apply H5.
  - intros (H1 & H2 & H3 & H4). rewrite !Hin by (by intros []). split_and!; [done..|].
    intros k x. rewrite !Hin by (by intros []). apply H4.
Qed.

(** ** The moves in a line *)

(** The turn a call waits for or runs is its thread's, and in its line. *)
Lemma in_line_now turns moments past now waiting n : in_line turns moments past now waiting ->
  Begins n ∈ moments -> Ends n ∉ moments -> now = [n].
Proof.
  intros (_ & Hnow & ->) Hb He. apply elem_of_app in Hb as [Hb|Hb].
  - exfalso. apply He. apply elem_of_app. left. apply list_elem_of_bind in Hb as (m & Hm & Hp).
    apply list_elem_of_bind. exists m. split; [|done]. apply elem_of_cons in Hm as [[= ->]|Hm]; [by right; left|].
    by apply elem_of_cons in Hm as [?|?%elem_of_nil].
  - apply list_elem_of_fmap in Hb as (m & [= ->] & Hm). destruct now as [|x [|]]; [by apply elem_of_nil in Hm| |cbn in Hnow; lia].
    by apply elem_of_cons in Hm as [->|?%elem_of_nil].
Qed.

Lemma elem_lane_begins key log n : Begins n ∈ lane key log <-> exists t, (t, Began key n) ∈ log.
Proof.
  unfold lane. rewrite list_elem_of_omap. split.
  - intros ([t note] & Hin & H). cbn in H. destruct note; try done; case_decide; simplify_eq. by exists t.
  - intros [t Hin]. exists (t, Began key n). cbn. by rewrite decide_True.
Qed.
Lemma elem_lane_ends key log n : Ends n ∈ lane key log <-> exists t, (t, Ended key n) ∈ log.
Proof.
  unfold lane. rewrite list_elem_of_omap. split.
  - intros ([t note] & Hin & H). cbn in H. destruct note; try done; case_decide; simplify_eq. by exists t.
  - intros [t Hin]. exists (t, Ended key n). cbn. by rewrite decide_True.
Qed.

Lemma own_lane e t key n : chains_ok e -> placed (en_log e) t key n ->
  (Begins n ∈ lane key (en_log e) <-> (t, Began key n) ∈ en_log e) /\
  (Ends n ∈ lane key (en_log e) <-> (t, Ended key n) ∈ en_log e).
Proof.
  intros Hok Hp. rewrite elem_lane_begins, elem_lane_ends. split; (split; [|by eexists]); intros [t' H].
  - destruct (co_owner e Hok t t' key key n Hp) as [-> _]; [|done]. apply (co_own e Hok). by left.
  - destruct (co_owner e Hok t t' key key n Hp) as [-> _]; [|done]. apply (co_own e Hok). by right.
Qed.

Lemma own_settled e t key n : chains_ok e -> placed (en_log e) t key n ->
  n ∈ en_settled e <-> (t, Ended key n) ∈ en_log e.
Proof.
  intros Hok Hp. rewrite (co_ended e Hok). split; [|by intros H; exists t, key]. intros (t' & k' & H).
  destruct (co_owner e Hok t t' key k' n Hp) as [-> ->]; [|done]. apply (co_own e Hok). by right.
Qed.

(** A call whose predecessor is over is the next in its line, and nobody's
    turn is under way. *)
Lemma next_in_line e t key n i past now waiting : chains_ok e -> placed (en_log e) t key n ->
  (t, Began key n) ∉ en_log e -> (t, Ended key n) ∉ en_log e ->
  joined key (en_log e) !! i = Some n ->
  (match i with O => True | S j => forall m, joined key (en_log e) !! j = Some m -> m ∈ en_settled e end) ->
  in_line (joined key (en_log e)) (lane key (en_log e)) past now waiting ->
  Forall (fun n => n ∈ en_settled e) past -> Forall (fun n => n ∉ en_settled e) (now ++ waiting) ->
  now = [] /\ exists rest, waiting = n :: rest.
Proof.
  intros Hok Hp Hb He Hi Hprev Hline Hpast Hrest.
  assert (Hn : n ∉ en_settled e) by (by rewrite (own_settled e t key n)).
  pose proof Hline as (Hturns & _ & _).
  assert (Hlen : i = length past).
  { destruct (lt_eq_lt_dec i (length past)) as [[Hlt|?]|Hgt]; [|done|].
    - rewrite Hturns, lookup_app_l in Hi by done. rewrite Forall_lookup in Hpast. by apply Hpast in Hi.
    - destruct i as [|j]; [lia|]. exfalso.
      destruct (joined key (en_log e) !! j) as [m|] eqn:Hj; [|apply lookup_ge_None in Hj; apply lookup_lt_Some in Hi; lia].
      specialize (Hprev m eq_refl). rewrite Hturns, lookup_app_r in Hj by lia.
      rewrite Forall_lookup in Hrest. by apply Hrest in Hj. }
  rewrite Hturns, lookup_app_r in Hi by lia. rewrite Hlen, Nat.sub_diag in Hi.
  assert (Hnow : now = []).
  { destruct now as [|x now]; [done|]. cbn in Hi. injection Hi as ->. exfalso. apply Hb.
    apply (own_lane e t key n Hok Hp). destruct Hline as (_ & _ & ->). apply elem_of_app. right. by left. }
  subst now. split; [done|]. destruct waiting as [|x rest]; [done|]. injection Hi as ->. by exists rest.
Qed.

Definition same_moves (e e' : engine) : Prop :=
  th_chains (en_threads e') = th_chains (en_threads e) /\ en_tickets e' = en_tickets e /\ en_settled e' = en_settled e.

Lemma elem_snoc {A} (x y : A) l : x ∈ l ++ [y] <-> x ∈ l \/ x = y.
Proof. rewrite elem_of_app, elem_of_cons, elem_of_nil. tauto. Qed.

Lemma has_turn_grows log t note : (forall key n, note <> (t, Ended key n)) -> has_turn log t -> has_turn (log ++ [note]) t.
Proof.
  intros Hn (key & n & H1 & H2 & H3). exists key, n. unfold placed in *. rewrite !elem_snoc. split_and!; [by left|by left|].
  intros [H|H]; [done|]. by eapply Hn.
Qed.

(** A stream opened by a call whose turn is under way. *)
Lemma open_stream_ok e t src p : in_place t p e ->
  match src, p with SrcStream _, Under_way _ _ => True | SrcResubscribe _, _ => True | _, _ => False end ->
  guar others_note t e (noted (Opened src) e) /\ in_place t p (noted (Opened src) e).
Proof.
  intros (Hok & Hrun & Hp) Hsrc. split.
  { intros t' Ht. exists [(en_running e, Opened src)]. split; [done|]. repeat constructor. cbn. congruence. }
  destruct src as [message|taskId].
  2:{ split_and!; [by apply (chains_ok_aside e _ (en_running e) (Opened (SrcResubscribe taskId)))|done|].
      by apply (at_place_aside e _ t (en_running e) (Opened (SrcResubscribe taskId))). }
  destruct p as [| |key n]; try done. destruct Hp as (H1 & H2 & H3 & H4).
  assert (Hneq : forall t' note, (forall m, note <> Opened m) -> (t', note) ∈ en_log (noted (Opened (SrcStream message)) e) <-> (t', note) ∈ en_log e).
  { intros t' note Hm. cbn. rewrite elem_snoc. split; [|by left]. intros [H|[= -> ->]]; [done|]. by destruct (Hm (SrcStream message)). }
  split_and!; [|done|].
  - destruct Hok as [K1 K2 K3 K4 K5 K6 K7 K8 K9].
    assert (Hj : forall key, joined key (en_log (noted (Opened (SrcStream message)) e)) = joined key (en_log e))
      by (intros k; change (joined k (en_log e ++ [(en_running e, Opened (SrcStream message))]) = joined k (en_log e));
          rewrite joined_app; apply app_nil_r).
    assert (Hl : forall key, lane key (en_log (noted (Opened (SrcStream message)) e)) = lane key (en_log e))
      by (intros k; change (lane k (en_log e ++ [(en_running e, Opened (SrcStream message))]) = lane k (en_log e));
          rewrite lane_app; apply app_nil_r).
    split; unfold placed in *.
    + intros k. rewrite Hj, Hl. apply K1.
    + intros k. rewrite Hj. apply K2.
    + intros t' k m. rewrite Hneq by done. apply K3.
    + apply K4.
    + intros t1 t2 k1 k2 m. rewrite !Hneq by done. apply K5.
    + intros k. rewrite Hj. apply K6.
    + intros t' k m. rewrite !Hneq by done. apply K7.
    + intros m. cbn [en_settled noted set_log]. rewrite K8. split; intros (t' & k & H); exists t', k; by apply Hneq.
    + intros l1 t' m l2 E. cbn in E. destruct (app_single_inv _ _ _ _ _ E) as [(l2' & -> & El)|(-> & <- & [= <- <-])].
      * by eapply K9.
      * rewrite Hrun. by exists key, n.
  - unfold at_place, placed in *. rewrite !Hneq by done. split_and!; [done..|]. intros k m. rewrite !Hneq by done. apply H4.
Qed.

Lemma join_chain_ok e t key : in_place t Outside e ->
  guar others_note t e (join_chain key e) /\
  in_place t (Behind key (en_tickets e) (th_chains (en_threads e) !! key)) (join_chain key e).
Proof.
  intros (Hok & Hrun & Hp). split.
  { intros t' Ht. exists [(en_running e, Joined key (en_tickets e))]. split; [done|]. repeat constructor. cbn. congruence. }
  pose proof Hok as [K1 K2 K3 K4 K5 K6 K7 K8 K9]. set (n := en_tickets e).
  assert (Hlog : en_log (join_chain key e) = en_log e ++ [(t, Joined key n)]) by (cbn; by rewrite Hrun).
  assert (Hneq : forall t' note, (forall k m, note <> Joined k m) -> (t', note) ∈ en_log (join_chain key e) <-> (t', note) ∈ en_log e).
  { intros t' note Hm. rewrite Hlog, elem_snoc. split; [|by left]. intros [H|[= -> ->]]; [done|]. by destruct (Hm key n). }
  assert (Hpl : forall t' k m, placed (en_log (join_chain key e)) t' k m <-> placed (en_log e) t' k m \/ (t' = t /\ k = key /\ m = n)).
  { intros t' k m. unfold placed. rewrite Hlog, elem_snoc. split; (intros [H|H]; [by left|right]); [by simplify_eq|by destruct H as (-> & -> & ->)]. }
  assert (Hj : forall k, joined k (en_log (join_chain key e)) = joined k (en_log e) ++ (if decide (key = k) then [n] else [])).
  { intros k. rewrite Hlog, joined_app. f_equal. cbn. by case_decide. }
  assert (Hl : forall k, lane k (en_log (join_chain key e)) = lane k (en_log e)).
  { intros k. rewrite Hlog, lane_app. cbn. by rewrite app_nil_r. }
  assert (Hnew : n ∉ en_settled e) by (intros H; apply K4 in H; unfold n in H; lia).
  assert (Hfresh : forall t' k, ~ placed (en_log e) t' k n) by (intros t' k H; apply K3 in H; unfold n in H; lia).
  split_and!; [|done|].
  - split.
    + intros k. destruct (K1 k) as (past & now & waiting & (Hturns & Hnow & Hm) & Hpast & Hrest).
      exists past, now, (waiting ++ (if decide (key = k) then [n] else [])). rewrite Hj, Hl. split_and!; [|done|].
      * split_and!; [|done|done]. by rewrite Hturns, <- !app_assoc.
      * rewrite app_assoc. apply Forall_app. split; [done|]. case_decide; repeat constructor. done.
    + intros k. rewrite Hj. cbn. rewrite lookup_insert. case_decide; [|by rewrite app_nil_r]. by rewrite last_snoc.
    + intros t' k m. rewrite Hpl. cbn. intros [H|(_ & _ & ->)]; [apply K3 in H; lia|unfold n; lia].
    + intros m H. cbn. apply K4 in H. lia.
    + intros t1 t2 k1 k2 m. rewrite !Hpl. intros [H1|(-> & -> & ->)] [H2|(-> & -> & E)].
      * by eapply K5.
      * subst m. by destruct (Hfresh t1 k1).
      * by destruct (Hfresh t2 k2).
      * done.
    + intros k. rewrite Hj. case_decide; [|rewrite app_nil_r; apply K6]. apply NoDup_app. split_and!; [apply K6| |repeat constructor; by intros ?%elem_of_nil].
      intros m (t' & Hpm)%elem_joined Hm%list_elem_of_singleton. subst m. by eapply Hfresh.
    + intros t' k m. rewrite !Hneq, Hpl by done. left. by apply K7.
    + intros m. cbn [en_settled join_chain noted set_log set_tickets on_threads set_threads]. rewrite K8.
      split; intros (t' & k & H); exists t', k; by apply Hneq.
    + intros l1 t' m l2 E. rewrite Hlog in E. destruct (app_single_inv _ _ _ _ _ E) as [(l2' & -> & El)|(_ & _ & [=])]. by eapply K9.
  - cbn [at_place]. split_and!.
    + apply Hpl. by right.
    + rewrite Hneq by done. intros H. eapply Hfresh, K7. by left.
    + rewrite Hneq by done. intros H. eapply Hfresh, K7. by right.
    + exists (length (joined key (en_log e))). rewrite Hj, decide_True by done. split; [by rewrite lookup_app_r, Nat.sub_diag|].
      rewrite K2. destruct (joined key (en_log e)) as [|x l] eqn:E using rev_ind; [done|].
      rewrite last_snoc, length_app, Nat.add_1_r, <- app_assoc. by rewrite lookup_app_r, Nat.sub_diag.
    + intros k m [H|(_ & _ & ->)]%Hpl Hne; [|done]. rewrite Hneq by done. by apply Hp.
Qed.

Lemma begin_ok e t key n prev : in_place t (Behind key n prev) e ->
  match prev with None => True | Some m => m ∈ en_settled e end ->
  guar others_note t e (noted (Began key n) e) /\ in_place t (Under_way key n) (noted (Began key n) e).
Proof.
  intros (Hok & Hrun & (P1 & P2 & P3 & (i & Hi & Hprev) & P5)) Hready. split.
  { intros t' Ht. exists [(en_running e, Began key n)]. split; [done|]. repeat constructor. cbn. congruence. }
  pose proof Hok as [K1 K2 K3 K4 K5 K6 K7 K8 K9]. set (e' := noted (Began key n) e).
  assert (Hlog : en_log e' = en_log e ++ [(t, Began key n)]) by (cbn; by rewrite Hrun).
  assert (Hneq : forall t' note, note <> Began key n -> (t', note) ∈ en_log e' <-> (t', note) ∈ en_log e).
  { intros t' note Hm. rewrite Hlog, elem_snoc. split; [|by left]. intros [H|[= -> ->]]; [done|]. by destruct Hm. }
  assert (Hj : forall k, joined k (en_log e') = joined k (en_log e)).
  { intros k. rewrite Hlog, joined_app. apply app_nil_r. }
  assert (Hl : forall k, lane k (en_log e') = lane k (en_log e) ++ (if decide (key = k) then [Begins n] else [])).
  { intros k. rewrite Hlog, lane_app. f_equal. cbn. by case_decide. }
  split_and!; [|done|].
  - split; unfold placed in *.
    + intros k. destruct (K1 k) as (past & now & waiting & Hline & Hpast & Hrest). destruct (decide (key = k)) as [<-|Hne].
      * destruct (next_in_line e t key n i past now waiting Hok P1 P2 P3 Hi) as (-> & rest & ->); [|done..|].
        { destruct i as [|j]; [done|]. intros m Hm. rewrite Hm in Hprev. by subst prev. }
        destruct Hline as (Hturns & _ & Hm). exists past, [n], rest. rewrite Hj, Hl, decide_True by done.
        split_and!; [|done|exact Hrest]. split_and!; [done|cbn; lia|]. by rewrite Hm, app_nil_r.
      * exists past, now, waiting. rewrite Hj, Hl, decide_False, app_nil_r by done. done.
    + intros k. rewrite Hj. apply K2.
    + intros t' k m. rewrite Hneq by done. apply K3.
    + apply K4.
    + intros t1 t2 k1 k2 m. rewrite !Hneq by done. apply K5.
    + intros k. rewrite Hj. apply K6.
    + intros t' k m. rewrite (Hneq _ (Joined k m)), (Hneq _ (Ended k m)) by done. rewrite Hlog, elem_snoc.
      intros [[H|[= -> -> ->]]|H]; [apply K7; by left|done|apply K7; by right].
    + intros m. change (en_settled e') with (en_settled e). rewrite K8. split; intros (t' & k & H); exists t', k; by apply Hneq.
    + intros l1 t' m l2 E. rewrite Hlog in E. destruct (app_single_inv _ _ _ _ _ E) as [(l2' & -> & El)|(_ & _ & [=])]. by eapply K9.
  - cbn [at_place]. unfold placed. split_and!.
    + by apply Hneq.
    + rewrite Hlog. apply elem_snoc. by right.
    + by rewrite Hneq.
    + intros k m Hm Hne. apply Hneq; [done|]. apply P5; [by apply Hneq in Hm|done].
Qed.

Lemma settle_ok e t key n : in_place t (Under_way key n) e ->
  guar others_note t e (settle_ticket key n e) /\ in_place t Outside (settle_ticket key n e).
Proof.
  intros (Hok & Hrun & (P1 & P2 & P3 & P4)). split.
  { intros t' Ht. exists [(en_running e, Ended key n)]. split; [done|]. repeat constructor. cbn. congruence. }
  pose proof Hok as [K1 K2 K3 K4 K5 K6 K7 K8 K9]. set (e' := settle_ticket key n e).
  assert (Hlog : en_log e' = en_log e ++ [(t, Ended key n)]) by (cbn; by rewrite Hrun).
  assert (Hneq : forall t' note, note <> Ended key n -> (t', note) ∈ en_log e' <-> (t', note) ∈ en_log e).
  { intros t' note Hm. rewrite Hlog, elem_snoc. split; [|by left]. intros [H|[= -> ->]]; [done|]. by destruct Hm. }
  assert (Hj : forall k, joined k (en_log e') = joined k (en_log e)).
  { intros k. rewrite Hlog, joined_app. apply app_nil_r. }
  assert (Hl : forall k, lane k (en_log e') = lane k (en_log e) ++ (if decide (key = k) then [Ends n] else [])).
  { intros k. rewrite Hlog, lane_app. f_equal. cbn. by case_decide. }
  assert (Hset : forall m, m ∈ en_settled e' <-> m = n \/ m ∈ en_settled e) by (intros m; cbn; set_solver).
  assert (Hn : n ∉ en_settled e) by (by rewrite (own_settled e t key n)).
  split_and!; [|done|].
  - split; unfold placed in *.
    + intros k. destruct (K1 k) as (past & now & waiting & Hline & Hpast & Hrest). destruct (decide (key = k)) as [<-|Hne].
      * destruct (own_lane e t key n Hok P1) as [Hb He].
        assert (now = [n]) as -> by (eapply in_line_now; [exact Hline|by apply Hb|by rewrite He]).
        destruct Hline as (Hturns & _ & Hm). exists (past ++ [n]), [], waiting. rewrite Hj, Hl, decide_True by done. split_and!.
        -- split_and!; [by rewrite Hturns, <- app_assoc|cbn; lia|]. rewrite Hm, bind_app, app_nil_r, <- app_assoc. done.
        -- apply Forall_app. split; [eapply Forall_impl; [exact Hpast|]; intros m ?; apply Hset; by right|].
           repeat constructor. apply Hset. by left.
        -- pose proof (K6 key) as Hnd. rewrite Hturns in Hnd. apply NoDup_app in Hnd as (_ & _ & Hnd).
           apply NoDup_cons in Hnd as [Hnin _]. apply Forall_cons in Hrest as [_ Hrest]. cbn.
           rewrite Forall_forall in *. intros m Hm' [->|Hs]%Hset; [done|]. by apply (Hrest m).
      * exists past, now, waiting. rewrite Hj, Hl, decide_False, app_nil_r by done. split_and!; [done| |].
        -- eapply Forall_impl; [exact Hpast|]. intros m ?. apply Hset. by right.
        -- rewrite Forall_forall in *. intros m Hm' [E|Hs]%Hset; [|by apply (Hrest m)].
           destruct Hline as (Hturns & _ & _).
           assert (m ∈ joined k (en_log e)) as [t' H']%elem_joined by (rewrite Hturns; apply elem_of_app; by right).
           subst m. by destruct (K5 t t' key k n P1 H').
    + intros k. rewrite Hj. apply K2.
    + intros t' k m. rewrite Hneq by done. apply K3.
    + intros m [->|H]%Hset; [|by apply K4]. by apply (K3 t key).
    + intros t1 t2 k1 k2 m. rewrite !Hneq by done. apply K5.
    + intros k. rewrite Hj. apply K6.
    + intros t' k m. rewrite (Hneq _ (Joined k m)), (Hneq _ (Began k m)) by done. rewrite Hlog, elem_snoc.
      intros [H|[H|[= -> -> ->]]]; [apply K7; by left|apply K7; by right|done].
    + intros m. rewrite Hset, K8. split.
      * intros [->|(t' & k & H)]; [exists t, key; rewrite Hlog; apply elem_snoc; by right|].
        exists t', k. rewrite Hlog. apply elem_snoc. by left.
      * intros (t' & k & H). rewrite Hlog, elem_snoc in H. destruct H as [H|[= -> -> ->]]; [right; by exists t', k|by left].
    + intros l1 t' m l2 E. rewrite Hlog in E. destruct (app_single_inv _ _ _ _ _ E) as [(l2' & -> & El)|(_ & _ & [=])]. by eapply K9.
  - cbn [at_place]. unfold placed in *. intros k m Hm. rewrite Hneq in Hm by done. rewrite Hlog, elem_snoc.
    destruct (decide (m = n)) as [->|Hne]; [right|left; by apply P4]. by destruct (K5 t t k key n Hm P1) as [_ ->].
Qed.

(** ** The methods keep their place *)

Lemma same_log_in_place t p e e' : en_log e' = en_log e -> th_chains (en_threads e') = th_chains (en_threads e) ->
  en_tickets e' = en_tickets e -> en_settled e' = en_settled e -> chains_ok e -> at_place t p e -> chains_ok e' /\ at_place t p e'.
Proof.
  intros Hl Hc Ht Hs [H1 H2 H3 H4 H5 H6 H7 H8 H9] Hp. split; [split; rewrite ?Hl, ?Hc, ?Ht, ?Hs; done|].
  destruct p; cbn in *; by rewrite Hl.
Qed.

Lemma in_place_step t p f :
  (forall e, en_log (f e) = en_log e) -> (forall e, th_chains (en_threads (f e)) = th_chains (en_threads e)) ->
  (forall e, en_tickets (f e) = en_tickets e) -> (forall e, en_settled (f e) = en_settled e) ->
  (forall e, en_running (f e) = en_running e) -> steps others_note t (in_place t p) f.
Proof.
  intros Hl Hc Ht Hs Hr e (Hok & Hrun & Hp). split.
  - intros t' _. exists []. by rewrite Hl, app_nil_r.
  - destruct (same_log_in_place t p e (f e)) as [? ?]; [done..|]. by split_and!; [|rewrite Hr|].
Qed.

Lemma in_place_noted t p n e : aside n -> in_place t p e ->
  guar others_note t e (noted n e) /\ in_place t p (noted n e).
Proof.
  intros Hn (Hok & Hrun & Hp). split.
  - intros t' Ht. exists [(en_running e, n)]. split; [done|]. repeat constructor. cbn. congruence.
  - split_and!; [by apply (chains_ok_aside e _ (en_running e) n)|done|by apply (at_place_aside e _ t (en_running e) n)].
Qed.

(** A call that is resumed finds its place as it left it. *)
Lemma resumed_in_place t p e e1 now : in_place t p e -> others_note t e e1 -> chains_ok e1 -> in_place t p (enter t now e1).
Proof.
  intros (_ & _ & Hp) Hr H1. destruct (same_log_in_place t p e1 (enter t now e1)) as [? ?]; [done..| |].
  - by apply (at_place_stable t p e).
  - by split_and!.
Qed.

Definition may_open (p : place) (src : source) : Prop :=
  match src, p with SrcStream _, Under_way _ _ => True | SrcResubscribe _, _ => True | _, _ => False end.

#[local] Abbreviation anything := (fun _ _ _ => True).
#[local] Abbreviation any_event := (fun _ _ _ _ => True).

Lemma line_steady t p : Steady anything chains_ok others_note t (in_place t p) (fun _ => True) (may_open p) quiet.
Proof.
  split.
  - by intros e [H _].
  - intros f [F1 F2 F3 F4 F5 F6 F7 F8 F9]. by apply in_place_step.
  - intros r _ e He. by apply in_place_noted.
  - intros r a e e1 now _ He Hr H1 _. apply (resumed_in_place t p e e1 now He Hr) in H1 as H2.
    destruct (in_place_noted t p (Got r a) _ I H2) as [Hg ?]. by split.
  - intros src ev e e1 now _ He Hr H1. apply (resumed_in_place t p e e1 now He Hr) in H1 as H2.
    destruct (in_place_noted t p (Heard src ev) _ I H2) as [Hg ?]. by split.
  - intros key v e He _. by apply (in_place_step t p (fun e => on_threads (fun x => set_pendingRelease (<[key := v]> (th_pendingRelease x)) x) e)).
  - by destruct r.
  - done.
  - intros src Hsrc e He. by apply (open_stream_ok e t src p).
Qed.

Section Line.
Context (options : EngineOptions) (sha1 : list N -> list N) (positive_number : jsval -> bool).
Hypothesis by_bridge : eo_queueing options = Bridge.
#[local] Abbreviation wp := (wp issue receive yielded enter ready anything any_event chains_ok others_note).
#[local] Abbreviation stays := (stays anything any_event chains_ok others_note).

Lemma line_pumps t p src channel threadTs sent origin : may_open p src ->
  stays t (in_place t p) (pumpTracked options positive_number src channel threadTs sent origin).
Proof.
  intros Hsrc. pose proof (line_steady t p) as Hsteady.
  eapply (stays_pumpTracked options positive_number _ _ _ _ t (in_place t p) (fun _ => True) (may_open p)); [..|done];
    intros key; by apply in_place_step.
Qed.

Lemma line_workspaces t p channel s : in_place t p s ->
  wp t (workspaceFor options channel) s
    (fun r s' => in_place t p s' /\ forall workspace : option jstr, r = Val (Bound workspace) -> True).
Proof.
  pose proof (line_steady t p) as Hsteady. intros Hs.
  eapply (wp_mono issue receive yielded enter ready anything any_event chains_ok others_note t _ s (fun _ => in_place t p)); [by auto|].
  eapply (stays_workspaceFor options anything any_event chains_ok others_note t (in_place t p) (fun _ => True) (may_open p)); [|done].
  intros name. by apply in_place_step.
Qed.

Lemma line_turn t key n channel threadTs text messageTs fileIds author :
  stays t (in_place t (Under_way key n)) (runTurn options sha1 positive_number channel threadTs text messageTs fileIds author).
Proof.
  pose proof (line_steady t (Under_way key n)) as Hsteady.
  eapply (stays_runTurn options sha1 positive_number anything any_event chains_ok others_note t (in_place t (Under_way key n))
    (fun _ => True) (may_open (Under_way key n)) (fun _ _ => True)).
  - intros channel' s Hs. by apply line_workspaces.
  - done.
  - done.
  - intros. by apply line_pumps.
Qed.

(** A turn takes its place, waits for the one before it, runs and is over. *)
Lemma line_trigger t channel threadTs text messageTs fileIds author :
  stays t (in_place t Outside) (trigger options sha1 positive_number channel threadTs text messageTs fileIds author).
Proof.
  unfold trigger. rewrite by_bridge. cbv zeta. set (key := thread_key channel threadTs).
  pose proof (line_steady t Outside) as Hsteady.
  apply (stays_bind anything any_event chains_ok others_note t (in_place t Outside));
    [by apply (stays_update anything any_event chains_ok others_note t (in_place t Outside) (fun _ => True) (may_open Outside)), quiet_stale|].
  intros _ e He. apply wp_read. destruct (join_chain_ok e t key He) as [Hg Hb]. set (n := en_tickets e) in *.
  set (prev := th_chains (en_threads e) !! key) in *.
  apply wp_bind. split; [exact Hg|]. cbn beta iota. set (e1 := join_chain key e) in *. apply wp_attempt.
  destruct (in_place_noted t _ (Sent (RqAfter prev)) e1 I Hb) as [Hg1 Hb1].
  apply wp_call; [exact Hg1|apply Hb1|]. intros a e2 now Hr H2 Hready _.
  pose proof (resumed_in_place t _ _ e2 now Hb1 Hr H2) as Hb2.
  destruct (in_place_noted t _ (Got (RqAfter prev) a) _ I Hb2) as [Hg2 Hb3]. split; [exact Hg2|].
  set (e3 := receive (RqAfter prev) a (enter t now e2)) in *.
  destruct (begin_ok e3 t key n prev Hb3) as [Hg3 Hb4].
  { destruct prev as [m|]; [|done]. by apply bool_decide_eq_true in Hready. }
  apply wp_bind. split; [exact Hg3|]. cbn beta iota.
  apply wp_try_finally. eapply wp_mono; [|by apply line_turn].
  intros r e5 H5. destruct (settle_ok e5 t key n H5) as [Hg5 H6]. by split.
Qed.

Lemma line_entry t now p s : chains_ok s -> (forall n, (t, n) ∉ en_log s) ->
  (exists e, entry options sha1 positive_number now p e) ->
  guar others_note t s (enter t now s) /\ wp t p (enter t now s) (fun _ => chains_ok).
Proof.
  intros Hs Hnew [e Hentry]. split; [intros t' _; exists []; by rewrite app_nil_r|].
  assert (HL : in_place t Outside (enter t now s)).
  { destruct (same_log_in_place t Outside s (enter t now s)) as [? ?]; [done..| |by split_and!]. intros key n H. by apply Hnew in H. }
  pose proof (line_steady t Outside) as Hsteady.
  pose proof (stays_entry options sha1 positive_number anything any_event chains_ok others_note t (in_place t Outside)
    (fun _ => True) (may_open Outside) (fun _ _ => True) (line_workspaces t Outside) (fun _ _ _ _ _ _ _ _ _ _ _ _ => I)
    (fun src channel threadTs sent origin => line_pumps t Outside src channel threadTs sent origin)
    (line_trigger t) (fun _ => I) now p e Hentry) as Hstay.
  eapply wp_mono; [|apply (Hstay _ HL)]. by intros r s' [H _].
Qed.
End Line.

Lemma unnoted_stable (t : nat) (s s' : engine) : (forall n, (t, n) ∉ en_log s) -> others_note t s s' -> forall n, (t, n) ∉ en_log s'.
Proof. intros H Hr n. by rewrite (others_note_own t s s' n Hr). Qed.

Lemma new_chains_ok store : chains_ok (new_engine store).
Proof.
  split; cbn.
  - intros key. exists [], [], []. split_and!; [|done|done]. split_and!; [done|cbn; lia|done].
  - done.
  - intros t key n H. by apply elem_of_nil in H.
  - intros n H. set_solver.
  - intros t t' key key' n H. by apply elem_of_nil in H.
  - intros key. constructor.
  - intros t key n [H|H]; by apply elem_of_nil in H.
  - intros n. split; [set_solver|]. intros (t & key & H). by apply elem_of_nil in H.
  - intros l1 t m l2 H. by destruct l1.
Qed.

(** C27: under the bridge's queueing the turns of a thread form a line.
    Whatever arrives and however Slack and the agent answer: the turns of a
    thread begin in the order they were triggered, one begins only once the
    one before it is over, and a message is streamed to the agent only by a
    call whose turn is under way. *)
Theorem turns_keep_their_line options sha1 positive_number store hs w :
  eo_queueing options = Bridge ->
  all_allowed issue receive yielded enter ready (fun _ _ _ => True) (fun _ _ _ _ => True)
    (fun now p _ => exists e, entry options sha1 positive_number now p e) hs (new_world store) ->
  engine_history hs (new_world store) = Some w ->
  (forall key, exists past now waiting,
     in_line (joined key (en_log (w_state w))) (lane key (en_log (w_state w))) past now waiting) /\
  (forall l1 t message l2, en_log (w_state w) = l1 ++ (t, Opened (SrcStream message)) :: l2 -> has_turn l1 t).
Proof.
  intros Hq Hok Hrun.
  assert (Hsound : sound issue receive yielded enter ready (fun _ _ _ => True) (fun _ _ _ _ => True) chains_ok others_note
    (fun t e => forall n, (t, n) ∉ en_log e) w).
  { eapply history_sound; [apply _|apply unnoted_stable| | |exact Hok|exact Hrun].
    - intros t now p s Hs Hp Hentry. by apply (line_entry options sha1 positive_number).
    - split; cbn; [apply new_chains_ok|done|]. intros t _. split; [done|]. intros n H. by apply elem_of_nil in H. }
  pose proof (sound_inv _ _ _ _ _ _ _ _ _ _ _ Hsound) as Hinv. split; [|apply (co_streams _ Hinv)].
  intros key. destruct (co_line _ Hinv key) as (past & now & waiting & H & _). by exists past, now, waiting.
Qed.

(** Two messages in one thread: the second waits for the first. *)
Definition two_turns : list engine_happening :=
  mentioned bridge_options (js "1.0") (js "hi") :: mentioned bridge_options (js "1.1") (js "and more") ::
  replies 0 5 ++ streamed_turn 0 (js "t1") (js "hello") ++ finishes 0 :: replies 0 1 ++ replies 1 4.
Definition impatient : list engine_happening :=
  mentioned bridge_options (js "1.0") (js "hi") :: mentioned bridge_options (js "1.1") (js "and more") :: replies 0 5 ++ replies 1 1.

Lemma turns_keep_their_line_witness :
  let key := thread_key (js "C1") (js "1.0") in
  let w := world_after two_turns in
  engine_history impatient (new_world new_state) = None /\
  lane key (en_log (w_state w)) = [Begins 0; Ends 0; Begins 1] /\
  (exists past now waiting, in_line (joined key (en_log (w_state w))) (lane key (en_log (w_state w))) past now waiting).
Proof.
  cbv zeta. split_and!; [by vm_compute|by vm_compute|].
  refine (proj1 (turns_keep_their_line bridge_options zero_sha1 no_number new_state two_turns (world_after two_turns) eq_refl _ _) _).
  - unfold two_turns. of_mentions.
  - apply world_after_run. reflexivity.
Defined.
