(* ===== verification/SlackMessages.v ===== *)
(** What the agent is sent: every message belongs to a channel, and names the
    workspace that channel is bound to or none at all. *)

From S2P Require Import Prelude A2A A2AClient Activity Questions Envelope SessionId Markdown Async AsyncLogic Values.
From S2P Require Import SlackState SlackQuestions SlackTranslate SlackEngine SlackSteady SlackDemo.
#[local] Open Scope nat_scope.
#[local] Open Scope async_scope.

Section Messages.
Context (options : EngineOptions) (sha1 : list N -> list N) (positive_number : jsval -> bool).
(** The names Slack reports for its channels. *)
Context (said : jstr -> option jstr -> Prop).

(** The workspace of a channel: none where nothing is bound or for a DM, the
    one its id is bound to, and else, where anything is bound by name, the one
    bound to a name Slack reported for it. *)
Definition workspace_right (channel : jstr) (workspace : option jstr) : Prop :=
  if bool_decide (eo_bindings options = []) || starts_with (js "D") channel then workspace = None else
  match assq channel (eo_bindings options) with
  | Some direct => workspace = Some direct
  | None =>
      if existsb (fun kv => starts_with hash (fst kv)) (eo_bindings options)
      then exists name, said channel (Some name) /\ workspace = assq (hash ++ name) (eo_bindings options)
      else workspace = None
  end.

(** A file is a link into the bridge's own file endpoint. *)
Definition own_file (p : part) : Prop := exists fileId url, file_url options fileId = Some url /\ p_content p = CUrl url.

Definition rightful (m : Message) : Prop :=
  exists channel workspace,
    meta m META_SLACK_CHANNEL = VStr channel /\ meta m META_WORKSPACE = from_option VStr VUndef workspace /\
    workspace_right channel workspace /\
    exists text files, m_parts m = textPart text :: files /\ Forall own_file files.

Definition rightful_note (n : note_) : Prop :=
  match n with Sent (RqSend m) | Opened (SrcStream m) => rightful m | _ => True end.

Record messages_ok (e : engine) : Prop := {
  mo_names channel name : th_channelNames (en_threads e) !! channel = Some name -> said channel name;
  mo_sent t n : (t, n) ∈ en_log e -> rightful_note n }.

Definition names_said (r : request) : result (answer r) -> engine -> Prop :=
  match r with
  | RqChannelName channel => fun a _ => match a with Val name => said channel name | Exn _ => True end
  | _ => fun _ _ => True
  end.
#[local] Abbreviation any_event := (fun _ _ _ _ => True).
#[local] Abbreviation anywhere := (fun _ _ _ => True).
#[export] Instance anywhere_preorder (t : nat) : PreOrder ((fun (_ : nat) (_ _ : engine) => True) t).
Proof. by split. Qed.

Definition sendable (r : request) : Prop := match r with RqSend m => rightful m | _ => True end.
Definition streamable (src : source) : Prop := match src with SrcStream m => rightful m | _ => True end.

#[export] Instance sendable_appends : Appends sendable.
Proof. done. Qed.

Lemma messages_noted n e : rightful_note n -> messages_ok e -> messages_ok (noted n e).
Proof.
  intros Hn [H1 H2]. split; [done|]. intros t n'. cbn. rewrite elem_of_app, elem_of_cons, elem_of_nil.
  intros [H|[[= _ ->]|[]]]; [by eapply H2|done].
Qed.

Lemma messages_step t f : (forall e, en_log (f e) = en_log e) ->
  (forall e, th_channelNames (en_threads (f e)) = th_channelNames (en_threads e)) -> steps anywhere t messages_ok f.
Proof. intros Hl Hn e [H1 H2]. split; [by intros t' _|]. split; [by rewrite Hn|by rewrite Hl]. Qed.

Lemma messages_entered t now e : messages_ok e -> messages_ok (enter t now e).
Proof. by intros [H1 H2]. Qed.

Lemma messages_steady t : Steady names_said messages_ok anywhere t messages_ok sendable streamable quiet.
Proof.
  split.
  - done.
  - intros f Hf. apply messages_step; apply Hf.
  - intros r Hr e He. split; [by intros t' _|]. apply messages_noted; [|done]. by destruct r.
  - intros r a e e1 now _ _ _ H1 _. split; [by intros t' _|]. by apply messages_noted, messages_entered.
  - intros src ev e e1 now _ _ _ H1. split; [by intros t' _|]. by apply messages_noted, messages_entered.
  - intros key v e He _. by apply (messages_step t (on_threads (fun x => set_pendingRelease (<[key := v]> (th_pendingRelease x)) x))).
  - by destruct r.
  - done.
  - intros src Hsrc e He. split; [by intros t' _|]. apply messages_noted; [|done]. by destruct src.
Qed.

#[local] Abbreviation wp := (wp issue receive yielded enter ready names_said any_event messages_ok anywhere).

Lemma by_name_right channel e : messages_ok e ->
  bool_decide (eo_bindings options = []) || starts_with (js "D") channel = false ->
  assq channel (eo_bindings options) = None ->
  existsb (fun kv => starts_with hash (fst kv)) (eo_bindings options) = true ->
  forall workspace, workspace_by_name options channel e = Bound workspace -> workspace_right channel workspace.
Proof.
  intros He Hb Hd Hh workspace. unfold workspace_by_name, workspace_right. rewrite Hb, Hd, Hh.
  destruct (_ !! channel) as [[name|]|] eqn:E; [|done..]. intros [= <-]. exists name. split; [|done].
  by apply (mo_names e He).
Qed.

Lemma workspace_found t channel s : messages_ok s ->
  wp t (workspaceFor options channel) s
    (fun r s' => messages_ok s' /\ forall workspace, r = Val (Bound workspace) -> workspace_right channel workspace).
Proof.
  intros Hs. unfold workspaceFor. cbv zeta.
  destruct (bool_decide _ || _) eqn:Hb.
  { split; [done|]. intros w [= <-]. unfold workspace_right. by rewrite Hb. }
  destruct (assq channel _) as [direct|] eqn:Hd.
  { split; [done|]. intros w [= <-]. unfold workspace_right. by rewrite Hb, Hd. }
  destruct (existsb _ _) eqn:Hh; cbn [negb].
  2:{ split; [done|]. intros w [= <-]. unfold workspace_right. by rewrite Hb, Hd, Hh. }
  pose proof (fun e He => by_name_right channel e He Hb Hd Hh) as Hright.
  apply wp_read. destruct (_ !! channel) as [name|].
  { split; [done|]. intros w [= E]. by apply (Hright s). }
  apply wp_try_catch, wp_bind, wp_call; [by intros t' _|by apply messages_noted|].
  intros a s1 now _ H1 _ Ha. split; [by intros t' _|].
  pose proof (messages_noted (Got (RqChannelName channel) a) _ I (messages_entered t now s1 H1)) as H2.
  set (s2 := receive _ a _) in *. destruct a as [name|err]; [|by split]. cbn in Ha.
  apply wp_bind. split; [by intros t' _|]. cbn beta iota.
  assert (H3 : messages_ok (on_threads (remember_name channel name) s2)).
  { split; [|apply H2]. intros c n. cbn. rewrite lookup_insert_Some. intros [[<- <-]|[_ H]]; [done|]. by apply (mo_names _ H2). }
  split; [done|]. intros w [= E]. by apply (Hright _ H3).
Qed.

Lemma built_rightful channel threadTs text messageTs query fileIds workspace author e message :
  workspace_right channel workspace ->
  buildMessage options sha1 channel threadTs text messageTs query fileIds workspace author e = Some message ->
  rightful message.
Proof.
  intros Hw. unfold buildMessage. destruct (mapM _ _) as [files|] eqn:Hfiles; [|done]. cbn [mbind option_bind].
  intros [= <-]. exists channel, workspace. split_and!; [done| |done|].
  - by destruct workspace, query.
  - exists text, files. split; [done|]. apply mapM_Some in Hfiles. apply Forall_forall. intros p Hp.
    apply list_elem_of_lookup in Hp as [i Hp]. destruct (Forall2_lookup_r _ _ _ _ _ Hfiles Hp) as (file & _ & E). destruct (file_url options (rf_fileId file)) as [url|] eqn:Eu; [|done].
    injection E as <-. by exists (rf_fileId file), url.
Qed.

Lemma messages_entry t now p s : messages_ok s -> (exists e, entry options sha1 positive_number now p e) ->
  guar anywhere t s (enter t now s) /\ wp t p (enter t now s) (fun _ => messages_ok).
Proof.
  intros Hs [e Hentry]. split; [by intros t' _|]. pose proof (messages_steady t) as Hsteady.
  assert (Hsends : forall channel threadTs text messageTs query fileIds workspace author s message,
    workspace_right channel workspace ->
    buildMessage options sha1 channel threadTs text messageTs query fileIds workspace author s = Some message ->
    rightful message) by (intros; by eapply built_rightful).
  assert (Hpumps : forall src channel threadTs sent origin, streamable src ->
    stays names_said any_event messages_ok anywhere t messages_ok (pumpTracked options positive_number src channel threadTs sent origin)).
  { intros src channel threadTs sent origin Hsrc.
    apply (stays_pumpTracked options positive_number names_said any_event messages_ok anywhere t messages_ok sendable streamable);
      [..|done]; intros key; by apply messages_step. }
  assert (Htrigger : forall channel threadTs text messageTs fileIds author,
    stays names_said any_event messages_ok anywhere t messages_ok
      (trigger options sha1 positive_number channel threadTs text messageTs fileIds author)).
  { intros. apply (stays_trigger options sha1 positive_number names_said any_event messages_ok anywhere t messages_ok sendable streamable
      workspace_right (workspace_found t) Hsends Hsends Hpumps); [| | |done].
    - intros key e' He'. split; [by intros t' _|]. apply messages_noted; [done|]. by destruct He'.
    - intros key n e' He'. split; [by intros t' _|]. by apply messages_noted.
    - intros key n e' He'. split; [by intros t' _|]. apply messages_noted; [done|]. by destruct He'. }
  pose proof (stays_entry options sha1 positive_number names_said any_event messages_ok anywhere t messages_ok
    sendable streamable workspace_right (workspace_found t) Hsends Hpumps Htrigger (fun _ => I) now p e Hentry) as Hstay.
  by apply Hstay, messages_entered.
Qed.

(** The agent is told the right workspace or nothing at all. Whatever
    arrives, in whatever order and however Slack answers: every message sent
    or streamed to the agent names its channel and exactly the workspace that
    channel is bound to; where channels are bound by name that takes a name
    Slack reported for the channel, so while the lookup fails or finds no
    name nothing is sent. Its files are links to the bridge's own endpoint,
    never Slack's private ones. *)
Theorem messages_name_their_workspace store hs w :
  all_allowed issue receive yielded enter ready names_said (fun _ _ _ _ => True)
    (fun now p _ => exists e, entry options sha1 positive_number now p e) hs (new_world store) ->
  engine_history hs (new_world store) = Some w ->
  forall t m, (t, Sent (RqSend m)) ∈ en_log (w_state w) \/ (t, Opened (SrcStream m)) ∈ en_log (w_state w) -> rightful m.
Proof.
  intros Hok Hrun.
  assert (Hsound : sound issue receive yielded enter ready names_said (fun _ _ _ _ => True) messages_ok (fun _ _ _ => True)
    (fun _ _ => True) w).
  { eapply history_sound; [apply _|done| | |exact Hok|exact Hrun].
    - intros t now p s Hs _ Hentry. by apply messages_entry.
    - split; cbn; [|done|done]. split; cbn; [done|]. intros t n H. by apply elem_of_nil in H. }
  intros t m [H|H]; apply (mo_sent _ (sound_inv _ _ _ _ _ _ _ _ _ _ _ Hsound)) in H; done.
Qed.
End Messages.

(** The channel's name is asked of Slack; where it has none, nothing is sent. *)
Definition named_general (channel : jstr) (name : option jstr) : Prop := name = Some (js "general").
Definition named_run : list engine_happening := mentioned bound_options (js "1.0") (js "hi") :: replies 0 5.
Definition nameless (r : request) : result (answer r) :=
  match r with RqChannelName _ => Val None | r => obliging r end.
Definition nameless_run : list engine_happening :=
  mentioned bound_options (js "1.0") (js "hi") :: repeat (Resumed 0 1000%Z (Reply nameless)) 7.
Definition streamed_workspaces (w : engine_world) : list jsval :=
  omap (fun n => match snd n with Opened (SrcStream m) => Some (meta m META_WORKSPACE) | _ => None end) (en_log (w_state w)).

Lemma messages_name_their_workspace_witness :
  streamed_workspaces (world_after named_run) = [VStr (js "/work/general")] /\
  (streamed_workspaces (world_after nameless_run) = [] /\ w_calls (world_after nameless_run) = ∅) /\
  (forall t m, (t, Sent (RqSend m)) ∈ en_log (w_state (world_after named_run)) \/
     (t, Opened (SrcStream m)) ∈ en_log (w_state (world_after named_run)) -> rightful bound_options named_general m).
Proof.
  split_and!; [by vm_compute..|].
  refine (messages_name_their_workspace bound_options zero_sha1 no_number named_general new_state named_run (world_after named_run) _ _).
  - unfold named_run. apply any_history. cbv [replies repeat].
    repeat first [apply Forall_nil; exact I | apply Forall_cons; split;
      [first [let s := fresh in intros s; exact (mentioned_entry _ _ _ s _) | intros [] s; cbn; exact I || reflexivity]|]].
  - apply world_after_run. reflexivity.
Defined.
