(* ===== verification/SlackText.v ===== *)
(** The answer on its way to the thread: what of it was streamed, what is
    held back, and what becomes of that however the call comes out. *)

From S2P Require Import Prelude A2A A2AClient Activity Questions Envelope SessionId Markdown MarkdownSplits Async AsyncLogic Values.
From S2P Require Import SlackState SlackQuestions SlackTranslate SlackEngine SlackSteady SlackDemo.
#[local] Open Scope nat_scope.
#[local] Open Scope async_scope.

(** ** What a call's own notes tell *)

Definition own (t : nat) (log : list (nat * note_)) : list note_ :=
  omap (fun n => if decide (fst n = t) then Some (snd n) else None) log.

(** The texts Slack took into its streamed messages. *)
Definition taken (n : note_) : option jstr :=
  match n with
  | Got r a =>
      match r return result (answer r) -> option jstr with
      | RqAppendStream _ _ text => fun a => match a with Val _ => Some text | Exn _ => None end
      | _ => fun _ => None
      end a
  | _ => None
  end.
Definition accepted (notes : list note_) : list jstr := omap taken notes.

Definition heard (notes : list note_) : list A2AEvent :=
  omap (fun n => match n with Heard _ event => event | _ => None end) notes.

Definition posted (text : jstr) (notes : list note_) : Prop :=
  exists channel threadTs, Got (RqPostMessage channel threadTs text) (Val tt) ∈ notes.
Definition refused (notes : list note_) : Prop := exists r m, Got r (Exn m) ∈ notes.

(** ** What a thread is shown of a text *)

(** A line that closes a fence. *)
Definition seal (s : jstr) : Prop := exists eol f, (eol = [] \/ eol = [10%N]) /\ s = eol ++ f_marker f.

(** [shown pieces text]: read in order, and but for the lines that close and
    reopen fences, the pieces are the text less blanks where it was cut. *)
Inductive shown : list jstr -> jstr -> Prop :=
| shown_nothing : shown [] []
| shown_seal pieces text s : shown pieces text -> seal s -> shown (pieces ++ [s]) text
| shown_piece pieces text c : shown pieces text -> cut_wf c -> shown (pieces ++ [cut_piece c]) (text ++ cut_text c)
| shown_blank pieces text sep : shown pieces text -> Forall blank sep -> shown pieces (text ++ sep).

Lemma own_app t l1 l2 : own t (l1 ++ l2) = own t l1 ++ own t l2.
Proof. apply omap_app. Qed.
Lemma accepted_app l1 l2 : accepted (l1 ++ l2) = accepted l1 ++ accepted l2.
Proof. apply omap_app. Qed.
Lemma heard_app l1 l2 : heard (l1 ++ l2) = heard l1 ++ heard l2.
Proof. apply omap_app. Qed.

Lemma own_others t l : Forall (fun n => fst n <> t) l -> own t l = [].
Proof. induction 1 as [|n l Hn _ IH]; [done|]. unfold own. cbn. by rewrite decide_False. Qed.
Lemma own_mine t n : own t [(t, n)] = [n].
Proof. unfold own. cbn. by rewrite decide_True. Qed.

Lemma posted_app text l1 l2 : posted text l1 -> posted text (l1 ++ l2).
Proof. intros (c & ts & H). exists c, ts. apply elem_of_app. by left. Qed.
Lemma refused_app l1 l2 : refused l1 -> refused (l1 ++ l2).
Proof. intros (r & m & H). exists r, m. apply elem_of_app. by left. Qed.

(** A chunk that was taken shows its part of the text. *)
Lemma shown_chunk rest budget cursor prefix :
  prefix = [] \/ prefix = reopen cursor ->
  let chunk := takeChunk rest budget cursor in
  exists part, rest = part ++ ch_rest chunk /\
    forall pieces text, shown pieces text ->
      (ch_head chunk = [] -> shown pieces (text ++ part)) /\ shown (pieces ++ [prefix ++ ch_head chunk]) (text ++ part).
Proof.
  intros Hp chunk. destruct (chunk_anatomy rest budget cursor) as (raw & close & sep & Hh & Ht & Hsep & Hclose).
  fold chunk in Hh, Ht. exists (raw ++ sep). split; [by rewrite <- app_assoc|]. intros pieces text Hs. split.
  - intros E. rewrite E in Hh. symmetry in Hh. apply app_eq_nil in Hh as [-> _]. by apply shown_blank.
  - rewrite Hh. apply (shown_piece _ _ (mkCut prefix raw close sep) Hs). split_and!; [done|done|].
    destruct Hp as [->| ->]; [by exists START|by exists cursor].
Qed.

(** ** The call that tells a task *)

(** Others leave the call's notes alone, and what it keeps of task [k]. *)
Definition alone (k : jstr) (x x' : streams) : Prop :=
  (k ∈ sm_streamOff x' <-> k ∈ sm_streamOff x) /\ sm_streamlessText x' !! k = sm_streamlessText x !! k /\
  sm_streamedChars x' !! k = sm_streamedChars x !! k.
Definition keeps_out (t : nat) (k : jstr) (t' : nat) (e e' : engine) : Prop :=
  t' = t -> others_note t e e' /\ alone k (en_streams e) (en_streams e').
#[export] Instance keeps_out_preorder t k t' : PreOrder (keeps_out t k t').
Proof.
  split; [intros e _; split; [done|by split]|]. intros e1 e2 e3 H1 H2 E. destruct (H1 E) as [N1 (A1 & A2 & A3)], (H2 E) as [N2 (B1 & B2 & B3)].
  split; [by etransitivity|]. split_and!; [by rewrite B1, A1|congruence|congruence].
Qed.

Section Told.
Context (t : nat) (k : jstr) (base : list (nat * note_)).
#[local] Abbreviation anything := (fun _ _ _ => True).
#[local] Abbreviation always := (fun _ => True).

(** What the call's own notes say since [base], the events it heard among
    them, and what its streams look like. *)
Definition told (events : list A2AEvent) (P : list note_ -> Prop) (D : streams -> Prop) (e : engine) : Prop :=
  en_running e = t /\ D (en_streams e) /\
  exists l, en_log e = base ++ l /\ heard (own t l) = events /\ P (own t l).

Lemma guar_out e e' : guar (keeps_out t k) t e e'.
Proof. by intros t' Ht [= ->]. Qed.

Lemma told_mono events (P Q : list note_ -> Prop) (D F : streams -> Prop) e :
  (forall o, P o -> Q o) -> (forall x, D x -> F x) -> told events P D e -> told events Q F e.
Proof. intros HP HD (H1 & H2 & l & H3 & H4 & H5). split_and!; [done|by apply HD|]. exists l. split_and!; [done..|by apply HP]. Qed.

Lemma told_noted events (P : list note_ -> Prop) Q D n e :
  (forall o, P o -> Q (o ++ [n])) -> told events P D e -> told (events ++ heard [n]) Q D (noted n e).
Proof.
  intros HP (Hr & HD & l & Hl & Hh & Hp). split_and!; [done|done|]. exists (l ++ [(t, n)]). cbn.
  rewrite Hl, Hr, own_app, own_mine, heard_app, Hh, <- app_assoc. split_and!; [done|done|by apply HP].
Qed.

(** Resumed, a call finds what it told. *)
Lemma told_resumed events P (D : streams -> Prop) e e1 now : (forall x x', alone k x x' -> D x -> D x') ->
  told events P D e -> keeps_out t k t e e1 -> told events P D (enter t now e1).
Proof.
  intros Ha (_ & HD & l & Hl & Hh & Hp) Hr. destruct (Hr eq_refl) as [(l' & Hl' & Hl'') Halone]. split_and!; [done|by eapply Ha|].
  exists (l ++ l'). cbn. rewrite Hl', Hl, own_app, (own_others t l' Hl''), app_nil_r, <- app_assoc. done.
Qed.

Definition mild_for (D : streams -> Prop) (f : engine -> engine) : Prop :=
  quiet f /\ forall e, D (en_streams e) -> D (en_streams (f e)).

Lemma told_quiet events P D f e : mild_for D f -> told events P D e -> told events P D (f e).
Proof.
  intros [Hq Hf] (Hr & HD & Hl). split_and!; [by rewrite (quiet_running f Hq)|by apply Hf|]. by rewrite (quiet_log f Hq).
Qed.

(** The requests whose answers leave [P] as it is. *)
Definition harmless (P : list note_ -> Prop) (r : request) : Prop :=
  forall o, P o -> P (o ++ [Sent r]) /\ forall a, P (o ++ [Got r a]).

Lemma told_steady events (P : list note_ -> Prop) (D : streams -> Prop) :
  (forall x x', alone k x x' -> D x -> D x') ->
  (forall r, match r with RqSend _ | RqAfter _ | RqAppendStream _ _ _ => True | _ => harmless P r end) ->
  (forall channel ts s, seal s -> harmless P (RqAppendStream channel ts s)) ->
  Steady anything always (keeps_out t k) t (told events P D) (harmless P) (fun _ => False) (mild_for D).
Proof.
  intros Ha Hh Hseal. split.
  - done.
  - intros f Hf e He. split; [apply guar_out|by apply told_quiet].
  - intros r Hr e He. split; [apply guar_out|]. rewrite <- (app_nil_r events). apply (told_noted events P P D (Sent r) e); [|done].
    intros o Ho. by apply Hr.
  - intros r a e e1 now Hf He Hr _ _. split; [apply guar_out|]. rewrite <- (app_nil_r events).
    apply (told_noted events P P D (Got r a) (enter t now e1)); [|by eapply told_resumed].
    intros o Ho. by apply Hf.
  - done.
  - intros key v e He _. split; [apply guar_out|done].
  - done.
  - intros channel ts eol f He. apply Hseal. by exists eol, f.
  - done.
Qed.
End Told.

(** ** What is streamed and what is held back *)

Section Answer.
Context (options : EngineOptions) (positive_number : jsval -> bool).
Context (t : nat) (k : jstr) (base : list (nat * note_)) (events : list A2AEvent).
#[local] Abbreviation anything := (fun _ _ _ => True).
#[local] Abbreviation any_event := (fun _ _ _ _ => True).
#[local] Abbreviation always := (fun _ => True).
Context (fits : nat -> source -> A2AEvent -> engine -> Prop).
#[local] Abbreviation told := (told t base).
#[local] Abbreviation wp := (wp issue receive yielded enter ready anything fits always (keeps_out t k) t).
#[local] Abbreviation stays := (stays anything fits always (keeps_out t k) t).

(** Everything so far is in the thread's streamed messages. *)
Definition all_streamed (text : jstr) (o : list note_) : Prop := shown (accepted o) text.
Definition nothing_held (x : streams) : Prop := (k ∉ sm_streamOff x) /\ sm_streamlessText x !! k = None.

(** Slack refused, and the rest is held back. *)
Definition streamed_to (text : jstr) (o : list note_) : Prop := exists pieces rest, accepted o = pieces ++ rest /\ shown pieces text.
Definition streamed_until (text : jstr) (o : list note_) : Prop := streamed_to text o /\ refused o.
Definition holds (held : jstr) (x : streams) : Prop := k ∈ sm_streamOff x /\ sm_streamlessText x !! k = Some held.

(** The task is over: what was held back was posted. *)
Definition told_all (text held : jstr) (o : list note_) : Prop :=
  streamed_to text o /\ (held = [] \/ refused o) /\ (trim held = [] \/ posted held o).

Lemma streamed_to_app text o o' : streamed_to text o -> streamed_to text (o ++ o').
Proof. intros (p & r & E & H). exists p, (r ++ accepted o'). by rewrite accepted_app, E, app_assoc. Qed.
Lemma streamed_until_app text o o' : streamed_until text o -> streamed_until text (o ++ o').
Proof. intros [H1 H2]. split; [by apply streamed_to_app|by apply refused_app]. Qed.
Lemma told_all_app text held o o' : told_all text held o -> told_all text held (o ++ o').
Proof.
  intros (H1 & H2 & H3). split_and!; [by apply streamed_to_app|..].
  - destruct H2; [by left|right; by apply refused_app].
  - destruct H3; [by left|right; by apply posted_app].
Qed.
Lemma all_streamed_to text o : all_streamed text o -> streamed_to text o.
Proof. intros H. exists (accepted o), []. by rewrite app_nil_r. Qed.

Lemma harmless_until text r : harmless (streamed_until text) r.
Proof. intros o Ho. split; [|intros a]; by apply streamed_until_app. Qed.
Lemma harmless_over text held r : harmless (told_all text held) r.
Proof. intros o Ho. split; [|intros a]; by apply told_all_app. Qed.
#[export] Instance until_appends text : Appends (harmless (streamed_until text)).
Proof. intros c ts s. apply harmless_until. Qed.
#[export] Instance over_appends text held : Appends (harmless (told_all text held)).
Proof. intros c ts s. apply harmless_over. Qed.

Lemma all_streamed_app text o n : accepted [n] = [] -> all_streamed text o -> all_streamed text (o ++ [n]).
Proof. unfold all_streamed. intros E H. by rewrite accepted_app, E, app_nil_r. Qed.

Lemma harmless_streamed text r : match r with RqAppendStream _ _ _ => False | _ => True end -> harmless (all_streamed text) r.
Proof. intros Hr o Ho. by split; [|intros a]; apply all_streamed_app; [|done| |done]; destruct r. Qed.

Lemma harmless_seal text channel ts s : seal s -> harmless (all_streamed text) (RqAppendStream channel ts s).
Proof.
  intros Hs o Ho. split; [by apply all_streamed_app|]. intros [u|m]; [|by apply all_streamed_app].
  unfold all_streamed in *. rewrite accepted_app. by apply shown_seal.
Qed.

#[export] Instance mild_tolerant : Tolerant (mild_for nothing_held).
Proof. intros f [Hq Hf]. split; [done|]. intros e. destruct (Hf e) as [E1 E2]. unfold nothing_held. by rewrite E1, E2. Qed.
#[export] Instance mild_held_tolerant held : Tolerant (mild_for (holds held)).
Proof. intros f [Hq Hf]. split; [done|]. intros e. destruct (Hf e) as [E1 E2]. unfold holds. by rewrite E1, E2. Qed.
#[export] Instance always_lenient : Lenient (mild_for always).
Proof. by intros f Hf. Qed.
#[export] Instance always_tolerant : Tolerant (mild_for always).
Proof. intros f [Hf _]. by split. Qed.

Lemma nothing_held_alone x x' : alone k x x' -> nothing_held x -> nothing_held x'.
Proof. intros (H1 & H2 & _). unfold nothing_held. by rewrite H1, H2. Qed.
Lemma holds_alone held x x' : alone k x x' -> holds held x -> holds held x'.
Proof. intros (H1 & H2 & _). unfold holds. by rewrite H1, H2. Qed.

(** Nothing is held back and the current message is fresh. *)
Definition fresh (x : streams) : Prop := nothing_held x /\ default 0%Z (sm_streamedChars x !! k) = 0%Z.
Lemma fresh_alone x x' : alone k x x' -> fresh x -> fresh x'.
Proof. intros Ha [H1 H2]. split; [by eapply nothing_held_alone|]. destruct Ha as (_ & _ & ->). done. Qed.

Lemma streaming_steady text (D : streams -> Prop) : (forall x x', alone k x x' -> D x -> D x') ->
  Steady anything always (keeps_out t k) t (told events (all_streamed text) D) (harmless (all_streamed text)) (fun _ => False) (mild_for D).
Proof.
  intros HD. apply told_steady; [done| |].
  - intros r. destruct r; try exact I; by apply harmless_streamed.
  - intros. by apply harmless_seal.
Qed.
Lemma holding_steady text held :
  Steady anything always (keeps_out t k) t (told events (streamed_until text) (holds held)) (harmless (streamed_until text)) (fun _ => False) (mild_for (holds held)).
Proof.
  apply told_steady; [apply holds_alone| |].
  - intros r. destruct r; try exact I; apply harmless_until.
  - intros. apply harmless_until.
Qed.
Lemma over_steady text held :
  Steady anything always (keeps_out t k) t (told events (told_all text held) always) (harmless (told_all text held)) (fun _ => False) (mild_for always).
Proof.
  apply told_steady; [done| |].
  - intros r. destruct r; try exact I; apply harmless_over.
  - intros. apply harmless_over.
Qed.

(** ** Appending *)

#[local] Abbreviation streaming := (fun text => told events (all_streamed text) nothing_held).
#[local] Abbreviation told_fresh := (fun text => told events (all_streamed text) fresh).

(** An error is a refusal of Slack's. *)
Definition or_refused {A : Type} (text text' : jstr) (r : result A) (e : engine) : Prop :=
  match r with Val _ => streaming text' e | Exn _ => told events (streamed_until text) nothing_held e end.

Lemma caught_ok (L : engine -> Prop) (p : cmd unit) e : stays L p -> L e ->
  wp (try_catch p (fun _ => skip_)) e (fun r e' => r = Val tt /\ L e').
Proof. intros Hp He. apply wp_try_catch. eapply wp_mono; [|by apply Hp]. by intros [[]|m] e'. Qed.

Lemma refused_noted text D r m e : told events (all_streamed text) D e -> told events (streamed_until text) D (noted (Got r (Exn m)) e).
Proof.
  intros He. rewrite <- (app_nil_r events). apply (told_noted t base events (all_streamed text) _ D (Got r (Exn m)) e); [|done].
  intros o Ho. split; [by apply streamed_to_app, all_streamed_to|]. exists r, m. apply elem_of_app. right. by left.
Qed.

Lemma ask_ok text r e : harmless (all_streamed text) r -> streaming text e -> wp (ask r) e (or_refused text text).
Proof.
  intros Hr He. pose proof (streaming_steady text nothing_held nothing_held_alone) as Hsteady.
  destruct (steady_issue _ _ _ _ _ _ _ (Steady := Hsteady) r Hr e He) as [Hg H1]. apply wp_call; [exact Hg|done|].
  intros a s1 now Hrely _ _ _. destruct (steady_back _ _ _ _ _ _ _ (Steady := Hsteady) r a (issue r e) s1 now Hr H1 Hrely I I) as [Hg2 H2].
  split; [exact Hg2|]. destruct a as [a|m]; [exact H2|]. apply refused_noted.
  eapply told_resumed; [apply nothing_held_alone|exact H1|exact Hrely].
Qed.

Lemma used_fresh taskId x : sm_streamedChars (fresh_message taskId x) = delete taskId (sm_streamedChars x).
Proof. unfold fresh_message. by destruct (_ !! _) as [[[f|] p]|]. Qed.

Lemma close_ok channel text e : streaming text e -> wp (closeStream k channel) e (fun r e' => r = Val tt /\ told_fresh text e').
Proof.
  intros He. unfold closeStream. apply wp_bind. split; [apply guar_out|]. cbn beta iota.
  set (e1 := on_streams (fresh_message k) e).
  assert (H1 : told_fresh text e1).
  { destruct (tolerant (mild := mild_for nothing_held) _ (gentle_fresh k)) as [Hq Hd]. destruct He as (Hr & HD & Hl). split_and!; [done| |done].
    split; [by apply (Hd e)|]. unfold e1. cbn. by rewrite used_fresh, lookup_delete_eq. }
  clearbody e1. apply wp_read. destruct (stream_of k e1) as [ts|]; [|done].
  apply wp_bind. split; [apply guar_out|]. cbn beta iota.
  pose proof (streaming_steady text fresh fresh_alone) as Hsteady. apply caught_ok; [|done].
  eapply stays_ask; first [exact Hsteady | by apply harmless_streamed].
Qed.

Lemma seal_ok channel text e : streaming text e -> wp (sealFence k channel) e (fun r e' => r = Val tt /\ streaming text e').
Proof.
  intros He. pose proof (streaming_steady text nothing_held nothing_held_alone) as Hsteady. unfold sealFence. apply wp_read.
  destruct (cursor_of k e ≫= _) as [[c f]|]; [|done]. destruct (stream_of k e) as [ts|]; [|done]. cbv zeta.
  apply caught_ok; [|done]. eapply stays_ask; first [exact Hsteady | apply harmless_seal]. eexists _, f. split; [|done]. destruct (jeqb _ _); auto.
Qed.

Lemma fresh_streaming text e : told_fresh text e -> streaming text e.
Proof. apply told_mono; [done|]. by intros x [H _]. Qed.

Lemma stale_ok channel text e : streaming text e -> wp (closeIfStale k channel) e (fun r e' => r = Val tt /\ streaming text e').
Proof.
  intros He. unfold closeIfStale. apply wp_read. case_bool_decide; [|done].
  apply wp_bind. split; [apply guar_out|]. cbn beta iota. apply wp_bind.
  eapply wp_mono; [|apply (seal_ok channel text)].
  2:{ apply told_quiet; [|done]. apply tolerant. auto with steady. }
  intros r e1 [-> H1]. eapply wp_mono; [|by apply close_ok]. intros r' e2 [-> H2]. split; [done|]. by apply fresh_streaming.
Qed.

Lemma ensure_ok channel threadTs text e : streaming text e ->
  wp (ensureStream options k channel threadTs) e (or_refused text text).
Proof.
  intros He. unfold ensureStream. apply wp_bind. eapply wp_mono; [|apply (stale_ok channel text e He)]. intros r e1 [-> H1].
  apply wp_read. cbv zeta. case_match; [exact H1|].
  apply wp_bind. eapply wp_mono; [|apply ask_ok; [by apply harmless_streamed|exact H1]].
  intros [ts|m] e2 H2; [|done]. apply wp_bind. split; [apply guar_out|]. cbn beta iota.
  apply told_quiet; [|done]. apply tolerant. auto with steady.
Qed.

(** Appending [rest] where [text] is shown: all of it, or a part of it until
    Slack refuses. *)
Definition appended_or_refused (text rest : jstr) (r : result unit) (e : engine) : Prop :=
  match r with
  | Val _ => streaming (text ++ rest) e
  | Exn _ => exists part, part `prefix_of` rest /\ told events (streamed_until (text ++ part)) nothing_held e
  end.

Lemma appended_more text part rest r e :
  appended_or_refused (text ++ part) rest r e -> appended_or_refused text (part ++ rest) r e.
Proof.
  destruct r as [u|m]; cbn; rewrite <- ?app_assoc; [done|]. intros (c & [d ->] & H). exists (part ++ c).
  split; [exists d; by rewrite app_assoc|]. by rewrite app_assoc.
Qed.

Lemma refused_at_once text rest r e : told events (streamed_until text) nothing_held e -> appended_or_refused text rest (Exn r) e.
Proof. intros H. exists []. rewrite app_nil_r. split; [apply prefix_nil|done]. Qed.

(** One chunk on its way. *)
Lemma chunk_sent channel threadTs text part used written pieces e :
  streaming text e -> (forall o, all_streamed text o -> shown (accepted o ++ [pieces]) (text ++ part)) ->
  wp (let* streamTs := ensureStream options k channel threadTs in
      ask (RqAppendStream channel streamTs pieces) ;;; update (on_streams (appended k used written))) e
    (fun r e' => match r with Val _ => streaming (text ++ part) e' | Exn _ => told events (streamed_until text) nothing_held e' end).
Proof.
  intros He Hshown. apply wp_bind. eapply wp_mono; [|by apply (ensure_ok channel threadTs text)].
  intros [ts|m] e1 H1; [|done]. apply wp_bind, wp_call; [apply guar_out|done|].
  assert (H2 : streaming text (issue (RqAppendStream channel ts pieces) e1)).
  { rewrite <- (app_nil_r events). apply (told_noted t base events (all_streamed text)); [|done]. intros o. by apply all_streamed_app. }
  intros a e2 now Hr _ _ _. split; [apply guar_out|].
  assert (H3 : streaming text (enter t now e2)) by (eapply told_resumed; [apply nothing_held_alone|exact H2|exact Hr]).
  destruct a as [u|m].
  - split; [apply guar_out|]. apply (told_quiet t base).
    { apply tolerant. auto with steady. }
    rewrite <- (app_nil_r events). apply (told_noted t base events (all_streamed text)); [|done].
    intros o Ho. unfold all_streamed. rewrite accepted_app. by apply Hshown.
  - by apply refused_noted.
Qed.

Lemma append_loop_ok channel threadTs fuel text rest e :
  streaming text e -> 2 * length rest - (if (0 <? used_chars k e)%Z then 0 else 1) <= fuel ->
  wp (append_loop options fuel k channel threadTs rest) e (appended_or_refused text rest).
Proof.
  revert text rest e. induction fuel as [|fuel IH]; intros text rest e He Hfuel.
  { destruct rest as [|c rest]; [cbn; by rewrite app_nil_r|]. cbn in Hfuel. destruct (0 <? used_chars k e)%Z; lia. }
  destruct rest as [|c rest']; [cbn; by rewrite app_nil_r|]. set (rest := c :: rest') in *.
  change (append_loop options (S fuel) k channel threadTs rest) with
    (read (fun e =>
        let used := used_chars k e in
        let cursor := default START (cursor_of k e) in
        let prefix := if bool_decide (k ∈ sm_streamReopen (en_streams e)) then reopen cursor else [] in
        let left := (eo_streamTextBudget options - used - Z.of_nat (length prefix))%Z in
        if ((0 <? used) && (left <? 1 + closeCost cursor))%Z then
          closeStream k channel ;;;
          append_loop options fuel k channel threadTs rest
        else
          let chunk := takeChunk rest (Z.max left 1) cursor in
          (if jeqb (ch_head chunk) [] then skip_
           else
             let* streamTs := ensureStream options k channel threadTs in
             ask (RqAppendStream channel streamTs (prefix ++ ch_head chunk)) ;;;
             update (on_streams (appended k used (length prefix + length (ch_head chunk))))) ;;;
          update (on_streams (fun x => set_streamCursor (<[k := ch_cursor chunk]> (sm_streamCursor x)) x)) ;;;
          (if jeqb (ch_rest chunk) [] then skip_ else closeStream k channel) ;;;
          append_loop options fuel k channel threadTs (ch_rest chunk))).
  apply wp_read. cbv zeta. set (used := used_chars k e) in *. set (cursor := default START (cursor_of k e)).
  set (prefix := if bool_decide _ then reopen cursor else []). set (left := (_ - _ - _)%Z).
  destruct (_ && _)%bool eqn:Hfull.
  - apply andb_true_iff in Hfull as [Hused _]. rewrite Hused in Hfuel. apply wp_bind.
    eapply wp_mono; [|by apply (close_ok channel text)]. intros r e1 [-> H1]. apply IH; [by apply fresh_streaming|].
    destruct H1 as (_ & [_ H0] & _). unfold used_chars. rewrite H0. cbn in Hfuel |- *. lia.
  - set (budget := Z.max left 1).
    assert (Hprefix : prefix = [] \/ prefix = reopen cursor) by (unfold prefix; destruct (bool_decide _); auto).
    pose proof (take_shrinks rest budget cursor ltac:(done)) as Hlt.
    destruct (shown_chunk rest budget cursor prefix Hprefix) as (part & Hpart & Hshown).
    set (chunk := takeChunk rest budget cursor) in *. rewrite Hpart.
    assert (Hnext : forall e1, streaming (text ++ part) e1 ->
      wp (update (on_streams (fun x => set_streamCursor (<[k := ch_cursor chunk]> (sm_streamCursor x)) x)) ;;;
          (if jeqb (ch_rest chunk) [] then skip_ else closeStream k channel) ;;;
          append_loop options fuel k channel threadTs (ch_rest chunk)) e1 (appended_or_refused text (part ++ ch_rest chunk))).
    { intros e1 H1. apply wp_bind. split; [apply guar_out|]. cbn beta iota. apply wp_bind.
      apply (wp_mono _ _ _ _ _ _ _ _ _ _ _ _ (fun r e' => r = Val tt /\ streaming (text ++ part) e')).
      - intros r e2 [-> H2]. eapply wp_mono; [|apply (IH (text ++ part)); [exact H2|case_match; lia]].
        intros r e3. apply appended_more.
      - set (e2 := on_streams _ e1). assert (H2 : streaming (text ++ part) e2).
        { apply told_quiet; [|done]. apply tolerant. auto with steady. }
        destruct (jeqb (ch_rest chunk) []); [done|]. eapply wp_mono; [|by apply (close_ok channel (text ++ part))].
        intros r e3 [-> H3]. split; [done|]. by apply fresh_streaming. }
    apply wp_bind. destruct (jeqb (ch_head chunk) []) eqn:Ehead.
    + apply Hnext. eapply told_mono; [|done|exact He]. intros o Ho. apply (Hshown _ _ Ho). by apply bool_decide_eq_true in Ehead.
    + eapply wp_mono; [|apply (chunk_sent channel threadTs text part); [exact He|intros o Ho; by apply Hshown]].
      intros [u|m] e1 H1; [by apply Hnext|by apply refused_at_once].
Qed.

Lemma append_ok channel threadTs lastChunk text rest e : streaming text e ->
  wp (appendWithRollover options k rest lastChunk channel threadTs) e (appended_or_refused text rest).
Proof.
  intros He. unfold appendWithRollover. apply wp_bind.
  eapply wp_mono; [|apply (append_loop_ok channel threadTs (2 * length rest) text rest e He); lia].
  intros [u|m] e1 H1; [|done]. destruct lastChunk; [|done].
  eapply wp_mono; [|by apply (close_ok channel (text ++ rest))]. intros r e2 [-> H2]. by apply fresh_streaming.
Qed.
End Answer.

(** ** The events of a task *)

Definition event_about (event : A2AEvent) : jstr :=
  match event with
  | AeTask task => at_id task
  | AeStatus taskId _ _ _ _ | AeArtifact taskId _ _ _ | AeActivity taskId _ => taskId
  end.

(** The agent's answer. *)
Definition answer_text (events : list A2AEvent) : jstr :=
  concat (omap (fun event => match event with AeArtifact _ text _ _ => Some text | _ => None end) events).

Lemma answer_text_app l1 l2 : answer_text (l1 ++ l2) = answer_text l1 ++ answer_text l2.
Proof. unfold answer_text. by rewrite omap_app, concat_app. Qed.
Lemma answer_text_other event : is_artifact event = false -> answer_text [event] = [].
Proof. by destruct event. Qed.

Section Events.
Context (options : EngineOptions) (positive_number : jsval -> bool).
Context (t : nat) (k : jstr) (base : list (nat * note_)).
#[local] Abbreviation anything := (fun _ _ _ => True).
#[local] Abbreviation always := (fun _ => True).
Definition about_task (t : nat) (src : source) (event : A2AEvent) (e : engine) : Prop := event_about event = k.
#[local] Abbreviation wp := (wp issue receive yielded enter ready anything about_task always (keeps_out t k) t).
#[local] Abbreviation told := (told t base).

(** Before the task is over, everything is streamed, or [held] is held back
    whole, of which the thread may have seen a part already. *)
Definition kept (text : jstr) (events : list A2AEvent) (e : engine) : Prop :=
  told events (all_streamed text) (nothing_held k) e \/
  exists streamed held part, text = streamed ++ held /\ part `prefix_of` held /\
    told events (streamed_until (streamed ++ part)) (holds k held) e.
Definition unfinished (events : list A2AEvent) (e : engine) : Prop := Forall (fun event => ends event = false) events /\ kept (answer_text events) events e.

(** Once it is over, all of it was streamed or posted. *)
Definition all_told (text : jstr) (o : list note_) : Prop :=
  exists streamed held part, text = streamed ++ held /\ part `prefix_of` held /\ told_all (streamed ++ part) held o.
Definition finished (events : list A2AEvent) (e : engine) : Prop :=
  exists l1 event l2, events = l1 ++ event :: l2 /\ Forall (fun event => ends event = false) l1 /\ ends event = true /\
    told events (all_told (answer_text l1)) always e.

Lemma all_told_app text o o' : all_told text o -> all_told text (o ++ o').
Proof. intros (s & h & p & H1 & H2 & H3). exists s, h, p. split_and!; [done..|]. by apply told_all_app. Qed.
Lemma harmless_all_told text r : harmless (all_told text) r.
Proof. intros o Ho. split; [|intros a]; by apply all_told_app. Qed.
#[export] Instance all_told_appends text : Appends (harmless (all_told text)).
Proof. intros c ts s. apply harmless_all_told. Qed.

Lemma all_told_steady events text :
  Steady anything always (keeps_out t k) t (told events (all_told text) always) (harmless (all_told text)) (fun _ => False) (mild_for always).
Proof.
  apply told_steady; [done| |].
  - intros r. destruct r; try exact I; apply harmless_all_told.
  - intros. apply harmless_all_told.
Qed.

(** Unless the post of what was held back is refused: it is in no table any
    more by then. *)
Definition refused_rest (channel threadTs held : jstr) (m : jstr) (o : list note_) : Prop :=
  Got (RqPostMessage channel threadTs held) (Exn m) ∈ o.
Definition refused_last (events : list A2AEvent) (text channel threadTs m : jstr) (e : engine) : Prop :=
  exists streamed held part, text = streamed ++ held /\ part `prefix_of` held /\
    told events (fun o => streamed_until (streamed ++ part) o /\ refused_rest channel threadTs held m o) always e.

(** Handing over what was held back. *)
#[local] Abbreviation told_over := (fun L events text channel threadTs (r : result unit) (e : engine) =>
  match r with
  | Val _ => told events (all_told text) always e
  | Exn m => L e \/ told events (all_told text) always e \/ refused_last events text channel threadTs m e
  end).

Lemma deliver_streamed_ok L events text channel threadTs e : told events (all_streamed text) (nothing_held k) e ->
  wp (deliver_buffered k channel threadTs) e (told_over L events text channel threadTs).
Proof.
  intros He. unfold deliver_buffered. apply wp_read. destruct He as (Hr & [Hoff Htext] & Hl). rewrite Htext.
  apply (told_mono t base events (all_streamed text) _ (nothing_held k)); [|done|done].
  intros o Ho. exists text, [], []. rewrite !app_nil_r. split_and!; [done|done|]. split_and!; [by apply all_streamed_to|by left|by left].
Qed.

Lemma deliver_held_ok L events streamed held part channel threadTs e :
  part `prefix_of` held -> told events (streamed_until (streamed ++ part)) (holds k held) e ->
  wp (deliver_buffered k channel threadTs) e (told_over L events (streamed ++ held) channel threadTs).
Proof.
  intros Hp He. unfold deliver_buffered. apply wp_read. destruct He as (Hr & [Hoff Htext] & l & Hl & Hh & Ho). rewrite Htext.
  assert (Hgiven : forall o', trim held = [] \/ posted held o' -> streamed_until (streamed ++ part) o' -> all_told (streamed ++ held) o').
  { intros o' Hdone [H1 H2]. exists streamed, held, part. split_and!; [done..|]. split_and!; [done|by right|done]. }
  apply wp_bind. split; [apply guar_out|]. cbn beta iota. set (e1 := on_streams _ e).
  assert (H1 : told events (streamed_until (streamed ++ part)) always e1) by (split_and!; [done|done|by exists l]).
  destruct (jeqb (trim held) []) eqn:Etrim.
  - apply (told_mono t base events (streamed_until (streamed ++ part)) _ always); [|done|done].
    intros o'. apply Hgiven. left. by apply bool_decide_eq_true in Etrim.
  - apply (wp_call issue receive yielded enter ready anything about_task always (keeps_out t k) t (RqPostMessage channel threadTs held) e1);
      [apply guar_out|done|]. intros a e2 now Hr2 _ _ _. split; [apply guar_out|].
    assert (H2 : told events (streamed_until (streamed ++ part)) always (enter t now e2)).
    { eapply (told_resumed t k base events _ always); [done| |exact Hr2].
      rewrite <- (app_nil_r events). apply (told_noted t base events (streamed_until (streamed ++ part)) _ always (Sent _)); [|done].
      intros o' Ho'. by apply streamed_until_app. }
    destruct a as [[]|m].
    + rewrite <- (app_nil_r events).
      apply (told_noted t base events (streamed_until (streamed ++ part)) _ always (Got (RqPostMessage channel threadTs held) (Val tt))); [|done].
      intros o' Ho'. apply Hgiven; [|by apply streamed_until_app]. right. exists channel, threadTs. apply elem_of_app. right. by left.
    + right. right. exists streamed, held, part. split_and!; [done..|]. rewrite <- (app_nil_r events).
      apply (told_noted t base events (streamed_until (streamed ++ part)) _ always (Got (RqPostMessage channel threadTs held) (Exn m))); [|done].
      intros o' Ho'. split; [by apply streamed_until_app|]. apply elem_of_app. right. by left.
Qed.

(** The status that ends the task. *)
Lemma apply_over events (L : engine -> Prop) fine mild text state channel threadTs messageText metadata e :
  Steady anything always (keeps_out t k) t L fine (fun _ => False) mild -> TERMINAL state = true ->
  (forall e, L e -> wp (deliver_buffered k channel threadTs) e (told_over L events text channel threadTs)) -> L e ->
  wp (applyStatus options positive_number k state channel threadTs messageText metadata) e (told_over L events text channel threadTs).
Proof.
  intros Hsteady Hstate Hdeliver He. unfold applyStatus. rewrite decide_False by (by intros ->). rewrite Hstate.
  apply wp_bind. apply (wp_mono _ _ _ _ _ _ _ _ _ _ _ _ (fun _ => L)).
  - intros [[]|m] e1 H1; [|by left]. rewrite decide_False by (by intros ->). apply wp_bind. cbn beta iota. change (
      wp (deliver_buffered k channel threadTs ;;; finish_task positive_number k state channel threadTs metadata) e1 (told_over L events text channel threadTs)).
    apply wp_bind. eapply wp_mono; [|by apply Hdeliver]. intros [[]|m] e2 H2; [|exact H2].
    pose proof (all_told_steady events text) as Hover.
    eapply wp_mono; [|apply (stays_finish positive_number anything about_task always (keeps_out t k) t (told events (all_told text) always) (harmless (all_told text)) (fun _ => False)); exact H2].
    intros [u|m] e3 H3; [exact H3|right; by left].
  - case_decide; [|done]. apply (stays_ask anything about_task always (keeps_out t k) t L fine (fun _ => False)); [|done].
    exact (steady_fine _ _ _ _ _ _ _ (Steady := Hsteady) (RqPostMessage _ _ _)).
Qed.

Lemma told_heard events P D event src e : (forall o, P o -> P (o ++ [Heard src (Some event)])) ->
  told events P D e -> told (events ++ [event]) P D (noted (Heard src (Some event)) e).
Proof. intros HP He. by apply (told_noted t base events P P D (Heard src (Some event)) e). Qed.

Context (channel threadTs : jstr) (sent : option jstr) (origin : turn_origin).
#[local] Abbreviation handle := (handleA2AEvent options positive_number channel threadTs sent origin).

Lemma last_event_ok events (L : engine -> Prop) fine mild text event e :
  Steady anything always (keeps_out t k) t L fine (fun _ => False) mild -> Tolerant mild ->
  event_about event = k -> ends event = true ->
  (forall e, L e -> wp (deliver_buffered k channel threadTs) e (told_over L events text channel threadTs)) -> L e ->
  wp (handle event) e (told_over L events text channel threadTs).
Proof.
  intros Hsteady Htol Hk Hends Hdeliver He.
  destruct event as [task|taskId ctx state messageText metadata|taskId x app lastChunk|taskId activities]; try done;
    cbn [event_about ends handleA2AEvent] in *.
  - destruct (at_status task) as [[state parts]|]; [|done]. rewrite Hk. apply wp_bind. split; [apply guar_out|]. cbn beta iota.
    eapply apply_over; [exact Hsteady|done|done|].
    apply (steady_quiet _ _ _ _ _ _ _ (Steady := Hsteady)); [|done]. apply tolerant. auto with steady.
  - rewrite Hk. by eapply apply_over.
Qed.

(** What came before the event that ends the task. *)
Fixpoint before_end (events : list A2AEvent) : list A2AEvent :=
  match events with
  | [] => []
  | event :: rest => if ends event then [] else event :: before_end rest
  end.

Definition phase (events : list A2AEvent) (r : result unit) (e : engine) : Prop :=
  match r with
  | Val _ => unfinished events e \/ finished events e
  | Exn m => kept (answer_text (before_end events)) events e \/ finished events e \/ refused_last events (answer_text (before_end events)) channel threadTs m e
  end.

Lemma before_end_open l : Forall (fun event => ends event = false) l -> before_end l = l.
Proof. induction 1 as [|event l H _ IH]; cbn; [done|]. by rewrite H, IH. Qed.
Lemma before_end_at l event rest : Forall (fun event => ends event = false) l -> ends event = true -> before_end (l ++ event :: rest) = l.
Proof. intros H He. induction H as [|x l Hx _ IH]; cbn; [by rewrite He|]. by rewrite Hx, IH. Qed.

Lemma over_phase (L : engine -> Prop) events event r e :
  (forall e, L e -> kept (answer_text events) (events ++ [event]) e) -> Forall (fun event => ends event = false) events -> ends event = true ->
  told_over L (events ++ [event]) (answer_text events) channel threadTs r e -> phase (events ++ [event]) r e.
Proof.
  intros HL H1 H2 H3. destruct r as [u|m]; cbn [phase].
  - right. by exists events, event, [].
  - rewrite before_end_at by done.
    destruct H3 as [H3|[H3|H3]]; [left; by apply HL|right; left; by exists events, event, []|by right; right].
Qed.

Lemma open_phase events r e : Forall (fun event => ends event = false) events -> kept (answer_text events) events e -> phase events r e.
Proof. intros H1 H2. destruct r as [u|m]; left; [by split|by rewrite before_end_open]. Qed.

Lemma hold_ok events shown_text text e : told events (streamed_until shown_text) (nothing_held k) e ->
  wp (abandonStream k ;;; update (on_streams (buffer k text))) e
    (fun r e' => r = Val tt /\ told events (streamed_until shown_text) (holds k text) e').
Proof.
  intros (Hr & [_ Hnone] & Hl). split; [apply guar_out|]. split; [apply guar_out|]. split; [apply guar_out|]. split; [done|].
  split_and!; [done| |done]. split; cbn; [by apply elem_of_union_l, elem_of_singleton|]. by rewrite Hnone, lookup_insert_eq.
Qed.

Lemma artifact_streamed events text app lastChunk e :
  Forall (fun event => ends event = false) (events ++ [AeArtifact k text app lastChunk]) ->
  told (events ++ [AeArtifact k text app lastChunk]) (all_streamed (answer_text events)) (nothing_held k) e ->
  wp (handle (AeArtifact k text app lastChunk)) e (phase (events ++ [AeArtifact k text app lastChunk])).
Proof.
  set (event := AeArtifact k text app lastChunk). intros Hopen He.
  assert (Htext : answer_text (events ++ [event]) = answer_text events ++ text) by (rewrite answer_text_app; cbn; by rewrite app_nil_r).
  cbn [handleA2AEvent event]. apply wp_read. pose proof He as (_ & [Hoff _] & _). rewrite bool_decide_eq_false_2 by done.
  apply wp_bind. eapply wp_mono; [|apply (stale_ok t k base (events ++ [event]) about_task channel (answer_text events) e He)].
  intros r e1 [-> H1]. apply wp_try_catch.
  eapply wp_mono; [|apply (append_ok options t k base (events ++ [event]) about_task channel threadTs lastChunk (answer_text events) text e1 H1)].
  intros [u|m] e2 H2.
  - left. split; [done|]. left. by rewrite Htext.
  - destruct H2 as (part & Hpart & H2). eapply wp_mono; [|apply (hold_ok (events ++ [event]) (answer_text events ++ part) text e2 H2)]. intros r e3 [-> H3].
    left. split; [done|]. right. exists (answer_text events), text, part. by rewrite Htext.
Qed.

(** Everything was streamed so far. *)
Lemma streaming_event events event e :
  event_about event = k -> Forall (fun event => ends event = false) events ->
  told (events ++ [event]) (all_streamed (answer_text events)) (nothing_held k) e ->
  wp (handle event) e (phase (events ++ [event])).
Proof.
  intros Hk Hopen He. pose proof (streaming_steady t k base (events ++ [event]) (answer_text events) (nothing_held k) (nothing_held_alone k)) as Hsteady.
  destruct (ends event) eqn:Hends.
  { eapply wp_mono; [|eapply last_event_ok; [exact Hsteady|apply _|done|done| |exact He]].
    - intros r e1. apply over_phase; [|done..]. intros e2 H2. by left.
    - intros e1 H1. by apply deliver_streamed_ok. }
  assert (Hopen' : Forall (fun event => ends event = false) (events ++ [event])) by (apply Forall_app; split; [done|by constructor]).
  destruct (is_artifact event) eqn:Hart.
  - destruct event as [| |taskId text app lastChunk|]; try done. cbn in Hk. subst taskId. by apply artifact_streamed.
  - eapply wp_mono; [|apply (stays_openEvent options positive_number anything about_task always (keeps_out t k) t
      (told (events ++ [event]) (all_streamed (answer_text events)) (nothing_held k)) (harmless (all_streamed (answer_text events))) (fun _ => False));
      [done|done|exact He]].
    intros r e1 H1. apply open_phase; [done|]. left. by rewrite answer_text_app, (answer_text_other event Hart), app_nil_r.
Qed.

(** Some of it is held back. *)
Lemma holding_event events event streamed held part e :
  event_about event = k -> Forall (fun event => ends event = false) events ->
  answer_text events = streamed ++ held -> part `prefix_of` held ->
  told (events ++ [event]) (streamed_until (streamed ++ part)) (holds k held) e ->
  wp (handle event) e (phase (events ++ [event])).
Proof.
  intros Hk Hopen Htext Hpart He. pose proof (holding_steady t k base (events ++ [event]) (streamed ++ part) held) as Hsteady.
  destruct (ends event) eqn:Hends.
  { eapply wp_mono; [|eapply last_event_ok; [exact Hsteady|apply _|done|done| |exact He]].
    - intros r e1. apply over_phase; [|done..]. intros e2 H2. right. by exists streamed, held, part.
    - intros e1 H1. rewrite Htext. by eapply deliver_held_ok. }
  assert (Hopen' : Forall (fun event => ends event = false) (events ++ [event])) by (apply Forall_app; split; [done|by constructor]).
  destruct (is_artifact event) eqn:Hart.
  - destruct event as [| |taskId text app lastChunk|]; try done. cbn in Hk. subst taskId. cbn [handleA2AEvent]. apply wp_read.
    pose proof He as (_ & [Hoff Hheld] & _). rewrite bool_decide_eq_true_2 by done. split; [apply guar_out|].
    left. split; [done|]. right. exists streamed, (held ++ text), part. split_and!.
    + rewrite answer_text_app, Htext, <- app_assoc. cbn. by rewrite app_nil_r.
    + by apply prefix_app_r.
    + destruct He as (Hr & _ & Hl). split_and!; [done| |done]. split; [done|]. cbn. by rewrite Hheld, lookup_insert_eq.
  - eapply wp_mono; [|apply (stays_openEvent options positive_number anything about_task always (keeps_out t k) t
      (told (events ++ [event]) (streamed_until (streamed ++ part)) (holds k held)) (harmless (streamed_until (streamed ++ part))) (fun _ => False));
      [done|done|exact He]].
    intros r e1 H1. apply open_phase; [done|]. right. exists streamed, held, part.
    by rewrite answer_text_app, (answer_text_other event Hart), app_nil_r.
Qed.

(** The task is over. *)
Lemma finished_event events event e :
  (exists l1 last l2, events = l1 ++ last :: l2 /\ Forall (fun event => ends event = false) l1 /\ ends last = true /\
    told (events ++ [event]) (all_told (answer_text l1)) always e) ->
  wp (handle event) e (phase (events ++ [event])).
Proof.
  intros (l1 & last & l2 & -> & H1 & H2 & He). pose proof (all_told_steady ((l1 ++ last :: l2) ++ [event]) (answer_text l1)) as Hsteady.
  eapply wp_mono; [|apply (stays_handleA2A options positive_number anything about_task always (keeps_out t k) t
    (told ((l1 ++ last :: l2) ++ [event]) (all_told (answer_text l1)) always) (harmless (all_told (answer_text l1))) (fun _ => False)); exact He].
  intros r e1 H. assert (Hf : finished ((l1 ++ last :: l2) ++ [event]) e1) by (exists l1, last, (l2 ++ [event]); by rewrite <- app_assoc in H |- *).
  destruct r as [u|m]; [by right|right; by left].
Qed.

Lemma unfinished_app events e l1 event l2 : unfinished events e -> events = l1 ++ event :: l2 -> ends event = true -> False.
Proof.
  intros [H _] -> Hends. apply Forall_app in H as [_ H]. apply Forall_cons in H as [H _]. congruence.
Qed.

(** Resumed by the next event, or by the end of the stream. *)
Lemma resumed_phase events e e1 now src ev (H : unfinished events e \/ finished events e) : keeps_out t k t e e1 ->
  let e2 := yielded src ev (enter t now e1) in
  match ev with
  | Some event => event_about event = k -> wp (handle event) e2 (phase (events ++ [event]))
  | None => unfinished events e2 \/ finished events e2
  end.
Proof.
  intros Hr e2.
  assert (Hnoted : forall P D, (forall x x', alone k x x' -> D x -> D x') -> (forall o, P o -> P (o ++ [Heard src ev])) ->
    told events P D e -> told (events ++ heard [Heard src ev]) P D e2).
  { intros P D Ha HP He. apply (told_noted t base events P P D); [done|]. by eapply told_resumed. }
  assert (Hstreamed : forall text o, all_streamed text o -> all_streamed text (o ++ [Heard src ev])) by (intros; by apply all_streamed_app).
  assert (Huntil : forall text o, streamed_until text o -> streamed_until text (o ++ [Heard src ev])) by (intros; by apply streamed_until_app).
  destruct H as [[Hopen [He|(streamed & held & part & Htext & Hpart & He)]]|(l1 & last & l2 & E & H1 & H2 & He)].
  - apply (Hnoted _ _ (nothing_held_alone k) (Hstreamed _)) in He. destruct ev as [event|].
    + intros Hk. by apply streaming_event.
    + cbn in He. rewrite app_nil_r in He. left. split; [done|]. by left.
  - apply (Hnoted _ _ (holds_alone k held) (Huntil _)) in He. destruct ev as [event|].
    + intros Hk. by apply (holding_event events event streamed held part).
    + cbn in He. rewrite app_nil_r in He. left. split; [done|]. right. by exists streamed, held, part.
  - apply (Hnoted _ always ltac:(done) (fun o => all_told_app _ o [Heard src ev])) in He. destruct ev as [event|].
    + intros Hk. apply finished_event. by exists l1, last, l2.
    + cbn in He. rewrite app_nil_r in He. right. by exists l1, last, l2.
Qed.

Lemma pump_tells src e : en_running e = t -> en_log e = base -> nothing_held k (en_streams e) ->
  wp (pump options positive_number src channel threadTs sent origin) e
    (fun r e' => exists events, phase events r e').
Proof.
  intros Hr Hl Hd. unfold pump. apply wp_bind. split; [apply guar_out|]. cbn beta iota.
  apply (wp_for_each _ _ _ _ _ _ _ _ _ _ (fun e => exists events, unfinished events e \/ finished events e)).
  - exists []. left. split; [done|]. left. split_and!; [done|done|]. exists [(t, Opened src)]. rewrite own_mine.
    split_and!; [cbn; by rewrite Hl, Hr|done|apply shown_nothing].
  - done.
  - intros e1 e2 now event [events H] Hrely _ Hk. split; [apply guar_out|].
    eapply wp_mono; [|apply (resumed_phase events e1 e2 now src (Some event) H Hrely Hk)].
    intros [u|m] e3 H3; by exists (events ++ [event]).
  - intros e1 e2 now [events H] Hrely _. split; [apply guar_out|]. intros r. exists events.
    pose proof (resumed_phase events e1 e2 now src None H Hrely) as Hlast. destruct r as [u|m]; [exact Hlast|].
    destruct Hlast as [[H1 H2]|H1]; [by apply open_phase|right; by left].
Qed.
End Events.

Lemma unended (events : list A2AEvent) : Forall (fun event => ends event = false) events -> existsb ends events = false.
Proof. induction 1 as [|event events H _ IH]; [done|]. cbn. by rewrite H. Qed.

Definition accounted (k : jstr) (channel threadTs : jstr) (r : result unit) (events : list A2AEvent) (o : list note_) (x : streams) : Prop :=
  exists streamed held part pieces rest,
    answer_text (before_end events) = streamed ++ held /\ part `prefix_of` held /\
    accepted o = pieces ++ rest /\ shown pieces (streamed ++ part) /\
    (held = [] \/ refused o) /\
    (r = Val tt -> existsb ends events = true -> trim held = [] \/ posted held o) /\
    ((trim held = [] \/ posted held o) \/
     (k ∈ sm_streamOff x /\ sm_streamlessText x !! k = Some held) \/
     (exists m, r = Exn m /\ Got (RqPostMessage channel threadTs held) (Exn m) ∈ o)).

Lemma kept_accounted t k base channel threadTs r events e :
  (r = Val tt -> existsb ends events = false) -> kept t k base (answer_text (before_end events)) events e ->
  exists l, en_log e = base ++ l /\ heard (own t l) = events /\ accounted k channel threadTs r events (own t l) (en_streams e).
Proof.
  intros Hopen [(_ & _ & l & Hl & Hh & Ho)|(streamed & held & part & Ht & Hp & _ & Hheld & l & Hl & Hh & (pieces & rest & Ha & Hs) & Hr)];
    exists l; (split_and!; [done..|]).
  - exists (answer_text (before_end events)), [], [], (accepted (own t l)), []. rewrite !app_nil_r.
    split_and!; [by rewrite ?app_nil_r|done|by rewrite ?app_nil_r|by rewrite ?app_nil_r|by left|by left|by left; left].
  - exists streamed, held, part, pieces, rest. split_and!; [done..|by right| |by right; left].
    intros Hv He. by rewrite Hopen in He.
Qed.

Lemma phase_accounted t k base channel threadTs events r e :
  phase t k base channel threadTs events r e ->
  exists l, en_log e = base ++ l /\ heard (own t l) = events /\ accounted k channel threadTs r events (own t l) (en_streams e).
Proof.
  assert (Hover : finished t base events e ->
    exists l, en_log e = base ++ l /\ heard (own t l) = events /\ accounted k channel threadTs r events (own t l) (en_streams e)).
  { intros (l1 & last & l2 & E & H1 & H2 & _ & _ & l & Hl & Hh & (streamed & held & part & Ht & Hp & (pieces & rest & Ha & Hs) & Hr & Hd)).
    exists l. split_and!; [done..|]. exists streamed, held, part, pieces, rest. rewrite E, before_end_at by done. split_and!; [done..|by left]. }
  intros H. destruct r as [[]|m]; cbn [phase] in H.
  - destruct H as [[H1 H2]|H]; [|by apply Hover]. apply kept_accounted; [intros _; by apply unended|]. by rewrite before_end_open.
  - destruct H as [H|[H|(streamed & held & part & Ht & Hp & _ & _ & l & Hl & Hh & [(pieces & rest & Ha & Hs) Hr] & Hx)]];
      [by apply kept_accounted|by apply Hover|].
    exists l. split_and!; [done..|]. exists streamed, held, part, pieces, rest. split_and!; [done..|by right|done|]. right. right. by exists m.
Qed.

(** C11: no part of an answer is lost unnoticed. A call consumes a task's
    stream, whatever other calls do in between to anything but that task's
    entries, whichever of its requests Slack refuses, and however it comes to
    its end. The answer's text, up to the event that ends the task, is a first
    part, all of which Slack took into its streamed messages, in order and but
    for blanks and fence lines at the cuts, and a rest that was held back,
    which is empty unless Slack refused something; the thread may have been
    shown a beginning of the rest already. If the call returns and the task
    has ended, the rest was posted whole unless it is blank. However the call
    comes out, the rest was posted or is blank, or is still held back, or its
    post was itself refused: then nothing holds it any more, and that refusal
    is the exception the call ends with. *)
Theorem answer_is_never_lost options positive_number t k src channel threadTs sent origin s turns s' l r :
  k ∉ sm_streamOff (en_streams s) -> sm_streamlessText (en_streams s) !! k = None -> en_running s = t ->
  Forall (turn_ok (fun _ _ _ => True) (about_task k) (fun _ => True) (keeps_out t k) t) turns ->
  played issue receive yielded enter ready t (pump options positive_number src channel threadTs sent origin) s turns
    = Some (s', of_result r) ->
  en_log s' = en_log s ++ l ->
  exists streamed held part pieces rest,
    answer_text (before_end (heard (own t l))) = streamed ++ held /\ part `prefix_of` held /\
    accepted (own t l) = pieces ++ rest /\ shown pieces (streamed ++ part) /\
    (held = [] \/ refused (own t l)) /\
    (r = Val tt -> existsb ends (heard (own t l)) = true -> trim held = [] \/ posted held (own t l)) /\
    ((trim held = [] \/ posted held (own t l)) \/
     (k ∈ sm_streamOff (en_streams s') /\ sm_streamlessText (en_streams s') !! k = Some held) \/
     (exists m, r = Exn m /\ Got (RqPostMessage channel threadTs held) (Exn m) ∈ own t l)).
Proof.
  intros Hoff Hnone Hrun Hturns Hplayed Hlog.
  pose proof (pump_tells options positive_number t k (en_log s) channel threadTs sent origin src s Hrun eq_refl (conj Hoff Hnone)) as Hwp.
  pose proof (played_sound issue receive yielded enter ready (fun _ _ _ => True) (about_task k) (fun _ => True) (keeps_out t k) t
    _ _ s s' turns _ (fun _ _ _ => I) Hwp Hturns Hplayed) as Hend.
  assert (Hphase : exists events, phase t k (en_log s) channel threadTs events r s') by (by destruct r). clear Hend.
  destruct Hphase as [events H%phase_accounted].
  destruct H as (l' & Hl & <- & H). rewrite Hlog in Hl. apply app_inv_head in Hl as <-. exact H.
Qed.

(** Slack refuses the second part of an answer; another call goes on in
    between. *)
Definition refusing (r : request) : result (answer r) :=
  match r with RqAppendStream _ _ _ => Exn (js "msg_too_long") | r => obliging r end.
Definition another (e : engine) : engine := noted (Sent RqFetchCard) (set_running 1 e).
Definition does (others : engine -> engine) (answers : forall r, result (answer r)) : (engine -> engine) * Z * input A2AEvent answer :=
  (others, 1000%Z, Reply answers).
Definition brings (event : A2AEvent) : (engine -> engine) * Z * input A2AEvent answer := (id, 1000%Z, Yield event).
Definition demo_answer : list ((engine -> engine) * Z * input A2AEvent answer) :=
  [brings (AeTask (mkATask (js "t1") (js "ctx") (Some (TASK_STATE_WORKING, None)) [])); does id obliging;
   brings (AeArtifact (js "t1") (js "hello ") false false); does id obliging; does another obliging;
   brings (AeArtifact (js "t1") (js "wide ") true false); does id refusing;
   brings (AeArtifact (js "t1") (js "world") true true);
   brings (AeStatus (js "t1") (js "ctx") TASK_STATE_COMPLETED None VUndef); does id obliging; does another obliging; does id obliging;
   (id, 1000%Z, Finish)].
Definition demo_told : option (engine * cmd unit) :=
  played issue receive yielded enter ready 0
    (pump harness_options no_number (SrcResubscribe (js "t1")) (js "C1") (js "1.0") None (mkOrigin None None None))
    (new_engine new_state) demo_answer.
Definition demo_end : engine := match demo_told with Some (s, _) => s | None => new_engine new_state end.

(** The same with the last post refused. *)
Definition refusing_posts (r : request) : result (answer r) :=
  match r with RqPostMessage _ _ _ => Exn (js "ratelimited") | r => refusing r end.
Definition demo_refused : option (engine * cmd unit) :=
  played issue receive yielded enter ready 0
    (pump harness_options no_number (SrcResubscribe (js "t1")) (js "C1") (js "1.0") None (mkOrigin None None None))
    (new_engine new_state) (take 8 demo_answer ++ [brings (AeStatus (js "t1") (js "ctx") TASK_STATE_COMPLETED None VUndef); does id refusing_posts]).
Definition demo_refused_end : engine := match demo_refused with Some (s, _) => s | None => new_engine new_state end.

(** A rest whose post is refused is held back nowhere any more. *)
Lemma refused_rest_is_gone :
  demo_refused = Some (demo_refused_end, Throw (js "ratelimited")) /\
  sm_streamlessText (en_streams demo_refused_end) !! js "t1" = None /\
  Got (RqPostMessage (js "C1") (js "1.0") (js "wide world")) (Exn (js "ratelimited")) ∈ own 0 (en_log demo_refused_end).
Proof. split_and!; [by vm_compute|by vm_compute|]. apply list_elem_of_lookup. exists 15. by vm_compute. Qed.

Lemma answer_is_never_lost_witness :
  accepted (own 0 (en_log demo_end)) = [js "hello "] /\ posted (js "wide world") (own 0 (en_log demo_end)) /\
  accounted (js "t1") (js "C1") (js "1.0") (Val tt) (heard (own 0 (en_log demo_end))) (own 0 (en_log demo_end)) (en_streams demo_end).
Proof.
  split_and!; [by vm_compute|..].
  { exists (js "C1"), (js "1.0"). apply list_elem_of_lookup. exists 15. by vm_compute. }
  refine (answer_is_never_lost harness_options no_number 0 (js "t1") (SrcResubscribe (js "t1")) (js "C1") (js "1.0") None
    (mkOrigin None None None) (new_engine new_state) demo_answer demo_end (en_log demo_end) (Val tt) _ eq_refl eq_refl _ _ eq_refl).
  - by apply not_elem_of_empty.
  - repeat (apply Forall_cons; split); [..|apply Forall_nil; exact I]; (split; [|first [exact I | intros; exact I | by intros src s]]);
      (intros s _; split; [|exact I]); (intros _; split; [|by split]); first [reflexivity | exists [(1, Sent RqFetchCard)]; split; [done|by repeat constructor]].
  - vm_compute. reflexivity.
Defined.
