(* ===== verification/SlackHttp.v ===== *)
(** [apps/slack/src/http.ts]: the bridge's inbound surface, on which an agent
    reads files and conversations and posts on its own bot token. Each route
    is a program over the bridge's tables; what it awaits of Slack is a
    request the world answers. Express parses requests and writes responses,
    and answers 500 where a handler throws before its first await. *)

From S2P Require Import Prelude A2A Envelope Json SessionId Async Values Numbers SlackState.
#[local] Open Scope Z_scope.

(** ** Constants and helpers *)

Definition PEER_TAGS_HEADER : jstr := js "x-thicket-peer-tags".

Definition parsePeerTags (value : option jstr) : list jstr :=
  match value with
  | None => []
  | Some v => filter (fun tag => tag <> []) (trim <$> split (js ",") v)
  end.

Definition SLACK_REFUSALS : list jstr :=
  js <$> ["not_in_channel"; "channel_not_found"; "is_archived"; "restricted_action"; "cannot_dm_bot"]%string.
Definition REACTIONS_PER_MINUTE : nat := 20.
Definition READ_LIMIT_DEFAULT : Z := 50.
Definition READ_LIMIT_MAX : Z := 200.
Definition SEARCH_COUNT_DEFAULT : Z := 20.
Definition SEARCH_COUNT_MAX : Z := 100.

(** [EMOJI_NAME.test]. *)
Definition emoji_unit (c : N) : bool :=
  ((97 <=? c) && (c <=? 122) || (48 <=? c) && (c <=? 57))%N || bool_decide (c ∈ js "_+'-").
Definition EMOJI_NAME (s : jstr) : bool := match s with [] => false | _ => forallb emoji_unit s end.

(** [replace(/^:|:$/g, "")]. *)
Definition strip_colons (s : jstr) : jstr :=
  let t := match s with 58%N :: t => t | _ => s end in
  match reverse t with 58%N :: r => reverse r | _ => t end.

(** A string property, where it is one. *)
Definition str_field (k : jstr) (v : jsval) : list (jstr * jsval) := match v with VStr s => [(k, VStr s)] | _ => [] end.
Definition str_param (k : jstr) (v : jsval) : list (jstr * jstr) := match v with VStr s => [(k, s)] | _ => [] end.
Definition is_true_bool (v : jsval) : bool := match v with VBool true => true | _ => false end.
Definition str_or_empty (v : jsval) : jstr := match v with VStr s => s | _ => [] end.

(** [(v ?? []).map(f)]: [None] is the [TypeError] of what has no [map], or of
    an entry [f] cannot read. *)
Definition map_or_empty (f : jsval -> option jsval) (v : jsval) : option jsval :=
  match or_else v (VArr []) with VArr l => VArr <$> mapM f l | _ => None end.

Definition trim_file (file : jsval) : option jsval :=
  id ← get file (js "id");
  Some (VObj [(js "id", VStr (string_of id)); (js "name", VStr (string_of (prop file (js "name"))))]).

Definition trimMessage (raw : jsval) : option jsval :=
  ts ← get raw (js "ts");
  files ← match prop raw (js "files") with VArr l => (fun fs => [(js "files", VArr fs)]) <$> mapM trim_file l | _ => Some [] end;
  Some (VObj ([(js "ts", VStr (string_of ts))]
    ++ str_field (js "thread_ts") (prop raw (js "thread_ts")) ++ str_field (js "user") (prop raw (js "user"))
    ++ str_field (js "bot_id") (prop raw (js "bot_id")) ++ str_field (js "subtype") (prop raw (js "subtype"))
    ++ [(js "text", VStr (str_or_empty (prop raw (js "text"))))]
    ++ (match prop raw (js "reply_count") with VNum n => if 0 <? n then [(js "reply_count", VNum n)] else [] | _ => [] end)
    ++ files)).

Definition nextCursor (body : jsval) : list (jstr * jsval) :=
  let cursor := get_opt (prop body (js "response_metadata")) (js "next_cursor") in
  if defined cursor && negb (is_str cursor []) then [(js "next_cursor", cursor)] else [].

Definition clampLimit (raw : jsval) (fallback max : Z) : Z :=
  match Number raw with
  | Finite false m e => if m =? 0 then fallback else Z.min (floor_of m e) max
  | _ => fallback
  end.

(** ** What is awaited *)

(** A Web API call is a POST whose response is read as JSON; [params] is its
    form. A download's body is piped into the response; the answer to that
    is whether it broke off, and then whether the headers were out. *)
Record api_answer := mkAnswer {
  aa_status : Z;
  aa_body : jsval }.
Record download := mkDownload {
  dl_ok : bool;
  dl_status : Z;
  dl_body : bool;
  dl_length : option jstr }.

Inductive request :=
| RqSlack (token method : jstr) (params : list (jstr * jstr))
| RqUpload (url : jstr) (bytes : list N)
| RqDownload (url token : jstr)
| RqPipe (headers : list (jstr * jstr)).

Definition answer (r : request) : Type :=
  match r with
  | RqSlack _ _ _ => api_answer
  | RqUpload _ _ => bool * Z
  | RqDownload _ _ => download
  | RqPipe _ => option bool
  end.

(** ** State *)

(** What is noted of a call: what it awaits, the answers, the responses it
    sends, Express's own error pages, and a connection cut off. *)
Inductive note_ :=
| Sent (r : request)
| Got (r : request) (a : result (answer r))
| Responded (status : Z) (body : jsval)
| Errored (status : Z)
| Destroyed.

Record surface := mkSurface {
  sf_store : BridgeState;
  sf_reactions : gmap jstr (list Z);
  sf_now : Z;
  sf_running : nat;
  sf_log : list (nat * note_) }.

Definition new_surface (store : BridgeState) : surface := mkSurface store ∅ 0 0%nat [].
Definition set_reactions (v : gmap jstr (list Z)) (x : surface) : surface := mkSurface (sf_store x) v (sf_now x) (sf_running x) (sf_log x).
Definition noted (n : note_) (x : surface) : surface :=
  mkSurface (sf_store x) (sf_reactions x) (sf_now x) (sf_running x) (sf_log x ++ [(sf_running x, n)]).

Definition issue (r : request) : surface -> surface := noted (Sent r).
Definition receive (r : request) (a : result (answer r)) : surface -> surface := noted (Got r a).
Definition yielded (src : Empty_set) (ev : option Empty_set) (x : surface) : surface := x.
Definition enter (t : nat) (now : Z) (x : surface) : surface := mkSurface (sf_store x) (sf_reactions x) now t (sf_log x).
Definition ready (r : request) (x : surface) : bool := true.

(** The notes of one call, and whether one tells that a response is out. *)
Definition own (t : nat) (x : surface) : list note_ := omap (fun e => if decide (fst e = t) then Some (snd e) else None) (sf_log x).
Definition is_response (n : note_) : bool :=
  match n with
  | Responded _ _ | Errored _ => true
  | Got r a =>
      match r return result (answer r) -> bool with
      | RqPipe _ => fun a => match a with Val None | Val (Some true) => true | _ => false end
      | _ => fun _ => false
      end a
  | _ => false
  end.
Definition headersSent (x : surface) : bool := existsb is_response (own (sf_running x) x).

Abbreviation cmd := (prog surface Empty_set Empty_set answer).
Definition ask (r : request) : cmd (answer r) := call r.

(** [res.status(status).json(body)]. *)
Definition respond (status : Z) (body : jsval) : cmd unit := update (noted (Responded status body)).
Definition errored (status : Z) : cmd unit := update (noted (Errored status)).
Definition error_body (error : jstr) : jsval := VObj [(js "error", VStr error)].

Definition TypeError : jstr := js "TypeError".
Definition of_option {A : Type} (o : option A) : cmd A := match o with Some a => Ret a | None => Throw TypeError end.

#[local] Open Scope async_scope.

(** [(async () => { p })().catch(…)], which answers unless an answer is out. *)
Definition or_unreachable (message : jstr) (p : cmd unit) : cmd unit :=
  try_catch p (fun _ => read (fun x => if headersSent x then skip_ else respond 502 (error_body message))).

(** ** Requests to the surface *)

(** A body as [express.json] and [express.raw] leave it: parsed, with
    [VUndef] and no bytes where there was none, or refused with a status. *)
Inductive parsed (A : Type) :=
| Parsed (body : A)
| Refused (status : Z).
Arguments Parsed {A} body.
Arguments Refused {A} status.

Inductive http_request :=
| PostMessages (body : parsed jsval)
| PostFiles (query : jsval) (body : parsed (list N))
| PostReactions (body : parsed jsval)
| GetOrigin (query : jsval)
| GetHistory (query : jsval)
| GetReplies (query : jsval)
| GetSearch (query : jsval)
| GetChannels (query : jsval)
| GetUsers (query : jsval)
| GetFile (fileId : jstr).

Record FileServerOptions := mkFileServer {
  fo_agentByTag : gmap jstr jstr;
  fo_botTokenFor : jstr -> option jstr }.

Section Server.
Context (options : FileServerOptions).
(** SHA-1, and the platform's [toLowerCase]. *)
Context (sha1 : list N -> list N) (lower : jstr -> jstr).

(** The agent the first tag names that names one. *)
Definition identified (peer_tags : option jstr) : option jstr :=
  head (omap (fun tag => fo_agentByTag options !! tag) (parsePeerTags peer_tags)).

Definition identify (peer_tags : option jstr) (next : jstr -> cmd unit) : cmd unit :=
  match identified peer_tags with
  | Some agent => next agent
  | None =>
      let tags := parsePeerTags peer_tags in
      respond 403 (error_body
        (if bool_decide (tags = []) then js "peer identity missing: requests must arrive through netd"
         else js "peer not authorized: tags [" ++ join_with (js ", ") tags ++ js "] name no agent in this bridge"))
  end.

Definition with_body {A : Type} (body : parsed A) (next : A -> cmd unit) : cmd unit :=
  match body with Parsed b => next b | Refused status => errored status end.

(** [inl] is a body that says [ok], [inr] the error. *)
Definition slackCall (agent method : jstr) (params : list (jstr * jstr)) : cmd (jsval + jstr) :=
  match fo_botTokenFor options agent with
  | None => Ret (inr (js "no credential for this agent"))
  | Some token =>
      let* response := ask (RqSlack token method params) in
      let* ok := of_option (get (aa_body response) (js "ok")) in
      Ret (if is_true_bool ok then inl (aa_body response)
           else inr (to_string (or_else (prop (aa_body response) (js "error"))
                                  (VStr (js "slack returned " ++ show_Z (aa_status response))))))
  end.

Definition turnIn (agent channel threadTs : jstr) (store : BridgeState) : option InFlightTask :=
  find (fun task => jeqb (if_agent task) agent && jeqb (if_channel task) channel && jeqb (if_threadTs task) threadTs)
    (allTasks store).

Definition refuse (error : jstr) (redundant : bool) : cmd unit :=
  respond 403 (VObj ([(js "error", VStr error)] ++ if redundant then [(js "redundant", VBool true)] else [])).
Definition refuseOrFail (error : jstr) : cmd unit :=
  respond (if bool_decide (error ∈ SLACK_REFUSALS) then 403 else 502) (error_body error).

(** What a body without properties makes a handler do before its first await. *)
Definition or_throws {A : Type} (o : option A) (next : A -> cmd unit) : cmd unit :=
  match o with Some a => next a | None => errored 500 end.

(** ** Posting *)

Definition ALREADY_ANSWERING : jstr :=
  js "you are answering in that thread right now, and your reply is delivered there when the turn ends. Say it in the reply instead of posting it. post_message is for a conversation you are not answering in, and for scheduled runs, whose reply text goes nowhere.".

Definition post_message (agent : jstr) (body : jsval) : cmd unit :=
  or_throws (get body (js "channel")) (fun channel =>
  match as_nonempty_str channel, as_nonempty_str (prop body (js "text")) with
  | None, _ => respond 400 (error_body (js "channel is required"))
  | _, None => respond 400 (error_body (js "text is required"))
  | Some channel, Some text =>
      let threadTs := as_str (prop body (js "thread_ts")) in
      read (fun x =>
      if present (threadTs ≫= fun ts => turnIn agent channel ts (sf_store x)) then refuse ALREADY_ANSWERING true else
      or_unreachable (js "slack unreachable")
        (let* result := slackCall agent (js "chat.postMessage")
             ([(js "channel", channel); (js "text", text)] ++ match threadTs with Some ts => [(js "thread_ts", ts)] | None => [] end) in
         match result with
         | inr error => refuseOrFail error
         | inl b => respond 200 (VObj [(js "ok", VBool true); (js "channel", prop b (js "channel")); (js "ts", prop b (js "ts"))])
         end))
  end).

Definition post_file (agent : jstr) (query : jsval) (bytes : list N) : cmd unit :=
  let channel := string_of (prop query (js "channel")) in
  let filename := string_of (prop query (js "filename")) in
  if bool_decide (channel = []) || bool_decide (filename = []) then respond 400 (error_body (js "channel and filename are required")) else
  if bool_decide (bytes = []) then respond 400 (error_body (js "empty body: send the file bytes")) else
  or_unreachable (js "slack unreachable")
    (let* ticket := slackCall agent (js "files.getUploadURLExternal") [(js "filename", filename); (js "length", show_nat (length bytes))] in
     match ticket with
     | inr error => refuseOrFail error
     | inl ticket =>
         let* put := ask (RqUpload (to_string (prop ticket (js "upload_url"))) bytes) in
         if negb (fst put) then respond 502 (error_body (js "upload returned " ++ show_Z (snd put))) else
         let files := VArr [VObj [(js "id", VStr (to_string (prop ticket (js "file_id")))); (js "title", VStr filename)]] in
         let* done := slackCall agent (js "files.completeUploadExternal")
             ([(js "files", stringify files); (js "channel_id", channel)]
              ++ str_param (js "thread_ts") (prop query (js "thread_ts"))
              ++ match as_nonempty_str (prop query (js "comment")) with Some c => [(js "initial_comment", c)] | None => [] end) in
         match done with
         | inr error => refuseOrFail error
         | inl _ => respond 200 (VObj [(js "ok", VBool true); (js "file_id", prop ticket (js "file_id")); (js "channel", VStr channel)])
         end
     end).

(** ** Reacting *)

(** The reactions of the last minute, and whether one more may be added. *)
Definition underReactionBudget (agent : jstr) (now : Z) (reactions : gmap jstr (list Z)) : bool * gmap jstr (list Z) :=
  let times := filter (fun t => now - t < 60000) (default [] (reactions !! agent)) in
  if (REACTIONS_PER_MINUTE <=? length times)%nat then (false, <[agent := times]> reactions)
  else (true, <[agent := times ++ [now]]> reactions).

(** [threads.set(key, value)] on an insertion-ordered map. *)
Fixpoint map_set {A : Type} (k : jstr) (v : A) (l : list (jstr * A)) : list (jstr * A) :=
  match l with
  | [] => [(k, v)]
  | (k', v') :: t => if decide (k' = k) then (k, v) :: t else (k', v') :: map_set k v t
  end.
Definition threads_of (tasks : list InFlightTask) : list (jstr * jstr) :=
  snd <$> fold_left (fun l task => map_set (if_channel task ++ js ":" ++ if_threadTs task) (if_channel task, if_threadTs task) l) tasks [].

(** [messages.some((message) => message.ts === messageTs)]. *)
Fixpoint some_ts (messageTs : jstr) (l : list jsval) : option bool :=
  match l with
  | [] => Some false
  | m :: t => ts ← get m (js "ts"); if is_str ts messageTs then Some true else some_ts messageTs t
  end.
Definition has_message (messageTs : jstr) (body : jsval) : option bool :=
  match or_else (prop body (js "messages")) (VArr []) with VArr l => some_ts messageTs l | _ => None end.

(** The channel of the first thread the message is in. *)
Fixpoint find_thread (agent messageTs : jstr) (threads : list (jstr * jstr)) : cmd (option jstr) :=
  match threads with
  | [] => Ret None
  | (channel, threadTs) :: rest =>
      if jeqb messageTs threadTs then Ret (Some channel) else
      let* result := slackCall agent (js "conversations.replies")
          [(js "channel", channel); (js "ts", threadTs); (js "limit", js "200")] in
      match result with
      | inr _ => find_thread agent messageTs rest
      | inl body =>
          let* found := of_option (has_message messageTs body) in
          if found then Ret (Some channel) else find_thread agent messageTs rest
      end
  end.

Definition reaction (channel timestamp name : jstr) : list (jstr * jstr) :=
  [(js "channel", channel); (js "timestamp", timestamp); (js "name", name)].

Definition react_to_latest (agent emoji : jstr) (agentTasks : list InFlightTask) : cmd unit :=
  match find (fun task => present (if_messageTs task)) (reverse agentTasks) with
  | Some (mkInFlight _ _ channel _ _ (Some messageTs) _ _) =>
      let* added := slackCall agent (js "reactions.add") (reaction channel messageTs emoji) in
      let ok := respond 200 (VObj [(js "ok", VBool true); (js "message_ts", VStr messageTs)]) in
      match added with
      | inl _ => ok
      | inr error => if jeqb error (js "already_reacted") then ok else refuseOrFail error
      end
  | _ => respond 403 (error_body (js "no open turn to react from; pass message_ts for an earlier thread message"))
  end.

Definition react_to (agent messageTs emoji : jstr) (agentTasks : list InFlightTask) : cmd unit :=
  let* target := find_thread agent messageTs (threads_of agentTasks) in
  match target with
  | None => respond 403 (error_body (js "message is not in a thread you are currently answering"))
  | Some channel =>
      let* added := slackCall agent (js "reactions.add") (reaction channel messageTs emoji) in
      match added with
      | inl _ => respond 200 (VObj [(js "ok", VBool true)])
      | inr error =>
          if jeqb error (js "already_reacted") then respond 200 (VObj [(js "ok", VBool true); (js "already", VBool true)])
          else refuseOrFail error
      end
  end.

Definition tasks_of (agent : jstr) (store : BridgeState) : list InFlightTask := filter (fun task => if_agent task = agent) (allTasks store).

Definition post_reaction (agent : jstr) (body : jsval) : cmd unit :=
  or_throws (get body (js "message_ts")) (fun message_ts =>
  let messageTs := str_or_empty message_ts in
  let emoji := match prop body (js "emoji") with VStr s => lower (strip_colons s) | _ => [] end in
  if bool_decide (emoji = []) then respond 400 (error_body (js "emoji is required")) else
  if negb (EMOJI_NAME emoji) then respond 400 (error_body (js "not an emoji name: " ++ emoji)) else
  read (fun x =>
  let '(under, reactions) := underReactionBudget agent (sf_now x) (sf_reactions x) in
  update (set_reactions reactions) ;;;
  if negb under then respond 429 (error_body (js "reaction budget exhausted; try later")) else
  or_unreachable (js "slack unreachable")
    (read (fun x =>
     let agentTasks := tasks_of agent (sf_store x) in
     if bool_decide (messageTs = []) then react_to_latest agent emoji agentTasks
     else react_to agent messageTs emoji agentTasks)))).

(** ** Where a turn is *)

(** The context a task's thread is in; [None] where none can be derived. *)
Definition context_of (task : InFlightTask) (store : BridgeState) : option jstr :=
  match contextFor (if_channel task) (if_threadTs task) store with
  | Some c => Some c
  | None => deriveSessionId sha1 (if_channel task) (if_threadTs task)
  end.

Definition get_origin (agent : jstr) (query : jsval) : cmd unit :=
  match as_nonempty_str (prop query (js "context_id")) with
  | None => respond 400 (error_body (js "context_id is required"))
  | Some contextId =>
      read (fun x =>
      match find (fun task => bool_decide (context_of task (sf_store x) = Some contextId)) (tasks_of agent (sf_store x)) with
      | None => respond 403 (error_body (js "no open turn in that conversation"))
      | Some task =>
          respond 200 (VObj [(js "ok", VBool true); (js "channel", VStr (if_channel task));
                             (js "thread_ts", VStr (if_threadTs task)); (js "context_id", VStr contextId)])
      end)
  end.

(** ** Reading *)

Inductive plan :=
| BadRequest (error : jstr)
| AlreadyHeld (refused : jstr)
| Ask (method : jstr) (params : list (jstr * jstr)) (render : jsval -> option (list (jstr * jsval))).

Definition readRoute (agent : jstr) (p : plan) : cmd unit :=
  match p with
  | BadRequest error => respond 400 (error_body error)
  | AlreadyHeld refused => refuse refused true
  | Ask method params render =>
      or_unreachable (js "slack unreachable")
        (let* result := slackCall agent method params in
         match result with
         | inr error => refuseOrFail error
         | inl body => let* fields := of_option (render body) in respond 200 (VObj ((js "ok", VBool true) :: fields))
         end)
  end.

Definition limit_param (query : jsval) : jstr * jstr :=
  (js "limit", show_Z (clampLimit (prop query (js "limit")) READ_LIMIT_DEFAULT READ_LIMIT_MAX)).

Definition render_messages (body : jsval) : option (list (jstr * jsval)) :=
  messages ← map_or_empty trimMessage (prop body (js "messages"));
  Some ([(js "messages", messages)]
        ++ (if is_true_bool (prop body (js "has_more")) then [(js "has_more", VBool true)] else []) ++ nextCursor body).

Definition history_plan (query : jsval) : plan :=
  let channel := string_of (prop query (js "channel")) in
  if bool_decide (channel = []) then BadRequest (js "channel is required") else
  Ask (js "conversations.history")
    ([(js "channel", channel); limit_param query] ++ str_param (js "oldest") (prop query (js "oldest"))
     ++ str_param (js "latest") (prop query (js "latest")) ++ str_param (js "cursor") (prop query (js "cursor")))
    render_messages.

Definition ALREADY_HELD : jstr :=
  js "you already have this thread: its messages reached you as they were sent. read_thread is for another thread, or for one you have just been brought into, where what was said before you arrived is new to you.".

Definition replies_plan (agent : jstr) (query : jsval) (store : BridgeState) : plan :=
  let channel := string_of (prop query (js "channel")) in
  let ts := string_of (prop query (js "ts")) in
  if bool_decide (channel = []) || bool_decide (ts = []) then BadRequest (js "channel and ts are required") else
  if match turnIn agent channel ts store with
     | Some turn => negb (bool_decide (if_opening turn = Some true)) || bool_decide (if_messageTs turn = Some ts)
     | None => false
     end then AlreadyHeld ALREADY_HELD else
  Ask (js "conversations.replies")
    ([(js "channel", channel); (js "ts", ts); limit_param query] ++ str_param (js "cursor") (prop query (js "cursor")))
    render_messages.

Definition render_match (raw : jsval) : option jsval :=
  ts ← get raw (js "ts");
  let channel := prop raw (js "channel") in
  Some (VObj ([(js "ts", VStr (string_of ts));
               (js "channel", VObj [(js "id", VStr (string_of (get_opt channel (js "id"))));
                                    (js "name", VStr (string_of (get_opt channel (js "name"))))])]
    ++ str_field (js "user") (prop raw (js "user")) ++ [(js "text", VStr (str_or_empty (prop raw (js "text"))))]
    ++ str_field (js "permalink") (prop raw (js "permalink")))).

Definition render_search (body : jsval) : option (list (jstr * jsval)) :=
  let messages := or_else (prop body (js "messages")) (VObj []) in
  let paging := prop messages (js "paging") in
  pages ← (if defined paging
           then page ← get paging (js "page"); Some [(js "page", page); (js "pages", prop paging (js "pages"))]
           else Some []);
  matches ← map_or_empty render_match (prop messages (js "matches"));
  Some ([(js "total", or_else (prop messages (js "total")) (VNum 0))] ++ pages ++ [(js "matches", matches)]).

Definition search_plan (query : jsval) : plan :=
  let q := string_of (prop query (js "query")) in
  if bool_decide (q = []) then BadRequest (js "query is required") else
  Ask (js "search.messages")
    ([(js "query", q); (js "count", show_Z (clampLimit (prop query (js "count")) SEARCH_COUNT_DEFAULT SEARCH_COUNT_MAX))]
     ++ str_param (js "page") (prop query (js "page")))
    render_search.

Definition render_channel (raw : jsval) : option jsval :=
  id ← get raw (js "id");
  Some (VObj ([(js "id", VStr (string_of id)); (js "name", VStr (string_of (prop raw (js "name"))));
               (js "is_private", VBool (is_true_bool (prop raw (js "is_private"))));
               (js "is_member", VBool (is_true_bool (prop raw (js "is_member"))))]
    ++ (if is_true_bool (prop raw (js "is_archived")) then [(js "is_archived", VBool true)] else [])
    ++ match as_nonempty_str (get_opt (prop raw (js "topic")) (js "value")) with Some v => [(js "topic", VStr v)] | None => [] end)).

Definition channels_plan (query : jsval) : plan :=
  Ask (js "conversations.list")
    ([(js "types", js "public_channel,private_channel");
      (js "exclude_archived", if is_str (prop query (js "include_archived")) (js "true") then js "false" else js "true");
      limit_param query] ++ str_param (js "cursor") (prop query (js "cursor")))
    (fun body => channels ← map_or_empty render_channel (prop body (js "channels"));
                 Some ((js "channels", channels) :: nextCursor body)).

Definition render_user (raw : jsval) : jsval :=
  VObj ([(js "id", VStr (string_of (prop raw (js "id")))); (js "name", VStr (string_of (prop raw (js "name"))))]
    ++ str_field (js "real_name") (get_opt (prop raw (js "profile")) (js "real_name"))
    ++ (if is_true_bool (prop raw (js "is_bot")) then [(js "is_bot", VBool true)] else [])).

(** Members who are not deleted; a member without properties is an error. *)
Fixpoint users_of (l : list jsval) : option (list jsval) :=
  match l with
  | [] => Some []
  | raw :: t =>
      deleted ← get raw (js "deleted");
      rest ← users_of t;
      Some (if is_true_bool deleted then rest else render_user raw :: rest)
  end.

Definition users_plan (query : jsval) : plan :=
  Ask (js "users.list") (limit_param query :: str_param (js "cursor") (prop query (js "cursor")))
    (fun body =>
       match or_else (prop body (js "members")) (VArr []) with
       | VArr l => users ← users_of l; Some ((js "users", VArr users) :: nextCursor body)
       | _ => None
       end).

(** ** A file *)

(** What a header may hold: [setHeader] throws on anything else. *)
Definition header_unit (c : N) : bool := ((c =? 9) || (32 <=? c) && (c <=? 126) || (128 <=? c) && (c <=? 255))%N.
Definition header_ok (v : jstr) : bool := forallb header_unit v.

Definition file_headers (file : RecordedFile) (length : option jstr) : option (list (jstr * jstr)) :=
  if negb (header_ok (rf_mimetype file)) then None else
  name ← encodeURIComponent (rf_name file);
  Some ([(js "content-type", rf_mimetype file); (js "content-disposition", js "attachment; filename*=UTF-8''" ++ name)]
        ++ match length with Some l => [(js "content-length", l)] | None => [] end).

Definition get_file (agent fileId : jstr) : cmd unit :=
  read (fun x =>
  match fileFor agent fileId (sf_store x) with
  | None => respond 404 (error_body (js "no such file"))
  | Some file =>
      match fo_botTokenFor options agent with
      | None => respond 500 (error_body (js "no credential for this agent"))
      | Some token =>
          try_catch
            (let* upstream := ask (RqDownload (rf_url file) token) in
             if negb (dl_ok upstream) || negb (dl_body upstream)
             then respond 502 (error_body (js "slack returned " ++ show_Z (dl_status upstream))) else
             let* headers := of_option (file_headers file (dl_length upstream)) in
             let* broke := ask (RqPipe headers) in
             match broke with None => skip_ | Some _ => Throw (js "the body broke off") end)
            (fun _ => read (fun x =>
               if headersSent x then update (noted Destroyed) else respond 502 (error_body (js "download failed"))))
      end
  end).

(** ** Every route *)

Definition handle_route (agent : jstr) (r : http_request) : cmd unit :=
  match r with
  | PostMessages body => with_body body (post_message agent)
  | PostFiles query body => with_body body (post_file agent query)
  | PostReactions body => with_body body (post_reaction agent)
  | GetOrigin query => get_origin agent query
  | GetHistory query => readRoute agent (history_plan query)
  | GetReplies query => read (fun x => readRoute agent (replies_plan agent query (sf_store x)))
  | GetSearch query => readRoute agent (search_plan query)
  | GetChannels query => readRoute agent (channels_plan query)
  | GetUsers query => readRoute agent (users_plan query)
  | GetFile fileId => get_file agent fileId
  end.

Definition serve (peer_tags : option jstr) (r : http_request) : cmd unit := identify peer_tags (fun agent => handle_route agent r).
End Server.
