(* ===== verification/SlackHttpWork.v ===== *)
(** What an agent can do through the bridge's surface: act as itself only,
    write only where it should, and be answered exactly once, whatever the
    other requests and the bridge do meanwhile. *)

From stdpp Require Import sorting.
From S2P Require Import Prelude A2A Envelope Json Async AsyncLogic Values SlackState SlackHttp.
#[local] Open Scope nat_scope.

(** ** The notes of a call *)

Lemma own_noted t n x : own t (noted n x) = own t x ++ (if decide (sf_running x = t) then [n] else []).
Proof. unfold own, noted. cbn. rewrite omap_app. cbn. by destruct (decide (sf_running x = t)). Qed.

(** Others leave a call's notes alone. *)
Definition leaves (t : nat) (s s' : surface) : Prop := own t s' = own t s.
#[export] Instance leaves_preorder t : PreOrder (leaves t).
Proof. split; [done|]. intros s1 s2 s3 H1 H2. unfold leaves in *. congruence. Qed.

Definition responses (l : list note_) : nat := length (filter (fun n => is_response n = true) l).
Lemma responses_app l k : responses (l ++ k) = responses l + responses k.
Proof. unfold responses. by rewrite filter_app, length_app. Qed.

Lemma silent_no_headers l : responses l = 0 -> existsb is_response l = false.
Proof.
  unfold responses. induction l as [|n l IH]; [done|]. rewrite filter_cons. cbn. destruct (is_response n); cbn; [done|apply IH].
Qed.
Lemma answered_headers l : responses l = 1 -> existsb is_response l = true.
Proof.
  unfold responses. induction l as [|n l IH]; [done|]. rewrite filter_cons. cbn. destruct (is_response n); cbn; [done|apply IH].
Qed.

(** ** What a call may ask for *)

Section Warrants.
Context (options : FileServerOptions) (sha1 : list N -> list N) (lower : jstr -> jstr).
Context (tags : option jstr) (route_ : http_request) (store : BridgeState).

(** An answer that says [ok], and what was asked for it. *)
Definition told (notes : list note_) (token method : jstr) (params : list (jstr * jstr)) (body : jsval) : Prop :=
  exists status, Got (RqSlack token method params) (Val (mkAnswer status body)) ∈ notes /\ prop body (js "ok") = VBool true.

(** Slack is called on the agent's own token. A file is fetched from where a
    human attached it in a thread of the agent's, and bytes go where Slack
    told this call to put them. *)
Definition own_business (agent : jstr) (notes : list note_) (r : request) : Prop :=
  match r with
  | RqSlack token _ _ => fo_botTokenFor options agent = Some token
  | RqDownload url token =>
      fo_botTokenFor options agent = Some token /\
      exists fileId file, route_ = GetFile fileId /\ fileFor agent fileId store = Some file /\ url = rf_url file
  | RqUpload url _ =>
      exists token params body, fo_botTokenFor options agent = Some token /\
        told notes token (js "files.getUploadURLExternal") params body /\ url = to_string (prop body (js "upload_url"))
  | RqPipe _ => True
  end.

(** A message is in a thread of an open turn of the agent's: it is the one
    being answered, the thread's first, or one Slack listed there. *)
Definition in_open_thread (agent : jstr) (notes : list note_) (channel ts : jstr) : Prop :=
  exists task, task ∈ allTasks store /\ if_agent task = agent /\ if_channel task = channel /\
    (if_messageTs task = Some ts \/ if_threadTs task = ts \/
     exists token body, told notes token (js "conversations.replies")
       [(js "channel", channel); (js "ts", if_threadTs task); (js "limit", js "200")] body /\ has_message ts body = Some true).

(** A message goes where the request says, and not into a thread the agent is
    answering. *)
Definition message_as_asked (agent : jstr) (params : list (jstr * jstr)) : Prop :=
  exists body channel text, route_ = PostMessages (Parsed body) /\
    prop body (js "channel") = VStr channel /\ prop body (js "text") = VStr text /\
    ((params = [(js "channel", channel); (js "text", text)] /\ forall ts, prop body (js "thread_ts") <> VStr ts) \/
     exists ts, prop body (js "thread_ts") = VStr ts /\ params = [(js "channel", channel); (js "text", text); (js "thread_ts", ts)] /\
       turnIn agent channel ts store = None).

(** A file goes where the request says, a thread the agent is answering among
    the places. *)
Definition file_as_asked (params : list (jstr * jstr)) : Prop :=
  exists query bytes files, route_ = PostFiles query (Parsed bytes) /\
    params = [(js "files", files); (js "channel_id", string_of (prop query (js "channel")))]
             ++ str_param (js "thread_ts") (prop query (js "thread_ts"))
             ++ match as_nonempty_str (prop query (js "comment")) with Some c => [(js "initial_comment", c)] | None => [] end.

(** The methods that show nothing to anyone: they read, or prepare an upload. *)
Definition unseen_methods : list jstr :=
  js <$> ["files.getUploadURLExternal"; "conversations.history"; "conversations.replies"; "conversations.list"; "search.messages"; "users.list"]%string.

Definition in_its_place (agent : jstr) (notes : list note_) (r : request) : Prop :=
  match r with
  | RqSlack _ method params =>
      method ∈ unseen_methods \/
      (method = js "reactions.add" /\ exists channel ts name, params = reaction channel ts name /\ in_open_thread agent notes channel ts) \/
      (method = js "chat.postMessage" /\ message_as_asked agent params) \/
      (method = js "files.completeUploadExternal" /\ file_as_asked params)
  | _ => True
  end.

Definition warranted (agent : jstr) (notes : list note_) (r : request) : Prop := own_business agent notes r /\ in_its_place agent notes r.
Definition justified (notes : list note_) : Prop :=
  forall r, Sent r ∈ notes -> exists agent, identified options tags = Some agent /\ warranted agent notes r.

Lemma told_more notes more token method params body : told notes token method params body -> told (notes ++ more) token method params body.
Proof. intros (status & Hin & Hok). exists status. split; [apply elem_of_app; by left|done]. Qed.

Lemma warranted_more agent notes more r : warranted agent notes r -> warranted agent (notes ++ more) r.
Proof.
  intros [Ho Hp]. split.
  - destruct r as [token1 method params1|url bytes|url token1|headers]; try done. destruct Ho as (token & params & body & ? & ? & ?). exists token, params, body.
    split_and!; [done|by apply told_more|done].
  - destruct r as [token1 method params1|url bytes|url token1|headers]; try done. destruct Hp as [?|[(E & channel & ts & name & -> & Hin)|[?|?]]]; [by left| |by right; right; left|by right; right; right].
    right. left. split; [done|]. exists channel, ts, name. split; [done|]. destruct Hin as (task & H1 & H2 & H3 & H4). exists task. split_and!; [done..|].
    destruct H4 as [?|[?|(token & body & Ht & ?)]]; [by left|by right; left|]. right; right. exists token, body. split; [by apply told_more|done].
Qed.

Lemma justified_more notes n : justified notes -> (forall r, n = Sent r -> exists agent, identified options tags = Some agent /\ warranted agent notes r) ->
  justified (notes ++ [n]).
Proof.
  intros Hj Hn r Hr. apply elem_of_app in Hr as [Hr|Hr%list_elem_of_singleton].
  - destruct (Hj r Hr) as (agent & ? & ?). exists agent. split; [done|by apply warranted_more].
  - destruct (Hn r (eq_sym Hr)) as (agent & ? & ?). exists agent. split; [done|by apply warranted_more].
Qed.

(** ** A call that has not answered, and one that has *)

Context (t : nat).
Definition open_call (s : surface) : Prop := sf_running s = t /\ justified (own t s) /\ responses (own t s) = 0.
Definition closed_call (s : surface) : Prop := justified (own t s) /\ responses (own t s) = 1.
Definition sound_call (s : surface) : Prop := justified (own t s) /\ responses (own t s) <= 1.
Definition anything (r : request) (a : result (answer r)) (s : surface) : Prop := True.
Definition no_streams (t' : nat) (src ev : Empty_set) (s : surface) : Prop := True.

Abbreviation wp_ := (wp issue receive yielded enter ready anything no_streams sound_call leaves t).
Abbreviation guar_ := (guar leaves t).

Lemma open_sound s : open_call s -> sound_call s.
Proof. intros (_ & Hj & Hr). split; [done|lia]. Qed.
Lemma closed_sound s : closed_call s -> sound_call s.
Proof. intros (Hj & Hr). split; [done|lia]. Qed.

Lemma guar_noted n s : sf_running s = t -> guar_ s (noted n s).
Proof. intros Hs t' Hne. unfold leaves. rewrite own_noted, decide_False by congruence. by rewrite app_nil_r. Qed.

Lemma open_noted n s : open_call s -> is_response n = false ->
  (forall r, n = Sent r -> exists agent, identified options tags = Some agent /\ warranted agent (own t s) r) -> open_call (noted n s).
Proof.
  intros (Hs & Hj & Hr) Hn Hw. unfold open_call. rewrite own_noted, decide_True by done. split_and!; [done|by apply justified_more|].
  rewrite responses_app, Hr. unfold responses. by rewrite filter_cons, Hn.
Qed.

Lemma close_noted n s : open_call s -> is_response n = true -> closed_call (noted n s).
Proof.
  intros (Hs & Hj & Hr) Hn. unfold closed_call. rewrite own_noted, decide_True by done. split.
  - apply justified_more; [done|]. by intros r ->.
  - rewrite responses_app, Hr. unfold responses. by rewrite filter_cons, Hn.
Qed.

(** What an open call is after others ran and it is resumed. *)
Lemma open_again s s1 now : open_call s -> leaves t s s1 -> open_call (enter t now s1).
Proof.
  intros (Hs & Hj & Hr) Hl. unfold leaves in Hl. unfold open_call. change (own t (enter t now s1)) with (own t s1). rewrite Hl. by split_and!.
Qed.

(** A program that answers, unless it throws. *)
Definition closes (r : result unit) (s : surface) : Prop := match r with Val _ => closed_call s | Exn _ => open_call s end.

Lemma wp_respond status body s : open_call s -> wp_ (respond status body) s closes.
Proof. intros Hs. apply wp_update; [apply guar_noted, Hs|by apply close_noted]. Qed.
Lemma wp_errored status s : open_call s -> wp_ (errored status) s closes.
Proof. intros Hs. apply wp_update; [apply guar_noted, Hs|by apply close_noted]. Qed.
Lemma wp_throw {A : Type} e s (Q : result A -> surface -> Prop) : Q (Exn e) s -> wp_ (Throw e : cmd A) s Q.
Proof. done. Qed.

Lemma wp_of_option {A : Type} (o : option A) s (Q : result A -> surface -> Prop) :
  (forall a, o = Some a -> Q (Val a) s) -> (o = None -> Q (Exn TypeError) s) -> wp_ (of_option o) s Q.
Proof. intros H1 H2. destruct o; [by apply H1|by apply H2]. Qed.

(** A handler has answered in the end. *)
Definition answers (r : result unit) (s : surface) : Prop := match r with Val _ => closed_call s | Exn _ => False end.
Lemma answers_closes p s : wp_ p s answers -> wp_ p s closes.
Proof. apply wp_mono. by intros [u|e] s'. Qed.

Lemma wp_respond_end status body s : open_call s -> wp_ (respond status body) s answers.
Proof. intros Hs. apply wp_update; [apply guar_noted, Hs|by apply close_noted]. Qed.
Lemma wp_errored_end status s : open_call s -> wp_ (errored status) s answers.
Proof. intros Hs. apply wp_update; [apply guar_noted, Hs|by apply close_noted]. Qed.

Lemma open_silent s : open_call s -> headersSent s = false.
Proof. intros (Hs & _ & Hr). unfold headersSent. rewrite Hs. by apply silent_no_headers. Qed.

Lemma wp_or_unreachable m p s : wp_ p s closes -> wp_ (or_unreachable m p) s answers.
Proof.
  intros Hp. apply wp_try_catch. eapply wp_mono; [|exact Hp]. intros [[]|e] s' Hs'; [done|]. cbn [closes] in Hs'.
  apply wp_read. rewrite (open_silent s' Hs'). by apply wp_respond_end.
Qed.

Lemma wp_ask r s (Q : result (answer r) -> surface -> Prop) :
  open_call s -> (exists agent, identified options tags = Some agent /\ warranted agent (own t s) r) ->
  (forall a s1, open_call s1 -> (exists n, own t s1 = own t s ++ n) -> Q a (receive r a s1)) -> wp_ (ask r) s Q.
Proof.
  intros Hs Hw HQ.
  assert (Hi : open_call (issue r s)). { apply open_noted; [done..|]. by intros r' [= <-]. }
  apply wp_call.
  - apply guar_noted, Hs.
  - by apply open_sound.
  - intros a s1 now Hl _ _ _. pose proof (open_again _ _ now Hi Hl) as H1. split.
    + transitivity (enter t now s1); [by intros t' _|]. apply guar_noted, H1.
    + apply HQ; [done|]. exists [Sent r]. unfold leaves in Hl. change (own t (enter t now s1)) with (own t s1). rewrite Hl.
      unfold issue. rewrite own_noted, decide_True by apply Hs. done.
Qed.

(** ** The handlers *)

Context (agent : jstr).
Hypothesis Hagent : identified options tags = Some agent.

Lemma answered_told token method params status body notes : get body (js "ok") = Some (VBool true) ->
  told (notes ++ [Got (RqSlack token method params) (Val (mkAnswer status body))]) token method params body.
Proof.
  intros Hok. exists status. split; [apply elem_of_app; right; by left|]. unfold get in Hok. destruct (nullish body); [done|by injection Hok].
Qed.

Lemma wp_slackCall method params s (Q : result (jsval + jstr) -> surface -> Prop) :
  open_call s -> (forall token, in_its_place agent (own t s) (RqSlack token method params)) ->
  (forall r s', open_call s' -> (exists n, own t s' = own t s ++ n) ->
     match r with
     | Val (inl body) => exists token, fo_botTokenFor options agent = Some token /\ told (own t s') token method params body
     | _ => True
     end -> Q r s') ->
  wp_ (slackCall options agent method params) s Q.
Proof.
  intros Hs Hp HQ. unfold slackCall. destruct (fo_botTokenFor options agent) as [token|] eqn:Htok.
  2: { apply (HQ (Val (inr _))); [done|exists []; by rewrite app_nil_r|done]. }
  apply wp_bind, wp_ask; [done|by exists agent|]. intros a s1 H1 [n Hn].
  pose proof (open_noted (Got (RqSlack token method params) a) s1 H1 eq_refl ltac:(done)) as H2.
  assert (Hg : own t (receive _ a s1) = (own t s ++ n) ++ [Got (RqSlack token method params) a]).
  { unfold receive. by rewrite own_noted, decide_True, Hn by apply H1. }
  assert (Hmore : exists n', own t (receive _ a s1) = own t s ++ n') by (exists (n ++ [Got (RqSlack token method params) a]); by rewrite Hg, app_assoc).
  destruct a as [[status body]|e]; [|by apply (HQ (Exn e))]. apply wp_bind, wp_of_option; cbn [aa_body].
  - intros ok Hok. destruct (is_true_bool ok) eqn:E; [|by apply (HQ (Val (inr _)))]. apply (HQ (Val (inl _))); [done..|].
    exists token. split; [done|]. rewrite Hg. apply answered_told. by destruct ok as [| |[]| | | |].
  - intros _. by apply HQ.
Qed.

(** A call of a method that shows nothing. *)
Lemma in_place_plain method params token notes : method ∈ unseen_methods -> in_its_place agent notes (RqSlack token method params).
Proof. by left. Qed.

Ltac plain := intros; apply in_place_plain; apply (bool_decide_unpack _); evaluated.

Lemma wp_refuseOrFail error s : open_call s -> wp_ (refuseOrFail error) s closes.
Proof. apply wp_respond. Qed.

Lemma wp_with_body {A : Type} (body : parsed A) next s : open_call s -> (forall b, wp_ (next b) s answers) -> wp_ (with_body body next) s answers.
Proof. intros Hs Hn. destruct body; [apply Hn|by apply wp_errored_end]. Qed.

Lemma wp_or_throws {A : Type} (o : option A) next s : open_call s -> (forall a, o = Some a -> wp_ (next a) s answers) -> wp_ (or_throws o next) s answers.
Proof. intros Hs Hn. destruct o; [by apply Hn|by apply wp_errored_end]. Qed.

Lemma wp_readRoute p s : open_call s ->
  (forall method params render, p = Ask method params render -> method ∈ unseen_methods) ->
  wp_ (readRoute options agent p) s answers.
Proof.
  intros Hs Hm. destruct p as [error|refused|method params render]; [by apply wp_respond_end..|].
  pose proof (Hm _ _ _ eq_refl) as H1. apply wp_or_unreachable, wp_bind, wp_slackCall; [done|intros; by apply in_place_plain|].
  intros r s' Hs' _ _. destruct r as [[body|error]|e]; [|by apply wp_respond|done].
  apply wp_bind, wp_of_option; [intros fields _; by apply wp_respond|done].
Qed.

Lemma as_nonempty_str_some v c : as_nonempty_str v = Some c -> v = VStr c.
Proof. destruct v as [| | | |u| |]; try done. cbn. destruct u; [done|]. by intros [= <-]. Qed.

Lemma wp_post_message body s : route_ = PostMessages (Parsed body) -> open_call s -> sf_store s = store -> wp_ (post_message options agent body) s answers.
Proof.
  intros Hroute Hs Hst. apply wp_or_throws; [done|]. intros c Hc. assert (Ec : prop body (js "channel") = c) by (unfold get in Hc; destruct (nullish body); [done|by injection Hc]).
  destruct (as_nonempty_str c) as [channel|] eqn:Echannel; [|by apply wp_respond_end]. apply as_nonempty_str_some in Echannel as ->.
  destruct (as_nonempty_str _) as [text|] eqn:Et; [|by apply wp_respond_end]. apply as_nonempty_str_some in Et. apply wp_read.
  destruct (present _) eqn:Hturn; [by apply wp_respond_end|].
  apply wp_or_unreachable, wp_bind, wp_slackCall; [done|..].
  - intros token. right. right. left. split; [done|]. exists body, channel, text. split_and!; [done..|]. rewrite Hst in Hturn.
    destruct (prop body (js "thread_ts")) as [| | | |ts| |] eqn:Ets; cbn in Hturn |- *; try by left.
    right. exists ts. split_and!; [done..|]. by destruct (turnIn agent channel ts store).
  - intros r s' Hs' _ _. destruct r as [[b|error]|e]; [by apply wp_respond..|done].
Qed.

Lemma wp_post_file query bytes s : route_ = PostFiles query (Parsed bytes) -> open_call s -> wp_ (post_file options agent query bytes) s answers.
Proof.
  intros Hroute Hs. unfold post_file. destruct (_ || _); [by apply wp_respond_end|]. destruct (bool_decide _); [by apply wp_respond_end|].
  apply wp_or_unreachable, wp_bind, wp_slackCall; [done|plain|]. intros [[ticket|error]|e] s1 H1 _ Ht; [|by apply wp_respond|done].
  destruct Ht as (token & Htok & Ht).
  apply wp_bind, wp_ask; [done| |].
  { exists agent. split; [done|]. split; [|done]. by eexists token, _, ticket. }
  intros put s2 H2 _. assert (H3 : open_call (receive _ put s2)) by (by apply open_noted).
  destruct put as [[ok status]|e]; [|done]. destruct (negb _); [by apply wp_respond|].
  apply wp_bind, wp_slackCall; [done|intros token'; right; right; right; split; [done|by eexists query, bytes, _]|]. intros [[b|error]|e] s4 H4 _ _; [by apply wp_respond..|done].
Qed.

(** The threads looked through are those of the agent's open turns. *)
Lemma map_set_elem {A : Type} k (v : A) l p : p ∈ map_set k v l -> p = (k, v) \/ p ∈ l.
Proof.
  induction l as [|[k' v'] l IH]; cbn; [rewrite elem_of_cons; by intros [->|?%elem_of_nil]; [left|]|].
  destruct (decide _); rewrite !elem_of_cons; [by intros [->|?]; [left|right; right]|].
  intros [->|H]; [by right; left|]. destruct (IH H) as [->|?]; [by left|by right; right].
Qed.

Lemma threads_of_elem tasks p : p ∈ threads_of tasks -> exists task, task ∈ tasks /\ p = (if_channel task, if_threadTs task).
Proof.
  unfold threads_of. intros ([k p'] & -> & H)%list_elem_of_fmap. cbn.
  assert (Hgen : forall l, (k, p') ∈ fold_left (fun l task => map_set (if_channel task ++ js ":" ++ if_threadTs task) (if_channel task, if_threadTs task) l) tasks l ->
            (k, p') ∈ l \/ exists task, task ∈ tasks /\ p' = (if_channel task, if_threadTs task)).
  { clear H. induction tasks as [|task tasks IH]; intros l Hl; [by left|]. cbn [fold_left] in Hl.
    destruct (IH _ Hl) as [H|(task' & ? & ?)]; [|by right; exists task'; split; [right|]].
    apply map_set_elem in H as [[= -> ->]|?]; [|by left]. right. exists task. split; [by left|done]. }
  destruct (Hgen [] H) as [?%elem_of_nil|?]; done.
Qed.

Lemma tasks_of_elem task : task ∈ tasks_of agent store -> task ∈ allTasks store /\ if_agent task = agent.
Proof. unfold tasks_of. rewrite list_elem_of_filter. by intros [? ?]. Qed.

Lemma in_open_thread_more notes more channel ts : in_open_thread agent notes channel ts -> in_open_thread agent (notes ++ more) channel ts.
Proof.
  intros (task & H1 & H2 & H3 & H4). exists task. split_and!; [done..|].
  destruct H4 as [?|[?|(token & body & Ht & ?)]]; [by left|by right; left|right; right]. exists token, body. split; [by apply told_more|done].
Qed.

Lemma wp_find_thread messageTs threads s (Q : result (option jstr) -> surface -> Prop) : open_call s ->
  (forall p, p ∈ threads -> exists task, task ∈ tasks_of agent store /\ p = (if_channel task, if_threadTs task)) ->
  (forall r s', open_call s' -> match r with Val (Some channel) => in_open_thread agent (own t s') channel messageTs | _ => True end -> Q r s') ->
  wp_ (find_thread options agent messageTs threads) s Q.
Proof.
  intros Hs Ht HQ. revert s Hs. induction threads as [|[channel threadTs] threads IH]; intros s Hs; cbn [find_thread]; [by apply (HQ (Val None))|].
  destruct (Ht (channel, threadTs)) as (task & [H1 H2]%tasks_of_elem & [= -> ->]); [by left|].
  specialize (IH (fun p Hp => Ht p (list_elem_of_further _ _ _ Hp))).
  destruct (jeqb _ _) eqn:E.
  { apply bool_decide_eq_true in E. apply (HQ (Val (Some _))); [done|]. exists task. split_and!; [done..|]. by right; left. }
  apply wp_bind, wp_slackCall; [done|plain|]. intros [[body|error]|e] s' Hs' _ Htold; [|by apply IH|by apply HQ].
  apply wp_bind, wp_of_option; [|by intros _; apply HQ]. intros [] Hfound; [|by apply IH].
  apply (HQ (Val (Some _))); [done|]. exists task. split_and!; [done..|]. right; right.
  destruct Htold as (token & _ & Htold). by exists token, body.
Qed.

Lemma in_place_reaction notes token channel ts name : in_open_thread agent notes channel ts ->
  in_its_place agent notes (RqSlack token (js "reactions.add") (reaction channel ts name)).
Proof. intros H. right. left. split; [done|]. by exists channel, ts, name. Qed.

Lemma wp_react_to_latest emoji s : open_call s -> wp_ (react_to_latest options agent emoji (tasks_of agent store)) s closes.
Proof.
  intros Hs. unfold react_to_latest. destruct (find _ _) as [task|] eqn:E; [|by apply wp_respond].
  apply find_some in E as [E _]. apply list_elem_of_In, elem_of_reverse, tasks_of_elem in E as [H1 H2].
  destruct task as [id ag channel threadTs st [messageTs|] au op]; [|by apply wp_respond].
  apply wp_bind, wp_slackCall; [done| |].
  - intros token. apply in_place_reaction. eexists. split_and!; [exact H1|done|done|by left].
  - intros [[b|error]|e] s' Hs' _ _; [by apply wp_respond| |done]. destruct (jeqb _ _); by apply wp_respond.
Qed.

Lemma wp_react_to messageTs emoji s : open_call s -> wp_ (react_to options agent messageTs emoji (tasks_of agent store)) s closes.
Proof.
  intros Hs. apply wp_bind, wp_find_thread; [done|apply threads_of_elem|]. intros [[channel|]|e] s1 H1 Hin; [|by apply wp_respond|done].
  apply wp_bind, wp_slackCall; [done|intros token; by apply in_place_reaction|].
  intros [[b|error]|e] s' Hs' _ _; [by apply wp_respond| |done]. destruct (jeqb _ _); by apply wp_respond.
Qed.

Lemma open_reactions m s : open_call s -> open_call (set_reactions m s).
Proof. done. Qed.

Lemma wp_post_reaction body s : open_call s -> sf_store s = store -> wp_ (post_reaction options lower agent body) s answers.
Proof.
  intros Hs Hst. apply wp_or_throws; [done|]. intros ts _. cbv zeta. destruct (bool_decide _); [by apply wp_respond_end|].
  destruct (negb _); [by apply wp_respond_end|]. apply wp_read. destruct (underReactionBudget _ _ _) as [under reactions].
  apply wp_bind, wp_update; [by intros t' _|]. destruct (negb under); [by apply wp_respond_end|].
  apply wp_or_unreachable, wp_read. change (sf_store (set_reactions _ s)) with (sf_store s). rewrite Hst.
  destruct (bool_decide _); [by apply wp_react_to_latest|by apply wp_react_to].
Qed.

Lemma wp_get_origin query s : open_call s -> wp_ (get_origin sha1 agent query) s answers.
Proof.
  intros Hs. unfold get_origin. destruct (as_nonempty_str _); [|by apply wp_respond_end]. apply wp_read.
  destruct (find _ _); by apply wp_respond_end.
Qed.

Lemma wp_get_file fileId s : route_ = GetFile fileId -> open_call s -> sf_store s = store -> wp_ (get_file options agent fileId) s answers.
Proof.
  intros Hr Hs Hst. apply wp_read. rewrite Hst. destruct (fileFor _ _ _) as [file|] eqn:Hf; [|by apply wp_respond_end].
  destruct (fo_botTokenFor _ _) as [token|] eqn:Htok; [|by apply wp_respond_end].
  apply wp_try_catch. eapply wp_mono with (Q := fun r s => match r with Val _ => closed_call s | Exn _ => open_call s \/ closed_call s /\ sf_running s = t end).
  { intros [[]|e] s'; [done|]. intros H. apply wp_read. destruct H as [H|[H Hrun]].
    - rewrite (open_silent _ H). by apply wp_respond_end.
    - unfold headersSent. rewrite Hrun, answered_headers by apply H. apply wp_update; [by apply guar_noted|].
      destruct H as [Hj Ho]. split; rewrite own_noted, decide_True by done; [by apply justified_more|]. by rewrite responses_app, Ho. }
  apply wp_bind, wp_ask; [done|exists agent; split; [done|split; [split; [done|by exists fileId, file]|done]]|].
  intros upstream s1 H1 _. assert (H2 : open_call (receive _ upstream s1)) by (by apply open_noted).
  destruct upstream as [up|e]; [|by left]. destruct (_ || _).
  { eapply wp_mono; [|by apply wp_respond]. intros [[]|e] s' H; [done|by left]. }
  apply wp_bind, wp_of_option; [|by left]. intros headers _.
  apply wp_bind, wp_ask; [done|by exists agent|]. intros broke s3 H3 _.
  destruct broke as [[[]|]|e].
  - right. split; [by apply close_noted|apply H3].
  - left. by apply open_noted.
  - by apply close_noted.
  - left. by apply open_noted.
Qed.

(** The reading routes call methods that only read. *)
Ltac reads := intros ? ? ?; match goal with |- context [if ?b then _ else _] => destruct b | _ => idtac end;
  try discriminate; intros [= <- <- <-]; apply (bool_decide_unpack _); evaluated.

Lemma wp_handle s : open_call s -> sf_store s = store -> wp_ (handle_route options sha1 lower agent route_) s answers.
Proof.
  intros Hs Hst. unfold handle_route. destruct route_ as [body|query body|body|query|query|query|query|query|query|fileId] eqn:Er.
  - destruct body as [b|]; [|by apply wp_errored_end]. by apply wp_post_message.
  - destruct body as [b|]; [|by apply wp_errored_end]. by apply wp_post_file.
  - apply wp_with_body; [done|]. intros b. by apply wp_post_reaction.
  - by apply wp_get_origin.
  - apply wp_readRoute; [done|]. unfold history_plan. reads.
  - apply wp_read, wp_readRoute; [done|]. unfold replies_plan. intros method params render.
    destruct (_ || _); [done|]. destruct (match turnIn _ _ _ _ with Some _ => _ | None => _ end); [done|].
    intros [= <- <- <-]. apply (bool_decide_unpack _); evaluated.
  - apply wp_readRoute; [done|]. unfold search_plan. reads.
  - apply wp_readRoute; [done|]. unfold channels_plan. reads.
  - apply wp_readRoute; [done|]. unfold users_plan. reads.
  - by apply wp_get_file.
Qed.
End Warrants.

(** ** Requests among others *)

Abbreviation play := (played issue receive yielded enter ready).
Definition turns := list ((surface -> surface) * Z * input Empty_set answer).

(** What happens between a call's awaits leaves its notes alone; the bridge
    may change any of its tables. *)
Definition minds (t : nat) (f : surface -> surface) : Prop := forall s, own t (f s) = own t s.

Section Served.
Context (options : FileServerOptions) (sha1 : list N -> list N) (lower : jstr -> jstr).
Context (tags : option jstr) (r : http_request) (t : nat) (now : Z) (s : surface).
Hypothesis Hnew : own t s = [].

Lemma wp_serve :
  wp issue receive yielded enter ready anything no_streams (sound_call options tags r (sf_store s) t) leaves t
    (serve options sha1 lower tags r) (enter t now s) (answers options tags r (sf_store s) t).
Proof.
  assert (Hs : open_call options tags r (sf_store s) t (enter t now s)).
  { unfold open_call. change (own t (enter t now s)) with (own t s). rewrite Hnew. split_and!; [done| |done]. by intros q ?%elem_of_nil. }
  unfold serve, identify. destruct (identified options tags) as [agent|] eqn:E; [|by apply wp_respond_end].
  by apply wp_handle.
Qed.

Lemma served_keeps (ts : turns) s' q : Forall (fun turn => minds t (fst (fst turn))) ts ->
  play t (serve options sha1 lower tags r) (enter t now s) ts = Some (s', q) ->
  sound_call options tags r (sf_store s) t s' /\ comes_to q s' (answers options tags r (sf_store s) t).
Proof.
  intros Hts. apply (played_keeps issue receive yielded enter ready anything no_streams (sound_call options tags r (sf_store s) t) leaves t
    _ q _ s' ts (answers options tags r (sf_store s) t)); [|apply wp_serve|].
  - intros [u|e] s1; [apply closed_sound|done].
  - eapply Forall_impl; [exact Hts|]. intros [[others now'] i] Hm. split; [|by destruct i].
    intros s1 H1. split; [apply Hm|]. destruct H1 as [Hj Hr]. split; [|by rewrite Hm]. intros q' Hq'. rewrite Hm in *. by apply Hj.
Qed.
End Served.

(** C13: A peer acts only as the agent its tags name. Whatever a request asks
    and however others interleave with it, every call it makes to Slack and
    every download is on that agent's own bot token, what is downloaded is a
    file attached in a thread of that agent's, and uploaded bytes go where
    Slack told this request to put them. A peer whose tags name no agent
    makes the bridge ask for nothing. *)
Theorem agents_act_as_themselves options sha1 lower tags r t now s (ts : turns) s' q asked :
  own t s = [] -> Forall (fun turn => minds t (fst (fst turn))) ts ->
  play t (serve options sha1 lower tags r) (enter t now s) ts = Some (s', q) ->
  Sent asked ∈ own t s' ->
  exists agent, identified options tags = Some agent /\ own_business options r (sf_store s) agent (own t s') asked.
Proof.
  intros Hnew Hts Hp Hin. destruct (served_keeps options sha1 lower tags r t now s Hnew ts s' q Hts Hp) as [[Hj _] _].
  destruct (Hj asked Hin) as (agent & ? & ? & _). by exists agent.
Qed.

(** C14: What an agent writes stays in its place. Of the calls a request makes
    to Slack, those that show anything to anyone are three. A reaction is
    added only to a message of a thread in which the agent had an open turn
    when it asked: the one it is answering, the thread's first, or one Slack
    listed there for this request. A message is the request's own, and goes
    into the channel and the thread the request names, which is not one the
    agent is answering. A file, with its comment, goes into the channel and the
    thread the request names, whichever that is: into the thread it is
    answering too, as the tool offers. *)
Theorem agents_write_in_their_place options sha1 lower tags r t now s (ts : turns) s' q token method params :
  own t s = [] -> Forall (fun turn => minds t (fst (fst turn))) ts ->
  play t (serve options sha1 lower tags r) (enter t now s) ts = Some (s', q) ->
  Sent (RqSlack token method params) ∈ own t s' ->
  exists agent, identified options tags = Some agent /\
    (method ∈ unseen_methods \/
     (method = js "reactions.add" /\ exists channel ts name, params = reaction channel ts name /\
        in_open_thread (sf_store s) agent (own t s') channel ts) \/
     (method = js "chat.postMessage" /\ message_as_asked r (sf_store s) agent params) \/
     (method = js "files.completeUploadExternal" /\ file_as_asked r params)).
Proof.
  intros Hnew Hts Hp Hin. destruct (served_keeps options sha1 lower tags r t now s Hnew ts s' q Hts Hp) as [[Hj _] _].
  destruct (Hj _ Hin) as (agent & ? & _ & ?). by exists agent.
Qed.

(** C15: Every request is answered exactly once. However Slack answers what a
    request awaits, failures included, and whatever else happens meanwhile,
    its handler ends, and by then one response is out; never two are. *)
Theorem every_request_is_answered_once options sha1 lower tags r t now s (replies : nat -> (surface -> surface) * Z * (forall rq, result (answer rq))) :
  own t s = [] -> (forall i, minds t (fst (fst (replies i)))) ->
  (exists n s', play t (serve options sha1 lower tags r) (enter t now s) (inputs replies n) = Some (s', Ret tt) /\ responses (own t s') = 1) /\
  (forall n s' q, play t (serve options sha1 lower tags r) (enter t now s) (inputs replies n) = Some (s', q) -> responses (own t s') <= 1).
Proof.
  intros Hnew Hr.
  assert (Hts : forall n, Forall (fun turn : (surface -> surface) * Z * input Empty_set answer => minds t (fst (fst turn))) (inputs replies n)).
  { intros n. apply Forall_fmap, Forall_true. intros i. specialize (Hr i). cbn. by destruct (replies i) as [[others now'] a]. }
  split.
  - destruct (played_ends issue receive yielded enter ready t (serve options sha1 lower tags r) (enter t now s) replies) as (n & s' & res & Hp); [by intros []|done|].
    destruct (served_keeps options sha1 lower tags r t now s Hnew _ s' _ (Hts n) Hp) as [_ Hq]. exists n, s'.
    destruct res as [[]|e]; [|done]. split; [done|]. apply Hq.
  - intros n s' q Hp. by apply (served_keeps options sha1 lower tags r t now s Hnew _ s' q (Hts n) Hp).
Qed.

(** ** The reaction budget *)

Definition times_of (agent : jstr) (past : list (jstr * Z)) : list Z := snd <$> filter (fun g => fst g = agent) past.
Definition recent (now : Z) (times : list Z) : list Z := filter (fun t => now - t < 60000)%Z times.
Definition within (from : Z) (times : list Z) : list Z := filter (fun t => from <= t < from + 60000)%Z times.

(** Requests by their agents and times, and those that were granted. *)
Fixpoint spend (requests : list (jstr * Z)) (b : gmap jstr (list Z) * list (jstr * Z)) : gmap jstr (list Z) * list (jstr * Z) :=
  match requests with
  | [] => b
  | (agent, now) :: rest =>
      let '(ok, m) := underReactionBudget agent now (fst b) in
      spend rest (m, if ok then snd b ++ [(agent, now)] else snd b)
  end.

Lemma spend_app l k b : spend (l ++ k) b = spend k (spend l b).
Proof. revert b. induction l as [|[agent now] l IH]; intros b; [done|]. cbn. by destruct (underReactionBudget _ _ _). Qed.

Lemma times_of_snoc agent past agent' now :
  times_of agent (past ++ [(agent', now)]) = times_of agent past ++ if decide (agent' = agent) then [now] else [].
Proof. unfold times_of. rewrite filter_app, fmap_app, filter_cons. cbn. by destruct (decide (agent' = agent)). Qed.

Lemma recent_recent n now times : (now <= n)%Z -> recent n (recent now times) = recent n times.
Proof. intros Hn. unfold recent. apply list_filter_filter_l. lia. Qed.

Lemma recent_app n l k : recent n (l ++ k) = recent n l ++ recent n k.
Proof. apply filter_app. Qed.
Lemma within_app from l k : within from (l ++ k) = within from l ++ within from k.
Proof. apply filter_app. Qed.

Lemma within_one from now : length (within from [now]) = if decide (from <= now < from + 60000)%Z then 1 else 0.
Proof. unfold within. rewrite filter_cons. by case_decide. Qed.

Lemma within_recent from now times : (from <= now < from + 60000)%Z -> length (within from times) <= length (recent now times).
Proof.
  intros Hn. unfold within, recent. induction times as [|t times IH]; [done|]. rewrite !filter_cons.
  repeat case_decide; cbn; try lia.
Qed.

(** From [last] on the table gives the recent grants, and no minute has more
    than the limit. *)
Definition budgeted (last : Z) (b : gmap jstr (list Z) * list (jstr * Z)) : Prop :=
  (forall agent n, (last <= n)%Z -> recent n (default [] (fst b !! agent)) = recent n (times_of agent (snd b))) /\
  (forall agent from, length (within from (times_of agent (snd b))) <= REACTIONS_PER_MINUTE).

Lemma budget_decides last agent now b : budgeted last b -> (last <= now)%Z ->
  fst (underReactionBudget agent now (fst b)) = bool_decide (length (recent now (times_of agent (snd b))) < REACTIONS_PER_MINUTE).
Proof.
  intros [Ht _] Hn. unfold underReactionBudget. change (filter _ (default [] _)) with (recent now (default [] (fst b !! agent))).
  rewrite (Ht agent now Hn). cbv zeta. destruct (Nat.leb_spec REACTIONS_PER_MINUTE (length (recent now (times_of agent (snd b))))).
  - cbn [fst]. symmetry. apply bool_decide_eq_false. lia.
  - cbn [fst]. symmetry. by apply bool_decide_eq_true.
Qed.

Lemma budgeted_step last agent now b : budgeted last b -> (last <= now)%Z -> budgeted now (spend [(agent, now)] b).
Proof.
  intros Hb Hn. pose proof (budget_decides last agent now b Hb Hn) as Hd. destruct Hb as [Ht Hw]. cbn [spend].
  destruct (underReactionBudget agent now (fst b)) as [ok m] eqn:E. cbn [fst] in Hd.
  unfold underReactionBudget in E. change (filter _ (default [] _)) with (recent now (default [] (fst b !! agent))) in E. cbv zeta in E.
  assert (Hm : m = <[agent := recent now (default [] (fst b !! agent)) ++ if ok then [now] else []]> (fst b)).
  { destruct (_ <=? _); injection E as <- <-; [by rewrite app_nil_r|done]. }
  clear E. split; cbn [fst snd].
  - intros a n Hle. rewrite Hm. destruct (decide (agent = a)) as [<-|Hne].
    + rewrite lookup_insert_eq. cbn [default from_option id].
      rewrite recent_app, recent_recent, (Ht agent n) by lia. destruct ok; [|by rewrite app_nil_r].
      by rewrite times_of_snoc, decide_True, recent_app by done.
    + rewrite lookup_insert_ne by done. rewrite (Ht a n) by lia. destruct ok; [|done].
      by rewrite times_of_snoc, decide_False, app_nil_r by done.
  - intros a from. destruct ok; [|apply Hw]. rewrite times_of_snoc, within_app, length_app.
    specialize (Hw a from). destruct (decide (agent = a)) as [<-|_]; [|change (length (within from [])) with 0; lia].
    rewrite within_one. destruct (decide (from <= now < from + 60000)%Z) as [Hin|_]; [|lia]. symmetry in Hd. apply bool_decide_eq_true in Hd.
    pose proof (within_recent from now (times_of agent (snd b)) Hin). lia.
Qed.

Lemma budgeted_empty last : budgeted last (∅, []).
Proof. split; [intros agent n _; cbn [fst snd]; by rewrite lookup_empty|intros agent from; cbn; lia]. Qed.

Lemma budgeted_spend requests now : StronglySorted Z.le (snd <$> requests) -> Forall (fun r => snd r <= now)%Z requests ->
  budgeted now (spend requests (∅, [])).
Proof.
  revert now. induction requests as [|[agent n] requests IH] using rev_ind; intros now Hs Hl; [apply budgeted_empty|].
  rewrite fmap_app, StronglySorted_app in Hs. destruct Hs as (Hcross & Hs & _). apply Forall_app in Hl as [_ [Hn _]%Forall_cons].
  cbn [snd] in Hn. rewrite spend_app. destruct (budgeted_step n agent n (spend requests (∅, []))) as [Ht Hw]; [|lia|].
  - apply IH; [done|]. apply Forall_forall. intros r Hr. apply Hcross; [by apply list_elem_of_fmap_2|by left].
  - split; [|done]. intros a m Hm. apply Ht. lia.
Qed.

(** An agent is granted at most [REACTIONS_PER_MINUTE] reactions in any
    minute, and one is refused only when that many were granted in the minute
    before it: while the clock does not go back, what the table keeps decides
    as the whole history of grants would. *)
Theorem reaction_budget_is_a_window requests : StronglySorted Z.le (snd <$> requests) ->
  (forall agent from, length (within from (times_of agent (snd (spend requests (∅, []))))) <= REACTIONS_PER_MINUTE) /\
  (forall before agent now, (before ++ [(agent, now)]) `prefix_of` requests ->
     fst (underReactionBudget agent now (fst (spend before (∅, [])))) =
     bool_decide (length (recent now (times_of agent (snd (spend before (∅, []))))) < REACTIONS_PER_MINUTE)).
Proof.
  intros Hs. split.
  - assert (exists now, Forall (fun r => snd r <= now)%Z requests) as [now Hnow].
    { clear Hs. induction requests as [|[agent n] requests [now IH]]; [by exists 0%Z|]. exists (Z.max n now).
      constructor; [cbn; lia|]. eapply Forall_impl; [exact IH|]. cbn. lia. }
    by apply (budgeted_spend requests now Hs Hnow).
  - intros before agent now [rest ->].
    rewrite !fmap_app in Hs. apply StronglySorted_app_1_l, StronglySorted_app in Hs as (Hcross & Hs & _).
    apply (budget_decides now); [|lia]. apply budgeted_spend; [done|].
    apply Forall_forall. intros r Hr. apply Hcross; [by apply list_elem_of_fmap_2|by left].
Qed.

(** ** A run *)

(** An agent with a turn open in a thread reacts to an earlier message of
    it, which Slack is asked to list. *)
Definition demo_server : FileServerOptions :=
  mkFileServer {[js "tag:hearth" := js "hearth"]} (fun agent => if jeqb agent (js "hearth") then Some (js "xoxb-1") else None).
Definition demo_store : BridgeState :=
  recordTask (mkInFlight (js "t1") (js "hearth") (js "C1") (js "1.0") None (Some (js "1.2")) None None) 5 new_state.
Definition demo_route : http_request :=
  PostReactions (Parsed (VObj [(js "message_ts", VStr (js "1.1")); (js "emoji", VStr (js ":eyes:"))])).
Definition demo_tags : option jstr := Some (js "tag:other, tag:hearth").
Definition same_letters (s : jstr) : jstr := s.

Definition listed : jsval :=
  VObj [(js "ok", VBool true); (js "messages", VArr [VObj [(js "ts", VStr (js "1.0"))]; VObj [(js "ts", VStr (js "1.1"))]])].
Definition lists_the_thread (rq : request) : result (answer rq) :=
  match rq return result (answer rq) with
  | RqSlack _ _ _ => Val (mkAnswer 200 listed)
  | RqUpload _ _ => Val (true, 200%Z)
  | RqDownload _ _ => Exn (js "down")
  | RqPipe _ => Val None
  end.
Definition demo_replies (i : nat) : (surface -> surface) * Z * (forall rq, result (answer rq)) := (fun s => s, 100%Z, lists_the_thread).

Definition demo_played : option (surface * cmd unit) :=
  play 0 (serve demo_server (fun b => b) same_letters demo_tags demo_route) (enter 0 100 (new_surface demo_store)) (inputs demo_replies 2).
Definition demo_end : surface := default (new_surface demo_store) (fst <$> demo_played).
Definition demo_asked : request := RqSlack (js "xoxb-1") (js "reactions.add") (reaction (js "C1") (js "1.1") (js "eyes")).

Lemma demo_runs : demo_played = Some (demo_end, Ret tt).
Proof. evaluated. Qed.
Lemma demo_asks : Sent demo_asked ∈ own 0 demo_end.
Proof. apply list_elem_of_lookup_2 with (i := 2). evaluated. Qed.

Lemma agents_act_as_themselves_witness :
  own_business demo_server demo_route demo_store (js "hearth") (own 0 demo_end) demo_asked.
Proof.
  destruct (agents_act_as_themselves demo_server (fun b => b) same_letters demo_tags demo_route 0 100 (new_surface demo_store)
    (inputs demo_replies 2) demo_end (Ret tt) demo_asked) as (agent & Hagent & H).
  - reflexivity.
  - repeat constructor.
  - exact demo_runs.
  - exact demo_asks.
  - assert (agent = js "hearth") as -> by (vm_compute in Hagent; injection Hagent as <-; reflexivity). exact H.
Defined.

Lemma agents_write_in_their_place_witness :
  exists agent, identified demo_server demo_tags = Some agent /\
    (js "reactions.add" ∈ unseen_methods \/
     (js "reactions.add" = js "reactions.add" /\ exists channel ts name, reaction (js "C1") (js "1.1") (js "eyes") = reaction channel ts name /\
        in_open_thread demo_store agent (own 0 demo_end) channel ts) \/
     (js "reactions.add" = js "chat.postMessage" /\ message_as_asked demo_route demo_store agent (reaction (js "C1") (js "1.1") (js "eyes"))) \/
     (js "reactions.add" = js "files.completeUploadExternal" /\ file_as_asked demo_route (reaction (js "C1") (js "1.1") (js "eyes")))).
Proof.
  apply (agents_write_in_their_place demo_server (fun b => b) same_letters demo_tags demo_route 0 100 (new_surface demo_store)
    (inputs demo_replies 2) demo_end (Ret tt) (js "xoxb-1") (js "reactions.add") (reaction (js "C1") (js "1.1") (js "eyes"))).
  - reflexivity.
  - repeat constructor.
  - exact demo_runs.
  - exact demo_asks.
Defined.

Lemma every_request_is_answered_once_witness :
  responses (own 0 demo_end) = 1 /\ responses (own 0 demo_end) <= 1.
Proof.
  split; [evaluated|].
  refine (proj2 (every_request_is_answered_once demo_server (fun b => b) same_letters demo_tags demo_route 0 100 (new_surface demo_store)
    demo_replies _ _) 2 demo_end (Ret tt) demo_runs).
  - reflexivity.
  - intros i s. reflexivity.
Defined.

(** Twenty-one reactions at once, and another a minute later. *)
Definition demo_requests : list (jstr * Z) := (fun t => (js "hearth", t)) <$> (replicate 21 0 ++ [60000])%Z.

Lemma reaction_budget_is_a_window_witness :
  length (snd (spend demo_requests (∅, []))) = 21 /\
  length (within 0 (times_of (js "hearth") (snd (spend demo_requests (∅, []))))) <= REACTIONS_PER_MINUTE.
Proof.
  split; [evaluated|].
  refine (proj1 (reaction_budget_is_a_window demo_requests _) (js "hearth") 0%Z).
  repeat constructor; discriminate.
Defined.
