(* ===== verification/SlackSocket.v ===== *)
(** [apps/slack/src/socket-mode.ts] and [apps/slack/src/socket.ts]: one Socket
    Mode connection, of the client that speaks the protocol and the wrapper
    that watches it. An emitted event runs its listeners at once, so the two
    move together; what the socket, the timers and the supervisor do is input.

    Then: a Socket Mode connection that dies is reported, once; what it hands
    on it has acknowledged. *)

From S2P Require Import Prelude Envelope Async Values SlackQuestions SlackTranslate.
#[local] Open Scope nat_scope.

(** ** State *)

(** [socket.readyState]. *)
Inductive ready_state := Connecting | Opened | Closing | Closed.
#[export] Instance ready_state_eq_dec : EqDecision ready_state.
Proof. solve_decision. Defined.

Inductive settled := Unsettled | Fulfilled | Failed (message : jstr).

(** The client: the socket [start] made and whether [this.socket] is it,
    [start]'s [greeted], the silence timer, and the promise of [start]. *)
Record client := mkClient {
  cl_opening : bool;
  cl_ws : option ready_state;
  cl_socket : bool;
  cl_greeted : bool;
  cl_silence : bool;
  cl_closed : bool;
  cl_start : settled }.

(** The wrapper: the recovery deadline with what it was set for, the timer
    of [start] and its promise ([None] before the call). *)
Record wrapper := mkWrapper {
  wr_deadline : option jstr;
  wr_downFired : bool;
  wr_stopping : bool;
  wr_timer : bool;
  wr_start : option settled }.

(** What they do that others see. *)
Inductive out :=
| AskedForUrl
| Dialled (url : jstr)
| HungUp
| Acked (envelope_id : jsval)
| HandedOn (event : InboundEvent)
| Uncaught
| StartSettled (r : settled)
| ToldDown (reason : jstr).

Record connection := mkConnection {
  cn_client : client;
  cn_wrapper : wrapper;
  cn_log : list out }.

Definition new_connection : connection :=
  mkConnection (mkClient false None false false false false Unsettled) (mkWrapper None false false false None) [].

Definition on_client (f : client -> client) (c : connection) : connection := mkConnection (f (cn_client c)) (cn_wrapper c) (cn_log c).
Definition on_wrapper (f : wrapper -> wrapper) (c : connection) : connection := mkConnection (cn_client c) (f (cn_wrapper c)) (cn_log c).
Definition say (o : out) (c : connection) : connection := mkConnection (cn_client c) (cn_wrapper c) (cn_log c ++ [o]).

Definition set_opening (v : bool) (x : client) : client := mkClient v (cl_ws x) (cl_socket x) (cl_greeted x) (cl_silence x) (cl_closed x) (cl_start x).
Definition set_ws (v : option ready_state) (x : client) : client := mkClient (cl_opening x) v (cl_socket x) (cl_greeted x) (cl_silence x) (cl_closed x) (cl_start x).
Definition set_socket (v : bool) (x : client) : client := mkClient (cl_opening x) (cl_ws x) v (cl_greeted x) (cl_silence x) (cl_closed x) (cl_start x).
Definition set_greeted (v : bool) (x : client) : client := mkClient (cl_opening x) (cl_ws x) (cl_socket x) v (cl_silence x) (cl_closed x) (cl_start x).
Definition set_silence (v : bool) (x : client) : client := mkClient (cl_opening x) (cl_ws x) (cl_socket x) (cl_greeted x) v (cl_closed x) (cl_start x).
Definition set_closed (v : bool) (x : client) : client := mkClient (cl_opening x) (cl_ws x) (cl_socket x) (cl_greeted x) (cl_silence x) v (cl_start x).
(** A promise settles once. *)
Definition settle_client (r : settled) (x : client) : client :=
  mkClient (cl_opening x) (cl_ws x) (cl_socket x) (cl_greeted x) (cl_silence x) (cl_closed x)
    (match cl_start x with Unsettled => r | s => s end).

Definition set_deadline (v : option jstr) (x : wrapper) : wrapper := mkWrapper v (wr_downFired x) (wr_stopping x) (wr_timer x) (wr_start x).
Definition set_downFired (x : wrapper) : wrapper := mkWrapper (wr_deadline x) true (wr_stopping x) (wr_timer x) (wr_start x).
Definition set_stopping (x : wrapper) : wrapper := mkWrapper (wr_deadline x) (wr_downFired x) true (wr_timer x) (wr_start x).
Definition set_timer (v : bool) (x : wrapper) : wrapper := mkWrapper (wr_deadline x) (wr_downFired x) (wr_stopping x) v (wr_start x).
Definition set_start (v : settled) (x : wrapper) : wrapper := mkWrapper (wr_deadline x) (wr_downFired x) (wr_stopping x) (wr_timer x) (Some v).

(** ** The wrapper's watch *)

Definition RECOVERY_DEADLINE_MS : Z := 60000.
Definition SILENCE_TIMEOUT_MS : Z := 70000.

Definition noteDisrupted (source : jstr) (c : connection) : connection :=
  let w := cn_wrapper c in
  if wr_stopping w || wr_downFired w || present (wr_deadline w) then c else on_wrapper (set_deadline (Some source)) c.
Definition noteRecovered : connection -> connection := on_wrapper (set_deadline None).

(** [socket.close()]. *)
Definition ws_close (c : connection) : connection :=
  match cl_ws (cn_client c) with
  | Some Connecting | Some Opened => say HungUp (on_client (set_ws (Some Closing)) c)
  | _ => c
  end.
(** [this.socket?.close()]. *)
Definition socket_close (c : connection) : connection := if cl_socket (cn_client c) then ws_close c else c.

(** [disconnect]; its listener, [down], finds [stopping] or [downFired] set
    wherever it is called from and does nothing. *)
Definition disconnect (c : connection) : connection :=
  on_client (set_socket false) (socket_close (on_client (fun x => set_silence false (set_closed true x)) c)).

(** [SlackSocketConnection.down]. *)
Definition wrapper_down (reason : jstr) (c : connection) : connection :=
  let w := cn_wrapper c in
  if wr_stopping w || wr_downFired w then c
  else say (ToldDown reason) (disconnect (on_wrapper (fun x => set_deadline None (set_downFired x)) c)).

(** ** The client *)

(** [SocketModeConnection.down]. *)
Definition client_down (c : connection) : connection :=
  if cl_closed (cn_client c) then c
  else noteDisrupted (js "close") (socket_close (on_client (fun x => set_silence false (set_closed true x)) c)).

Definition touch (c : connection) : connection := on_client (fun x => set_silence (negb (cl_closed x)) x) c.

Definition ack (envelope_id : jsval) (c : connection) : connection :=
  if cl_socket (cn_client c) && bool_decide (cl_ws (cn_client c) = Some Opened) then say (Acked envelope_id) c else c.

Definition hand_on (event : option InboundEvent) (c : connection) : connection :=
  match event with Some e => say (HandedOn e) c | None => c end.

(** The listener of ["slack_event"]: the acknowledgement comes first. A
    [TypeError] in it ends the process, unless someone catches what no one
    caught. *)
Definition on_slack_event (envelope_id type event body : jsval) (c : connection) : connection :=
  let c := ack envelope_id c in
  let body := or_else body (VObj []) in
  if is_str type (js "interactive") || is_str (prop body (js "type")) (js "block_actions") then
    match translateSlackInteraction body, (match prop body (js "actions") with
                                           | VArr l => mapM (fun action => get action (js "action_id")) l
                                           | _ => Some []
                                           end) with
    | Some e, Some _ => hand_on e c
    | _, _ => say Uncaught c
    end
  else
    match or_else event (prop body (js "event")) with
    | VUndef => c
    | VNull => say Uncaught c
    | raw => hand_on (translateSlackEvent raw) c
    end.

Definition deliver (frame type : jsval) (c : connection) : connection :=
  let envelope_id := prop frame (js "envelope_id") in
  if negb (defined envelope_id) then c else
  let payload := prop frame (js "payload") in
  on_slack_event envelope_id type (get_opt payload (js "event")) payload c.

(** ["message"]: [None] is a frame that does not parse. *)
Definition on_message (frame : option jsval) (c : connection) : connection :=
  let c := touch c in
  match frame with
  | None => c
  | Some f =>
      match get f (js "type") with
      | None => say Uncaught c
      | Some type =>
          if is_str type (js "hello") then
            if cl_greeted (cn_client c) then c
            else on_client (settle_client Fulfilled) (noteRecovered (on_client (set_greeted true) c))
          else if is_str type (js "disconnect") then client_down c
          else deliver f type c
      end
  end.

Definition reject_ungreeted (message : jstr) (x : client) : client := if cl_greeted x then x else settle_client (Failed message) x.

Definition on_error (message : jstr) (c : connection) : connection :=
  client_down (on_client (reject_ungreeted message) (noteDisrupted (js "error") c)).

Definition on_close (code : Z) (c : connection) : connection :=
  on_client (reject_ungreeted (js "socket closed before hello: " ++ show_Z code)) (client_down (on_client (set_ws (Some Closed)) c)).

(** [openConnection]'s answer: the status and body, or the failure of the
    call. The socket is made whatever happened meanwhile. *)
Definition on_url (a : result (Z * jsval)) (c : connection) : connection :=
  let c := on_client (set_opening false) c in
  match a with
  | Exn e => on_client (settle_client (Failed e)) c
  | Val (status, body) =>
      match get body (js "ok") with
      | None => on_client (settle_client (Failed (js "TypeError"))) c
      | Some ok =>
          match ok, prop body (js "url") with
          | VBool true, VStr url => say (Dialled url) (on_client (fun x => set_socket true (set_ws (Some Connecting) x)) c)
          | _, _ =>
              on_client (settle_client (Failed (js "apps.connections.open failed: "
                ++ to_string (or_else (prop body (js "error")) (VStr (js "http " ++ show_Z status)))))) c
          end
      end
  end.

(** ** The wrapper's [start] and [stop] *)

Definition start (c : connection) : connection :=
  say AskedForUrl (on_client (set_opening true) (on_wrapper (fun x => set_timer true (set_start Unsettled x)) c)).

Definition settle_start (r : settled) (c : connection) : connection := say (StartSettled r) (on_wrapper (set_start r) c).

Definition start_timed_out (c : connection) : connection :=
  settle_start (Failed (js "socket mode did not connect within " ++ show_Z RECOVERY_DEADLINE_MS ++ js "ms"))
    (disconnect (on_wrapper (fun x => set_stopping (set_timer false x)) c)).

Definition stop (c : connection) : connection := disconnect (on_wrapper (fun x => set_deadline None (set_stopping x)) c).

(** ** Inputs *)

Inductive input :=
| Start
| UrlAnswered (a : result (Z * jsval))
| WsOpen
| WsPing
| WsMessage (frame : option jsval)
| WsError (message : jstr)
| WsClose (code : Z)
| SilenceFires
| StartSettles
| StartTimesOut
| DeadlineFires
| Stop.

(** Whether the socket still delivers. *)
Definition delivering (c : connection) : bool :=
  bool_decide (cl_ws (cn_client c) = Some Opened) || bool_decide (cl_ws (cn_client c) = Some Closing).
Definition alive (c : connection) : bool := match cl_ws (cn_client c) with None | Some Closed => false | _ => true end.

(** [None]: the input cannot come now. *)
Definition step (i : input) (c : connection) : option connection :=
  match i with
  | Start => match wr_start (cn_wrapper c) with None => Some (start c) | Some _ => None end
  | UrlAnswered a => if cl_opening (cn_client c) then Some (on_url a c) else None
  | WsOpen => if bool_decide (cl_ws (cn_client c) = Some Connecting) then Some (touch (on_client (set_ws (Some Opened)) c)) else None
  | WsPing => if delivering c then Some (touch c) else None
  | WsMessage frame => if delivering c then Some (on_message frame c) else None
  | WsError message => if alive c then Some (on_error message c) else None
  | WsClose code => if alive c then Some (on_close code c) else None
  | SilenceFires => if cl_silence (cn_client c) then Some (client_down c) else None
  | StartSettles =>
      match wr_start (cn_wrapper c), cl_start (cn_client c) with
      | Some Unsettled, Unsettled => None
      | Some Unsettled, r => Some (settle_start r (on_wrapper (set_timer false) c))
      | _, _ => None
      end
  | StartTimesOut => if wr_timer (cn_wrapper c) then Some (start_timed_out c) else None
  | DeadlineFires =>
      match wr_deadline (cn_wrapper c) with
      | Some source =>
          Some (wrapper_down (js "socket did not recover within " ++ show_Z RECOVERY_DEADLINE_MS ++ js "ms after " ++ source)
                  (on_wrapper (set_deadline None) c))
      | None => None
      end
  | Stop => Some (stop c)
  end.

Fixpoint steps (inputs : list input) (c : connection) : option connection :=
  match inputs with
  | [] => Some c
  | i :: t => c' ← step i c; steps t c'
  end.


Lemma steps_app a b c : steps (a ++ b) c = steps a c ≫= steps b.
Proof. revert c. induction a as [|i a IH]; intros c; [done|]. cbn [app steps]. destruct (step i c); [apply IH|done]. Qed.

(** ** What a log tells *)

Definition tells (o : out) : bool := match o with ToldDown _ => true | _ => false end.
Definition told (log : list out) : nat := length (filter (fun o => tells o = true) log).

Lemma told_app l k : told (l ++ k) = told l + told k.
Proof. unfold told. by rewrite filter_app, length_app. Qed.
Lemma sock_told_quiet l o : tells o = false -> told (l ++ [o]) = told l.
Proof. rewrite told_app. destruct o; try done; intros _; apply Nat.add_0_r. Qed.
Lemma told_down l reason : told (l ++ [ToldDown reason]) = S (told l).
Proof. by rewrite told_app, Nat.add_1_r. Qed.
Ltac tell := repeat first [rewrite sock_told_quiet by done|rewrite told_down].

(** What a frame makes the listeners do: nothing, or acknowledge, if the
    socket is open, and then hand on one event, none, or fail. *)
Definition handed (envelope_id : jsval) (open : bool) (outs : list out) : Prop :=
  exists rest, outs = (if open then [Acked envelope_id] else []) ++ rest /\
    (rest = [] \/ rest = [Uncaught] \/ exists e, rest = [HandedOn e]).

Definition can_ack (c : connection) : bool := cl_socket (cn_client c) && bool_decide (cl_ws (cn_client c) = Some Opened).

Lemma hand_on_outs e c : exists rest, hand_on e c = mkConnection (cn_client c) (cn_wrapper c) (cn_log c ++ rest) /\
  (rest = [] \/ rest = [Uncaught] \/ exists e', rest = [HandedOn e']).
Proof.
  destruct e as [e|]; [exists [HandedOn e]; split; [done|right; right; by exists e]|exists []; split; [|by left]].
  rewrite app_nil_r. by destruct c.
Qed.

Lemma deliver_outs f type c : exists outs, deliver f type c = mkConnection (cn_client c) (cn_wrapper c) (cn_log c ++ outs) /\
  (outs = [] \/ defined (prop f (js "envelope_id")) = true /\ handed (prop f (js "envelope_id")) (can_ack c) outs).
Proof.
  unfold deliver. destruct (defined (prop f (js "envelope_id"))) eqn:Ed; cbn [negb].
  2: { exists []. rewrite app_nil_r. split; [by destruct c|by left]. }
  set (id := prop f (js "envelope_id")). unfold on_slack_event.
  assert (Ha : exists a, ack id c = mkConnection (cn_client c) (cn_wrapper c) (cn_log c ++ a) /\ a = if can_ack c then [Acked id] else []).
  { unfold ack. fold (can_ack c). destruct (can_ack c); eexists; [done|]. rewrite app_nil_r. by destruct c. }
  destruct Ha as (a & -> & Ea).
  assert (Hrest : forall rest c', c' = mkConnection (cn_client c) (cn_wrapper c) ((cn_log c ++ a) ++ rest) ->
            (rest = [] \/ rest = [Uncaught] \/ exists e', rest = [HandedOn e']) ->
            exists outs, c' = mkConnection (cn_client c) (cn_wrapper c) (cn_log c ++ outs) /\
              (outs = [] \/ true = true /\ handed id (can_ack c) outs)).
  { intros rest c' -> Hr. exists (a ++ rest). rewrite app_assoc. split; [done|]. right. split; [done|]. exists rest. by rewrite Ea. }
  assert (Hon : forall e, exists outs, hand_on e (mkConnection (cn_client c) (cn_wrapper c) (cn_log c ++ a)) =
              mkConnection (cn_client c) (cn_wrapper c) (cn_log c ++ outs) /\ (outs = [] \/ true = true /\ handed id (can_ack c) outs)).
  { intros e. destruct (hand_on_outs e (mkConnection (cn_client c) (cn_wrapper c) (cn_log c ++ a))) as (rest & -> & Hr). by apply (Hrest rest). }
  assert (Hun : exists outs, say Uncaught (mkConnection (cn_client c) (cn_wrapper c) (cn_log c ++ a)) =
              mkConnection (cn_client c) (cn_wrapper c) (cn_log c ++ outs) /\ (outs = [] \/ true = true /\ handed id (can_ack c) outs)).
  { apply (Hrest [Uncaught]); [done|by right; left]. }
  destruct (_ || _).
  - destruct (translateSlackInteraction _) as [e|]; [|exact Hun]. destruct (match prop _ _ with VArr _ => _ | _ => _ end); [apply Hon|exact Hun].
  - destruct (or_else _ _); try apply Hon; [|exact Hun]. by apply (Hrest []); [rewrite app_nil_r|left].
Qed.

Lemma handed_tells id open outs : handed id open outs -> told outs = 0.
Proof. intros (rest & -> & [->|[->|(e & ->)]]); by destruct open. Qed.

(** ** The watch *)

(** A greeting comes before whatever closes the client. *)
Definition polite (i : input) (c : connection) : Prop :=
  match i with
  | WsMessage (Some f) => is_str (prop f (js "type")) (js "hello") = true -> cl_greeted (cn_client c) = true \/ cl_closed (cn_client c) = false
  | _ => True
  end.

(** Once greeted, a timer runs that ends in a report, unless one was made or
    the connection was stopped; a start under way has its timer. *)
Record watched (c : connection) : Prop := {
  w_told : told (cn_log c) = if wr_downFired (cn_wrapper c) then 1 else 0;
  w_silence : cl_silence (cn_client c) = true -> cl_closed (cn_client c) = false;
  w_greeted : cl_greeted (cn_client c) = true ->
    wr_stopping (cn_wrapper c) || wr_downFired (cn_wrapper c) || present (wr_deadline (cn_wrapper c)) || cl_silence (cn_client c) = true;
  w_fulfilled : cl_start (cn_client c) = Fulfilled -> cl_greeted (cn_client c) = true;
  w_started : wr_start (cn_wrapper c) = Some Fulfilled -> cl_greeted (cn_client c) = true;
  w_pending : wr_start (cn_wrapper c) = Some Unsettled -> wr_timer (cn_wrapper c) = true }.

(** The flags of the wrapper, which only [stop], a timeout and a report set. *)
Definition flags (c : connection) : bool * bool := (wr_stopping (cn_wrapper c), wr_downFired (cn_wrapper c)).

Ltac fields := cbv beta iota zeta delta [start_timed_out settle_start stop wrapper_down client_down on_error on_close on_url start reject_ungreeted
  noteDisrupted noteRecovered disconnect socket_close ws_close touch on_client on_wrapper say settle_client flags
  set_opening set_ws set_socket set_greeted set_silence set_closed set_deadline set_downFired set_stopping set_timer set_start
  cn_client cn_wrapper cn_log cl_opening cl_ws cl_socket cl_greeted cl_silence cl_closed cl_start
  wr_deadline wr_downFired wr_stopping wr_timer wr_start present orb andb negb] in *.

Lemma watched_new : watched new_connection.
Proof. by split. Qed.

Lemma watched_client_down c : watched c -> watched (client_down c).
Proof.
  destruct c as [[op ws so gr si cl st] [de df sp ti wst] log]. intros [H1 H2 H3 H4 H5 H6]. fields.
  destruct cl; fields; [by split|]. destruct so, ws as [[]|], sp, df, de; fields; split; fields; tell; done.
Qed.

(** A state whose client part has been cut loose from the watch. *)
Lemma watched_wrapper_down reason c : watched c -> watched (wrapper_down reason c).
Proof.
  destruct c as [[op ws so gr si cl st] [de df sp ti wst] log]. intros [H1 H2 H3 H4 H5 H6]. fields.
  destruct sp, df; fields; try by split.
  destruct so, ws as [[]|]; fields; split; fields; tell; rewrite ?H1; done.
Qed.

Lemma watched_stop c : watched c -> watched (stop c).
Proof.
  destruct c as [[op ws so gr si cl st] [de df sp ti wst] log]. intros [H1 H2 H3 H4 H5 H6]. fields.
  destruct so, ws as [[]|]; fields; split; fields; tell; done.
Qed.

Lemma watched_start_timed_out c : watched c -> watched (start_timed_out c).
Proof.
  destruct c as [[op ws so gr si cl st] [de df sp ti wst] log]. intros [H1 H2 H3 H4 H5 H6]. fields.
  destruct so, ws as [[]|]; fields; split; fields; tell; done.
Qed.

Lemma watched_touch c : watched c -> watched (touch c).
Proof.
  destruct c as [[op ws so gr si cl st] [de df sp ti wst] log]. intros [H1 H2 H3 H4 H5 H6]. fields.
  destruct cl; fields; split; fields; try done; intros Hg; specialize (H3 Hg).
  - destruct si; [by specialize (H2 eq_refl)|done].
  - by destruct sp, df, de.
Qed.

Lemma watched_on_error m c : watched c -> watched (on_error m c).
Proof.
  intros Hc. unfold on_error. apply watched_client_down. revert Hc.
  destruct c as [[op ws so gr si cl st] [de df sp ti wst] log]. intros [H1 H2 H3 H4 H5 H6]. fields.
  destruct gr, sp, df, de, st; fields; split; fields; done.
Qed.

Lemma watched_on_close code c : watched c -> watched (on_close code c).
Proof.
  intros Hc. unfold on_close.
  assert (Hd : watched (client_down (on_client (set_ws (Some Closed)) c))).
  { apply watched_client_down. destruct c as [[op ws so gr si cl st] [de df sp ti wst] log]. by destruct Hc. }
  revert Hd. generalize (client_down (on_client (set_ws (Some Closed)) c)). intros [[op ws so gr si cl st] w log] [H1 H2 H3 H4 H5 H6].
  fields. destruct gr, st; fields; split; fields; done.
Qed.

Lemma watched_on_url a c : watched c -> watched (on_url a c).
Proof.
  destruct c as [[op ws so gr si cl st] [de df sp ti wst] log]. intros [H1 H2 H3 H4 H5 H6]. fields.
  assert (Hfail : forall st', (st' = Fulfilled -> st = Fulfilled) -> watched (mkConnection (mkClient false ws so gr si cl st') (mkWrapper de df sp ti wst) log)).
  { intros st' Hst. split; fields; auto. }
  destruct a as [[status body]|e]; fields; [|apply Hfail; by destruct st]. destruct (get body (js "ok")) as [ok|]; fields; [|apply Hfail; by destruct st].
  destruct ok as [| |[]| | | |]; fields; try (apply Hfail; by destruct st). destruct (prop body (js "url")); fields; try (apply Hfail; by destruct st).
  split; fields; tell; done.
Qed.

Lemma watched_on_message frame c : watched c -> polite (WsMessage frame) c -> watched (on_message frame c).
Proof.
  intros Hc Hp. unfold on_message. pose proof (watched_touch c Hc) as Ht. destruct frame as [f|]; [|done].
  destruct (get f (js "type")) as [type|] eqn:Ety.
  2: { revert Ht. generalize (touch c). intros [cl wr log] [H1 H2 H3 H4 H5 H6]. fields. split; fields; by tell. }
  assert (prop f (js "type") = type) as Etype by (unfold get in Ety; destruct (nullish f); congruence).
  destruct (is_str type (js "hello")) eqn:Eh; [|destruct (is_str type (js "disconnect"))].
  - cbn in Hp. rewrite Etype in Hp. specialize (Hp Eh). revert Ht Hp. clear.
    destruct c as [[op ws so gr si cl st] [de df sp ti wst] log]. fields. intros [H1 H2 H3 H4 H5 H6]. fields.
    destruct gr; fields; [by split|]. intros [?| ->]; [done|]. fields. split; fields; try done. by destruct sp, df.
  - by apply watched_client_down.
  - destruct (deliver_outs f type (touch c)) as (outs & -> & Ho). destruct Ht as [H1 H2 H3 H4 H5 H6]. split; fields; try done.
    rewrite told_app, H1. replace (told outs) with 0; [by rewrite Nat.add_0_r|]. destruct Ho as [->|[_ Ho]]; [done|]. symmetry. by eapply handed_tells.
Qed.

Lemma watched_deadline reason source c : watched c -> wr_deadline (cn_wrapper c) = Some source ->
  watched (wrapper_down reason (on_wrapper (set_deadline None) c)).
Proof.
  destruct c as [[op ws so gr si cl st] [de df sp ti wst] log]. intros [H1 H2 H3 H4 H5 H6] E. fields. subst de.
  destruct sp, df; fields; [by split..|].
  destruct so, ws as [[]|]; fields; split; fields; tell; rewrite ?H1; done.
Qed.

Lemma watched_step i c c' : watched c -> polite i c -> step i c = Some c' -> watched c'.
Proof.
  intros Hc Hp. destruct i; cbn [step].
  - destruct (wr_start (cn_wrapper c)) eqn:E; [done|]. intros [= <-]. destruct c as [[op ws so gr si cl st] [de df sp ti wst] log].
    destruct Hc as [H1 H2 H3 H4 H5 H6]. fields. split; fields; tell; done.
  - destruct (cl_opening _); [|done]. intros [= <-]. by apply watched_on_url.
  - destruct (bool_decide _); [|done]. intros [= <-]. apply watched_touch. destruct c as [[op ws so gr si cl st] [de df sp ti wst] log].
    by destruct Hc.
  - destruct (delivering c); [|done]. intros [= <-]. by apply watched_touch.
  - destruct (delivering c); [|done]. intros [= <-]. by apply watched_on_message.
  - destruct (alive c); [|done]. intros [= <-]. by apply watched_on_error.
  - destruct (alive c); [|done]. intros [= <-]. by apply watched_on_close.
  - destruct (cl_silence _); [|done]. intros [= <-]. by apply watched_client_down.
  - destruct c as [[op ws so gr si cl st] [de df sp ti wst] log], Hc as [H1 H2 H3 H4 H5 H6]. fields.
    destruct wst as [[]|], st; try done; intros [= <-]; split; fields; tell; by auto.
  - destruct (wr_timer _); [|done]. intros [= <-]. by apply watched_start_timed_out.
  - destruct (wr_deadline (cn_wrapper c)) as [source|] eqn:E; [|done]. intros [= <-]. by apply (watched_deadline _ source).
  - intros [= <-]. by apply watched_stop.
Qed.

Fixpoint polite_steps (inputs : list input) (c : connection) : Prop :=
  match inputs with
  | [] => True
  | i :: t => polite i c /\ match step i c with Some c' => polite_steps t c' | None => True end
  end.

Lemma watched_steps inputs c c' : watched c -> polite_steps inputs c -> steps inputs c = Some c' -> watched c'.
Proof.
  revert c. induction inputs as [|i inputs IH]; intros c Hc; cbn; [by intros _ [= <-]|]. intros [Hi Hp].
  destruct (step i c) as [c1|] eqn:E; [|done]. cbn. apply IH; [by eapply watched_step|done].
Qed.

(** ** After a stop *)


Lemma flags_client_down c : flags (client_down c) = flags c.
Proof.
  destruct c as [[op ws so gr si cl st] [de df sp ti wst] log]. fields.
  by destruct cl, so, ws as [[]|], sp, df, de.
Qed.
Lemma flags_noteDisrupted source c : flags (noteDisrupted source c) = flags c.
Proof. unfold noteDisrupted. by destruct (_ || _). Qed.
Lemma flags_disconnect c : flags (disconnect c) = flags c.
Proof. destruct c as [[op ws so gr si cl st] w log]. fields. by destruct so, ws as [[]|]. Qed.

Lemma flags_timed_out c : flags (start_timed_out c) = (true, snd (flags c)).
Proof.
  unfold start_timed_out. change (flags (settle_start ?r ?x)) with (flags x). by rewrite flags_disconnect.
Qed.

Lemma flags_message frame c : flags (on_message frame c) = flags c.
Proof.
  unfold on_message. destruct frame as [f|]; [|done]. destruct (get f (js "type")) as [type|]; [|done].
  destruct (is_str _ _); [by destruct (cl_greeted _)|]. destruct (is_str _ _); [apply (flags_client_down (touch c))|].
  by destruct (deliver_outs f type (touch c)) as (outs & -> & _).
Qed.

Lemma flags_url a c : flags (on_url a c) = flags c.
Proof.
  unfold on_url. destruct a as [[status body]|e]; [|done]. destruct (get body (js "ok")) as [ok|]; [|done].
  destruct ok as [| |[]| | | |]; try done. by destruct (prop body (js "url")).
Qed.

Lemma stopped_step i c c' : wr_stopping (cn_wrapper c) = true -> step i c = Some c' -> flags c' = flags c.
Proof.
  intros Hs. unfold step. destruct i; repeat case_match; try discriminate; intros [= <-]; try done.
  - apply flags_url.
  - apply flags_message.
  - unfold on_error. rewrite flags_client_down. apply flags_noteDisrupted.
  - unfold on_close. change (flags (on_client _ ?x)) with (flags x). by rewrite flags_client_down.
  - apply flags_client_down.
  - rewrite flags_timed_out. unfold flags. by rewrite Hs.
  - unfold wrapper_down. cbn. by rewrite Hs.
  - unfold stop. rewrite flags_disconnect. unfold flags. cbn. by rewrite Hs.
Qed.

Lemma stopped_steps inputs c c' : wr_stopping (cn_wrapper c) = true -> steps inputs c = Some c' -> flags c' = flags c.
Proof.
  revert c. induction inputs as [|i inputs IH]; intros c Hs; cbn; [by intros [= <-]|].
  destruct (step i c) as [c1|] eqn:E; [|done]. cbn. pose proof (stopped_step i c c1 Hs E) as Hf. intros H. rewrite <- Hf. apply IH; [|done].
  apply (f_equal fst) in Hf. cbn in Hf. congruence.
Qed.

(** ** The timers *)

Lemma deadline_tells source c : wr_deadline (cn_wrapper c) = Some source -> wr_stopping (cn_wrapper c) = false -> wr_downFired (cn_wrapper c) = false ->
  told (cn_log c) = 0 -> exists c', step DeadlineFires c = Some c' /\ told (cn_log c') = 1.
Proof.
  intros Hd Hs Hf Ht. cbn [step]. rewrite Hd. eexists. split; [done|]. destruct c as [[op ws so gr si cl st] [de df sp ti wst] log].
  fields. subst. fields. destruct so, ws as [[]|]; fields; tell; by rewrite ?Ht.
Qed.

Lemma silence_disrupts c : cl_silence (cn_client c) = true -> cl_closed (cn_client c) = false -> wr_stopping (cn_wrapper c) = false ->
  wr_downFired (cn_wrapper c) = false -> told (cn_log c) = 0 ->
  exists c' source, step SilenceFires c = Some c' /\ wr_deadline (cn_wrapper c') = Some source /\ flags c' = flags c /\ told (cn_log c') = 0.
Proof.
  intros Hsi Hc Hs Hf Ht. cbn [step]. rewrite Hsi. destruct c as [[op ws so gr si cl st] [de df sp ti wst] log]. fields. subst.
  exists (client_down (mkConnection (mkClient op ws so gr true false st) (mkWrapper de false false ti wst) log)), (default (js "close") de).
  split; [done|]. fields.
  destruct de, so, ws as [[]|]; fields; split_and!; try done; by tell.
Qed.

(** ** A demonstration *)

Definition frame_of (type : jstr) (rest : list (jstr * jsval)) : input := WsMessage (Some (VObj ((js "type", VStr type) :: rest))).
Definition demo_url : input := UrlAnswered (Val (200%Z, VObj [(js "ok", VBool true); (js "url", VStr (js "wss://slack.test"))])).
Definition demo_open : list input := [Start; demo_url; WsOpen; frame_of (js "hello") []; StartSettles].
Definition demo_message : jsval :=
  VObj [(js "type", VStr (js "message")); (js "user", VStr (js "U1")); (js "channel_type", VStr (js "im"));
        (js "channel", VStr (js "D1")); (js "ts", VStr (js "1.0")); (js "text", VStr (js "hi"))].
Definition demo_envelope : list (jstr * jsval) :=
  [(js "type", VStr (js "events_api")); (js "envelope_id", VStr (js "e1")); (js "payload", VObj [(js "event", demo_message)])].

(** A connection that is up, and one whose socket was told to go. *)
Definition demo_up : connection := default new_connection (steps demo_open new_connection).
Definition demo_refresh : list input := demo_open ++ [WsMessage (Some (VObj demo_envelope)); frame_of (js "disconnect") []; WsClose 1000].
Definition demo_gone : connection := default new_connection (steps demo_refresh new_connection).

(** C23: A Socket Mode connection is never forgotten. Whatever the socket
    does, with a greeting before anything that ends it: the supervisor is
    told at most once, and never after a stop; a start under way has a timer
    that rejects it; and a connection that was started and has neither been
    stopped nor reported has a timer running that, if nothing more is heard,
    ends in its report. *)
Theorem connection_is_never_forgotten inputs c :
  polite_steps inputs new_connection -> steps inputs new_connection = Some c ->
  told (cn_log c) <= 1 /\
  (wr_stopping (cn_wrapper c) = true -> forall more c', polite_steps more c -> steps more c = Some c' -> told (cn_log c') = told (cn_log c)) /\
  (wr_start (cn_wrapper c) = Some Unsettled -> exists c' message, step StartTimesOut c = Some c' /\ wr_start (cn_wrapper c') = Some (Failed message)) /\
  (wr_start (cn_wrapper c) = Some Fulfilled -> wr_stopping (cn_wrapper c) = false -> told (cn_log c) = 0 ->
   exists timers c', timers ∈ [[DeadlineFires]; [SilenceFires; DeadlineFires]] /\ steps timers c = Some c' /\ told (cn_log c') = 1).
Proof.
  intros Hp Hs. pose proof (watched_steps inputs new_connection c watched_new Hp Hs) as Hw. clear Hp Hs. split_and!.
  - rewrite (w_told c Hw). destruct (wr_downFired _); lia.
  - intros Hst more c' Hp' Hs'. pose proof (watched_steps more c c' Hw Hp' Hs') as Hw'. rewrite (w_told c Hw), (w_told c' Hw').
    pose proof (stopped_steps more c c' Hst Hs') as Hf. apply (f_equal snd) in Hf. cbn in Hf. by rewrite Hf.
  - intros Hst. cbn [step]. rewrite (w_pending c Hw Hst). eexists _, _. split; [done|]. unfold start_timed_out, settle_start, say, on_wrapper, set_start. cbn. done.
  - intros Hst Hstop Ht. pose proof (w_greeted c Hw (w_started c Hw Hst)) as Hg. rewrite Hstop in Hg.
    assert (Hf : wr_downFired (cn_wrapper c) = false) by (pose proof (w_told c Hw); destruct (wr_downFired _); [lia|done]).
    rewrite Hf in Hg. cbn [orb] in Hg. destruct (wr_deadline (cn_wrapper c)) as [source|] eqn:Ed; cbn [present orb] in Hg.
    + destruct (deadline_tells source c Ed Hstop Hf Ht) as (c' & E & ?). exists [DeadlineFires], c'. cbn [steps]. rewrite E.
      split_and!; [by left|done|done].
    + destruct (silence_disrupts c Hg (w_silence c Hw Hg) Hstop Hf Ht) as (c1 & source & E1 & Ed1 & Hfl & Ht1).
      assert (wr_stopping (cn_wrapper c1) = false /\ wr_downFired (cn_wrapper c1) = false) as [Hs1 Hf1].
      { unfold flags in Hfl. injection Hfl as -> ->. done. }
      destruct (deadline_tells source c1 Ed1 Hs1 Hf1 Ht1) as (c' & E & ?). exists [SilenceFires; DeadlineFires], c'. unfold steps. rewrite E1. cbn [mbind option_bind]. rewrite E.
      split_and!; [by right; left|done|done].
Qed.

Lemma connection_is_never_forgotten_witness :
  (told (cn_log demo_gone) <= 1 /\ told (cn_log demo_gone) = 0) /\
  (exists timers c', timers ∈ [[DeadlineFires]; [SilenceFires; DeadlineFires]] /\ steps timers demo_gone = Some c' /\ told (cn_log c') = 1) /\
  (exists timers c', timers ∈ [[DeadlineFires]; [SilenceFires; DeadlineFires]] /\ steps timers demo_up = Some c' /\ told (cn_log c') = 1).
Proof.
  split_and!.
  - apply (connection_is_never_forgotten demo_refresh demo_gone); [by vm_compute; auto 20|by vm_compute].
  - by vm_compute.
  - apply (connection_is_never_forgotten demo_refresh demo_gone); [by vm_compute; auto 20|by vm_compute..].
  - apply (connection_is_never_forgotten demo_open demo_up); [by vm_compute; auto 20|by vm_compute..].
Defined.

Definition handed_on : list out -> list InboundEvent := omap (fun o => match o with HandedOn e => Some e | _ => None end).

Lemma handed_on_app a b : handed_on (a ++ b) = handed_on a ++ handed_on b.
Proof. apply omap_app. Qed.
Lemma handed_on_in e outs : HandedOn e ∈ outs -> e ∈ handed_on outs.
Proof. intros H. apply list_elem_of_omap. by exists (HandedOn e). Qed.

(** What a frame adds to the log. *)
Lemma message_outs f c : exists outs, cn_log (on_message (Some f) c) = cn_log c ++ outs /\
  (handed_on outs = [] \/ defined (prop f (js "envelope_id")) = true /\ handed (prop f (js "envelope_id")) (can_ack c) outs).
Proof.
  unfold on_message. destruct (get f (js "type")) as [type|]; [|exists [Uncaught]; split; [done|by left]].
  destruct (is_str type (js "hello")).
  { exists []. rewrite app_nil_r. split; [by destruct (cl_greeted _)|by left]. }
  destruct (is_str type (js "disconnect")).
  { destruct c as [[op ws so gr si cl st] [de df sp ti wst] log]. fields.
    destruct cl, so, ws as [[]|], sp, df, de; fields;
      first [exists [HungUp]; split; [done|by left]|exists []; rewrite app_nil_r; split; [done|by left]]. }
  destruct (deliver_outs f type (touch c)) as (outs & -> & [->|Ho]); [exists []; split; [done|by left]|].
  exists outs. split; [done|]. by right.
Qed.

(** An event is acknowledged before it is handed on, and handed on once.
    A frame makes the connection hand on at most one event, and that only
    for an envelope with an id, whose acknowledgement goes out first while
    the socket is open. *)
Theorem events_are_acknowledged_first f c c' : step (WsMessage (Some f)) c = Some c' ->
  exists outs, cn_log c' = cn_log c ++ outs /\ length (handed_on outs) <= 1 /\
    (forall e, HandedOn e ∈ outs -> defined (prop f (js "envelope_id")) = true /\
       (can_ack c = true -> head outs = Some (Acked (prop f (js "envelope_id"))))).
Proof.
  cbn [step]. destruct (delivering c); [|done]. intros [= <-]. destruct (message_outs f c) as (outs & E & [Ho|[Hid (rest & -> & Hrest)]]);
    (eexists; split; [exact E|]).
  - rewrite Ho. split; [cbn; lia|]. intros e He%handed_on_in. rewrite Ho in He. by apply elem_of_nil in He.
  - split; [|intros e _; split; [done|by intros ->]]. rewrite handed_on_app, length_app.
    by destruct (can_ack c), Hrest as [->|[->|(e & ->)]]; cbn; lia.
Qed.

Lemma events_are_acknowledged_first_witness :
  exists outs, cn_log (on_message (Some (VObj demo_envelope)) demo_up) = cn_log demo_up ++ outs /\ length (handed_on outs) = 1 /\
    head outs = Some (Acked (VStr (js "e1"))).
Proof.
  destruct (events_are_acknowledged_first (VObj demo_envelope) demo_up (on_message (Some (VObj demo_envelope)) demo_up)) as (outs & E & _ & Hack); [by vm_compute|].
  assert (outs = drop (length (cn_log demo_up)) (cn_log (on_message (Some (VObj demo_envelope)) demo_up))) as Eo by (by rewrite E, drop_app_length).
  exists outs. split; [exact E|]. split; [by rewrite Eo; vm_compute|].
  refine (proj2 (Hack _ _) _); [|by vm_compute]. rewrite Eo. vm_compute. right. left.
Defined.
