(* ===== verification/Forms.v ===== *)
(** [URLSearchParams] and [toString]: forms as they are written into a query
    or a body, and read out of one. *)

From S2P Require Import Prelude SessionId Values Bytes Cron.
#[local] Open Scope N_scope.

(** ** Writing *)

Definition form_safe (b : N) : bool := id_unit b || ((97 <=? b) && (b <=? 122)) || bool_decide (b ∈ js "*-._").
Definition form_byte (b : N) : jstr :=
  if b =? 32 then [43] else if form_safe b then [b] else [37; upper_hex (b / 16); upper_hex (b mod 16)].
Definition form_string (s : jstr) : jstr := concat (form_byte <$> utf8 s).
Definition form_pair (kv : jstr * jstr) : jstr := form_string (fst kv) ++ js "=" ++ form_string (snd kv).
Definition form_text (l : list (jstr * jstr)) : jstr := join_with (js "&") (form_pair <$> l).

(** ** Reading *)

(** A percent sign that two hex digits follow is a byte. *)
Fixpoint percent_decode (bytes : list N) : list N :=
  match bytes with
  | [] => []
  | c :: t =>
      if c =? 37 then
        match t with
        | a :: b :: t' =>
            match hex_value a, hex_value b with
            | Some x, Some y => (16 * x + y) :: percent_decode t'
            | _, _ => c :: percent_decode t
            end
        | _ => c :: percent_decode t
        end
      else c :: percent_decode t
  end.
Definition form_value (s : jstr) : jstr := utf8_decode (percent_decode ((fun b => if b =? 43 then 32 else b) <$> utf8 s)).

Definition not_equals (c : N) : bool := negb (c =? 61).
Definition read_pair (piece : jstr) : option (jstr * jstr) :=
  match piece with
  | [] => None
  | _ => Some (form_value (take_while not_equals piece),
               form_value (match drop_while not_equals piece with _ :: v => v | [] => [] end))
  end.
Definition without_question (s : jstr) : jstr := match s with c :: t => if c =? 63 then t else s | [] => [] end.
Definition form_entries (s : jstr) : list (jstr * jstr) := omap read_pair (split (js "&") (without_question s)).

(** ** Round trip *)

Lemma upper_hex_value n : n < 16 -> hex_value (upper_hex n) = Some n.
Proof. intros Hn. unfold upper_hex, hex_value. decide_all; f_equal; arith. Qed.

Lemma form_safe_unit b : form_safe b = true -> b < 128 /\ b <> 32 /\ b <> 37 /\ b <> 38 /\ b <> 43 /\ b <> 61 /\ b <> 63.
Proof.
  unfold form_safe, id_unit. rewrite !orb_true_iff, !andb_true_iff, !N.leb_le, bool_decide_eq_true.
  intros [[[?|?]|?]|H]; [lia..|]. vm_compute in H. repeat (apply elem_of_cons in H as [->|H]; [lia|]). by apply elem_of_nil in H.
Qed.

(** What is written is ASCII, and no separator. *)
Definition form_unit (c : N) : Prop := c < 128 /\ c <> 38 /\ c <> 61 /\ c <> 63.

Lemma upper_hex_unit n : n < 16 -> form_unit (upper_hex n).
Proof. unfold upper_hex, form_unit. intros Hn. decide_all; arith. Qed.

Lemma form_byte_units b : b < 256 -> Forall form_unit (form_byte b).
Proof.
  intros Hb. unfold form_byte. destruct (N.eqb_spec b 32); [by repeat constructor|]. destruct (form_safe b) eqn:E.
  - apply form_safe_unit in E. constructor; [unfold form_unit; lia|done].
  - constructor; [by repeat constructor|]. repeat constructor; apply upper_hex_unit; arith.
Qed.

Lemma form_string_units s : units s -> Forall form_unit (form_string s).
Proof.
  intros Hs. unfold form_string. pose proof (utf8_bytes s Hs) as H. induction H as [|b bs Hb _ IH]; [constructor|].
  apply Forall_app. split; [by apply form_byte_units|exact IH].
Qed.

Lemma utf8_ascii s : Forall (fun c => c < 128) s -> utf8 s = s.
Proof.
  induction 1 as [|c s Hc _ IH]; [done|]. assert (is_high c = false /\ is_low c = false) as [Hh Hl].
  { unfold is_high, is_low. split; apply andb_false_iff; left; apply N.leb_gt; lia. }
  destruct (through_unit c s Hh Hl) as [-> _]. rewrite IH. unfold utf8_of_point. by rewrite (proj2 (N.ltb_lt c 128)).
Qed.

Lemma form_byte_reads b rest : b < 256 ->
  percent_decode (((fun b => if b =? 43 then 32 else b) <$> form_byte b) ++ rest) = b :: percent_decode rest.
Proof.
  intros Hb. unfold form_byte. destruct (N.eqb_spec b 32) as [->|]; [done|]. destruct (form_safe b) eqn:E.
  - apply form_safe_unit in E. cbn [fmap list_fmap app]. rewrite (proj2 (N.eqb_neq b 43)) by lia. cbn [percent_decode].
    by rewrite (proj2 (N.eqb_neq b 37)) by lia.
  - clear n. assert (Hx : forall n, n < 16 -> (if upper_hex n =? 43 then 32 else upper_hex n) = upper_hex n).
    { intros n Hn. destruct (N.eqb_spec (upper_hex n) 43) as [He|]; [|done]. exfalso. revert He. unfold upper_hex. destruct (n <? 10); lia. }
    cbn [fmap list_fmap app]. rewrite !Hx by arith. change (37 =? 43) with false. cbn [percent_decode].
    change (37 =? 37) with true. cbn [percent_decode]. rewrite !upper_hex_value by arith. f_equal. arith.
Qed.

Lemma form_value_string s : units s -> form_value (form_string s) = to_well_formed s.
Proof.
  intros Hs. unfold form_value. rewrite utf8_ascii by (eapply Forall_impl; [by apply form_string_units|by intros c [? _]]).
  rewrite <- (utf8_roundtrip s Hs). f_equal. unfold form_string. pose proof (utf8_bytes s Hs) as H. induction H as [|b bs Hb _ IH]; [done|].
  cbn [concat fmap list_fmap]. rewrite fmap_app. rewrite form_byte_reads by done. by f_equal.
Qed.

Lemma take_while_none p a c b : Forall (fun x => p x = true) a -> p c = false -> take_while p (a ++ c :: b) = a.
Proof. intros Ha Hc. induction Ha as [|x a Hx _ IH]; cbn; [by rewrite Hc|]. by rewrite Hx, IH. Qed.
Lemma drop_while_none p a c b : Forall (fun x => p x = true) a -> p c = false -> drop_while p (a ++ c :: b) = c :: b.
Proof. intros Ha Hc. induction Ha as [|x a Hx _ IH]; cbn; [by rewrite Hc|]. by rewrite Hx, IH. Qed.

Lemma read_written_pair k v : units k -> units v -> read_pair (form_pair (k, v)) = Some (to_well_formed k, to_well_formed v).
Proof.
  intros Hk Hv. unfold form_pair. cbn [fst snd]. change (js "=" ++ form_string v) with (61 :: form_string v).
  assert (Ht : Forall (fun x => not_equals x = true) (form_string k)).
  { eapply Forall_impl; [by apply form_string_units|]. intros c (_ & _ & Hc & _). unfold not_equals. by rewrite (proj2 (N.eqb_neq c 61)). }
  unfold read_pair. rewrite (take_while_none not_equals (form_string k) 61 (form_string v)), (drop_while_none not_equals (form_string k) 61 (form_string v)) by done.
  rewrite !form_value_string by done. by destruct (form_string k).
Qed.

Lemma form_pair_units k v : units k -> units v -> Forall (fun c => c <> 38 /\ c <> 63) (form_pair (k, v)).
Proof.
  intros Hk Hv. assert (Hs : forall s, units s -> Forall (fun c => c <> 38 /\ c <> 63) (form_string s)).
  { intros s Hs. eapply Forall_impl; [by apply form_string_units|]. by intros c (_ & ? & _ & ?). }
  unfold form_pair. apply Forall_app. split; [by apply Hs|]. apply Forall_app. split; [by repeat constructor|by apply Hs].
Qed.

Definition form_ok (l : list (jstr * jstr)) : Prop := Forall (fun kv => units (fst kv) /\ units (snd kv)) l.

(** What was written is read back, each string made well formed. *)
Lemma form_roundtrip l : form_ok l -> form_entries (form_text l) = prod_map to_well_formed to_well_formed <$> l.
Proof.
  intros Hl. destruct l as [|kv l0]; [done|]. set (l := kv :: l0) in *. unfold form_entries, form_text.
  assert (Hno : Forall (fun s => Forall (fun c => c <> 38 /\ c <> 63) s) (form_pair <$> l)).
  { apply Forall_fmap. eapply Forall_impl; [exact Hl|]. intros [k v] [Hk Hv]. by apply form_pair_units. }
  assert (Hhead : without_question (join_with (js "&") (form_pair <$> l)) = join_with (js "&") (form_pair <$> l)).
  { subst l. cbn [fmap list_fmap] in *. apply Forall_cons in Hno as [Hk _].
    assert (Hne : form_pair kv <> []) by (unfold form_pair; by destruct (form_string (fst kv))).
    destruct (form_pair kv) as [|c p]; [done|]. apply Forall_cons in Hk as [[_ Hc] _].
    by destruct (form_pair <$> l0); cbn; rewrite (proj2 (N.eqb_neq c 63)). }
  rewrite Hhead. clear Hhead.
  change (js "&") with [38]. rewrite split_join; [|done|].
  2: { eapply Forall_impl; [exact Hno|]. intros s Hs Hin. rewrite Forall_forall in Hs. by destruct (Hs 38 Hin). }
  clear Hno. revert Hl. generalize l as l1. induction l1 as [|[k v] l1 IH]; [done|]. intros [[Hk Hv] Hl1]%Forall_cons.
  cbn [fmap list_fmap omap list_omap]. rewrite read_written_pair by done. cbn. by rewrite <- IH.
Qed.
