(* ===== verification/PhoneServer.v ===== *)
(** [apps/phone/src/codec.ts], [apps/phone/src/signature.ts] and
    [apps/phone/src/server.ts]: the bridge's side of the telephone network.
    Webhooks and handshakes are checked against Twilio's signature; the frames
    of a relay are decoded and handled one after the other.

    Then: what the telephone bridge's server promises: only Twilio moves it,
    as long as it is up; what Twilio signs is heard; and a relay's frames are
    handled in order, each once the handlers before it have ended. *)

From stdpp Require Import sorting.
From S2P Require Import Prelude Values Envelope Json SessionId Bytes Async PhoneRegistry PhoneEngine Forms.
#[local] Open Scope nat_scope.

(** ** The codec *)

(** [CallEvent]. *)
Inductive call_event :=
| Setup (callSid sessionId from to direction callStatus : jstr) (parameters : list (jstr * jstr))
| Speech (text : jstr) (final : bool) (lang : jstr)
| Key (digit : jstr)
| Interrupt (heard : jstr) (afterMs : Z)
| RelayError (description : jstr)
| Speaking (by_agent on : bool)
| Played (text : jstr)
| Info (name value : jstr).

(** What the schemas of inbound frames make of a document. *)
Inductive frame :=
| SetupFrame (sessionId callSid from to direction callStatus : jstr) (customParameters : list (jstr * jstr))
| PromptFrame (voicePrompt lang : jstr) (last : bool)
| DtmfFrame (digit : jstr)
| InterruptFrame (utteranceUntilInterrupt : jstr) (durationUntilInterruptMs : Z)
| ErrorFrame (description : jstr)
| InfoFrame (name value : jstr).

Definition event_of_frame (f : frame) : call_event :=
  match f with
  | SetupFrame sessionId callSid from to direction callStatus parameters =>
      Setup callSid sessionId from to direction callStatus parameters
  | PromptFrame text lang last => Speech text last lang
  | DtmfFrame digit => Key digit
  | InterruptFrame heard ms => Interrupt heard ms
  | ErrorFrame description => RelayError description
  | InfoFrame name value =>
      if jeqb name (js "agentSpeaking") || jeqb name (js "clientSpeaking")
      then Speaking (jeqb name (js "agentSpeaking")) (jeqb value (js "on"))
      else if jeqb name (js "tokensPlayed") then Played value
      else Info name value
  end.

Inductive RelayCommand :=
| CText (token : jstr) (last : bool) (preemptible interruptible : option bool) (lang : option jstr)
| CPlay (source : jstr) (loop : option Z) (preemptible interruptible : option bool)
| CSendDigits (digits : jstr)
| CLanguage (ttsLanguage transcriptionLanguage : option jstr)
| CEnd (handoffData : option jstr).

Definition say (token : jstr) (last : bool) (preemptible interruptible : option bool) : RelayCommand :=
  CText token last preemptible interruptible None.
Definition playDigits (digits : jstr) : RelayCommand := CSendDigits digits.
Definition playMedia (source : jstr) (loop : option Z) (preemptible interruptible : option bool) : RelayCommand :=
  CPlay source loop preemptible interruptible.
Definition endSession (handoffData : option jstr) : RelayCommand := CEnd handoffData.
Definition command_type (c : RelayCommand) : jstr :=
  match c with
  | CText _ _ _ _ _ => js "text" | CPlay _ _ _ _ => js "play" | CSendDigits _ => js "sendDigits"
  | CLanguage _ _ => js "language" | CEnd _ => js "end"
  end.

Section Codec.
(** The schema library's [safeParse]: of a document, the frame or the first
    issue's message; of a command, the document to send or the first issue's
    path and message. *)
Context (inboundSchema : jsval -> frame + jstr) (outboundSchema : RelayCommand -> jsval + (list jstr * jstr)).

(** [String(document.type)], of what has one. *)
Definition type_of_document (document : jsval) : jstr :=
  match document with
  | VObj fs => match assq (js "type") fs with Some t => to_string t | None => js "(none)" end
  | _ => js "(none)"
  end.

Definition decodeInbound (raw : jstr) : result call_event :=
  match parse raw with
  | None => Exn (js "inbound frame is not JSON")
  | Some document =>
      match inboundSchema document with
      | inr issue => Exn (js "inbound frame of type " ++ type_of_document document ++ js " is not one the codec knows: " ++ issue)
      | inl f => Val (event_of_frame f)
      end
  end.

Definition encodeOutbound (command : RelayCommand) : result jstr :=
  match outboundSchema command with
  | inr (path, message) =>
      Exn (trim (js "refusing to send a malformed " ++ command_type command ++ js " frame: " ++ join_with (js ".") path ++ js " " ++ message))
  | inl data => Val (stringify data)
  end.
End Codec.

(** ** Signatures *)

(** How [sort] orders strings: by their units. *)
Fixpoint units_le (a b : jstr) : Prop :=
  match a, b with
  | [], _ => True
  | _ :: _, [] => False
  | x :: s, y :: t => (x < y)%N \/ x = y /\ units_le s t
  end.
#[export] Instance units_le_dec : RelDecision units_le.
Proof.
  intros a. induction a as [|x s IH]; intros [|y t]; cbn; [left|left|right|]; [done|done|tauto|].
  destruct (IH t), (decide ((x < y)%N)), (decide (x = y)); [left; tauto|left; tauto|left; tauto|right; tauto|left; tauto|left; tauto|right; tauto|right; tauto].
Defined.

(** A parsed form: [Object.fromEntries], the last of a name's values. *)
Abbreviation form := (gmap jstr jstr).
Definition fromEntries (l : list (jstr * jstr)) : form := list_to_map (reverse l).

Section Signature.
Context (hmac_sha1 : list N -> list N -> list N).

Definition signed_text (url : jstr) (params : option form) : jstr :=
  match params with
  | None => url
  | Some p => url ++ concat ((fun key => key ++ default [] (p !! key)) <$> merge_sort units_le (fst <$> map_to_list p))
  end.
Definition twilioSignature (authToken url : jstr) (params : option form) : jstr :=
  to_base64 (hmac_sha1 (utf8 authToken) (utf8 (signed_text url params))).

Definition signatureValid (authToken url : jstr) (params : option form) (header : option jstr) : bool :=
  match header with
  | None => false
  | Some h => negb (jeqb h []) && bool_decide (utf8 (twilioSignature authToken url params) = utf8 h)
  end.
End Signature.

(** ** Webhooks *)

Definition BODY_LIMIT : Z := 64 * 1024.

(** [readForm]: the body comes in pieces; [None] is a body too large, or one
    whose request broke off. *)
Fixpoint read_body (body : jstr) (chunks : list jstr) : option jstr :=
  match chunks with
  | [] => Some body
  | chunk :: rest => let body := body ++ chunk in if (BODY_LIMIT <? Z.of_nat (length body))%Z then None else read_body body rest
  end.
Definition readForm (chunks : option (list jstr)) : option form :=
  (fun body => fromEntries (form_entries body)) <$> (chunks ≫= read_body []).

Definition escapeXml (s : jstr) : jstr :=
  concat ((fun c => if (c =? 60)%N then js "&lt;" else if (c =? 62)%N then js "&gt;" else if (c =? 38)%N then js "&amp;"
                    else if (c =? 34)%N then js "&quot;" else if (c =? 39)%N then js "&apos;" else [c]) <$> s).
Definition twiml (body : jstr) : jstr :=
  js "<?xml version=" ++ dq ++ js "1.0" ++ dq ++ js " encoding=" ++ dq ++ js "UTF-8" ++ dq ++ js "?>" ++ [10%N]
  ++ js "<Response>" ++ body ++ js "</Response>".
Definition RELAY_ATTRIBUTES : list (jstr * jstr) :=
  [(js "transcriptionProvider", js "Deepgram"); (js "speechModel", js "flux"); (js "dtmfDetection", js "true");
   (js "interruptible", js "any"); (js "reportInputDuringAgentSpeech", js "any"); (js "events", js "speaker-events tokens-played")].

Record response := mkResponse {
  rs_status : Z;
  rs_body : jstr;
  rs_type : jstr }.
Definition plain (status : Z) (body : jstr) : response := mkResponse status body (js "text/plain").

(** A request: the path of its URL ([None]: it has none, and [new URL]
    throws), the pieces of its body, and Twilio's header. *)
Record request := mkRequest {
  rq_method : jstr;
  rq_path : option jstr;
  rq_body : option (list jstr);
  rq_signature : option jstr }.

Section Server.
Context (hmac_sha1 : list N -> list N -> list N) (inboundSchema : jsval -> frame + jstr).
(** The options: [base] is the public URL short of a last slash, [host] its
    host. *)
Context (authToken base host secret : jstr).

Definition relayPath : jstr := js "/relay/" ++ secret.
Definition relay_url : jstr := js "wss://" ++ host ++ relayPath.

Definition field (k : string) (f : form) : option jstr := f !! js k.
Definition field_or_empty (k : string) (f : form) : jstr := default [] (field k f).
Definition printed (v : option jstr) : jstr := default (js "undefined") v.

Definition voice (f : form) (now : Z) (r : CallRegistry) : CallRegistry * response :=
  let attrs := join_with (js " ") ((fun '(k, v) => k ++ js "=" ++ dq ++ escapeXml v ++ dq) <$> (js "url", relay_url) :: RELAY_ATTRIBUTES) in
  (recordCall (field_or_empty "CallSid" f) (field_or_empty "From" f) (field_or_empty "To" f) (field_or_empty "Direction" f) now r,
   mkResponse 200 (twiml (js "<Connect action=" ++ dq ++ base ++ js "/action" ++ dq ++ js "><ConversationRelay " ++ attrs ++ js "/></Connect>"))
     (js "text/xml")).

Definition action_reason (f : form) : jstr :=
  let handoff := field_or_empty "HandoffData" f in
  if negb (jeqb handoff []) then handoff
  else match field "ErrorCode" f with
       | Some code => printed (field "SessionStatus" f) ++ js ":" ++ code
       | None => default (js "unknown") (field "SessionStatus" f)
       end.
Definition action (f : form) (now : Z) (r : CallRegistry) : CallRegistry * response :=
  let goodbye := if jeqb (field_or_empty "HandoffData" f) (js "goodbye") then js "<Say>Goodbye.</Say>" else [] in
  (snd (endCall (field_or_empty "CallSid" f) now (action_reason f) r),
   mkResponse 200 (twiml (goodbye ++ js "<Hangup/>")) (js "text/xml")).

Definition over : list jstr := js <$> ["completed"; "failed"; "busy"; "no-answer"]%string.
Definition status (f : form) (now : Z) (r : CallRegistry) : CallRegistry * response :=
  (match field "CallStatus" f with
   | Some s => if bool_decide (s ∈ over) then snd (endCall (field_or_empty "CallSid" f) now (js "call:" ++ s) r) else r
   | None => r
   end, plain 204 []).

Definition webhook_paths : list jstr := js <$> ["/voice"; "/action"; "/status"]%string.

(** The listener of requests. *)
Definition on_request (q : request) (now : Z) (r : CallRegistry) : CallRegistry * response :=
  match rq_path q with
  | None => (r, plain 500 (js "error"))
  | Some path =>
      if negb (jeqb (rq_method q) (js "POST")) || negb (bool_decide (path ∈ webhook_paths)) then (r, plain 404 (js "not found")) else
      match readForm (rq_body q) with
      | None => (r, plain 400 (js "bad request"))
      | Some f =>
          if negb (signatureValid hmac_sha1 authToken (base ++ path) (Some f) (rq_signature q)) then (r, plain 403 (js "forbidden"))
          else if jeqb path (js "/voice") then voice f now r
          else if jeqb path (js "/action") then action f now r
          else status f now r
      end
  end.

(** ** Relays *)

(** A link of a relay's chain. *)
Inductive job :=
| Handle (event : call_event)
| Hangup.

(** A relay's socket: [re_waiting] is the part of the chain not begun. *)
Record relay := mkRelay {
  re_callSid : jstr;
  re_waiting : list job;
  re_running : option job;
  re_begun : bool;
  re_open : bool }.
Definition new_relay : relay := mkRelay [] [] None false true.

Inductive output :=
| Answered (r : response)
| Refused (status : Z)
| Began (i : nat) (j : job)
| Ended (i : nat)
| AlertSentOn (a : PhoneAlert)
| Crashed.

(** [sv_up] is until an exception nobody caught ends the process. *)
Record server := mkServer {
  sv_registry : CallRegistry;
  sv_relays : list relay;
  sv_closing : bool;
  sv_up : bool;
  sv_log : list output }.
Definition new_server (r : CallRegistry) : server := mkServer r [] false true [].

Definition with_registry (r : CallRegistry) (s : server) : server := mkServer r (sv_relays s) (sv_closing s) (sv_up s) (sv_log s).
Definition with_relays (l : list relay) (s : server) : server := mkServer (sv_registry s) l (sv_closing s) (sv_up s) (sv_log s).
Definition note (o : output) (s : server) : server := mkServer (sv_registry s) (sv_relays s) (sv_closing s) (sv_up s) (sv_log s ++ [o]).
Definition crash (s : server) : server := note Crashed (mkServer (sv_registry s) (sv_relays s) (sv_closing s) false (sv_log s)).
Definition closing (s : server) : server := mkServer (sv_registry s) (sv_relays s) true (sv_up s) (sv_log s).
Definition set_relay (i : nat) (x : relay) (s : server) : server := with_relays (<[i := x]> (sv_relays s)) s.

(** The listener of upgrades. The library ends the handshake: it may find it
    malformed, and takes none once it is closing. *)
Definition on_upgrade (path : option jstr) (signature : option jstr) (well_made : bool) (s : server) : server :=
  match path with
  | None => crash s
  | Some p =>
      if negb (jeqb p relayPath) then note (Refused 404) s
      else if negb (signatureValid hmac_sha1 authToken relay_url None signature) then note (Refused 403) s
      else if sv_closing s then note (Refused 503) s
      else if well_made then with_relays (sv_relays s ++ [new_relay]) s
      else note (Refused 400) s
  end.

Definition chain (j : job) (x : relay) : relay := mkRelay (re_callSid x) (re_waiting x ++ [j]) (re_running x) (re_begun x) (re_open x).

(** ["message"]. *)
Definition on_frame (i : nat) (raw : jstr) (now : Z) (x : relay) (s : server) : server :=
  match decodeInbound inboundSchema raw with
  | Exn _ => s
  | Val event =>
      let '(x, s) := match event with
                     | Setup callSid _ from to direction _ _ =>
                         (mkRelay callSid (re_waiting x) (re_running x) (re_begun x) (re_open x),
                          with_registry (recordCall callSid from to direction now (sv_registry s)) s)
                     | _ => (x, s)
                     end in
      set_relay i (chain (Handle event) x) s
  end.

(** ["close"]. *)
Definition on_relay_close (i : nat) (x : relay) (s : server) : server :=
  let x := chain Hangup x in set_relay i (mkRelay (re_callSid x) (re_waiting x) (re_running x) (re_begun x) false) s.

(** The chain goes on once its last link has settled. *)
Definition chain_runs (i : nat) (j : job) (rest : list job) (x : relay) (s : server) : server :=
  note (Began i j) (set_relay i (mkRelay (re_callSid x) rest (Some j) true (re_open x)) s).
Definition job_ends (i : nat) (x : relay) (s : server) : server :=
  note (Ended i) (set_relay i (mkRelay (re_callSid x) (re_waiting x) None (re_begun x) (re_open x)) s).

(** The port an engine posts its alerts to. *)
Definition on_alert (a : PhoneAlert) (now : Z) (s : server) : server :=
  note (AlertSentOn a) (with_registry (match a with
    | SessionStarted callSid agent contextId _ => attachSession callSid agent contextId now (sv_registry s)
    | SessionEnded callSid agent _ _ => detachSession callSid agent now (sv_registry s)
    | _ => sv_registry s
    end) s).

Inductive input :=
| Request (q : request) (now : Z)
| Upgrade (path signature : option jstr) (well_made : bool)
| Frame (i : nat) (raw : jstr) (now : Z)
| RelayCloses (i : nat)
| ChainRuns (i : nat)
| HandlerEnds (i : nat) (how : result unit)
| Alert (i : nat) (a : PhoneAlert) (now : Z)
| Close.

(** [None]: the input cannot come now. An engine posts nothing before it was
    given a first job. *)
Definition step (i : input) (s : server) : option server :=
  if negb (sv_up s) then None else
  match i with
  | Request q now => let '(r, a) := on_request q now (sv_registry s) in Some (note (Answered a) (with_registry r s))
  | Upgrade path signature well_made => Some (on_upgrade path signature well_made s)
  | Frame i raw now =>
      x ← sv_relays s !! i; if re_open x then Some (on_frame i raw now x s) else None
  | RelayCloses i =>
      x ← sv_relays s !! i; if re_open x then Some (on_relay_close i x s) else None
  | ChainRuns i =>
      x ← sv_relays s !! i;
      match re_running x, re_waiting x with None, j :: rest => Some (chain_runs i j rest x s) | _, _ => None end
  | HandlerEnds i _ =>
      x ← sv_relays s !! i; match re_running x with Some _ => Some (job_ends i x s) | None => None end
  | Alert i a now => x ← sv_relays s !! i; if re_begun x then Some (on_alert a now s) else None
  | Close => Some (closing s)
  end.

Fixpoint steps (inputs : list input) (s : server) : option server :=
  match inputs with
  | [] => Some s
  | i :: t => s' ← step i s; steps t s'
  end.
End Server.


Section Runs.
Context (hmac_sha1 : list N -> list N -> list N) (inboundSchema : jsval -> frame + jstr) (authToken base host secret : jstr).
#[local] Abbreviation signed := (signatureValid hmac_sha1 authToken).
#[local] Abbreviation step := (step hmac_sha1 inboundSchema authToken base host secret).
#[local] Abbreviation steps := (steps hmac_sha1 inboundSchema authToken base host secret).

(** ** Who is heard *)

(** What comes of Twilio, by its signature, or of the server's own side. *)
Definition genuine (i : input) : bool :=
  match i with
  | Request q _ =>
      match rq_path q, readForm (rq_body q) with
      | Some path, Some f => signed (base ++ path) (Some f) (rq_signature q)
      | _, _ => false
      end
  | Upgrade path signature _ => bool_decide (path = Some (relayPath secret)) && signed (relay_url host secret) None signature
  | _ => true
  end.

(** The target of a handshake is a URL. *)
Definition addressed (i : input) : bool := match i with Upgrade None _ _ => false | _ => true end.

(** Equal but for what was answered. *)
Definition same (a b : server) : Prop :=
  sv_registry a = sv_registry b /\ sv_relays a = sv_relays b /\ sv_closing a = sv_closing b /\ sv_up a = sv_up b.

Lemma stranger_changes_nothing i s s' : genuine i = false -> addressed i = true -> step i s = Some s' -> same s' s.
Proof.
  intros Hg Ha. unfold step. destruct (sv_up s) eqn:Eup; [|done]. cbn [negb]. destruct i as [q now|path signature well_made| | | | | |]; try done.
  - destruct (on_request _ _ _ _ _ q now (sv_registry s)) as [r a] eqn:E. intros [= <-].
    assert (r = sv_registry s) as ->; [|by split_and!]. cbn in Hg. unfold on_request in E. destruct (rq_path q) as [path|]; [|by simplify_eq].
    destruct (_ || _); [by simplify_eq|]. destruct (readForm (rq_body q)) as [f|]; [|by simplify_eq]. rewrite Hg in E. cbn in E. by simplify_eq.
  - destruct path as [p|]; [|done]. intros [= <-]. cbn in Hg. unfold on_upgrade, jeqb.
    destruct (bool_decide_reflect (p = relayPath secret)) as [->|]; [|by split_and!]. cbn [negb].
    rewrite (bool_decide_eq_true_2 _ eq_refl) in Hg. cbn in Hg. rewrite Hg. by split_and!.
Qed.

Lemma step_same i a b a' : same a b -> step i a = Some a' -> exists b', step i b = Some b' /\ same a' b'.
Proof.
  destruct a as [r l c u la], b as [r' l' c' u' lb]. intros (E1 & E2 & E3 & E4). cbn in E1, E2, E3, E4. subst r' l' c' u'.
  unfold step. cbn [sv_up sv_registry sv_relays]. destruct u; [|done]. cbn [negb].
  destruct i as [q now|path signature well_made|i raw now|i|i|i how|i al now|].
  - destruct (on_request _ _ _ _ _ q now r) as [r1 a1]. intros [= <-]. eexists; split; [reflexivity|by split_and!].
  - intros [= <-]. eexists; split; [reflexivity|]. unfold on_upgrade. destruct path as [p|]; [|by split_and!].
    destruct (negb (jeqb p _)); [by split_and!|]. destruct (negb (signed _ _ _)); [by split_and!|]. cbn [sv_closing].
    by destruct c, well_made.
  - destruct (l !! i) as [x|]; [|done]. cbn. destruct (re_open x); [|done]. intros [= <-]. eexists; split; [reflexivity|].
    unfold on_frame. destruct (decodeInbound inboundSchema raw) as [event|]; [|by split_and!]. by destruct event.
  - destruct (l !! i) as [x|]; [|done]. cbn. destruct (re_open x); [|done]. intros [= <-]. eexists; split; [reflexivity|by split_and!].
  - destruct (l !! i) as [x|]; [|done]. cbn. destruct (re_running x), (re_waiting x); try done. intros [= <-]. eexists; split; [reflexivity|by split_and!].
  - destruct (l !! i) as [x|]; [|done]. cbn. destruct (re_running x); [|done]. intros [= <-]. eexists; split; [reflexivity|by split_and!].
  - destruct (l !! i) as [x|]; [|done]. cbn. destruct (re_begun x); [|done]. intros [= <-]. eexists; split; [reflexivity|by split_and!].
  - intros [= <-]. eexists; split; [reflexivity|by split_and!].
Qed.

(** The process is up until a handshake comes whose target is no URL: that is
    read before any signature, and nobody catches what it throws. *)
Lemma up_after i s s' : step i s = Some s' -> sv_up s' = addressed i.
Proof.
  unfold step. destruct (sv_up s) eqn:Eup; [|done]. cbn [negb]. destruct i as [q now|path signature well_made|i raw now|i|i|i how|i al now|].
  - destruct (on_request _ _ _ _ _ q now (sv_registry s)) as [r1 a1]. by intros [= <-].
  - intros [= <-]. unfold on_upgrade. destruct path as [p|]; [|done]. destruct (negb (jeqb p _)); [done|]. destruct (negb (signed _ _ _)); [done|].
    destruct (sv_closing s), well_made; done.
  - destruct (sv_relays s !! i) as [x|]; [|done]. cbn. destruct (re_open x); [|done]. intros [= <-].
    unfold on_frame. destruct (decodeInbound inboundSchema raw) as [event|]; [|done]. by destruct event.
  - destruct (sv_relays s !! i) as [x|]; [|done]. cbn. destruct (re_open x); [|done]. by intros [= <-].
  - destruct (sv_relays s !! i) as [x|]; [|done]. cbn. destruct (re_running x), (re_waiting x); try done. by intros [= <-].
  - destruct (sv_relays s !! i) as [x|]; [|done]. cbn. destruct (re_running x); [|done]. by intros [= <-].
  - destruct (sv_relays s !! i) as [x|]; [|done]. cbn. destruct (re_begun x); [|done]. by intros [= <-].
  - by intros [= <-].
Qed.

Lemma crash_is_last inputs s s' : sv_up s = true -> steps inputs s = Some s' -> Forall (fun i => addressed i = true) inputs /\ sv_up s' = true \/
  sv_up s' = false /\ exists before signature well_made, inputs = before ++ [Upgrade None signature well_made] /\ Forall (fun i => addressed i = true) before.
Proof.
  revert s. induction inputs as [|i inputs IH]; intros s Hup; cbn [PhoneServer.steps]; [intros [= <-]; by left|].
  destruct (step i s) as [s1|] eqn:E; [|done]. cbn [mbind option_bind]. intros Hs. pose proof (up_after i s s1 E) as H1. destruct (addressed i) eqn:Ea.
  - destruct (IH s1 H1 Hs) as [[Hf Hu]|(Hu & before & signature & wm & -> & Hf)]; [left; by repeat constructor|].
    right. split; [done|]. exists (i :: before), signature, wm. by repeat constructor.
  - right. destruct inputs as [|j inputs]; cbn [PhoneServer.steps] in Hs.
    + simplify_eq. split; [done|]. destruct i as [|[|] signature wm| | | | | |]; try done. by exists [], signature, wm.
    + unfold step in Hs. by rewrite H1 in Hs.
Qed.

Lemma strangers_filtered inputs a b a' : same a b -> Forall (fun i => addressed i = true) inputs -> steps inputs a = Some a' ->
  exists b', steps (filter (fun i => genuine i = true) inputs) b = Some b' /\ same a' b'.
Proof.
  intros Hab Ha. revert a b Hab. induction Ha as [|i inputs Hi _ IH]; intros a b Hab; cbn [PhoneServer.steps].
  - intros [= <-]. by exists b.
  - destruct (step i a) as [a1|] eqn:E; [|done]. cbn [mbind option_bind]. intros Hrun. rewrite filter_cons. destruct (genuine i) eqn:Hg.
    + rewrite decide_True by done. destruct (step_same i a b a1 Hab E) as (b1 & Eb & H1). cbn [PhoneServer.steps]. rewrite Eb. by apply (IH a1).
    + rewrite decide_False by done. apply (IH a1); [|done]. destruct (stranger_changes_nothing i a a1 Hg Hi E) as (? & ? & ? & ?), Hab as (? & ? & ? & ?). split_and!; congruence.
Qed.

Lemma steps_snoc inputs i s s' : steps (inputs ++ [i]) s = Some s' -> exists s1, steps inputs s = Some s1 /\ step i s1 = Some s'.
Proof.
  revert s. induction inputs as [|j inputs IH]; intros s; cbn [app PhoneServer.steps].
  - destruct (step i s) as [s1|] eqn:E; [|done]. cbn. intros [= <-]. by exists s.
  - destruct (step j s) as [s1|]; [|done]. cbn [mbind option_bind]. apply IH.
Qed.

(** C8: Only Twilio moves the telephone bridge, and anyone can end it.
    Whatever requests and handshakes without Twilio's signature mix with the
    rest, the calls and sessions on record and the relays are those of a run
    in which they never came. The process of that run is always up; the
    process of the run with strangers is up exactly as long as no handshake
    has come whose target is no URL, and the first such ends it. *)
Theorem only_twilio_is_heard inputs r s :
  steps inputs (new_server r) = Some s ->
  (exists s', steps (filter (fun i => genuine i = true) inputs) (new_server r) = Some s' /\
    sv_registry s' = sv_registry s /\ sv_relays s' = sv_relays s /\ sv_up s' = true) /\
  (sv_up s = true <-> Forall (fun i => addressed i = true) inputs) /\
  (sv_up s = false -> exists before signature well_made, inputs = before ++ [Upgrade None signature well_made] /\
     Forall (fun i => addressed i = true) before).
Proof.
  intros Hs. destruct (crash_is_last inputs (new_server r) s eq_refl Hs) as [[Hf Hu]|(Hu & before & signature & wm & -> & Hf)].
  - split_and!; [|done|by rewrite Hu].
    destruct (strangers_filtered inputs (new_server r) (new_server r) s) as (s' & Hs' & E1 & E2 & _ & E4); [done..|]. exists s'. by rewrite <- E1, <- E2, <- E4.
  - split_and!; [| |intros _; by exists before, signature, wm].
    + destruct (steps_snoc before _ _ s Hs) as (s1 & H1 & H2).
      destruct (strangers_filtered before (new_server r) (new_server r) s1) as (s' & Hs' & E1 & E2 & _ & E4); [done..|]. exists s'.
      rewrite filter_app, filter_cons_False, filter_nil, app_nil_r by done. rewrite <- E1, <- E2, <- E4.
      pose proof (crash_is_last before (new_server r) s1 eq_refl H1) as [[_ Hup]|(_ & b & g & w & -> & _)].
      * unfold step in H2. rewrite Hup in H2. cbn in H2. by simplify_eq.
      * rewrite Forall_app, Forall_cons in Hf. by destruct Hf as (_ & ? & _).
    + rewrite Hu, Forall_app, Forall_cons. cbn. split; [done|]. by intros (_ & ? & _).
Qed.

(** ** What Twilio signs *)

#[export] Instance units_le_total : Total units_le.
Proof.
  intros a. induction a as [|x s IH]; intros [|y t]; cbn; [by left|by left|by right|]. destruct (N.lt_trichotomy x y) as [?|[->|?]]; [tauto| |tauto].
  destruct (IH t); tauto.
Qed.
#[export] Instance units_le_trans : Transitive units_le.
Proof.
  intros a. induction a as [|x s IH]; intros [|y t] [|z w]; cbn; try done. intros [?|[-> ?]] [?|[-> ?]]; [left; lia|by left|by left|]. right. split; [done|by apply (IH t)].
Qed.
#[export] Instance units_le_antisymm : AntiSymm (=) units_le.
Proof.
  intros a. induction a as [|x s IH]; intros [|y t]; cbn; try done. intros [?|[-> ?]] [?|[? ?]]; try lia. f_equal. by apply IH.
Qed.

(** Parameters in the order of their names, as the signature has them. *)
Definition in_order (params : list (jstr * jstr)) : Prop := StronglySorted units_le (fst <$> params) /\ NoDup (fst <$> params).

Lemma lookup_params params k v : NoDup (fst <$> params) -> (k, v) ∈ params -> (list_to_map params : form) !! k = Some v.
Proof. intros Hn Hin. by apply elem_of_list_to_map. Qed.

Lemma signed_text_params url params : in_order params ->
  signed_text url (Some (list_to_map params)) = url ++ concat ((fun kv => fst kv ++ snd kv) <$> params).
Proof.
  intros [Hs Hn]. unfold signed_text. f_equal. f_equal.
  assert (Hk : merge_sort units_le (fst <$> map_to_list (list_to_map params : form)) = fst <$> params).
  { apply (StronglySorted_unique units_le); [by apply (StronglySorted_merge_sort units_le)|done|].
    rewrite merge_sort_Permutation. by rewrite map_to_list_to_map. }
  rewrite Hk. rewrite <- list_fmap_compose. apply list_fmap_ext. intros n [k v] Hin%list_elem_of_lookup_2. cbn [compose fst snd].
  by rewrite (lookup_params params k v).
Qed.

(** A form whose strings are those that UTF-8 can carry. *)
Definition sound_form (params : list (jstr * jstr)) : Prop :=
  Forall (fun kv => (units (fst kv) /\ well_formed (fst kv) = true) /\ units (snd kv) /\ well_formed (snd kv) = true) params.

Lemma sound_form_kept params : sound_form params -> prod_map to_well_formed to_well_formed <$> params = params.
Proof.
  induction 1 as [|[k v] params [[_ Hk] [_ Hv]] _ IH]; [done|]. cbn [fmap list_fmap prod_map fst snd] in *.
  rewrite IH, (well_formed_fixed k Hk), (well_formed_fixed v Hv). done.
Qed.

Lemma read_body_within body chunks : (Z.of_nat (length body + length (concat chunks)) <= BODY_LIMIT)%Z -> read_body body chunks = Some (body ++ concat chunks).
Proof.
  revert body. induction chunks as [|c cs IH]; intros body H; cbn [read_body concat] in *; [by rewrite app_nil_r|].
  rewrite length_app in H. destruct (Z.ltb_spec BODY_LIMIT (Z.of_nat (length (body ++ c)))) as [Hlt|_].
  - exfalso. rewrite length_app in Hlt. lia.
  - rewrite IH, <- app_assoc; [done|]. rewrite length_app. lia.
Qed.

Lemma form_received params sent chunks : in_order params -> sound_form params -> sent ≡ₚ params -> concat chunks = form_text sent ->
  (Z.of_nat (length (form_text sent)) <= BODY_LIMIT)%Z -> readForm (Some chunks) = Some (list_to_map params).
Proof.
  intros [_ Hn] Hs Hp Hc Hl. unfold readForm. cbn [mbind option_bind]. rewrite read_body_within by (by rewrite Hc).
  cbn [app fmap option_fmap option_map]. f_equal. rewrite Hc. unfold fromEntries.
  assert (Hs' : sound_form sent) by (unfold sound_form; by rewrite Hp).
  rewrite form_roundtrip. 2: { eapply Forall_impl; [exact Hs'|]. by intros kv [[? _] [? _]]. }
  rewrite sound_form_kept by done. apply list_to_map_proper.
  - rewrite fmap_reverse, reverse_Permutation. by rewrite Hp.
  - by rewrite reverse_Permutation.
Qed.

Lemma base64_ascii bytes : Forall (fun b => (b < 256)%N) bytes -> Forall (fun c => (c < 128)%N) (to_base64 bytes).
Proof.
  assert (Hd : forall n, (n < 64)%N -> (digit64 n < 128)%N) by (intros n Hn; unfold digit64; decide_all; lia).
  induction bytes as [| | |a b c t IH] using by_threes; rewrite ?Forall_cons; intros H; cbn [to_base64 app].
  - done.
  - repeat constructor; try apply Hd; arith.
  - repeat constructor; try apply Hd; arith.
  - destruct H as (Ha & Hb & Hc & Ht). repeat (constructor; [apply Hd; arith|]). by apply IH.
Qed.

(** What a webhook does once it is let in. *)
Definition heard (path : jstr) (f : form) (now : Z) (r : CallRegistry) : CallRegistry * response :=
  if jeqb path (js "/voice") then voice base host secret f now r
  else if jeqb path (js "/action") then action f now r
  else status f now r.

(** C10: What Twilio signs is heard. A form posted to a webhook, its fields
    written in any order and arriving in any pieces up to the limit, whose
    signature is made of the URL and the fields in the order of their names,
    is let in with exactly the fields that were sent. *)
Theorem twilio_is_heard path params sent chunks now r :
  path ∈ webhook_paths -> in_order params -> sound_form params -> sent ≡ₚ params ->
  concat chunks = form_text sent -> (Z.of_nat (length (form_text sent)) <= BODY_LIMIT)%Z ->
  (forall key data, hmac_sha1 key data <> []) ->
  on_request hmac_sha1 authToken base host secret
    (mkRequest (js "POST") (Some path) (Some chunks)
       (Some (to_base64 (hmac_sha1 (utf8 authToken) (utf8 (base ++ path ++ concat ((fun kv => fst kv ++ snd kv) <$> params))))))) now r
  = heard path (list_to_map params) now r.
Proof.
  intros Hp Ho Hs Hsent Hc Hl Hh. unfold on_request, heard. cbn [rq_path rq_method rq_body rq_signature].
  rewrite (bool_decide_eq_true_2 (path ∈ webhook_paths)) by done. change (jeqb (js "POST") (js "POST")) with true. cbn [negb orb].
  rewrite (form_received params sent chunks) by done.
  assert (Hsig : signed (base ++ path) (Some (list_to_map params)) (Some (to_base64 (hmac_sha1 (utf8 authToken)
             (utf8 (base ++ path ++ concat ((fun kv => fst kv ++ snd kv) <$> params)))))) = true); [|by rewrite Hsig].
  unfold signatureValid, twilioSignature. rewrite signed_text_params, <- app_assoc by done. apply andb_true_iff. split; [|by apply bool_decide_eq_true].
  apply negb_true_iff, bool_decide_eq_false. by apply to_base64_nonempty.
Qed.

(** ** A relay's chain *)

(** What relay [i] is to handle, in the order it came; what it began and how
    often it ended. *)
Definition arrivals (i : nat) : list input -> list job := omap (fun x =>
  match x with
  | Frame n raw _ => if Nat.eqb n i then match decodeInbound inboundSchema raw with Val e => Some (Handle e) | Exn _ => None end else None
  | RelayCloses n => if Nat.eqb n i then Some Hangup else None
  | _ => None
  end).
Definition begun (i : nat) : list output -> list job := omap (fun o => match o with Began n j => if Nat.eqb n i then Some j else None | _ => None end).
Definition ended (i : nat) : list output -> list unit := omap (fun o => match o with Ended n => if Nat.eqb n i then Some tt else None | _ => None end).

Lemma arrivals_snoc i inputs x : arrivals i (inputs ++ [x]) = arrivals i inputs ++ arrivals i [x].
Proof. apply omap_app. Qed.
Lemma begun_snoc i log o : begun i (log ++ [o]) = begun i log ++ begun i [o].
Proof. apply omap_app. Qed.
Lemma ended_snoc i log o : ended i (log ++ [o]) = ended i log ++ ended i [o].
Proof. apply omap_app. Qed.

(** One link of the chain runs at a time, in the order the links came; the
    hangup is the last. *)
Record chained (came : list job) (began : list job) (finished : nat) (x : relay) : Prop := {
  ch_order : began ++ re_waiting x = came;
  ch_single : length began = finished + if present (re_running x) then 1 else 0;
  ch_last : if re_open x then Hangup ∉ came else exists l, came = l ++ [Hangup] /\ Hangup ∉ l }.

Definition ordered (inputs : list input) (s : server) : Prop := forall i,
  match sv_relays s !! i with
  | Some x => chained (arrivals i inputs) (begun i (sv_log s)) (length (ended i (sv_log s))) x
  | None => arrivals i inputs = [] /\ begun i (sv_log s) = [] /\ ended i (sv_log s) = []
  end.

(** What leaves the relays alone. *)
Lemma ordered_aside inputs x s s' : ordered inputs s -> sv_relays s' = sv_relays s ->
  (forall i, arrivals i [x] = []) -> (forall i, begun i (sv_log s') = begun i (sv_log s)) -> (forall i, ended i (sv_log s') = ended i (sv_log s)) ->
  ordered (inputs ++ [x]) s'.
Proof.
  intros Ho Er Ha Hb He i. rewrite Er, arrivals_snoc, Ha, Hb, He, app_nil_r. apply Ho.
Qed.

(** What moves one relay. *)
Lemma ordered_at inputs x s s' n y y' : ordered inputs s -> sv_relays s !! n = Some y -> sv_relays s' = <[n := y']> (sv_relays s) ->
  (forall i, i <> n -> arrivals i [x] = [] /\ begun i (sv_log s') = begun i (sv_log s) /\ ended i (sv_log s') = ended i (sv_log s)) ->
  (chained (arrivals n inputs) (begun n (sv_log s)) (length (ended n (sv_log s))) y ->
   chained (arrivals n inputs ++ arrivals n [x]) (begun n (sv_log s')) (length (ended n (sv_log s'))) y') ->
  ordered (inputs ++ [x]) s'.
Proof.
  intros Ho Hy Er Hother Hn i. rewrite Er, arrivals_snoc. pose proof (Ho i) as Hi. destruct (decide (i = n)) as [->|Hne].
  - rewrite list_lookup_insert_eq by (by eapply lookup_lt_Some). rewrite Hy in Hi. by apply Hn.
  - rewrite list_lookup_insert_ne by done. destruct (Hother i Hne) as (-> & -> & ->). by rewrite app_nil_r.
Qed.

Lemma begun_other i o log : begun i [o] = [] -> begun i (log ++ [o]) = begun i log.
Proof. intros H. by rewrite begun_snoc, H, app_nil_r. Qed.
Lemma ended_other i o log : ended i [o] = [] -> ended i (log ++ [o]) = ended i log.
Proof. intros H. by rewrite ended_snoc, H, app_nil_r. Qed.

Lemma ordered_new_relay inputs x s s' : ordered inputs s -> sv_relays s' = sv_relays s ++ [new_relay] -> (forall i, arrivals i [x] = []) ->
  sv_log s' = sv_log s -> ordered (inputs ++ [x]) s'.
Proof.
  intros Ho Er Ha El i. rewrite Er, El, arrivals_snoc, Ha, app_nil_r. pose proof (Ho i) as Hi.
  destruct (decide (i < length (sv_relays s))) as [Hlt|Hge]; [by rewrite lookup_app_l|].
  rewrite lookup_app_r by lia. rewrite (lookup_ge_None_2 (sv_relays s) i) in Hi by lia.
  destruct (i - length (sv_relays s)) as [|k] eqn:Ek; [|exact Hi]. cbn. destruct Hi as (-> & -> & ->). split; [done|done|apply not_elem_of_nil].
Qed.

Lemma ordered_upgrade inputs path signature well_made s : ordered inputs s ->
  ordered (inputs ++ [Upgrade path signature well_made]) (on_upgrade hmac_sha1 authToken host secret path signature well_made s).
Proof.
  intros Ho. assert (Haside : forall s' o, sv_relays s' = sv_relays s -> sv_log s' = sv_log s ++ [o] -> (forall i, begun i [o] = []) -> (forall i, ended i [o] = []) ->
             ordered (inputs ++ [Upgrade path signature well_made]) s').
  { intros s' o Er El Hb He. apply (ordered_aside _ _ s); [done..| |]; intros i; rewrite El; [by apply begun_other|by apply ended_other]. }
  unfold on_upgrade. destruct path as [p|]; [|by apply (Haside _ Crashed)].
  destruct (negb _); [by apply (Haside _ (Refused 404))|]. destruct (negb _); [by apply (Haside _ (Refused 403))|].
  destruct (sv_closing s); [by apply (Haside _ (Refused 503))|]. destruct well_made; [|by apply (Haside _ (Refused 400))].
  by apply (ordered_new_relay _ _ s).
Qed.

Lemma ordered_frame inputs n raw now x s : ordered inputs s -> sv_relays s !! n = Some x -> re_open x = true ->
  ordered (inputs ++ [Frame n raw now]) (on_frame inboundSchema n raw now x s).
Proof.
  intros Ho Hx Hopen. unfold on_frame.
  assert (Ha : forall i, i <> n -> arrivals i [Frame n raw now] = []).
  { intros i Hi. cbn. by rewrite (proj2 (Nat.eqb_neq n i)). }
  assert (Hn : arrivals n [Frame n raw now] = match decodeInbound inboundSchema raw with Val e => [Handle e] | Exn _ => [] end).
  { cbn. rewrite Nat.eqb_refl. by destruct (decodeInbound inboundSchema raw). }
  destruct (decodeInbound inboundSchema raw) as [event|] eqn:Ed.
  2: { apply (ordered_aside _ _ s); [done..| |done|done]. intros i. destruct (decide (i = n)) as [->|]; [done|by apply Ha]. }
  assert (Hall : forall callSid s', sv_relays s' = sv_relays s -> sv_log s' = sv_log s ->
     ordered (inputs ++ [Frame n raw now]) (set_relay n (chain (Handle event) (mkRelay callSid (re_waiting x) (re_running x) (re_begun x) (re_open x))) s')).
  { intros callSid s' Er El. eapply (ordered_at _ _ s _ n x); [done|done|cbn; by rewrite Er| |].
    - intros i Hi. cbn. rewrite El. split; [by apply Ha|done].
    - cbn [set_relay with_relays sv_log]. rewrite El, Hn. intros [H1 H2 H3]. rewrite Hopen in H3. split; cbn.
      + by rewrite app_assoc, H1.
      + done.
      + rewrite Hopen. rewrite not_elem_of_app. split; [done|]. by intros ?%list_elem_of_singleton. }
  destruct event; try (specialize (Hall (re_callSid x) s eq_refl eq_refl); by destruct x). by apply Hall.
Qed.

Lemma ordered_step inputs i s s' : ordered inputs s -> step i s = Some s' -> ordered (inputs ++ [i]) s'.
Proof.
  intros Ho. unfold step. destruct (sv_up s); [|done]. cbn [negb].
  destruct i as [q now|path signature well_made|n raw now|n|n|n how|n a now|].
  - destruct (on_request _ _ _ _ _ q now (sv_registry s)) as [r a]. intros [= <-].
    apply (ordered_aside _ _ s); [done..| |]; intros i; [by apply begun_other|by apply ended_other].
  - intros [= <-]. by apply ordered_upgrade.
  - destruct (sv_relays s !! n) as [x|] eqn:Hx; [|done]. cbn. destruct (re_open x) eqn:Eo; [|done]. intros [= <-]. by apply ordered_frame.
  - destruct (sv_relays s !! n) as [x|] eqn:Hx; [|done]. cbn. destruct (re_open x) eqn:Eo; [|done]. intros [= <-].
    eapply (ordered_at _ _ s _ n x); [done|done|done| |].
    + intros i Hi. cbn. by rewrite (proj2 (Nat.eqb_neq n i)).
    + cbn. rewrite Nat.eqb_refl. intros [H1 H2 H3]. rewrite Eo in H3. split; cbn; [by rewrite app_assoc, H1|done|by eexists].
  - destruct (sv_relays s !! n) as [x|] eqn:Hx; [|done]. cbn. destruct (re_running x) as [running|] eqn:Er, (re_waiting x) as [|j rest] eqn:Ew; try done. intros [= <-].
    eapply (ordered_at _ _ s _ n x); [done|done|done| |].
    + intros i Hi. split_and!; [done| |by apply ended_other]. apply begun_other. cbn. by rewrite (proj2 (Nat.eqb_neq n i)).
    + cbn [chain_runs note set_relay with_relays sv_log]. rewrite begun_snoc, ended_other by done. cbn [arrivals omap list_omap]. rewrite app_nil_r.
      intros [H1 H2 H3]. rewrite Ew in H1. rewrite Er in H2. cbn [present] in H2. cbn. rewrite Nat.eqb_refl. split; cbn.
      * by rewrite <- app_assoc.
      * rewrite length_app. cbn. lia.
      * done.
  - destruct (sv_relays s !! n) as [x|] eqn:Hx; [|done]. cbn. destruct (re_running x) eqn:Er; [|done]. intros [= <-].
    eapply (ordered_at _ _ s _ n x); [done|done|done| |].
    + intros i Hi. split_and!; [done|by apply begun_other|]. apply ended_other. cbn. by rewrite (proj2 (Nat.eqb_neq n i)).
    + cbn [job_ends note set_relay with_relays sv_log]. rewrite ended_snoc, begun_other by done. cbn [arrivals omap list_omap]. rewrite app_nil_r.
      intros [H1 H2 H3]. rewrite Er in H2. cbn [present] in H2. cbn. rewrite Nat.eqb_refl. split; cbn; [done| |done]. rewrite length_app. cbn. lia.
  - destruct (sv_relays s !! n) as [x|] eqn:Hx; [|done]. cbn. destruct (re_begun x); [|done]. intros [= <-].
    apply (ordered_aside _ _ s); [done..| |]; intros i; [by apply begun_other|by apply ended_other].
  - intros [= <-]. by apply (ordered_aside _ _ s).
Qed.

Lemma ordered_steps before inputs s s' : ordered before s -> steps inputs s = Some s' -> ordered (before ++ inputs) s'.
Proof.
  revert before s. induction inputs as [|i inputs IH]; intros before s Ho; cbn [PhoneServer.steps].
  - intros [= <-]. by rewrite app_nil_r.
  - destruct (step i s) as [s1|] eqn:E; [|done]. cbn [mbind option_bind]. intros Hs.
    change (i :: inputs) with ([i] ++ inputs). rewrite app_assoc. apply (IH _ s1); [|done]. by apply (ordered_step before i s).
Qed.

(** What is left of a relay's chain, once everything begun comes to [how]. *)
Definition finish (how : result unit) (i : nat) (x : relay) : list input :=
  match re_running x with Some _ => [HandlerEnds i how] | None => [] end ++ concat ((fun _ => [ChainRuns i; HandlerEnds i how]) <$> re_waiting x).

Lemma finish_runs how i s x : sv_up s = true -> sv_relays s !! i = Some x -> exists s', steps (finish how i x) s = Some s' /\
  begun i (sv_log s') = begun i (sv_log s) ++ re_waiting x /\
  length (ended i (sv_log s')) = length (ended i (sv_log s)) + (if present (re_running x) then 1 else 0) + length (re_waiting x).
Proof.
  intros Hup Hx. assert (Hrest : forall waiting s sid open op, sv_up s = true -> sv_relays s !! i = Some (mkRelay sid waiting None open op) ->
      exists s', steps (concat ((fun _ => [ChainRuns i; HandlerEnds i how]) <$> waiting)) s = Some s' /\
        begun i (sv_log s') = begun i (sv_log s) ++ waiting /\ length (ended i (sv_log s')) = length (ended i (sv_log s)) + length waiting).
  { clear s x Hup Hx. induction waiting as [|j rest IH]; intros s sid open op Hup Hx.
    - exists s. cbn. rewrite app_nil_r. split_and!; [done..|lia].
    - set (s2 := job_ends i (mkRelay sid rest (Some j) true op) (chain_runs i j rest (mkRelay sid (j :: rest) None open op) s)).
      destruct (IH s2 sid true op) as (s' & Hs' & Hb & He); [done| |].
      { unfold s2. cbn. rewrite list_lookup_insert_eq; [done|]. rewrite length_insert. by eapply lookup_lt_Some. }
      exists s'. split_and!.
      + cbn [fmap list_fmap concat app PhoneServer.steps].
        assert (E1 : step (ChainRuns i) s = Some (chain_runs i j rest (mkRelay sid (j :: rest) None open op) s)) by (unfold step; by rewrite Hup, Hx).
        rewrite E1. cbn [mbind option_bind].
        assert (E2 : step (HandlerEnds i how) (chain_runs i j rest (mkRelay sid (j :: rest) None open op) s) = Some s2).
        { unfold step. cbn [chain_runs note set_relay with_relays sv_up sv_relays]. rewrite Hup. cbn [negb].
          by rewrite list_lookup_insert_eq by (by eapply lookup_lt_Some). }
        rewrite E2. exact Hs'.
      + rewrite Hb. unfold s2. cbn [job_ends chain_runs note set_relay with_relays sv_log]. rewrite !begun_snoc, <- !app_assoc. cbn. by rewrite Nat.eqb_refl.
      + rewrite He. unfold s2. cbn [job_ends chain_runs note set_relay with_relays sv_log]. rewrite !ended_snoc, !length_app. cbn. rewrite Nat.eqb_refl. cbn. lia. }
  unfold finish. destruct x as [sid waiting [j|] open_ op]; cbn [re_running re_waiting re_open present] in *.
  - set (s1 := job_ends i (mkRelay sid waiting (Some j) open_ op) s).
    destruct (Hrest waiting s1 sid open_ op) as (s' & Hs' & Hb & He); [done| |].
    { unfold s1. cbn. rewrite list_lookup_insert_eq by (by eapply lookup_lt_Some). done. }
    exists s'. split_and!.
    + cbn [app PhoneServer.steps]. unfold step at 1. rewrite Hup, Hx. exact Hs'.
    + rewrite Hb. unfold s1. cbn [job_ends note set_relay with_relays sv_log]. rewrite begun_snoc. cbn. by rewrite app_nil_r.
    + rewrite He. unfold s1. cbn [job_ends note set_relay with_relays sv_log]. rewrite ended_snoc, length_app. cbn. rewrite Nat.eqb_refl. cbn. lia.
  - destruct (Hrest waiting s sid open_ op Hup Hx) as (s' & Hs' & Hb & He). exists s'. split_and!; [done..|]. rewrite He. lia.
Qed.

(** C9: A call's frames are handled in order. Whatever happens on however
    many calls, a relay's engine is given exactly the frames its socket
    brought and the codec knows, in that order and one at a time, and the
    hangup last. Only the one handler that is running holds up what waits:
    whenever the chain has nothing to begin by itself, one more link has begun
    than has ended, or every link has; and once the handlers that are begun end,
    with an exception or without, everything that came is handled. A handler
    that never ends does hold up the rest for ever. *)
Theorem frames_are_handled_in_order inputs r s i x :
  steps inputs (new_server r) = Some s -> sv_relays s !! i = Some x ->
  begun i (sv_log s) ++ re_waiting x = arrivals i inputs /\
  length (ended i (sv_log s)) <= length (begun i (sv_log s)) <= S (length (ended i (sv_log s))) /\
  (re_open x = false -> exists l, arrivals i inputs = l ++ [Hangup] /\ Hangup ∉ l) /\
  (sv_up s = true -> step (ChainRuns i) s = None ->
   begun i (sv_log s) = take (S (length (ended i (sv_log s)))) (arrivals i inputs)) /\
  (forall how, sv_up s = true -> exists s', steps (finish how i x) s = Some s' /\ begun i (sv_log s') = arrivals i inputs /\
   length (ended i (sv_log s')) = length (arrivals i inputs)).
Proof.
  intros Hs Hx. assert (Hnew : ordered [] (new_server r)) by (by intros n).
  pose proof (ordered_steps [] inputs _ s Hnew Hs i) as Hc. rewrite Hx in Hc. cbn [app] in Hc. destruct Hc as [H1 H2 H3]. split_and!.
  - done.
  - rewrite H2. destruct (re_running x); cbn; lia.
  - rewrite H2. destruct (re_running x); cbn; lia.
  - intros Hc. by rewrite Hc in H3.
  - unfold step. intros Hup. rewrite Hup, Hx. cbn. rewrite <- H1. destruct (re_running x) as [j|] eqn:Er, (re_waiting x) as [|k rest] eqn:Ew; try done; intros _; cbn [present] in H2.
    + rewrite app_nil_r, take_ge; [done|lia].
    + rewrite take_app_length'; [done|lia].
    + rewrite app_nil_r, take_ge; [done|lia].
  - intros how Hup. destruct (finish_runs how i s x Hup Hx) as (s' & Hs' & Hb & He). exists s'. split_and!; [done|by rewrite Hb|].
    rewrite He, <- H1, length_app, H2. lia.
Qed.
End Runs.

(** ** A demonstration *)

(** A stand-in for HMAC-SHA1, and a schema that knows prompts. *)
Definition demo_hmac (key data : list N) : list N := [N.of_nat (length key); N.modulo (foldr N.add 0 data) 256]%N.
Definition demo_schema (document : jsval) : frame + jstr :=
  if is_str (prop document (js "type")) (js "prompt")
  then inl (PromptFrame (to_string (prop document (js "voicePrompt"))) [] true) else inr (js "Invalid input").

Definition demo_params : list (jstr * jstr) := [(js "CallSid", js "CA1"); (js "From", js "+1 555"); (js "To", js "+2")].
Definition demo_sent : list (jstr * jstr) := reverse demo_params.
Definition demo_header : jstr :=
  to_base64 (demo_hmac (utf8 (js "token")) (utf8 (js "https://p.test" ++ js "/voice" ++ concat ((fun kv => fst kv ++ snd kv) <$> demo_params)))).
Definition demo_handshake : jstr := twilioSignature demo_hmac (js "token") (relay_url (js "p.test") (js "s3cret")) None.
Definition demo_request (header : jstr) : input :=
  Request (mkRequest (js "POST") (Some (js "/voice")) (Some [form_text demo_sent]) (Some header)) 5.
Definition demo_prompt (text : string) : jstr :=
  stringify (VObj [(js "type", VStr (js "prompt")); (js "voicePrompt", VStr (js text))]).
Definition demo_inputs : list input :=
  [demo_request (js "forged"); demo_request demo_header; Upgrade (Some (js "/relay/guess")) (Some demo_handshake) true;
   Upgrade (Some (js "/relay/s3cret")) (Some demo_handshake) true; Frame 0 (demo_prompt "one") 6; Frame 0 (js "{") 6;
   ChainRuns 0; Frame 0 (demo_prompt "two") 7; RelayCloses 0].
#[local] Abbreviation demo_steps := (steps demo_hmac demo_schema (js "token") (js "https://p.test") (js "p.test") (js "s3cret")).
Definition demo_end : server := default (new_server new_registry) (demo_steps demo_inputs (new_server new_registry)).

Lemma only_twilio_is_heard_witness :
  ((exists s, demo_steps (filter (fun i => genuine demo_hmac (js "token") (js "https://p.test") (js "p.test") (js "s3cret") i = true) demo_inputs)
               (new_server new_registry) = Some s /\ sv_registry s = sv_registry demo_end /\ sv_relays s = sv_relays demo_end /\ sv_up s = true) /\
   (sv_up demo_end = true <-> Forall (fun i => addressed i = true) demo_inputs) /\
   (sv_up demo_end = false -> exists before signature well_made, demo_inputs = before ++ [Upgrade None signature well_made] /\
      Forall (fun i => addressed i = true) before)) /\
  length (rg_calls (sv_registry demo_end)) = 1 /\
  length (filter (fun i => genuine demo_hmac (js "token") (js "https://p.test") (js "p.test") (js "s3cret") i = true) demo_inputs) = 7 /\
  sv_up <$> demo_steps (demo_inputs ++ [Upgrade None None true]) (new_server new_registry) = Some false.
Proof.
  split; [|split_and!; by vm_compute].
  apply (only_twilio_is_heard demo_hmac demo_schema (js "token") (js "https://p.test") (js "p.test") (js "s3cret") demo_inputs new_registry demo_end).
  by vm_compute.
Defined.

Lemma twilio_is_heard_witness :
  on_request demo_hmac (js "token") (js "https://p.test") (js "p.test") (js "s3cret")
    (mkRequest (js "POST") (Some (js "/voice")) (Some [form_text demo_sent]) (Some demo_header)) 5 new_registry
  = heard (js "https://p.test") (js "p.test") (js "s3cret") (js "/voice") (list_to_map demo_params) 5 new_registry.
Proof.
  apply (twilio_is_heard demo_hmac (js "token") (js "https://p.test") (js "p.test") (js "s3cret") (js "/voice") demo_params demo_sent [form_text demo_sent]).
  - by left.
  - split; [|apply (bool_decide_unpack _); by vm_compute]. repeat constructor; vm_compute; tauto.
  - unfold sound_form. repeat constructor.
  - apply reverse_Permutation.
  - apply app_nil_r.
  - by vm_compute.
  - done.
Defined.

Lemma frames_are_handled_in_order_witness :
  begun 0 (sv_log demo_end) = [Handle (Speech (js "one") true [])] /\
  (exists x, sv_relays demo_end !! 0 = Some x /\
     begun 0 (sv_log demo_end) ++ re_waiting x = [Handle (Speech (js "one") true []); Handle (Speech (js "two") true []); Hangup]).
Proof.
  split; [by vm_compute|]. exists (mkRelay [] [Handle (Speech (js "two") true []); Hangup] (Some (Handle (Speech (js "one") true []))) true false).
  split; [by vm_compute|].
  rewrite (proj1 (frames_are_handled_in_order demo_hmac demo_schema (js "token") (js "https://p.test") (js "p.test") (js "s3cret") demo_inputs new_registry demo_end
    0 (mkRelay [] [Handle (Speech (js "two") true []); Hangup] (Some (Handle (Speech (js "one") true []))) true false) ltac:(by vm_compute) ltac:(by vm_compute))).
  by vm_compute.
Defined.
