(* ===== verification/TaskStore.v ===== *)
(** [apps/agentd/src/store/sqlite-task-store.ts]: the tasks an agent keeps, as
    the rows of its table in the order of their rowids. SQLite's text is
    UTF-8: what is bound to a statement is made well formed on the way. The
    SDK's codec of tasks is a parameter.

    Then: the task store keeps what was saved in it, its sweeps change all
    they should or nothing, and its pages leave nothing out. *)

From stdpp Require Import sorting.
From S2P Require Import Prelude Envelope A2A Json SessionId Async Values Numbers Bytes.
#[local] Open Scope Z_scope.

(** ** Tasks *)

(** The SDK's [Task], as far as the store looks into it; messages, artifacts
    and metadata are values it passes on. *)
Record Status := mkTaskStatus {
  ss_state : TaskState;
  ss_message : jsval;
  ss_timestamp : option jstr }.
Record Task := mkStoredTask {
  ta_id : jstr;
  ta_contextId : jstr;
  ta_status : option Status;
  ta_artifacts : list jsval;
  ta_history : list jsval;
  ta_metadata : jsval }.

(** [Task.toJSON], [Task.fromJSON], and the number of [Role.ROLE_AGENT]. *)
Class TaskCodec := {
  toJSON : Task -> jsval;
  fromJSON : jsval -> option Task;
  role_agent : Z }.

(** [resolveUserScope] or another resolver has told the owner. *)
Record ServerCallContext := mkCallContext {
  cx_tenant : option jstr;
  cx_owner : jstr }.

(** A string that is absent is empty. *)
Record ListTasksRequest := mkListTasks {
  lp_contextId : jstr;
  lp_status : option TaskState;
  lp_pageSize : option Z;
  lp_pageToken : jstr;
  lp_statusTimestampAfter : jstr;
  lp_includeArtifacts : option bool }.
Record ListTasksResponse := mkListed {
  ls_tasks : list Task;
  ls_nextPageToken : jstr;
  ls_pageSize : Z;
  ls_totalSize : nat }.

Definition DEFAULT_PAGE_SIZE : Z := 50.
Definition TERMINAL_STATES : list TaskState :=
  [TASK_STATE_COMPLETED; TASK_STATE_FAILED; TASK_STATE_CANCELED; TASK_STATE_REJECTED].

(** ** Rows *)

Record TaskRow := mkTaskRow {
  ro_tenant : jstr;
  ro_owner : jstr;
  ro_id : jstr;
  ro_context_id : jstr;
  ro_state : TaskState;
  ro_status_timestamp : option jstr;
  ro_status_time_ms : option Z;
  ro_task_json : jstr }.

(** The primary key. *)
Abbreviation key := (jstr * jstr * jstr)%type.
Definition row_key (r : TaskRow) : key := (ro_tenant r, ro_owner r, ro_id r).

(** A string as a parameter of a statement. *)
Definition text (s : jstr) : jstr := to_well_formed s.

Definition tenant_of (cx : ServerCallContext) : jstr := default [] (cx_tenant cx).
Definition key_of (cx : ServerCallContext) (id : jstr) : key := (text (tenant_of cx), text (cx_owner cx), text id).

(** [INSERT … ON CONFLICT … DO UPDATE]: a row that is there keeps its place. *)
Fixpoint upsert (r : TaskRow) (rows : list TaskRow) : list TaskRow :=
  match rows with
  | [] => [r]
  | x :: t => if decide (row_key x = row_key r) then r :: t else x :: upsert r t
  end.

(** The order of SQLite's text: that of its bytes. *)
Fixpoint bytes_lt (a b : list N) : bool :=
  match a, b with
  | _, [] => false
  | [], _ :: _ => true
  | x :: a', y :: b' => (x <? y)%N || (x =? y)%N && bytes_lt a' b'
  end.

(** [COALESCE(status_timestamp, '')], and [ORDER BY … DESC, id DESC]. *)
Definition row_ts (r : TaskRow) : jstr := default [] (ro_status_timestamp r).
Definition newer (a b : TaskRow) : bool :=
  bytes_lt (utf8 (row_ts b)) (utf8 (row_ts a))
  || bool_decide (utf8 (row_ts b) = utf8 (row_ts a)) && bytes_lt (utf8 (ro_id b)) (utf8 (ro_id a)).
Fixpoint insert_newest (r : TaskRow) (l : list TaskRow) : list TaskRow :=
  match l with
  | [] => [r]
  | x :: t => if newer x r then x :: insert_newest r t else r :: l
  end.
Definition newest_first (l : list TaskRow) : list TaskRow := foldr insert_newest [] l.

(** [l.slice(0, n)]. *)
Definition slice_to {A : Type} (n : Z) (l : list A) : list A :=
  take (if n <? 0 then (length l - Z.to_nat (- n))%nat else Z.to_nat n) l.

Fixpoint find_index {A : Type} (p : A -> bool) (l : list A) : option nat :=
  match l with
  | [] => None
  | x :: t => if p x then Some 0%nat else S <$> find_index p t
  end.

Definition page_token (r : TaskRow) : jstr := to_base64 (utf8 (row_ts r ++ js "|" ++ ro_id r)).

(** A timestamp and an id; [None] where there is no separator. *)
Definition read_token (token : jstr) : option (jstr * jstr) :=
  match split (js "|") (utf8_decode (from_base64 token)) with
  | ts :: part :: parts => Some (ts, join_with (js "|") (part :: parts))
  | _ => None
  end.

Definition without_artifacts (t : Task) : Task :=
  mkStoredTask (ta_id t) (ta_contextId t) (ta_status t) [] (ta_history t) (ta_metadata t).
Definition set_status (s : Status) (t : Task) : Task :=
  mkStoredTask (ta_id t) (ta_contextId t) (Some s) (ta_artifacts t) (ta_history t) (ta_metadata t).
Definition state_of (t : Task) : TaskState := match ta_status t with Some s => ss_state s | None => TASK_STATE_UNSPECIFIED end.

Section Store.
(** [Date.parse]; [None] is NaN. *)
Context {codec : TaskCodec} (date_parse : jstr -> option Z).

(** ** Saving and loading *)

Definition task_json (task : Task) : jstr := text (stringify (toJSON task)).

(** The row of a task kept under a key. *)
Definition row_of (k : key) (task : Task) : TaskRow :=
  let timestamp := ta_status task ≫= ss_timestamp in
  mkTaskRow k.1.1 k.1.2 k.2 (text (ta_contextId task)) (state_of task) (text <$> timestamp) (timestamp ≫= date_parse) (task_json task).

Definition save (task : Task) (cx : ServerCallContext) (rows : list TaskRow) : list TaskRow :=
  upsert (row_of (key_of cx (ta_id task)) task) rows.

(** [Task.fromJSON(JSON.parse(row.task_json))]; [None] is that it throws. *)
Definition read_task (r : TaskRow) : option Task := v ← parse (ro_task_json r); fromJSON v.
Definition read_tasks (rows : list TaskRow) : result (list Task) :=
  match mapM read_task rows with Some tasks => Val tasks | None => Exn (js "SyntaxError") end.

Definition load (taskId : jstr) (cx : ServerCallContext) (rows : list TaskRow) : result (option Task) :=
  match find (fun r => bool_decide (row_key r = key_of cx taskId)) rows with
  | None => Val None
  | Some r => match read_task r with Some t => Val (Some t) | None => Exn (js "SyntaxError") end
  end.

(** ** Listing *)

Definition listed (params : ListTasksRequest) (cx : ServerCallContext) (r : TaskRow) : bool :=
  bool_decide (ro_tenant r = text (tenant_of cx)) && bool_decide (ro_owner r = text (cx_owner cx))
  && (bool_decide (lp_contextId params = []) || bool_decide (ro_context_id r = text (lp_contextId params)))
  && match lp_status params with
     | None | Some TASK_STATE_UNSPECIFIED => true
     | Some s => bool_decide (ro_state r = s)
     end
  && (bool_decide (lp_statusTimestampAfter params = [])
      || match ro_status_time_ms r, date_parse (lp_statusTimestampAfter params) with
         | Some time, Some after => after <? time
         | _, _ => false
         end).

(** The page that [remaining] starts with, of so many rows in all. *)
Definition page_from (params : ListTasksRequest) (totalSize : nat) (remaining : list TaskRow) : result ListTasksResponse :=
  let pageSize := default DEFAULT_PAGE_SIZE (lp_pageSize params) in
  let page := slice_to pageSize remaining in
  match mapM read_task page with
  | None => Exn (js "SyntaxError")
  | Some tasks =>
      Val (mkListed (if default false (lp_includeArtifacts params) then tasks else without_artifacts <$> tasks)
             (match last page with
              | Some r => if (length page <? length remaining)%nat then page_token r else []
              | None => []
              end) pageSize totalSize)
  end.

Definition list_tasks (params : ListTasksRequest) (cx : ServerCallContext) (rows : list TaskRow) : result ListTasksResponse :=
  let rows := newest_first (filter (fun r => listed params cx r = true) rows) in
  if bool_decide (lp_pageToken params = []) then page_from params (length rows) rows else
  match read_token (lp_pageToken params) with
  | None => Exn (js "Invalid page token format.")
  | Some (ts, id) =>
      page_from params (length rows)
        (match find_index (fun r => bool_decide (row_ts r = ts) && bool_decide (ro_id r = id)) rows with
         | None => []
         | Some i => drop (i + 1) rows
         end)
  end.

(** ** Sweeps over all tenants and owners *)

Definition allInStates (states : list TaskState) (rows : list TaskRow) : result (list Task) :=
  if bool_decide (states = []) then Val [] else read_tasks (filter (fun r => ro_state r ∈ states) rows).

Definition unfinished (s : TaskState) : bool := bool_decide (s ∈ [TASK_STATE_SUBMITTED; TASK_STATE_WORKING]).

Definition failure_message (reason id contextId : jstr) : jsval :=
  VObj [(js "messageId", VStr (id ++ js "-reconciled")); (js "contextId", VStr contextId); (js "taskId", VStr id);
        (js "role", VNum role_agent);
        (js "parts", VArr [VObj [(js "content", VObj [(js "$case", VStr (js "text")); (js "value", VStr reason)]);
                                 (js "mediaType", VStr (js "text/plain")); (js "filename", VStr []); (js "metadata", VObj [])]]);
        (js "metadata", VObj []); (js "extensions", VArr []); (js "referenceTaskIds", VArr [])].
Definition failed (reason id now : jstr) (task : Task) : Task :=
  set_status (mkTaskStatus TASK_STATE_FAILED (failure_message reason id (ta_contextId task)) (Some now)) task.

(** [UPDATE … WHERE tenant = ? AND owner = ? AND id = ?]. *)
Definition update_row (r : TaskRow) (f : TaskRow -> TaskRow) (rows : list TaskRow) : list TaskRow :=
  (fun x => if decide (row_key x = (text (ro_tenant r), text (ro_owner r), text (ro_id r))) then f x else x) <$> rows.
Definition fail_row (now : jstr) (task : Task) (x : TaskRow) : TaskRow :=
  mkTaskRow (ro_tenant x) (ro_owner x) (ro_id x) (ro_context_id x) TASK_STATE_FAILED (Some (text now)) (date_parse now) (task_json task).

Fixpoint fail_all (reason now : jstr) (targets rows : list TaskRow) : option (list TaskRow) :=
  match targets with
  | [] => Some rows
  | r :: t =>
      task ← read_task r;
      fail_all reason now t (update_row r (fail_row now (failed reason (ro_id r) now task)) rows)
  end.

(** All in one transaction: where one task cannot be read none is changed. *)
Definition failUnfinished (reason now : jstr) (rows : list TaskRow) : result nat * list TaskRow :=
  let targets := filter (fun r => unfinished (ro_state r) = true) rows in
  match fail_all reason now targets rows with
  | Some rows' => (Val (length targets), rows')
  | None => (Exn (js "SyntaxError"), rows)
  end.

(** [time < now - days * 86400000]; the days of a fraction are taken exact. *)
Definition before_cutoff (m e now time : Z) : bool :=
  if e <? 0 then m * 86400000 <? (now - time) * 2 ^ (- e) else m * 2 ^ e * 86400000 <? now - time.

Definition prunable (m e now : Z) (state : TaskState) (time : option Z) : bool :=
  bool_decide (state ∈ TERMINAL_STATES) && match time with Some time => before_cutoff m e now time | None => false end.

Definition pruneTerminalTasks (olderThanDays : option number) (now : Z) (rows : list TaskRow) : result nat * list TaskRow :=
  match olderThanDays with
  | None => (Val 0%nat, rows)
  | Some (Finite negative m e) =>
      if negative && negb (m =? 0) then (Exn (js "olderThanDays must be a non-negative number"), rows) else
      let kept := filter (fun r => prunable m e now (ro_state r) (ro_status_time_ms r) = false) rows in
      (Val (length rows - length kept)%nat, kept)
  | Some _ => (Exn (js "olderThanDays must be a non-negative number"), rows)
  end.
End Store.

#[local] Close Scope Z_scope.
#[local] Open Scope nat_scope.

(** ** Tokens *)

Lemma split_nonempty sep s : exists part parts, split [sep] s = part :: parts.
Proof.
  unfold split. cut (forall cur, exists part parts, split_go [sep] 0 cur s = part :: parts); [intros H; apply H|].
  induction s as [|c s IH]; intros cur; [by exists cur, []|]. cbn. destruct ((sep =? c)%N && true); [by eexists _, _|apply IH].
Qed.

(** The parts of a string, joined again. *)
Lemma join_split sep s : join_with [sep] (split [sep] s) = s.
Proof.
  unfold split. cut (forall cur, join_with [sep] (split_go [sep] 0 cur s) = cur ++ s); [intros H; apply (H [])|].
  induction s as [|c s IH]; intros cur; [cbn; by rewrite app_nil_r|]. cbn [split_go starts_with].
  destruct (N.eqb_spec sep c) as [->|_]; cbn [andb].
  - change (length [c] - 1) with 0. specialize (IH []). destruct (split_go [c] 0 [] s) as [|x l] eqn:E.
    { destruct (split_nonempty c s) as (part & parts & E'). unfold split in E'. congruence. }
    change (join_with [c] (cur :: x :: l)) with (cur ++ [c] ++ join_with [c] (x :: l)). by rewrite IH.
  - rewrite IH. by rewrite <- app_assoc.
Qed.

Definition bar : N := 124%N.

Lemma read_token_of ts id : bar ∉ ts -> units (ts ++ [bar] ++ id) -> well_formed (ts ++ [bar] ++ id) = true ->
  read_token (to_base64 (utf8 (ts ++ js "|" ++ id))) = Some (ts, id).
Proof.
  intros Hbar Hu Hw. change (js "|") with [bar]. unfold read_token.
  rewrite base64_roundtrip, utf8_roundtrip, well_formed_fixed by (done || by apply utf8_bytes).
  change (js "|") with [bar]. cbn [app]. rewrite split_app. unfold split at 1. rewrite split_go_none by done. cbn [app].
  destruct (split_nonempty bar id) as (part & parts & E). rewrite E, <- E. by rewrite join_split.
Qed.

(** ** Finding a row again *)

Lemma find_index_unique {A K : Type} `{!EqDecision K} (f : A -> K) (p : A -> bool) l i x :
  NoDup (f <$> l) -> l !! i = Some x -> (forall y, p y = true -> f y = f x) -> p x = true -> find_index p l = Some i.
Proof.
  intros Hnd. revert i. induction l as [|y l IH]; intros i Hi Hp Hx; [done|]. cbn in Hnd. apply NoDup_cons in Hnd as [Hy Hnd].
  cbn. destruct i as [|i]; [injection Hi as ->; by rewrite Hx|]. cbn in Hi. destruct (p y) eqn:E.
  - exfalso. apply Hy. rewrite (Hp y E). apply list_elem_of_fmap_2. by eapply list_elem_of_lookup_2.
  - by rewrite (IH Hnd i Hi Hp Hx).
Qed.

(** ** The order of a listing *)

Lemma bytes_lt_asym a b : bytes_lt a b = true -> bytes_lt b a = false.
Proof.
  revert b. induction a as [|x a IH]; intros [|y b]; cbn; try done. intros H.
  destruct (N.ltb_spec x y) as [Hxy|Hxy]; cbn in H.
  - rewrite (proj2 (N.ltb_ge y x)), (proj2 (N.eqb_neq y x)) by lia. done.
  - apply andb_true_iff in H as [Heq%N.eqb_eq H]. subst. by rewrite N.ltb_irrefl, N.eqb_refl, IH.
Qed.

Lemma newer_asym a b : newer a b = true -> newer b a = false.
Proof.
  unfold newer. intros [H|[Heq H]%andb_true_iff]%orb_true_iff.
  - rewrite (bytes_lt_asym _ _ H). cbn. rewrite bool_decide_eq_false_2; [done|]. intros E. rewrite E in H.
    pose proof (bytes_lt_asym _ _ H). congruence.
  - apply bool_decide_eq_true in Heq. rewrite Heq in *. rewrite (bytes_lt_asym _ _ H), andb_false_r, orb_false_r.
    destruct (bytes_lt (utf8 (row_ts a)) (utf8 (row_ts a))) eqn:E; [|done]. pose proof (bytes_lt_asym _ _ E). congruence.
Qed.

(** None is newer than the one before it. *)
Definition in_order : list TaskRow -> Prop := Sorted (fun a b => newer b a = false).

Lemma insert_newest_order r l : in_order l -> in_order (insert_newest r l).
Proof.
  induction 1 as [|x l Hl IH Hx]; cbn; [by repeat constructor|]. destruct (newer x r) eqn:E.
  - constructor; [exact IH|]. destruct l as [|y l]; cbn; [constructor; by apply newer_asym|].
    inversion Hx; subst. destruct (newer y r); constructor; [done|by apply newer_asym].
  - constructor; [by constructor|]. by constructor.
Qed.
Lemma newest_first_order l : in_order (newest_first l).
Proof. induction l as [|r l IH]; [constructor|by apply insert_newest_order]. Qed.

Lemma insert_newest_perm r l : insert_newest r l ≡ₚ r :: l.
Proof. induction l as [|x l IH]; cbn; [done|]. destruct (newer x r); [|done]. rewrite IH. apply perm_swap. Qed.
Lemma newest_first_perm l : newest_first l ≡ₚ l.
Proof. induction l as [|r l IH]; [done|]. cbn. by rewrite insert_newest_perm, IH. Qed.

(** A literal whose leaves have a text. *)
Ltac json_literal := repeat match goal with
  | |- json_ok (VObj _) => rewrite json_ok_obj; split; [apply (bool_decide_eq_true_1 _); evaluated|]
  | |- json_ok (VArr _) => rewrite json_ok_arr
  | |- Forall _ (_ :: _) => apply Forall_cons_2; cbn [snd]
  | |- Forall _ [] => apply Forall_nil_2
  | |- json_ok _ => exact I
  end.

(** ** A memory of tasks *)

Abbreviation memory := (list (key * Task)).

Fixpoint remember (k : key) (t : Task) (mem : memory) : memory :=
  match mem with
  | [] => [(k, t)]
  | kt :: rest => if decide (fst kt = k) then (k, t) :: rest else kt :: remember k t rest
  end.
Fixpoint recall (k : key) (mem : memory) : option Task :=
  match mem with
  | [] => None
  | kt :: rest => if decide (fst kt = k) then Some (snd kt) else recall k rest
  end.

(** What is done to the store, and to the memory. *)
Inductive act :=
| Save (task : Task) (cx : ServerCallContext)
| FailUnfinished (reason now : jstr)
| Prune (olderThanDays : option number) (now : Z).

Section Runs.
Context {codec : TaskCodec} (date_parse : jstr -> option Z).

Definition do_act (rows : list TaskRow) (a : act) : list TaskRow :=
  match a with
  | Save task cx => save date_parse task cx rows
  | FailUnfinished reason now => snd (failUnfinished date_parse reason now rows)
  | Prune days now => snd (pruneTerminalTasks days now rows)
  end.

Definition time_of (t : Task) : option Z := (ta_status t ≫= ss_timestamp) ≫= date_parse.
Definition expired (days : option number) (now : Z) (t : Task) : bool :=
  match days with
  | Some (Finite negative m e) => (negb negative || (m =? 0)%Z) && prunable m e now (state_of t) (time_of t)
  | _ => false
  end.

Definition remember_act (mem : memory) (a : act) : memory :=
  match a with
  | Save task cx => remember (key_of cx (ta_id task)) task mem
  | FailUnfinished reason now =>
      (fun kt => if unfinished (state_of (snd kt)) then (fst kt, failed reason (snd (fst kt)) now (snd kt)) else kt) <$> mem
  | Prune days now => filter (fun kt => expired days now (snd kt) = false) mem
  end.

Definition done_all (acts : list act) : list TaskRow := fold_left do_act acts [].
Definition remembered (acts : list act) : memory := fold_left remember_act acts [].

(** ** Tasks the codec carries *)

Definition carried (t : Task) : Prop := json_ok (toJSON t) /\ fromJSON (toJSON t) = Some t.
(** The tasks of the SDK's types: those that are saved are, and a sweep makes
    such tasks of such tasks. *)
Context (sdk_task : Task -> Prop).

(** ** Rows are the image of the memory *)

Definition image (mem : memory) : list TaskRow := (fun kt => row_of date_parse (fst kt) (snd kt)) <$> mem.

Lemma row_key_of k t : row_key (row_of date_parse k t) = k.
Proof. by destruct k as [[? ?] ?]. Qed.

Lemma read_row_of k t : carried t -> read_task (row_of date_parse k t) = Some t.
Proof.
  intros [Hok Hback]. unfold read_task, row_of, task_json. cbn [ro_task_json]. unfold text.
  by rewrite well_formed_fixed, parse_stringify by (done || apply well_formed_stringify).
Qed.

Lemma filter_image (P : TaskRow -> Prop) (Q : key * Task -> Prop) `{!forall r, Decision (P r)} `{!forall kt, Decision (Q kt)} mem :
  (forall kt, P (row_of date_parse (fst kt) (snd kt)) <-> Q kt) -> filter P (image mem) = image (filter Q mem).
Proof.
  intros HPQ. unfold image. induction mem as [|kt mem IH]; [done|]. cbn [fmap list_fmap].
  rewrite !filter_cons. destruct (decide (Q kt)) as [HQ|HQ].
  - rewrite decide_True by (by apply HPQ). cbn. by rewrite IH.
  - by rewrite decide_False by (by rewrite HPQ).
Qed.

Lemma upsert_image k t mem : upsert (row_of date_parse k t) (image mem) = image (remember k t mem).
Proof.
  induction mem as [|[k' t'] mem IH]; [done|]. cbn [image fmap list_fmap upsert remember fst snd]. rewrite !row_key_of.
  destruct (decide (k' = k)); [done|]. cbn [fmap list_fmap]. f_equal. exact IH.
Qed.

(** Keys are unique and have been through SQLite, and tasks are carried. *)
Definition fixed (k : key) : Prop := (text k.1.1, text k.1.2, text k.2) = k.
Definition well_kept (mem : memory) : Prop :=
  NoDup (fst <$> mem) /\ Forall (fun kt => fixed (fst kt) /\ sdk_task (snd kt)) mem.

Lemma remember_keys k t mem k' : k' ∈ fst <$> remember k t mem -> k' = k \/ k' ∈ fst <$> mem.
Proof.
  induction mem as [|[k0 t0] mem IH]; cbn.
  - rewrite elem_of_cons. intros [->|?%elem_of_nil]; [by left|done].
  - destruct (decide (k0 = k)); cbn; rewrite !elem_of_cons; [by intros [->|?]; [left|right; right]|].
    intros [->|H]; [by right; left|]. destruct (IH H); [by left|by right; right].
Qed.

Lemma well_kept_remember k t mem : fixed k -> sdk_task t -> well_kept mem -> well_kept (remember k t mem).
Proof.
  intros Hk Ht [Hnd Hall]. unfold well_kept. induction mem as [|[k0 t0] mem IH]; cbn.
  - split; [apply NoDup_singleton|by constructor].
  - cbn in Hnd. apply NoDup_cons in Hnd as [Hk0 Hnd]. apply Forall_cons in Hall as [H0 Hall].
    destruct (decide (k0 = k)) as [->|Hne]; cbn.
    + split; [by apply NoDup_cons|by constructor].
    + destruct (IH Hnd Hall) as [Hnd' Hall']. split; [|by constructor]. apply NoDup_cons. split; [|done].
      intros [->|?]%remember_keys; done.
Qed.

Lemma fixed_key_of cx id : fixed (key_of cx id).
Proof. unfold fixed, key_of, text. cbn. by rewrite !to_well_formed_twice. Qed.

Lemma well_kept_filter (P : key * Task -> Prop) `{!forall x, Decision (P x)} mem : well_kept mem -> well_kept (filter P mem).
Proof.
  intros [Hnd Hall]. induction mem as [|[k t] mem IH]; [by split|]. cbn in Hnd. apply NoDup_cons in Hnd as [Hk Hnd].
  apply Forall_cons in Hall as [H0 Hall]. destruct (IH Hnd Hall) as [Hnd' Hall']. rewrite filter_cons.
  case_decide; [|by split]. split; [|by constructor]. cbn. apply NoDup_cons. split; [|done].
  intros (kt & -> & [_ Hin]%list_elem_of_filter)%list_elem_of_fmap. by apply Hk, list_elem_of_fmap_2.
Qed.

(** ** Each act does to the rows what it does to the memory *)

Context (codec_carries : forall t, sdk_task t -> carried t).
Context (failed_is_sdk : forall reason id now t, sdk_task t -> sdk_task (failed reason id now t)).

(** Failing the tasks of some keys. *)
Definition fail_keys (reason now : jstr) (ks : list key) (mem : memory) : memory :=
  (fun kt => if decide (fst kt ∈ ks) then (fst kt, failed reason (snd (fst kt)) now (snd kt)) else kt) <$> mem.

Lemma update_row_image reason now (k : key) t (mem : memory) : fixed k -> (forall t', (k, t') ∈ mem -> t' = t) ->
  update_row (row_of date_parse k t) (fail_row date_parse now (failed reason k.2 now t)) (image mem) = image (fail_keys reason now [k] mem).
Proof.
  intros Hk Hsame. unfold update_row, image, fail_keys. rewrite <- !list_fmap_compose. apply list_fmap_ext. intros i [k' t'] Hin.
  apply list_elem_of_lookup_2 in Hin. cbn [compose fst snd]. unfold compose. cbn [fst snd]. rewrite row_key_of.
  replace (text (ro_tenant (row_of date_parse k t)), text (ro_owner (row_of date_parse k t)), text (ro_id (row_of date_parse k t))) with k
    by (symmetry; exact Hk).
  destruct (decide (k' = k)) as [->|Hne].
  - rewrite decide_True by (by left). by rewrite (Hsame t' Hin).
  - by rewrite decide_False by (by rewrite list_elem_of_singleton).
Qed.

Lemma fail_keys_again reason now k ks mem : k ∉ ks ->
  fail_keys reason now ks (fail_keys reason now [k] mem) = fail_keys reason now (k :: ks) mem.
Proof.
  intros Hk. unfold fail_keys. rewrite <- list_fmap_compose. apply list_fmap_ext. intros _ [k' t'] _. unfold compose. cbn [fst snd].
  destruct (decide (k' ∈ [k])) as [H1|H1]; cbn [fst snd].
  - apply list_elem_of_singleton in H1 as ->. rewrite decide_False by done. by rewrite decide_True by (by left).
  - rewrite list_elem_of_singleton in H1. destruct (decide (k' ∈ ks)); [by rewrite decide_True by (by right)|].
    rewrite decide_False; [done|]. by rewrite elem_of_cons; intros [|].
Qed.

Lemma fail_all_image reason now (targets mem : memory) :
  NoDup (fst <$> targets) -> Forall (fun kt => fixed (fst kt) /\ sdk_task (snd kt)) targets ->
  (forall (k : key) t t', (k, t) ∈ targets -> (k, t') ∈ mem -> t' = t) ->
  fail_all date_parse reason now (image targets) (image mem) = Some (image (fail_keys reason now (fst <$> targets) mem)).
Proof.
  revert mem. induction targets as [|[k t] targets IH]; intros mem Hnd Hall Hsame.
  - cbn. f_equal. unfold image, fail_keys. rewrite <- list_fmap_compose. apply list_fmap_ext. by intros i kt _.
  - cbn in Hnd. apply NoDup_cons in Hnd as [Hk Hnd]. apply Forall_cons in Hall as [[Hfix Ht] Hall]. cbn [fst snd] in Hfix, Ht.
    cbn [image fmap list_fmap fail_all fst snd]. fold (image targets). rewrite read_row_of by (by apply codec_carries).
    cbn [mbind option_bind]. change (ro_id (row_of date_parse k t)) with (k.2).
    rewrite update_row_image by (first [done|intros t' Hin; eapply Hsame; [by left|done]]).
    rewrite IH; [by rewrite fail_keys_again|done|done|].
    intros k0 t0 t1 H0 H1. unfold fail_keys in H1. apply list_elem_of_fmap in H1 as ([k2 t2] & E & H2). cbn [fst snd] in E.
    assert (k0 ∈ fst <$> targets) as Hk0 by (by apply (list_elem_of_fmap_2 fst _ (k0, t0))).
    destruct (decide (k2 ∈ [k])) as [H3|H3].
    + injection E as -> _. apply list_elem_of_singleton in H3 as ->. done.
    + injection E as -> ->. eapply Hsame; [by right|done].
Qed.

Lemma unique_task (mem : memory) (k : key) t t' : NoDup (fst <$> mem) -> (k, t) ∈ mem -> (k, t') ∈ mem -> t' = t.
Proof.
  induction mem as [|[k0 t0] mem IH]; cbn; [intros _ ?%elem_of_nil; done|]. intros [Hk Hnd]%NoDup_cons.
  rewrite !elem_of_cons. intros [[= -> ->]|H1] [[= E]|H2]; subst; [done|..|by apply IH].
  - exfalso. apply Hk. by apply (list_elem_of_fmap_2 fst _ (k0, t')).
  - exfalso. apply Hk. by apply (list_elem_of_fmap_2 fst _ (k0, t)).
Qed.

Lemma fail_unfinished_image reason now mem : well_kept mem ->
  failUnfinished date_parse reason now (image mem) =
    (Val (length (filter (fun kt => unfinished (state_of (snd kt)) = true) mem)), image (remember_act mem (FailUnfinished reason now))).
Proof.
  intros [Hnd Hall]. unfold failUnfinished. rewrite (filter_image _ (fun kt => unfinished (state_of (snd kt)) = true)) by done.
  pose proof (well_kept_filter (fun kt => unfinished (state_of (snd kt)) = true) mem (conj Hnd Hall)) as [Hnd' Hall'].
  rewrite fail_all_image; [|done|done|].
  - f_equal; [unfold image; by rewrite length_fmap|]. f_equal. unfold fail_keys. cbn [remember_act]. apply list_fmap_ext. intros i [k t] Hin.
    apply list_elem_of_lookup_2 in Hin. cbn [fst snd]. destruct (unfinished (state_of t)) eqn:E.
    + rewrite decide_True; [done|]. apply (list_elem_of_fmap_2 fst _ (k, t)). by apply list_elem_of_filter.
    + rewrite decide_False; [done|]. intros ([k' t'] & -> & [E' Hin']%list_elem_of_filter)%list_elem_of_fmap.
      cbn [fst snd] in *. rewrite (unique_task mem k' t t' Hnd Hin Hin') in E'. congruence.
  - intros k t t' [_ H1]%list_elem_of_filter H2. by apply (unique_task mem k t t').
Qed.

Lemma prune_image days now mem :
  snd (pruneTerminalTasks days now (image mem)) = image (remember_act mem (Prune days now)).
Proof.
  assert (Hkeep : forall P : key * Task -> bool, (forall kt, P kt = false) -> filter (fun kt => P kt = false) mem = mem).
  { intros P HP. apply list_filter_all, Forall_forall. intros kt _. apply HP. }
  destruct days as [[| |negative m e]|]; cbn [remember_act pruneTerminalTasks expired]; try (by rewrite Hkeep).
  destruct (negative && negb (m =? 0)%Z) eqn:E.
  - rewrite Hkeep; [done|]. intros kt. apply andb_true_iff in E as [-> ->%negb_true_iff]. done.
  - cbn [snd]. apply filter_image. intros [k t]. cbn [fst snd]. replace (negb negative || (m =? 0)%Z) with true; [done|].
    by destruct negative, (m =? 0)%Z.
Qed.

Lemma do_act_image a mem : well_kept mem -> (match a with Save t _ => sdk_task t | _ => True end) ->
  do_act (image mem) a = image (remember_act mem a) /\ well_kept (remember_act mem a).
Proof.
  intros Hmem Ha. destruct a as [t cx|reason now|days now].
  - split; [apply upsert_image|]. apply well_kept_remember; [apply fixed_key_of|done|done].
  - split; [cbn [do_act]; by rewrite fail_unfinished_image|]. destruct Hmem as [Hnd Hall]. split.
    + cbn [remember_act]. rewrite <- list_fmap_compose. erewrite list_fmap_ext; [exact Hnd|].
      intros i [k t] _. unfold compose. cbn [fst snd]. by destruct (unfinished _).
    + apply Forall_fmap. eapply Forall_impl; [exact Hall|]. intros [k t] [Hk Ht]. unfold compose. cbn [fst snd] in *.
      destruct (unfinished _); split; [done|by apply failed_is_sdk|done|done].
  - split; [apply prune_image|by apply well_kept_filter].
Qed.

Definition sound_act (a : act) : Prop := match a with Save t _ => sdk_task t | _ => True end.

Lemma done_all_image acts : Forall sound_act acts -> done_all acts = image (remembered acts) /\ well_kept (remembered acts).
Proof.
  intros Hacts. cut (forall mem, well_kept mem -> fold_left do_act acts (image mem) = image (fold_left remember_act acts mem) /\
    well_kept (fold_left remember_act acts mem)).
  { intros H. apply (H []). split; [apply NoDup_nil_2|constructor]. }
  induction Hacts as [|a acts Ha _ IH]; intros mem Hmem; [done|]. cbn [fold_left].
  destruct (do_act_image a mem Hmem Ha) as [-> Hmem']. by apply IH.
Qed.

(** ** Reading *)

Lemma load_image cx id mem : Forall (fun kt => sdk_task (snd kt)) mem ->
  load id cx (image mem) = Val (recall (key_of cx id) mem).
Proof.
  unfold load. intros Hmem. induction Hmem as [|[k t] mem Ht _ IH]; [done|]. cbn [image fmap list_fmap find recall fst snd].
  rewrite row_key_of. destruct (decide (k = key_of cx id)) as [->|Hne].
  - rewrite bool_decide_eq_true_2 by done. by rewrite read_row_of by (by apply codec_carries).
  - rewrite bool_decide_eq_false_2 by done. exact IH.
Qed.

Lemma mapM_image mem : Forall (fun kt => sdk_task (snd kt)) mem -> mapM read_task (image mem) = Some (snd <$> mem).
Proof.
  induction 1 as [|[k t] mem Ht _ IH]; [done|]. cbn [image fmap list_fmap mapM fst snd]. rewrite read_row_of by (by apply codec_carries).
  cbn [mbind option_bind]. fold (image mem). change (mapM read_task ((λ kt : key * Task, row_of date_parse kt.1 kt.2) <$> mem)) with (mapM read_task (image mem)).
  by rewrite IH.
Qed.

(** A property of the tasks kept, through every act. *)
Lemma remember_act_all (P : key -> Task -> Prop) mem a :
  (match a with
   | Save t cx => P (key_of cx (ta_id t)) t
   | FailUnfinished reason now => forall k t, P k t -> P k (failed reason k.2 now t)
   | Prune _ _ => True
   end) ->
  Forall (fun kt => P (fst kt) (snd kt)) mem -> Forall (fun kt => P (fst kt) (snd kt)) (remember_act mem a).
Proof.
  intros Ha Hmem. destruct a as [t cx|reason now|days now]; cbn [remember_act].
  - induction Hmem as [|[k0 t0] mem H0 Hmem IH]; cbn; [by constructor|]. destruct (decide (k0 = _)); by constructor.
  - apply Forall_fmap. eapply Forall_impl; [exact Hmem|]. intros [k t] Ht. unfold compose. cbn [fst snd] in *.
    destruct (unfinished _); [by apply Ha|done].
  - apply Forall_forall. intros x [_ Hx]%list_elem_of_filter. rewrite Forall_forall in Hmem. by apply Hmem.
Qed.

Lemma remembered_all (P : key -> Task -> Prop) acts :
  Forall (fun a => match a with
                   | Save t cx => P (key_of cx (ta_id t)) t
                   | FailUnfinished reason now => forall k t, P k t -> P k (failed reason k.2 now t)
                   | Prune _ _ => True
                   end) acts ->
  Forall (fun kt => P (fst kt) (snd kt)) (remembered acts).
Proof.
  unfold remembered. intros Hacts. cut (forall mem, Forall (fun kt => P (fst kt) (snd kt)) mem ->
    Forall (fun kt => P (fst kt) (snd kt)) (fold_left remember_act acts mem)); [intros H; by apply H|].
  induction Hacts as [|a acts Ha _ IH]; intros mem Hmem; [done|]. by apply IH, remember_act_all.
Qed.

(** ** Pages *)

(** A task whose place in a listing has a token: its id and timestamp are
    strings of 16-bit units, and there is no bar in the timestamp. *)
Definition placed (k : key) (t : Task) : Prop :=
  units k.2 /\ (forall ts, (ta_status t ≫= ss_timestamp) = Some ts -> units ts /\ bar ∉ ts).
Definition placed_act (a : act) : Prop :=
  match a with
  | Save t cx => placed (key_of cx (ta_id t)) t
  | FailUnfinished _ now => units now /\ bar ∉ now
  | Prune _ _ => True
  end.

Lemma placed_all acts : Forall placed_act acts -> Forall (fun kt => placed (fst kt) (snd kt)) (remembered acts).
Proof.
  intros H. apply (remembered_all placed). eapply Forall_impl; [exact H|]. intros [t cx|reason now|days now]; [done| |done].
  intros [Hu Hb] k t [Hk _]. split; [done|]. by intros ts [= <-].
Qed.

Lemma placed_row k t : fixed k -> placed k t ->
  read_token (page_token (row_of date_parse k t)) = Some (row_ts (row_of date_parse k t), ro_id (row_of date_parse k t)).
Proof.
  intros Hfix [Hk Hts]. assert (Hid : text k.2 = k.2) by exact (f_equal snd Hfix).
  unfold page_token, row_ts, row_of. cbn [ro_id ro_status_timestamp].
  assert (Hw : (bar ∉ default [] (text <$> (ta_status t ≫= ss_timestamp))) /\ units (default [] (text <$> (ta_status t ≫= ss_timestamp))) /\
               well_formed (default [] (text <$> (ta_status t ≫= ss_timestamp))) = true).
  { destruct (ta_status t ≫= ss_timestamp) as [ts|]; cbn; [|split_and!; [apply not_elem_of_nil|constructor|done]].
    destruct (Hts ts eq_refl) as [Hu Hb]. split_and!; [|by apply to_well_formed_units|apply to_well_formed_fixes].
    intros [?|E]%to_well_formed_elem; [done|]. by compute in E. }
  destruct Hw as (H1 & H2 & H3). apply read_token_of; [done|..].
  - apply Forall_app. split; [done|]. constructor; [done|exact Hk].
  - apply well_formed_app; [done|]. apply (well_formed_app [bar]); [done|]. rewrite <- Hid. apply to_well_formed_fixes.
Qed.

Section Listing.
Context (params : ListTasksRequest) (cx : ServerCallContext) (mem : memory).
Context (Hkept : well_kept mem) (Hplaced : Forall (fun kt => placed (fst kt) (snd kt)) mem).
Let is_listed (kt : key * Task) : Prop := listed date_parse params cx (row_of date_parse (fst kt) (snd kt)) = true.

Definition with_token (token : jstr) : ListTasksRequest :=
  mkListTasks (lp_contextId params) (lp_status params) (lp_pageSize params) token (lp_statusTimestampAfter params) (lp_includeArtifacts params).
Definition shown (t : Task) : Task := if default false (lp_includeArtifacts params) then t else without_artifacts t.

(** The tasks in the order of the listing. *)
Lemma listing_image : exists l : memory, l ≡ₚ filter is_listed mem /\ in_order (image l) /\
  forall token, newest_first (filter (fun r => listed date_parse (with_token token) cx r = true) (image mem)) = image l.
Proof.
  assert (E : forall token, filter (fun r => listed date_parse (with_token token) cx r = true) (image mem) = image (filter is_listed mem))
    by (intros token; by apply filter_image).
  pose proof (newest_first_perm (image (filter is_listed mem))) as Hp.
  apply Permutation_map_inv in Hp as (l & El & Hl). exists l. split; [by symmetry|].
  assert (El' : newest_first (image (filter is_listed mem)) = image l) by exact El.
  split; [rewrite <- El'; apply newest_first_order|]. intros token. by rewrite E.
Qed.

(** Listed tasks are told apart by their ids. *)
Lemma listed_ids l : l ≡ₚ filter is_listed mem -> NoDup (ro_id <$> image l).
Proof.
  intros Hl. destruct Hkept as [Hnd Hall].
  assert (Hnd' : NoDup (fst <$> l)). { rewrite Hl. apply (well_kept_filter is_listed mem Hkept). }
  assert (Hscope : forall k, k ∈ fst <$> l -> k.1 = (text (tenant_of cx), text (cx_owner cx))).
  { intros k ([k' t] & -> & Hin)%list_elem_of_fmap. rewrite Hl in Hin. apply list_elem_of_filter in Hin as [Hlisted _].
    unfold is_listed, listed in Hlisted. cbn [fst snd row_of ro_tenant ro_owner] in Hlisted.
    rewrite !andb_true_iff, !bool_decide_eq_true in Hlisted. destruct Hlisted as ((((H1 & H2) & _) & _) & _).
    destruct k' as [[tenant owner] id]. cbn in *. by subst. }
  unfold image. rewrite <- list_fmap_compose. clear Hl. induction l as [|[k t] l IH]; [constructor|].
  cbn in Hnd'. apply NoDup_cons in Hnd' as [Hk Hnd']. cbn [fmap list_fmap]. apply NoDup_cons. split.
  - intros ([k' t'] & E & Hin)%list_elem_of_fmap. unfold compose in E. cbn [fst snd row_of ro_id] in E.
    apply (list_elem_of_fmap_2 fst) in Hin. cbn [fst] in Hin. apply Hk. replace k with k'; [done|].
    pose proof (Hscope k ltac:(by left)). pose proof (Hscope k' ltac:(by right)). destruct k as [k1 k2], k' as [k1' k2']. cbn in *. congruence.
  - apply IH; [done|]. intros k' Hk'. apply Hscope. by right.
Qed.

Definition page_size : Z := default DEFAULT_PAGE_SIZE (lp_pageSize params).

(** The listing from some place on. *)
Lemma page_from_image l total i : (0 < page_size)%Z -> Forall (fun kt => sdk_task (snd kt)) l ->
  page_from (with_token []) total (drop i (image l)) =
    Val (mkListed (shown <$> (snd <$> take (Z.to_nat page_size) (drop i l)))
           (match last (take (Z.to_nat page_size) (drop i l)) with
            | Some kt => if Z.to_nat page_size <? length l - i then page_token (row_of date_parse (fst kt) (snd kt)) else []
            | None => []
            end) page_size total).
Proof.
  intros Hsize Hl. unfold page_from. cbn [lp_pageSize lp_includeArtifacts with_token]. fold page_size. unfold slice_to.
  destruct (Z.ltb_spec page_size 0); [lia|].
  assert (E : take (Z.to_nat page_size) (drop i (image l)) = image (take (Z.to_nat page_size) (drop i l))).
  { unfold image. by rewrite fmap_take, fmap_drop. }
  rewrite E, mapM_image by (by apply Forall_take, Forall_drop). f_equal. f_equal.
  - unfold shown. destruct (default false _); [|done]. symmetry. apply list_fmap_id.
  - unfold image at 1. rewrite fmap_last. destruct (last (take _ _)) as [kt|]; [|done]. cbn [fmap option_fmap option_map].
    assert (Elen : length (image (take (Z.to_nat page_size) (drop i l))) = Z.to_nat page_size `min` (length l - i)).
    { unfold image. by rewrite length_fmap, length_take, length_drop. }
    rewrite Elen. unfold image. rewrite length_drop, length_fmap.
    destruct (Nat.ltb_spec (Z.to_nat page_size) (length l - i)), (Nat.ltb_spec (Z.to_nat page_size `min` (length l - i)) (length l - i));
      (done || (exfalso; lia)).
Qed.

(** The token a page that ends before place [i] gives. *)
Definition token_at (l : memory) (i : nat) (token : jstr) : Prop :=
  match i with
  | O => token = []
  | S j => exists kt, l !! j = Some kt /\ token = page_token (row_of date_parse (fst kt) (snd kt))
  end.

Lemma list_at (l : memory) i token : l ≡ₚ filter is_listed mem ->
  newest_first (filter (fun r => listed date_parse (with_token token) cx r = true) (image mem)) = image l ->
  token_at l i token ->
  list_tasks date_parse (with_token token) cx (image mem) = page_from (with_token []) (length l) (drop i (image l)).
Proof.
  intros Hl El Hi. unfold list_tasks. rewrite El. cbn [lp_pageToken with_token].
  replace (length (image l)) with (length l) by (unfold image; by rewrite length_fmap).
  destruct i as [|j]; cbn [token_at] in Hi; [by subst|]. destruct Hi as (kt & Hj & ->).
  assert (Hin : kt ∈ mem).
  { apply list_elem_of_lookup_2 in Hj. rewrite Hl in Hj. by apply list_elem_of_filter in Hj as [_ ?]. }
  destruct Hkept as [_ Hall]. rewrite Forall_forall in Hall, Hplaced. destruct (Hall kt Hin) as [Hfix _].
  assert (Ht := placed_row _ _ Hfix (Hplaced kt Hin)).
  rewrite bool_decide_eq_false_2; [|by intros E; rewrite E in Ht]. rewrite Ht.
  rewrite (find_index_unique ro_id _ (image l) j (row_of date_parse (fst kt) (snd kt))).
  - by rewrite Nat.add_1_r.
  - by apply listed_ids.
  - unfold image. by rewrite list_lookup_fmap, Hj.
  - intros r [_ H]%andb_true_iff. by apply bool_decide_eq_true in H.
  - by rewrite !bool_decide_eq_true_2.
Qed.

(** A client that asks for page after page, with each the token of the last. *)
Fixpoint walk (fuel : nat) (token : jstr) (rows : list TaskRow) : option (list Task) :=
  match fuel with
  | O => None
  | S f =>
      match list_tasks date_parse (with_token token) cx rows with
      | Exn _ => None
      | Val page =>
          if bool_decide (ls_nextPageToken page = []) then Some (ls_tasks page)
          else rest ← walk f (ls_nextPageToken page) rows; Some (ls_tasks page ++ rest)
      end
  end.

Lemma walk_from (l : memory) i token fuel : (0 < page_size)%Z -> l ≡ₚ filter is_listed mem ->
  (forall token, newest_first (filter (fun r => listed date_parse (with_token token) cx r = true) (image mem)) = image l) ->
  token_at l i token -> length l - i < fuel ->
  walk fuel token (image mem) = Some (shown <$> (snd <$> drop i l)).
Proof.
  intros Hsize Hl El. revert i token. induction fuel as [|fuel IH]; intros i token Hi Hfuel; [lia|].
  assert (Hplain : Forall (fun kt => sdk_task (snd kt)) l).
  { rewrite Hl. apply Forall_forall. intros kt [_ Hin]%list_elem_of_filter. destruct Hkept as [_ Hall]. rewrite Forall_forall in Hall. by apply Hall. }
  cbn [walk]. rewrite (list_at l i token), page_from_image by done. cbn [ls_nextPageToken ls_tasks].
  set (p := Z.to_nat page_size). assert (Hp : 0 < p) by lia.
  destruct (Nat.ltb_spec p (length l - i)) as [Hmore|Hend].
  - assert (Hlast : exists kt, l !! (i + p - 1) = Some kt) by (apply lookup_lt_is_Some; lia). destruct Hlast as [kt Hkt].
    assert (E : last (take p (drop i l)) = Some kt).
    { rewrite last_lookup, length_take, length_drop. replace (pred (p `min` (length l - i))) with (p - 1) by lia.
      rewrite lookup_take_lt, lookup_drop by lia. rewrite <- Hkt. f_equal. lia. }
    rewrite E. rewrite bool_decide_eq_false_2.
    + rewrite (IH (i + p)); [|replace (i + p) with (S (i + p - 1)) by lia; by exists kt|lia].
      cbn [mbind option_bind]. f_equal. rewrite <- fmap_app, <- fmap_app. f_equal. f_equal. rewrite <- drop_drop. apply take_drop.
    + intros Htok. assert (Hin : kt ∈ mem).
      { apply list_elem_of_lookup_2 in Hkt. rewrite Hl in Hkt. by apply list_elem_of_filter in Hkt as [_ ?]. }
      destruct Hkept as [_ Hall]. rewrite Forall_forall in Hall, Hplaced. destruct (Hall kt Hin) as [Hfix _].
      pose proof (placed_row _ _ Hfix (Hplaced kt Hin)) as Ht. by rewrite Htok in Ht.
  - rewrite bool_decide_eq_true_2; [|by destruct (last _)]. f_equal. f_equal. f_equal. apply take_ge. rewrite length_drop. lia.
Qed.
End Listing.

(** ** A sweep over any table *)

(** What a sweep leaves of a row. *)
Definition as_failed (now : jstr) (r r' : TaskRow) : Prop :=
  row_key r' = row_key r /\ ro_context_id r' = ro_context_id r /\ ro_state r' = TASK_STATE_FAILED /\ ro_status_timestamp r' = Some (text now).
Definition fixed_row (r : TaskRow) : Prop := fixed (row_key r).

Lemma fail_all_unreadable reason now targets rows :
  fail_all date_parse reason now targets rows = None -> exists r, r ∈ targets /\ read_task r = None.
Proof.
  revert rows. induction targets as [|r targets IH]; intros rows; [done|]. cbn [fail_all]. destruct (read_task r) as [task|] eqn:E; cbn [mbind option_bind].
  - intros H. destruct (IH _ H) as (r' & ? & ?). exists r'. split; [by right|done].
  - intros _. exists r. split; [by left|done].
Qed.

Lemma fail_all_rows reason now targets rows rows' : Forall fixed_row targets ->
  fail_all date_parse reason now targets rows = Some rows' ->
  Forall2 (fun r r' => if decide (row_key r ∈ row_key <$> targets) then as_failed now r r' else r' = r) rows rows'.
Proof.
  intros Htargets. revert rows. induction Htargets as [|r targets Hr _ IH]; intros rows; cbn [fail_all].
  - intros [= <-]. apply Forall_Forall2_diag, Forall_forall. intros x _. by rewrite decide_False by apply not_elem_of_nil.
  - destruct (read_task r) as [task|]; [|done]. cbn [mbind option_bind]. intros H%IH. unfold update_row in H.
    replace (text (ro_tenant r), text (ro_owner r), text (ro_id r)) with (row_key r) in H by (symmetry; exact Hr).
    apply Forall2_fmap_l in H. eapply Forall2_impl; [exact H|]. intros x x' Hx. unfold compose in Hx. cbn [fmap list_fmap].
    destruct (decide (row_key x = row_key r)) as [E|E].
    + rewrite (decide_True (P := row_key x ∈ _)) by (rewrite E; by left).
      change (row_key (fail_row _ _ _ x)) with (row_key x) in Hx. destruct (decide (row_key x ∈ row_key <$> targets)); [exact Hx|by subst].
    + destruct (decide (row_key x ∈ row_key <$> targets)) as [H1|H1].
      * by rewrite decide_True by (by right).
      * rewrite decide_False; [done|]. by rewrite elem_of_cons; intros [|].
Qed.
End Runs.

(** C20: The store keeps what was saved in it. After any sequence of saves,
    sweeps and prunes, of tasks of the SDK's types, which its codec reads back
    and failing keeps among them, its rows read back as a memory that simply associates
    each tenant, owner and id with the last task saved there, in the order
    they were first saved: loading gives that task, whole; the tasks in some
    states are those of the memory; and a sweep counts the unfinished ones. *)
Theorem store_keeps_tasks `{codec : TaskCodec} date_parse (sdk_task : Task -> Prop) acts cx id states reason now :
  (forall t, sdk_task t -> carried t) -> (forall reason id now t, sdk_task t -> sdk_task (failed reason id now t)) ->
  Forall (sound_act sdk_task) acts ->
  load id cx (done_all date_parse acts) = Val (recall (key_of cx id) (remembered date_parse acts)) /\
  allInStates states (done_all date_parse acts) =
    Val (snd <$> filter (fun kt => state_of (snd kt) ∈ states) (remembered date_parse acts)) /\
  fst (failUnfinished date_parse reason now (done_all date_parse acts)) =
    Val (length (filter (fun kt => unfinished (state_of (snd kt)) = true) (remembered date_parse acts))).
Proof.
  intros Hcodec Hfailed Hacts. destruct (done_all_image date_parse sdk_task Hcodec Hfailed acts Hacts) as [-> Hkept].
  assert (Hplain : Forall (fun kt => sdk_task (snd kt)) (remembered date_parse acts)).
  { destruct Hkept as [_ Hall]. eapply Forall_impl; [exact Hall|]. by intros kt [_ ?]. }
  split_and!; [by eapply load_image| |by erewrite fail_unfinished_image].
  unfold allInStates. destruct (bool_decide_reflect (states = [])) as [->|_].
  - f_equal. clear. induction (remembered date_parse acts) as [|kt mem IH]; [done|].
    rewrite filter_cons, decide_False by apply not_elem_of_nil. exact IH.
  - unfold read_tasks. rewrite (filter_image date_parse _ (fun kt => state_of (snd kt) ∈ states)) by done.
    erewrite mapM_image; [done|exact Hcodec|]. apply Forall_forall. intros kt [_ Hin]%list_elem_of_filter. rewrite Forall_forall in Hplain. by apply Hplain.
Qed.

(** C21: Following page tokens gives every listed task once. However the
    store came to hold its tasks, of types as above, and whatever is filtered for, a client that
    asks for pages of a positive size and passes on each page's token gets,
    after at most one page more than there are tasks, exactly the tasks that
    are listed, each once, none newer than the one before it. *)
Theorem pages_leave_nothing_out `{codec : TaskCodec} date_parse (sdk_task : Task -> Prop) acts params cx :
  (forall t, sdk_task t -> carried t) -> (forall reason id now t, sdk_task t -> sdk_task (failed reason id now t)) ->
  Forall (sound_act sdk_task) acts -> Forall placed_act acts -> (0 < page_size params)%Z ->
  exists l : memory,
    l ≡ₚ filter (fun kt => listed date_parse params cx (row_of date_parse (fst kt) (snd kt)) = true) (remembered date_parse acts) /\
    in_order (image date_parse l) /\
    walk date_parse params cx (S (length l)) [] (done_all date_parse acts) = Some (shown params <$> (snd <$> l)).
Proof.
  intros Hcodec Hfailed Hacts Hplaced Hsize. destruct (done_all_image date_parse sdk_task Hcodec Hfailed acts Hacts) as [-> Hkept].
  destruct (listing_image date_parse params cx (remembered date_parse acts)) as (l & Hl & Ho & El). exists l. split_and!; [done..|].
  rewrite (walk_from date_parse sdk_task Hcodec params cx _ Hkept (placed_all date_parse acts Hplaced) l 0 []); [done|done|done|exact El|done|lia].
Qed.

(** C22: The sweep at startup changes all it should or nothing. On any table
    with unique keys, readable or not: either some unfinished task cannot be
    read, and the table is as it was; or every unfinished task is failed as of
    now, under its own key, and every other row is left as it is. *)
Theorem sweep_is_all_or_nothing `{codec : TaskCodec} date_parse reason now rows :
  NoDup (row_key <$> rows) -> Forall fixed_row rows ->
  (exists e r, failUnfinished date_parse reason now rows = (Exn e, rows) /\
     r ∈ rows /\ unfinished (ro_state r) = true /\ read_task r = None) \/
  (exists rows', failUnfinished date_parse reason now rows = (Val (length (filter (fun r => unfinished (ro_state r) = true) rows)), rows') /\
     Forall2 (fun r r' => if unfinished (ro_state r) then as_failed now r r' else r' = r) rows rows').
Proof.
  intros Hnd Hfixed. unfold failUnfinished. set (targets := filter _ rows). destruct (fail_all _ _ _ targets rows) as [rows'|] eqn:E.
  - right. exists rows'. split; [done|]. assert (Ht : Forall fixed_row targets).
    { apply Forall_forall. intros r [_ Hr]%list_elem_of_filter. rewrite Forall_forall in Hfixed. by apply Hfixed. }
    pose proof (fail_all_rows date_parse reason now targets rows rows' Ht E) as H.
    apply Forall2_same_length_lookup. apply Forall2_same_length_lookup in H as [Hlen H]. split; [done|].
    intros i r r' Hr Hr'. specialize (H i r r' Hr Hr'). apply list_elem_of_lookup_2 in Hr as Hin.
    destruct (unfinished (ro_state r)) eqn:Eu.
    + rewrite decide_True in H; [done|]. apply list_elem_of_fmap_2. by apply list_elem_of_filter.
    + rewrite decide_False in H; [done|]. intros (r1 & Ek & [E1 H1]%list_elem_of_filter)%list_elem_of_fmap.
      assert (r = r1) as ->; [|congruence]. clear -Hnd Hin H1 Ek. induction rows as [|x rows IH]; [by apply elem_of_nil in Hin|].
      cbn in Hnd. apply NoDup_cons in Hnd as [Hx Hnd]. apply elem_of_cons in Hin as [->|Hin], H1 as [->|H1]; [done|..|by apply IH].
      * exfalso. apply Hx. rewrite Ek. by apply list_elem_of_fmap_2.
      * exfalso. apply Hx. rewrite <- Ek. by apply list_elem_of_fmap_2.
  - left. destruct (fail_all_unreadable _ _ _ _ _ E) as (r & [H1 H2]%list_elem_of_filter & H3). by exists (js "SyntaxError"), r.
Qed.

(** ** A codec, and a store *)

Definition state_number (s : TaskState) : Z :=
  match s with
  | TASK_STATE_UNSPECIFIED => 0 | TASK_STATE_SUBMITTED => 1 | TASK_STATE_WORKING => 2 | TASK_STATE_COMPLETED => 3
  | TASK_STATE_FAILED => 4 | TASK_STATE_CANCELED => 5 | TASK_STATE_INPUT_REQUIRED => 6 | TASK_STATE_REJECTED => 7
  | TASK_STATE_AUTH_REQUIRED => 8
  end.
Definition state_numbered (v : jsval) : TaskState :=
  match v with
  | VNum 1 => TASK_STATE_SUBMITTED | VNum 2 => TASK_STATE_WORKING | VNum 3 => TASK_STATE_COMPLETED
  | VNum 4 => TASK_STATE_FAILED | VNum 5 => TASK_STATE_CANCELED | VNum 6 => TASK_STATE_INPUT_REQUIRED
  | VNum 7 => TASK_STATE_REJECTED | VNum 8 => TASK_STATE_AUTH_REQUIRED | _ => TASK_STATE_UNSPECIFIED
  end.

Definition status_json (s : Status) : jsval :=
  VObj ([(js "state", VNum (state_number (ss_state s)))] ++ (if defined (ss_message s) then [(js "message", ss_message s)] else [])
        ++ match ss_timestamp s with Some ts => [(js "timestamp", VStr ts)] | None => [] end).
Definition status_of_json (v : jsval) : option Status :=
  if defined v then Some (mkTaskStatus (state_numbered (prop v (js "state"))) (prop v (js "message")) (as_str (prop v (js "timestamp"))))
  else None.
Definition array (v : jsval) : list jsval := match v with VArr l => l | _ => [] end.

#[local] Instance plain_codec : TaskCodec := {
  toJSON t := VObj ([(js "id", VStr (ta_id t)); (js "contextId", VStr (ta_contextId t))]
    ++ match ta_status t with Some s => [(js "status", status_json s)] | None => [] end
    ++ [(js "artifacts", VArr (ta_artifacts t)); (js "history", VArr (ta_history t)); (js "metadata", ta_metadata t)]);
  fromJSON v := Some (mkStoredTask (default [] (as_str (prop v (js "id")))) (default [] (as_str (prop v (js "contextId")))) (status_of_json (prop v (js "status")))
    (array (prop v (js "artifacts"))) (array (prop v (js "history"))) (prop v (js "metadata")));
  role_agent := 2 }.

Lemma status_json_ok s : ss_message s = VUndef \/ json_ok (ss_message s) -> json_ok (status_json s).
Proof.
  destruct s as [st m ts]. cbn [ss_message]. intros Hm. unfold status_json. cbn [ss_state ss_message ss_timestamp].
  destruct (defined m) eqn:E, ts as [ts|]; cbn [app]; json_literal; destruct Hm as [->|Hm]; (discriminate E || exact Hm).
Qed.

Lemma status_json_back s : status_of_json (status_json s) = Some s.
Proof. destruct s as [[] m [ts|]], m; reflexivity. Qed.

(** What the demonstration's codec carries. *)
Definition plain (t : Task) : Prop :=
  (forall s, ta_status t = Some s -> ss_message s = VUndef \/ json_ok (ss_message s)) /\
  Forall json_ok (ta_artifacts t) /\ Forall json_ok (ta_history t) /\ json_ok (ta_metadata t).

Lemma failure_message_ok reason id contextId : json_ok (failure_message reason id contextId).
Proof. unfold failure_message. json_literal. Qed.

Lemma plain_failed reason id now t : plain t -> plain (failed reason id now t).
Proof. intros (_ & Ha & Hh & Hm). split_and!; [|done..]. intros s [= <-]. right. apply failure_message_ok. Qed.

Lemma plain_codec_carries t : plain t -> carried t.
Proof.
  destruct t as [id c [s|] a h m]; intros (Hs & Ha & Hh & Hm); cbn [ta_status ta_artifacts ta_history ta_metadata] in *; split;
    cbn [toJSON fromJSON plain_codec ta_id ta_contextId ta_status ta_artifacts ta_history ta_metadata app].
  - rewrite json_ok_obj. split; [apply (bool_decide_eq_true_1 _); evaluated|].
    repeat (apply Forall_cons_2; cbn [snd]); try apply Forall_nil_2; try done; [by apply status_json_ok, Hs|by apply json_ok_arr|by apply json_ok_arr].
  - change (prop _ (js "status")) with (status_json s). rewrite status_json_back. reflexivity.
  - rewrite json_ok_obj. split; [apply (bool_decide_eq_true_1 _); evaluated|].
    repeat (apply Forall_cons_2; cbn [snd]); try apply Forall_nil_2; try done; by apply json_ok_arr.
  - reflexivity.
Qed.

(** Two tasks of one thread, of which one is done when the daemon starts. *)
Definition demo_task (id : jstr) (s : TaskState) (ts : jstr) : Task :=
  mkStoredTask id (js "c1") (Some (mkTaskStatus s VUndef (Some ts))) [VStr (js "report")] [] (VObj []).
Definition demo_cx : ServerCallContext := mkCallContext None (js "anyone").
Definition no_clock (s : jstr) : option Z := None.
Definition demo_acts : list act :=
  [Save (demo_task (js "t1") TASK_STATE_WORKING (js "2026-01-01T00:00:00Z")) demo_cx;
   Save (demo_task (js "t2") TASK_STATE_SUBMITTED (js "2026-01-02T00:00:00Z")) demo_cx;
   Save (demo_task (js "t1") TASK_STATE_COMPLETED (js "2026-01-03T00:00:00Z")) demo_cx;
   FailUnfinished (js "restarted") (js "2026-01-04T00:00:00Z")].

Lemma demo_task_plain id s ts : plain (demo_task id s ts).
Proof.
  unfold plain, demo_task. cbn [ta_status ta_artifacts ta_history ta_metadata].
  split_and!; try json_literal. intros s' [= <-]. by left.
Qed.
Lemma demo_sound : Forall (sound_act plain) demo_acts.
Proof. repeat apply Forall_cons_2; [apply demo_task_plain..|exact I|apply Forall_nil_2]. Qed.
Lemma demo_placed : Forall placed_act demo_acts.
Proof.
  assert (H : forall s : jstr, forallb (fun c => (c <? 65536) && negb (c =? bar))%N s = true -> units s /\ bar ∉ s).
  { intros s Hs. rewrite forallb_forall in Hs. split.
    - apply Forall_forall. intros c Hc%list_elem_of_In. apply Hs, andb_true_iff in Hc as [Hc _]. by apply N.ltb_lt.
    - intros Hc%list_elem_of_In. apply Hs in Hc. by rewrite N.eqb_refl, andb_false_r in Hc. }
  assert (Hsave : forall t cx, forallb (fun c => (c <? 65536) && negb (c =? bar))%N (snd (key_of cx (ta_id t))) = true ->
    forallb (fun c => (c <? 65536) && negb (c =? bar))%N (default [] (ta_status t ≫= ss_timestamp)) = true -> placed_act (Save t cx)).
  { intros t cx H1 H2. split; [by apply H|]. intros ts E. rewrite E in H2. by apply H. }
  repeat apply Forall_cons_2; [apply Hsave; evaluated..|apply H; evaluated|constructor].
Qed.

Definition demo_listing : ListTasksRequest := mkListTasks (js "c1") None (Some 1%Z) [] [] None.

Lemma store_keeps_tasks_witness :
  load (js "t1") demo_cx (done_all no_clock demo_acts) =
  Val (Some (demo_task (js "t1") TASK_STATE_COMPLETED (js "2026-01-03T00:00:00Z"))).
Proof.
  destruct (store_keeps_tasks no_clock plain demo_acts demo_cx (js "t1") [] [] [] plain_codec_carries plain_failed demo_sound) as [H _].
  rewrite H. vm_compute. reflexivity.
Defined.

Lemma pages_leave_nothing_out_witness :
  exists l : memory, length l = 2 /\
    walk no_clock demo_listing demo_cx 3 [] (done_all no_clock demo_acts) = Some (shown demo_listing <$> (snd <$> l)).
Proof.
  destruct (pages_leave_nothing_out no_clock plain demo_acts demo_listing demo_cx plain_codec_carries plain_failed demo_sound demo_placed) as (l & Hl & _ & Hw).
  - vm_compute. reflexivity.
  - assert (E : length l = 2) by (rewrite Hl; vm_compute; reflexivity). exists l. split; [exact E|]. rewrite E in Hw. exact Hw.
Defined.

Lemma sweep_is_all_or_nothing_witness :
  fst (failUnfinished no_clock (js "restarted") [] (done_all no_clock (take 2 demo_acts))) = Val 2 /\
  exists rows', snd (failUnfinished no_clock (js "restarted") [] (done_all no_clock (take 2 demo_acts))) = rows' /\
    Forall2 (fun r r' => if unfinished (ro_state r) then as_failed [] r r' else r' = r) (done_all no_clock (take 2 demo_acts)) rows'.
Proof.
  split; [vm_compute; reflexivity|].
  destruct (sweep_is_all_or_nothing no_clock (js "restarted") [] (done_all no_clock (take 2 demo_acts))) as [(e & r & E & _)|(rows' & E & H)].
  - apply (bool_decide_eq_true_1 _). vm_compute. reflexivity.
  - repeat constructor.
  - exfalso. assert (fst (failUnfinished no_clock (js "restarted") [] (done_all no_clock (take 2 demo_acts))) = Val 2) as E2 by (vm_compute; reflexivity).
    rewrite E in E2. discriminate E2.
  - exists rows'. split; [by rewrite E|exact H].
Defined.
