(* ===== verification/Journal.v ===== *)
(** [apps/agentd/src/store/journal.ts]: one row for each turn that ended, in
    the order of their ids. Costs are exact, where SQLite adds doubles. *)

From Stdlib Require Import Qcanon.
From S2P Require Import Prelude A2A Translator Json SessionId Values Numbers Bytes TaskStore.
#[local] Open Scope Z_scope.

Record JournalEntry := mkEntry {
  je_ts : jstr;
  je_agent : jstr;
  je_record : TurnAccounting }.

Record CostSummary := mkCost {
  cs_agent : jstr;
  cs_turns : nat;
  cs_costUsd : Qc;
  cs_inputTokens : Z;
  cs_outputTokens : Z }.

(** A row of [turns]. *)
Record TurnRow := mkTurnRow {
  tu_id : Z;
  tu_ts : jstr;
  tu_agent : jstr;
  tu_context_id : jstr;
  tu_task_id : jstr;
  tu_fired_by : jstr;
  tu_state : jstr;
  tu_duration_ms : Z;
  tu_duration_api_ms : Z;
  tu_cost_usd : Qc;
  tu_input_tokens : Z;
  tu_output_tokens : Z;
  tu_cache_read_tokens : Z;
  tu_cache_creation_tokens : Z;
  tu_tools : jstr;
  tu_permission_denials : jstr;
  tu_error : option jstr;
  tu_queued_turn_count : nat }.

(** [jn_next] is what AUTOINCREMENT hands out. *)
Record journal := mkJournal {
  jn_rows : list TurnRow;
  jn_next : Z }.
Definition new_journal : journal := mkJournal [] 1.

Definition strings_json (l : list jstr) : jstr := text (stringify (VArr (VStr <$> l))).

Definition record (entry : JournalEntry) (j : journal) : journal :=
  let r := je_record entry in
  mkJournal (jn_rows j ++ [mkTurnRow (jn_next j) (text (je_ts entry)) (text (je_agent entry)) (text (ac_contextId r))
    (text (ac_taskId r)) (text (ac_trigger r)) (text (ac_state r)) (ac_durationMs r) (ac_durationApiMs r) (ac_costUsd r)
    (ac_inputTokens r) (ac_outputTokens r) (ac_cacheReadTokens r) (ac_cacheCreationTokens r)
    (strings_json (ac_toolsUsed r)) (strings_json (ac_permissionDenials r)) (text <$> ac_error r) (ac_queuedTurnCount r)])
    (jn_next j + 1).

(** [JSON.parse(…) as string[]], which is what was written. *)
Definition strings_of (s : jstr) : option (list jstr) :=
  v ← parse s;
  match v with VArr l => mapM as_str l | _ => None end.

Definition toEntry (r : TurnRow) : option JournalEntry :=
  tools ← strings_of (tu_tools r);
  denials ← strings_of (tu_permission_denials r);
  Some (mkEntry (tu_ts r) (tu_agent r)
    (mkAccounting (tu_task_id r) (tu_context_id r) (tu_fired_by r) (tu_state r) (tu_duration_ms r) (tu_duration_api_ms r) (tu_cost_usd r)
       (tu_input_tokens r) (tu_output_tokens r) (tu_cache_read_tokens r) (tu_cache_creation_tokens r) tools denials
       (tu_error r) (tu_queued_turn_count r))).

Record recent_options := mkRecent {
  rc_limit : option Z;
  rc_trigger : option jstr;
  rc_failuresOnly : bool;
  rc_sinceIso : option jstr }.

(** [ts >= ?]. *)
Definition not_before (since : jstr) (r : TurnRow) : bool := negb (bytes_lt (utf8 (tu_ts r)) (utf8 (text since))).

Definition selected (o : recent_options) (r : TurnRow) : bool :=
  match rc_trigger o with Some t => bool_decide (tu_fired_by r = text t) | None => true end
  && (negb (rc_failuresOnly o) || bool_decide (tu_state r = js "failed"))
  && match rc_sinceIso o with Some since => not_before since r | None => true end.

(** [ORDER BY id DESC LIMIT ?]; a negative limit is none. *)
Definition limited {A : Type} (n : Z) (l : list A) : list A := if n <? 0 then l else take (Z.to_nat n) l.

Definition recent (o : recent_options) (j : journal) : option (list JournalEntry) :=
  mapM toEntry (limited (default 20 (rc_limit o)) (reverse (filter (fun r => selected o r = true) (jn_rows j)))).

(** [GROUP BY agent]: a row is added to its agent's summary. *)
Fixpoint add_cost (r : TurnRow) (l : list CostSummary) : list CostSummary :=
  match l with
  | [] => [mkCost (tu_agent r) 1 (tu_cost_usd r) (tu_input_tokens r) (tu_output_tokens r)]
  | c :: t =>
      if decide (cs_agent c = tu_agent r)
      then mkCost (cs_agent c) (S (cs_turns c)) (cs_costUsd c + tu_cost_usd r)%Qc (cs_inputTokens c + tu_input_tokens r)
             (cs_outputTokens c + tu_output_tokens r) :: t
      else c :: add_cost r t
  end.

(** [ORDER BY cost DESC]; among equals the order is SQLite's own. *)
Fixpoint insert_cost (c : CostSummary) (l : list CostSummary) : list CostSummary :=
  match l with
  | [] => [c]
  | d :: t => if Qclt_le_dec (cs_costUsd c) (cs_costUsd d) then d :: insert_cost c t else c :: l
  end.

Definition cost (sinceIso : option jstr) (j : journal) : list CostSummary :=
  let rows := filter (fun r => match sinceIso with Some since => not_before since r | None => true end = true) (jn_rows j) in
  foldr insert_cost [] (fold_left (fun l r => add_cost r l) rows []).

(** [toISOString], and [DELETE … WHERE ts < ?]. *)
Definition pruneTurns (iso : Z -> jstr) (maxAgeMs now : Z) (j : journal) : nat * journal :=
  let kept := filter (fun r => not_before (iso (now - maxAgeMs)) r = true) (jn_rows j) in
  ((length (jn_rows j) - length kept)%nat, mkJournal kept (jn_next j)).

(** ** The journal tells what was recorded *)

(** An entry as SQLite's text has it. *)
Definition as_kept (e : JournalEntry) : JournalEntry :=
  let r := je_record e in
  mkEntry (text (je_ts e)) (text (je_agent e))
    (mkAccounting (text (ac_taskId r)) (text (ac_contextId r)) (text (ac_trigger r)) (text (ac_state r)) (ac_durationMs r)
       (ac_durationApiMs r) (ac_costUsd r) (ac_inputTokens r) (ac_outputTokens r) (ac_cacheReadTokens r) (ac_cacheCreationTokens r)
       (ac_toolsUsed r) (ac_permissionDenials r) (text <$> ac_error r) (ac_queuedTurnCount r)).

Lemma strings_back l : strings_of (strings_json l) = Some l.
Proof.
  unfold strings_of, strings_json, text. rewrite well_formed_fixed by apply well_formed_stringify.
  rewrite parse_stringify by (apply json_ok_arr, Forall_fmap, Forall_true; done). cbn [mbind option_bind].
  induction l as [|s l IH]; [done|]. cbn [fmap list_fmap mapM as_str mbind option_bind]. cbn [fmap list_fmap] in IH. by rewrite IH.
Qed.

(** The newest turns come back first, as they were recorded. *)
Theorem journal_reads_back entries limit :
  recent (mkRecent (Some limit) None false None) (fold_left (fun j e => record e j) entries new_journal) =
  Some (limited limit (reverse (as_kept <$> entries))).
Proof.
  assert (H : forall j known, mapM toEntry (jn_rows j) = Some known ->
            mapM toEntry (jn_rows (fold_left (fun j e => record e j) entries j)) = Some (known ++ (as_kept <$> entries))).
  { induction entries as [|e entries IH]; intros j known Hj; [by rewrite app_nil_r|]. cbn [fold_left fmap list_fmap].
    rewrite (IH (record e j) (known ++ [as_kept e])); [by rewrite <- app_assoc|]. cbn [record jn_rows].
    apply mapM_Some in Hj. apply mapM_Some, Forall2_app; [done|]. constructor; [|constructor].
    unfold toEntry. cbn [tu_tools tu_permission_denials]. by rewrite !strings_back. }
  specialize (H new_journal [] eq_refl). cbn [app] in H. unfold recent. cbn [rc_limit default from_option].
  rewrite list_filter_all by (by apply Forall_true). apply mapM_Some in H. apply mapM_Some. unfold limited, id.
  destruct (limit <? 0); [by apply Forall2_reverse|]. by apply Forall2_take, Forall2_reverse.
Qed.

(** Grouping loses no cost. *)
Definition total (l : list CostSummary) : Qc := foldr (fun c a => cs_costUsd c + a)%Qc 0%Qc l.

Lemma total_add_cost r l : total (add_cost r l) = (tu_cost_usd r + total l)%Qc.
Proof.
  induction l as [|c l IH]; [done|]. cbn [add_cost]. destruct (decide _); cbn [total foldr cs_costUsd].
  - fold (total l). ring.
  - fold (total (add_cost r l)) (total l). rewrite IH. ring.
Qed.

Lemma total_insert_cost c l : total (insert_cost c l) = (cs_costUsd c + total l)%Qc.
Proof.
  induction l as [|d l IH]; [done|]. cbn [insert_cost]. destruct (Qclt_le_dec _ _); [|done].
  cbn [total foldr]. fold (total (insert_cost c l)) (total l). rewrite IH. ring.
Qed.

Theorem cost_totals j : total (cost None j) = foldr (fun r a => tu_cost_usd r + a)%Qc 0%Qc (jn_rows j).
Proof.
  unfold cost. rewrite list_filter_all by (by apply Forall_true).
  assert (Hsort : forall l, total (foldr insert_cost [] l) = total l).
  { induction l as [|c l IH]; [done|]. cbn [foldr]. by rewrite total_insert_cost, IH. }
  assert (Hgroup : forall rows l, total (fold_left (fun l r => add_cost r l) rows l) = (foldr (fun r a => tu_cost_usd r + a)%Qc 0%Qc rows + total l)%Qc).
  { induction rows as [|r rows IH]; intros l; cbn [fold_left foldr]; [ring|]. rewrite IH, total_add_cost. ring. }
  rewrite Hsort, Hgroup. cbn. ring.
Qed.
