(* ===== verification/DiscordState.v ===== *)
(** [apps/discord/src/state.ts]: what a Discord bridge remembers across
    restarts, as the rows of its tables. Every write takes the time
    [Date.now()] would give. *)

From S2P Require Import Prelude Json Activity Gateway.
#[local] Open Scope Z_scope.

Record CardStep := mkStep {
  cs_id : jstr;
  cs_title : jstr;
  cs_status : AgentActivityStatus }.
#[export] Instance CardStep_eq_dec : EqDecision CardStep.
Proof. solve_decision. Defined.

Record CardRecord := mkCardRecord {
  cr_messageId : jstr;
  cr_status : jstr;
  cr_steps : list CardStep;
  cr_text : jstr }.

Record InFlightTask := mkInFlight {
  if_taskId : jstr;
  if_agent : jstr;
  if_channel : jstr;
  if_triggerId : option jstr;
  if_authorId : option jstr;
  if_card : option CardRecord }.

Record RecordedFile := mkRecordedFile {
  rf_fileId : jstr;
  rf_agent : jstr;
  rf_channel : jstr;
  rf_messageId : jstr;
  rf_name : jstr;
  rf_contentType : jstr;
  rf_size : Z;
  rf_url : jstr;
  rf_localPath : option jstr }.

Record QueuedRequest := mkQueued {
  qr_id : Z;
  qr_agent : jstr;
  qr_channel : jstr;
  qr_text : jstr;
  qr_messageId : jstr;
  qr_fileIds : list jstr;
  qr_authorId : option jstr }.

(** [picks] in the order of the object's keys. *)
Record PendingQuestion := mkPendingQuestion {
  pq_agent : jstr;
  pq_channel : jstr;
  pq_messageId : jstr;
  pq_questions : jsval;
  pq_picks : list (jstr * list jstr) }.

Record ContextRow := mkContextRow {
  cx_contextId : jstr;
  cx_answerer : bool;
  cx_parent : option jstr }.

(** ** JSON columns *)

Definition parseIds (raw : jstr) : list jstr :=
  match parse raw with
  | Some (VArr l) => omap as_str l
  | _ => []
  end.

(** [parseJson], before its fallback. *)
Definition parseJson (raw : option jstr) : option jsval := raw ≫= parse.

Definition step_value (s : CardStep) : jsval :=
  VObj [(js "id", VStr (cs_id s)); (js "title", VStr (cs_title s)); (js "status", VStr (status_name (cs_status s)))].
Definition card_value (c : CardRecord) : jsval :=
  VObj [(js "messageId", VStr (cr_messageId c)); (js "status", VStr (cr_status c));
        (js "steps", VArr (step_value <$> cr_steps c)); (js "text", VStr (cr_text c))].

(** A parsed column is taken for a card as it is; the model knows it when it
    has a card's fields. *)
Definition status_of (v : jsval) : option AgentActivityStatus :=
  match v with
  | VStr s => if jeqb s (js "running") then Some Running else if jeqb s (js "done") then Some Done
              else if jeqb s (js "failed") then Some Failed else None
  | _ => None
  end.
Definition step_of (v : jsval) : option CardStep :=
  id ← as_str (prop v (js "id")); title ← as_str (prop v (js "title")); status ← status_of (prop v (js "status"));
  Some (mkStep id title status).
Definition card_of (v : jsval) : option CardRecord :=
  messageId ← as_str (prop v (js "messageId")); status ← as_str (prop v (js "status"));
  steps ← match prop v (js "steps") with VArr l => mapM step_of l | _ => None end;
  text ← as_str (prop v (js "text"));
  Some (mkCardRecord messageId status steps text).

Definition picks_value (picks : list (jstr * list jstr)) : jsval :=
  VObj ((fun kv => (fst kv, VArr (VStr <$> snd kv))) <$> picks).
Definition picks_of (v : jsval) : list (jstr * list jstr) :=
  match v with
  | VObj fs => (fun kv => (fst kv, match snd kv with VArr l => omap as_str l | _ => [] end)) <$> fs
  | _ => []
  end.

(** ** Rows *)

Record TaskRow := mkTaskRow {
  tr_task_id : jstr;
  tr_agent : jstr;
  tr_channel : jstr;
  tr_trigger_id : option jstr;
  tr_author : option jstr;
  tr_card : option jstr;
  tr_created_ms : Z }.

Record QuestionRow := mkQuestionRow {
  qn_agent : jstr;
  qn_channel : jstr;
  qn_message_id : jstr;
  qn_questions : jstr;
  qn_picks : jstr;
  qn_created_ms : Z }.

Record QueuedRow := mkQueuedRow {
  qd_id : Z;
  qd_agent : jstr;
  qd_channel : jstr;
  qd_text : jstr;
  qd_message_id : jstr;
  qd_file_ids : jstr;
  qd_author : option jstr;
  qd_created_ms : Z }.

(** Rows in the order of their rowids; a replaced row moves to the end.
    [bs_next_id] is what AUTOINCREMENT hands out. *)
Record BridgeState := mkBridgeState {
  bs_tasks : list TaskRow;
  bs_contexts : gmap (jstr * jstr) (jstr * Z * option jstr);
  bs_files : list (RecordedFile * Z);
  bs_questions : list QuestionRow;
  bs_queued : list QueuedRow;
  bs_next_id : Z;
  bs_sessions : gmap jstr GatewaySession;
  bs_handled : gmap (jstr * jstr) Z }.

Definition new_state : BridgeState := mkBridgeState [] ∅ [] [] [] 1 ∅ ∅.

Definition with_tasks (v : list TaskRow) (s : BridgeState) : BridgeState :=
  mkBridgeState v (bs_contexts s) (bs_files s) (bs_questions s) (bs_queued s) (bs_next_id s) (bs_sessions s) (bs_handled s).
Definition with_contexts (v : gmap (jstr * jstr) (jstr * Z * option jstr)) (s : BridgeState) : BridgeState :=
  mkBridgeState (bs_tasks s) v (bs_files s) (bs_questions s) (bs_queued s) (bs_next_id s) (bs_sessions s) (bs_handled s).
Definition with_files (v : list (RecordedFile * Z)) (s : BridgeState) : BridgeState :=
  mkBridgeState (bs_tasks s) (bs_contexts s) v (bs_questions s) (bs_queued s) (bs_next_id s) (bs_sessions s) (bs_handled s).
Definition with_questions (v : list QuestionRow) (s : BridgeState) : BridgeState :=
  mkBridgeState (bs_tasks s) (bs_contexts s) (bs_files s) v (bs_queued s) (bs_next_id s) (bs_sessions s) (bs_handled s).
Definition with_queued (v : list QueuedRow) (next : Z) (s : BridgeState) : BridgeState :=
  mkBridgeState (bs_tasks s) (bs_contexts s) (bs_files s) (bs_questions s) v next (bs_sessions s) (bs_handled s).
Definition with_sessions (v : gmap jstr GatewaySession) (s : BridgeState) : BridgeState :=
  mkBridgeState (bs_tasks s) (bs_contexts s) (bs_files s) (bs_questions s) (bs_queued s) (bs_next_id s) v (bs_handled s).
Definition with_handled (v : gmap (jstr * jstr) Z) (s : BridgeState) : BridgeState :=
  mkBridgeState (bs_tasks s) (bs_contexts s) (bs_files s) (bs_questions s) (bs_queued s) (bs_next_id s) (bs_sessions s) v.

(** ** Tasks *)

Definition card_column (card : option CardRecord) : option jstr := (fun c => stringify (card_value c)) <$> card.

Definition recordTask (task : InFlightTask) (now : Z) (s : BridgeState) : BridgeState :=
  with_tasks
    (filter (fun r => tr_task_id r <> if_taskId task) (bs_tasks s)
     ++ [mkTaskRow (if_taskId task) (if_agent task) (if_channel task) (if_triggerId task) (if_authorId task)
           (card_column (if_card task)) now]) s.

Definition set_card (card : option CardRecord) (r : TaskRow) : TaskRow :=
  mkTaskRow (tr_task_id r) (tr_agent r) (tr_channel r) (tr_trigger_id r) (tr_author r) (card_column card) (tr_created_ms r).
Definition setCard (taskId : jstr) (card : option CardRecord) (s : BridgeState) : BridgeState :=
  with_tasks ((fun r => if decide (tr_task_id r = taskId) then set_card card r else r) <$> bs_tasks s) s.

Definition taskOf (r : TaskRow) : InFlightTask :=
  mkInFlight (tr_task_id r) (tr_agent r) (tr_channel r) (tr_trigger_id r) (tr_author r) (parseJson (tr_card r) ≫= card_of).

Definition taskById (taskId : jstr) (s : BridgeState) : option InFlightTask :=
  taskOf <$> find (fun r => jeqb (tr_task_id r) taskId) (bs_tasks s).

(** [ORDER BY created_ms]: among equals, the order of the rows. *)
Fixpoint insert_row (r : TaskRow) (l : list TaskRow) : list TaskRow :=
  match l with
  | [] => [r]
  | x :: t => if tr_created_ms r <=? tr_created_ms x then r :: l else x :: insert_row r t
  end.
Definition by_created (l : list TaskRow) : list TaskRow := foldr insert_row [] l.

Definition tasksForChannel (agent channel : jstr) (s : BridgeState) : list InFlightTask :=
  taskOf <$> by_created (filter (fun r => tr_agent r = agent /\ tr_channel r = channel) (bs_tasks s)).

Definition allTasks (s : BridgeState) : list InFlightTask := taskOf <$> by_created (bs_tasks s).

Definition removeTask (taskId : jstr) (s : BridgeState) : BridgeState :=
  with_tasks (filter (fun r => tr_task_id r <> taskId) (bs_tasks s)) s.

(** ** Contexts *)

Definition contextFor (agent channel : jstr) (s : BridgeState) : option ContextRow :=
  (fun row => match row with (contextId, answerer, parent) => mkContextRow contextId (answerer =? 1) parent end)
    <$> bs_contexts s !! (agent, channel).

Definition saveContext (agent channel : jstr) (row : ContextRow) (s : BridgeState) : BridgeState :=
  with_contexts (<[(agent, channel) := (cx_contextId row, if cx_answerer row then 1 else 0, cx_parent row)]> (bs_contexts s)) s.

Definition isEngaged (agent channel : jstr) (s : BridgeState) : bool := bool_decide (is_Some (contextFor agent channel s)).

(** ** Files *)

Definition recordFile (file : RecordedFile) (now : Z) (s : BridgeState) : BridgeState :=
  with_files (filter (fun r => rf_fileId (fst r) <> rf_fileId file) (bs_files s) ++ [(file, now)]) s.

Definition set_url (url : jstr) (f : RecordedFile) : RecordedFile :=
  mkRecordedFile (rf_fileId f) (rf_agent f) (rf_channel f) (rf_messageId f) (rf_name f) (rf_contentType f) (rf_size f) url (rf_localPath f).
Definition setFileUrl (fileId url : jstr) (s : BridgeState) : BridgeState :=
  with_files ((fun r => if decide (rf_fileId (fst r) = fileId) then (set_url url (fst r), snd r) else r) <$> bs_files s) s.

Definition fileFor (agent fileId : jstr) (s : BridgeState) : option RecordedFile :=
  fst <$> find (fun r => jeqb (rf_agent (fst r)) agent && jeqb (rf_fileId (fst r)) fileId) (bs_files s).

(** The local paths that are freed. *)
Definition pruneFiles (olderThanMs now : Z) (s : BridgeState) : list jstr * BridgeState :=
  let floor := now - olderThanMs in
  (omap (fun r => if decide (snd r < floor) then rf_localPath (fst r) else None) (bs_files s),
   with_files (filter (fun r => ~ snd r < floor) (bs_files s)) s).

(** ** The offline queue *)

Definition enqueue (request : QueuedRequest) (now : Z) (s : BridgeState) : BridgeState :=
  with_queued
    (bs_queued s ++ [mkQueuedRow (bs_next_id s) (qr_agent request) (qr_channel request) (qr_text request) (qr_messageId request)
                       (stringify (VArr (VStr <$> qr_fileIds request))) (qr_authorId request) now])
    (bs_next_id s + 1) s.

Definition request_of_row (r : QueuedRow) : QueuedRequest :=
  mkQueued (qd_id r) (qd_agent r) (qd_channel r) (qd_text r) (qd_message_id r) (parseIds (qd_file_ids r)) (qd_author r).

(** [ORDER BY id] is the order of insertion, because ids only grow. *)
Definition queuedFor (agent : jstr) (s : BridgeState) : list QueuedRequest :=
  request_of_row <$> filter (fun r => qd_agent r = agent) (bs_queued s).

Definition dequeue (id : Z) (s : BridgeState) : BridgeState :=
  with_queued (filter (fun r => qd_id r <> id) (bs_queued s)) (bs_next_id s) s.

(** ** Questions *)

Definition recordQuestion (question : PendingQuestion) (now : Z) (s : BridgeState) : BridgeState :=
  with_questions
    (filter (fun r => ~ (qn_channel r = pq_channel question /\ qn_message_id r = pq_messageId question)) (bs_questions s)
     ++ [mkQuestionRow (pq_agent question) (pq_channel question) (pq_messageId question) (stringify (pq_questions question))
           (stringify (picks_value (pq_picks question))) now]) s.

Definition questionFor (channel messageId : jstr) (s : BridgeState) : option PendingQuestion :=
  r ← find (fun r => jeqb (qn_channel r) channel && jeqb (qn_message_id r) messageId) (bs_questions s);
  questions ← parseJson (Some (qn_questions r));
  Some (mkPendingQuestion (qn_agent r) channel messageId questions
          (match parseJson (Some (qn_picks r)) with Some v => picks_of v | None => [] end)).

Definition set_picks (picks : list (jstr * list jstr)) (r : QuestionRow) : QuestionRow :=
  mkQuestionRow (qn_agent r) (qn_channel r) (qn_message_id r) (qn_questions r) (stringify (picks_value picks)) (qn_created_ms r).
Definition setPicks (channel messageId : jstr) (picks : list (jstr * list jstr)) (s : BridgeState) : BridgeState :=
  with_questions
    ((fun r => if decide (qn_channel r = channel /\ qn_message_id r = messageId) then set_picks picks r else r) <$> bs_questions s) s.

Definition removeQuestion (channel messageId : jstr) (s : BridgeState) : BridgeState :=
  with_questions (filter (fun r => ~ (qn_channel r = channel /\ qn_message_id r = messageId)) (bs_questions s)) s.

(** ** The Gateway's session *)

Definition load_session (agent : jstr) (s : BridgeState) : sessions := bs_sessions s !! agent.
Definition save_session (agent : jstr) (session : GatewaySession) (s : BridgeState) : BridgeState :=
  with_sessions (<[agent := session]> (bs_sessions s)) s.
Definition clear_session (agent : jstr) (s : BridgeState) : BridgeState := with_sessions (delete agent (bs_sessions s)) s.

(** ** Handled messages *)

(** Whether the message is seen for the first time. *)
Definition unhandled (agent messageId : jstr) (s : BridgeState) : bool := bool_decide (bs_handled s !! (agent, messageId) = None).
Definition markHandled (agent messageId : jstr) (now : Z) (s : BridgeState) : bool * BridgeState :=
  if unhandled agent messageId s then (true, with_handled (<[(agent, messageId) := now]> (bs_handled s)) s) else (false, s).

Definition pruneHandled (olderThanMs now : Z) (s : BridgeState) : Z * BridgeState :=
  let kept := filter (fun kv => ~ snd kv < now - olderThanMs) (bs_handled s) in
  (Z.of_nat (size (bs_handled s)) - Z.of_nat (size kept), with_handled kept s).
