(* ===== verification/DiscordCard.v ===== *)
(** [apps/discord/src/card.ts]: the turn card, rendered whole from one
    record. *)

From S2P Require Import Prelude Activity DiscordState.
#[local] Open Scope Z_scope.

Definition IS_COMPONENTS_V2 : Z := Z.shiftl 1 15.
Definition SUPPRESS_NOTIFICATIONS : Z := Z.shiftl 1 12.
Definition EPHEMERAL : Z := Z.shiftl 1 6.
Definition TEXT_LIMIT : Z := 4000.
Definition STOP_ID : jstr := js "thicket:stop".
Definition CARRIED_CLOSED : nat := 3.

Inductive CardState := Working | Waiting | Completed | CardFailed | Cancelled | Frozen.
#[export] Instance CardState_eq_dec : EqDecision CardState.
Proof. solve_decision. Defined.

Definition ACCENT (state : CardState) : Z :=
  match state with
  | Working | Frozen => 0x5865f2
  | Waiting => 0xfee75c
  | Completed => 0x57f287
  | CardFailed => 0xed4245
  | Cancelled => 0x99aab5
  end.

Definition GLYPH (status : AgentActivityStatus) : jstr :=
  match status with Running => js "⏳" | Done => js "✅" | Failed => js "❌" end.

Record CardView := mkView {
  cv_state : CardState;
  cv_status : jstr;
  cv_steps : list CardStep;
  cv_text : jstr }.

Definition step_line (step : CardStep) : jstr := GLYPH (cs_status step) ++ js " " ++ cs_title step.
Definition stepsText (steps : list CardStep) : jstr := join_with [10%N] (step_line <$> steps).
Definition stepsFootnote (steps : list CardStep) : jstr := join_with [10%N] ((fun step => js "-# " ++ step_line step) <$> steps).

Definition textBudget (status : jstr) (steps : list CardStep) : Z :=
  TEXT_LIMIT - Z.of_nat (length status) - Z.of_nat (length (stepsText steps)).

(** [slice(-n)]. *)
Definition last_of {A} (n : nat) (l : list A) : list A := drop (length l - n) l.

Definition carriedSteps (steps : list CardStep) : list CardStep :=
  last_of CARRIED_CLOSED (filter (fun step => cs_status step <> Running) steps) ++ filter (fun step => cs_status step = Running) steps.

Definition textDisplay (content : jstr) : jsval := VObj [(js "type", VNum 10); (js "content", VStr content)].
Definition separator : jsval := VObj [(js "type", VNum 14); (js "divider", VBool true); (js "spacing", VNum 1)].
Definition stop_button : jsval :=
  VObj [(js "type", VNum 2); (js "style", VNum 4); (js "label", VStr (js "Stop")); (js "custom_id", VStr STOP_ID)].

(** [CardBody]. *)
Record CardBody := mkBody {
  cb_flags : Z;
  cb_components : list jsval;
  cb_allowed_mentions : jsval }.

Definition no_mentions : jsval := VObj [(js "parse", VArr [])].

Definition finished_card (view : CardView) : list jsval :=
  match (if jeqb (cv_text view) [] then [] else [textDisplay (cv_text view)])
        ++ (match cv_steps view with [] => [] | steps => [textDisplay (stepsFootnote steps)] end) with
  | [] => [textDisplay (js "-# Done, with nothing to say.")]
  | components => components
  end.

Definition status_section (view : CardView) : jsval :=
  let status := match cv_state view with Frozen => cv_status view ++ js " · continued below" | _ => cv_status view end in
  let line := textDisplay (js "**" ++ status ++ js "**") in
  match cv_state view with
  | Working => VObj [(js "type", VNum 9); (js "components", VArr [line]); (js "accessory", stop_button)]
  | _ => line
  end.

Definition open_card (view : CardView) : list jsval :=
  [VObj [(js "type", VNum 17); (js "accent_color", VNum (ACCENT (cv_state view)));
         (js "components", VArr (
            [status_section view]
            ++ (let steps := stepsText (cv_steps view) in if jeqb steps [] then [] else [separator; textDisplay steps])
            ++ (if jeqb (cv_text view) [] then [] else [separator; textDisplay (cv_text view)])))]].

Definition renderCard (view : CardView) : CardBody :=
  mkBody IS_COMPONENTS_V2 (match cv_state view with Completed => finished_card view | _ => open_card view end) no_mentions.

Definition terminalStatus (state : CardState) : jstr :=
  match state with
  | Completed => js "Done"
  | CardFailed => js "Failed"
  | Cancelled => js "Stopped"
  | _ => js "Waiting for you"
  end.
