(* ===== verification/DiscordTranslate.v ===== *)
(** [apps/discord/src/translate.ts] and the event types of
    [apps/discord/src/types.ts]: what a Gateway dispatch means to the bridge.
    Payloads are dynamic values; reading a property of [null] or [undefined]
    through a cast is a [TypeError], here [None] of the outer option. *)

From S2P Require Import Prelude Envelope Values.
#[local] Open Scope Z_scope.

Record DiscordAttachment := mkAttachment {
  da_id : jstr;
  da_name : jstr;
  da_contentType : jstr;
  da_size : Z;
  da_url : jstr }.

Record ReplyAuthor := mkReplyAuthor {
  ra_id : jstr;
  ra_name : option jstr;
  ra_isApp : bool }.

Record Replied := mkReplied {
  re_author : option ReplyAuthor;
  re_text : option jstr;
  re_files : list DiscordAttachment }.

Record Forward := mkForward {
  fo_text : jstr;
  fo_files : list DiscordAttachment }.

Record MessageEvent := mkMessageEvent {
  me_channel : jstr;
  me_guild : option jstr;
  me_messageId : jstr;
  me_text : jstr;
  me_authorId : jstr;
  me_authorName : option jstr;
  me_authorIsApp : bool;
  me_mentions : list jstr;
  me_botMentions : list jstr;
  me_mentionNames : gmap jstr jstr;
  me_files : list DiscordAttachment;
  me_type : Z;
  me_replyTo : option jstr;
  me_reply : option Replied;
  me_forwards : list Forward }.

Record ComponentEvent := mkComponentEvent {
  ce_interactionId : jstr;
  ce_token : jstr;
  ce_channel : jstr;
  ce_messageId : jstr;
  ce_userId : jstr;
  ce_customId : jstr;
  ce_componentType : Z;
  ce_values : list jstr }.

Record ModalField := mkModalField {
  mf_customId : jstr;
  mf_type : Z;
  mf_value : option jstr;
  mf_values : option (list jstr) }.

Record ModalEvent := mkModalEvent {
  mo_interactionId : jstr;
  mo_token : jstr;
  mo_channel : jstr;
  mo_messageId : option jstr;
  mo_userId : jstr;
  mo_customId : jstr;
  mo_fields : list ModalField;
  mo_attachments : list DiscordAttachment }.

Record CommandEvent := mkCommandEvent {
  co_interactionId : jstr;
  co_token : jstr;
  co_channel : jstr;
  co_guild : option jstr;
  co_userId : jstr;
  co_name : jstr;
  co_options : gmap jstr jstr }.

Inductive InboundEvent :=
| OfMessage (event : MessageEvent)
| OfComponent (event : ComponentEvent)
| OfModal (event : ModalEvent)
| OfCommand (event : CommandEvent).

(** [INTERACTION] and [LABEL]. *)
Definition APPLICATION_COMMAND : Z := 2.
Definition MESSAGE_COMPONENT : Z := 3.
Definition MODAL_SUBMIT : Z := 5.
Definition LABEL : Z := 18.

Definition str (value : jsval) : option jstr := as_nonempty_str value.
Definition is_num (v : jsval) (n : Z) : bool := match v with VNum m => m =? n | _ => false end.
Definition number_or (d : Z) (v : jsval) : Z := match v with VNum n => n | _ => d end.
Definition is_true (v : jsval) : bool := match v with VBool true => true | _ => false end.
Definition array_or_empty (v : jsval) : list jsval := match v with VArr l => l | _ => [] end.

(** [a ?? b] of what may be [undefined]. *)
Definition first_of {A} (a b : option A) : option A := match a with Some _ => a | None => b end.

Definition displayName (user member : jsval) : option jstr :=
  first_of (str (get_opt member (js "nick"))) (first_of (str (get_opt user (js "global_name"))) (str (get_opt user (js "username")))).

Definition parseAttachment (raw : jsval) : option DiscordAttachment :=
  if negb (is_object raw) then None else
  match str (prop raw (js "id")), str (prop raw (js "url")) with
  | Some id, Some url =>
      Some (mkAttachment id (default id (str (prop raw (js "filename"))))
              (default (js "application/octet-stream") (str (prop raw (js "content_type"))))
              (number_or 0 (prop raw (js "size"))) url)
  | _, _ => None
  end.
Definition parseAttachments (value : jsval) : list DiscordAttachment := omap parseAttachment (array_or_empty value).

(** ** Messages *)

Definition mention_name (names : gmap jstr jstr) (m : jsval) : gmap jstr jstr :=
  match str (prop m (js "id")), displayName m (prop m (js "member")) with
  | Some id, Some name => <[id := name]> names
  | _, _ => names
  end.

Definition is_app (author holder : jsval) : bool :=
  is_true (get_opt author (js "bot")) || present (str (prop holder (js "webhook_id"))).

Definition reply_of (referenced : jsval) : option Replied :=
  if negb (is_object referenced) then None else
  let author := prop referenced (js "author") in
  Some (mkReplied ((fun id => mkReplyAuthor id (displayName author VUndef) (is_app author referenced)) <$> str (get_opt author (js "id")))
          (str (prop referenced (js "content"))) (parseAttachments (prop referenced (js "attachments")))).

(** A reference is a reply unless its type says otherwise. *)
Definition reply_to (reference : jsval) : option jstr :=
  let type := get_opt reference (js "type") in
  if negb (defined type) || is_num type 0 then str (get_opt reference (js "message_id")) else None.

(** [None]: a snapshot is [null] or [undefined], or its message is [null]. *)
Definition forward_of (m : jsval) : option Forward :=
  content ← get m (js "content");
  Some (mkForward (default [] (as_str content)) (parseAttachments (prop m (js "attachments")))).
Definition forwards_of (snapshots : list jsval) : option (list Forward) :=
  messages ← mapM (fun snapshot => get snapshot (js "message")) snapshots;
  mapM forward_of (filter (fun m => defined m = true) messages).

Definition translateMessage (d : jsval) : option (option MessageEvent) :=
  let author := prop d (js "author") in
  match str (get_opt author (js "id")), str (prop d (js "channel_id")), str (prop d (js "id")) with
  | Some authorId, Some channel, Some messageId =>
      let mentioned := array_or_empty (prop d (js "mentions")) in
      ids ← mapM (fun m => get m (js "id")) mentioned;
      forwards ← forwards_of (array_or_empty (prop d (js "message_snapshots")));
      Some (Some (mkMessageEvent channel (str (prop d (js "guild_id"))) messageId (default [] (as_str (prop d (js "content"))))
        authorId (displayName author (prop d (js "member"))) (is_app author d)
        (omap str ids)
        (omap (fun m => str (prop m (js "id"))) (filter (fun m => is_true (prop m (js "bot")) = true) mentioned))
        (fold_left mention_name mentioned ∅)
        (parseAttachments (prop d (js "attachments"))) (number_or (-1) (prop d (js "type")))
        (reply_to (prop d (js "message_reference"))) (reply_of (prop d (js "referenced_message"))) forwards))
  | _, _, _ => Some None
  end.

(** ** Interactions *)

(** What a command was given; [None]: an option is [null] or [undefined]. *)
Fixpoint command_options (raws : list jsval) (options : gmap jstr jstr) : option (gmap jstr jstr) :=
  match raws with
  | [] => Some options
  | raw :: rest =>
      name ← get raw (js "name");
      let value := prop raw (js "value") in
      command_options rest
        (match str name with Some key => if defined value then <[key := to_string value]> options else options | None => options end)
  end.

(** A component that carries an answer. *)
Definition field_of (component : jsval) : option ModalField :=
  match str (prop component (js "custom_id")), prop component (js "type") with
  | Some customId, VNum type =>
      Some (mkModalField customId type (as_str (prop component (js "value")))
              (match prop component (js "values") with VArr l => Some (to_string <$> l) | _ => None end))
  | _, _ => None
  end.

(** [visit]: a label's component, a row's components, or the component
    itself. *)
Fixpoint visit (raw : jsval) : list ModalField :=
  match raw with
  | VObj fs =>
      if is_num (prop raw (js "type")) LABEL then
        (fix inner (l : list (jstr * jsval)) : list ModalField :=
           match l with
           | [] => []
           | (k, v) :: t => if jeqb k (js "component") then visit v else inner t
           end) fs
      else
        match prop raw (js "components") with
        | VArr _ =>
            (fix row (l : list (jstr * jsval)) : list ModalField :=
               match l with
               | [] => []
               | (k, v) :: t =>
                   if jeqb k (js "components") then match v with VArr items => concat (map visit items) | _ => [] end
                   else row t
               end) fs
        | _ => match field_of raw with Some f => [f] | None => [] end
        end
  | _ => []
  end.
Definition modalFields (value : jsval) : list ModalField := concat (visit <$> array_or_empty value).

(** [Object.values] of an object. *)
Definition values_of (v : jsval) : list jsval :=
  match v with
  | VObj fs => snd <$> fs
  | VArr l => l
  | _ => []
  end.

Definition translateInteraction (d : jsval) : option (option InboundEvent) :=
  let data := or_else (prop d (js "data")) (VObj []) in
  let message := prop d (js "message") in
  match str (prop d (js "id")), str (prop d (js "token")), str (prop d (js "channel_id")),
        first_of (str (get_opt (get_opt (prop d (js "member")) (js "user")) (js "id"))) (str (get_opt (prop d (js "user")) (js "id"))) with
  | Some interactionId, Some token, Some channel, Some userId =>
      if is_num (prop d (js "type")) APPLICATION_COMMAND then
        match str (prop data (js "name")) with
        | None => Some None
        | Some name =>
            options ← command_options (array_or_empty (prop data (js "options"))) ∅;
            Some (Some (OfCommand (mkCommandEvent interactionId token channel (str (prop d (js "guild_id"))) userId name options)))
        end
      else if is_num (prop d (js "type")) MESSAGE_COMPONENT then
        match str (prop data (js "custom_id")), str (get_opt message (js "id")) with
        | Some customId, Some messageId =>
            Some (Some (OfComponent (mkComponentEvent interactionId token channel messageId userId customId
              (number_or (-1) (prop data (js "component_type"))) (to_string <$> array_or_empty (prop data (js "values"))))))
        | _, _ => Some None
        end
      else if is_num (prop d (js "type")) MODAL_SUBMIT then
        match str (prop data (js "custom_id")) with
        | None => Some None
        | Some customId =>
            Some (Some (OfModal (mkModalEvent interactionId token channel (str (get_opt message (js "id"))) userId customId
              (modalFields (prop data (js "components")))
              (omap parseAttachment (values_of (get_opt (prop data (js "resolved")) (js "attachments")))))))
        end
      else Some None
  | _, _, _, _ => Some None
  end.

Definition translateDispatch (type : jstr) (d : jsval) : option (option InboundEvent) :=
  if negb (is_object d) then Some None
  else if jeqb type (js "MESSAGE_CREATE") then option_map OfMessage <$> translateMessage d
  else if jeqb type (js "INTERACTION_CREATE") then translateInteraction d
  else Some None.
