(* ===== verification/DiscordEditor.v ===== *)
(** [apps/discord/src/editor.ts]: the streaming editor. For each card only the
    latest body is kept, and a channel flushes one card at a time, an interval
    apart. A lane is a channel's part of it; what it is flushed to is the
    engine's. *)

From S2P Require Import Prelude.
#[local] Open Scope Z_scope.

Section Editor.
(** A card's body. *)
Context {B : Type}.

(** The waiters by the tickets of their promises. *)
Record Pending := mkPending {
  pe_body : B;
  pe_waiters : list nat }.

(** [la_pending] in the order of the [Map]; [la_timer] is when the timer is
    due. *)
Record Lane := mkLane {
  la_pending : list (jstr * Pending);
  la_timer : option Z;
  la_lastFlushAt : Z;
  la_flushing : bool }.

Definition new_lane : Lane := mkLane [] None 0 false.

Definition set_pending (v : list (jstr * Pending)) (l : Lane) : Lane := mkLane v (la_timer l) (la_lastFlushAt l) (la_flushing l).
Definition set_timer (v : option Z) (l : Lane) : Lane := mkLane (la_pending l) v (la_lastFlushAt l) (la_flushing l).
Definition set_flushing (v : bool) (l : Lane) : Lane := mkLane (la_pending l) (la_timer l) (la_lastFlushAt l) v.

(** [pending.get], and [pending.set] of a key, which keeps its place. *)
Definition pending_of (messageId : jstr) (l : Lane) : option Pending := assq messageId (la_pending l).
Fixpoint put_pending (messageId : jstr) (p : Pending) (l : list (jstr * Pending)) : list (jstr * Pending) :=
  match l with
  | [] => [(messageId, p)]
  | (k, q) :: t => if bool_decide (messageId = k) then (k, p) :: t else (k, q) :: put_pending messageId p t
  end.
Fixpoint drop_pending (messageId : jstr) (l : list (jstr * Pending)) : list (jstr * Pending) :=
  match l with
  | [] => []
  | (k, q) :: t => if bool_decide (messageId = k) then t else (k, q) :: drop_pending messageId t
  end.

Section Interval.
Context (intervalMs : Z).

Definition arm (now : Z) (l : Lane) : Lane :=
  match la_timer l, la_pending l with
  | None, _ :: _ => if la_flushing l then l else set_timer (Some (now + Z.max 0 (la_lastFlushAt l + intervalMs - now))) l
  | _, _ => l
  end.

Definition schedule (messageId : jstr) (body : B) (now : Z) (l : Lane) : Lane :=
  arm now (set_pending (put_pending messageId
             (mkPending body (match pending_of messageId l with Some p => pe_waiters p | None => [] end)) (la_pending l)) l).

(** [settle] with a body: it is scheduled, and the promise made is kept by
    its flush. *)
Definition add_waiter (waiter : nat) (p : Pending) : Pending := mkPending (pe_body p) (pe_waiters p ++ [waiter]).
Definition settle (messageId : jstr) (body : B) (waiter : nat) (now : Z) (l : Lane) : Lane :=
  let l1 := schedule messageId body now l in
  match pending_of messageId l1 with
  | None => l1
  | Some p => arm now (set_pending (put_pending messageId (add_waiter waiter p) (la_pending l1)) l1)
  end.

(** The promises that are kept by the card's being dropped. *)
Definition forget (messageId : jstr) (l : Lane) : list nat * Lane :=
  match pending_of messageId l with
  | None => ([], l)
  | Some p => (pe_waiters p, set_pending (drop_pending messageId (la_pending l)) l)
  end.

(** The timer fires: the oldest pending card, if there is one, is taken to
    be flushed. *)
Definition tick (now : Z) (l : Lane) : option (jstr * Pending) * Lane :=
  match la_pending l with
  | [] => (None, set_timer None l)
  | (messageId, p) :: rest => (Some (messageId, p), mkLane rest None now true)
  end.

(** The flush is over, well or not. *)
Definition flushed (now : Z) (l : Lane) : Lane := arm now (set_flushing false l).
End Interval.
End Editor.
Arguments Pending B : clear implicits.
Arguments Lane B : clear implicits.

Definition pendingCount {B} (lanes : gmap jstr (Lane B)) : nat := map_fold (fun _ l n => (length (la_pending l) + n)%nat) 0%nat lanes.
