(* ===== verification/DiscordEdits.v ===== *)
(** What the streaming editor promises of a lane, whatever is scheduled with
    it and however long its flushes take. *)

From S2P Require Import Prelude DiscordEditor.
#[local] Open Scope Z_scope.

Section Edits.
Context {B : Type} (intervalMs : Z).

(** What happens to a lane: calls of the editor, its timer, and the end of a
    flush. *)
Inductive edit :=
| Scheduled (card : jstr) (body : B)
| Settled (card : jstr) (body : B) (waiter : nat)
| Forgotten (card : jstr)
| Fired
| Landed.

(** A lane with its past: the flush under way, the flushes begun, the
    promises kept, and the time. *)
Record run := mkRun {
  rn_lane : Lane B;
  rn_flight : option (jstr * Pending B);
  rn_flushes : list (Z * jstr * B);
  rn_kept : list nat;
  rn_now : Z }.

Definition new_run (now : Z) : run := mkRun new_lane None [] [] now.

(** A timer does not fire before it is due, and a flush that is not under way
    does not land. *)
Definition edit_step (now : Z) (ev : edit) (r : run) : option run :=
  if now <? rn_now r then None else
  match ev with
  | Scheduled card b => Some (mkRun (schedule intervalMs card b now (rn_lane r)) (rn_flight r) (rn_flushes r) (rn_kept r) now)
  | Settled card b w => Some (mkRun (settle intervalMs card b w now (rn_lane r)) (rn_flight r) (rn_flushes r) (rn_kept r) now)
  | Forgotten card =>
      let (waiters, l) := forget card (rn_lane r) in
      Some (mkRun l (rn_flight r) (rn_flushes r) (rn_kept r ++ waiters) now)
  | Fired =>
      match la_timer (rn_lane r) with
      | Some due =>
          if now <? due then None else
          let (next, l) := tick now (rn_lane r) in
          Some (match next with
                | None => mkRun l (rn_flight r) (rn_flushes r) (rn_kept r) now
                | Some (card, p) => mkRun l (Some (card, p)) (rn_flushes r ++ [(now, card, pe_body p)]) (rn_kept r) now
                end)
      | None => None
      end
  | Landed =>
      match rn_flight r with
      | Some (_, p) => Some (mkRun (flushed intervalMs now (rn_lane r)) None (rn_flushes r) (rn_kept r ++ pe_waiters p) now)
      | None => None
      end
  end.

Fixpoint edits (evs : list (Z * edit)) (r : run) : option run :=
  match evs with
  | [] => Some r
  | (now, ev) :: rest => r' ← edit_step now ev r; edits rest r'
  end.

(** ** The lane's pending cards *)

Lemma assq_cons {A} k k' (v : A) l : assq k ((k', v) :: l) = if bool_decide (k = k') then Some v else assq k l.
Proof. done. Qed.

Lemma put_pending_same card (p : Pending B) l : assq card (put_pending card p l) = Some p.
Proof.
  induction l as [|[k q] l IH]; cbn [put_pending]; rewrite ?assq_cons; [by rewrite bool_decide_true|].
  destruct (bool_decide (card = k)) eqn:E; by rewrite assq_cons, E.
Qed.

Lemma put_pending_twice card (p q : Pending B) l : put_pending card p (put_pending card q l) = put_pending card p l.
Proof.
  induction l as [|[k x] l IH]; cbn [put_pending]; [by rewrite bool_decide_true|].
  case_bool_decide as E; cbn [put_pending]; [subst; by rewrite bool_decide_true|by rewrite (bool_decide_false (card = k)), IH].
Qed.

Lemma arm_pending now (l : Lane B) : la_pending (arm intervalMs now l) = la_pending l.
Proof. unfold arm. destruct (la_timer l), (la_pending l) eqn:E, (la_flushing l); by rewrite ?E. Qed.
Lemma arm_flushing now (l : Lane B) : la_flushing (arm intervalMs now l) = la_flushing l.
Proof. unfold arm. by destruct (la_timer l), (la_pending l), (la_flushing l) eqn:E. Qed.
Lemma arm_last now (l : Lane B) : la_lastFlushAt (arm intervalMs now l) = la_lastFlushAt l.
Proof. unfold arm. by destruct (la_timer l), (la_pending l), (la_flushing l). Qed.

Lemma put_pending_other card card' (p : Pending B) l : card' <> card -> assq card' (put_pending card p l) = assq card' l.
Proof.
  intros Hne. induction l as [|[k q] l IH]; cbn [put_pending]; rewrite ?assq_cons; [by rewrite bool_decide_false|].
  case_bool_decide as E; rewrite !assq_cons; [|by rewrite IH]. subst. by rewrite !bool_decide_false.
Qed.

Lemma drop_pending_other card card' (l : list (jstr * Pending B)) : card' <> card -> assq card' (drop_pending card l) = assq card' l.
Proof.
  intros Hne. induction l as [|[k q] l IH]; cbn [drop_pending]; [done|]. case_bool_decide as E; rewrite !assq_cons; [|by rewrite IH].
  subst. by rewrite bool_decide_false.
Qed.

Lemma put_pending_keys card (p : Pending B) l :
  fst <$> put_pending card p l = if decide (card ∈ fst <$> l) then fst <$> l else (fst <$> l) ++ [card].
Proof.
  induction l as [|[k q] l IH]; cbn [put_pending fmap list_fmap fst]; [by rewrite decide_False by apply not_elem_of_nil|].
  case_bool_decide as E; cbn [fmap list_fmap fst].
  - subst. rewrite decide_True by by left. done.
  - rewrite IH. destruct (decide (card ∈ fst <$> l)) as [H|H]; [by rewrite decide_True by by right|].
    rewrite decide_False; [done|]. by rewrite not_elem_of_cons.
Qed.

Lemma assq_absent {A} card (l : list (jstr * A)) : assq card l = None <-> card ∉ fst <$> l.
Proof.
  induction l as [|[k q] l IH]; cbn [fmap list_fmap fst]; [split; [intros _; apply not_elem_of_nil|done]|].
  rewrite assq_cons, not_elem_of_cons. case_bool_decide as E; [split; [done|by intros []]|]. rewrite IH. tauto.
Qed.

Lemma drop_pending_keys card (l : list (jstr * Pending B)) : NoDup (fst <$> l) ->
  NoDup (fst <$> drop_pending card l) /\ assq card (drop_pending card l) = None.
Proof.
  induction l as [|[k q] l IH]; cbn [drop_pending fmap list_fmap fst]; [done|]. intros [Hk Hl]%NoDup_cons.
  case_bool_decide as E; [subst; split; [done|by apply assq_absent]|]. destruct (IH Hl) as [H1 H2].
  cbn [fmap list_fmap fst]. rewrite assq_cons, bool_decide_false by done. split; [|done]. apply NoDup_cons. split; [|done].
  rewrite <- assq_absent. rewrite drop_pending_other by congruence. by apply assq_absent.
Qed.

Lemma schedule_pending card b now (l : Lane B) :
  la_pending (schedule intervalMs card b now l) =
  put_pending card (mkPending b (match pending_of card l with Some p => pe_waiters p | None => [] end)) (la_pending l).
Proof. unfold schedule. by rewrite arm_pending. Qed.
Lemma schedule_flushing card b now (l : Lane B) : la_flushing (schedule intervalMs card b now l) = la_flushing l.
Proof. unfold schedule. by rewrite arm_flushing. Qed.
Lemma schedule_last card b now (l : Lane B) : la_lastFlushAt (schedule intervalMs card b now l) = la_lastFlushAt l.
Proof. unfold schedule. by rewrite arm_last. Qed.
Lemma settle_flushing card b w now (l : Lane B) : la_flushing (settle intervalMs card b w now l) = la_flushing l.
Proof. unfold settle. destruct (pending_of _ _); rewrite ?arm_flushing; apply schedule_flushing. Qed.
Lemma settle_last card b w now (l : Lane B) : la_lastFlushAt (settle intervalMs card b w now l) = la_lastFlushAt l.
Proof. unfold settle. destruct (pending_of _ _); rewrite ?arm_last; apply schedule_last. Qed.

(** [settle] schedules, and hands in its promise with the body. *)
Lemma settle_pending card b w now (l : Lane B) :
  la_pending (settle intervalMs card b w now l) =
  put_pending card (mkPending b (match pending_of card l with Some p => pe_waiters p | None => [] end ++ [w])) (la_pending l).
Proof.
  unfold settle, schedule, pending_of. rewrite !arm_pending. cbn [la_pending set_pending]. rewrite put_pending_same, arm_pending.
  cbn [la_pending set_pending]. rewrite ?arm_pending. apply put_pending_twice.
Qed.

(** ** A lane is never stuck *)

(** Cards wait only while a timer is set or a flush is under way, and a timer
    is set an interval after the last flush. *)
Definition due_ok (l : Lane B) : Prop :=
  forall due, la_timer l = Some due -> la_flushing l = false /\ la_lastFlushAt l + intervalMs <= due.
Definition lane_ok (l : Lane B) : Prop :=
  due_ok l /\ (la_pending l <> [] -> is_Some (la_timer l) \/ la_flushing l = true).

Lemma arm_ok now l : due_ok l -> lane_ok (arm intervalMs now l).
Proof.
  intros Hd. unfold arm. destruct (la_timer l) as [due|] eqn:Ht; [split; [done|by left]|].
  destruct (la_pending l) as [|x rest] eqn:Hp; [by split|]. destruct (la_flushing l) eqn:Hf; split; try done; [by right| |by left].
  intros due [= <-]. cbn. split; [done|lia].
Qed.

Lemma schedule_ok card b now l : lane_ok l -> lane_ok (schedule intervalMs card b now l).
Proof. intros [Hd _]. by apply arm_ok. Qed.
Lemma settle_lane_ok card b w now l : lane_ok l -> lane_ok (settle intervalMs card b w now l).
Proof.
  intros Hl. unfold settle. destruct (pending_of _ _); [|by apply schedule_ok]. apply arm_ok.
  by destruct (schedule_ok card b now l Hl) as [Hd _].
Qed.
Lemma forget_ok card l : lane_ok l -> lane_ok (snd (forget card l)).
Proof.
  intros [Hd Hl]. unfold forget. destruct (pending_of card l) as [p|] eqn:Hp; [|done]. split; [exact Hd|]. intros _. apply Hl.
  intros H. unfold pending_of in Hp. by rewrite H in Hp.
Qed.
Lemma tick_ok now l : lane_ok (snd (tick now l)).
Proof. unfold tick. destruct (la_pending l) as [|[card p] rest] eqn:E; split; cbn; rewrite ?E; try done; by right. Qed.
Lemma flushed_ok now l : la_timer l = None -> lane_ok (flushed intervalMs now l).
Proof. intros Ht. apply arm_ok. intros due. cbn. by rewrite Ht. Qed.

(** ** What a lane has come to *)

(** The last body that was scheduled for a card and not forgotten. *)
Definition want_after (ev : edit) (want : jstr -> option B) (card : jstr) : option B :=
  match ev with
  | Scheduled c b | Settled c b _ => if decide (card = c) then Some b else want card
  | Forgotten c => if decide (card = c) then None else want card
  | _ => want card
  end.
Definition wanted (evs : list (Z * edit)) : jstr -> option B := fold_left (fun want ev => want_after (snd ev) want) evs (fun _ => None).
Definition handed_in (ev : edit) : list nat := match ev with Settled _ _ w => [w] | _ => [] end.
Definition promises (evs : list (Z * edit)) : list nat := concat (handed_in ∘ snd <$> evs).

(** The last body a card was flushed with. *)
Definition shown (card : jstr) (r : run) : option B := snd <$> last (filter (fun f => snd (fst f) = card) (rn_flushes r)).
Definition waiting (r : run) : list nat :=
  concat (pe_waiters ∘ snd <$> la_pending (rn_lane r)) ++ match rn_flight r with Some (_, p) => pe_waiters p | None => [] end.

(** A card's edit is underway: pending with its lane alive. *)
Record run_ok (want : jstr -> option B) (made : list nat) (r : run) : Prop := {
  ro_lane : lane_ok (rn_lane r);
  ro_flight : la_flushing (rn_lane r) = present (rn_flight r);
  ro_keys : NoDup (fst <$> la_pending (rn_lane r));
  ro_want card : match pending_of card (rn_lane r) with
                 | Some p => want card = Some (pe_body p)
                 | None => want card = None \/ want card = shown card r
                 end;
  ro_promises w : w ∈ made -> w ∈ waiting r \/ w ∈ rn_kept r }.

Lemma new_run_ok now : run_ok (fun _ => None) [] (new_run now).
Proof.
  split; cbn; [by split|done|constructor|intros card; by left|].
  by intros w H%elem_of_nil.
Qed.

#[local] Abbreviation waiters l := (concat (pe_waiters ∘ snd <$> l)).

Lemma waiters_put card b extra (l : list (jstr * Pending B)) w :
  w ∈ waiters l \/ w ∈ extra ->
  w ∈ waiters (put_pending card (mkPending b (match assq card l with Some p => pe_waiters p | None => [] end ++ extra)) l).
Proof.
  induction l as [|[k p] l IH]; cbn [put_pending fmap list_fmap concat]; rewrite ?assq_cons.
  - intros [H|H]; [by apply elem_of_nil in H|]. cbn. by rewrite app_nil_r.
  - case_bool_decide as E; cbn [fmap list_fmap concat compose snd pe_waiters]; rewrite ?elem_of_app; tauto.
Qed.

Lemma waiters_drop card (l : list (jstr * Pending B)) w :
  w ∈ waiters l -> w ∈ waiters (drop_pending card l) \/ w ∈ match assq card l with Some p => pe_waiters p | None => [] end.
Proof.
  induction l as [|[k p] l IH]; cbn [drop_pending fmap list_fmap concat]; rewrite ?assq_cons; [by left|].
  case_bool_decide as E; cbn [fmap list_fmap concat compose snd]; rewrite !elem_of_app; tauto.
Qed.

Lemma put_pending_nodup card (p : Pending B) l : NoDup (fst <$> l) -> NoDup (fst <$> put_pending card p l).
Proof.
  intros Hl. rewrite put_pending_keys. destruct (decide _) as [H|H]; [done|]. apply NoDup_app. split_and!; [done|set_solver|apply NoDup_singleton].
Qed.

(** Putting a body, with waiters that keep those there were. *)
Lemma put_ok want made (r : run) card b extra l now :
  run_ok want made r -> lane_ok l -> la_flushing l = la_flushing (rn_lane r) ->
  la_pending l = put_pending card (mkPending b (match pending_of card (rn_lane r) with Some p => pe_waiters p | None => [] end ++ extra)) (la_pending (rn_lane r)) ->
  run_ok (fun c => if decide (c = card) then Some b else want c) (made ++ extra) (mkRun l (rn_flight r) (rn_flushes r) (rn_kept r) now).
Proof.
  intros [Hl Hf Hk Hw Hp] Hl' Hf' Hpend. split; cbn [rn_lane rn_flight rn_flushes rn_kept].
  - done.
  - by rewrite Hf'.
  - rewrite Hpend. by apply put_pending_nodup.
  - intros c. unfold pending_of. rewrite Hpend. destruct (decide (c = card)) as [->|Hne]; [by rewrite put_pending_same|].
    rewrite put_pending_other by done. exact (Hw c).
  - intros w Hw'. unfold waiting. cbn [rn_lane rn_flight]. rewrite Hpend, elem_of_app. apply elem_of_app in Hw'.
    pose proof (waiters_put card b extra (la_pending (rn_lane r)) w) as Hput. unfold pending_of.
    destruct Hw' as [Hw'|Hw']; [|tauto]. destruct (Hp w Hw') as [Hx|Hx]; [|tauto]. unfold waiting in Hx. apply elem_of_app in Hx. tauto.
Qed.

Lemma forget_run_ok want made (r : run) card now : run_ok want made r ->
  run_ok (fun c => if decide (c = card) then None else want c) made
    (mkRun (snd (forget card (rn_lane r))) (rn_flight r) (rn_flushes r) (rn_kept r ++ fst (forget card (rn_lane r))) now).
Proof.
  intros [Hl Hf Hk Hw Hp]. pose proof (forget_ok card _ Hl) as Hl'. unfold forget in *.
  destruct (pending_of card (rn_lane r)) as [p|] eqn:E; unfold pending_of in E; split; cbn [fst snd rn_lane rn_flight rn_flushes rn_kept la_pending la_flushing set_pending] in *; try done.
  - by apply drop_pending_keys.
  - intros c. unfold pending_of. cbn [la_pending set_pending]. destruct (decide (c = card)) as [->|Hne].
    + rewrite (proj2 (drop_pending_keys card _ Hk)). by left.
    + rewrite drop_pending_other by done. apply Hw.
  - intros w Hw'. unfold waiting. cbn [rn_lane rn_flight la_pending set_pending]. rewrite !elem_of_app.
    destruct (Hp w Hw') as [Hx|Hx]; [|tauto]. unfold waiting in Hx. apply elem_of_app in Hx.
    pose proof (waiters_drop card (la_pending (rn_lane r)) w) as Hd. rewrite E in Hd. tauto.
  - intros c. specialize (Hw c). destruct (decide (c = card)) as [->|Hne]; [|done]. unfold pending_of. rewrite E. by left.
  - intros w Hw'. rewrite app_nil_r. by apply Hp.
Qed.

Lemma shown_flushed card c (r : run) l flight now b kept :
  shown card (mkRun l flight (rn_flushes r ++ [(now, c, b)]) kept now) = if decide (c = card) then Some b else shown card r.
Proof.
  unfold shown. cbn [rn_flushes]. rewrite filter_app, filter_cons, filter_nil. cbn [fst snd].
  destruct (decide (c = card)); [by rewrite last_snoc|by rewrite app_nil_r].
Qed.

Lemma tick_run_ok want made (r : run) card p now : run_ok want made r -> rn_flight r = None ->
  fst (tick now (rn_lane r)) = Some (card, p) ->
  run_ok want made (mkRun (snd (tick now (rn_lane r))) (Some (card, p)) (rn_flushes r ++ [(now, card, pe_body p)]) (rn_kept r) now).
Proof.
  intros [Hl Hf Hk Hw Hp] Hnone Ht. pose proof (tick_ok now (rn_lane r)) as Hl'. unfold tick in *.
  destruct (la_pending (rn_lane r)) as [|[card' p'] rest] eqn:E; [done|]. cbn [fst snd] in *. injection Ht as -> ->.
  apply NoDup_cons in Hk as [Hk1 Hk2]. split; cbn [rn_lane rn_flight rn_flushes rn_kept la_flushing la_pending] in *; try done.
  - intros c. rewrite shown_flushed. specialize (Hw c). unfold pending_of in *. rewrite E, assq_cons in Hw. cbn [la_pending].
    destruct (decide (card = c)) as [->|Hne].
    + rewrite bool_decide_true in Hw by done. rewrite (proj2 (assq_absent c rest)) by done. by right.
    + rewrite bool_decide_false in Hw by done. exact Hw.
  - intros w Hw'. destruct (Hp w Hw') as [Hx|Hx]; [left|by right]. unfold waiting in *. rewrite E, Hnone in Hx. cbn in Hx |- *.
    rewrite app_nil_r, elem_of_app in Hx. rewrite elem_of_app. tauto.
Qed.

Lemma landed_run_ok want made (r : run) card p now : run_ok want made r -> rn_flight r = Some (card, p) ->
  run_ok want made (mkRun (flushed intervalMs now (rn_lane r)) None (rn_flushes r) (rn_kept r ++ pe_waiters p) now).
Proof.
  intros [Hl Hf Hk Hw Hp] Hflight. rewrite Hflight in Hf. cbn [present] in Hf.
  assert (Ht : la_timer (rn_lane r) = None).
  { destruct (la_timer (rn_lane r)) as [due|] eqn:E; [|done]. destruct Hl as [Hd _]. destruct (Hd due E) as [H _]. congruence. }
  assert (Hpend : la_pending (flushed intervalMs now (rn_lane r)) = la_pending (rn_lane r)) by (unfold flushed; by rewrite arm_pending).
  split; cbn [rn_lane rn_flight rn_flushes rn_kept].
  - by apply flushed_ok.
  - unfold flushed. by rewrite arm_flushing.
  - by rewrite Hpend.
  - intros c. unfold pending_of. rewrite Hpend. apply Hw.
  - intros w Hw'. unfold waiting. cbn [rn_lane rn_flight]. rewrite Hpend, app_nil_r, elem_of_app.
    destruct (Hp w Hw') as [Hx|Hx]; [|tauto]. unfold waiting in Hx. rewrite Hflight, elem_of_app in Hx. tauto.
Qed.

Lemma edit_step_ok want made r now ev r' : run_ok want made r -> edit_step now ev r = Some r' ->
  run_ok (want_after ev want) (made ++ handed_in ev) r'.
Proof.
  intros Hr. unfold edit_step. destruct (now <? rn_now r); [done|]. destruct ev as [card b|card b w|card| |]; cbn [want_after handed_in].
  - intros [= <-]. apply (put_ok _ _ _ card b []); [done|by apply schedule_ok, Hr|apply schedule_flushing|].
    rewrite app_nil_r. apply schedule_pending.
  - intros [= <-]. apply put_ok; [done|by apply settle_lane_ok, Hr|apply settle_flushing|apply settle_pending].
  - pose proof (forget_run_ok want made r card now Hr) as Hf. destruct (forget card (rn_lane r)) as [ws l]. intros [= <-].
    by rewrite app_nil_r.
  - rewrite app_nil_r. destruct (la_timer (rn_lane r)) as [due|] eqn:Ht; [|done]. destruct (now <? due); [done|].
    assert (Hnone : rn_flight r = None).
    { destruct (ro_lane _ _ _ Hr) as [Hd _]. destruct (Hd due Ht) as [Hf _]. rewrite (ro_flight _ _ _ Hr) in Hf. by destruct (rn_flight r). }
    pose proof (tick_run_ok want made r) as Hrun. destruct (tick now (rn_lane r)) as [[[card p]|] l] eqn:E; intros [= <-].
    + specialize (Hrun card p now Hr Hnone). rewrite E in Hrun. by apply Hrun.
    + unfold tick in E. destruct (la_pending (rn_lane r)) as [|[]] eqn:Hp; [|done]. injection E as <-. destruct Hr as [Hl Hf Hk Hw Hm].
      by split.
  - rewrite app_nil_r. destruct (rn_flight r) as [[card p]|] eqn:Hf; [|done]. intros [= <-]. by eapply landed_run_ok.
Qed.

Lemma edits_ok evs want made r r' : run_ok want made r -> edits evs r = Some r' ->
  run_ok (fold_left (fun want ev => want_after (snd ev) want) evs want) (made ++ promises evs) r'.
Proof.
  revert want made r. induction evs as [|[now ev] evs IH]; intros want made r Hr; cbn [edits].
  - intros [= <-]. by rewrite app_nil_r.
  - destruct (edit_step now ev r) as [r1|] eqn:E; [|done]. cbn [mbind option_bind]. intros H.
    pose proof (IH _ _ _ (edit_step_ok _ _ _ _ _ _ Hr E) H) as H1. unfold promises in *. cbn [fmap list_fmap concat].
    by rewrite <- app_assoc in H1.
Qed.

(** ** An interval between flushes *)

Definition times (r : run) : list Z := fst ∘ fst <$> rn_flushes r.
Record paced (r : run) : Prop := {
  pa_lane : lane_ok (rn_lane r);
  pa_last t : last (times r) = Some t -> t = la_lastFlushAt (rn_lane r);
  pa_apart i t1 t2 : times r !! i = Some t1 -> times r !! S i = Some t2 -> t1 + intervalMs <= t2 }.

Lemma apart_snoc (l : list Z) x : (forall t, last l = Some t -> t + intervalMs <= x) ->
  (forall i t1 t2, l !! i = Some t1 -> l !! S i = Some t2 -> t1 + intervalMs <= t2) ->
  forall i t1 t2, (l ++ [x]) !! i = Some t1 -> (l ++ [x]) !! S i = Some t2 -> t1 + intervalMs <= t2.
Proof.
  intros Hx Hl i t1 t2 H1 H2. destruct (decide (S i < length l)%nat) as [Hlt|Hge].
  - rewrite lookup_app_l in H1, H2 by lia. by eapply Hl.
  - apply lookup_lt_Some in H2 as Hlen. rewrite length_app in Hlen. cbn in Hlen. assert (length l = S i) as Hli by lia.
    rewrite lookup_app_r, Hli, Nat.sub_diag in H2 by lia. injection H2 as <-. rewrite lookup_app_l in H1 by lia.
    apply Hx. rewrite last_lookup, Hli. done.
Qed.

Lemma paced_same r l flight kept now : paced r -> lane_ok l -> la_lastFlushAt l = la_lastFlushAt (rn_lane r) ->
  paced (mkRun l flight (rn_flushes r) kept now).
Proof. intros [H1 H2 H3] Hl E. split; [done| |exact H3]. intros t Ht. cbn. rewrite E. by apply H2. Qed.

Lemma paced_step now ev r r' : paced r -> edit_step now ev r = Some r' -> paced r'.
Proof.
  intros Hr. pose proof (pa_lane _ Hr) as Hl. unfold edit_step. destruct (now <? rn_now r); [done|].
  destruct ev as [card b|card b w|card| |].
  - intros [= <-]. apply paced_same; [done|by apply schedule_ok|apply schedule_last].
  - intros [= <-]. apply paced_same; [done|by apply settle_lane_ok|apply settle_last].
  - pose proof (forget_ok card _ Hl) as Hl'. destruct (forget card (rn_lane r)) as [ws l] eqn:E. intros [= <-].
    apply paced_same; [done|done|]. unfold forget in E. destruct (pending_of _ _); by injection E as <- <-.
  - destruct (la_timer (rn_lane r)) as [due|] eqn:Ht; [|done]. destruct (Z.ltb_spec now due) as [|Hdue]; [done|].
    pose proof (tick_ok now (rn_lane r)) as Hl'. destruct (tick now (rn_lane r)) as [[[card p]|] l] eqn:E; intros [= <-].
    + destruct Hr as [_ H2 H3]. unfold tick in E. destruct (la_pending (rn_lane r)) as [|[c q] rest]; [done|]. injection E as <- <- <-.
      split; [done|..]; unfold times; cbn [rn_flushes]; rewrite fmap_app; cbn.
      * intros t. rewrite last_snoc. by intros [= <-].
      * apply apart_snoc; [|done]. intros t Hlast. destruct Hl as [Hd _]. destruct (Hd due Ht) as [_ Hd']. rewrite (H2 t Hlast). lia.
    + apply paced_same; [done|done|]. unfold tick in E. destruct (la_pending (rn_lane r)) as [|[]]; [by injection E as <-|done].
  - destruct (rn_flight r) as [[card p]|] eqn:Hf; [|done]. intros [= <-]. apply paced_same; [done| |by unfold flushed; rewrite arm_last].
    apply arm_ok. intros due Hdue. destruct Hl as [Hd _]. by destruct (Hd due Hdue).
Qed.

Lemma paced_edits evs r r' : paced r -> edits evs r = Some r' -> paced r'.
Proof.
  revert r. induction evs as [|[now ev] evs IH]; intros r Hr; cbn [edits]; [by intros [= <-]|].
  destruct (edit_step now ev r) as [r1|] eqn:E; [|done]. cbn [mbind option_bind]. apply IH. by eapply paced_step.
Qed.

(** ** The order of a lane *)

(** How many cards are before a card. *)
Fixpoint ahead (card : jstr) (l : list (jstr * Pending B)) : option nat :=
  match l with
  | [] => None
  | (k, _) :: t => if bool_decide (card = k) then Some O else S <$> ahead card t
  end.

Definition fires (ev : edit) : nat := match ev with Fired => 1 | _ => 0 end.
Fixpoint fired (evs : list (Z * edit)) : nat := match evs with [] => 0 | (_, ev) :: t => fires ev + fired t end.
Definition flushed_cards (r : run) : list jstr := snd ∘ fst <$> rn_flushes r.

Lemma ahead_put card c (p : Pending B) l n : ahead card l = Some n -> ahead card (put_pending c p l) = Some n.
Proof.
  revert n. induction l as [|[k q] l IH]; intros n; cbn [ahead put_pending]; [done|].
  case_bool_decide as E.
  - intros [= <-]. case_bool_decide as E2; cbn [ahead]; [by rewrite bool_decide_true by congruence|by rewrite bool_decide_true].
  - destruct (ahead card l) as [m|] eqn:Em; [|done]. intros [= <-]. case_bool_decide as E2; cbn [ahead].
    + rewrite bool_decide_false by congruence. by rewrite Em.
    + rewrite bool_decide_false by done. by rewrite (IH m).
Qed.

Lemma ahead_drop card c (l : list (jstr * Pending B)) n : card <> c -> ahead card l = Some n ->
  exists m, ahead card (drop_pending c l) = Some m /\ (m <= n)%nat.
Proof.
  intros Hne. revert n. induction l as [|[k q] l IH]; intros n; cbn [ahead drop_pending]; [done|].
  case_bool_decide as E.
  - intros [= <-]. rewrite (bool_decide_false (c = k)) by congruence. cbn [ahead]. rewrite bool_decide_true by done. by exists 0%nat.
  - destruct (ahead card l) as [m|] eqn:Em; [|done]. intros [= <-]. case_bool_decide as E2; [exists m; split; [done|lia]|].
    destruct (IH m eq_refl) as (m' & Hm & Hle). exists (S m'). cbn [ahead]. rewrite bool_decide_false by done. rewrite Hm. split; [done|lia].
Qed.

(** Each time the timer fires, a card that waits is flushed or one place
    further on. *)
Lemma ahead_step card now ev r r' n : ev <> Forgotten card -> edit_step now ev r = Some r' ->
  ahead card (la_pending (rn_lane r)) = Some n ->
  card ∈ drop (length (rn_flushes r)) (flushed_cards r') \/
  exists m, ahead card (la_pending (rn_lane r')) = Some m /\ (m + fires ev <= n)%nat.
Proof.
  intros Hev. unfold edit_step. destruct (now <? rn_now r); [done|]. destruct ev as [c b|c b w|c| |].
  - intros [= <-] Ha. right. exists n. cbn [rn_lane]. rewrite schedule_pending. split; [by apply ahead_put|cbn [fires]; lia].
  - intros [= <-] Ha. right. exists n. cbn [rn_lane]. rewrite settle_pending. split; [by apply ahead_put|cbn [fires]; lia].
  - unfold forget. destruct (pending_of c (rn_lane r)); intros [= <-] Ha; right; cbn; [|exists n; split; [done|cbn [fires]; lia]].
    destruct (ahead_drop card c (la_pending (rn_lane r)) n) as (m & Hm & Hle); [congruence|done|]. exists m. split; [done|cbn [fires]; lia].
  - destruct (la_timer (rn_lane r)) as [due|]; [|done]. destruct (now <? due); [done|]. unfold tick.
    destruct (la_pending (rn_lane r)) as [|[c p] rest]; intros [= <-]; [done|]. cbn [ahead]. case_bool_decide as E.
    + intros _. left. unfold flushed_cards. cbn [rn_flushes]. rewrite fmap_app, drop_app_length' by (by rewrite length_fmap).
      subst. by left.
    + destruct (ahead card rest) as [m|] eqn:Em; [|done]. intros [= <-]. right. exists m. cbn. split; [done|cbn [fires]; lia].
  - destruct (rn_flight r) as [[c p]|]; [|done]. intros [= <-] Ha. right. exists n. unfold flushed. cbn [rn_lane].
    rewrite arm_pending. split; [done|cbn [fires]; lia].
Qed.

Lemma flushes_grow now ev r r' : edit_step now ev r = Some r' -> rn_flushes r `prefix_of` rn_flushes r'.
Proof.
  unfold edit_step. destruct (now <? rn_now r); [done|]. destruct ev as [c b|c b w|c| |].
  - by intros [= <-].
  - by intros [= <-].
  - destruct (forget c (rn_lane r)). by intros [= <-].
  - destruct (la_timer (rn_lane r)) as [due|]; [|done]. destruct (now <? due); [done|].
    destruct (tick now (rn_lane r)) as [[[c p]|] l]; intros [= <-]; [by apply prefix_app_r|done].
  - destruct (rn_flight r) as [[c p]|]; [|done]. by intros [= <-].
Qed.
Lemma flushes_grow_all evs r r' : edits evs r = Some r' -> rn_flushes r `prefix_of` rn_flushes r'.
Proof.
  revert r. induction evs as [|[now ev] evs IH]; intros r; cbn [edits]; [by intros [= <-]|].
  destruct (edit_step now ev r) as [r1|] eqn:E; [|done]. cbn [mbind option_bind]. intros H. etransitivity; [by eapply flushes_grow|by apply IH].
Qed.

Lemma ahead_pending card (l : list (jstr * Pending B)) : is_Some (assq card l) -> is_Some (ahead card l).
Proof.
  induction l as [|[k q] l IH]; cbn [ahead]; [by intros []|]. rewrite assq_cons. case_bool_decide; [by eexists|].
  intros Hl. destruct (IH Hl) as [n ->]. by eexists.
Qed.

(** A timer is due an interval after the last flush at the latest, unless
    that is past. *)
Definition prompt (r : run) : Prop :=
  forall due, la_timer (rn_lane r) = Some due -> due <= Z.max (rn_now r) (la_lastFlushAt (rn_lane r) + intervalMs).

Lemma arm_prompt now (l : Lane B) :
  (forall due, la_timer l = Some due -> due <= Z.max now (la_lastFlushAt l + intervalMs)) ->
  forall due, la_timer (arm intervalMs now l) = Some due -> due <= Z.max now (la_lastFlushAt l + intervalMs).
Proof.
  unfold arm. intros Hl due. destruct (la_timer l) as [d|] eqn:E; [rewrite E; apply Hl|]. destruct (la_pending l); [by rewrite E|].
  destruct (la_flushing l); [by rewrite E|]. intros [= <-]. lia.
Qed.

Lemma schedule_prompt card b now (l : Lane B) :
  (forall due, la_timer l = Some due -> due <= Z.max now (la_lastFlushAt l + intervalMs)) ->
  forall due, la_timer (schedule intervalMs card b now l) = Some due -> due <= Z.max now (la_lastFlushAt l + intervalMs).
Proof. intros Hl. by apply (arm_prompt now (set_pending _ l)). Qed.
Lemma settle_prompt card b w now (l : Lane B) :
  (forall due, la_timer l = Some due -> due <= Z.max now (la_lastFlushAt l + intervalMs)) ->
  forall due, la_timer (settle intervalMs card b w now l) = Some due -> due <= Z.max now (la_lastFlushAt l + intervalMs).
Proof.
  intros Hl. pose proof (schedule_prompt card b now l Hl) as Hs. rewrite <- (schedule_last card b now l) in Hs |- *. unfold settle.
  destruct (pending_of card (schedule intervalMs card b now l)); [|exact Hs]. by apply (arm_prompt now (set_pending _ _)).
Qed.

Lemma prompt_step now ev r r' : prompt r -> edit_step now ev r = Some r' -> prompt r'.
Proof.
  intros Hr. unfold edit_step, prompt in *. destruct (Z.ltb_spec now (rn_now r)) as [|Hnow]; [done|].
  assert (Hlane : forall due, la_timer (rn_lane r) = Some due -> due <= Z.max now (la_lastFlushAt (rn_lane r) + intervalMs)).
  { intros due Hdue. specialize (Hr due Hdue). lia. }
  destruct ev as [c b|c b w|c| |].
  - intros [= <-]. cbn [rn_lane rn_now]. rewrite schedule_last. by apply schedule_prompt.
  - intros [= <-]. cbn [rn_lane rn_now]. rewrite settle_last. by apply settle_prompt.
  - unfold forget. destruct (pending_of c (rn_lane r)); intros [= <-]; exact Hlane.
  - destruct (la_timer (rn_lane r)) as [due|]; [|done]. destruct (now <? due); [done|]. unfold tick.
    by destruct (la_pending (rn_lane r)) as [|[c p] rest]; intros [= <-].
  - destruct (rn_flight r) as [[c p]|]; [|done]. intros [= <-]. cbn [rn_lane rn_now]. unfold flushed. rewrite arm_last. by apply (arm_prompt now (set_flushing false (rn_lane r))).
Qed.

Lemma prompt_edits evs r r' : prompt r -> edits evs r = Some r' -> prompt r'.
Proof.
  revert r. induction evs as [|[now ev] evs IH]; intros r Hr; cbn [edits]; [by intros [= <-]|].
  destruct (edit_step now ev r) as [r1|] eqn:E; [|done]. cbn [mbind option_bind]. apply IH. by eapply prompt_step.
Qed.

(** Something is about to happen to a lane in which a card waits: the flush
    under way lands, or the timer fires. *)
Definition moves_on (r : run) : Prop :=
  is_Some (edit_step (rn_now r) Landed r) \/
  exists now, now <= Z.max (rn_now r) (la_lastFlushAt (rn_lane r) + intervalMs) /\ is_Some (edit_step now Fired r).

Lemma waits_moves_on want made r : run_ok want made r -> prompt r -> la_pending (rn_lane r) <> [] -> moves_on r.
Proof.
  intros Hr Hp Hw. destruct (ro_lane _ _ _ Hr) as [_ Hl]. unfold moves_on, edit_step. destruct (Hl Hw) as [[due Hdue]|Hf].
  - right. exists (Z.max (rn_now r) due). split; [specialize (Hp due Hdue); lia|].
    rewrite Hdue, !(proj2 (Z.ltb_ge _ _)) by lia. destruct (tick _ (rn_lane r)) as [[[c p]|] l]; by eexists.
  - left. rewrite Z.ltb_irrefl. rewrite (ro_flight _ _ _ Hr) in Hf. destruct (rn_flight r) as [[c p]|]; [by eexists|done].
Qed.

Lemma ahead_edits card evs r r' n : edits evs r = Some r' -> Forall (fun ev => snd ev <> Forgotten card) evs ->
  ahead card (la_pending (rn_lane r)) = Some n -> (n < fired evs)%nat ->
  card ∈ drop (length (rn_flushes r)) (flushed_cards r').
Proof.
  revert r n. induction evs as [|[now ev] evs IH]; intros r n; cbn [edits fired]; [lia|].
  destruct (edit_step now ev r) as [r1|] eqn:E; [|done]. cbn [mbind option_bind]. intros H [Hev Hevs]%Forall_cons Ha Hn.
  destruct (flushes_grow_all evs r1 r' H) as [l1 E1]. destruct (flushes_grow now ev r r1 E) as [l0 E0].
  destruct (ahead_step card now ev r r1 n Hev E Ha) as [Hin|(m & Hm & Hle)].
  - unfold flushed_cards in *. rewrite E1, fmap_app, drop_app_le by (rewrite length_fmap, E0, length_app; lia).
    apply elem_of_app. by left.
  - assert (Hlt : (m < fired evs)%nat) by lia. specialize (IH r1 m H Hevs Hm Hlt). unfold flushed_cards in *.
    rewrite E0, length_app, <- drop_drop in IH. eapply elem_of_submseteq; [exact IH|]. apply sublist_submseteq, sublist_drop.
Qed.

(** ** The promises of the editor *)

(** Two flushes of a channel's lane are never begun less than the
    interval apart, whatever was scheduled, settled and forgotten between
    them and however long the flushes take. *)
Theorem edits_kept_apart evs now r i t1 t2 : edits evs (new_run now) = Some r ->
  times r !! i = Some t1 -> times r !! S i = Some t2 -> t1 + intervalMs <= t2.
Proof. intros H. eapply pa_apart, (paced_edits evs (new_run now)); [|done]. by split. Qed.

(** No card is left showing an older frame: at any time the last body
    scheduled for it, unless it was forgotten since, is the one it was last
    flushed with, or waits in a lane that moves on by itself; and whoever
    settles a card waits only as long as its body does. *)
Theorem last_edit_is_shown evs now r : edits evs (new_run now) = Some r ->
  (forall card b, wanted evs card = Some b ->
     shown card r = Some b \/ (pe_body <$> pending_of card (rn_lane r) = Some b /\ moves_on r)) /\
  (forall w, w ∈ promises evs -> w ∈ rn_kept r \/ w ∈ waiting r).
Proof.
  intros H. pose proof (edits_ok evs _ _ _ _ (new_run_ok now) H) as Hr. pose proof (prompt_edits evs (new_run now) r) as Hp. split.
  - intros card b Hb. pose proof (ro_want _ _ _ Hr card) as Hw. unfold wanted in Hb.
    destruct (pending_of card (rn_lane r)) as [p|] eqn:E; [|left; rewrite Hb in Hw; by destruct Hw].
    right. split; [cbn; congruence|]. eapply waits_moves_on; [done|by apply Hp|].
    intros Hn. unfold pending_of in E. by rewrite Hn in E.
  - intros w Hw. destruct (ro_promises _ _ _ Hr w Hw); [by right|by left].
Qed.

(** A card that waits in its lane is flushed by the time the timer has
    fired once for every card before it and once more, however often those
    cards and it are scheduled anew. *)
Theorem pending_edit_is_flushed card n r evs' r' :
  ahead card (la_pending (rn_lane r)) = Some n -> edits evs' r = Some r' ->
  Forall (fun ev => snd ev <> Forgotten card) evs' -> (n < fired evs')%nat ->
  card ∈ drop (length (rn_flushes r)) (flushed_cards r').
Proof. intros Ha H Hevs Hn. by eapply ahead_edits. Qed.
End Edits.
Arguments edit B : clear implicits.
Arguments run B : clear implicits.

(** Two cards of a channel, one redrawn while the other is flushed. *)
Definition demo_edits : list (Z * edit nat) :=
  [(5000, Scheduled (js "a") 1%nat); (5000, Fired); (5100, Scheduled (js "b") 2%nat); (5150, Scheduled (js "a") 3%nat);
   (5200, Settled (js "a") 4%nat 9%nat); (5300, Landed)].
Definition demo_later : list (Z * edit nat) := [(6000, Fired); (6400, Landed); (7000, Fired)].
Definition demo_run : run nat := default (new_run 5000) (edits 1000 demo_edits (new_run 5000)).
Definition demo_end : run nat := default (new_run 5000) (edits 1000 (demo_edits ++ demo_later) (new_run 5000)).

Lemma edits_kept_apart_witness : 5000 + 1000 <= 6000 /\ times demo_end = [5000; 6000; 7000].
Proof.
  split; [|evaluated].
  apply (edits_kept_apart 1000 (demo_edits ++ demo_later) 5000 demo_end 0 5000 6000); [apply some_default|..]; evaluated.
Defined.

Lemma last_edit_is_shown_witness :
  (shown (js "a") demo_run = Some 4%nat \/ (pe_body <$> pending_of (js "a") (rn_lane demo_run) = Some 4%nat /\ moves_on 1000 demo_run)) /\
  (9%nat ∈ rn_kept demo_run \/ 9%nat ∈ waiting demo_run).
Proof.
  destruct (last_edit_is_shown 1000 demo_edits 5000 demo_run) as [Hbody Hwaiter]; [apply some_default; evaluated|].
  split; [apply Hbody; evaluated|apply Hwaiter]. apply (bool_decide_eq_true_1 _). evaluated.
Defined.

Lemma pending_edit_is_flushed_witness :
  js "a" ∈ drop (length (rn_flushes demo_run)) (flushed_cards (default demo_run (edits 1000 demo_later demo_run))).
Proof.
  apply (pending_edit_is_flushed 1000 (js "a") 1 demo_run demo_later); [evaluated|apply some_default; evaluated| |vm_compute; lia].
  repeat constructor; discriminate.
Defined.
