(* ===== verification/DiscordEngine.v ===== *)
(** [apps/discord/src/engine.ts]: the policy machine between Discord and one
    agent: the turn table, the turn card and the failure table. Every async
    method is a program over the engine's state; what it awaits of Discord
    and of the agent is a request the world answers. *)

From S2P Require Import Prelude A2A A2AClient Activity Envelope SessionId Markdown Async Values.
From S2P Require Import DiscordState DiscordCard DiscordTranslate DiscordEditor.
#[local] Open Scope nat_scope.

(** ** Options and constants *)

Inductive Queueing := Harness | Bridge.
Inductive ContextPolicy := Native | Replay.

(** [eo_bindings] in the order of the object's keys. *)
Record EngineOptions := mkEngineOptions {
  eo_agent : jstr;
  eo_guildId : jstr;
  eo_operators : list jstr;
  eo_testBots : list jstr;
  eo_queueing : Queueing;
  eo_context : ContextPolicy;
  eo_fileBaseUrl : option jstr;
  eo_bindings : list (jstr * jstr);
  eo_editIntervalMs : Z;
  eo_forwardHoldMs : Z;
  eo_textLimit : option Z }.

Definition MESSAGE_TYPES : list Z := [0; 19]%Z.
Definition PLAIN_LIMIT : nat := 2000.
Definition REPLAY_LIMIT : nat := 50.
Definition THINKING : jstr := js "Thinking…".
Definition FORWARD_HOLD_MS : Z := 6000.
Definition META_FILE_SIZE : jstr := js "thicket.fileSize".

Definition TERMINAL (state : TaskState) : bool :=
  match state with
  | TASK_STATE_COMPLETED | TASK_STATE_FAILED | TASK_STATE_CANCELED | TASK_STATE_REJECTED => true
  | _ => false
  end.

(** Of [api.ts]: the types of channels, and what a channel is known by. *)
Definition DM : Z := 1.
Definition GUILD_FORUM : Z := 15.
Definition GUILD_MEDIA : Z := 16.
Definition THREAD_TYPES : list Z := [10; 11; 12]%Z.
Definition DEFERRED_UPDATE : Z := 6.

Record ChannelInfo := mkChannelInfo {
  ci_id : jstr;
  ci_type : Z;
  ci_guildId : option jstr;
  ci_parentId : option jstr }.

Record PlainMessage := mkPlain {
  pm_text : jstr;
  pm_replyTo : option jstr;
  pm_ping : bool }.

Record HistoryMessage := mkHistory {
  hm_id : jstr;
  hm_authorId : jstr;
  hm_authorIsApp : bool;
  hm_text : jstr }.

(** [threadName] of [discord-api.ts]: a mention is [<@], no [>], and [>]. *)
Definition mention_length (s : jstr) : option nat :=
  if negb (starts_with (js "<@") s) then None else
  let inner := take_while (fun c => negb (c =? 62)%N) (drop 2 s) in
  match inner, drop (2 + length inner) s with
  | _ :: _, _ :: _ => Some (3 + length inner)
  | _, _ => None
  end.
Fixpoint without_mentions (skip : nat) (s : jstr) : jstr :=
  match s with
  | [] => []
  | c :: t =>
      match skip with
      | S k => without_mentions k t
      | O => match mention_length s with Some n => without_mentions (n - 1) t | None => c :: without_mentions 0 t end
      end
  end.
Definition THREAD_NAME_MAX : nat := 100.
Definition threadName (text : jstr) : jstr :=
  let flat := trim (collapse_ws (without_mentions 0 text)) in
  match flat with
  | [] => js "conversation"
  | _ => if length flat <=? THREAD_NAME_MAX then flat else take (THREAD_NAME_MAX - 1) flat ++ ellipsis
  end.

Definition filePart (url : jstr) (file : RecordedFile) : part :=
  mkPart (CUrl url) (rf_contentType file) (rf_name file) (VObj [(META_FILE_SIZE, VNum (rf_size file))]).

(** ** What is awaited *)

(** [RqAfter], [RqHeld] and [RqFlushed] await promises of the engine's own: an
    earlier turn of the same channel, a forward that is held, and a card's
    edit. *)
Inductive request :=
| RqFetchCard
| RqSend (message : Message)
| RqCancel (taskId : jstr)
| RqChannelInfo (channel : jstr)
| RqCreateThread (channel messageId name : jstr)
| RqPostCard (channel : jstr) (body : CardBody)
| RqEditCard (channel messageId : jstr) (body : CardBody)
| RqPostMessage (channel : jstr) (message : PlainMessage)
| RqRespond (interactionId token : jstr) (type : Z)
| RqRespondEphemeral (interactionId token text : jstr)
| RqReadMessages (channel : jstr) (limit : nat)
| RqAfter (promise : option nat)
| RqHeld (promise : nat)
| RqFlushed (promise : nat).

Definition answer (r : request) : Type :=
  match r with
  | RqFetchCard => bool
  | RqSend _ => Task
  | RqChannelInfo _ => ChannelInfo
  | RqCreateThread _ _ _ | RqPostCard _ _ | RqPostMessage _ _ => jstr
  | RqReadMessages _ _ => list HistoryMessage
  | _ => unit
  end.

(** The agent's event streams. *)
Inductive source :=
| SrcStream (message : Message)
| SrcResubscribe (taskId : jstr).

(** What is noted as it happens, with the call it happens in. The typing
    indicator is asked for and not waited for. *)
Inductive note_ :=
| Sent (r : request)
| Got (r : request) (a : result (answer r))
| Opened (src : source)
| Heard (src : source) (event : option A2AEvent)
| Typed (channel : jstr).

(** ** State *)

Record Draft := mkDraft {
  dr_channel : jstr;
  dr_messageId : option jstr;
  dr_status : jstr;
  dr_steps : list CardStep;
  dr_text : jstr;
  dr_cursor : Cursor;
  dr_replyTo : option jstr;
  dr_stale : bool;
  dr_silent : bool;
  dr_abandoned : bool;
  dr_buffered : jstr }.

Definition put_messageId (v : option jstr) (d : Draft) : Draft :=
  mkDraft (dr_channel d) v (dr_status d) (dr_steps d) (dr_text d) (dr_cursor d) (dr_replyTo d) (dr_stale d) (dr_silent d) (dr_abandoned d) (dr_buffered d).
Definition put_steps (status : jstr) (steps : list CardStep) (d : Draft) : Draft :=
  mkDraft (dr_channel d) (dr_messageId d) status steps (dr_text d) (dr_cursor d) (dr_replyTo d) (dr_stale d) (dr_silent d) (dr_abandoned d) (dr_buffered d).
Definition put_text (text : jstr) (cursor : Cursor) (d : Draft) : Draft :=
  mkDraft (dr_channel d) (dr_messageId d) (dr_status d) (dr_steps d) text cursor (dr_replyTo d) (dr_stale d) (dr_silent d) (dr_abandoned d) (dr_buffered d).
Definition put_stale (v : bool) (d : Draft) : Draft :=
  mkDraft (dr_channel d) (dr_messageId d) (dr_status d) (dr_steps d) (dr_text d) (dr_cursor d) (dr_replyTo d) v (dr_silent d) (dr_abandoned d) (dr_buffered d).
Definition put_buffered (v : jstr) (d : Draft) : Draft :=
  mkDraft (dr_channel d) (dr_messageId d) (dr_status d) (dr_steps d) (dr_text d) (dr_cursor d) (dr_replyTo d) (dr_stale d) (dr_silent d) (dr_abandoned d) v.

(** What is scheduled with the editor: the task and the body. *)
Abbreviation frame := (jstr * CardBody)%type.

(** A draft is an object that outlives its entry in [drafts]: [ca_drafts]
    holds, for each task, its object's place in [ca_objects]. *)
Record cards := mkCards {
  ca_drafts : gmap jstr nat;
  ca_objects : gmap nat Draft;
  ca_made : nat;
  ca_lanes : gmap jstr (Lane frame) }.

(** A forward that waits for its comment: the promise it waits by, and when
    the wait is over. *)
Record Held := mkHeld {
  he_event : MessageEvent;
  he_promise : nat;
  he_due : Z }.

(** [ro_chains] holds, for each channel, the turn whose promise is its
    chain's end. *)
Record rooms := mkRooms {
  ro_chains : gmap jstr nat;
  ro_turnsOpen : gmap jstr Z;
  ro_typing : gset jstr;
  ro_held : gmap jstr Held }.

(** [en_promises] numbers the promises, [en_kept] holds those that are
    settled and [en_released] the holds that a comment released; [en_self] is
    what the Gateway last said the bot is. *)
Record engine := mkEngine {
  en_cards : cards;
  en_rooms : rooms;
  en_store : BridgeState;
  en_self : option jstr;
  en_promises : nat;
  en_kept : gset nat;
  en_released : gset nat;
  en_now : Z;
  en_running : nat;
  en_log : list (nat * note_) }.

Definition new_engine (store : BridgeState) : engine :=
  mkEngine (mkCards ∅ ∅ 0 ∅) (mkRooms ∅ ∅ ∅ ∅) store None 0 ∅ ∅ 0%Z 0 [].

Definition set_drafts (v : gmap jstr nat) (x : cards) : cards := mkCards v (ca_objects x) (ca_made x) (ca_lanes x).
Definition set_objects (v : gmap nat Draft) (x : cards) : cards := mkCards (ca_drafts x) v (ca_made x) (ca_lanes x).
Definition set_lanes (v : gmap jstr (Lane frame)) (x : cards) : cards := mkCards (ca_drafts x) (ca_objects x) (ca_made x) v.

Definition set_chains (v : gmap jstr nat) (x : rooms) : rooms := mkRooms v (ro_turnsOpen x) (ro_typing x) (ro_held x).
Definition set_turnsOpen (v : gmap jstr Z) (x : rooms) : rooms := mkRooms (ro_chains x) v (ro_typing x) (ro_held x).
Definition set_typing (v : gset jstr) (x : rooms) : rooms := mkRooms (ro_chains x) (ro_turnsOpen x) v (ro_held x).
Definition set_held (v : gmap jstr Held) (x : rooms) : rooms := mkRooms (ro_chains x) (ro_turnsOpen x) (ro_typing x) v.

Definition set_cards (v : cards) (x : engine) : engine :=
  mkEngine v (en_rooms x) (en_store x) (en_self x) (en_promises x) (en_kept x) (en_released x) (en_now x) (en_running x) (en_log x).
Definition set_rooms (v : rooms) (x : engine) : engine :=
  mkEngine (en_cards x) v (en_store x) (en_self x) (en_promises x) (en_kept x) (en_released x) (en_now x) (en_running x) (en_log x).
Definition set_store (v : BridgeState) (x : engine) : engine :=
  mkEngine (en_cards x) (en_rooms x) v (en_self x) (en_promises x) (en_kept x) (en_released x) (en_now x) (en_running x) (en_log x).
Definition set_self (v : option jstr) (x : engine) : engine :=
  mkEngine (en_cards x) (en_rooms x) (en_store x) v (en_promises x) (en_kept x) (en_released x) (en_now x) (en_running x) (en_log x).
Definition set_promises (v : nat) (x : engine) : engine :=
  mkEngine (en_cards x) (en_rooms x) (en_store x) (en_self x) v (en_kept x) (en_released x) (en_now x) (en_running x) (en_log x).
Definition set_kept (v : gset nat) (x : engine) : engine :=
  mkEngine (en_cards x) (en_rooms x) (en_store x) (en_self x) (en_promises x) v (en_released x) (en_now x) (en_running x) (en_log x).
Definition set_released (v : gset nat) (x : engine) : engine :=
  mkEngine (en_cards x) (en_rooms x) (en_store x) (en_self x) (en_promises x) (en_kept x) v (en_now x) (en_running x) (en_log x).
Definition set_turn (now : Z) (running : nat) (x : engine) : engine :=
  mkEngine (en_cards x) (en_rooms x) (en_store x) (en_self x) (en_promises x) (en_kept x) (en_released x) now running (en_log x).
Definition set_log (v : list (nat * note_)) (x : engine) : engine :=
  mkEngine (en_cards x) (en_rooms x) (en_store x) (en_self x) (en_promises x) (en_kept x) (en_released x) (en_now x) (en_running x) v.

Definition on_cards (f : cards -> cards) (e : engine) : engine := set_cards (f (en_cards e)) e.
Definition on_rooms (f : rooms -> rooms) (e : engine) : engine := set_rooms (f (en_rooms e)) e.
Definition on_store (f : Z -> BridgeState -> BridgeState) (e : engine) : engine := set_store (f (en_now e) (en_store e)) e.
Definition keep (promises : list nat) (e : engine) : engine := set_kept (list_to_set promises ∪ en_kept e) e.

Definition noted (n : note_) (e : engine) : engine := set_log (en_log e ++ [(en_running e, n)]) e.

(** How the world sees a call: its requests and their answers are noted. *)
Definition issue (r : request) : engine -> engine := noted (Sent r).
Definition receive (r : request) (a : result (answer r)) : engine -> engine := noted (Got r a).
Definition yielded (src : source) (event : option A2AEvent) : engine -> engine := noted (Heard src event).
Definition enter (t : nat) (now : Z) : engine -> engine := set_turn now t.
Definition ready (r : request) (e : engine) : bool :=
  match r with
  | RqAfter (Some promise) | RqHeld promise | RqFlushed promise => bool_decide (promise ∈ en_kept e)
  | _ => true
  end.

Abbreviation cmd := (prog engine source A2AEvent answer).

Definition ask (r : request) : cmd (answer r) := call r.

#[local] Open Scope async_scope.

Section Engine.
Context (options : EngineOptions).
(** SHA-1, and whether [Number(v) === 0] for a value that is not a number. *)
Context (sha1 : list N -> list N) (zero_number : jsval -> bool).

Definition agent : jstr := eo_agent options.
Definition fileBaseUrl : option jstr := drop_trailing (fun c => c =? 47)%N <$> eo_fileBaseUrl options.

(** ** Drafts *)

Definition new_draft (channel : jstr) (replyTo : option jstr) : Draft :=
  mkDraft channel None THINKING [] [] START replyTo false false false [].

(** An object the engine holds on to. *)
Definition draft_at (d : nat) (e : engine) : Draft := default (new_draft [] None) (ca_objects (en_cards e) !! d).
Definition draft_of (taskId : jstr) (e : engine) : option nat := ca_drafts (en_cards e) !! taskId.
Definition change (d : nat) (f : Draft -> Draft) : cmd unit :=
  update (on_cards (fun x => set_objects (alter f d (ca_objects x)) x)).
Definition make_draft (taskId : jstr) (draft : Draft) (x : cards) : cards :=
  mkCards (<[taskId := ca_made x]> (ca_drafts x)) (<[ca_made x := draft]> (ca_objects x)) (S (ca_made x)) (ca_lanes x).

(** [draft]: the task's, made when there is none. *)
Definition draft (taskId channel : jstr) (replyTo : option jstr) : cmd nat :=
  read (fun e =>
    match draft_of taskId e with
    | Some d => Ret d
    | None => update (on_cards (make_draft taskId (new_draft channel replyTo))) ;;; Ret (ca_made (en_cards e))
    end).

Definition view (draft : Draft) (state : CardState) : CardView := mkView state (dr_status draft) (dr_steps draft) (dr_text draft).

Definition body (draft : Draft) (state : CardState) : CardBody :=
  let rendered := renderCard (view draft state) in
  mkBody (if dr_silent draft then Z.lor (cb_flags rendered) SUPPRESS_NOTIFICATIONS else cb_flags rendered)
    (cb_components rendered) (cb_allowed_mentions rendered).

Definition budget (draft : Draft) : Z :=
  let full := textBudget (dr_status draft) (dr_steps draft) in
  match eo_textLimit options with None => full | Some limit => Z.min full limit end.

(** ** The editor *)

Definition interval : Z := eo_editIntervalMs options.
Definition lane_of (channel : jstr) (e : engine) : Lane frame := default new_lane (ca_lanes (en_cards e) !! channel).
Definition put_lane (channel : jstr) (l : Lane frame) : engine -> engine :=
  on_cards (fun x => set_lanes (<[channel := l]> (ca_lanes x)) x).

Definition editor_schedule (channel messageId : jstr) (b : frame) (e : engine) : engine :=
  put_lane channel (schedule interval messageId b (en_now e) (lane_of channel e)) e.

Definition editor_settle (channel messageId : jstr) (b : frame) : cmd unit :=
  read (fun e =>
    update (fun e => set_promises (S (en_promises e))
                       (put_lane channel (settle interval messageId b (en_promises e) (en_now e) (lane_of channel e)) e)) ;;;
    ask (RqFlushed (en_promises e))).

Definition editor_forget (channel messageId : jstr) (e : engine) : engine :=
  match ca_lanes (en_cards e) !! channel with
  | None => e
  | Some l => let (waiters, l') := forget messageId l in keep waiters (put_lane channel l' e)
  end.

(** ** The card *)

Definition persist_card (taskId : jstr) (draft : Draft) (s : BridgeState) : BridgeState :=
  match dr_messageId draft with
  | None => s
  | Some messageId => setCard taskId (Some (mkCardRecord messageId (dr_status draft) (dr_steps draft) (dr_text draft))) s
  end.
Definition persist (taskId : jstr) (d : nat) : cmd unit :=
  update (fun e => on_store (fun _ => persist_card taskId (draft_at d e)) e).

Definition lost (draft : Draft) : Draft :=
  mkDraft (dr_channel draft) None (dr_status draft) (dr_steps draft) [] (dr_cursor draft) (dr_replyTo draft) (dr_stale draft)
    (dr_silent draft) true (dr_text draft ++ dr_buffered draft).

Definition abandon (taskId : jstr) (d : nat) : cmd unit :=
  update (fun e => match dr_messageId (draft_at d e) with
                   | Some messageId => editor_forget (dr_channel (draft_at d e)) messageId e
                   | None => e
                   end) ;;;
  change d lost ;;;
  update (on_store (fun _ => setCard taskId None)).

Definition flushCard (channel messageId : jstr) (b : frame) : cmd unit :=
  let (taskId, card) := b in
  try_catch
    (ask (RqEditCard channel messageId card) ;;;
     read (fun e =>
       match draft_of taskId e with
       | Some d => if decide (dr_messageId (draft_at d e) = Some messageId) then persist taskId d else skip_
       | None => skip_
       end))
    (fun _ => read (fun e => match draft_of taskId e with Some d => abandon taskId d | None => skip_ end)).

(** [tick] of the editor: what a lane's timer does. *)
Definition lane_flushed (channel : jstr) (waiters : list nat) (e : engine) : engine :=
  keep waiters (put_lane channel (flushed interval (en_now e) (lane_of channel e)) e).
Definition flush_lane (channel : jstr) : cmd unit :=
  read (fun e =>
    let (next, l) := tick (en_now e) (lane_of channel e) in
    update (put_lane channel l) ;;;
    match next with
    | None => skip_
    | Some (messageId, p) =>
        try_finally (try_catch (flushCard channel messageId (pe_body p)) (fun _ => skip_))
          (update (lane_flushed channel (pe_waiters p)))
    end).

Definition draw (taskId : jstr) (d : nat) (state : CardState) : cmd unit :=
  read (fun e =>
    let draft := draft_at d e in
    match dr_messageId draft with
    | None =>
        let* posted := attempt (ask (RqPostCard (dr_channel draft) (body draft state))) (fun r => Ret r) in
        match posted with
        | Exn _ => abandon taskId d
        | Val messageId => change d (put_messageId (Some messageId)) ;;; persist taskId d
        end
    | Some messageId => update (editor_schedule (dr_channel draft) messageId (taskId, body draft state))
    end).

(** The card's text, its open fence closed. *)
Definition closed_off (draft : Draft) : Draft :=
  put_text (dr_text draft ++ match cu_fence (dr_cursor draft) with None => [] | Some f => 10%N :: f_marker f end) (dr_cursor draft) draft.

(** The last edit of a card, waited for: of one that nothing more will go
    into, and of one whose turn is over. *)
Definition settle_as (taskId : jstr) (d : nat) (state : CardState) : cmd unit :=
  read (fun e =>
    let draft := draft_at d e in
    match dr_messageId draft with
    | None => skip_
    | Some messageId => editor_settle (dr_channel draft) messageId (taskId, body (closed_off draft) state)
    end).
Definition freeze (d : nat) (taskId : jstr) : cmd unit := settle_as taskId d Frozen.

Definition turned_over (draft : Draft) : Draft :=
  mkDraft (dr_channel draft) None (dr_status draft) (carriedSteps (dr_steps draft)) []
    (match cu_fence (dr_cursor draft) with None => dr_cursor draft | Some f => mkCursor (Some f) [] end)
    None false true (dr_abandoned draft) (dr_buffered draft).
Definition rollOver (taskId : jstr) (d : nat) : cmd unit := freeze d taskId ;;; change d turned_over.

Definition mark_stale (channel : jstr) (draft : Draft) : Draft :=
  if decide (dr_channel draft = channel /\ dr_messageId draft <> None) then put_stale true draft else draft.
Definition markStale (channel : jstr) : engine -> engine :=
  on_cards (fun x => set_objects (map_fold (fun _ d objects => alter (mark_stale channel) d objects) (ca_objects x) (ca_drafts x)) x).

Definition cutIfStale (taskId : jstr) (d : nat) : cmd unit :=
  read (fun e => if dr_stale (draft_at d e) then rollOver taskId d else skip_).

(** What a chunk adds to a draft. *)
Definition take_in (prefix : jstr) (chunk : Chunk) (draft : Draft) : Draft :=
  put_text (dr_text draft ++ prefix ++ ch_head chunk) (ch_cursor chunk) draft.

(** The loop of [appendText]; running out of fuel is an error of its own. *)
Definition out_of_fuel : jstr := js "out of fuel".
Fixpoint append_loop (fuel : nat) (taskId : jstr) (d : nat) (rest : jstr) : cmd unit :=
  match rest, fuel with
  | [], _ => skip_
  | _, O => Throw out_of_fuel
  | _, S fuel' =>
      read (fun e =>
        let draft := draft_at d e in
        let prefix := match dr_text draft with [] => reopen (dr_cursor draft) | _ => [] end in
        let room := (budget draft - Z.of_nat (length (dr_text draft)) - Z.of_nat (length prefix))%Z in
        if negb (jeqb (dr_text draft) []) && (room <? 1)%Z then
          rollOver taskId d ;;;
          append_loop fuel' taskId d rest
        else
          let chunk := takeChunk rest (Z.max room 1) (dr_cursor draft) in
          change d (take_in prefix chunk) ;;;
          draw taskId d Working ;;;
          (if jeqb (ch_rest chunk) [] then skip_ else rollOver taskId d) ;;;
          append_loop fuel' taskId d (ch_rest chunk))
  end.

Definition appendText (taskId channel : jstr) (replyTo : option jstr) (text : jstr) : cmd unit :=
  let* d := draft taskId channel replyTo in
  read (fun e =>
    if dr_abandoned (draft_at d e) then change d (fun x => put_buffered (dr_buffered x ++ text) x) else
    cutIfStale taskId d ;;;
    append_loop (2 * length text) taskId d text).

(** A step whose id is known keeps its place. *)
Fixpoint put_step (step : CardStep) (steps : list CardStep) : list CardStep :=
  match steps with
  | [] => [step]
  | s :: t => if jeqb (cs_id s) (cs_id step) then step :: t else s :: put_step step t
  end.
Definition step_status (steps : list CardStep) : jstr :=
  match last (filter (fun s => cs_status s = Running) steps) with
  | None => THINKING
  | Some running => cs_title running ++ ellipsis
  end.
Definition take_step (activity : AgentActivity) (draft : Draft) : Draft :=
  let steps := put_step (mkStep (a_id activity) (a_title activity) (a_status activity)) (dr_steps draft) in
  put_steps (step_status steps) steps draft.

Definition applyActivity (taskId channel : jstr) (replyTo : option jstr) (activity : AgentActivity) : cmd unit :=
  let* d := draft taskId channel replyTo in
  read (fun e =>
    if dr_abandoned (draft_at d e) then skip_ else
    cutIfStale taskId d ;;;
    change d (take_step activity) ;;;
    read (fun e' =>
      let draft := draft_at d e' in
      if negb (jeqb (dr_text draft) []) && (budget draft <? Z.of_nat (length (dr_text draft)))%Z
      then rollOver taskId d
      else draw taskId d Working)).

(** ** Plain messages and the typing indicator *)

Definition plain_text (text : jstr) : jstr :=
  if length text <=? PLAIN_LIMIT then text else take (PLAIN_LIMIT - 1) text ++ ellipsis.
Definition say (channel text : jstr) (replyTo : option jstr) (ping : bool) : cmd unit :=
  try_catch (ask (RqPostMessage channel (mkPlain (plain_text text) replyTo ping)) ;;; skip_) (fun _ => skip_).

(** Only the first piece is a reply. *)
Definition sayLong (channel text : jstr) (replyTo : option jstr) : cmd unit :=
  match default [] (splitMarkdown text (Z.of_nat PLAIN_LIMIT)) with
  | [] => skip_
  | first :: others =>
      say channel first replyTo false ;;;
      for_list others (fun piece => say channel piece None false)
  end.

Definition startTyping (channel : jstr) (e : engine) : engine :=
  if decide (channel ∈ ro_typing (en_rooms e)) then e
  else on_rooms (fun x => set_typing ({[channel]} ∪ ro_typing x) x) (noted (Typed channel) e).
Definition stopTyping (channel : jstr) : engine -> engine := on_rooms (fun x => set_typing (ro_typing x ∖ {[channel]}) x).

(** ** The status *)

Definition settleCard (taskId : jstr) (d : nat) (state : CardState) : cmd unit :=
  read (fun e =>
    let draft := draft_at d e in
    if dr_abandoned draft then skip_ else
    match dr_messageId draft with
    | None => draw taskId d state
    | Some _ => settle_as taskId d state
    end).

Definition card_state (state : TaskState) : CardState :=
  match state with
  | TASK_STATE_COMPLETED => Completed
  | TASK_STATE_CANCELED => Cancelled
  | _ => CardFailed
  end.

(** No step is left running. *)
Definition close_step (state : CardState) (s : CardStep) : CardStep :=
  if decide (cs_status s = Running)
  then mkStep (cs_id s) (cs_title s) (if decide (state = Completed) then Done else Failed) else s.
Definition conclude (state : CardState) (draft : Draft) : Draft :=
  put_steps (terminalStatus state) (close_step state <$> dr_steps draft) draft.
Definition put_status (status : jstr) (draft : Draft) : Draft := put_steps status (dr_steps draft) draft.

(** [Number(metadata?.[META_QUEUED_TURN_COUNT] ?? 0) === 0]. *)
Definition no_turns_queued (metadata : jsval) : bool :=
  match or_else (prop metadata META_QUEUED_TURN_COUNT) (VNum 0) with VNum n => (n =? 0)%Z | v => zero_number v end.

Definition turns_open (channel : jstr) (e : engine) : Z := default 0%Z (ro_turnsOpen (en_rooms e) !! channel).

Definition conclude_card (taskId channel : jstr) (replyTo : option jstr) (state : CardState) : cmd unit :=
  read (fun e =>
    match draft_of taskId e with
    | None => skip_
    | Some d =>
        change d (conclude state) ;;;
        settleCard taskId d state ;;;
        read (fun e' =>
          let buffered := dr_buffered (draft_at d e') in
          if jeqb (trim buffered) [] then skip_ else sayLong channel buffered replyTo) ;;;
        update (on_cards (fun x => set_drafts (delete taskId (ca_drafts x)) x))
    end).

Definition applyStatus (taskId : jstr) (state : TaskState) (channel : jstr) (replyTo messageText : option jstr)
    (metadata : jsval) : cmd unit :=
  if decide (state = TASK_STATE_AUTH_REQUIRED) then
    say channel (default (agent ++ js " needs authentication before it can continue.") messageText) replyTo true
  else if decide (state = TASK_STATE_INPUT_REQUIRED) then
    read (fun e =>
      match draft_of taskId e with
      | None => skip_
      | Some d => change d (put_status (terminalStatus Waiting)) ;;; settleCard taskId d Waiting
      end) ;;;
    say channel (default (agent ++ js " is waiting for your answer.") messageText) replyTo true
  else if negb (TERMINAL state) then skip_
  else
    conclude_card taskId channel replyTo (card_state state) ;;;
    (if decide (state = TASK_STATE_FAILED \/ state = TASK_STATE_REJECTED)
     then say channel (default (agent ++ js " could not complete this request.") messageText) replyTo true
     else skip_) ;;;
    update (on_store (fun _ => removeTask taskId)) ;;;
    update (fun e => if no_turns_queued metadata && (turns_open channel e <=? 1)%Z then stopTyping channel e else e).

(** ** The pump *)

Definition saveMintedContext (channel contextId : jstr) (s : BridgeState) : BridgeState :=
  let row := contextFor agent channel s in
  saveContext agent channel
    (mkContextRow contextId (match row with Some r => cx_answerer r | None => true end) (row ≫= cx_parent)) s.

Definition record_task (task : Task) (channel : jstr) (sentContextId replyTo authorId : option jstr) (now : Z)
    (s : BridgeState) : BridgeState :=
  let s1 := match taskById (at_id task) s with
            | None => recordTask (mkInFlight (at_id task) agent channel replyTo authorId None) now s
            | Some _ => s
            end in
  match sentContextId with
  | Some sent => if jeqb (at_contextId task) sent then s1 else saveMintedContext channel (at_contextId task) s1
  | None => s1
  end.

Definition handleA2AEvent (channel : jstr) (sentContextId replyTo authorId : option jstr) (event : A2AEvent) : cmd unit :=
  match event with
  | AeTask task =>
      update (on_store (record_task task channel sentContextId replyTo authorId)) ;;;
      match at_status task with
      | Some (TASK_STATE_WORKING, _) | Some (TASK_STATE_SUBMITTED, _) =>
          let* d := draft (at_id task) channel replyTo in
          read (fun e =>
            if decide (dr_messageId (draft_at d e) = None /\ dr_abandoned (draft_at d e) = false)
            then draw (at_id task) d Working else skip_)
      | Some (state, _) => applyStatus (at_id task) state channel replyTo None VUndef
      | None => skip_
      end
  | AeArtifact taskId text _ _ => appendText taskId channel replyTo text
  | AeActivity taskId activities => for_list activities (applyActivity taskId channel replyTo)
  | AeStatus taskId _ state messageText metadata => applyStatus taskId state channel replyTo messageText metadata
  end.

Definition open_turn (channel : jstr) (e : engine) : engine :=
  on_rooms (set_turnsOpen (<[channel := (turns_open channel e + 1)%Z]> (ro_turnsOpen (en_rooms e)))) e.
Definition close_turn (channel : jstr) (e : engine) : engine :=
  let left := (default 1 (ro_turnsOpen (en_rooms e) !! channel) - 1)%Z in
  let e1 := on_rooms (set_turnsOpen (<[channel := left]> (ro_turnsOpen (en_rooms e)))) e in
  if (left =? 0)%Z then stopTyping channel e1 else e1.

Definition pumpTracked (src : source) (channel : jstr) (sentContextId replyTo authorId : option jstr) : cmd unit :=
  update (open_turn channel) ;;;
  try_finally
    (update (noted (Opened src)) ;;; for_each src (handleA2AEvent channel sentContextId replyTo authorId))
    (update (close_turn channel)).

(** ** What the agent is sent *)

Definition deriveContextId (channel : jstr) (epoch : option jstr) : jstr :=
  default [] (deriveSessionId sha1 (js "discord") (match epoch with None => channel | Some e => channel ++ js ":" ++ e end)).

Definition contextIdFor (channel : jstr) (e : engine) : jstr :=
  match contextFor agent channel (en_store e) with Some row => cx_contextId row | None => deriveContextId channel None end.
Definition parent_of (channel : jstr) (e : engine) : option jstr := contextFor agent channel (en_store e) ≫= cx_parent.

Inductive binding := Bound (workspace : option jstr) | Unresolved (error : jstr).

Definition bound_to (channel parent : jstr) : binding :=
  Bound (first_of (assq channel (eo_bindings options)) (assq parent (eo_bindings options))).

Definition workspaceFor (channel : jstr) : cmd binding :=
  match eo_bindings options with
  | [] => Ret (Bound None)
  | _ =>
      read (fun e =>
        match parent_of channel e with
        | Some parent => Ret (bound_to channel parent)
        | None =>
            try_catch
              (let* info := ask (RqChannelInfo channel) in
               Ret (if (ci_type info =? DM)%Z then Bound None else bound_to channel (default channel (ci_parentId info))))
              (fun message => Ret (Unresolved (js "channel lookup failed: " ++ message)))
        end)
  end.

(** [readable]: a mention of the agent itself, with or without [!], is its
    name. *)
Fixpoint renamed (patterns : list jstr) (name : jstr) (skip : nat) (s : jstr) : jstr :=
  match s with
  | [] => []
  | c :: t =>
      match skip with
      | S k => renamed patterns name k t
      | O => match find (fun p => starts_with p s) patterns with
             | Some p => name ++ renamed patterns name (length p - 1) t
             | None => c :: renamed patterns name 0 t
             end
      end
  end.
Definition readable (text : jstr) (e : engine) : jstr :=
  match en_self e with
  | None => text
  | Some self => renamed [js "<@" ++ self ++ js ">"; js "<@!" ++ self ++ js ">"] (js "@" ++ agent) 0 text
  end.

Definition is_operator (id : jstr) : bool := bool_decide (id ∈ eo_operators options).

Definition participant (self : option jstr) (id : jstr) (name : option jstr) (isApp : bool) : jsval :=
  VObj ([(js "id", VStr id)] ++ opt_field (js "name") (VStr <$> name)
        ++ [(js "kind", VStr (if bool_decide (Some id = self) || isApp then js "agent"
                              else if is_operator id then js "operator" else js "person"))]
        ++ (if bool_decide (Some id = self) then [(js "self", VBool true)] else [])).

Definition attachment_ref (f : DiscordAttachment) : jsval :=
  VObj [(js "name", VStr (da_name f)); (js "mediaType", VStr (da_contentType f)); (js "size", VNum (da_size f)); (js "url", VStr (da_url f))].
Definition attachment_refs (files : list DiscordAttachment) : list (jstr * jsval) :=
  opt_field (js "attachments") (match files with [] => None | _ => Some (VArr (attachment_ref <$> files)) end).

Definition reply_reference (self : option jstr) (event : MessageEvent) (replyTo : jstr) : jsval :=
  VObj ([(js "kind", VStr (js "reply")); (js "message", VStr replyTo)]
        ++ opt_field (js "author")
             ((fun a => participant self (ra_id a) (ra_name a) (ra_isApp a)) <$> (r ← me_reply event; re_author r))
        ++ opt_field (js "text") (VStr <$> (r ← me_reply event; text ← re_text r; nonempty text))
        ++ attachment_refs (match me_reply event with Some r => re_files r | None => [] end)).
Definition forward_reference (f : Forward) : jsval :=
  VObj ([(js "kind", VStr (js "forward")); (js "text", VStr (fo_text f))] ++ attachment_refs (fo_files f)).
Definition link_reference (url : jstr) : jsval := VObj [(js "kind", VStr (js "link")); (js "url", VStr url)].

Definition references (self : option jstr) (event : MessageEvent) : list jsval :=
  match me_replyTo event with Some replyTo => [reply_reference self event replyTo] | None => [] end
  ++ (forward_reference <$> me_forwards event) ++ (link_reference <$> linksIn (me_text event)).

Definition event_mentions (self : option jstr) (event : MessageEvent) : list jsval :=
  (fun id => participant self id (me_mentionNames event !! id) (bool_decide (id ∈ me_botMentions event))) <$> me_mentions event.

Definition nonempty_array (l : list jsval) : option jsval := match l with [] => None | _ => Some (VArr l) end.

(** [kind] of the envelope's place: what has no server is taken for a DM. *)
Definition place_kind (channel : jstr) (event : option MessageEvent) (e : engine) : jstr :=
  match event ≫= me_guild with
  | None => js "DM"
  | Some _ => match parent_of channel e with Some _ => js "thread" | None => js "channel" end
  end.

Definition envelope (channel messageId : jstr) (event : option MessageEvent) (e : engine) : jsval :=
  let self := en_self e in
  let kind := place_kind channel event e in
  VObj ([(js "surface", VStr (js "discord"));
         (js "place", VObj ([(js "kind", VStr kind); (js "channel", VStr (default channel (parent_of channel e)))]
                            ++ (if jeqb kind (js "thread") then [(js "thread", VStr channel)] else [])
                            ++ [(js "message", VStr messageId)]))]
        ++ opt_field (js "author") ((fun m => participant self (me_authorId m) (me_authorName m) (me_authorIsApp m)) <$> event)
        ++ opt_field (js "mentions") (m ← event; nonempty_array (event_mentions self m))
        ++ opt_field (js "references") (m ← event; nonempty_array (references self m))).

Definition file_url (fileId : jstr) : option jstr :=
  encoded ← encodeURIComponent fileId;
  Some (match fileBaseUrl with Some base => base | None => js "undefined" end ++ js "/files/" ++ encoded).

Definition forwarded_text (forwards : list Forward) : jstr :=
  join_with [10%N; 10%N] ((fun f => js "(forwarded) " ++ fo_text f) <$> forwards).

(** An empty message that forwards others has their text for its own. *)
Definition message_text (text : jstr) (event : option MessageEvent) : jstr :=
  match trim text, event with
  | [], Some m => match me_forwards m with [] => text | forwards => forwarded_text forwards end
  | _, _ => text
  end.

(** [None]: a file's id cannot be encoded. *)
Definition buildMessage (channel text messageId : jstr) (shouldQuery : bool) (fileIds : list jstr) (workspace : option jstr)
    (event : option MessageEvent) (e : engine) : option Message :=
  let files := omap (fun id => fileFor agent id (en_store e)) fileIds in
  fileParts ← mapM (fun file => (fun url => filePart url file) <$> file_url (rf_fileId file)) files;
  Some (mkMessage (js "discord-" ++ channel ++ js "-" ++ messageId) (contextIdFor channel e) [] ROLE_USER
    (textPart (readable (message_text text event) e) :: fileParts)
    (VObj ([(META_DISCORD_CHANNEL, VStr (default channel (parent_of channel e))); (META_DISCORD_THREAD, VStr channel);
            (META_ENVELOPE, envelope channel messageId event e)]
           ++ opt_field META_WORKSPACE (VStr <$> workspace)
           ++ (if shouldQuery then [] else [(META_SHOULD_QUERY, VBool false)])))).

Definition with_message (channel text messageId : jstr) (shouldQuery : bool) (fileIds : list jstr) (workspace : option jstr)
    (event : option MessageEvent) (k : Message -> cmd unit) : cmd unit :=
  read (fun e =>
    match buildMessage channel text messageId shouldQuery fileIds workspace event e with
    | Some message => k message
    | None => Throw (js "URI malformed")
    end).

(** ** Turns *)

Definition transcript_line (m : HistoryMessage) : jstr :=
  js "[" ++ (if hm_authorIsApp m then js "agent" else hm_authorId m) ++ js "] " ++ hm_text m.
Definition replay_text (text messageId : jstr) (history : list HistoryMessage) : jstr :=
  match transcript_line <$> filter (fun m => hm_id m <> messageId /\ hm_text m <> []) history with
  | [] => text
  | transcript =>
      js "Thread so far, replayed because you keep no conversation state:" ++ [10%N]
      ++ join_with [10%N] transcript ++ [10%N; 10%N] ++ js "Current message:" ++ [10%N] ++ text
  end.
Definition withReplayContext (channel text messageId : jstr) : cmd jstr :=
  match eo_context options with
  | Native => Ret text
  | Replay =>
      try_catch
        (let* history := ask (RqReadMessages channel REPLAY_LIMIT) in Ret (replay_text text messageId history))
        (fun _ => Ret text)
  end.

Definition unreachable (channel text messageId : jstr) (fileIds : list jstr) (authorId : jstr) (replyTo : option jstr) : cmd unit :=
  update (on_store (enqueue (mkQueued 0 agent channel text messageId fileIds (Some authorId)))) ;;;
  say channel
    (agent ++ js " is unreachable right now (its machine may be asleep). Your message is queued and will be delivered when it comes back.")
    replyTo true.

Definition part_text (p : part) : jstr := match p_content p with CText s => s | _ => [] end.
Definition final_text (task : Task) : jstr := concat (part_text <$> concat (at_artifacts task)).

Definition finishBlocking (task : Task) (channel contextId : jstr) (replyTo : option jstr) : cmd unit :=
  (if jeqb (at_contextId task) contextId then skip_
   else update (on_store (fun _ => saveMintedContext channel (at_contextId task)))) ;;;
  (if jeqb (final_text task) [] then skip_ else sayLong channel (final_text task) replyTo) ;;;
  applyStatus (at_id task) (match at_status task with Some (state, _) => state | None => TASK_STATE_UNSPECIFIED end)
    channel replyTo None VUndef.

(** The turn once its workspace is known. *)
Definition deliver_turn (channel text messageId : jstr) (fileIds : list jstr) (authorId : jstr) (replyTo : option jstr)
    (event : option MessageEvent) (contextId : jstr) (workspace : option jstr) : cmd unit :=
  let* card := attempt (ask RqFetchCard) (fun r => Ret r) in
  match card with
  | Exn _ => unreachable channel text messageId fileIds authorId replyTo
  | Val streaming =>
      let* outgoing := withReplayContext channel text messageId in
      with_message channel outgoing messageId true fileIds workspace event (fun message =>
        update (startTyping channel) ;;;
        try_catch
          (if streaming
           then pumpTracked (SrcStream message) channel (Some contextId) replyTo (Some authorId)
           else
             let* task := ask (RqSend message) in
             finishBlocking task channel contextId replyTo)
          (fun err =>
             say channel (js "Something went wrong talking to " ++ agent ++ js ": " ++ err) replyTo true ;;;
             update (stopTyping channel)))
  end.

Definition runTurn (channel text messageId : jstr) (fileIds : list jstr) (authorId : jstr) (replyTo : option jstr)
    (event : option MessageEvent) : cmd unit :=
  read (fun e =>
    let contextId := contextIdFor channel e in
    let* bound := workspaceFor channel in
    match bound with
    | Unresolved error =>
        say channel
          (js "I can't tell which channel this is (" ++ error
           ++ js "), so I won't guess which workspace to work in. Try again in a moment.") replyTo true
    | Bound workspace => deliver_turn channel text messageId fileIds authorId replyTo event contextId workspace
    end).

Definition recorded_file (channel : jstr) (event : MessageEvent) (file : DiscordAttachment) : RecordedFile :=
  mkRecordedFile (da_id file) agent channel (me_messageId event) (da_name file) (da_contentType file) (da_size file) (da_url file) None.

Definition acceptFiles (channel : jstr) (event : MessageEvent) : cmd (list jstr) :=
  match me_files event, fileBaseUrl with
  | [], _ | _, None => Ret []
  | files, Some _ =>
      update (on_store (fun now s => fold_left (fun s file => recordFile (recorded_file channel event file) now s) files s)) ;;;
      Ret (da_id <$> files)
  end.

(** A turn of a channel's chain takes the chain's end as its own, and settles
    whether or not it fails. *)
Definition join_chain (channel : jstr) (e : engine) : engine :=
  set_promises (S (en_promises e)) (on_rooms (fun x => set_chains (<[channel := en_promises e]> (ro_chains x)) x) e).

Definition run_message (channel : jstr) (event : MessageEvent) (replyTo : option jstr) : cmd unit :=
  let* files := acceptFiles channel event in
  runTurn channel (me_text event) (me_messageId event) files (me_authorId event) replyTo (Some event).

Definition trigger (channel : jstr) (event : MessageEvent) (replyTo : option jstr) : cmd unit :=
  update (markStale channel) ;;;
  match eo_queueing options with
  | Harness => run_message channel event replyTo
  | Bridge =>
      read (fun e =>
        let prev := ro_chains (en_rooms e) !! channel in
        let promise := en_promises e in
        update (join_chain channel) ;;;
        attempt (ask (RqAfter prev)) (fun _ =>
          try_finally (run_message channel event replyTo) (update (keep [promise]))))
  end.

(** [flushQueue], but for the number it returns. *)
Definition flushQueue : cmd unit :=
  read (fun e =>
    match queuedFor agent (en_store e) with
    | [] => skip_
    | queued =>
        let* card := attempt (ask RqFetchCard) (fun r => Ret r) in
        match card with
        | Exn _ => skip_
        | Val _ =>
            for_list queued (fun request =>
              update (on_store (fun _ => dequeue (qr_id request))) ;;;
              runTurn (qr_channel request) (qr_text request) (qr_messageId request) (qr_fileIds request)
                (default [] (qr_authorId request)) (Some (qr_messageId request)) None)
        end
    end).

(** ** The turn table *)

(** A forward without words of its own. *)
Definition only_forwards (event : MessageEvent) : bool :=
  jeqb (trim (me_text event)) [] && match me_forwards event with [] => false | _ => true end.

Definition absorb (held event : MessageEvent) : MessageEvent :=
  mkMessageEvent (me_channel event) (me_guild event) (me_messageId event) (me_text event) (me_authorId event) (me_authorName event)
    (me_authorIsApp event) (me_mentions event) (me_botMentions event) (me_mentionNames event) (me_files held ++ me_files event)
    (me_type event) (me_replyTo event) (me_reply event) (me_forwards held ++ me_forwards event).

Definition hold_key (event : MessageEvent) : jstr := me_channel event ++ js ":" ++ me_authorId event.

Definition release (key : jstr) (h : Held) (e : engine) : engine :=
  set_released ({[he_promise h]} ∪ en_released e)
    (keep [he_promise h] (on_rooms (fun x => set_held (delete key (ro_held x)) x) e)).
Definition hold (key : jstr) (event : MessageEvent) (e : engine) : engine :=
  set_promises (S (en_promises e))
    (on_rooms (fun x => set_held (<[key := mkHeld event (en_promises e) (en_now e + eo_forwardHoldMs options)%Z]> (ro_held x)) x) e).

Definition mergeForward (event : MessageEvent) : cmd (option MessageEvent) :=
  let key := hold_key event in
  read (fun e =>
    match ro_held (en_rooms e) !! key with
    | Some h => update (release key h) ;;; Ret (Some (absorb (he_event h) event))
    | None =>
        if negb (only_forwards event) then Ret (Some event) else
        update (hold key event) ;;;
        ask (RqHeld (en_promises e)) ;;;
        read (fun e' => Ret (if decide (en_promises e ∈ en_released e') then None else Some event))
    end).

(** The timer of a hold. *)
Definition hold_over (key : jstr) : cmd unit :=
  update (fun e =>
    match ro_held (en_rooms e) !! key with
    | Some h => keep [he_promise h] (on_rooms (fun x => set_held (delete key (ro_held x)) x) e)
    | None => e
    end).

Definition isForum (channelId : jstr) : cmd bool :=
  try_catch
    (let* info := ask (RqChannelInfo channelId) in
     Ret (bool_decide (ci_type info = GUILD_FORUM \/ ci_type info = GUILD_MEDIA)))
    (fun _ => Ret false).

Definition save_context (channel : jstr) (answerer : bool) (parent : option jstr) (e : engine) : engine :=
  on_store (fun _ => saveContext agent channel (mkContextRow (deriveContextId channel None) answerer parent)) e.

Definition openThread (event : MessageEvent) : cmd unit :=
  let channel := me_channel event in
  let* thread := attempt (ask (RqCreateThread channel (me_messageId event) (threadName (me_text event)))) (fun r => Ret r) in
  match thread with
  | Exn message =>
      say channel (js "I can't open a thread here (" ++ message ++ js "), so I won't answer in the channel.")
        (Some (me_messageId event)) true
  | Val threadId =>
      update (save_context threadId true (Some channel)) ;;;
      trigger threadId event None
  end.

Definition sendContext (channel : jstr) (event : MessageEvent) : cmd unit :=
  update (markStale channel) ;;;
  let* files := acceptFiles channel event in
  let* bound := workspaceFor channel in
  match bound with
  | Unresolved _ => skip_
  | Bound workspace =>
      try_catch
        (with_message channel (me_text event) (me_messageId event) false files workspace (Some event)
           (fun message => ask (RqSend message) ;;; skip_))
        (fun _ => skip_)
  end.

Definition mentions_self (event : MessageEvent) (e : engine) : bool :=
  match en_self e with Some self => bool_decide (self ∈ me_mentions event) | None => false end.
Definition mentions_other (event : MessageEvent) (e : engine) : bool :=
  existsb (fun id => negb (bool_decide (Some id = en_self e))) (me_botMentions event).

(** A message of a thread whose parent is [parent]. [mentioned] and the
    context are as they were before the parent was looked up. *)
Definition in_thread (event : MessageEvent) (mentioned other : bool) (parent : option jstr) : cmd unit :=
  let channel := me_channel event in
  let turn := trigger channel event (Some (me_messageId event)) in
  read (fun e =>
    let context := contextFor agent channel (en_store e) in
    let* forumBound := match parent with
                       | Some p => if present (assq p (eo_bindings options)) then isForum p else Ret false
                       | None => Ret false
                       end in
    if negb (present context) && forumBound then
      update (save_context channel true parent) ;;; turn
    else if mentioned then
      (if present context then skip_ else update (save_context channel false parent)) ;;; turn
    else
      match context with
      | None => skip_
      | Some row => if cx_answerer row && negb other then turn else sendContext channel event
      end).

(** Who may give the agent work, and where. *)
Definition is_test_bot (id : jstr) : bool := bool_decide (id ∈ eo_testBots options).
Definition heeded (event : MessageEvent) : bool :=
  match me_guild event with Some guild => jeqb guild (eo_guildId options) | None => true end
  && bool_decide (me_type event ∈ MESSAGE_TYPES)
  && negb (me_authorIsApp event && negb (is_test_bot (me_authorId event)))
  && (is_operator (me_authorId event) || is_test_bot (me_authorId event)).

(** What is done with a message that is not a redelivery. *)
Definition classify (event : MessageEvent) : cmd unit :=
  let* merged := mergeForward event in
  match merged with
  | None => skip_
  | Some event =>
      read (fun e =>
        let mentioned := mentions_self event e in
        let other := mentions_other event e in
        match me_guild event with
        | None => trigger (me_channel event) event (Some (me_messageId event))
        | Some _ =>
            let* looked := attempt (ask (RqChannelInfo (me_channel event))) (fun r => Ret r) in
            match looked with
            | Exn _ => skip_
            | Val info =>
                if bool_decide (ci_type info ∈ THREAD_TYPES) then in_thread event mentioned other (ci_parentId info)
                else if mentioned then openThread event else skip_
            end
        end)
  end.

Definition mark_handled (messageId : jstr) : engine -> engine :=
  on_store (fun now s => snd (markHandled agent messageId now s)).

Definition handleMessage (event : MessageEvent) : cmd unit :=
  if negb (heeded event) then skip_ else
  read (fun e =>
    if negb (unhandled agent (me_messageId event) (en_store e)) then skip_ else
    update (mark_handled (me_messageId event)) ;;;
    classify event).

(** ** Interactions, and what the engine is called with *)

Definition handleComponent (event : ComponentEvent) : cmd unit :=
  if negb (is_operator (ce_userId event) || is_test_bot (ce_userId event)) then
    ask (RqRespondEphemeral (ce_interactionId event) (ce_token event) (js "This agent only takes instructions from its operator."))
  else if negb (jeqb (ce_customId event) STOP_ID) then skip_
  else
    read (fun e =>
      match filter (fun t => cr_messageId <$> if_card t = Some (ce_messageId event)) (tasksForChannel agent (ce_channel event) (en_store e)) with
      | [] => ask (RqRespondEphemeral (ce_interactionId event) (ce_token event) (js "That turn has already finished."))
      | tasks =>
          ask (RqRespond (ce_interactionId event) (ce_token event) DEFERRED_UPDATE) ;;;
          for_list tasks (fun task => try_catch (ask (RqCancel (if_taskId task))) (fun _ => skip_))
      end).

Definition not_available (interactionId token : jstr) : cmd unit :=
  ask (RqRespondEphemeral interactionId token (js "Not available yet.")).

Definition handleEvent (event : InboundEvent) : cmd unit :=
  match event with
  | OfMessage message => handleMessage message
  | OfComponent tap => handleComponent tap
  | OfModal form => not_available (mo_interactionId form) (mo_token form)
  | OfCommand command => not_available (co_interactionId command) (co_token command)
  end.

(** [start]: the drafts it restores and the calls it makes and does not wait
    for. *)
Definition restored (task : InFlightTask) (card : CardRecord) : Draft :=
  mkDraft (if_channel task) (Some (cr_messageId card)) (cr_status card) (cr_steps card) (cr_text card) START (if_triggerId task)
    false false false [].
Definition reattach (task : InFlightTask) : cmd unit :=
  update (on_cards (fun x => match if_card task with Some card => make_draft (if_taskId task) (restored task card) x | None => x end)) ;;;
  try_catch (pumpTracked (SrcResubscribe (if_taskId task)) (if_channel task) None None None) (fun _ => skip_).
Definition start (e : engine) : list (cmd unit) :=
  reattach <$> filter (fun task => if_agent task = agent) (allTasks (en_store e)).

(** Timers: the typing indicator's, and the Gateway telling who the bot
    is. *)
Definition typing_tick (channel : jstr) : cmd unit :=
  update (fun e => if decide (channel ∈ ro_typing (en_rooms e)) then noted (Typed channel) e else e).
Definition identified (id : jstr) : cmd unit := update (set_self (Some id)).
End Engine.

(** ** Whole histories *)

(** The calls made of an engine: events as they arrive, the queue's flush,
    the resubscriptions of [start], what the Gateway says the bot is, and its
    timers when they are due. *)
Section Entries.
Context (options : EngineOptions) (sha1 : list N -> list N) (zero_number : jsval -> bool).

Inductive entry (now : Z) (e : engine) : cmd unit -> Prop :=
| enter_event event : entry now e (handleEvent options sha1 zero_number event)
| enter_flush : entry now e (flushQueue options sha1 zero_number)
| enter_start p : p ∈ start options zero_number e -> entry now e p
| enter_identified id : entry now e (identified id)
| enter_lane channel due : la_timer (lane_of channel e) = Some due -> (due <= now)%Z -> entry now e (flush_lane options channel)
| enter_hold key h : ro_held (en_rooms e) !! key = Some h -> (he_due h <= now)%Z -> entry now e (hold_over key)
| enter_typing channel : channel ∈ ro_typing (en_rooms e) -> entry now e (typing_tick channel).
End Entries.

Abbreviation engine_world := (world engine source A2AEvent answer).
Abbreviation engine_happening := (happening engine source A2AEvent answer).
Definition engine_happen : engine_happening -> engine_world -> option engine_world := happen issue receive yielded enter ready.
Definition engine_history : list engine_happening -> engine_world -> option engine_world :=
  happen_all issue receive yielded enter ready.
Definition new_world (store : BridgeState) : engine_world := mkWorld (new_engine store) ∅ 0.
