(* ===== verification/DiscordSteady.v ===== *)
(** What every method of the Discord engine keeps, for any property a call
    can hold on to while others run: a local assertion that quiet updates,
    noted requests and the others' doings preserve is preserved by each
    method. *)

From S2P Require Import Prelude A2A A2AClient Activity Envelope SessionId Markdown Async AsyncLogic Values.
From S2P Require Import DiscordState DiscordCard DiscordTranslate DiscordEditor DiscordEngine.
#[local] Open Scope nat_scope.
#[local] Open Scope async_scope.

(** An update that notes nothing, forgets no message that was handled and
    queues no request. *)
Record quiet (f : engine -> engine) : Prop := {
  quiet_running e : en_running (f e) = en_running e;
  quiet_log e : en_log (f e) = en_log e;
  quiet_handled e k : is_Some (bs_handled (en_store e) !! k) -> is_Some (bs_handled (en_store (f e)) !! k);
  quiet_queued e r : r ∈ bs_queued (en_store (f e)) -> r ∈ bs_queued (en_store e) }.

(** The updates an assertion is known to be kept by. *)
Class Lenient (mild : (engine -> engine) -> Prop) := lenient f : quiet f -> mild f.
#[export] Instance quiet_lenient : Lenient quiet.
Proof. by intros f. Qed.

Create HintDb steady.

Lemma quiet_cards f : quiet (on_cards f).
Proof. by split. Qed.
Lemma quiet_rooms f : quiet (on_rooms f).
Proof. by split. Qed.
Lemma quiet_keep l : quiet (keep l).
Proof. by split. Qed.
(** A write of the store that leaves those tables alone. *)
Definition aside (f : Z -> BridgeState -> BridgeState) : Prop :=
  forall now s, bs_handled (f now s) = bs_handled s /\ bs_queued (f now s) = bs_queued s.
Lemma quiet_aside f : aside f -> quiet (on_store f).
Proof. intros Hf. split; try done; intros e; destruct (Hf (en_now e) (en_store e)) as [E1 E2]; cbn; by rewrite ?E1, ?E2. Qed.

Lemma quiet_dequeue id : quiet (on_store (fun _ => dequeue id)).
Proof. split; try done. intros e r Hr. cbn in Hr. by apply list_elem_of_filter in Hr as [_ Hr]. Qed.

Section Quiet.
Context (options : EngineOptions).

Lemma quiet_persist taskId d : quiet (fun e => on_store (fun _ => persist_card taskId (draft_at d e)) e).
Proof. split; try done; intros e; cbn; unfold persist_card; by destruct (dr_messageId _). Qed.
Lemma quiet_forget channel messageId : quiet (editor_forget channel messageId).
Proof.
  split; intros e; unfold editor_forget; destruct (_ !! _) as [l|]; try done; by destruct (forget messageId l).
Qed.
Lemma quiet_mark messageId : quiet (mark_handled options messageId).
Proof.
  split; try done; intros e; cbn; unfold markHandled; destruct (unhandled _ _ _); try done.
  intros k Hk. cbn. rewrite lookup_insert. by case_decide.
Qed.
Lemma quiet_stopTyping channel (f : engine -> bool) : quiet (fun e => if f e then stopTyping channel e else e).
Proof. split; intros e; by destruct (f e). Qed.
Lemma quiet_close channel : quiet (close_turn channel).
Proof. split; intros e; unfold close_turn; cbv zeta; by destruct (_ =? 0)%Z. Qed.
Lemma quiet_open channel : quiet (open_turn channel).
Proof. by split. Qed.
Lemma quiet_hold key event : quiet (hold options key event).
Proof. by split. Qed.
Lemma quiet_release key h : quiet (release key h).
Proof. by split. Qed.
Lemma quiet_over key : quiet (fun e => match ro_held (en_rooms e) !! key with
    | Some h => keep [he_promise h] (on_rooms (fun x => set_held (delete key (ro_held x)) x) e)
    | None => e
    end).
Proof. split; intros e; by destruct (_ !! _). Qed.
Lemma quiet_abandon (d : nat) : quiet (fun e => match dr_messageId (draft_at d e) with
    | Some messageId => editor_forget (dr_channel (draft_at d e)) messageId e
    | None => e
    end).
Proof.
  pose proof (fun channel messageId => quiet_forget channel messageId) as Hf.
  split; intros e; destruct (dr_messageId (draft_at d e)) as [m|]; try done; apply Hf.
Qed.

Lemma aside_setCard taskId card : aside (fun _ => setCard taskId card).
Proof. done. Qed.
Lemma aside_removeTask taskId : aside (fun _ => removeTask taskId).
Proof. done. Qed.
Lemma aside_minted channel contextId : aside (fun _ => saveMintedContext options channel contextId).
Proof. done. Qed.
Lemma aside_context agent channel row : aside (fun _ => saveContext agent channel row).
Proof. done. Qed.
Lemma aside_record task channel sent replyTo author : aside (record_task options task channel sent replyTo author).
Proof.
  intros now s. unfold record_task. cbv zeta. destruct (taskById _ _), sent as [c|]; try (by split); by destruct (jeqb _ _).
Qed.
Lemma aside_files channel event files :
  aside (fun now s => fold_left (fun s file => recordFile (recorded_file options channel event file) now s) files s).
Proof.
  intros now s. revert s. induction files as [|f files IH]; intros s; [done|]. cbn [fold_left].
  destruct (IH (recordFile (recorded_file options channel event f) now s)) as [-> ->]. done.
Qed.
End Quiet.
#[export] Hint Resolve quiet_cards quiet_rooms quiet_keep quiet_dequeue quiet_persist quiet_forget quiet_mark quiet_stopTyping quiet_close
  quiet_open quiet_hold quiet_release quiet_over quiet_abandon : steady.
#[export] Hint Extern 2 (quiet (on_store _)) => apply quiet_aside : steady.
#[export] Hint Resolve aside_setCard aside_removeTask aside_minted aside_context aside_record aside_files : steady.
#[export] Hint Extern 5 (quiet _) => by split : steady.

Section Steady.
Context (options : EngineOptions) (sha1 : list N -> list N) (zero_number : jsval -> bool).
Context (sane : forall r, result (answer r) -> engine -> Prop) (fits : nat -> source -> A2AEvent -> engine -> Prop).
Context (Inv : engine -> Prop) (rely : nat -> engine -> engine -> Prop) {rely_preorder : forall t, PreOrder (rely t)}.
Context (t : nat).

#[local] Abbreviation guar := (guar rely t).

(** The assertion, and the requests and streams it allows. *)
Context (L : engine -> Prop) (fine : request -> Prop) (source_ok : source -> Prop).
#[local] Abbreviation steps := (steps rely t L).
Definition abides {A : Type} (p : cmd A) : Prop := keeps issue receive yielded enter ready sane fits Inv rely t L p.

(** Whether a request takes the engine no further than Discord and its own
    promises. *)
Definition harmless (r : request) : Prop := match r with RqSend _ | RqCancel _ => False | _ => True end.

Class Steady (mild : (engine -> engine) -> Prop) : Prop := {
  steady_inv s : L s -> Inv s;
  steady_quiet f : mild f -> steps f;
  steady_issue r : fine r -> steps (issue r);
  steady_back r a s s1 now : fine r -> L s -> rely t s s1 -> Inv s1 -> sane r a (enter t now s1) ->
    guar s1 (receive r a (enter t now s1)) /\ L (receive r a (enter t now s1));
  steady_heard src e s s1 now : source_ok src -> L s -> rely t s s1 -> Inv s1 ->
    guar s1 (yielded src e (enter t now s1)) /\ L (yielded src e (enter t now s1));
  steady_fine r : harmless r -> fine r;
  steady_opened src : source_ok src -> steps (noted (Opened src));
  steady_typed channel : steps (noted (Typed channel)) }.

Context {mild : (engine -> engine) -> Prop} {steadiness : Steady mild} {lenience : Lenient mild}.

Lemma abides_ret {A : Type} (a : A) : abides (Ret a).
Proof. apply keeps_ret. Qed.
Lemma abides_throw {A : Type} m : abides (Throw m : cmd A).
Proof. apply keeps_throw. Qed.
Lemma abides_read {A : Type} (k : engine -> cmd A) : (forall e, L e -> abides (k e)) -> abides (read k).
Proof. apply keeps_read. Qed.
Lemma abides_step f : steps f -> abides (update f).
Proof. apply keeps_step. Qed.
Lemma abides_update f : quiet f -> abides (update f).
Proof. intros Hf. by apply abides_step, steady_quiet, lenient. Qed.
Lemma abides_change d f : abides (change d f).
Proof. apply abides_update, quiet_cards. Qed.
Lemma abides_asked r : fine r -> abides (ask r).
Proof. intros Hr. apply keeps_call; [apply steady_inv|by apply steady_issue|]. intros a s s1 now. by apply steady_back. Qed.
Lemma abides_ask r : harmless r -> abides (ask r).
Proof. intros Hr. by apply abides_asked, steady_fine. Qed.
Lemma abides_attempt {A B : Type} (p : cmd A) (k : result A -> cmd B) : abides p -> (forall r, abides (k r)) -> abides (attempt p k).
Proof. apply keeps_attempt. Qed.
Lemma abides_bind {A B : Type} (p : cmd A) (k : A -> cmd B) : abides p -> (forall a, abides (k a)) -> abides (bind p k).
Proof. apply keeps_bind. Qed.
Lemma abides_try {A : Type} (p : cmd A) h : abides p -> (forall e, abides (h e)) -> abides (try_catch p h).
Proof. apply keeps_try. Qed.
Lemma abides_finally {A : Type} (p : cmd A) f : abides p -> abides f -> abides (try_finally p f).
Proof. apply keeps_finally. Qed.
Lemma abides_list {X} (l : list X) body : (forall x, x ∈ l -> abides (body x)) -> abides (for_list l body).
Proof. apply keeps_list. Qed.
Lemma abides_each src body : source_ok src -> (forall e, abides (body e)) -> abides (for_each src body).
Proof. intros Hsrc. apply keeps_each; [apply steady_inv|]. intros e s s1 now. by apply steady_heard. Qed.

(** One step towards [abides]. *)
Ltac steady_step :=
  match goal with
  | |- forall _, _ => intros ?
  | |- abides (Ret _) => apply abides_ret
  | |- abides skip_ => apply abides_ret
  | |- abides (Throw _) => apply abides_throw
  | |- abides (change _ _) => apply abides_change
  | |- abides (update _) => apply abides_update; solve [auto with steady]
  | |- abides (ask _) => apply abides_ask; exact I
  | |- abides (read _) => solve [auto 2 with steady]
  | |- abides (read _) => apply abides_read; intros ? ?; cbv beta zeta
  | |- abides (bind _ _) => apply abides_bind
  | |- abides (try_catch _ _) => apply abides_try
  | |- abides (try_finally _ _) => apply abides_finally
  | |- abides (for_list _ _) => apply abides_list
  | |- abides (attempt _ _) => apply abides_attempt
  | |- abides (let _ := _ in _) => cbv zeta
  | |- abides _ => solve [auto with steady]
  | |- abides (match ?x with _ => _ end) => destruct x
  end.
Ltac steady := repeat steady_step.

(** ** The card *)

Lemma abides_draft taskId channel replyTo : abides (draft taskId channel replyTo).
Proof. unfold draft. steady. Qed.
Lemma abides_settle channel messageId b : abides (editor_settle options channel messageId b).
Proof. unfold editor_settle. steady. Qed.
Lemma abides_persist taskId d : abides (persist taskId d).
Proof. unfold persist. steady. Qed.
Lemma abides_abandon taskId d : abides (abandon taskId d).
Proof. unfold abandon. steady. Qed.
#[local] Hint Resolve abides_draft abides_settle abides_persist abides_abandon : steady.
Lemma abides_flushCard channel messageId b : abides (flushCard channel messageId b).
Proof. unfold flushCard. steady. Qed.
#[local] Hint Resolve abides_flushCard : steady.
Lemma abides_flush_lane channel : abides (flush_lane options channel).
Proof. unfold flush_lane. apply abides_read. intros e _. destruct (tick _ _) as [next l]. steady. Qed.
Lemma abides_draw taskId d state : abides (draw options taskId d state).
Proof. unfold draw. steady. Qed.
Lemma abides_settle_as taskId d state : abides (settle_as options taskId d state).
Proof. unfold settle_as. steady. Qed.
#[local] Hint Resolve abides_draw abides_settle_as : steady.
Lemma abides_rollOver taskId d : abides (rollOver options taskId d).
Proof. unfold rollOver, freeze. steady. Qed.
#[local] Hint Resolve abides_rollOver : steady.
Lemma abides_cut taskId d : abides (cutIfStale options taskId d).
Proof. unfold cutIfStale. steady. Qed.
Lemma abides_append_loop fuel taskId d rest : abides (append_loop options fuel taskId d rest).
Proof. revert rest. induction fuel as [|fuel IH]; intros rest; cbn [append_loop]; steady. Qed.
#[local] Hint Resolve abides_cut abides_append_loop : steady.
Lemma abides_append taskId channel replyTo text : abides (appendText options taskId channel replyTo text).
Proof. unfold appendText. steady. Qed.
Lemma abides_activity taskId channel replyTo activity : abides (applyActivity options taskId channel replyTo activity).
Proof. unfold applyActivity. steady. Qed.
Lemma abides_say channel text replyTo ping : abides (say channel text replyTo ping).
Proof. unfold say. steady. Qed.
#[local] Hint Resolve abides_append abides_activity abides_say : steady.
Lemma abides_sayLong channel text replyTo : abides (sayLong channel text replyTo).
Proof. unfold sayLong. steady. Qed.
Lemma abides_settleCard taskId d state : abides (settleCard options taskId d state).
Proof. unfold settleCard. steady. Qed.
#[local] Hint Resolve abides_sayLong abides_settleCard : steady.
Lemma abides_conclude taskId channel replyTo state : abides (conclude_card options taskId channel replyTo state).
Proof. unfold conclude_card. steady. Qed.
#[local] Hint Resolve abides_conclude : steady.
Lemma abides_applyStatus taskId state channel replyTo messageText metadata :
  abides (applyStatus options zero_number taskId state channel replyTo messageText metadata).
Proof. unfold applyStatus. steady. Qed.
#[local] Hint Resolve abides_applyStatus : steady.
Lemma abides_handleA2A channel sent replyTo author event : abides (handleA2AEvent options zero_number channel sent replyTo author event).
Proof. unfold handleA2AEvent. steady. Qed.
#[local] Hint Resolve abides_handleA2A : steady.

Lemma abides_pumpTracked src channel sent replyTo author : source_ok src ->
  abides (pumpTracked options zero_number src channel sent replyTo author).
Proof.
  intros Hsrc. unfold pumpTracked. apply abides_bind; [steady|]. intros _. apply abides_finally; [|steady].
  apply abides_bind; [by apply abides_step, steady_opened|]. intros _. apply abides_each; [done|steady].
Qed.

(** ** Turns *)

Lemma abides_startTyping channel : abides (update (startTyping channel)).
Proof.
  intros s Hs. destruct (steady_typed channel s Hs) as [Hg HL].
  destruct (steady_quiet (on_rooms (fun x => set_typing ({[channel]} ∪ ro_typing x) x)) (lenient _ (quiet_rooms _)) _ HL) as [Hg' HL'].
  cbn [wp update]. unfold startTyping. destruct (decide _); [done|]. split; [by etransitivity|done].
Qed.
Lemma abides_typing_tick channel : abides (typing_tick channel).
Proof.
  intros s Hs. destruct (steady_typed channel s Hs) as [Hg HL]. unfold typing_tick. cbn [wp update].
  by destruct (decide (channel ∈ ro_typing (en_rooms s))).
Qed.

(** Where the engine only resubscribes. *)
Lemma abides_start e p : (forall taskId, source_ok (SrcResubscribe taskId)) -> p ∈ start options zero_number e -> abides p.
Proof.
  intros Hsrc (task & -> & _)%list_elem_of_fmap. unfold reattach. apply abides_bind; [steady|]. intros _.
  apply abides_try; [by apply abides_pumpTracked|steady].
Qed.

Section Turns.
(** Who may give the agent work. *)
Definition worker (id : jstr) : bool := is_operator options id || is_test_bot options id.
Definition of_worker (author : option jstr) : Prop := exists id, author = Some id /\ worker id = true.

Hypothesis enqueues : forall request, of_worker (qr_authorId request) -> steps (on_store (enqueue request)).
Hypothesis queued : forall e r, L e -> r ∈ bs_queued (en_store e) -> of_worker (qd_author r).
Hypothesis sends : forall message, fine (RqSend message).
Hypothesis opens : forall message, source_ok (SrcStream message).

#[local] Hint Resolve abides_draft abides_settle abides_persist abides_abandon abides_flushCard abides_draw abides_settle_as abides_rollOver
  abides_cut abides_append_loop abides_append abides_activity abides_say abides_sayLong abides_settleCard abides_conclude abides_applyStatus
  abides_handleA2A abides_startTyping : steady.

Lemma abides_send message : abides (ask (RqSend message)).
Proof. apply abides_asked, sends. Qed.
#[local] Hint Resolve abides_send : steady.

Lemma abides_workspaceFor channel : abides (workspaceFor options channel).
Proof. unfold workspaceFor. steady. Qed.
Lemma abides_message channel text messageId query fileIds workspace event k : (forall message, abides (k message)) ->
  abides (with_message options sha1 channel text messageId query fileIds workspace event k).
Proof. intros Hk. unfold with_message. steady. Qed.
Lemma abides_replay channel text messageId : abides (withReplayContext options channel text messageId).
Proof. unfold withReplayContext. steady. Qed.
Lemma abides_unreachable channel text messageId fileIds author replyTo : worker author = true ->
  abides (unreachable options channel text messageId fileIds author replyTo).
Proof. intros Ha. unfold unreachable. apply abides_bind; [apply abides_step, enqueues; by exists author|steady]. Qed.
Lemma abides_finishBlocking task channel contextId replyTo : abides (finishBlocking options zero_number task channel contextId replyTo).
Proof. unfold finishBlocking. steady. Qed.
#[local] Hint Resolve abides_workspaceFor abides_replay abides_finishBlocking : steady.

Lemma abides_deliver channel text messageId fileIds author replyTo event contextId workspace : worker author = true ->
  abides (deliver_turn options sha1 zero_number channel text messageId fileIds author replyTo event contextId workspace).
Proof.
  intros Ha. unfold deliver_turn. apply abides_bind; [steady|]. intros [streaming|]; [|by apply abides_unreachable].
  apply abides_bind; [steady|]. intros outgoing. apply abides_message. intros message. apply abides_bind; [steady|]. intros _.
  apply abides_try; [|steady]. destruct streaming; [apply abides_pumpTracked, opens|]. apply abides_bind; [|steady]. steady.
Qed.
Lemma abides_runTurn channel text messageId fileIds author replyTo event : worker author = true ->
  abides (runTurn options sha1 zero_number channel text messageId fileIds author replyTo event).
Proof.
  intros Ha. unfold runTurn. apply abides_read. intros e _. cbv zeta. apply abides_bind; [steady|].
  intros [workspace|error]; [by apply abides_deliver|steady].
Qed.
Lemma abides_acceptFiles channel event : abides (acceptFiles options channel event).
Proof. unfold acceptFiles. steady. Qed.
#[local] Hint Resolve abides_acceptFiles : steady.

Lemma abides_run_message channel event replyTo : worker (me_authorId event) = true ->
  abides (run_message options sha1 zero_number channel event replyTo).
Proof. intros Ha. unfold run_message. apply abides_bind; [steady|]. intros files. by apply abides_runTurn. Qed.
Lemma abides_trigger channel event replyTo : worker (me_authorId event) = true ->
  abides (trigger options sha1 zero_number channel event replyTo).
Proof.
  intros Ha. unfold trigger. apply abides_bind; [steady|]. intros _. destruct (eo_queueing options); [by apply abides_run_message|].
  apply abides_read. intros e _. cbv zeta. apply abides_bind; [steady|]. intros _. apply abides_attempt; [steady|]. intros _.
  apply abides_finally; [by apply abides_run_message|steady].
Qed.

Lemma abides_flushQueue : abides (flushQueue options sha1 zero_number).
Proof.
  unfold flushQueue. apply abides_read. intros e He. destruct (queuedFor _ _) as [|r rs] eqn:E; [steady|].
  apply abides_bind; [steady|]. intros [_|_]; [|steady]. apply abides_list. intros request Hr. rewrite <- E in Hr.
  apply list_elem_of_fmap in Hr as (row & -> & Hrow). apply list_elem_of_filter in Hrow as [_ Hrow].
  destruct (queued e row He Hrow) as (author & Ea & Ha). apply abides_bind; [steady|]. intros _.
  apply abides_runTurn. unfold request_of_row. cbn [qr_authorId]. by rewrite Ea.
Qed.

(** What a program that keeps the assertion may come to. *)
Definition yields_only {A : Type} (P : A -> Prop) (p : cmd A) : Prop :=
  forall s, L s -> wp issue receive yielded enter ready sane fits Inv rely t p s (fun r s' => L s' /\ forall a, r = Val a -> P a).

Lemma yields_ret {A : Type} (P : A -> Prop) a : P a -> yields_only P (Ret a).
Proof. intros Ha s Hs. split; [done|]. by intros b [= <-]. Qed.
Lemma yields_after {A B : Type} (P : B -> Prop) (p : cmd A) (k : A -> cmd B) : abides p -> (forall a, yields_only P (k a)) -> yields_only P (bind p k).
Proof. intros Hp Hk s Hs. apply wp_bind. eapply wp_mono; [|by apply Hp]. intros [a|e] s' HL; [by apply Hk|done]. Qed.
Lemma abides_with {A B : Type} (P : A -> Prop) (p : cmd A) (k : A -> cmd B) : yields_only P p -> (forall a, P a -> abides (k a)) -> abides (bind p k).
Proof. intros Hp Hk s Hs. apply wp_bind. eapply wp_mono; [|by apply Hp]. intros [a|e] s' [HL Ha]; [by apply Hk; [apply Ha|]|done]. Qed.

(** A comment that absorbs a forward is still its author's. *)
Definition same_author (event : MessageEvent) (merged : option MessageEvent) : Prop :=
  match merged with Some m => me_authorId m = me_authorId event | None => True end.
Lemma merge_author event : yields_only (same_author event) (mergeForward options event).
Proof.
  unfold mergeForward. cbv zeta. intros s Hs. apply wp_read. revert s Hs. intros s Hs.
  destruct (_ !! _) as [h|]; [|destruct (negb _)].
  - apply (yields_after _ (update _)); [steady|intros _; by apply yields_ret|done].
  - by apply (yields_ret (same_author event) (Some event)).
  - apply (yields_after _ (update _)); [steady|intros _|done]. apply yields_after; [steady|]. intros _ s' Hs'. apply wp_read.
    destruct (decide _); by apply (yields_ret (same_author event)).
Qed.

Lemma abides_isForum channel : abides (isForum channel).
Proof. unfold isForum. steady. Qed.
Lemma abides_save_context channel answerer parent : abides (update (save_context options sha1 channel answerer parent)).
Proof. apply abides_update. unfold save_context. apply quiet_aside, aside_context. Qed.
#[local] Hint Resolve abides_isForum abides_save_context : steady.

Lemma abides_openThread event : worker (me_authorId event) = true -> abides (openThread options sha1 zero_number event).
Proof.
  intros Ha. unfold openThread. cbv zeta. apply abides_bind; [steady|]. intros [threadId|e]; [|steady].
  apply abides_bind; [steady|]. intros _. by apply abides_trigger.
Qed.
Lemma abides_sendContext channel event : abides (sendContext options sha1 channel event).
Proof.
  unfold sendContext. apply abides_bind; [steady|]. intros _. apply abides_bind; [steady|]. intros files.
  apply abides_bind; [steady|]. intros [workspace|error]; [|steady]. apply abides_try; [|steady].
  apply abides_message. steady.
Qed.
#[local] Hint Resolve abides_sendContext : steady.
Lemma abides_in_thread event mentioned other parent : worker (me_authorId event) = true ->
  abides (in_thread options sha1 zero_number event mentioned other parent).
Proof.
  intros Ha. pose proof (abides_trigger (me_channel event) event (Some (me_messageId event)) Ha) as Ht.
  unfold in_thread. cbv zeta. apply abides_read. intros e _. apply abides_bind; [steady|]. steady.
Qed.

Lemma abides_classify event : worker (me_authorId event) = true -> abides (classify options sha1 zero_number event).
Proof.
  intros Ha. unfold classify. apply (abides_with (same_author event)); [apply merge_author|]. intros [m|] Hm; [|steady].
  cbn in Hm. rewrite <- Hm in Ha. apply abides_read. intros e _. cbv zeta. destruct (me_guild m); [|by apply abides_trigger].
  apply abides_bind; [steady|]. intros [info|err]; [|steady]. destruct (bool_decide _); [by apply abides_in_thread|].
  destruct (mentions_self m e); [by apply abides_openThread|steady].
Qed.

Lemma heeded_worker event : heeded options event = true -> worker (me_authorId event) = true.
Proof. unfold heeded. intros H. apply andb_true_iff in H as [_ H]. exact H. Qed.

Lemma abides_handleMessage event : abides (handleMessage options sha1 zero_number event).
Proof.
  unfold handleMessage. destruct (heeded options event) eqn:E; cbn [negb]; [|steady]. apply abides_read. intros e _.
  destruct (negb _); [steady|]. apply abides_bind; [steady|]. intros _. by apply abides_classify, heeded_worker.
Qed.
End Turns.
End Steady.
