(* ===== verification/DiscordDemo.v ===== *)
(** A direct message and an operator, on which the Discord engine's theorems
    are tried out. *)

From S2P Require Import Prelude A2A A2AClient Activity Envelope SessionId Markdown Async AsyncLogic Values.
From S2P Require Import DiscordState DiscordCard DiscordTranslate DiscordEditor DiscordEngine.
#[local] Open Scope nat_scope.

Definition demo_options (queueing : Queueing) : EngineOptions :=
  mkEngineOptions (js "hearth") (js "G1") [js "U1"] [] queueing Native (Some (js "http://files/")) [] 1000 FORWARD_HOLD_MS None.
Definition zero_sha1 (bytes : list N) : list N := repeat 0%N 20.
Definition no_number (v : jsval) : bool := false.

(** What [author] said in the direct channel [D1]. *)
Definition said_by (author messageId text : jstr) : MessageEvent :=
  mkMessageEvent (js "D1") None messageId text author None false [] [] ∅ [] 0 None None [].

(** Discord and the agent do as they are asked. *)
Definition obliging (r : request) : result (answer r) :=
  match r with
  | RqFetchCard => Val true
  | RqSend _ => Exn (js "not streaming")
  | RqChannelInfo channel => Val (mkChannelInfo channel DM None None)
  | RqCreateThread _ _ _ => Val (js "T1")
  | RqPostCard _ _ => Val (js "91")
  | RqPostMessage _ _ => Val (js "92")
  | RqReadMessages _ _ => Val []
  | _ => Val tt
  end.

Definition at_time (now : Z) (t n : nat) : list engine_happening := repeat (Resumed t now (Reply obliging)) n.
Definition replies (t n : nat) : list engine_happening := at_time 1000 t n.
Definition yields (t : nat) (event : A2AEvent) : engine_happening := Resumed t 1000%Z (Yield event).
Definition finishes (t : nat) : engine_happening := Resumed t 1000%Z Finish.
Definition arrives (queueing : Queueing) (event : MessageEvent) : engine_happening :=
  Called 1000%Z (handleEvent (demo_options queueing) zero_sha1 no_number (OfMessage event)).

(** The world a history leads to. *)
Definition world_after (hs : list engine_happening) : engine_world := default (new_world new_state) (engine_history hs (new_world new_state)).
Lemma world_after_runs hs : present (engine_history hs (new_world new_state)) = true ->
  engine_history hs (new_world new_state) = Some (world_after hs).
Proof. apply some_default. Qed.

(** A history of messages is one of the engine's. *)
Ltac of_messages :=
  apply any_history; cbv [at_time replies yields finishes repeat app];
  repeat first [apply Forall_nil; exact I
               | apply Forall_cons; split; [first [exact I | intros ? ?; exact I | intros ?; apply enter_event]|]].
