(* ===== verification/DiscordRest.v ===== *)
(** [apps/discord/src/rest.ts]: Discord's REST surface for one bot. A call is
    a program over the limits that are kept; the requests it sends, the bodies
    it reads and the sleeps it takes are what it awaits.

    Then: what a REST call to Discord comes to, however Discord answers and
    whatever other calls do meanwhile, and what the breaker decides by. *)

From stdpp Require Import sorting.
From S2P Require Import Prelude AsyncLogic Envelope Json SessionId Async Values Numbers.
#[local] Open Scope Z_scope.

Definition API_URL : jstr := js "https://discord.com/api/v10".

(** ** Doubles *)

(** The sum, difference and product of two doubles, rounded once. *)
Definition over_power (m e : Z) : Z * Z := if e <? 0 then (m, 2 ^ (- e)) else (m * 2 ^ e, 1).
Definition signed (negative : bool) (m : Z) : Z := if negative then - m else m.
Definition of_fraction (num den : Z) : number := round_double (num <? 0) (Z.abs num) den.
Definition of_Z (z : Z) : number := of_fraction z 1.
Definition opposite (x : number) : number :=
  match x with NaN => NaN | Infinite n => Infinite (negb n) | Finite n m e => Finite (negb n) m e end.
Definition add (x y : number) : number :=
  match x, y with
  | NaN, _ | _, NaN => NaN
  | Infinite a, Infinite b => if bool_decide (a = b) then x else NaN
  | Infinite _, _ => x
  | _, Infinite _ => y
  | Finite a m e, Finite b n f =>
      let '(p, q) := over_power (signed a m) e in
      let '(r, s) := over_power (signed b n) f in
      of_fraction (p * s + r * q) (q * s)
  end.
Definition sub (x y : number) : number := add x (opposite y).
Definition mul (x y : number) : number :=
  match x, y with
  | NaN, _ | _, NaN => NaN
  | Infinite a, Infinite b => Infinite (xorb a b)
  | Infinite a, Finite b m _ | Finite b m _, Infinite a => if m =? 0 then NaN else Infinite (xorb a b)
  | Finite a m e, Finite b n f =>
      let '(p, q) := over_power (m * n) (e + f) in round_double (xorb a b) p q
  end.
(** [x > 0]. *)
Definition positive (x : number) : bool :=
  match x with Infinite n => negb n | Finite false m _ => 0 <? m | _ => false end.

(** ** Buckets and the breaker *)

Record Bucket := mkBucket {
  bk_remaining : number;
  bk_resetAt : number }.

(** What is awaited: a sleep; a request, answered by the response's status
    and headers; the response's text. *)
Inductive rq :=
| RqSleep (ms : number)
| RqFetch (method url : jstr) (headers : list (jstr * jstr)) (body : option (jstr + list N))
| RqText (status : Z).
Record head_ := mkHead {
  hd_status : Z;
  hd_headers : list (jstr * jstr) }.
Definition answer (r : rq) : Type :=
  match r with RqSleep _ => unit | RqFetch _ _ _ _ => head_ | RqText _ => jstr end.

Inductive note_ :=
| Sent (r : rq)
| Got (r : rq) (a : result (answer r))
| Recorded.

(** The bot's limits, and the breaker every bot shares. A bucket is an
    object: the map holds its place, and a call keeps the one it looked up. *)
Record limits := mkLimits {
  li_objects : list Bucket;
  li_buckets : gmap jstr nat;
  li_globalStamps : list Z;
  li_invalid : list Z;
  li_now : Z;
  li_running : nat;
  li_log : list (nat * note_) }.
Definition new_limits : limits := mkLimits [] ∅ [] [] 0 0 [].

Definition noted (n : note_) (x : limits) : limits :=
  mkLimits (li_objects x) (li_buckets x) (li_globalStamps x) (li_invalid x) (li_now x) (li_running x) (li_log x ++ [(li_running x, n)]).
Definition set_objects (v : list Bucket) (x : limits) : limits :=
  mkLimits v (li_buckets x) (li_globalStamps x) (li_invalid x) (li_now x) (li_running x) (li_log x).
Definition set_buckets (v : gmap jstr nat) (x : limits) : limits :=
  mkLimits (li_objects x) v (li_globalStamps x) (li_invalid x) (li_now x) (li_running x) (li_log x).
Definition set_globalStamps (v : list Z) (x : limits) : limits :=
  mkLimits (li_objects x) (li_buckets x) v (li_invalid x) (li_now x) (li_running x) (li_log x).
Definition set_invalid (v : list Z) (x : limits) : limits :=
  mkLimits (li_objects x) (li_buckets x) (li_globalStamps x) v (li_now x) (li_running x) (li_log x).

Definition issue (r : rq) : limits -> limits := noted (Sent r).
Definition receive (r : rq) (a : result (answer r)) : limits -> limits := noted (Got r a).
Definition yielded (src : Empty_set) (ev : option Empty_set) (x : limits) : limits := x.
Definition enter (t : nat) (now : Z) (x : limits) : limits :=
  mkLimits (li_objects x) (li_buckets x) (li_globalStamps x) (li_invalid x) now t (li_log x).
Definition ready (r : rq) (x : limits) : bool := true.
Abbreviation cmd := (prog limits Empty_set Empty_set answer).
Definition ask (r : rq) : cmd (answer r) := call r.

(** [while (stamps[0] < floor) stamps.shift()]. *)
Fixpoint shift_before (floor : Z) (stamps : list Z) : list Z :=
  match stamps with
  | x :: t => if x <? floor then shift_before floor t else stamps
  | [] => []
  end.

(** [InvalidResponseBreaker]. *)
Record breaker := mkBreaker {
  br_limit : nat;
  br_windowMs : Z }.
Definition default_breaker : breaker := mkBreaker 1000 (10 * 60000).
Definition record (now : Z) (stamps : list Z) : list Z := stamps ++ [now].
Definition count (b : breaker) (now : Z) (stamps : list Z) : nat * list Z :=
  let stamps := shift_before (now - br_windowMs b) stamps in (length stamps, stamps).
Definition tripped (b : breaker) (now : Z) (stamps : list Z) : bool * list Z :=
  let '(n, stamps) := count b now stamps in ((br_limit b <=? n)%nat, stamps).

(** ** Paths *)

Definition digits17 (s : jstr) : nat := let n := length (take_while is_digit s) in if (17 <=? n)%nat then Nat.min 20 n else 0.

(** The major parameter at the start of [s], as written. *)
Definition major_at (s : jstr) : option jstr :=
  head (omap (fun word => if starts_with word s
                          then match digits17 (drop (length word) s) with O => None | n => Some (take (length word + n) s) end
                          else None)
          (js <$> ["/channels/"; "/guilds/"; "/webhooks/"]%string)).
(** What the first pattern makes of its match at the start of [s], and how
    long that is. *)
Definition generic_at (s : jstr) : option (jstr * nat) :=
  match s with
  | 47%N :: t =>
      match major_at s with
      | Some whole => Some (whole, length whole)
      | None => match digits17 t with O => None | n => Some (js "/:id", S n) end
      end
  | _ => None
  end.
Definition token_unit (c : N) : bool := id_unit c || ((97 <=? c) && (c <=? 122))%N || bool_decide (c ∈ js "_-").
Definition token_at (s : jstr) : option (jstr * nat) :=
  match s with
  | 47%N :: t => let n := length (take_while token_unit t) in if (40 <=? n)%nat then Some (js "/:token", S n) else None
  | _ => None
  end.

(** [s.replace(/…/g, …)]: left to right, matches do not overlap. *)
Fixpoint replace_at (at_ : jstr -> option (jstr * nat)) (skip : nat) (s : jstr) : jstr :=
  match s with
  | [] => []
  | c :: t =>
      match skip with
      | S k => replace_at at_ k t
      | O => match at_ s with
             | Some (text, n) => text ++ replace_at at_ (n - 1) t
             | None => c :: replace_at at_ 0 t
             end
      end
  end.
Definition routeKey (method path : jstr) : jstr :=
  method ++ js " " ++ replace_at token_at 0 (replace_at generic_at 0 path).

(** ** Bodies *)

Record Multipart := mkMultipart {
  mp_contentType : jstr;
  mp_body : list N }.
Record UploadFile := mkUpload {
  up_name : jstr;
  up_bytes : list N;
  up_contentType : jstr }.

Definition crlf : jstr := [13; 10]%N.
Definition file_part (boundary : jstr) (i : nat) (file : UploadFile) : list N :=
  let name := filter (fun c => c <> 34%N) (up_name file) in
  utf8 (js "--" ++ boundary ++ crlf ++ js "content-disposition: form-data; name=" ++ dq ++ js "files[" ++ show_nat i ++ js "]" ++ dq
        ++ js "; filename=" ++ dq ++ name ++ dq ++ crlf ++ js "content-type: " ++ up_contentType file ++ crlf ++ crlf)
  ++ up_bytes file ++ utf8 crlf.
(** The boundary is made of the time and a random number. *)
Definition multipart (boundary : jstr) (payload : jsval) (files : list UploadFile) : Multipart :=
  mkMultipart (js "multipart/form-data; boundary=" ++ boundary)
    (utf8 (js "--" ++ boundary ++ crlf ++ js "content-disposition: form-data; name=" ++ dq ++ js "payload_json" ++ dq ++ crlf
           ++ js "content-type: application/json" ++ crlf ++ crlf ++ stringify payload ++ crlf)
     ++ concat (imap (file_part boundary) files) ++ utf8 (js "--" ++ boundary ++ js "--" ++ crlf)).

Record RestRequest := mkRestRequest {
  rr_body : option jsval;
  rr_multipart : option Multipart;
  rr_reason : option jstr }.
Definition no_request : RestRequest := mkRestRequest None None None.

Record RestOptions := mkRestOptions {
  ro_token : jstr;
  ro_breaker : option breaker;
  ro_apiUrl : jstr;
  ro_globalPerSecond : nat;
  ro_maxRetries : nat }.

(** A property of a document: [null] or not there, a number, or another
    value, with how it prints. *)
Inductive member :=
| MAbsent
| MNumber (n : number) (printed : jstr)
| MOther (printed : jstr).

Section Rest.
(** [JSON.parse], and how a property of what it gives reads; of a document
    that is [null] none is there. *)
Context {doc : Type} (JSON_parse : jstr -> option doc) (member_of : doc -> jstr -> member).
Context (options : RestOptions).

(** [null], the document, or the text itself. *)
Inductive response_body := NoBody | Document (d : doc) | Text (s : jstr).
Definition parseBody (text : jstr) : response_body :=
  if jeqb text [] then NoBody else match JSON_parse text with Some d => Document d | None => Text text end.
Definition read_member (b : response_body) (k : jstr) : member := match b with Document d => member_of d k | _ => MAbsent end.

Definition header (k : jstr) (l : list (jstr * jstr)) : option jstr := assq k l.
Definition retryAfterSeconds (body : response_body) (headers : list (jstr * jstr)) : number :=
  match read_member body (js "retry_after") with
  | MNumber n _ => n
  | _ => match header (js "retry-after") headers with None => of_Z 1 | Some h => number_of_string h end
  end.

(** [None]: [encodeURIComponent] throws. *)
Definition headers (request : RestRequest) : option (list (jstr * jstr)) :=
  reason ← (match rr_reason request with
            | None => Some []
            | Some r => (fun v => [(js "x-audit-log-reason", v)]) <$> encodeURIComponent r
            end);
  Some ([(js "authorization", js "Bot " ++ ro_token options);
         (js "user-agent", js "DiscordBot (https://github.com/ivy/thicket, thicket)")]
        ++ match rr_multipart request, rr_body request with
           | Some m, _ => [(js "content-type", mp_contentType m)]
           | None, Some _ => [(js "content-type", js "application/json")]
           | None, None => []
           end ++ reason).
Definition body_of (request : RestRequest) : option (jstr + list N) :=
  match rr_multipart request with
  | Some m => Some (inr (mp_body m))
  | None => (fun b => inl (stringify b)) <$> rr_body request
  end.

#[local] Open Scope async_scope.

Definition waitForBucket (key : jstr) : cmd unit :=
  read (fun x =>
  match li_buckets x !! key ≫= fun i => (fun b => (i, b)) <$> li_objects x !! i with
  | None => skip_
  | Some (i, bucket) =>
      if positive (bk_remaining bucket) then skip_ else
      let wait := sub (bk_resetAt bucket) (of_Z (li_now x)) in
      (if positive wait then ask (RqSleep wait) else skip_);;;
      update (fun x => set_objects (alter (fun b => mkBucket (of_Z 1) (bk_resetAt b)) i (li_objects x)) x)
  end).

Definition waitForGlobal : cmd unit :=
  read (fun x =>
  let stamps := shift_before (li_now x - 1000) (li_globalStamps x) in
  update (set_globalStamps stamps);;;
  (match stamps with
   | first :: _ => if (ro_globalPerSecond options <=? length stamps)%nat then ask (RqSleep (of_Z (first + 1000 - li_now x))) else skip_
   | [] => skip_
   end);;;
  update (fun x => set_globalStamps (li_globalStamps x ++ [li_now x]) x)).

Definition learn (key : jstr) (headers : list (jstr * jstr)) : cmd unit :=
  match header (js "x-ratelimit-remaining") headers, header (js "x-ratelimit-reset-after") headers with
  | Some remaining, Some resetAfter =>
      update (fun x => set_buckets (<[key := length (li_objects x)]> (li_buckets x))
        (set_objects (li_objects x ++ [mkBucket (number_of_string remaining)
           (add (of_Z (li_now x)) (mul (number_of_string resetAfter) (of_Z 1000)))]) x))
  | _, _ => skip_
  end.

Definition breaker_tripped : cmd bool :=
  match ro_breaker options with
  | None => Ret false
  | Some b => read (fun x => let '(r, stamps) := tripped b (li_now x) (li_invalid x) in update (set_invalid stamps);;; Ret r)
  end.
Definition breaker_record : cmd unit :=
  match ro_breaker options with
  | None => skip_
  | Some _ => update (fun x => noted Recorded (set_invalid (record (li_now x) (li_invalid x)) x))
  end.

Definition ok (status : Z) : bool := (200 <=? status) && (status <=? 299).
Definition shown (m : member) : jstr := match m with MAbsent => [] | MNumber _ s | MOther s => s end.

(** One pass of the loop and those after it; [more] of them may be waited out. *)
Fixpoint attempts (more : nat) (method path : jstr) (request : RestRequest) : cmd (Z * response_body) :=
  let key := routeKey method path in
  let* refused := breaker_tripped in
  if refused then Throw (js "invalid-response breaker tripped; calls refused until the window clears") else
  waitForBucket key;;;
  waitForGlobal;;;
  match headers request with
  | None => Throw (js "URIError")
  | Some hs =>
      let* response := ask (RqFetch method (ro_apiUrl options ++ path) hs (body_of request)) in
      learn key (hd_headers response);;;
      (let* text := ask (RqText (hd_status response)) in
       let body := parseBody text in
       let status := hd_status response in
       if (status =? 429)%Z then
         breaker_record;;;
         match more with
         | O => Throw (js "rate limited on " ++ key ++ js "; gave up after " ++ show_nat (ro_maxRetries options + 1) ++ js " tries")
         | S more =>
             ask (RqSleep (mul (retryAfterSeconds body (hd_headers response)) (of_Z 1000)));;;
             attempts more method path request
         end
       else
         (if (status =? 401)%Z || (status =? 403)%Z then breaker_record else skip_);;;
         if negb (ok status)
         then Throw (trim (js "discord " ++ method ++ js " " ++ key ++ js ": " ++ show_Z status ++ js " " ++ shown (read_member body (js "message"))))
         else Ret (status, body))
  end.

Definition request (method path : jstr) (r : RestRequest) : cmd (Z * response_body) := attempts (ro_maxRetries options) method path r.

Definition body_only (p : cmd (Z * response_body)) : cmd response_body := let* r := p in Ret (snd r).
Definition get (path : jstr) : cmd response_body := body_only (request (js "GET") path no_request).
Definition with_body (body : option jsval) (r : RestRequest) : RestRequest := mkRestRequest body (rr_multipart r) (rr_reason r).
Definition post (path : jstr) (body : option jsval) (r : RestRequest) : cmd response_body := body_only (request (js "POST") path (with_body body r)).
Definition patch (path : jstr) (body : option jsval) (r : RestRequest) : cmd response_body := body_only (request (js "PATCH") path (with_body body r)).
Definition put (path : jstr) (body : option jsval) : cmd response_body := body_only (request (js "PUT") path (with_body body no_request)).
Definition delete_ (path : jstr) : cmd unit := let* _ := request (js "DELETE") path no_request in Ret tt.
End Rest.

#[local] Close Scope Z_scope.
#[local] Open Scope nat_scope.

(** ** The notes of a call *)

Definition own (t : nat) (x : limits) : list note_ := omap (fun e => if decide (fst e = t) then Some (snd e) else None) (li_log x).

Lemma limit_own_noted t n x : own t (noted n x) = own t x ++ (if decide (li_running x = t) then [n] else []).
Proof. unfold own, noted. cbn. rewrite omap_app. cbn. by destruct (decide (li_running x = t)). Qed.

(** Others leave a call's notes alone. *)
Definition leaves (t : nat) (s s' : limits) : Prop := own t s' = own t s.
#[export] Instance leaves_preorder t : PreOrder (leaves t).
Proof. split; [done|]. intros s1 s2 s3 H1 H2. unfold leaves in *. congruence. Qed.

Definition is_fetch (n : note_) : bool := match n with Sent (RqFetch _ _ _ _) => true | _ => false end.
Definition fetches (l : list note_) : nat := length (filter (fun n => is_fetch n = true) l).
(** The responses a call has read, by their status and text. *)
Definition judgement (n : note_) : option (Z * jstr) :=
  match n with
  | Got r a =>
      match r return result (answer r) -> option (Z * jstr) with
      | RqText status => fun a => match a with Val text => Some (status, text) | Exn _ => None end
      | _ => fun _ => None
      end a
  | _ => None
  end.
Definition judged : list note_ -> list (Z * jstr) := omap judgement.
(** The responses that came, by their status, read or not. *)
Definition response_status (n : note_) : option Z :=
  match n with
  | Got r a =>
      match r return result (answer r) -> option Z with
      | RqFetch _ _ _ _ => fun a => match a with Val h => Some (hd_status h) | Exn _ => None end
      | _ => fun _ => None
      end a
  | _ => None
  end.
Definition arrived : list note_ -> list Z := omap response_status.
Definition invalid (status : Z) : bool := (status =? 401)%Z || (status =? 403)%Z || (status =? 429)%Z.
Definition is_record (n : note_) : bool := match n with Recorded => true | _ => false end.
Definition recorded (l : list note_) : nat := length (filter (fun n => is_record n = true) l).

Lemma fetches_app l k : fetches (l ++ k) = fetches l + fetches k.
Proof. unfold fetches. by rewrite filter_app, length_app. Qed.
Lemma judged_app l k : judged (l ++ k) = judged l ++ judged k.
Proof. apply omap_app. Qed.
Lemma arrived_app l k : arrived (l ++ k) = arrived l ++ arrived k.
Proof. apply omap_app. Qed.
Lemma recorded_app l k : recorded (l ++ k) = recorded l + recorded k.
Proof. unfold recorded. by rewrite filter_app, length_app. Qed.

Section Calls.
Context {doc : Type} (JSON_parse : jstr -> option doc) (member_of : doc -> jstr -> member).
Context (options : RestOptions).
Context (t : nat).
#[local] Abbreviation parseBody := (parseBody JSON_parse).
#[local] Abbreviation attempts := (attempts JSON_parse member_of options).
#[local] Abbreviation request := (request JSON_parse member_of options).

(** Every response Discord counts against the address was recorded, where
    there is a breaker. *)
Definition invalid_in (l : list (Z * jstr)) : nat := length (filter (fun j => invalid (fst j) = true) l).
Definition booked (l : list note_) : Prop := recorded l = if present (ro_breaker options) then invalid_in (judged l) else 0.
(** The last response read was no success. *)
Definition unsettled (l : list note_) : Prop := match last (judged l) with Some (status, _) => ok status = false | None => True end.

(** The responses that came are those that were read and [unread]. *)
Definition left_unread (unread : list Z) (l : list note_) : Prop := arrived l = (fst <$> judged l) ++ unread.

Definition tries (n : nat) (s : limits) : Prop := fetches (own t s) <= n.
Definition awaiting (unread : list Z) (n : nat) (s : limits) : Prop :=
  li_running s = t /\ booked (own t s) /\ unsettled (own t s) /\ tries n s /\ left_unread unread (own t s).
#[local] Abbreviation trying := (awaiting []).
Definition most : nat := S (ro_maxRetries options).
Definition sound_call (s : limits) : Prop :=
  booked (own t s) /\ tries most s /\ exists unread, left_unread unread (own t s) /\ length unread <= 1.

(** What a call comes to: the last response, if it is a success, or an error
    after none. *)
Definition verdict (r : result (Z * response_body)) (s : limits) : Prop :=
  sound_call s /\
  match r with
  | Val (status, body) => left_unread [] (own t s) /\ ok status = true /\ exists text, last (judged (own t s)) = Some (status, text) /\ body = parseBody text
  | Exn e => unsettled (own t s) /\
      (left_unread [] (own t s) \/ exists status, left_unread [status] (own t s) /\ Got (RqText status) (Exn e) ∈ own t s)
  end.

Definition anything (r : rq) (a : result (answer r)) (s : limits) : Prop := True.
Definition no_streams (t' : nat) (src ev : Empty_set) (s : limits) : Prop := True.
Abbreviation wp_ := (wp issue receive yielded enter ready anything no_streams sound_call leaves t).
Abbreviation guar_ := (guar leaves t).
Abbreviation keeps_ := (keeps issue receive yielded enter ready anything no_streams sound_call leaves t).
Abbreviation steps_ := (steps leaves t).

Lemma own_here n s : li_running s = t -> own t (noted n s) = own t s ++ [n].
Proof. intros Hs. by rewrite limit_own_noted, decide_True. Qed.
Lemma limit_guar_noted n s : li_running s = t -> guar_ s (noted n s).
Proof. intros Hs t' Hne. unfold leaves. rewrite limit_own_noted, decide_False by congruence. by rewrite app_nil_r. Qed.

(** A note of no consequence: no request sent, no response read, none
    recorded. *)
Definition idle (n : note_) : Prop := is_fetch n = false /\ judgement n = None /\ is_record n = false /\ response_status n = None.

Lemma idle_app l n : idle n ->
  fetches (l ++ [n]) = fetches l /\ judged (l ++ [n]) = judged l /\ recorded (l ++ [n]) = recorded l /\ arrived (l ++ [n]) = arrived l.
Proof.
  intros (Hf & Hj & Hr & Ha). rewrite fetches_app, judged_app, recorded_app, arrived_app. unfold fetches, judged, recorded, arrived.
  cbn [omap list_omap]. rewrite Hj, Ha. rewrite !filter_cons, Hf, Hr. cbn. by rewrite !Nat.add_0_r, !app_nil_r.
Qed.

Lemma trying_idle unread n note s : idle note -> awaiting unread n s -> awaiting unread n (noted note s).
Proof.
  intros Hi (Hs & Hb & Hu & Ht & Hl). destruct (idle_app (own t s) note Hi) as (E1 & E2 & E3 & E4).
  unfold awaiting, booked, unsettled, tries, left_unread. rewrite own_here, E1, E2, E3, E4 by done. by split_and!.
Qed.

Lemma trying_sound unread n s : n <= most -> length unread <= 1 -> awaiting unread n s -> sound_call s.
Proof. intros Hn Hl (_ & Hb & _ & Ht & Hu). split_and!; [done|unfold tries in *; lia|by exists unread]. Qed.

Lemma trying_again unread n s s1 now : awaiting unread n s -> leaves t s s1 -> awaiting unread n (enter t now s1).
Proof.
  intros (_ & Hb & Hu & Ht) Hl. unfold leaves in Hl. unfold awaiting, tries in *. change (own t (enter t now s1)) with (own t s1). by rewrite Hl.
Qed.

(** What changes no note. *)
Lemma trying_aside unread n f : (forall s, li_log (f s) = li_log s /\ li_running (f s) = li_running s) -> steps_ (awaiting unread n) f.
Proof.
  intros Hf s Hs. destruct (Hf s) as [El Er]. split.
  - intros t' _. unfold leaves, own. by rewrite El.
  - unfold awaiting, tries, own in *. by rewrite El, Er.
Qed.

Lemma limit_keeps_ask n r : n <= most -> (forall a, idle (Got r a)) -> idle (Sent r) -> keeps_ (trying n) (ask r).
Proof.
  intros Hn Hg Hi. apply keeps_call.
  - intros s. apply trying_sound; [done|cbn; lia].
  - intros s Hs. split; [apply limit_guar_noted, Hs|by apply trying_idle].
  - intros a s s1 now Hs Hl _ _. pose proof (trying_again [] n s s1 now Hs Hl) as H1. split; [|by apply trying_idle].
    apply (limit_guar_noted (Got r a) (enter t now s1)), H1.
Qed.

Lemma keeps_sleep n ms : n <= most -> keeps_ (trying n) (ask (RqSleep ms)).
Proof. intros Hn. by apply limit_keeps_ask. Qed.

Lemma keeps_bucket n key : n <= most -> keeps_ (trying n) (waitForBucket key).
Proof.
  intros Hn. apply keeps_read. intros x _. destruct (_ ≫= _) as [[i bucket]|]; [|apply keeps_ret]. destruct (positive _); [apply keeps_ret|].
  apply keeps_bind; [destruct (positive _); [by apply keeps_sleep|apply keeps_ret]|]. intros _. apply keeps_step. by apply trying_aside.
Qed.

Lemma keeps_global n : n <= most -> keeps_ (trying n) (waitForGlobal options).
Proof.
  intros Hn. apply keeps_read. intros x _. apply keeps_bind; [apply keeps_step; by apply trying_aside|]. intros _.
  apply keeps_bind; [|intros _; apply keeps_step; by apply trying_aside].
  destruct (shift_before _ _); [apply keeps_ret|]. destruct (_ <=? _); [by apply keeps_sleep|apply keeps_ret].
Qed.

Lemma wp_learn unread n key hs s : awaiting unread n s -> wp_ (learn key hs) s (fun r s' => r = Val tt /\ awaiting unread n s').
Proof.
  intros Hs. unfold learn. destruct (header (js "x-ratelimit-remaining") hs); [|done]. destruct (header (js "x-ratelimit-reset-after") hs); [|done].
  match goal with |- context [update ?f] => destruct (trying_aside unread n f) with (s := s) as [Hg H1]; [done|done|] end.
  apply wp_update; [exact Hg|by split].
Qed.

Lemma keeps_tripped n : keeps_ (trying n) (breaker_tripped options).
Proof.
  unfold breaker_tripped. destruct (ro_breaker options) as [b|]; [|apply keeps_ret]. apply keeps_read. intros x _.
  destruct (tripped b _ _) as [r stamps]. apply keeps_bind; [apply keeps_step; by apply trying_aside|]. intros _. apply keeps_ret.
Qed.

(** A response that was read but not yet booked. *)
Definition reading (n : nat) (status : Z) (text : jstr) (s : limits) : Prop :=
  li_running s = t /\ exists l, own t s = l ++ [Got (RqText status) (Val text)] /\ booked l /\ fetches l <= n /\ left_unread [status] l.

Lemma reading_judged n status text s : reading n status text s ->
  last (judged (own t s)) = Some (status, text) /\ tries n s /\ left_unread [] (own t s).
Proof.
  intros (_ & l & E & _ & Hf & Hl). unfold tries, left_unread in *. rewrite E, judged_app, fetches_app, arrived_app, Hl.
  change (judged [Got (RqText status) (Val text)]) with [(status, text)]. change (fetches [Got (RqText status) (Val text)]) with 0.
  change (arrived [Got (RqText status) (Val text)]) with (@nil Z). rewrite fmap_app, !app_nil_r. split_and!; [apply last_snoc|lia|done].
Qed.

(** Booked or none of its kind. *)
Lemma reading_valid n status text s : reading n status text s -> invalid status = false -> booked (own t s).
Proof.
  intros (_ & l & E & Hb & _) Hv. unfold booked, invalid_in. rewrite E, judged_app, recorded_app, filter_app, length_app.
  change (recorded [Got (RqText status) (Val text)]) with 0. change (judged [Got (RqText status) (Val text)]) with [(status, text)].
  rewrite filter_cons. cbn [fst]. rewrite Hv, decide_False by done. cbn [filter list_filter length]. by rewrite !Nat.add_0_r.
Qed.

Lemma wp_record n status text s (Q : result unit -> limits -> Prop) : reading n status text s -> invalid status = true ->
  (forall s', li_running s' = t -> booked (own t s') -> tries n s' -> last (judged (own t s')) = Some (status, text) -> left_unread [] (own t s') ->
     Q (Val tt) s') ->
  wp_ (breaker_record options) s Q.
Proof.
  intros Hr Hv HQ. destruct (reading_judged n status text s Hr) as (Hj & Ht & Hl). destruct Hr as (Hs & l & E & Hb & Hf & _). unfold booked, invalid_in in *. unfold breaker_record.
  destruct (ro_breaker options) as [b|]; cbn [present] in *.
  - assert (Ho : own t (noted Recorded (set_invalid (record (li_now s) (li_invalid s)) s)) = own t s ++ [Recorded]) by (by apply (own_here Recorded (set_invalid _ s))).
    apply wp_update; [exact (limit_guar_noted Recorded (set_invalid (record (li_now s) (li_invalid s)) s) Hs)|]. apply HQ; rewrite ?Ho.
    + done.
    + rewrite E, !recorded_app, !judged_app, !filter_app, !length_app, Hb. change (recorded [Recorded]) with 1. change (judged [Recorded]) with (@nil (Z * jstr)).
      change (recorded [Got (RqText status) (Val text)]) with 0. change (judged [Got (RqText status) (Val text)]) with [(status, text)].
      rewrite filter_cons. cbn [fst]. rewrite decide_True by done. cbn [filter list_filter length]. lia.
    + unfold tries in *. rewrite Ho, fetches_app. change (fetches [Recorded]) with 0. lia.
    + rewrite judged_app. change (judged [Recorded]) with (@nil (Z * jstr)). by rewrite app_nil_r.
    + unfold left_unread in *. rewrite judged_app, arrived_app. change (judged [Recorded]) with (@nil (Z * jstr)).
      change (arrived [Recorded]) with (@nil Z). by rewrite !app_nil_r in *.
  - apply HQ; try done. by rewrite E, recorded_app, Hb.
Qed.

Lemma wp_fetch_and_read {A : Type} n method url hs body s (after : head_ -> cmd unit) (k : head_ -> jstr -> cmd A) (Q : result A -> limits -> Prop) :
  S n <= most -> trying n s -> (forall h unread s, awaiting unread (S n) s -> wp_ (after h) s (fun r s' => r = Val tt /\ awaiting unread (S n) s')) ->
  (forall e s', trying (S n) s' -> Q (Exn e) s') ->
  (forall e status s', awaiting [status] (S n) s' -> Got (RqText status) (Exn e) ∈ own t s' -> Q (Exn e) s') ->
  (forall h text s', reading (S n) (hd_status h) text s' -> wp_ (k h text) s' Q) ->
  wp_ (bind (ask (RqFetch method url hs body)) (fun h => bind (after h) (fun _ => bind (ask (RqText (hd_status h))) (k h)))) s Q.
Proof.
  intros Hn (Hs & Hb & Hu & Ht & Hl) Hafter Hexn Hbroken Hk.
  assert (H1 : trying (S n) (noted (Sent (RqFetch method url hs body)) s)).
  { unfold awaiting, booked, unsettled, tries, left_unread in *. rewrite own_here, fetches_app, judged_app, recorded_app, arrived_app by done.
    change (fetches [Sent (RqFetch method url hs body)]) with 1. change (judged [Sent (RqFetch method url hs body)]) with (@nil (Z * jstr)).
    change (recorded [Sent (RqFetch method url hs body)]) with 0. change (arrived [Sent (RqFetch method url hs body)]) with (@nil Z).
    rewrite !app_nil_r, Nat.add_0_r in *. split_and!; [done..|lia|done]. }
  apply wp_bind. apply wp_call; [by apply limit_guar_noted|apply (trying_sound [] (S n)); [done|cbn; lia|done]|]. intros a s1 now Hl1 _ _ _.
  pose proof (trying_again [] (S n) _ s1 now H1 Hl1) as H2. split; [exact (limit_guar_noted (Got (RqFetch method url hs body) a) (enter t now s1) (proj1 H2))|].
  destruct a as [h|e]; [|by apply Hexn, trying_idle].
  assert (H3 : awaiting [hd_status h] (S n) (receive (RqFetch method url hs body) (Val h) (enter t now s1))).
  { destruct H2 as (Hr2 & Hb2 & Hu2 & Ht2 & Hl2). unfold awaiting, booked, unsettled, tries, left_unread, receive in *.
    rewrite own_here, fetches_app, judged_app, recorded_app, arrived_app, Hl2 by done. set (g := Got (RqFetch method url hs body) (Val h)).
    change (fetches [g]) with 0. change (judged [g]) with (@nil (Z * jstr)). change (recorded [g]) with 0. change (arrived [g]) with [hd_status h].
    rewrite !app_nil_r, !Nat.add_0_r. by split_and!. }
  apply wp_bind. eapply wp_mono; [|apply (Hafter h _ _ H3)]. intros r s2 [-> H4].
  apply wp_bind. assert (H5 : awaiting [hd_status h] (S n) (noted (Sent (RqText (hd_status h))) s2)) by (by apply trying_idle).
  apply wp_call; [exact (limit_guar_noted (Sent (RqText (hd_status h))) s2 (proj1 H4))|by apply (trying_sound [hd_status h] (S n))|]. intros a s3 now' Hl' _ _ _.
  pose proof (trying_again _ (S n) _ s3 now' H5 Hl') as H6. split; [exact (limit_guar_noted (Got (RqText (hd_status h)) a) (enter t now' s3) (proj1 H6))|].
  destruct a as [text|e].
  - apply Hk. destruct H6 as (Hr & Hb6 & Hu6 & Ht6 & Hl6). split; [done|]. exists (own t (enter t now' s3)). split_and!; [by apply own_here|done..].
  - apply (Hbroken e (hd_status h)); [by apply trying_idle|]. unfold receive. rewrite own_here by apply H6. apply elem_of_app. right. by left.
Qed.

Lemma wp_finish n status text message s : reading n status text s -> n <= most -> status <> 429%Z ->
  wp_ (bind (if (status =? 401)%Z || (status =? 403)%Z then breaker_record options else skip_)
         (fun _ => if negb (ok status) then Throw message else Ret (status, parseBody text))) s verdict.
Proof.
  intros Hr Hn H429. apply wp_bind.
  assert (Hend : forall s', li_running s' = t -> booked (own t s') -> tries n s' -> last (judged (own t s')) = Some (status, text) ->
            left_unread [] (own t s') -> wp_ (if negb (ok status) then Throw message else Ret (status, parseBody text)) s' verdict).
  { intros s' Hs Hb Ht Hj Hl. assert (sound_call s') by (split_and!; [done|unfold tries in *; lia|exists []; split; [done|cbn; lia]]).
    destruct (ok status) eqn:Eo; cbn [negb].
    - split; [done|]. split; [done|]. split; [done|]. by exists text.
    - split; [done|]. split; [|by left]. unfold unsettled. by rewrite Hj. }
  destruct (_ || _) eqn:E.
  - apply (wp_record n status text); [done|unfold invalid; by rewrite E|exact Hend].
  - destruct (reading_judged n _ _ _ Hr) as (Hj & Ht & Hl). apply Hend; [apply Hr| |done|done|done]. apply (reading_valid n status text); [done|].
    unfold invalid. rewrite E. by apply Z.eqb_neq.
Qed.

Lemma wp_attempts more n method path r s : n + S more <= most -> trying n s -> wp_ (attempts more method path r) s verdict.
Proof.
  revert n s. induction more as [|more IH]; intros n s Hn Hs; cbn [DiscordRest.attempts].
  all: assert (Hexn : forall m e s', m <= most -> trying m s' -> verdict (Exn e) s')
    by (intros m e s' Hm H; split; [apply (trying_sound [] m); [done|cbn; lia|done]|split; [apply H|left; apply H]]).
  all: assert (Hbroken : forall m e status s', m <= most -> awaiting [status] m s' -> Got (RqText status) (Exn e) ∈ own t s' -> verdict (Exn e) s')
    by (intros m e status s' Hm H Hg; split; [by apply (trying_sound [status] m)|split; [apply H|right; exists status; split; [apply H|done]]]).
  all: apply wp_bind; eapply wp_mono; [|by apply (keeps_tripped n)]; intros [refused|e] s1 H1; [|apply (Hexn n); [lia|done]].
  all: destruct refused; [apply (Hexn n); [lia|done]|].
  all: apply wp_bind; eapply wp_mono; [|apply (keeps_bucket n); [lia|exact H1]]; intros [[]|e] s2 H2; [|apply (Hexn n); [lia|done]].
  all: apply wp_bind; eapply wp_mono; [|apply (keeps_global n); [lia|exact H2]]; intros [[]|e] s3 H3; [|apply (Hexn n); [lia|done]].
  all: destruct (headers options r) as [hs|]; [|apply (Hexn n); [lia|done]].
  all: apply (wp_fetch_and_read n _ _ _ _ _ (fun h => learn (routeKey method path) (hd_headers h))); [lia|done|intros h unread s'; apply wp_learn|intros e s4 H4; apply (Hexn (S n)); [lia|done]
    |intros e status s4 H4 Hg; apply (Hbroken (S n) e status); [lia|done..]|].
  all: intros h text s4 H4; destruct (Z.eqb_spec (hd_status h) 429) as [E|E].
  all: destruct (reading_judged (S n) _ _ _ H4) as (Hj & Ht & Hl).
  1, 3: apply wp_bind, (wp_record (S n) (hd_status h) text); [done|unfold invalid; by rewrite E|]; intros s5 Hr5 Hb5 Ht5 Hj5 Hl5;
        assert (H5 : trying (S n) s5) by (split_and!; [done..| |done|done]; unfold unsettled; by rewrite Hj5, E).
  - apply (Hexn (S n)); [lia|done].
  - apply wp_bind. eapply wp_mono; [|apply (keeps_sleep (S n)); [lia|exact H5]]. intros [[]|e] s6 H6; [|apply (Hexn (S n)); [lia|done]].
    apply (IH (S n)); [lia|done].
  - apply (wp_finish (S n) (hd_status h) text); [done|lia|done].
  - apply (wp_finish (S n) (hd_status h) text); [done|lia|done].
Qed.
End Calls.

(** ** A call among others *)

Definition minds (t : nat) (f : limits -> limits) : Prop := forall s, own t (f s) = own t s.
Abbreviation play := (played issue receive yielded enter ready).
Abbreviation replies := (nat -> (limits -> limits) * Z * (forall r, result (answer r))).

Lemma request_keeps {doc} JSON_parse (member_of : doc -> jstr -> member) options t now method path r s (answers : replies) n s' q :
  own t s = [] -> (forall i, minds t (fst (fst (answers i)))) ->
  play t (request JSON_parse member_of options method path r) (enter t now s) (inputs answers n) = Some (s', q) ->
  sound_call options t s' /\ comes_to q s' (verdict JSON_parse options t).
Proof.
  intros Hnew Hm. apply (played_keeps issue receive yielded enter ready anything no_streams (sound_call options t) leaves t).
  - by intros res s1 [H _].
  - apply (wp_attempts JSON_parse member_of options t (ro_maxRetries options) 0); [unfold most; lia|].
    unfold awaiting, booked, unsettled, tries, left_unread. change (own t (enter t now s)) with (own t s). rewrite Hnew. split_and!; [done| |done|done|done].
    by destruct (ro_breaker options).
  - apply Forall_fmap, Forall_true. intros i. specialize (Hm i). cbn. destruct (answers i) as [[others now'] a]. split; [|done].
    intros s1 Hs1. split; [apply Hm|]. unfold sound_call, tries in *. cbn [fst] in *. pose proof (Hm s1) as E. by rewrite E.
Qed.

(** C25: A call to Discord ends, and says how it went. However Discord
    answers, with refusals and rate limits and connections that break, and
    whatever other calls do meanwhile: it sends at most one request more than
    it may retry; it returns exactly when the last response it read was a
    success, with that response's status and body, and throws otherwise; and
    every response that Discord counts against the address was recorded once
    its body was read. A call that returns read every response that came. One
    that throws did too, unless the body of the last broke off: that response
    is recorded nowhere, whatever its status, and the call throws what broke it
    off. *)
Theorem calls_to_discord_end {doc} JSON_parse (member_of : doc -> jstr -> member) options t now method path r s (answers : replies) :
  own t s = [] -> (forall i, minds t (fst (fst (answers i)))) ->
  (exists n s' res, play t (request JSON_parse member_of options method path r) (enter t now s) (inputs answers n) = Some (s', of_result res) /\
     match res with
     | Val (status, body) => arrived (own t s') = fst <$> judged (own t s') /\
         ok status = true /\ exists text, last (judged (own t s')) = Some (status, text) /\ body = parseBody JSON_parse text
     | Exn e => match last (judged (own t s')) with Some (status, _) => ok status = false | None => True end /\
         (arrived (own t s') = fst <$> judged (own t s') \/
          exists status, arrived (own t s') = (fst <$> judged (own t s')) ++ [status] /\ Got (RqText status) (Exn e) ∈ own t s')
     end) /\
  (forall n s' q, play t (request JSON_parse member_of options method path r) (enter t now s) (inputs answers n) = Some (s', q) ->
     fetches (own t s') <= S (ro_maxRetries options) /\
     (exists unread, arrived (own t s') = (fst <$> judged (own t s')) ++ unread /\ length unread <= 1) /\
     recorded (own t s') = if present (ro_breaker options) then invalid_in (judged (own t s')) else 0).
Proof.
  intros Hnew Hm. split.
  - destruct (played_ends issue receive yielded enter ready t (request JSON_parse member_of options method path r) (enter t now s) answers)
      as (n & s' & res & Hp); [by intros []|done|].
    destruct (request_keeps _ _ _ _ _ _ _ _ _ answers n s' _ Hnew Hm Hp) as [_ Hv]. exists n, s', res. split; [done|].
    destruct res as [[status body]|e]; destruct Hv as [_ Hv]; unfold left_unread in Hv; by rewrite app_nil_r in Hv.
  - intros n s' q Hp. destruct (request_keeps _ _ _ _ _ _ _ _ _ answers n s' q Hnew Hm Hp) as [(Hb & Ht & Hl) _]. by split_and!.
Qed.

(** ** The breaker *)

(** What the bots did with the breaker, in order: record a response, or ask
    whether it has tripped. *)
Definition use (b : breaker) (stamps : list Z) (op : Z * bool) : list Z :=
  if snd op then record (fst op) stamps else snd (tripped b (fst op) stamps).
Definition used (b : breaker) (ops : list (Z * bool)) : list Z := fold_left (use b) ops [].
Definition records (ops : list (Z * bool)) : list Z := fst <$> filter (fun op => snd op = true) ops.

Lemma shift_sorted floor l : StronglySorted Z.le l -> shift_before floor l = filter (fun x => floor <= x)%Z l.
Proof.
  induction 1 as [|x l Hl IH Hx]; [done|]. cbn [shift_before]. rewrite filter_cons. destruct (Z.ltb_spec x floor) as [Hlt|Hge].
  - rewrite decide_False by lia. exact IH.
  - rewrite decide_True by done. f_equal. clear IH Hl. induction Hx as [|y l Hy _ IH]; [done|]. rewrite filter_cons, decide_True by lia. by f_equal.
Qed.

(** What it keeps: the records but some that have left the window. *)
Definition keeps_window (b : breaker) (ops : list (Z * bool)) (now : Z) : Prop :=
  exists gone, records ops = gone ++ used b ops /\ Forall (fun x => x < now - br_windowMs b)%Z gone.

Lemma records_app l k : records (l ++ k) = records l ++ records k.
Proof. unfold records. by rewrite filter_app, fmap_app. Qed.
Lemma used_snoc b ops op : used b (ops ++ [op]) = use b (used b ops) op.
Proof. unfold used. by rewrite fold_left_app. Qed.

Lemma records_sorted ops : StronglySorted Z.le (fst <$> ops) -> StronglySorted Z.le (records ops).
Proof.
  induction ops as [|[now kind] ops IH]; intros Hs; [constructor|]. cbn in Hs. apply StronglySorted_inv in Hs as [Hs Hnow].
  unfold records. rewrite filter_cons. destruct (decide _); [|by apply IH]. cbn. constructor; [by apply IH|].
  apply Forall_fmap, Forall_forall. intros op [_ Hop]%list_elem_of_filter. rewrite Forall_fmap, Forall_forall in Hnow. by apply Hnow.
Qed.

Lemma shift_dropped floor l : exists gone, l = gone ++ shift_before floor l /\ Forall (fun x => x < floor)%Z gone.
Proof.
  induction l as [|x l (gone & E & H)]; [by exists []|]. cbn. destruct (Z.ltb_spec x floor) as [Hlt|]; [|by exists []].
  exists (x :: gone). split; [cbn; congruence|by constructor].
Qed.

Lemma window_kept b ops : StronglySorted Z.le (fst <$> ops) -> forall now, Forall (fun op => fst op <= now)%Z ops -> keeps_window b ops now.
Proof.
  induction ops as [|op ops IH] using rev_ind; intros Hs now Hnow; [by exists []|].
  rewrite fmap_app in Hs. apply StronglySorted_app in Hs as (Hcross & Hs & _). apply Forall_app in Hnow as [Hnow [Hop _]%Forall_cons].
  assert (Hbefore : Forall (fun o => fst o <= fst op)%Z ops).
  { apply Forall_forall. intros o Ho. apply Hcross; [by apply list_elem_of_fmap_2|by left]. }
  destruct (IH Hs (fst op) Hbefore) as (gone & E & Hg). unfold keeps_window. rewrite records_app, used_snoc, E. unfold use. destruct op as [at_ [|]]; cbn [fst snd] in *.
  - exists gone. split; [by rewrite <- app_assoc|]. eapply Forall_impl; [exact Hg|]. cbn. lia.
  - destruct (shift_dropped (at_ - br_windowMs b) (used b ops)) as (more & E' & Hm). exists (gone ++ more). split.
    + change (records [(at_, false)]) with (@nil Z). rewrite app_nil_r, <- app_assoc. unfold tripped, count. cbn. by rewrite <- E'.
    + apply Forall_app. split; (eapply Forall_impl; [eassumption|]); cbn; lia.
Qed.

Lemma window_decides b ops now : keeps_window b ops now -> StronglySorted Z.le (records ops) ->
  fst (tripped b now (used b ops)) = bool_decide (br_limit b <= length (filter (fun x => now - br_windowMs b <= x)%Z (records ops))).
Proof.
  intros (gone & E & Hg) Hs. rewrite E in Hs. apply StronglySorted_app in Hs as (_ & _ & Hs). unfold tripped, count. cbn [fst].
  rewrite shift_sorted by done. rewrite E, filter_app, length_app.
  assert (filter (fun x => now - br_windowMs b <= x)%Z gone = []) as ->.
  { clear E Hs. induction Hg as [|x gone Hx _ IH]; [done|]. by rewrite filter_cons, decide_False by lia. }
  cbn [length Nat.add]. by destruct (Nat.leb_spec (br_limit b) (length (filter (fun x => now - br_windowMs b <= x)%Z (used b ops)))) as [H|H];
    [rewrite bool_decide_eq_true_2|rewrite bool_decide_eq_false_2 by lia].
Qed.

(** C26: The breaker is a window over every bot's responses. While the clock
    does not go back, it has tripped exactly when the responses recorded in
    the last [windowMs] reach its limit, however it was asked in between; and
    a call made while it is tripped throws at once, sending nothing. *)
Theorem breaker_is_a_window b ops : StronglySorted Z.le (fst <$> ops) ->
  (forall before now, (before ++ [(now, false)]) `prefix_of` ops ->
     fst (tripped b now (used b before)) =
     bool_decide (br_limit b <= length (filter (fun x => now - br_windowMs b <= x)%Z (records before)))) /\
  (forall doc JSON_parse (member_of : doc -> jstr -> member) options t now method path r s,
     ro_breaker options = Some b -> fst (tripped b now (li_invalid s)) = true ->
     exists s' e, play t (request JSON_parse member_of options method path r) (enter t now s) [] = Some (s', Throw e) /\ own t s' = own t s).
Proof.
  intros Hs. split.
  - intros before now [rest ->]. rewrite !fmap_app in Hs. apply StronglySorted_app_1_l, StronglySorted_app in Hs as (Hcross & Hs & _).
    apply window_decides; [|by apply records_sorted]. apply window_kept; [done|]. apply Forall_forall. intros o Ho.
    apply Hcross; [by apply list_elem_of_fmap_2|by left].
  - intros doc JSON_parse member_of options t now method path r s Hb Ht. cbn [played]. unfold request, attempts.
    destruct (ro_maxRetries options); cbn [DiscordRest.attempts]; unfold breaker_tripped; rewrite Hb; cbn; unfold tripped, count in *; cbn [fst] in Ht;
      rewrite Ht; cbn; eexists _, _; (split; [reflexivity|done]).
Qed.

(** ** A demonstration *)

(** A request that is rate limited once and goes through at the second try. *)
Definition demo_options : RestOptions := mkRestOptions (js "token") (Some (mkBreaker 2 1000)) API_URL 50 1.
Definition demo_parse (text : jstr) : option unit := None.
Definition demo_member (d : unit) (k : jstr) : member := MAbsent.
Definition demo_answers : replies := fun i =>
  (fun s => s, 100%Z, fun r => match r return result (answer r) with
    | RqSleep _ => Val tt
    | RqFetch _ _ _ _ => Val (mkHead (if Nat.eqb i 0 then 429 else 200) [(js "retry-after", js "0.5")])
    | RqText _ => Val (js "hello")
    end).
Definition demo_request : cmd (Z * response_body) := request demo_parse demo_member demo_options (js "GET") (js "/users/@me") no_request.
Definition demo_played : option (limits * cmd (Z * response_body)) := play 0 demo_request (enter 0 100 new_limits) (inputs demo_answers 5).
Definition demo_end : limits := default new_limits (fst <$> demo_played).

Lemma calls_to_discord_end_witness :
  (fetches (own 0 demo_end) <= 2 /\ recorded (own 0 demo_end) = 1) /\ (fetches (own 0 demo_end) = 2 /\ arrived (own 0 demo_end) = [429; 200]%Z) /\
  snd <$> demo_played = Some (Ret (200%Z, Text (js "hello"))).
Proof.
  assert (E : demo_played = Some (demo_end, Ret (200%Z, Text (js "hello")))) by evaluated.
  split; [|split; [split|]; evaluated].
  destruct (proj2 (calls_to_discord_end demo_parse demo_member demo_options 0 100 (js "GET") (js "/users/@me") no_request new_limits demo_answers
    ltac:(reflexivity) ltac:(intros i s; reflexivity)) 5 demo_end _ E) as (H1 & _ & H2). split; [exact H1|]. rewrite H2. evaluated.
Defined.

(** A refusal whose body breaks off is not recorded. *)
Definition broken_answers : replies := fun i =>
  (fun s => s, 100%Z, fun r => match r return result (answer r) with
    | RqSleep _ => Val tt
    | RqFetch _ _ _ _ => Val (mkHead 403 [])
    | RqText _ => Exn (js "terminated")
    end).
Lemma broken_refusal_is_unrecorded :
  exists s', play 0 demo_request (enter 0 100 new_limits) (inputs broken_answers 2) = Some (s', Throw (js "terminated")) /\
    arrived (own 0 s') = [403%Z] /\ recorded (own 0 s') = 0.
Proof.
  exists (default new_limits (fst <$> play 0 demo_request (enter 0 100 new_limits) (inputs broken_answers 2))). split_and!; evaluated.
Qed.

(** Two refusals within a second trip it; a second later it has cleared. *)
Definition demo_uses : list (Z * bool) := [(0, true); (500, false); (600, true); (900, false); (1700, false)]%Z.

Lemma breaker_is_a_window_witness :
  fst (tripped (mkBreaker 2 1000) 900 (used (mkBreaker 2 1000) [(0, true); (500, false); (600, true)]%Z)) = true /\
  fst (tripped (mkBreaker 2 1000) 1700 (used (mkBreaker 2 1000) [(0, true); (500, false); (600, true); (900, false)]%Z)) = false.
Proof.
  assert (Hs : StronglySorted Z.le (fst <$> demo_uses)) by (repeat constructor; discriminate).
  destruct (breaker_is_a_window (mkBreaker 2 1000) demo_uses Hs) as [H _]. split.
  - rewrite (H [(0, true); (500, false); (600, true)]%Z 900%Z); [reflexivity|]. by exists [(1700, false)%Z].
  - rewrite (H [(0, true); (500, false); (600, true); (900, false)]%Z 1700%Z); [reflexivity|]. by exists [].
Defined.
