(* ===== verification/Toolbelt.v ===== *)
(** [apps/agentd/src/toolbelt.ts]: the tools a session has. Each is a program
    over the agent's routines; what it awaits is the Slack bridge, reached
    through the agent's own way out, and the files of its machine.

    Then: what the tools of a session promise: standing work that can always
    be carried out, one-shots that come back to where they were asked for, and
    refusals the rest of the agent can tell apart. *)

From S2P Require Import Prelude A2A Translator AsyncLogic Bytes SessionId SlackState SlackHttp RoutineRuns Activity Attachments Envelope Json Cron Routines Async Values Forms.
#[local] Open Scope Z_scope.

Definition UPLOAD_LIMIT_BYTES : Z := 50 * 1024 * 1024.

(** ** What is awaited *)

(** A call of the bridge, answered by its status, and then its body read as
    JSON; a file's size and its bytes. *)
Inductive body_sent := NoBody | JsonBody (text : jstr) | BytesBody (bytes : list N).
Inductive rq :=
| RqBridge (post : bool) (path : jstr) (body : body_sent)
| RqJson
| RqStat (path : jstr)
| RqReadFile (path : jstr).
Definition answer (r : rq) : Type :=
  match r with RqBridge _ _ _ => Z | RqJson => jsval | RqStat _ => Z | RqReadFile _ => list N end.

(** The agent's routines, the ids made so far, the time, and what was
    asked. *)
Record belt := mkBelt {
  be_routines : table;
  be_made : nat;
  be_now : Z;
  be_asked : list rq }.
Definition set_routines (v : table) (x : belt) : belt := mkBelt v (be_made x) (be_now x) (be_asked x).
Definition made_one (x : belt) : belt := mkBelt (be_routines x) (S (be_made x)) (be_now x) (be_asked x).
Definition issue (r : rq) (x : belt) : belt := mkBelt (be_routines x) (be_made x) (be_now x) (be_asked x ++ [r]).
Definition receive (r : rq) (a : result (answer r)) (x : belt) : belt := x.
Definition yielded (src : Empty_set) (ev : option Empty_set) (x : belt) : belt := x.
Definition enter (t : nat) (now : Z) (x : belt) : belt := mkBelt (be_routines x) (be_made x) now (be_asked x).
Definition ready (r : rq) (x : belt) : bool := true.
Abbreviation cmd := (prog belt Empty_set Empty_set answer).
Definition ask (r : rq) : cmd (answer r) := call r.

(** ** Outcomes *)

Inductive ToolOutcome :=
| Ok (detail : jsval)
| Refused (error : jstr)
| Redundant (error : jstr)
| Failed (error : jstr).

Record tool_result := mkToolResult {
  tr_text : jstr;
  tr_isError : bool }.

(** What [...v] adds to an object. *)
Definition fields_of (v : jsval) : list (jstr * jsval) :=
  match v with
  | VObj fs => fs
  | VArr l => imap (fun i x => (show_nat i, x)) l
  | VStr s => imap (fun i c => (show_nat i, VStr [c])) s
  | _ => []
  end.
(** [{ ok: true, ...detail }]: a field of its own called [ok] stays first,
    with the detail's value. *)
Fixpoint spread (fields detail : list (jstr * jsval)) : list (jstr * jsval) :=
  match detail with
  | [] => fields
  | (k, v) :: rest => spread (put_field k v fields) rest
  end.
Definition ok (detail : list (jstr * jsval)) : tool_result :=
  mkToolResult (stringify (VObj (spread [(js "ok", VBool true)] detail))) false.
Definition toolError (text : jstr) : tool_result := mkToolResult text true.

Definition toToolResult (outcome : ToolOutcome) : tool_result :=
  match outcome with
  | Ok detail => ok (fields_of detail)
  | Refused error => toolError (js "Refused by the Slack bridge: " ++ error
      ++ js ". This is an authorization decision — the app is not in that conversation (or it does not exist). Do not retry the same channel; tell the user what you needed.")
  | Redundant error => toolError (js "Nothing to do: " ++ error ++ js " " ++ REDUNDANT_CALL)
  | Failed error => toolError (js "Failed: " ++ error ++ js ". This may be transient.")
  end.

(** ** Arguments, as the schemas leave them *)

Record schedule_args := mkSchedule {
  sc_at : jstr;
  sc_prompt : jstr;
  sc_name : option jstr }.

Inductive tool_call :=
| PostMessage (channel text : jstr) (thread_ts : option jstr)
| UploadFile (path channel : jstr) (thread_ts comment : option jstr)
| React (emoji : jstr) (message_ts : option jstr)
| ReadChannel (channel : jstr) (limit : option Z) (oldest latest cursor : option jstr)
| ReadThread (channel ts : jstr) (limit : option Z) (cursor : option jstr)
| SearchMessages (query : jstr) (count page : option Z)
| ListChannels (limit : option Z) (cursor : option jstr) (include_archived : option bool)
| ListUsers (limit : option Z) (cursor : option jstr)
| RoutineCreate (name cron prompt : jstr)
| ScheduleOnce (args : schedule_args)
| RoutineList
| RoutineUpdate_ (id : jstr) (patch : RoutineUpdate)
| RoutineDelete (id : jstr).

Record ToolbeltOptions := mkToolbelt {
  tb_cwd : jstr;
  tb_contextId : option jstr;
  tb_routines : bool }.

Section Toolbelt.
Context (options : ToolbeltOptions).
(** New ids, [Date.parse], [toISOString], and [Number] as [Cron] needs it. *)
Context (uuid : nat -> jstr) (parse_date : jstr -> option Z) (iso : Z -> jstr) (other_number : jstr -> option Z).

#[local] Open Scope async_scope.

Definition of_option {A : Type} (o : option A) : cmd A := match o with Some a => Ret a | None => Throw (js "TypeError") end.
Definition says (v : jsval) (otherwise : jstr) : jstr := to_string (or_else v (VStr otherwise)).

(** What a response comes to. A body that is no object has no properties;
    one that is [null] throws where it is read. *)
Definition outcome_of (status : Z) (b : jsval) : cmd ToolOutcome :=
  if (status =? 403)%Z then
    let* error := of_option (get b (js "error")) in
    let error := says error (js "refused") in
    Ret (match prop b (js "redundant") with VBool true => Redundant error | _ => Refused error end)
  else if negb ((200 <=? status) && (status <=? 299))%Z then
    let* error := of_option (get b (js "error")) in
    Ret (Failed (says error (js "Slack bridge returned " ++ show_Z status)))
  else Ret (Ok b).
Definition callBridge (post : bool) (path : jstr) (body : body_sent) : cmd ToolOutcome :=
  attempt (ask (RqBridge post path body)) (fun response =>
  match response with
  | Exn e => Ret (Failed (js "Slack bridge unreachable: " ++ e))
  | Val status =>
      attempt (ask RqJson) (fun read_ =>
      match read_ with
      | Exn _ => Ret (Failed (js "Slack bridge returned " ++ show_Z status ++ js " with no body"))
      | Val b => outcome_of status b
      end)
  end).

Definition opt_str (k : string) (v : option jstr) : list (jstr * jsval) := match v with Some s => [(js k, VStr s)] | None => [] end.
Definition opt_param (k : string) (v : option jstr) : list (jstr * jstr) := match v with Some s => [(js k, s)] | None => [] end.
Definition opt_number (k : string) (v : option Z) : list (jstr * jstr) := match v with Some n => [(js k, show_Z n)] | None => [] end.

Definition postMessage (channel text : jstr) (thread_ts : option jstr) : cmd ToolOutcome :=
  callBridge true (js "/api/messages")
    (JsonBody (stringify (VObj ([(js "channel", VStr channel); (js "text", VStr text)] ++ opt_str "thread_ts" thread_ts)))).

(** [resolve(cwd, path)], where [cwd] is absolute, and [basename]. *)
Definition without_last_slash (p : jstr) : jstr :=
  match last p with Some 47%N => match take (length p - 1) p with [] => p | q => q end | _ => p end.
Definition resolve (cwd path : jstr) : jstr := without_last_slash (normalize (cwd ++ js "/" ++ path)).
Definition basename (path : jstr) : jstr := after_last 47 (drop_trailing (fun c => (c =? 47)%N) path).

Definition uploadFile (path channel : jstr) (thread_ts comment : option jstr) : cmd ToolOutcome :=
  let filePath := if is_absolute path then path else resolve (tb_cwd options) path in
  attempt (ask (RqStat filePath)) (fun found =>
  match found with
  | Exn _ => Ret (Failed (js "no such file: " ++ filePath))
  | Val size =>
      if (size =? 0)%Z then Ret (Failed (js "refusing to upload an empty file: " ++ filePath))
      else if (UPLOAD_LIMIT_BYTES <? size)%Z
      then Ret (Failed (js "file is " ++ show_Z size ++ js " bytes; the upload limit is " ++ show_Z UPLOAD_LIMIT_BYTES))
      else
        let* bytes := ask (RqReadFile filePath) in
        callBridge true (js "/api/files?" ++ form_text ([(js "channel", channel); (js "filename", basename filePath)]
            ++ opt_param "thread_ts" thread_ts ++ opt_param "comment" comment)) (BytesBody bytes)
  end).

Definition readBridge (path : jstr) (params : list (jstr * jstr)) : cmd ToolOutcome :=
  let qs := form_text params in
  callBridge false (if jeqb qs [] then path else path ++ js "?" ++ qs) NoBody.

(** Where the session's turn is; [inr] is an error. *)
Definition origin_of (detail : jsval) : RoutineOrigin + jstr :=
  match prop detail (js "channel"), prop detail (js "thread_ts"), prop detail (js "context_id") with
  | VStr channel, VStr thread_ts, VStr context_id => inl (mkOrigin channel thread_ts context_id)
  | _, _, _ => inr (js "Slack bridge returned no origin")
  end.
Definition resolveOrigin : cmd (RoutineOrigin + jstr) :=
  match tb_contextId options with
  | None => Ret (inr (js "this session has no conversation to schedule from"))
  | Some contextId =>
      let* outcome := readBridge (js "/api/origin") [(js "context_id", contextId)] in
      match outcome with
      | Ok detail => if nullish detail then Throw (js "TypeError") else Ret (origin_of detail)
      | Refused error | Redundant error | Failed error => Ret (inr error)
      end
  end.

(** ** Routines *)

Definition validateCron (cron : jstr) : option jstr :=
  match parseCron other_number cron with
  | Some _ => None
  | None => Some (js "not a valid cron expression: " ++ dq ++ cron ++ dq
      ++ js ". Five fields — minute hour day-of-month month day-of-week — with *, numbers, ranges, lists, and steps (e.g. "
      ++ dq ++ js "0 9 * * 1-5" ++ dq ++ js " for weekday mornings at 09:00 local time).")
  end.

(** A row added under a new id; the database may refuse it. *)
Definition add_row (f : jstr -> Z -> table -> option table) : cmd jstr :=
  read (fun x =>
  let id := uuid (be_made x) in
  update made_one;;;
  match f id (be_now x) (be_routines x) with
  | Some db => update (set_routines db);;; Ret id
  | None => Throw (js "UNIQUE constraint failed")
  end).

Definition routine_create (name cron prompt : jstr) : cmd tool_result :=
  match validateCron cron with
  | Some invalid => Ret (toolError invalid)
  | None =>
      let* id := add_row (fun id now => create id name cron prompt now) in
      Ret (ok [(js "routine", VObj [(js "id", VStr id); (js "name", VStr name); (js "cron", VStr cron)])])
  end.

Definition schedule_once (args : schedule_args) : cmd tool_result :=
  match parse_date (sc_at args) with
  | None => Ret (toolError (js "not a time I can parse: " ++ dq ++ sc_at args ++ dq
      ++ js ". Give ISO 8601 with a time, e.g. 2026-08-29T09:00 for 09:00 local or 2026-08-29T09:00:00-07:00."))
  | Some atMs =>
      read (fun x =>
      if (atMs <=? be_now x)%Z
      then Ret (toolError (sc_at args ++ js " is already past (it is " ++ iso (be_now x)
        ++ js " now). If they meant right away, just do it; otherwise pick a time ahead."))
      else
        let* origin := resolveOrigin in
        match origin with
        | inr error => Ret (toolError (js "Cannot schedule from here: " ++ error
            ++ js ". One-shots come back to the Slack thread they were asked in, so ask for this from a Slack conversation."))
        | inl origin =>
            let name := default (take 40 (trim (collapse_ws (sc_prompt args)))) (sc_name args) in
            let* id := add_row (fun id now => createOneShot id name atMs (sc_prompt args) origin now) in
            Ret (ok [(js "scheduled", VObj [(js "id", VStr id); (js "name", VStr name); (js "at", VStr (iso atMs));
                                            (js "channel", VStr (ro_channel origin)); (js "thread_ts", VStr (ro_threadTs origin))])])
        end)
  end.

Definition when (ms : option Z) : jsval := match ms with None => VNull | Some n => VStr (iso n) end.
Definition listed (r : Routine) : jsval :=
  VObj ([(js "id", VStr (r_id r)); (js "name", VStr (r_name r)); (js "kind", VStr (match r_kind r with KCron => js "cron" | KAt => js "at" end))]
    ++ match r_kind r with
       | KCron => [(js "cron", VStr (r_cron r))]
       | KAt => [(js "at", when (r_atMs r)); (js "fired", when (r_firedMs r))]
                ++ match r_origin r with
                   | None => []
                   | Some o => [(js "channel", VStr (ro_channel o)); (js "thread_ts", VStr (ro_threadTs o))]
                   end
       end
    ++ [(js "enabled", VBool (r_enabled r)); (js "consecutive_failures", VNum (r_consecutiveFailures r));
        (js "last_run", when (r_lastRunMs r)); (js "last_outcome", match r_lastOutcome r with None => VNull | Some s => VStr s end)]).
Definition routine_list : cmd tool_result :=
  read (fun x => Ret (ok [(js "routines", VArr (listed <$> list_routines (be_routines x)))])).

Definition no_routine (id : jstr) : tool_result := toolError (js "no routine with id " ++ id ++ js "; routine_list shows what exists").
Definition routine_update (id : jstr) (patch : RoutineUpdate) : cmd tool_result :=
  read (fun x =>
  let patched := update (fun x => set_routines (snd (Routines.update id patch (be_routines x))) x);;; Ret (ok [(js "id", VStr id)]) in
  match Routines.get id (be_routines x) with
  | None => Ret (no_routine id)
  | Some existing =>
      match u_cron patch with
      | None => patched
      | Some cron =>
          if bool_decide (r_kind existing = KAt)
          then Ret (toolError (id ++ js " is a one-shot, not a cron routine; to change its time, delete it and schedule_once again"))
          else match validateCron cron with Some invalid => Ret (toolError invalid) | None => patched end
      end
  end).

Definition routine_delete (id : jstr) : cmd tool_result :=
  read (fun x =>
  let '(removed, db) := remove id (be_routines x) in
  update (set_routines db);;;
  Ret (if removed then ok [(js "deleted", VStr id)] else no_routine id)).

(** ** The toolbelt *)

Definition to_result (p : cmd ToolOutcome) : cmd tool_result := let* outcome := p in Ret (toToolResult outcome).

Definition bridge_tool (c : tool_call) : option (cmd ToolOutcome) :=
  match c with
  | PostMessage channel text thread_ts => Some (postMessage channel text thread_ts)
  | UploadFile path channel thread_ts comment => Some (uploadFile path channel thread_ts comment)
  | React emoji message_ts =>
      Some (callBridge true (js "/api/reactions")
        (JsonBody (stringify (VObj ([(js "emoji", VStr emoji)] ++ opt_str "message_ts" message_ts)))))
  | ReadChannel channel limit oldest latest cursor =>
      Some (readBridge (js "/api/history") ([(js "channel", channel)] ++ opt_number "limit" limit ++ opt_param "oldest" oldest
        ++ opt_param "latest" latest ++ opt_param "cursor" cursor))
  | ReadThread channel ts limit cursor =>
      Some (readBridge (js "/api/replies") ([(js "channel", channel); (js "ts", ts)] ++ opt_number "limit" limit ++ opt_param "cursor" cursor))
  | SearchMessages query count page =>
      Some (readBridge (js "/api/search") ([(js "query", query)] ++ opt_number "count" count ++ opt_number "page" page))
  | ListChannels limit cursor include_archived =>
      Some (readBridge (js "/api/channels") (opt_number "limit" limit ++ opt_param "cursor" cursor
        ++ match include_archived with Some true => [(js "include_archived", js "true")] | _ => [] end))
  | ListUsers limit cursor => Some (readBridge (js "/api/users") (opt_number "limit" limit ++ opt_param "cursor" cursor))
  | _ => None
  end.
Definition routine_tool (c : tool_call) : option (cmd tool_result) :=
  match c with
  | RoutineCreate name cron prompt => Some (routine_create name cron prompt)
  | ScheduleOnce args => Some (schedule_once args)
  | RoutineList => Some routine_list
  | RoutineUpdate_ id patch => Some (routine_update id patch)
  | RoutineDelete id => Some (routine_delete id)
  | _ => None
  end.
(** What a call of a tool does. [None]: there is no such tool, as there are
    none for routines without a store. *)
Definition run_tool (c : tool_call) : option (cmd tool_result) :=
  match bridge_tool c with
  | Some p => Some (let* outcome := p in Ret (toToolResult outcome))
  | None => if tb_routines options then routine_tool c else None
  end.
End Toolbelt.

#[local] Close Scope Z_scope.
#[local] Open Scope nat_scope.

(** ** Routines that can run *)

Section Valid.
Context (other_number : jstr -> option Z).

(** A cron routine has a schedule that parses; a one-shot has a time and a
    place to come back to. *)
Definition row_ok (w : row) : Prop :=
  w_kind w = js "cron" /\ present (parseCron other_number (w_cron w)) = true \/
  w_kind w = js "at" /\ present (w_at_ms w) = true /\ present (w_origin_channel w) = true /\ present (w_origin_thread_ts w) = true /\
    present (w_origin_context_id w) = true.
Definition table_ok (db : table) : Prop := NoDup (w_id <$> db) /\ Forall row_ok db.

Lemma insert_row_ok w db db' : table_ok db -> row_ok w -> insert_row w db = Some db' -> table_ok db'.
Proof.
  intros [Hn Hr] Hw. unfold insert_row. destruct (find_row (w_id w) db) as [w'|] eqn:E; [done|]. intros [= <-]. split.
  - rewrite fmap_app. apply NoDup_app. split_and!; [done| |apply NoDup_singleton]. intros id Hid Hw'%list_elem_of_singleton. subst id.
    apply list_elem_of_fmap in Hid as (v & Ev & Hv). unfold find_row in E. apply fmap_None, list_find_None in E.
    rewrite Forall_forall in E. by apply (E v).
  - apply Forall_app. split; [done|by constructor].
Qed.

Lemma update_where_ok id f db : (forall w, w_id (f w) = w_id w) -> (forall w, w ∈ db -> w_id w = id -> row_ok w -> row_ok (f w)) ->
  table_ok db -> table_ok (update_where id f db).
Proof.
  intros Hid Hf [Hn Hr]. unfold update_where. split.
  - rewrite <- list_fmap_compose. assert (forall w, (w_id ∘ (fun w => if jeqb (w_id w) id then f w else w)) w = w_id w) as E.
    { intros w. cbn. by destruct (jeqb _ _). }
    by rewrite (list_fmap_ext _ w_id db) by (intros i w _; apply E).
  - apply Forall_fmap, Forall_forall. intros w Hw. rewrite Forall_forall in Hr. cbn. unfold jeqb. case_bool_decide; [apply Hf; auto|auto].
Qed.

Lemma filter_ok (P : row -> Prop) `{!forall w, Decision (P w)} db : table_ok db -> table_ok (filter P db).
Proof.
  intros [Hn Hr]. split; [|apply Forall_forall; intros w [_ Hw]%list_elem_of_filter; rewrite Forall_forall in Hr; by apply Hr]. clear Hr. induction db as [|w db IH]; [done|]. cbn in Hn. apply NoDup_cons in Hn as [Hw Hn].
  rewrite filter_cons. destruct (decide (P w)); [|by apply IH]. cbn. apply NoDup_cons. split; [|by apply IH].
  intros Hin. apply Hw. apply list_elem_of_fmap in Hin as (v & -> & [_ Hv]%list_elem_of_filter). by apply list_elem_of_fmap_2.
Qed.

Lemma row_ok_same w w' : w_kind w' = w_kind w -> w_cron w' = w_cron w -> w_at_ms w' = w_at_ms w -> w_origin_channel w' = w_origin_channel w ->
  w_origin_thread_ts w' = w_origin_thread_ts w -> w_origin_context_id w' = w_origin_context_id w -> row_ok w -> row_ok w'.
Proof. unfold row_ok. by intros -> -> -> -> -> ->. Qed.

(** What the runner does to the table. *)
Inductive runner_op : (table -> table) -> Prop :=
| OpRecord id outcome failed now : runner_op (fun db => snd (recordRun id outcome failed now db))
| OpDisable id : runner_op (disable id)
| OpFired id now : runner_op (markFired id now)
| OpPrune maxAge now : runner_op (fun db => snd (pruneFired maxAge now db)).

Lemma runner_op_ok f db : runner_op f -> table_ok db -> table_ok (f db).
Proof.
  intros Hf Hdb. destruct Hf; cbn.
  - by apply update_where_ok.
  - by apply update_where_ok.
  - by apply update_where_ok.
  - by apply filter_ok.
Qed.

Lemma get_find id db existing : Routines.get id db = Some existing -> exists w, find_row id db = Some w /\ existing = toRoutine w.
Proof. unfold Routines.get. intros (w & -> & ?)%fmap_Some. by exists w. Qed.
Lemma find_row_in id db w : find_row id db = Some w -> w ∈ db /\ w_id w = id.
Proof. unfold find_row. intros ([i w'] & E & ->)%fmap_Some. apply list_find_Some in E as (E & ? & _). split; [by eapply list_elem_of_lookup_2|done]. Qed.

Lemma same_id db w v : table_ok db -> w ∈ db -> v ∈ db -> w_id w = w_id v -> w = v.
Proof.
  intros [Hn _] [i Hw]%list_elem_of_lookup [j Hv]%list_elem_of_lookup E. assert (i = j) as ->; [|congruence].
  apply (NoDup_lookup (w_id <$> db) i j (w_id w)); [done|by rewrite list_lookup_fmap, Hw|by rewrite list_lookup_fmap, Hv, E].
Qed.

Lemma update_ok id patch db : table_ok db ->
  (forall cron existing, u_cron patch = Some cron -> Routines.get id db = Some existing -> r_kind existing = KCron -> present (parseCron other_number cron) = true) ->
  table_ok (snd (Routines.update id patch db)).
Proof.
  intros Hdb Hc. unfold Routines.update. destruct (Routines.get id db) as [existing|] eqn:E; [|done]. cbn [snd].
  destruct (get_find id db existing E) as (w & Hw & ->). destruct (find_row_in id db w Hw) as [Hin Hid].
  assert (H1 : forall name prompt enabled, table_ok (update_where id (set_content name
     (match r_kind (toRoutine w) with KAt => [] | KCron => default (r_cron (toRoutine w)) (u_cron patch) end) prompt enabled) db)).
  { intros name prompt enabled. apply update_where_ok; [done| |done]. intros v Hv Ev Hok. assert (v = w) as -> by (apply (same_id db); congruence).
    destruct Hok as [[Hk Hp]|(Hk & H)]; [left|right; exact (conj Hk H)]. split; [exact Hk|].
    assert (Ek : r_kind (toRoutine w) = KCron) by (unfold toRoutine; cbn [r_kind]; by rewrite Hk). unfold set_content. cbn [w_cron]. rewrite Ek.
    destruct (u_cron patch) as [cron|] eqn:Eu; [by apply (Hc cron (toRoutine w))|exact Hp]. }
  destruct (u_enabled patch) as [[]|]; [apply update_where_ok; [done|done|apply H1]|apply H1..].
Qed.
End Valid.

Section Histories.
Context (options : ToolbeltOptions) (uuid : nat -> jstr) (parse_date : jstr -> option Z) (iso : Z -> jstr) (other_number : jstr -> option Z).
#[local] Abbreviation run_tool := (run_tool options uuid parse_date iso other_number).
#[local] Abbreviation table_ok := (table_ok other_number).

Definition anything (r : rq) (a : result (answer r)) (s : belt) : Prop := True.
Definition no_streams (t' : nat) (src ev : Empty_set) (s : belt) : Prop := True.
Definition any_change (t : nat) (s s' : belt) : Prop := True.
#[export] Instance any_change_preorder t : PreOrder (any_change t).
Proof. by split. Qed.
Definition valid (s : belt) : Prop := table_ok (be_routines s).
Abbreviation keeps_ t := (keeps issue receive yielded enter ready anything no_streams valid any_change t valid).

Lemma keeps_table t f : (forall s, valid s -> valid (f s)) -> keeps_ t (Async.update f : cmd unit).
Proof. intros Hf. apply keeps_step. intros s Hs. split; [done|by apply Hf]. Qed.

Lemma tool_keeps_ask t r : keeps_ t (ask r).
Proof. apply keeps_call; [done|by intros s|]. by intros a s s1 now _ _ H1. Qed.

Lemma keeps_option {A : Type} t (o : option A) : keeps_ t (of_option o).
Proof. destruct o; [apply keeps_ret|apply keeps_throw]. Qed.

Lemma keeps_bridge t post path body : keeps_ t (callBridge post path body).
Proof.
  apply keeps_attempt; [apply tool_keeps_ask|]. intros [status|e]; [|apply keeps_ret].
  apply keeps_attempt; [apply tool_keeps_ask|]. intros [b|e]; [|apply keeps_ret]. unfold outcome_of.
  destruct (status =? 403)%Z; [apply keeps_bind; [apply keeps_option|intros v; apply keeps_ret]|].
  destruct (negb _); [apply keeps_bind; [apply keeps_option|intros v; apply keeps_ret]|apply keeps_ret].
Qed.

Lemma keeps_upload t path channel thread_ts comment : keeps_ t (uploadFile options path channel thread_ts comment).
Proof.
  apply keeps_attempt; [apply tool_keeps_ask|]. intros [size|e]; [|apply keeps_ret].
  destruct (size =? 0)%Z; [apply keeps_ret|]. destruct (_ <? size)%Z; [apply keeps_ret|].
  apply keeps_bind; [apply tool_keeps_ask|]. intros bytes. apply keeps_bridge.
Qed.

Lemma keeps_origin t : keeps_ t (resolveOrigin options).
Proof.
  unfold resolveOrigin. destruct (tb_contextId options); [|apply keeps_ret]. apply keeps_bind; [apply keeps_bridge|].
  intros [detail|e|e|e]; [|apply keeps_ret..]. destruct (nullish detail); [apply keeps_throw|apply keeps_ret].
Qed.

Lemma wp_then_ret {A : Type} t f (a : A) s : valid (f s) ->
  wp issue receive yielded enter ready anything no_streams valid any_change t (bind (Async.update f : cmd unit) (fun _ => Ret a)) s (fun _ => valid).
Proof. intros Hf. by split. Qed.

Lemma keeps_add t f : (forall id now db db', table_ok db -> f id now db = Some db' -> table_ok db') -> keeps_ t (add_row uuid f).
Proof.
  intros Hf. unfold add_row, keeps. intros s Hs. cbn. split; [done|]. destruct (f _ _ _) as [db|] eqn:E; [|done].
  cbn. split; [done|]. by apply (Hf _ _ _ _ Hs E).
Qed.

Lemma validateCron_ok cron : validateCron other_number cron = None -> present (parseCron other_number cron) = true.
Proof. unfold validateCron. by destruct (parseCron other_number cron). Qed.

Lemma keeps_create t name cron prompt : keeps_ t (routine_create uuid other_number name cron prompt).
Proof.
  unfold routine_create. destruct (validateCron other_number cron) eqn:E; [apply keeps_ret|].
  apply keeps_bind; [|intros id; apply keeps_ret]. apply keeps_add. intros id now db db' Hdb. unfold create. apply insert_row_ok; [done|].
  left. split; [done|]. by apply validateCron_ok.
Qed.

Lemma keeps_schedule t args : keeps_ t (schedule_once options uuid parse_date iso args).
Proof.
  unfold schedule_once. destruct (parse_date _) as [atMs|]; [|apply keeps_ret]. apply keeps_read. intros s _. destruct (_ <=? _)%Z; [apply keeps_ret|].
  apply keeps_bind; [apply keeps_origin|]. intros [origin|e]; [|apply keeps_ret].
  apply keeps_bind; [|intros id; apply keeps_ret]. apply keeps_add. intros id now db db' Hdb. unfold createOneShot. apply insert_row_ok; [done|].
  right. by split_and!.
Qed.

Lemma tool_keeps_update t id patch : keeps_ t (routine_update other_number id patch).
Proof.
  unfold routine_update. intros s Hs. apply wp_read. destruct (Routines.get id (be_routines s)) as [existing|] eqn:E; [|done].
  assert (Hdone : (forall cron existing, u_cron patch = Some cron -> Routines.get id (be_routines s) = Some existing -> r_kind existing = KCron ->
             present (parseCron other_number cron) = true) ->
           table_ok (snd (Routines.update id patch (be_routines s)))) by (intros H; by apply update_ok).
  destruct (u_cron patch) as [cron|] eqn:Eu.
  - destruct (bool_decide_reflect (r_kind existing = KAt)) as [|Hk]; [done|]. destruct (validateCron other_number cron) eqn:Ev; [done|].
    apply wp_then_ret. unfold valid. cbn. apply Hdone. intros cron' existing' [= <-] _ _. by apply validateCron_ok.
  - apply wp_then_ret. unfold valid. cbn. by apply Hdone.
Qed.

Lemma keeps_delete t id : keeps_ t (routine_delete id).
Proof.
  unfold routine_delete. intros s Hs. apply wp_read. destruct (remove id (be_routines s)) as [removed db] eqn:E. injection E as _ <-.
  apply wp_then_ret. by apply filter_ok.
Qed.

Lemma keeps_tool t c p : run_tool c = Some p -> keeps_ t p.
Proof.
  unfold run_tool. destruct (bridge_tool options c) as [q|] eqn:E.
  - intros [= <-]. apply keeps_bind; [|intros o; apply keeps_ret]. destruct c; try done; injection E as <-; first [apply keeps_bridge|apply keeps_upload].
  - destruct (tb_routines options); [|done]. destruct c; try done; intros [= <-].
    + apply keeps_create.
    + apply keeps_schedule.
    + apply keeps_read. intros s _. apply keeps_ret.
    + apply tool_keeps_update.
    + apply keeps_delete.
Qed.

(** What uses the table: a call of a tool, or the runner. *)
Definition uses (now : Z) (p : cmd unit) (s : belt) : Prop :=
  (exists c q, run_tool c = Some q /\ p = bind q (fun _ => skip_)) \/
  (exists f, runner_op f /\ p = Async.update (fun x => set_routines (f (be_routines x)) x)).

#[local] Abbreviation history := (happening belt Empty_set Empty_set answer).

(** C17: Standing work can be carried out. Whatever the session does with its
    tools, however their calls interleave, whatever the bridge answers, and
    whatever the runner does to the table meanwhile: each routine has an id
    of its own, each on a schedule has one that parses, so that the runner
    never passes over it, and each one-shot has a time and the thread it
    comes back to. *)
Theorem routines_can_be_carried_out (hs : list history) db made w :
  table_ok db -> Forall (fun h => match h with Called now p => forall s, uses now p s | _ => True end) hs ->
  happen_all issue receive yielded enter ready hs (mkWorld (mkBelt db made 0 []) ∅ 0) = Some w ->
  NoDup (w_id <$> be_routines (w_state w)) /\
  (forall r, r ∈ list_routines (be_routines (w_state w)) ->
     match r_kind r with
     | KCron => present (parseCron other_number (r_cron r)) = true
     | KAt => present (r_atMs r) = true /\ present (r_origin r) = true
     end) /\
  (forall local now x, Forall (fun r => forall x', consider local other_number r now x = (false, x') -> rn_log x' = rn_log x)
     (list_routines (be_routines (w_state w)))).
Proof.
  intros Hdb Hhs Hw.
  assert (Hs : sound issue receive yielded enter ready anything no_streams valid any_change (fun _ _ => True) w).
  { eapply (history_sound issue receive yielded enter ready anything no_streams valid any_change (fun _ _ => True) ltac:(done) uses hs); [| | |exact Hw].
    - intros t now p s Hs _ [(c & q & Hq & ->)|(f & Hf & ->)]; (split; [done|]).
      + apply wp_bind. eapply wp_mono; [|by apply (keeps_tool t c q Hq)]. by intros [a|e] s'.
      + split; [done|]. by apply runner_op_ok.
    - split; [exact Hdb|intros t p Hp; cbn [w_calls] in Hp; by rewrite lookup_empty in Hp|intros t _; cbn [w_calls]; split; [apply lookup_empty|done]].
    - apply any_history. eapply Forall_impl; [exact Hhs|]. intros [now p|t now i]; [done|]. by destruct i. }
  destruct (sound_inv _ _ _ _ _ _ _ _ _ _ _ Hs) as [Hn Hr].
  assert (Hin : forall r, r ∈ list_routines (be_routines (w_state w)) -> exists v, r = toRoutine v /\ row_ok other_number v).
  { intros r (v & -> & Hv)%list_elem_of_fmap. exists v. split; [done|]. rewrite Forall_forall in Hr. apply Hr. by rewrite <- by_created_perm. }
  split_and!; [done| |].
  - intros r (v & -> & [[Hk Hc]|(Hk & Ha & H1 & H2 & H3)])%Hin; unfold toRoutine; cbn; rewrite Hk; cbn; [exact Hc|].
    split; [done|]. destruct (w_origin_channel v), (w_origin_thread_ts v), (w_origin_context_id v); done.
  - intros local now x. apply Forall_forall. intros r (v & -> & Hv)%Hin x'. unfold consider.
    destruct (_ || _); [by intros [= <-]|]. destruct (r_kind (toRoutine v)) eqn:Ek.
    + case_bool_decide; [by intros [= <-]|]. destruct (parseCron other_number (r_cron (toRoutine v))) eqn:Ec.
      * destruct (cronMatches _ _); [done|by intros [= <-]].
      * exfalso. destruct Hv as [[Hk Hc]|(Hk & _)]; [unfold toRoutine in Ec; cbn in Ec; by rewrite Ec in Hc|].
        unfold toRoutine in Ek. cbn in Ek. by rewrite Hk in Ek.
    + destruct (r_firedMs _); [by intros [= <-]|]. destruct (r_atMs _); [|by intros [= <-]]. by intros [= _ <-].
Qed.
End Histories.

(** ** With the bridge *)

(** What the bridge says to a request of a peer's, at once. *)
Definition bridge_answers (fo : FileServerOptions) (sha1 : list N -> list N) (lower : jstr -> jstr) (tags : option jstr) (t : nat) (now : Z)
    (s : surface) (r : http_request) (status : Z) (body : jsval) : Prop :=
  exists s', run SlackHttp.issue (serve fo sha1 lower tags r) (SlackHttp.enter t now s) = (s', Ret tt) /\
    sf_log s' = sf_log s ++ [(t, Responded status body)] /\ sf_store s' = sf_store s.

(** The query of a path, each parameter a string. *)
Definition query_of (prefix path : jstr) : option jsval :=
  if starts_with (prefix ++ js "?") path
  then Some (VObj (prod_map id VStr <$> form_entries (drop (length prefix + 1) path))) else None.

Definition replied (status : Z) (body : jsval) (r : rq) : result (answer r) :=
  match r return result (answer r) with
  | RqBridge _ _ _ => Val status
  | RqJson => Val body
  | RqStat _ => Exn (js "ENOENT")
  | RqReadFile _ => Exn (js "ENOENT")
  end.
(** The bridge's status and its body, at [now]. *)
Definition bridge_replies (now : Z) (status : Z) (body : jsval) : list ((belt -> belt) * Z * input Empty_set answer) :=
  [(fun s => s, now, Reply (replied status body)); (fun s => s, now, Reply (replied status body))].
Abbreviation play_tool := (played issue receive yielded enter ready 0).

Section Bridge.
Context (options : ToolbeltOptions) (uuid : nat -> jstr) (parse_date : jstr -> option Z) (iso : Z -> jstr) (other_number : jstr -> option Z).
Context (fo : FileServerOptions) (sha1 : list N -> list N) (lower : jstr -> jstr) (tags : option jstr).

Lemma asked_context ctx : units ctx -> well_formed ctx = true ->
  query_of (js "/api/origin") (js "/api/origin?" ++ form_text [(js "context_id", ctx)]) = Some (VObj [(js "context_id", VStr ctx)]).
Proof.
  intros Hu Hw. unfold query_of. assert (starts_with (js "/api/origin" ++ js "?") (js "/api/origin?" ++ form_text [(js "context_id", ctx)]) = true) as -> by done.
  assert (drop (length (js "/api/origin") + 1) (js "/api/origin?" ++ form_text [(js "context_id", ctx)]) = form_text [(js "context_id", ctx)]) as -> by done.
  rewrite form_roundtrip. 2: { constructor; [|done]. split; [by repeat constructor|done]. }
  cbn [fmap list_fmap prod_map fst snd]. by rewrite (well_formed_fixed ctx Hw).
Qed.

Lemma origin_answered agent task ctx t now s : identified fo tags = Some agent -> ctx <> [] ->
  find (fun task => bool_decide (context_of sha1 task (sf_store s) = Some ctx)) (tasks_of agent (sf_store s)) = Some task ->
  bridge_answers fo sha1 lower tags t now s (GetOrigin (VObj [(js "context_id", VStr ctx)])) 200
    (VObj [(js "ok", VBool true); (js "channel", VStr (if_channel task)); (js "thread_ts", VStr (if_threadTs task)); (js "context_id", VStr ctx)]).
Proof.
  intros Hid Hne Hf. unfold bridge_answers, serve, identify. rewrite Hid. unfold handle_route, get_origin.
  assert (as_nonempty_str (prop (VObj [(js "context_id", VStr ctx)]) (js "context_id")) = Some ctx) as -> by (by destruct ctx).
  unfold read. cbn [run]. change (sf_store (SlackHttp.enter t now s)) with (sf_store s). rewrite Hf. by eexists.
Qed.

(** A call of the bridge that is answered. *)
Definition after_bridge (now : Z) (post : bool) (path : jstr) (b : body_sent) (s : belt) : belt :=
  mkBelt (be_routines s) (be_made s) now ((be_asked s ++ [RqBridge post path b]) ++ [RqJson]).
Lemma play_bridge {A : Type} post path b now status body (k : ToolOutcome -> cmd A) s :
  play_tool (bind (callBridge post path b) k) s (bridge_replies now status body) =
  Some (run issue (bind (outcome_of status body) k) (after_bridge now post path b s)).
Proof. reflexivity. Qed.
Lemma play_bridge_within {A B : Type} post path b now status body (f : ToolOutcome -> cmd A) (g : A -> cmd B) s :
  play_tool (bind (bind (callBridge post path b) f) g) s (bridge_replies now status body) =
  Some (run issue (bind (bind (outcome_of status body) f) g) (after_bridge now post path b s)).
Proof. reflexivity. Qed.

Lemma run_add {A : Type} f (g : jstr -> cmd A) x db : f (uuid (be_made x)) (be_now x) (be_routines x) = Some db ->
  run issue (bind (add_row uuid f) g) x = run issue (g (uuid (be_made x))) (set_routines db (made_one x)).
Proof. intros H. unfold add_row, read. cbn. by rewrite H. Qed.

(** The state a tool leaves that added a row. *)
Definition scheduled_in (args : schedule_args) (atMs : Z) (origin : RoutineOrigin) (now : Z) (s s' : belt) : Prop :=
  createOneShot (uuid (be_made s)) (default (take 40 (trim (collapse_ws (sc_prompt args)))) (sc_name args)) atMs (sc_prompt args) origin now
    (be_routines s) = Some (be_routines s').

Lemma origin_asked ctx : js "/api/origin?" ++ form_text [(js "context_id", ctx)] =
  if jeqb (form_text [(js "context_id", ctx)]) [] then js "/api/origin" else js "/api/origin" ++ js "?" ++ form_text [(js "context_id", ctx)].
Proof. done. Qed.

Lemma createOneShot_new id name atMs prompt origin now db : find_row id db = None -> exists db', createOneShot id name atMs prompt origin now db = Some db'.
Proof. intros H. unfold createOneShot, insert_row. cbn [w_id]. rewrite H. by eexists. Qed.

(** C18: A one-shot comes back to where it was asked for. When a session
    schedules one for a time still ahead, and its agent has a turn open in
    the session's conversation: what the tool asks the bridge is answered
    with that turn's thread, the answer survives the wire, and the row that
    is added goes back to exactly that channel and thread, in that session,
    at the time that was asked for. *)
Theorem one_shots_come_home args atMs ctx agent task t now now' sf s :
  tb_contextId options = Some ctx -> ctx <> [] -> units ctx -> well_formed ctx = true ->
  parse_date (sc_at args) = Some atMs -> (be_now s < atMs)%Z -> find_row (uuid (be_made s)) (be_routines s) = None ->
  identified fo tags = Some agent ->
  find (fun task => bool_decide (context_of sha1 task (sf_store sf) = Some ctx)) (tasks_of agent (sf_store sf)) = Some task ->
  exists path query body s' r,
    be_asked (fst (run issue (schedule_once options uuid parse_date iso args) s)) = be_asked s ++ [RqBridge false path NoBody] /\
    query_of (js "/api/origin") path = Some query /\
    bridge_answers fo sha1 lower tags t now sf (GetOrigin query) 200 body /\ parse (stringify body) = Some body /\
    play_tool (schedule_once options uuid parse_date iso args) s (bridge_replies now' 200 body) = Some (s', Ret r) /\
    tr_isError r = false /\ scheduled_in args atMs (mkOrigin (if_channel task) (if_threadTs task) ctx) now' s s'.
Proof.
  intros Hctx Hne Hu Hw Hdate Hahead Hfresh Hid Hf.
  set (path := js "/api/origin?" ++ form_text [(js "context_id", ctx)]).
  set (body := VObj [(js "ok", VBool true); (js "channel", VStr (if_channel task)); (js "thread_ts", VStr (if_threadTs task)); (js "context_id", VStr ctx)]).
  destruct (createOneShot_new (uuid (be_made s)) (default (take 40 (trim (collapse_ws (sc_prompt args)))) (sc_name args)) atMs (sc_prompt args)
    (mkOrigin (if_channel task) (if_threadTs task) ctx) now' (be_routines s) Hfresh) as [db' Hdb].
  set (s' := set_routines db' (made_one (after_bridge now' false path NoBody s))).
  exists path, (VObj [(js "context_id", VStr ctx)]), body, s'. eexists.
  assert (Hlate : (atMs <=? be_now s)%Z = false) by (apply Z.leb_gt; lia).
  assert (Hr : resolveOrigin options = bind (callBridge false path NoBody) (fun outcome => match outcome with
      | Ok detail => if nullish detail then Throw (js "TypeError") else Ret (origin_of detail)
      | Refused error | Redundant error | Failed error => Ret (inr error) end)) by (unfold resolveOrigin; by rewrite Hctx).
  split_and!.
  - unfold schedule_once, read. rewrite Hdate, Hr. cbn [run]. by rewrite Hlate.
  - by apply asked_context.
  - by apply (origin_answered agent).
  - apply parse_stringify, json_ok_obj. split; [by apply (bool_decide_unpack _); vm_compute|by repeat constructor].
  - unfold schedule_once, read. rewrite Hdate. erewrite (played_run _ _ _ _ _ 0 (Get _) _ s s).
    2: { cbn [run]. rewrite Hlate. reflexivity. }
    rewrite Hr, play_bridge_within. change (outcome_of 200 body) with (Ret (Ok body) : cmd ToolOutcome). cbn [bind attempt].
    change (nullish body) with false. cbn [attempt]. change (origin_of body) with (@inl _ jstr (mkOrigin (if_channel task) (if_threadTs task) ctx)).
    f_equal. unfold s'. etransitivity.
    { apply (run_add (fun id now => createOneShot id _ _ _ _ now) _ (after_bridge now' false path NoBody s) db' Hdb). }
    reflexivity.
  - done.
  - exact Hdb.
Qed.

(** What a tool's result is in the session's transcript. *)
Definition content_of (r : tool_result) : jsval := VArr [VObj [(js "type", VStr (js "text")); (js "text", VStr (tr_text r))]].

Lemma starts_app p s : starts_with p (p ++ s) = true.
Proof. induction p as [|c p IH]; [done|]. cbn. by rewrite N.eqb_refl. Qed.
Lemma includes_app p a b : includes p (a ++ p ++ b) = true.
Proof.
  induction a as [|c a IH]; cbn [app].
  - destruct (p ++ b) eqn:E; cbn [includes]; rewrite <- E, starts_app; done.
  - cbn [includes]. by rewrite IH, orb_true_r.
Qed.

Lemma marked a b c : refusedAsRedundant (content_of (toolError (a ++ b ++ c ++ REDUNDANT_CALL))) = true.
Proof.
  unfold refusedAsRedundant, content_of, toolError. cbn [tr_text]. change (concat (block_text <$> [VObj [(js "type", VStr (js "text")); (js "text", VStr (a ++ b ++ c ++ REDUNDANT_CALL))]]))
    with ((a ++ b ++ c ++ REDUNDANT_CALL) ++ []). rewrite !app_assoc, <- app_assoc. apply includes_app.
Qed.

(** C19: Saying a thing twice is recognised for what it is. When a session
    posts into the thread its agent is answering right now, what reaches the
    bridge reads back as the message it wrote, the bridge refuses it as
    redundant without a word to Slack, and the result the session's
    transcript gets is the error that the translator of the turn knows not
    to show as a failure. *)
Theorem saying_it_twice_is_recognised channel text ts agent t now now' sf s :
  channel <> [] -> text <> [] -> identified fo tags = Some agent -> present (turnIn agent channel ts (sf_store sf)) = true ->
  exists tool sent message body s' r,
    run_tool options uuid parse_date iso other_number (PostMessage channel text (Some ts)) = Some tool /\
    be_asked (fst (run issue tool s)) = be_asked s ++ [RqBridge true (js "/api/messages") (JsonBody sent)] /\
    parse sent = Some message /\
    bridge_answers fo sha1 lower tags t now sf (PostMessages (Parsed message)) 403 body /\ parse (stringify body) = Some body /\
    play_tool tool s (bridge_replies now' 403 body) = Some (s', Ret r) /\
    be_routines s' = be_routines s /\ tr_isError r = true /\ refusedAsRedundant (content_of r) = true.
Proof.
  intros Hc Ht Hid Hturn.
  set (message := VObj [(js "channel", VStr channel); (js "text", VStr text); (js "thread_ts", VStr ts)]).
  set (body := VObj [(js "error", VStr ALREADY_ANSWERING); (js "redundant", VBool true)]).
  eexists _, (stringify message), message, body, (after_bridge now' true (js "/api/messages") (JsonBody (stringify message)) s),
    (toToolResult (Redundant ALREADY_ANSWERING)). split_and!.
  - reflexivity.
  - reflexivity.
  - apply parse_stringify, json_ok_obj. split; [by apply (bool_decide_unpack _); vm_compute|by repeat constructor].
  - unfold bridge_answers, serve, identify. rewrite Hid. unfold handle_route, with_body, post_message. cbn [or_throws].
    assert (as_nonempty_str (VStr channel) = Some channel) as Ec by (by destruct channel).
    assert (as_nonempty_str (VStr text) = Some text) as Et by (by destruct text).
    change (Values.get message (js "channel")) with (Some (VStr channel)). change (prop message (js "text")) with (VStr text).
    change (prop message (js "thread_ts")) with (VStr ts). cbn [or_throws]. rewrite Ec, Et. unfold read. cbn [run as_str mbind option_bind].
    change (sf_store (SlackHttp.enter t now sf)) with (sf_store sf). rewrite Hturn. by eexists.
  - apply parse_stringify, json_ok_obj. split; [by apply (bool_decide_unpack _); vm_compute|by repeat constructor].
  - reflexivity.
  - done.
  - done.
  - assert (content_of (toToolResult (Redundant ALREADY_ANSWERING)) = content_of (toolError (js "Nothing to do: " ++ ALREADY_ANSWERING ++ js " " ++ REDUNDANT_CALL))) as -> by done.
    apply marked.
Qed.
End Bridge.

(** ** A run *)

Definition bridge_server : FileServerOptions := mkFileServer {[js "tag:hearth" := js "hearth"]} (fun _ => Some (js "xoxb-1")).
Definition bridge_tags : option jstr := Some (js "tag:hearth").
Definition open_turn : InFlightTask := mkInFlight (js "t1") (js "hearth") (js "C1") (js "1.0") None (Some (js "1.2")) None None.
Definition bridge_now : surface := new_surface (SlackState.recordTask open_turn 5 new_state).
Definition all_ones (bytes : list N) : list N := replicate 20 255%N.
Definition here : jstr := default [] (deriveSessionId all_ones (js "C1") (js "1.0")).
Definition session_tools : ToolbeltOptions := mkToolbelt (js "/home/hearth") (Some here) true.
Definition counted (n : nat) : jstr := js "r" ++ show_nat n.
Definition one_date (s : jstr) : option Z := if jeqb s (js "2026-08-29T09:00") then Some 9000%Z else None.
Definition check_back : schedule_args := mkSchedule (js "2026-08-29T09:00") (js "check the   build") None.
Definition fresh_belt : belt := mkBelt [] 0 0 [].
Definition no_number (s : jstr) : option Z := None.

(** A one-shot is asked for, a routine is made while the bridge is asked
    where the session is, the bridge answers, and the runner records a run
    of the routine. *)
Definition origin_body : jsval :=
  VObj [(js "ok", VBool true); (js "channel", VStr (js "C1")); (js "thread_ts", VStr (js "1.0")); (js "context_id", VStr here)].
Definition tool_run (c : tool_call) : cmd unit :=
  match run_tool session_tools counted one_date show_Z no_number c with Some p => bind p (fun _ => skip_) | None => skip_ end.
Definition session_history : list (happening belt Empty_set Empty_set answer) :=
  [Called 1 (tool_run (ScheduleOnce check_back)); Called 2 (tool_run (RoutineCreate (js "watch") (js "0 9 * * 1-5") (js "look")));
   Resumed 0 3 (Reply (replied 200 origin_body)); Resumed 0 4 (Reply (replied 200 origin_body));
   Called 5 (Async.update (fun x => set_routines (snd (recordRun (js "r0") (js "done") false 5 (be_routines x))) x))].
Definition session_start : world belt Empty_set Empty_set answer := mkWorld fresh_belt ∅ 0.
Definition session_end : world belt Empty_set Empty_set answer :=
  default session_start (happen_all issue receive yielded enter ready session_history session_start).

Lemma routines_can_be_carried_out_witness :
  (w_id <$> be_routines (w_state session_end)) = [js "r0"; js "r1"] /\ NoDup (w_id <$> be_routines (w_state session_end)).
Proof.
  split; [evaluated|].
  refine (proj1 (routines_can_be_carried_out session_tools counted one_date show_Z no_number session_history [] 0 session_end _ _ _)).
  - by split; constructor.
  - unfold session_history. repeat apply Forall_cons_2; try done; intros s; [left|left|right].
    + exists (ScheduleOnce check_back). eexists. split; reflexivity.
    + exists (RoutineCreate (js "watch") (js "0 9 * * 1-5") (js "look")). eexists. split; reflexivity.
    + eexists. split; [apply (OpRecord (js "r0") (js "done") false 5)|reflexivity].
  - unfold session_end. assert (present (happen_all issue receive yielded enter ready session_history session_start) = true) as H by evaluated.
    unfold session_start in *. by destruct (happen_all _ _ _ _ _ _ _).
Defined.

Lemma one_shots_come_home_witness :
  exists s', scheduled_in counted check_back 9000 (mkOrigin (js "C1") (js "1.0") here) 4 fresh_belt s'.
Proof.
  destruct (one_shots_come_home session_tools counted one_date show_Z bridge_server all_ones (fun s => s) bridge_tags
    check_back 9000 here (js "hearth") open_turn 0 3 4 bridge_now fresh_belt) as (path & query & body & s' & r & _ & _ & _ & _ & _ & _ & H).
  - reflexivity.
  - done.
  - by apply (bool_decide_unpack _); vm_compute.
  - evaluated.
  - evaluated.
  - done.
  - done.
  - reflexivity.
  - vm_compute. reflexivity.
  - by exists s'.
Defined.

Lemma saying_it_twice_is_recognised_witness :
  exists tool body s' r, run_tool session_tools counted one_date show_Z no_number (PostMessage (js "C1") (js "hello") (Some (js "1.0"))) = Some tool /\
    play_tool tool fresh_belt (bridge_replies 4 403 body) = Some (s', Ret r) /\ refusedAsRedundant (content_of r) = true.
Proof.
  destruct (saying_it_twice_is_recognised session_tools counted one_date show_Z no_number bridge_server all_ones (fun s => s) bridge_tags
    (js "C1") (js "hello") (js "1.0") (js "hearth") 0 3 4 bridge_now fresh_belt) as (tool & sent & message & body & s' & r & Ht & _ & _ & _ & _ & Hp & _ & _ & Hr).
  - done.
  - done.
  - reflexivity.
  - evaluated.
  - by exists tool, body, s', r.
Defined.
