(* ===== verification/Roster.v ===== *)
(** [packages/roster/src]: the roster of agents, what makes one valid, the
    card an agent shows, and the directories a component keeps its files in.
    What the schema library checks of each value's shape comes before the
    checks across agents, which are these.

    Then: what a valid roster guarantees, and what the bridges make of it:
    which agent a peer's tags name. *)

From S2P Require Import Prelude SlackHttp Attachments PhonePicker.
#[local] Open Scope nat_scope.

(** ** Entries *)

Record AgentSkillEntry := mkSkill {
  sk_id : jstr;
  sk_name : jstr;
  sk_description : jstr;
  sk_tags : list jstr;
  sk_examples : list jstr }.

(** Objects used as tables are lists of their entries, in their order. *)
Record AgentEntry := mkEntry {
  ae_host : jstr;
  ae_user : jstr;
  ae_description : jstr;
  ae_tag : jstr;
  ae_skills : list AgentSkillEntry;
  ae_harness_type : jstr;
  ae_workspaces : list (jstr * jstr);
  ae_channels : list (jstr * jstr);
  ae_phone : phone_entry;
  ae_discord_channels : list (jstr * jstr) }.
Abbreviation Roster := (list (jstr * AgentEntry)).

(** ** Shapes *)

Definition slug_unit (c : N) : bool := is_digit c || ((97 <=? c) && (c <=? 122))%N.
Definition capital_unit (c : N) : bool := is_digit c || ((65 <=? c) && (c <=? 90))%N.
(** [/^[a-z0-9][a-z0-9-]*$/] *)
Definition WORKSPACE_NAME (s : jstr) : bool :=
  match s with c :: t => slug_unit c && forallb (fun c => slug_unit c || (c =? 45)%N) t | [] => false end.
(** [/^(#[a-z0-9][a-z0-9._-]*|[CG][A-Z0-9]{8,})$/] *)
Definition CHANNEL_KEY (s : jstr) : bool :=
  match s with
  | 35%N :: c :: t => slug_unit c && forallb (fun c => slug_unit c || (c =? 46)%N || (c =? 95)%N || (c =? 45)%N) t
  | 67%N :: t | 71%N :: t => (8 <=? length t) && forallb capital_unit t
  | _ => false
  end.
(** [/^\d{17,20}$/] *)
Definition SNOWFLAKE (s : jstr) : bool := (17 <=? length s) && (length s <=? 20) && forallb is_digit s.
(** [/^tag:thicket-[a-z0-9][a-z0-9-]*$/] *)
Definition TAG (s : jstr) : bool := starts_with (js "tag:thicket-") s && WORKSPACE_NAME (drop (length (js "tag:thicket-")) s).

(** ** Checks across agents *)

Inductive segment := Key (k : jstr) | Index (i : nat).
Record issue := mkIssue {
  is_path : list segment;
  is_message : jstr }.

Record checked := mkChecked {
  ck_byTag : gmap jstr jstr;
  ck_byHostUser : gmap jstr jstr;
  ck_bySpokenHandle : gmap jstr jstr;
  ck_issues : list issue }.
Definition nothing_checked : checked := mkChecked ∅ ∅ ∅ [].
Definition addIssue (path : list segment) (message : jstr) (ck : checked) : checked :=
  mkChecked (ck_byTag ck) (ck_byHostUser ck) (ck_bySpokenHandle ck) (ck_issues ck ++ [mkIssue path message]).

(** [workspaces[workspace] !== undefined]. *)
Definition has_property (o : list (jstr * jstr)) (k : jstr) : bool :=
  bool_decide (k ∈ fst <$> o) || bool_decide (k ∈ OBJECT_PROTOTYPE).

Section Checks.
(** [toLowerCase]. *)
Context (lower : jstr -> jstr).

Definition of_agent (name : jstr) (rest : list segment) : list segment := Key (js "agents") :: Key name :: rest.

Definition check_spoken (name : jstr) (phone : phone_entry) (ck : checked) : checked :=
  if pe_enabled phone && negb (present (pe_spokenName phone))
  then addIssue (of_agent name [Key (js "phone"); Key (js "spokenName")]) (js "a phone-enabled agent needs a spokenName") ck
  else ck.

Definition spoken_handles (name : jstr) (phone : phone_entry) : list (jstr * list segment) :=
  match pe_spokenName phone with
  | Some spoken => [(spoken, of_agent name [Key (js "phone"); Key (js "spokenName")])]
  | None => []
  end ++ imap (fun i alias => (alias, of_agent name [Key (js "phone"); Key (js "aliases"); Index i])) (pe_aliases phone).
Definition check_handle (name : jstr) (ck : checked) (h : jstr * list segment) : checked :=
  let '(handle, path) := h in
  let key := lower handle in
  let register := mkChecked (ck_byTag ck) (ck_byHostUser ck) (<[key := name]> (ck_bySpokenHandle ck)) (ck_issues ck) in
  match ck_bySpokenHandle ck !! key with
  | Some owner =>
      if jeqb owner name then register
      else addIssue path (js "duplicate spoken name " ++ dq ++ handle ++ dq ++ js " (also used by agents." ++ owner ++ js ")") ck
  | None => register
  end.

Definition check_tag (name tag : jstr) (ck : checked) : checked :=
  match ck_byTag ck !! tag with
  | Some owner =>
      addIssue (of_agent name [Key (js "tag")]) (js "duplicate tag " ++ tag ++ js " (also used by agents." ++ owner ++ js ")") ck
  | None => mkChecked (<[tag := name]> (ck_byTag ck)) (ck_byHostUser ck) (ck_bySpokenHandle ck) (ck_issues ck)
  end.

Definition check_workspace (name : jstr) (ck : checked) (w : jstr * jstr) : checked :=
  if WORKSPACE_NAME (fst w) then ck
  else addIssue (of_agent name [Key (js "workspaces"); Key (fst w)]) (js "workspace names must be lowercase slugs ([a-z0-9-])") ck.

Definition check_binding (key_ok : jstr -> bool) (complaint : jstr) (at_ : jstr -> list segment) (name : jstr) (workspaces : list (jstr * jstr))
    (ck : checked) (binding : jstr * jstr) : checked :=
  let '(channel, workspace) := binding in
  if negb (key_ok channel) then addIssue (at_ channel) complaint ck
  else if has_property workspaces workspace then ck
  else addIssue (at_ channel)
         (js "binds to workspace " ++ dq ++ workspace ++ dq ++ js ", which agents." ++ name ++ js ".workspaces does not declare") ck.
Definition check_channel (name : jstr) : list (jstr * jstr) -> checked -> jstr * jstr -> checked :=
  check_binding CHANNEL_KEY (js "channel keys are #name or a channel id (C…/G…)")
    (fun channel => of_agent name [Key (js "channels"); Key channel]) name.
Definition check_discord (name : jstr) : list (jstr * jstr) -> checked -> jstr * jstr -> checked :=
  check_binding SNOWFLAKE (js "Discord channels are bound by id (a snowflake), never by name")
    (fun channel => of_agent name [Key (js "discord"); Key (js "channels"); Key channel]) name.

Definition hostUser (e : AgentEntry) : jstr := ae_host e ++ js "/" ++ ae_user e.
Definition check_host (name : jstr) (e : AgentEntry) (ck : checked) : checked :=
  match ck_byHostUser ck !! hostUser e with
  | Some owner =>
      addIssue (of_agent name []) (js "duplicate (host, user) pair (" ++ ae_host e ++ js ", " ++ ae_user e ++ js ") (also used by agents."
        ++ owner ++ js ")") ck
  | None => mkChecked (ck_byTag ck) (<[hostUser e := name]> (ck_byHostUser ck)) (ck_bySpokenHandle ck) (ck_issues ck)
  end.

Definition check_agent (ck : checked) (agent : jstr * AgentEntry) : checked :=
  let '(name, e) := agent in
  let ck := check_spoken name (ae_phone e) ck in
  let ck := fold_left (check_handle name) (spoken_handles name (ae_phone e)) ck in
  let ck := check_tag name (ae_tag e) ck in
  let ck := fold_left (check_workspace name) (ae_workspaces e) ck in
  let ck := fold_left (check_channel name (ae_workspaces e)) (ae_channels e) ck in
  let ck := fold_left (check_discord name (ae_workspaces e)) (ae_discord_channels e) ck in
  check_host name e ck.
Definition superRefine (agents : Roster) : checked := fold_left check_agent agents nothing_checked.

Definition segment_text (out : jstr) (s : segment) : jstr :=
  match s with
  | Index i => out ++ js "[" ++ show_nat i ++ js "]"
  | Key k => out ++ if jeqb out [] then k else js "." ++ k
  end.
Definition formatPath (path : list segment) : jstr :=
  match fold_left segment_text path [] with [] => js "(root)" | out => out end.

(** [inr] is the message of the error it throws. *)
Definition validateRoster (agents : Roster) : Roster + jstr :=
  match ck_issues (superRefine agents) with
  | [] => inl agents
  | issues =>
      inr (js "invalid roster:" ++ [10%N] ++
           join_with [10%N] ((fun i => js "  " ++ formatPath (is_path i) ++ js ": " ++ is_message i) <$> issues))
  end.
End Checks.

(** [apps/slack/src/main.ts]: whom a bridge takes a peer for. *)
Definition agentByTag (configured : jstr -> bool) (agents : Roster) : gmap jstr jstr :=
  fold_left (fun m a => if configured (fst a) then <[ae_tag (snd a) := fst a]> m else m) agents ∅.

(** ** Cards *)

Definition TAILNET_PEER_TAG_SCHEME : jstr := js "tailnet-peer-tag".
Definition A2A_PROTOCOL_VERSION : jstr := js "1.0".
Definition A2A_PATH : jstr := js "/a2a/v1".
Record CardOptions := mkCardOptions {
  co_version : option jstr;
  co_tailnetDomain : option jstr }.

Definition nodeName (entry : AgentEntry) : jstr := drop (length (js "tag:")) (ae_tag entry).
Definition agentUrl (entry : AgentEntry) (options : CardOptions) : jstr :=
  let host := match co_tailnetDomain options with
              | None | Some [] => nodeName entry
              | Some domain => nodeName entry ++ js "." ++ domain
              end in
  js "https://" ++ host ++ A2A_PATH.

Definition strings (l : list jstr) : jsval := VArr (VStr <$> l).
Definition skill_card (skill : AgentSkillEntry) : jsval :=
  VObj [(js "id", VStr (sk_id skill)); (js "name", VStr (sk_name skill)); (js "description", VStr (sk_description skill));
        (js "tags", strings (sk_tags skill)); (js "examples", strings (sk_examples skill)); (js "inputModes", VArr []);
        (js "outputModes", VArr []); (js "securityRequirements", VArr [])].
Definition toAgentCard (name : jstr) (entry : AgentEntry) (options : CardOptions) : jsval :=
  VObj [(js "name", VStr name); (js "description", VStr (ae_description entry));
        (js "version", VStr (default (js "0.1.0") (co_version options)));
        (js "supportedInterfaces", VArr [VObj [(js "url", VStr (agentUrl entry options)); (js "protocolBinding", VStr (js "JSONRPC"));
           (js "tenant", VStr []); (js "protocolVersion", VStr A2A_PROTOCOL_VERSION)]]);
        (js "provider", VUndef); (js "documentationUrl", VUndef);
        (js "capabilities", VObj [(js "streaming", VBool (jeqb (ae_harness_type entry) (js "claude-agent-sdk")));
           (js "pushNotifications", VBool false); (js "extensions", VArr []); (js "extendedAgentCard", VBool false)]);
        (js "securitySchemes", VObj [(TAILNET_PEER_TAG_SCHEME, VObj [(js "scheme", VObj [(js "$case", VStr (js "mtlsSecurityScheme"));
           (js "value", VObj [(js "description", VStr (js "Caller identity is the tailnet peer identity verified by netd (WhoIs); authorization requires the ACL tags listed in securityRequirements."))])])])]);
        (js "securityRequirements", VArr [VObj [(js "schemes", VObj [(TAILNET_PEER_TAG_SCHEME, VObj [(js "list", strings [ae_tag entry])])])]]);
        (js "defaultInputModes", strings [js "text/plain"]); (js "defaultOutputModes", strings [js "text/plain"]);
        (js "skills", VArr (skill_card <$> ae_skills entry)); (js "signatures", VArr []); (js "iconUrl", VUndef)].

(** ** Directories *)

Section Directories.
(** The environment, the home directory and that of temporary files. *)
Context (env : string -> option jstr) (homedir tmpdir : jstr).
Definition APP : jstr := js "thicket".
Definition SYSTEMD_RUNTIME_ROOT : jstr := js "/run/user".

Definition usableXdgValue (value : option jstr) : option jstr :=
  match value with
  | Some v => if negb (jeqb v []) && is_absolute v then Some v else None
  | None => None
  end.
Definition xdgDir (envVar : string) : option jstr := usableXdgValue (env envVar).
Definition configDir : jstr := join_path [default (join_path [homedir; js ".config"]) (xdgDir "XDG_CONFIG_HOME"); APP].
Definition stateDir : jstr := join_path [default (join_path [homedir; js ".local"; js "state"]) (xdgDir "XDG_STATE_HOME"); APP].
Definition cacheDir : jstr := join_path [default (join_path [homedir; js ".cache"]) (xdgDir "XDG_CACHE_HOME"); APP].

Definition resolveRuntimeDir (xdgRuntimeDir : option jstr) (uid : option Z) (dirExists : jstr -> bool) : jstr :=
  let fallback := join_path [tmpdir; match uid with None => APP | Some u => APP ++ js "-" ++ show_Z u end] in
  match usableXdgValue xdgRuntimeDir with
  | Some base => join_path [base; APP]
  | None =>
      match uid with
      | Some u =>
          let systemd := join_path [SYSTEMD_RUNTIME_ROOT; show_Z u] in
          if dirExists systemd then join_path [systemd; APP] else fallback
      | None => fallback
      end
  end.
Definition runtimeDir (uid : option Z) (isDirectory : jstr -> bool) : jstr := resolveRuntimeDir (env "XDG_RUNTIME_DIR") uid isDirectory.
Definition socketPath (uid : option Z) (isDirectory : jstr -> bool) (component : jstr) : jstr :=
  join_path [runtimeDir uid isDirectory; component ++ js ".sock"].
End Directories.


(** ** A valid roster *)

Section Valid.
Context (lower : jstr -> jstr).
#[local] Abbreviation superRefine := (superRefine lower).

(** What an agent may be called out loud. *)
Definition spoken_of (e : AgentEntry) : list jstr := option_list (pe_spokenName (ae_phone e)) ++ pe_aliases (ae_phone e).
(** A workspace the agent's own table names; or one of the dozen words every
    object has a property for, which pass for names of workspaces. *)
Definition declared (workspaces : list (jstr * jstr)) (workspace : jstr) : Prop := exists directory, (workspace, directory) ∈ workspaces.
Definition inherited_word (workspace : jstr) : Prop :=
  workspace ∈ js <$> ["constructor"; "__defineGetter__"; "__defineSetter__"; "hasOwnProperty"; "__lookupGetter__"; "__lookupSetter__";
                      "isPrototypeOf"; "propertyIsEnumerable"; "toString"; "valueOf"; "__proto__"; "toLocaleString"]%string.
Definition bound (key_ok : jstr -> bool) (workspaces : list (jstr * jstr)) (b : jstr * jstr) : Prop :=
  key_ok (fst b) = true /\ (declared workspaces (snd b) \/ inherited_word (snd b)).
Definition entry_ok (e : AgentEntry) : Prop :=
  (pe_enabled (ae_phone e) = true -> pe_spokenName (ae_phone e) <> None) /\
  Forall (fun w => WORKSPACE_NAME (fst w) = true) (ae_workspaces e) /\
  Forall (bound CHANNEL_KEY (ae_workspaces e)) (ae_channels e) /\
  Forall (bound SNOWFLAKE (ae_workspaces e)) (ae_discord_channels e).

(** Across agents: tags and accounts are one agent's each, and so is a word
    but for its case. *)
Record valid (agents : Roster) : Prop := mkValid {
  va_entries : Forall (fun a => entry_ok (snd a)) agents;
  va_tags : NoDup ((fun a => ae_tag (snd a)) <$> agents);
  va_accounts : NoDup ((fun a => hostUser (snd a)) <$> agents);
  va_spoken : forall a b h h', a ∈ agents -> b ∈ agents -> h ∈ spoken_of (snd a) -> h' ∈ spoken_of (snd b) ->
    lower h = lower h' -> fst a = fst b }.

(** *** One check after another *)

(** A check either complains or leaves the record as [f] of it. *)
Definition fine (ck : checked) : Prop := ck_issues ck = [].
Lemma addIssue_not_fine path m ck : ~ fine (addIssue path m ck).
Proof. unfold fine, addIssue. cbn. by destruct (ck_issues ck). Qed.

Definition checks {A : Type} (step : checked -> A -> checked) (ok : A -> Prop) : Prop :=
  forall ck a, (fine (step ck a) <-> fine ck /\ ok a) /\ (ok a -> step ck a = ck).

Lemma checks_fold {A : Type} step (ok : A -> Prop) l ck : checks step ok ->
  (fine (fold_left step l ck) <-> fine ck /\ Forall ok l) /\ (Forall ok l -> fold_left step l ck = ck).
Proof.
  intros Hs. revert ck. induction l as [|a l IH]; intros ck; cbn; [split; [split; [done|by intros [? _]]|done]|].
  destruct (Hs ck a) as [Hf Hsame], (IH (step ck a)) as [IHf IHsame]. split.
  - rewrite IHf, Hf, Forall_cons. tauto.
  - intros [Ha Hl]%Forall_cons. by rewrite IHsame, Hsame.
Qed.

Lemma check_workspace_checks name : checks (check_workspace name) (fun w => WORKSPACE_NAME (fst w) = true).
Proof.
  intros ck w. unfold check_workspace. destruct (WORKSPACE_NAME (fst w)); [split; [split; [by split|by intros []]|done]|].
  split; [|done]. split; [by intros ?%addIssue_not_fine|by intros []].
Qed.

Lemma has_property_spec ws w : reflect (declared ws w \/ inherited_word w) (has_property ws w).
Proof.
  unfold has_property. assert (w ∈ fst <$> ws <-> declared ws w) as E.
  { rewrite list_elem_of_fmap. split; [intros ([k d] & -> & H); by exists d|intros [d H]; by exists (w, d)]. }
  apply iff_reflect. rewrite orb_true_iff, !bool_decide_eq_true, E. done.
Qed.

Lemma check_binding_checks key_ok complaint at_ name ws : checks (check_binding key_ok complaint at_ name ws) (bound key_ok ws).
Proof.
  intros ck [channel workspace]. unfold check_binding, bound. cbn. destruct (key_ok channel); cbn.
  - destruct (has_property_spec ws workspace); [split; [split; [by split|by intros []]|done]|].
    split; [|by intros []]. split; [by intros ?%addIssue_not_fine|by intros (_ & _ & ?)].
  - split; [|by intros []]. split; [by intros ?%addIssue_not_fine|by intros (_ & ? & _)].
Qed.

(** *** Names that are taken *)

Lemma fine_spoken name phone ck :
  (fine (check_spoken name phone ck) <-> fine ck /\ (pe_enabled phone = true -> pe_spokenName phone <> None)) /\
  ((pe_enabled phone = true -> pe_spokenName phone <> None) -> check_spoken name phone ck = ck).
Proof.
  unfold check_spoken. destruct (pe_enabled phone) eqn:En, (pe_spokenName phone) eqn:Es; cbn; split.
  all: first [by intros _|by split; [intros H; by split|by intros []]|by split; [intros ?%addIssue_not_fine|intros [_ H]; destruct (H eq_refl)]|idtac].
  by intros H; destruct (H eq_refl).
Qed.

Definition spoken_set (name : jstr) (hs : list jstr) (m : gmap jstr jstr) : gmap jstr jstr :=
  fold_left (fun m h => <[lower h := name]> m) hs m.
Definition with_spoken (m : gmap jstr jstr) (ck : checked) : checked := mkChecked (ck_byTag ck) (ck_byHostUser ck) m (ck_issues ck).

(** A word is [name]'s to take. *)
Definition free (name : jstr) (m : gmap jstr jstr) (word : jstr) : Prop := m !! lower word = None \/ m !! lower word = Some name.

Lemma check_handle_step name h path ck :
  (free name (ck_bySpokenHandle ck) h ->
     check_handle lower name ck (h, path) = with_spoken (<[lower h := name]> (ck_bySpokenHandle ck)) ck) /\
  (fine (check_handle lower name ck (h, path)) -> fine ck /\ free name (ck_bySpokenHandle ck) h).
Proof.
  unfold check_handle, free. destruct (ck_bySpokenHandle ck !! lower h) as [o|] eqn:E.
  - unfold jeqb. case_bool_decide as Ho; [subst o; split; [done|by auto]|].
    split; [by intros [?|[= ?]]|by intros ?%addIssue_not_fine].
  - split; [done|by auto].
Qed.

Lemma free_insert name h m k : free name m h -> (free name (<[lower h := name]> m) k <-> free name m k).
Proof.
  unfold free. intros Hh. destruct (decide (lower h = lower k)) as [E|E]; [|by rewrite lookup_insert_ne].
  rewrite E, lookup_insert_eq. rewrite E in Hh. split; [done|by right].
Qed.

Lemma fine_handles name hs ck :
  let ok := Forall (fun h => free name (ck_bySpokenHandle ck) (fst h)) hs in
  (fine (fold_left (check_handle lower name) hs ck) <-> fine ck /\ ok) /\
  (ok -> fold_left (check_handle lower name) hs ck = with_spoken (spoken_set name (fst <$> hs) (ck_bySpokenHandle ck)) ck).
Proof.
  revert ck. induction hs as [|[h path] hs IH]; intros ck; cbn [fold_left fmap list_fmap fst].
  { split; [split; [by split|by intros []]|intros _; by destruct ck]. }
  destruct (check_handle_step name h path ck) as [Hstep Hfine].
  assert (Hrest : free name (ck_bySpokenHandle ck) h ->
     (Forall (fun h' => free name (<[lower h := name]> (ck_bySpokenHandle ck)) (fst h')) hs <->
      Forall (fun h' => free name (ck_bySpokenHandle ck) (fst h')) hs)) by (intros Hh; apply Forall_iff; intros h'; by apply free_insert).
  rewrite Forall_cons. cbn [fst]. split.
  - split.
    + intros Hf. destruct (IH (check_handle lower name ck (h, path))) as [Hi _]. apply Hi in Hf as [Hf Hs]. destruct (Hfine Hf) as [Hck Hh].
      rewrite (Hstep Hh) in Hs. split_and!; [done|done|by apply Hrest].
    + intros (Hck & Hh & Hs). rewrite (Hstep Hh). apply IH. split; [done|by apply Hrest].
  - intros [Hh Hs]. rewrite (Hstep Hh). destruct (IH (with_spoken (<[lower h := name]> (ck_bySpokenHandle ck)) ck)) as [_ ->]; [done|by apply Hrest].
Qed.

Lemma spoken_set_lookup name hs m k : spoken_set name hs m !! k = if decide (k ∈ lower <$> hs) then Some name else m !! k.
Proof.
  revert m. induction hs as [|h hs IH]; intros m; [done|]. cbn [spoken_set fold_left]. change (fold_left _ hs ?m) with (spoken_set name hs m).
  rewrite IH. cbn [fmap list_fmap]. destruct (decide (k ∈ lower <$> hs)) as [Hk|Hk].
  - by rewrite decide_True by (by right).
  - destruct (decide (lower h = k)) as [<-|Hne].
    + rewrite lookup_insert_eq, decide_True by left. done.
    + rewrite lookup_insert_ne, decide_False by (done || by intros [?|?]%elem_of_cons; congruence). done.
Qed.

Lemma spoken_handles_of name phone : fst <$> spoken_handles name phone = option_list (pe_spokenName phone) ++ pe_aliases phone.
Proof.
  unfold spoken_handles. rewrite fmap_app. f_equal; [by destruct (pe_spokenName phone)|]. rewrite fmap_imap. cbn.
  apply list_eq. intros i. rewrite list_lookup_imap. by destruct (_ !! i).
Qed.

(** A table of one owner each: a tag, or an account. *)
Lemma fine_tag name tag ck :
  (fine (check_tag name tag ck) <-> fine ck /\ ck_byTag ck !! tag = None) /\
  (ck_byTag ck !! tag = None -> check_tag name tag ck = mkChecked (<[tag := name]> (ck_byTag ck)) (ck_byHostUser ck) (ck_bySpokenHandle ck) (ck_issues ck)).
Proof.
  unfold check_tag. destruct (ck_byTag ck !! tag); split; try done.
  - split; [by intros ?%addIssue_not_fine|by intros []].
  - split; [by split|by intros []].
Qed.
Lemma fine_host name e ck :
  (fine (check_host name e ck) <-> fine ck /\ ck_byHostUser ck !! hostUser e = None) /\
  (ck_byHostUser ck !! hostUser e = None -> check_host name e ck =
     mkChecked (ck_byTag ck) (<[hostUser e := name]> (ck_byHostUser ck)) (ck_bySpokenHandle ck) (ck_issues ck)).
Proof.
  unfold check_host. destruct (ck_byHostUser ck !! hostUser e); split; try done.
  - split; [by intros ?%addIssue_not_fine|by intros []].
  - split; [by split|by intros []].
Qed.

(** *** A whole agent *)

Definition admitted (ck : checked) (name : jstr) (e : AgentEntry) : Prop :=
  entry_ok e /\ ck_byTag ck !! ae_tag e = None /\ ck_byHostUser ck !! hostUser e = None /\
  Forall (free name (ck_bySpokenHandle ck)) (spoken_of e).
Definition enrolled (ck : checked) (name : jstr) (e : AgentEntry) : checked :=
  mkChecked (<[ae_tag e := name]> (ck_byTag ck)) (<[hostUser e := name]> (ck_byHostUser ck))
    (spoken_set name (spoken_of e) (ck_bySpokenHandle ck)) (ck_issues ck).

Lemma fine_agent name e ck :
  (fine (check_agent lower ck (name, e)) <-> fine ck /\ admitted ck name e) /\
  (admitted ck name e -> check_agent lower ck (name, e) = enrolled ck name e).
Proof.
  unfold check_agent, admitted, entry_ok. destruct (fine_spoken name (ae_phone e) ck) as [H1 S1].
  set (ck1 := check_spoken name (ae_phone e) ck) in *. destruct (fine_handles name (spoken_handles name (ae_phone e)) ck1) as [H2 S2].
  set (ck2 := fold_left _ (spoken_handles _ _) ck1) in *. destruct (fine_tag name (ae_tag e) ck2) as [H3 S3].
  set (ck3 := check_tag name (ae_tag e) ck2) in *.
  destruct (checks_fold _ _ (ae_workspaces e) ck3 (check_workspace_checks name)) as [H4 S4]. set (ck4 := fold_left _ (ae_workspaces e) ck3) in *.
  destruct (checks_fold (check_channel name (ae_workspaces e)) _ (ae_channels e) ck4 (check_binding_checks _ _ _ name _)) as [H5 S5].
  set (ck5 := fold_left _ (ae_channels e) ck4) in *.
  destruct (checks_fold (check_discord name (ae_workspaces e)) _ (ae_discord_channels e) ck5 (check_binding_checks _ _ _ name _)) as [H6 S6].
  set (ck6 := fold_left _ (ae_discord_channels e) ck5) in *. destruct (fine_host name e ck6) as [H7 S7].
  assert (Hw : Forall (fun h => free name (ck_bySpokenHandle ck1) (fst h)) (spoken_handles name (ae_phone e)) <->
               Forall (free name (ck_bySpokenHandle ck1)) (spoken_of e)).
  { unfold spoken_of. rewrite <- (spoken_handles_of name), Forall_fmap. done. }
  assert (Hsame : (pe_enabled (ae_phone e) = true -> pe_spokenName (ae_phone e) <> None) -> Forall (free name (ck_bySpokenHandle ck1)) (spoken_of e) ->
    ck_byTag ck2 !! ae_tag e = None -> Forall (fun w => WORKSPACE_NAME (fst w) = true) (ae_workspaces e) ->
    Forall (bound CHANNEL_KEY (ae_workspaces e)) (ae_channels e) -> Forall (bound SNOWFLAKE (ae_workspaces e)) (ae_discord_channels e) ->
    ck1 = ck /\ ck_byTag ck2 = ck_byTag ck /\ ck_byHostUser ck6 = ck_byHostUser ck /\
    (ck_byHostUser ck6 !! hostUser e = None -> check_host name e ck6 = enrolled ck name e)).
  { intros P1 P2 P3 P4 P5 P6. pose proof (S1 P1) as E1. pose proof (S2 (proj2 Hw P2)) as E2. rewrite (S6 P6), (S5 P5), (S4 P4), (S3 P3) in *.
    rewrite E2, E1, spoken_handles_of in *. split_and!; [done..|]. intros P7. by rewrite (S7 P7). }
  rewrite H7, H6, H5, H4, H3, H2, H1, Hw. split.
  - split.
    + intros (((((((Hf & P1) & P2) & P3) & P4) & P5) & P6) & P7). destruct (Hsame P1 P2 P3 P4 P5 P6) as (E1 & E2 & E6 & _).
      rewrite E1 in P2. rewrite E2 in P3. rewrite E6 in P7. done.
    + intros (Hf & (P1 & P4 & P5 & P6) & P3 & P7 & P2). pose proof (S1 P1) as E1. rewrite <- E1 in P2.
      assert (ck_byTag ck2 !! ae_tag e = None) as P3' by (by rewrite (S2 (proj2 Hw P2)), E1).
      destruct (Hsame P1 P2 P3' P4 P5 P6) as (_ & _ & E6 & _). rewrite <- E6 in P7. done.
  - intros ((P1 & P4 & P5 & P6) & P3 & P7 & P2). pose proof (S1 P1) as E1. rewrite <- E1 in P2.
    assert (ck_byTag ck2 !! ae_tag e = None) as P3' by (by rewrite (S2 (proj2 Hw P2)), E1).
    destruct (Hsame P1 P2 P3' P4 P5 P6) as (_ & _ & E6 & Hend). apply Hend. by rewrite E6.
Qed.

(** *** The roster *)

(** What the record holds after [agents], all of them admitted. *)
Definition records (agents : Roster) (ck : checked) : Prop :=
  (forall k, ck_byTag ck !! k = None <-> k ∉ (fun a => ae_tag (snd a)) <$> agents) /\
  (forall k, ck_byHostUser ck !! k = None <-> k ∉ (fun a => hostUser (snd a)) <$> agents) /\
  (forall k o, ck_bySpokenHandle ck !! k = Some o <->
     exists a, a ∈ agents /\ fst a = o /\ k ∈ lower <$> spoken_of (snd a)).

Lemma insert_none {A : Type} (m : gmap jstr A) k v l x : (forall k, m !! k = None <-> k ∉ l) -> (<[k := v]> m) !! x = None <-> x ∉ l ++ [k].
Proof.
  intros Hm. rewrite not_elem_of_app, list_elem_of_singleton, <- Hm, lookup_insert_None. split; intros [? Hn]; split; auto.
Qed.

Lemma valid_prefix agents a : valid (agents ++ [a]) -> valid agents.
Proof.
  intros [H1 H2 H3 H4]. rewrite fmap_app in H2, H3. apply Forall_app in H1 as [H1 _].
  apply NoDup_app in H2 as (H2 & _). apply NoDup_app in H3 as (H3 & _).
  split; [done..|]. intros x b h h' Hx Hb. apply H4; by apply elem_of_app; left.
Qed.

Lemma valid_snoc agents name e ck : records agents ck ->
  valid (agents ++ [(name, e)]) <-> valid agents /\ admitted ck name e.
Proof.
  intros (Ht & Hh & Hs). split.
  - intros [H1 H2 H3 H4]. rewrite fmap_app in H2, H3. cbn in H2, H3. apply Forall_app in H1 as [H1 [He _]%Forall_cons].
    apply NoDup_app in H2 as (H2 & H2' & _). apply NoDup_app in H3 as (H3 & H3' & _). split.
    + split; [done..|]. intros a b h h' Ha Hb. apply H4; by apply elem_of_app; left.
    + split_and!; [done| | |].
      * apply Ht. intros Hin. apply (H2' _ Hin). by left.
      * apply Hh. intros Hin. apply (H3' _ Hin). by left.
      * apply Forall_forall. intros h Hin. unfold free. destruct (ck_bySpokenHandle ck !! lower h) as [o|] eqn:E; [right|by left].
        apply Hs in E as (a & Ha & <- & (h' & E & Hh')%list_elem_of_fmap). f_equal.
        apply (H4 a (name, e) h' h); [by apply elem_of_app; left|by apply elem_of_app; right; left|done|done|done].
  - intros [[H1 H2 H3 H4] (He & Htag & Hhost & Hsp)]. split.
    + apply Forall_app. split; [done|constructor; [done|constructor]].
    + rewrite fmap_app. apply NoDup_app. split_and!; [done| |apply NoDup_singleton]. intros x Hx Ex%list_elem_of_singleton; subst x. by apply Ht in Htag.
    + rewrite fmap_app. apply NoDup_app. split_and!; [done| |apply NoDup_singleton]. intros x Hx Ex%list_elem_of_singleton; subst x. by apply Hh in Hhost.
    + assert (Hnew : forall a h h', a ∈ agents -> h ∈ spoken_of (snd a) -> h' ∈ spoken_of e -> lower h = lower h' -> fst a = name).
      { intros a h h' Ha Hin Hin' E. rewrite Forall_forall in Hsp.
        assert (ck_bySpokenHandle ck !! lower h = Some (fst a)) as Hl by (apply Hs; exists a; split_and!; [done..|by apply list_elem_of_fmap_2]).
        destruct (Hsp h' Hin') as [Hn|Hn]; rewrite <- E in Hn; congruence. }
      intros a b h h' [Ha|Ha%list_elem_of_singleton]%elem_of_app [Hb|Hb%list_elem_of_singleton]%elem_of_app Hin Hin' E; subst; cbn in *.
      * by apply (H4 a b h h').
      * by apply (Hnew a h h').
      * symmetry. by apply (Hnew b h' h).
      * done.
Qed.

Lemma records_snoc agents name e ck : records agents ck -> valid agents -> admitted ck name e -> records (agents ++ [(name, e)]) (enrolled ck name e).
Proof.
  intros (Ht & Hh & Hs) Hv (_ & _ & _ & Hsp). split_and!.
  - intros k. rewrite fmap_app. by apply insert_none.
  - intros k. rewrite fmap_app. by apply insert_none.
  - intros k o. cbn [enrolled ck_bySpokenHandle]. rewrite spoken_set_lookup. case_decide as Hk.
    + split.
      * intros [= <-]. exists (name, e). split_and!; [by apply elem_of_app; right; left|done|done].
      * intros (a & [Ha|Ha%list_elem_of_singleton]%elem_of_app & <- & Ha'); [|by subst a]. f_equal.
        apply list_elem_of_fmap in Hk as (h & -> & Hin). rewrite Forall_forall in Hsp.
        assert (ck_bySpokenHandle ck !! lower h = Some (fst a)) as Hl by (apply Hs; by exists a).
        destruct (Hsp h Hin) as [Hn|Hn]; congruence.
    + rewrite Hs. split; intros (a & Ha & E & Hka); exists a; [split_and!; [by apply elem_of_app; left|done|done]|].
      apply elem_of_app in Ha as [Ha|Ha%list_elem_of_singleton]; [done|by subst a].
Qed.

Lemma roster_checked agents : fine (superRefine agents) <-> valid agents.
Proof.
  enough ((fine (superRefine agents) <-> valid agents) /\ (valid agents -> records agents (superRefine agents))) by tauto.
  unfold superRefine. induction agents as [|[name e] agents [IH IHr]] using rev_ind.
  - split.
    + split; [|done]. intros _. split; [constructor..|]. by intros a b h h' ?%not_elem_of_nil.
    + intros _. split_and!; intros k; [by split; [intros _ ?%not_elem_of_nil|]..|].
      intros o. split; [done|by intros (a & ?%not_elem_of_nil & _)].
  - rewrite fold_left_app. cbn [fold_left]. set (ck := fold_left _ agents nothing_checked) in *.
    destruct (fine_agent name e ck) as [Hf Hs]. split.
    + rewrite Hf, IH. split; [intros [Hv Ha]; by apply (valid_snoc _ _ _ ck (IHr Hv))|].
      intros Hv'. pose proof (valid_prefix _ _ Hv') as Hv.
      by apply (valid_snoc _ _ _ ck (IHr Hv)) in Hv'.
    + intros Hv'. pose proof (valid_prefix _ _ Hv') as Hv.
      apply (valid_snoc _ _ _ ck (IHr Hv)) in Hv' as [_ Ha]. rewrite (Hs Ha). by apply records_snoc; [apply IHr|..].
Qed.

Lemma accepted_valid agents : validateRoster lower agents = inl agents -> valid agents.
Proof. unfold validateRoster. destruct (ck_issues (superRefine agents)) eqn:E; [|done]. intros _. by apply roster_checked. Qed.

(** C38: The roster is checked for what the bridges rely on, up to two gaps. A
    roster is let in, as it is, just when each agent the phone may reach has a
    spoken name, the names of workspaces are slugs, each channel of Slack is
    keyed by a name or an id and each of Discord by a snowflake, each is bound
    to a workspace its agent declares or to one of the dozen words every
    object has a property for, and no two agents share a tag, the text
    host/user of their accounts, or a word they are called by but for its
    case. Every other is an error. *)
Theorem rosters_are_checked agents :
  match validateRoster lower agents with inl roster => roster = agents /\ valid agents | inr _ => ~ valid agents end.
Proof.
  pose proof (roster_checked agents) as H. unfold fine in H. unfold validateRoster.
  destruct (ck_issues (superRefine agents)) eqn:E; [split; [done|by apply H]|]. intros Hv. by apply H in Hv.
Qed.

(** ** Peers *)

Lemma by_tag_lookup configured agents tag name : NoDup ((fun a => ae_tag (snd a)) <$> agents) ->
  agentByTag configured agents !! tag = Some name <->
  exists e, (name, e) ∈ agents /\ ae_tag e = tag /\ configured name = true.
Proof.
  unfold agentByTag. induction agents as [|[n e] agents IH] using rev_ind; intros Hn.
  { split; [done|by intros (e & ?%not_elem_of_nil & _)]. }
  rewrite fold_left_app. cbn [fold_left fst snd]. rewrite fmap_app in Hn. apply NoDup_app in Hn as (Hn & Hnew & _). specialize (IH Hn).
  assert (Hold : forall e', (name, e') ∈ agents -> ae_tag e' = ae_tag e -> False).
  { intros e' He' E. apply (Hnew (ae_tag e)); [|by left]. rewrite <- E. by apply (list_elem_of_fmap_2 (fun a => ae_tag (snd a)) _ (name, e')). }
  set (m := fold_left _ agents ∅) in *.
  assert (Hlast : (if configured n then <[ae_tag e := n]> m else m) !! tag = Some name <->
    (n = name /\ ae_tag e = tag /\ configured name = true) \/ m !! tag = Some name).
  { destruct (configured n) eqn:Ec; [|split; [by right|by intros [(-> & _ & ?)|?]; congruence]].
    destruct (decide (ae_tag e = tag)) as [<-|Hne].
    - rewrite lookup_insert_eq. split; [intros [= <-]; by left|]. intros [(-> & _)|(e' & He' & E & _)%IH]; [done|by destruct (Hold e')].
    - rewrite lookup_insert_ne by done. split; [by right|]. by intros [(_ & ? & _)|?]. }
  rewrite Hlast, IH. split.
  - intros [(-> & ? & ?)|(e' & ? & ? & ?)]; [exists e|exists e']; (split_and!; [|done..]); apply elem_of_app; [right; left|by left].
  - intros (e' & [He'|He'%list_elem_of_singleton]%elem_of_app & ? & ?); [right; by exists e'|left; by simplify_eq].
Qed.

Lemma tag_is_plain tag : TAG tag = true -> Forall (fun c => is_ws c = false /\ c <> 44%N) tag /\ tag <> [].
Proof.
  unfold TAG. intros [Hp Hw]%andb_prop.
  assert (tag = js "tag:thicket-" ++ drop (length (js "tag:thicket-")) tag) as E.
  { clear Hw. revert Hp. generalize (js "tag:thicket-") as p. intros p. revert tag. induction p as [|c p IH]; intros [|d tag] Hp; try done.
    cbn in Hp. apply andb_prop in Hp as [Hc Hp]. apply N.eqb_eq in Hc as ->. cbn. f_equal. by apply IH. }
  split; [|intros ->; by vm_compute in Hp]. rewrite E. apply Forall_app. split; [by apply (bool_decide_unpack _); vm_compute|].
  assert (Hslug : forall c, slug_unit c || (c =? 45)%N = true -> is_ws c = false /\ c <> 44%N).
  { intros c Hc. unfold slug_unit, is_digit in Hc. assert (45 <= c /\ c <= 122 /\ c <> 44)%N as (H1 & H2 & H3).
    { repeat (apply orb_prop in Hc as [Hc|Hc]); try apply andb_prop in Hc as [?%N.leb_le ?%N.leb_le]; try apply N.eqb_eq in Hc; lia. }
    split; [|done]. unfold is_ws. repeat apply orb_false_intro; try (apply N.eqb_neq; lia);
      apply andb_false_iff; first [left; apply N.leb_gt; lia|right; apply N.leb_gt; lia]. }
  destruct (drop _ tag) as [|c t]; [by constructor|]. cbn in Hw. apply andb_prop in Hw as [Hc Ht]. constructor.
  - apply Hslug. by rewrite Hc.
  - apply Forall_forall. intros x Hx. apply Hslug. rewrite forallb_forall in Ht. apply Ht. by apply list_elem_of_In.
Qed.

Lemma trim_plain s : Forall (fun c => is_ws c = false) s -> trim s = s.
Proof.
  assert (Hs : forall s, Forall (fun c => is_ws c = false) s -> trim_start s = s) by (intros [|c t]; [done|intros [Hc _]%Forall_cons; cbn; by rewrite Hc]).
  intros H. unfold trim, trim_end. rewrite (Hs s H), Hs by by apply Forall_reverse. apply reverse_involutive.
Qed.

Lemma own_tag tag : TAG tag = true -> parsePeerTags (Some tag) = [tag].
Proof.
  intros [Hp Hne]%tag_is_plain. unfold parsePeerTags, split. change (js ",") with [44%N]. rewrite split_go_none.
  - cbn [fmap list_fmap app]. rewrite trim_plain by (eapply Forall_impl; [exact Hp|by intros c []]).
    rewrite filter_cons, decide_True by done. done.
  - intros Hin. rewrite Forall_forall in Hp. by destruct (Hp 44%N Hin).
Qed.

(** C12: A peer is who its tag says. Of a roster that was let in, a bridge
    takes a peer with an agent's tag for that agent, if it serves it; and
    when it takes a peer for an agent, one of the peer's tags is the one the
    roster gives that agent and gives to no other. *)
Theorem peers_are_who_they_say agents configured token name :
  validateRoster lower agents = inl agents -> Forall (fun a => TAG (ae_tag (snd a)) = true) agents ->
  let server := mkFileServer (agentByTag configured agents) token in
  (forall e, (name, e) ∈ agents -> configured name = true -> SlackHttp.identified server (Some (ae_tag e)) = Some name) /\
  (forall tags, SlackHttp.identified server tags = Some name -> configured name = true /\
     exists e, (name, e) ∈ agents /\ ae_tag e ∈ parsePeerTags tags /\ forall other e', (other, e') ∈ agents -> ae_tag e' = ae_tag e -> (other, e') = (name, e)).
Proof.
  intros Hv Htags server. destruct (accepted_valid agents Hv) as [_ Hn _ _]. split.
  - intros e Hin Hc. unfold SlackHttp.identified. rewrite Forall_forall in Htags. rewrite (own_tag (ae_tag e)) by by apply (Htags (name, e)).
    assert (agentByTag configured agents !! ae_tag e = Some name) as E by (apply by_tag_lookup; [done|by exists e]).
    cbn [omap list_omap fo_agentByTag server]. by rewrite E.
  - intros tags Hid. unfold SlackHttp.identified in Hid. apply head_Some_elem_of, list_elem_of_omap in Hid as (tag & Htag & Hl).
    cbn [fo_agentByTag server] in Hl. apply by_tag_lookup in Hl as (e & Hin & <- & Hc); [|done]. split; [done|].
    exists e. split_and!; [done..|]. intros other e' Hin' E.
    apply list_elem_of_lookup in Hin as [i Hi], Hin' as [j Hj]. assert (j = i) as -> by (apply (NoDup_lookup _ j i (ae_tag e) Hn); rewrite list_lookup_fmap; rewrite ?Hi, ?Hj; cbn; congruence).
    congruence.
Qed.
End Valid.

(** ** A roster *)

Definition roster_letters (s : jstr) : jstr := (fun c => if ((65 <=? c) && (c <=? 90))%N then (c + 32)%N else c) <$> s.
Definition an_agent (user tag : string) (spoken : option string) : AgentEntry :=
  mkEntry (js "den") (js user) (js "keeps things") (js tag) [] (js "claude-agent-sdk") [(js "garden", js "/srv/garden")]
    [(js "#plants", js "garden")] (mkPhoneEntry (present spoken) (js <$> spoken) [] 60) [].
Definition two_agents : Roster :=
  [(js "mail", an_agent "mail" "tag:thicket-mail" (Some "Post"%string)); (js "hearth", an_agent "hearth" "tag:thicket-hearth" (Some "Mail"%string))].

Lemma peers_are_who_they_say_witness :
  SlackHttp.identified (mkFileServer (agentByTag (fun _ => true) two_agents) (fun _ => None)) (Some (js "tag:thicket-hearth")) = Some (js "hearth").
Proof.
  refine (proj1 (peers_are_who_they_say roster_letters two_agents (fun _ => true) (fun _ => None) (js "hearth") _ _)
    (an_agent "hearth" "tag:thicket-hearth" (Some "Mail"%string)) _ _).
  - evaluated.
  - repeat constructor.
  - by right; left.
  - done.
Defined.

(** The words a caller may say are not only those the roster keeps apart: an
    agent answers to its own name as well, and here to the other's. *)
Theorem word_of_two_agents :
  valid roster_letters two_agents /\
  pa_name <$> agentNamed roster_letters (fun _ => true) (phoneEnabledAgents ((fun a => (fst a, ae_phone (snd a))) <$> two_agents)) (js "Mail")
    = Some (js "mail").
Proof.
  split; [|evaluated]. apply accepted_valid. evaluated.
Qed.

(** A workspace of the name of something every object has is taken for one
    that was declared. *)
Definition undeclared : Roster :=
  [(js "mail", mkEntry (js "den") (js "mail") (js "keeps things") (js "tag:thicket-mail") [] (js "claude-agent-sdk") []
      [(js "#plants", js "constructor")] (mkPhoneEntry false None [] 60) [])].
Theorem undeclared_workspace_accepted : validateRoster roster_letters undeclared = inl undeclared.
Proof. evaluated. Qed.

(** Two accounts are told apart by the text host/user only. *)
Definition slashed_accounts : Roster :=
  let entry host user tag := mkEntry (js host) (js user) (js "keeps things") (js tag) [] (js "claude-agent-sdk") [] [] (mkPhoneEntry false None [] 60) [] in
  [(js "mail", entry "den"%string "a/b"%string "tag:thicket-mail"%string); (js "hearth", entry "den/a"%string "b"%string "tag:thicket-hearth"%string)].
Theorem slashed_accounts_refused : exists message, validateRoster roster_letters slashed_accounts = inr message.
Proof. eexists. evaluated. Qed.
