(* ===== verification/Egress.v ===== *)
(** [packages/egress/src/egress.ts] and [packages/egress/src/socket-group.ts]:
    the way out of an account without a network, through tunnels that a proxy
    on a socket opens, and the socket's sharing with a group. Bytes are
    numbers below 256, and Latin-1 reads each as the character of its number.

    Then: what a tunnel promises, however the proxy's answer is cut into
    chunks. What becomes of bytes that are put back, or that arrive while
    nobody listens, is the platform's: a stream that flows loses them. *)

From S2P Require Import Prelude Json Numbers.
#[local] Open Scope nat_scope.

Definition BANNER_LIMIT : Z := 8192.
Definition CRLF : jstr := [13; 10]%N.

(** [s.indexOf(p)], where it is found. *)
Fixpoint indexOf (p s : jstr) : option nat :=
  if starts_with p s then Some 0 else match s with [] => None | _ :: t => S <$> indexOf p t end.
Definition equals_integer (z : Z) (n : number) : bool :=
  match n with
  | Finite negative m e => bool_decide ((if negative then - m else m) * 2 ^ Z.max e 0 = z * 2 ^ Z.max (- e) 0)%Z
  | _ => false
  end.

(** ** A tunnel *)

(** What the sockets do: the proxy's, and the TLS one put over it. *)
Inductive happens :=
| Connect
| Error_ (message : jstr)
| Data (chunk : list N)
| TlsSecure
| TlsError (message : jstr)
| Closed.

(** How the promise settled, if it has. *)
Inductive outcome :=
| Resolved (tls : bool)
| Rejected (message : jstr).

(** The listeners of the proxy's socket that are in place, the answer so far,
    whether TLS was put over it, what was written, what was put back in front
    of the stream, whether it was destroyed, and the promise. *)
Record tunnel := mkTunnel {
  tu_data : bool;
  tu_error : bool;
  tu_banner : jstr;
  tu_tls : bool;
  tu_written : list jstr;
  tu_unshifted : list N;
  tu_destroyed : bool;
  tu_promise : option outcome }.
Definition new_tunnel : tunnel := mkTunnel true true [] false [] [] false None.

Definition settle_as (o : outcome) (t : tunnel) : tunnel :=
  mkTunnel (tu_data t) (tu_error t) (tu_banner t) (tu_tls t) (tu_written t) (tu_unshifted t) (tu_destroyed t)
    (match tu_promise t with None => Some o | settled => settled end).
Definition fail_with (message : jstr) (t : tunnel) : tunnel :=
  settle_as (Rejected message)
    (mkTunnel (tu_data t) (tu_error t) (tu_banner t) (tu_tls t) (tu_written t) (tu_unshifted t) true (tu_promise t)).
Definition removeError (t : tunnel) : tunnel :=
  mkTunnel (tu_data t) false (tu_banner t) (tu_tls t) (tu_written t) (tu_unshifted t) (tu_destroyed t) (tu_promise t).

Section Tunnel.
Context (hostname : jstr) (port : Z) (secure : bool).

Definition target : jstr := hostname ++ js ":" ++ show_Z port.
Definition connect_request : jstr := js "CONNECT " ++ target ++ js " HTTP/1.1" ++ CRLF ++ js "Host: " ++ target ++ CRLF ++ CRLF.
Definition on_connect (t : tunnel) : tunnel :=
  mkTunnel (tu_data t) (tu_error t) (tu_banner t) (tu_tls t) (tu_written t ++ [connect_request]) (tu_unshifted t) (tu_destroyed t) (tu_promise t).

(** [Number(statusLine.split(" ")[1])]. *)
Definition status_of (statusLine : jstr) : number :=
  match split (js " ") statusLine !! 1 with Some s => number_of_string s | None => NaN end.

Definition onData (chunk : list N) (t : tunnel) : tunnel :=
  let banner := tu_banner t ++ chunk in
  let t := mkTunnel (tu_data t) (tu_error t) banner (tu_tls t) (tu_written t) (tu_unshifted t) (tu_destroyed t) (tu_promise t) in
  match indexOf (CRLF ++ CRLF) banner with
  | None => if (BANNER_LIMIT <? Z.of_nat (length banner))%Z then fail_with (js "egress proxy sent an oversized CONNECT response") t else t
  | Some e =>
      let t := mkTunnel false (tu_error t) banner (tu_tls t) (tu_written t) (tu_unshifted t) (tu_destroyed t) (tu_promise t) in
      let statusLine := take (default 0 (indexOf CRLF banner)) banner in
      if negb (equals_integer 200 (status_of statusLine)) then fail_with (js "egress proxy refused CONNECT: " ++ statusLine) t
      else
        let extra := drop (e + 4) banner in
        let t := mkTunnel (tu_data t) (tu_error t) banner secure (tu_written t) (extra ++ tu_unshifted t) (tu_destroyed t) (tu_promise t) in
        if negb secure then settle_as (Resolved false) (removeError t) else t
  end.

(** A destroyed socket brings nothing more, and with its listener removed the
    tunnel sees nothing of what arrives. *)
Definition step (t : tunnel) (h : happens) : tunnel :=
  match h with
  | Connect => on_connect t
  | Error_ message => if tu_error t then fail_with message t else t
  | Data chunk =>
      if tu_destroyed t then t
      else if tu_data t then onData chunk t
      else t
  | TlsSecure => if tu_tls t then settle_as (Resolved true) (removeError t) else t
  | TlsError message => if tu_tls t then fail_with message t else t
  | Closed => t
  end.
Definition opened (hs : list happens) : tunnel := fold_left step hs new_tunnel.
End Tunnel.

(** ** Requests *)

(** The port a request's tunnel goes to, whether it is a TLS one, the body of
    a response, and the bodies of a request that are sent. *)
Definition tunnel_port (protocol port : jstr) : number :=
  if jeqb port [] then (if jeqb protocol (js "http:") then Finite false 80 0 else Finite false 443 0) else number_of_string port.
Definition tunnel_secure (protocol : jstr) : bool := jeqb protocol (js "https:").
Definition has_no_body (status : Z) : bool := ((status =? 204) || (status =? 304))%Z.

(** What is at a path: nothing, a socket, or something else. *)
Inductive at_path := Absent | ASocket | Other.
Definition assertEgressSocket (socketPath : jstr) (found : at_path) : option jstr :=
  match found with
  | Absent => Some (js "no egress socket at " ++ socketPath
                ++ js ": netd owns it, so start netd first — there is no direct-dial fallback, by design")
  | ASocket => None
  | Other => Some (js "egress path " ++ socketPath ++ js " is not a socket")
  end.

(** ** A socket's group *)

(** A double's integer, if it is one. *)
Definition integer_of (n : number) : option Z :=
  match n with
  | Finite negative m e =>
      let m := if negative then (- m)%Z else m in
      if (0 <=? e)%Z then Some (m * 2 ^ e)%Z
      else if (m mod 2 ^ (- e) =? 0)%Z then Some (m / 2 ^ (- e))%Z else None
  | _ => None
  end.

(** [getent] answers with a line or fails; [inr] is an error. *)
Definition gidOf (getent : jstr -> option jstr) (group : jstr) : Z + jstr :=
  let looked_up :=
    match getent group with
    | None => inr (js "socket_group " ++ dq ++ group ++ dq ++ js ": no such group on this host")
    | Some out =>
        match split (js ":") out !! 2 ≫= fun field => integer_of (number_of_string field) with
        | Some gid => inl gid
        | None => inr (js "socket_group " ++ dq ++ group ++ dq ++ js ": could not read a gid from " ++ dq ++ trim out ++ dq)
        end
    end in
  match integer_of (number_of_string group) with
  | Some numeric => if (0 <=? numeric)%Z then inl numeric else looked_up
  | None => looked_up
  end.

(** A socket's owner, group and mode ([0o600], [0o660]) after it; [inr] is an error, with which it
    is left as it was. *)
Definition shareSocketWithGroup (getent : jstr -> option jstr) (group : option jstr) (socket : Z * Z * Z) : (Z * Z * Z) + jstr :=
  let '(uid, gid, _) := socket in
  match group with
  | None | Some [] => inl (uid, gid, 384%Z)
  | Some group => match gidOf getent group with inl gid => inl (uid, gid, 432%Z) | inr e => inr e end
  end.


(** ** Where a string is first found *)

Lemma starts_with_app q a b : starts_with q a = true -> starts_with q (a ++ b) = true.
Proof.
  revert a. induction q as [|c q IH]; intros [|d a]; cbn; try done. intros [-> H]%andb_prop. by apply IH.
Qed.
Lemma starts_with_length q a : starts_with q a = true -> length q <= length a.
Proof.
  revert a. induction q as [|c q IH]; intros [|d a]; cbn; try done; try lia. intros [_ H%IH]%andb_prop. lia.
Qed.
Lemma starts_with_short q a b : length q <= length a -> starts_with q (a ++ b) = starts_with q a.
Proof.
  revert a. induction q as [|c q IH]; intros [|d a] Hl; cbn in *; try done; [lia|]. by rewrite IH by lia.
Qed.

Lemma indexOf_bound q s i : indexOf q s = Some i -> i + length q <= length s.
Proof.
  revert i. induction s as [|c s IH]; intros i; cbn [indexOf].
  - destruct (starts_with q []) eqn:E; [|done]. intros [= <-]. by apply starts_with_length in E.
  - destruct (starts_with q (c :: s)) eqn:E; [intros [= <-]; by apply starts_with_length in E|].
    intros (j & Hj & ->)%fmap_Some. specialize (IH j Hj). cbn. lia.
Qed.

Lemma indexOf_app q a b i : indexOf q a = Some i -> indexOf q (a ++ b) = Some i.
Proof.
  revert i. induction a as [|c a IH]; intros i H.
  - cbn in H. destruct (starts_with q []) eqn:E; [|done]. injection H as <-. destruct q; [|done]. by destruct b.
  - cbn [indexOf app] in *. destruct (starts_with q (c :: a)) eqn:E.
    + change (c :: a ++ b) with ((c :: a) ++ b). by rewrite (starts_with_app q (c :: a) b E).
    + destruct (indexOf q a) as [j|] eqn:Ej; [|done]. injection H as <-. pose proof (indexOf_bound q a j Ej).
      change (c :: a ++ b) with ((c :: a) ++ b). rewrite (starts_with_short q (c :: a) b), E by (cbn; lia). by rewrite (IH j eq_refl).
Qed.

Lemma indexOf_cut q a b i : indexOf q (a ++ b) = Some i -> length a < i + length q -> indexOf q a = None.
Proof.
  intros H Hl. destruct (indexOf q a) as [j|] eqn:E; [|done]. pose proof (indexOf_bound q a j E).
  apply (indexOf_app q a b) in E. rewrite E in H. injection H as ->. lia.
Qed.

Lemma indexOf_weaken q r s i : indexOf (q ++ r) s = Some i -> exists j, indexOf q s = Some j /\ j <= i.
Proof.
  assert (Hq : forall s, starts_with (q ++ r) s = true -> starts_with q s = true).
  { clear s i. induction q as [|c q IH]; intros [|d s]; cbn; try done. intros [-> H]%andb_prop. by apply IH. }
  revert i. induction s as [|c s IH]; intros i; cbn [indexOf].
  - destruct (starts_with (q ++ r) []) eqn:E; [|done]. intros [= <-]. rewrite (Hq _ E). by exists 0.
  - destruct (starts_with (q ++ r) (c :: s)) eqn:E; [intros [= <-]; rewrite (Hq _ E); by exists 0|].
    intros (j & Hj & ->)%fmap_Some. destruct (IH j Hj) as (k & Hk & Hle). destruct (starts_with q (c :: s)); [exists 0; split; [done|lia]|].
    rewrite Hk. exists (S k). split; [done|lia].
Qed.

(** ** The answer *)

Section Tunnel.
Context (hostname : jstr) (port : Z) (secure : bool).
#[local] Abbreviation opened := (opened hostname port secure).
#[local] Abbreviation step := (step hostname port secure).

Definition status_line (banner : jstr) : jstr := take (default 0 (indexOf CRLF banner)) banner.
Definition accepts (banner : jstr) : bool := equals_integer 200 (status_of (status_line banner)).
(** Up to the blank line, of which it has no other, and no longer than a
    proxy's answer may be. *)
Definition whole_banner (banner : jstr) : Prop :=
  indexOf (CRLF ++ CRLF) banner = Some (length banner - 4) /\ 4 <= length banner /\ (Z.of_nat (length banner) <= BANNER_LIMIT + 1)%Z.

Definition waiting (banner : jstr) : tunnel := mkTunnel true true banner false [connect_request hostname port] [] false None.
(** What a tunnel comes to, once its answer is whole, if [extra] came in the
    chunk that ended it. *)
Definition answered (banner extra : jstr) : tunnel :=
  if accepts banner
  then mkTunnel false secure (banner ++ extra) secure [connect_request hostname port] extra false (if secure then None else Some (Resolved false))
  else mkTunnel false true (banner ++ extra) false [connect_request hostname port] [] true
         (Some (Rejected (js "egress proxy refused CONNECT: " ++ status_line banner))).

Lemma status_line_app banner extra i : indexOf (CRLF ++ CRLF) banner = Some i -> status_line (banner ++ extra) = status_line banner.
Proof.
  intros (j & Hj & _)%indexOf_weaken. unfold status_line. rewrite (indexOf_app _ _ extra _ Hj), Hj.
  apply indexOf_bound in Hj. change (take j (banner ++ extra) = take j banner). apply take_app_le. cbn in Hj. lia.
Qed.

Lemma data_waits p chunk x banner : whole_banner banner -> (p ++ chunk) ++ x = banner -> x <> [] ->
  step (waiting p) (Data chunk) = waiting (p ++ chunk).
Proof.
  intros (Hi & H4 & Hl) E Hx. unfold step, onData. cbn [tu_destroyed waiting tu_data tu_banner].
  assert (0 < length x) as H0 by (destruct x; [done|cbn; lia]).
  assert (length (p ++ chunk) < length banner) as Hlt by (rewrite <- E, !length_app; lia).
  rewrite (indexOf_cut _ (p ++ chunk) x (length banner - 4)); [|by rewrite E|cbn [length CRLF app]; lia].
  assert ((BANNER_LIMIT <? Z.of_nat (length (p ++ chunk)))%Z = false) as -> by (apply Z.ltb_ge; lia). done.
Qed.

Lemma data_answers p chunk banner extra : whole_banner banner -> p ++ chunk = banner ++ extra ->
  step (waiting p) (Data chunk) = answered banner extra.
Proof.
  intros (Hi & H4 & Hl) E. unfold step, onData. cbn [tu_destroyed waiting tu_data tu_banner]. rewrite E.
  rewrite (indexOf_app _ _ extra _ Hi). change (take _ _) with (status_line (banner ++ extra)). rewrite (status_line_app _ _ _ Hi).
  unfold answered, accepts. destruct (equals_integer _ _); cbn [negb]; [|done].
  replace (length banner - 4 + 4) with (length banner) by lia. rewrite drop_app_length. cbn. rewrite app_nil_r. by destruct secure.
Qed.

Lemma data_passes banner extra chunks : fold_left step (Data <$> chunks) (answered banner extra) = answered banner extra.
Proof.
  induction chunks as [|chunk chunks IH]; cbn [fmap list_fmap fold_left]; [done|].
  assert (step (answered banner extra) (Data chunk) = answered banner extra) as -> by (unfold answered; by destruct (accepts banner)). exact IH.
Qed.

Lemma data_all banner rest chunks p : whole_banner banner -> length p < length banner -> p ++ concat chunks = banner ++ rest ->
  exists extra after, fold_left step (Data <$> chunks) (waiting p) = answered banner extra /\ after `suffix_of` chunks /\ rest = extra ++ concat after.
Proof.
  intros Hb. revert p. induction chunks as [|chunk chunks IH]; intros p Hp Hc; cbn [concat fmap list_fmap fold_left] in *.
  { rewrite app_nil_r in Hc. subst p. rewrite length_app in Hp. lia. }
  assert (Hdone : forall k, p ++ chunk = banner ++ k -> rest = k ++ concat chunks ->
    exists extra after, fold_left step (Data <$> chunks) (step (waiting p) (Data chunk)) = answered banner extra /\
      after `suffix_of` chunk :: chunks /\ rest = extra ++ concat after).
  { intros k Ek ->. exists k, chunks. rewrite (data_answers p chunk banner k Hb Ek), data_passes. split_and!; [done|by exists [chunk]|done]. }
  rewrite app_assoc in Hc. destruct (app_eq_inv _ _ _ _ Hc) as [(k & Ek & Er)|(k & Ek & Er)]; [by apply (Hdone k)|].
  destruct (decide (k = [])) as [->|Hk]; [apply (Hdone []); [by rewrite Ek, !app_nil_r|by rewrite Er]|].
  rewrite (data_waits p chunk k banner Hb (eq_sym Ek) Hk). destruct (IH (p ++ chunk)) as (extra & after & E & Ha & Hr); [|exact Hc|].
  - assert (0 < length k) as H0 by (destruct k; [done|cbn; lia]). rewrite Ek, !length_app. lia.
  - exists extra, after. split_and!; [done|by apply suffix_cons_r|done].
Qed.

(** C39: A tunnel takes the proxy's answer off the stream, and nothing else.
    However the answer and what follows it are cut into chunks: of an answer
    of 200 the tunnel reads up to the end of the chunk its blank line comes
    in, puts exactly what follows the blank line there back in front of the
    stream, touches none of the later chunks, and hands over a TLS connection
    or the stream itself; any other answer closes it, and its status line is
    what the caller is told. Nothing was written to the proxy but the request
    for the tunnel. Whether what is put back, and what arrives before anyone
    listens again, is ever read is up to the stream, which flows on with
    nobody listening. *)
Theorem tunnels_are_transparent banner rest chunks :
  whole_banner banner -> concat chunks = banner ++ rest ->
  let t := opened (Connect :: (Data <$> chunks)) in
  tu_written t = [connect_request hostname port] /\
  if accepts banner
  then (exists later, later `suffix_of` chunks /\ rest = tu_unshifted t ++ concat later) /\ tu_banner t = banner ++ tu_unshifted t /\
       tu_data t = false /\ tu_destroyed t = false /\ tu_tls t = secure /\
       tu_promise (if secure then step t TlsSecure else t) = Some (Resolved secure)
  else tu_destroyed t = true /\ tu_promise t = Some (Rejected (js "egress proxy refused CONNECT: " ++ status_line banner)).
Proof.
  intros Hb Hc t. destruct (data_all banner rest chunks [] Hb) as (extra & later & Ht & Hl & Hr); [destruct Hb as (_ & ? & _); cbn; lia|done|].
  change (t = answered banner extra) in Ht. rewrite Ht. unfold answered.
  destruct (accepts banner); [|done]. split; [by destruct secure|]. split; [by exists later|]. by destruct secure.
Qed.

(** *** No other way *)

Definition chunk_of (h : happens) : list N := match h with Data chunk => chunk | _ => [] end.
Definition bytes (hs : list happens) : list N := concat (chunk_of <$> hs).
Definition let_through (banner : jstr) : Prop := indexOf (CRLF ++ CRLF) banner <> None /\ accepts banner = true.

Record honest (received : list N) (t : tunnel) : Prop := mkHonest {
  ho_prefix : tu_banner t `prefix_of` received;
  ho_whole : tu_destroyed t = false -> tu_data t = true -> tu_banner t = received;
  ho_tls : tu_tls t = true -> secure = true /\ let_through (tu_banner t);
  ho_open : forall tls, tu_promise t = Some (Resolved tls) -> tls = secure /\ let_through (tu_banner t) }.

Lemma honest_later received more t : honest received t -> (tu_destroyed t = true \/ tu_data t = false \/ more = []) -> honest (received ++ more) t.
Proof.
  intros [H1 H2 H3 H4] Hm. split; [by apply prefix_app_r| |done|done].
  intros Hd Ht. rewrite (H2 Hd Ht). destruct Hm as [?|[?| ->]]; [congruence..|by rewrite app_nil_r].
Qed.

Lemma honest_fails received message t : honest received t -> honest received (fail_with message t).
Proof. intros [H1 H2 H3 H4]. split; cbn; [done|done|done|]. intros tls. destruct (tu_promise t) eqn:E; [by intros [= ->]; apply H4|done]. Qed.

Lemma honest_data received chunk t : honest received t -> tu_destroyed t = false -> tu_data t = true ->
  honest (received ++ chunk) (onData secure chunk t).
Proof.
  intros [H1 H2 H3 H4] Hd Ht. specialize (H2 Hd Ht). unfold onData. rewrite H2.
  assert (Hgrows : let_through received -> let_through (received ++ chunk)).
  { intros [Hn Ha]. destruct (indexOf (CRLF ++ CRLF) received) as [i|] eqn:E; [|done]. split; [by rewrite (indexOf_app _ _ chunk _ E)|].
    unfold accepts. by rewrite (status_line_app _ chunk _ E). }
  rewrite H2 in H3, H4.
  assert (Hbase : forall data destroyed unread, honest (received ++ chunk)
     (mkTunnel data (tu_error t) (received ++ chunk) (tu_tls t) (tu_written t) unread destroyed (tu_promise t))).
  { intros data destroyed unread. split; cbn; [done|done|intros [? ?]%H3; by split; auto|intros tls [? ?]%H4; by split; auto]. }
  destruct (indexOf (CRLF ++ CRLF) (received ++ chunk)) as [e|] eqn:Ei.
  - destruct (negb _) eqn:Ea; [by apply honest_fails|]. apply negb_false_iff in Ea.
    assert (Hl : let_through (received ++ chunk)) by (split; [by rewrite Ei|exact Ea]).
    destruct secure eqn:Es; cbn [negb].
    + split; cbn; [done|done|intros ?; split; [congruence|by auto]|intros tls [? ?]%H4; split; [congruence|auto]].
    + split; cbn; [done|done|intros ?; split; [congruence|by auto]|]. intros tls. destruct (tu_promise t) eqn:Ep; [intros [= ->]; destruct (H4 tls eq_refl); split; [congruence|auto]|intros [= <-]; split; [congruence|done]].
  - destruct (_ <? _)%Z; [by apply honest_fails|done].
Qed.

Lemma opened_honest hs : honest (bytes hs) (opened hs).
Proof.
  induction hs as [|h hs IH] using rev_ind.
  { split; [apply prefix_nil|done|done|done]. }
  unfold bytes, opened. rewrite fmap_app, concat_app, fold_left_app. cbn [fmap list_fmap concat fold_left]. rewrite app_nil_r.
  change (concat (chunk_of <$> hs)) with (bytes hs). change (fold_left _ hs new_tunnel) with (opened hs).
  set (t := opened hs) in *. destruct h; cbn [chunk_of]; try rewrite app_nil_r; unfold step.
  - by destruct IH.
  - destruct (tu_error t); [by apply honest_fails|done].
  - destruct (tu_destroyed t) eqn:Ed; [by apply honest_later; auto|]. destruct (tu_data t) eqn:Et; [by apply honest_data|].
    apply honest_later; auto.
  - destruct (tu_tls t) eqn:Et; [|done]. destruct IH as [H1 H2 H3 H4]. split; cbn; [done|done|done|].
    intros tls. destruct (tu_promise t) eqn:Ep; [by intros [= ->]; apply H4|]. intros [= <-]. destruct (H3 Et) as [-> ?]. done.
  - destruct (tu_tls t); [by apply honest_fails|done].
  - done.
Qed.

(** There is no other way out: whatever the sockets do, in whatever order, a
    tunnel is handed over only after an answer whose status line says 200,
    and as a TLS connection just when one was asked for. *)
Theorem no_way_around_the_proxy hs tls : tu_promise (opened hs) = Some (Resolved tls) ->
  tls = secure /\ exists banner, banner `prefix_of` bytes hs /\ let_through banner.
Proof. intros H. destruct (opened_honest hs) as [H1 _ _ H4]. destruct (H4 tls H) as [-> ?]. split; [done|by exists (tu_banner (opened hs))]. Qed.

(** A proxy that goes away without a word is not noticed: whoever asked for
    the tunnel waits for ever. *)
Theorem silence_is_not_noticed : tu_promise (opened [Connect; Closed]) = None.
Proof. done. Qed.
End Tunnel.

(** ** A run *)

Definition established : jstr := js "HTTP/1.1 200 Connection established" ++ CRLF ++ CRLF.
Definition demo_chunks : list (list N) := [take 7 established; drop 7 established ++ [22]; [3; 1]]%N.
Definition demo_tunnel : tunnel := opened (js "api.slack.com") 443 true (Connect :: (Data <$> demo_chunks)).
Lemma tunnels_are_transparent_witness :
  tu_unshifted demo_tunnel = [22]%N /\
  exists later, later `suffix_of` demo_chunks /\ [22; 3; 1]%N = tu_unshifted demo_tunnel ++ concat later.
Proof.
  split; [evaluated|].
  destruct (tunnels_are_transparent (js "api.slack.com") 443 true established [22; 3; 1]%N demo_chunks) as [_ H].
  - split_and!; [evaluated|by apply (bool_decide_unpack _); vm_compute|by apply (bool_decide_unpack _); vm_compute].
  - evaluated.
  - assert (accepts established = true) as E by evaluated. rewrite E in H. exact (proj1 H).
Defined.

Lemma no_way_around_the_proxy_witness :
  exists banner, banner `prefix_of` bytes [Connect; Data established] /\ let_through banner.
Proof. refine (proj2 (no_way_around_the_proxy (js "api.slack.com") 80 false [Connect; Data established] false _)). evaluated. Defined.

(** A group whose name is blank is taken for the number it reads as, which is
    that of root's group. *)
Example blank_group_is_root getent : shareSocketWithGroup getent (Some (js " ")) (1000, 1000, 384)%Z = inl (1000, 0, 432)%Z.
Proof. evaluated. Qed.
