(* ===== verification/Doctor.v ===== *)
(** [apps/cli/src/doctor.ts]: what the doctor makes of what its probes found.
    A probe answers or fails; the doctor asks one after the other and changes
    nothing, so its report is a function of their answers.

    Then: what the doctor's verdict means, and what it makes of a refusal by
    its own account's proxy. *)

From S2P Require Import Prelude PhonePicker Egress Roster.
#[local] Open Scope nat_scope.

(** ** Probes *)

Definition probed (T : Type) : Type := T + jstr.
Record node := mkNode {
  no_hostname : jstr;
  no_tags : list jstr }.
Record tailnet_view := mkView {
  tv_nodes : list node;
  tv_selfTags : list jstr;
  tv_selfHostname : jstr }.
Record slack_app := mkApp {
  ap_installed : bool;
  ap_socketMode : bool }.
Record boot := mkBoot {
  bo_enabled : bool;
  bo_mechanism : jstr }.
Record executable := mkExecutable {
  ex_name : jstr;
  ex_version : jstr }.
Record bridge_agent := mkBridgeAgent {
  ba_agent : jstr;
  ba_connected : bool;
  ba_attempts : Z }.
Record SlackBridgeHealth := mkSlackHealth {
  sh_ts : jstr;
  sh_agents : list bridge_agent;
  sh_source : option jstr }.
Record PhoneHealth := mkPhoneHealth {
  ph_ts : jstr;
  ph_openCalls : Z }.
Inductive phone_config :=
| Loads (source : jstr) (unreadable : bool)
| WillNotLoad (error source : jstr).

(** A failed probe is the message of what it threw. *)
Record DoctorProbes := mkProbes {
  pr_installedVersions : probed (list executable);
  pr_fetchCard : jstr -> probed jstr;
  pr_tailnetNodes : probed tailnet_view;
  pr_slackApp : jstr -> probed (option slack_app);
  pr_workspaceAppUsage : probed (Z * Z);
  pr_startsAtBoot : jstr -> jstr -> probed boot;
  pr_slackBridgeHealth : probed (option SlackBridgeHealth);
  pr_phoneNumber : probed (option (list jstr));
  pr_phoneConfig : probed (option phone_config);
  pr_phonePublic : probed (option (jstr * Z));
  pr_phoneHealth : probed (option PhoneHealth) }.

Definition BRIDGE_HEALTH_STALE_MS : Z := 60000.

(** ** Reading a failure *)

(** Where [p] first occurs, what follows it. *)
Fixpoint after (p s : jstr) : option jstr :=
  if starts_with p s then Some (drop (length p) s) else match s with [] => None | _ :: t => after p t end.
(** [.]: any character but a line terminator. *)
Definition line_unit (c : N) : bool := negb ((c =? 10) || (c =? 13) || (c =? 8232) || (c =? 8233))%N.
(** [/spawn (\S+) ENOENT/]: of one run of characters that are no white space,
    its end after the first [spawn] where a match is possible. *)
Fixpoint spawn_missing (s : jstr) : option jstr :=
  let here :=
    if starts_with (js "spawn ") s then
      let rest := drop (length (js "spawn ")) s in
      let name := take_while (fun c => negb (is_ws c)) rest in
      if negb (jeqb name []) && starts_with (js " ENOENT") (drop (length name) rest) then Some name else None
    else None in
  match here with Some name => Some name | None => match s with [] => None | _ :: t => spawn_missing t end end.
(** [/egress proxy refused CONNECT: (.+)/]: the first place where at least one
    character of the line follows. *)
Fixpoint egress_refused (s : jstr) : option jstr :=
  let here :=
    if starts_with (js "egress proxy refused CONNECT: ") s then
      match take_while line_unit (drop (length (js "egress proxy refused CONNECT: ")) s) with [] => None | line => Some line end
    else None in
  match here with Some line => Some line | None => match s with [] => None | _ :: t => egress_refused t end end.

Definition describeProbeError (message : jstr) : jstr :=
  match spawn_missing message with
  | Some name => js "cannot check: `" ++ name ++ js "` is not installed on this host"
  | None =>
      match egress_refused message with
      | Some line => js "cannot check: this account's own netd refused the connection (" ++ line
          ++ js ") — the host is not in its egress allow-list. This says nothing about whether the thing being checked is healthy"
      | None => js "cannot check: " ++ message
      end
  end.
Definition refusedByOwnEgress (probeError : jstr) : bool := includes (js "egress allow-list") probeError.
Definition attempt {T : Type} (p : probed T) : probed T := match p with inl v => inl v | inr e => inr (describeProbeError e) end.

(** ** The report *)

Record CheckResult := mkCheck {
  cr_check : jstr;
  cr_agent : option jstr;
  cr_ok : bool;
  cr_message : jstr }.
Definition push (check : string) (ok : bool) (message : jstr) : CheckResult := mkCheck (js check) None ok message.
Definition push_of (agent : jstr) (check : string) (ok : bool) (message : jstr) : CheckResult := mkCheck (js check) (Some agent) ok message.

Section Report.
(** [Date.parse], and the time at the two heartbeats' checks. *)
Context (parse_date : jstr -> option Z) (now_slack now_phone : Z).

(** [new Map]: the last node of a name. *)
Definition node_named (name : jstr) (nodes : list node) : option node := last (filter (fun n => no_hostname n = name) nodes).

Definition tailnet_of (view : tailnet_view) (agent : jstr) (entry : AgentEntry) : CheckResult :=
  let expectedNode := nodeName entry in
  match node_named expectedNode (tv_nodes view) with
  | None =>
      if bool_decide (tv_selfTags view <> [])
      then push_of agent "tailnet" true (expectedNode ++ js " is not in this host's view of the tailnet: " ++ tv_selfHostname view
        ++ js " is tagged (" ++ join_with (js ", ") (tv_selfTags view)
        ++ js "), so its netmap holds only what the policy lets that tag reach — run doctor from a member device to check this node")
      else push_of agent "tailnet" false (js "no tailnet node named " ++ expectedNode)
  | Some n =>
      if bool_decide (ae_tag entry ∈ no_tags n) then push_of agent "tailnet" true (js "node " ++ expectedNode ++ js " carries " ++ ae_tag entry)
      else push_of agent "tailnet" false (js "tailnet node " ++ expectedNode ++ js " is missing tag " ++ ae_tag entry ++ js " (has: "
        ++ (match join_with (js ", ") (no_tags n) with [] => js "none" | l => l end) ++ js ")")
  end.
Definition card_of (card : probed jstr) (agent : jstr) : CheckResult :=
  match card with
  | inl name =>
      if jeqb name agent then push_of agent "card" true (js "agent card fetchable and current")
      else push_of agent "card" false (js "card is stale: it names " ++ dq ++ name ++ dq ++ js " but the roster says " ++ dq ++ agent ++ dq ++ js " — re-deploy agentd")
  | inr e => push_of agent "card" false (js "agent card not fetchable: " ++ e)
  end.
Definition slack_of (app : probed (option slack_app)) (agent : jstr) : CheckResult :=
  match attempt app with
  | inr e => push_of agent "slack" false e
  | inl None => push_of agent "slack" false (js "no Slack app provisioned — run thicket provision")
  | inl (Some a) =>
      if negb (ap_installed a) then push_of agent "slack" false (js "Slack app exists but is not installed to the workspace")
      else if negb (ap_socketMode a) then push_of agent "slack" false (js "Slack app installed but Socket Mode is disabled")
      else push_of agent "slack" true (js "Slack app installed with Socket Mode")
  end.
Definition boot_of (b : probed boot) (agent user : jstr) : CheckResult :=
  match attempt b with
  | inr e => push_of agent "lingering" false e
  | inl b =>
      if bo_enabled b then push_of agent "lingering" true (user ++ js " starts at boot (" ++ bo_mechanism b ++ js ")")
      else push_of agent "lingering" false
             (js "account " ++ user ++ js " has no lingering — nothing starts at boot; run: loginctl enable-linger " ++ user)
  end.
Definition agent_checks (probes : DoctorProbes) (a : jstr * AgentEntry) : list CheckResult :=
  let '(agent, entry) := a in
  (match attempt (pr_tailnetNodes probes) with inl view => [tailnet_of view agent entry] | inr _ => [] end)
  ++ [card_of (pr_fetchCard probes agent) agent; slack_of (pr_slackApp probes agent) agent;
      boot_of (pr_startsAtBoot probes agent (ae_user entry)) agent (ae_user entry)].

Definition version_check (versions : probed (list executable)) : CheckResult :=
  match attempt versions with
  | inr e => push "version" false e
  | inl [] => push "version" false (js "no thicket executables on PATH")
  | inl l =>
      let summary := join_with (js ", ") ((fun v => ex_name v ++ js " " ++ ex_version v) <$> l) in
      if 1 <? length (remove_dups (ex_version <$> l)) then push "version" false (js "installed binaries disagree: " ++ summary)
      else push "version" true (js "installed: " ++ summary)
  end.

(** How old a heartbeat is; [None] is no time at all. *)
Definition age (now : Z) (ts : jstr) : option Z := (fun at_ => now - at_)%Z <$> parse_date ts.
Definition stale (age : option Z) : bool := match age with Some ms => (BRIDGE_HEALTH_STALE_MS <? ms)%Z | None => true end.
Definition seconds_ago (age : option Z) : jstr := match age with Some ms => show_Z ((ms + 500) / 1000)%Z ++ js "s ago" | None => js "unreadable" end.

Definition bridge_checks (health : probed (option SlackBridgeHealth)) : list CheckResult :=
  match attempt health with
  | inr e => [push "slack-bridge" false e]
  | inl None => [push "slack-bridge" true
      (js "no Slack bridge health file on this host — run doctor where the Slack bridge runs to check its connections")]
  | inl (Some h) =>
      let ageMs := age now_slack (sh_ts h) in
      if stale ageMs
      then [push "slack-bridge" false (js "Slack bridge health file is stale (last heartbeat " ++ seconds_ago ageMs ++ js ", from "
              ++ default (js "this account") (sh_source h) ++ js ") — the Slack bridge is down or wedged")]
      else (fun e => if ba_connected e then push_of (ba_agent e) "slack-bridge" true (js "Socket Mode connection up")
                     else push_of (ba_agent e) "slack-bridge" false (js "Socket Mode connection down (" ++ show_Z (ba_attempts e)
                            ++ js " reconnect attempts) — see the Slack bridge log")) <$> sh_agents h
  end.

Definition number_check (number : probed (option (list jstr))) : CheckResult :=
  match attempt number with
  | inr e => push "phone" false e
  | inl None => push "phone" true (js "no twilio.json on this host — the phone number is not checked here")
  | inl (Some []) => push "phone" true (js "the number's voice URL and status callback point at the bridge")
  | inl (Some drift) => push "phone" false (js "the number is not pointed at the bridge (" ++ join_with (js "; ") drift ++ js ") — run thicket provision")
  end.
Definition config_check (config : probed (option phone_config)) : CheckResult :=
  match attempt config with
  | inr e => push "phone" false e
  | inl None => push "phone" true (js "no phone.json on this host — the phone bridge does not run here")
  | inl (Some (WillNotLoad e source)) => push "phone" false (js "phone.json will not load: " ++ e ++ js " (" ++ source ++ js ")")
  | inl (Some (Loads source true)) =>
      push "phone" true (js "phone.json is present and readable only by root, as a system-unit deployment wants (" ++ source ++ js ")")
  | inl (Some (Loads source false)) =>
      push "phone" true (js "phone.json loads: PIN, allow-list, and the Twilio auth token are present (" ++ source ++ js ")")
  end.
Definition public_checks (public : probed (option (jstr * Z))) : list CheckResult :=
  match attempt public with
  | inr e => [push "phone" false (if refusedByOwnEgress e then js "public hostname not checked: " ++ e
      else js "public hostname not answering: " ++ e ++ js " — is the phone account's netd up, and is Funnel permitted for its tag?")]
  | inl None => []
  | inl (Some (url, status)) =>
      [if (status =? 404)%Z then push "phone" true (js "public hostname answers from the bridge (" ++ url ++ js ")")
       else push "phone" false (js "public hostname " ++ url ++ js " answered HTTP " ++ show_Z status ++ js ", not the bridge's 404 — "
         ++ if (status =? 502)%Z then js "netd is up but nothing is listening behind it: the phone bridge is down"
            else js "something else is in front, or netd's prefix is wrong")]
  end.
Definition heartbeat_check (health : probed (option PhoneHealth)) : CheckResult :=
  match attempt health with
  | inr e => push "phone" false e
  | inl None => push "phone" true (js "no phone heartbeat on this host — run doctor where the phone bridge runs to check it is serving")
  | inl (Some h) =>
      let ageMs := age now_phone (ph_ts h) in
      if stale ageMs
      then push "phone" false (js "phone heartbeat is stale (last " ++ seconds_ago ageMs
             ++ js ") — the phone bridge is down or wedged; see the runbook before restarting, a restart drops live calls")
      else push "phone" true (js "phone bridge heartbeat fresh, " ++ show_Z (ph_openCalls h) ++ js " call"
             ++ (if (ph_openCalls h =? 1)%Z then [] else js "s") ++ js " open")
  end.
Definition usage_check (usage : probed (Z * Z)) : CheckResult :=
  match attempt usage with
  | inr e => push "workspace" false e
  | inl (installed, cap) =>
      if (cap <=? installed)%Z
      then push "workspace" false (js "workspace is at its app cap (" ++ show_Z installed ++ js "/" ++ show_Z cap
             ++ js " installed) — installing another agent will fail")
      else push "workspace" true (js "workspace app usage " ++ show_Z installed ++ js "/" ++ show_Z cap)
  end.

Definition runDoctor (roster : Roster) (probes : DoctorProbes) : list CheckResult :=
  push "roster" true (js "roster parses: " ++ show_nat (length roster) ++ js " agents")
  :: (match attempt (pr_tailnetNodes probes) with inr e => [push "tailnet" false e] | inl _ => [] end)
  ++ (roster ≫= agent_checks probes)
  ++ version_check (pr_installedVersions probes)
  :: bridge_checks (pr_slackBridgeHealth probes)
  ++ number_check (pr_phoneNumber probes) :: config_check (pr_phoneConfig probes)
  :: public_checks (pr_phonePublic probes)
  ++ [heartbeat_check (pr_phoneHealth probes); usage_check (pr_workspaceAppUsage probes)].
End Report.

Definition doctorExitCode (results : list CheckResult) : Z := if forallb cr_ok results then 0%Z else 1%Z.
Definition formatResults (results : list CheckResult) : list jstr :=
  (fun r => (if cr_ok r then js "ok " else js "FAIL") ++ js " [" ++ cr_check r ++ js "]"
            ++ (match cr_agent r with Some agent => js " " ++ agent | None => [] end) ++ js ": " ++ cr_message r) <$> results.


Section Verdict.
Context (parse_date : jstr -> option Z) (now_slack now_phone : Z).
#[local] Abbreviation runDoctor := (runDoctor parse_date now_slack now_phone).

Definition answered {T : Type} (p : probed T) (P : T -> Prop) : Prop := match p with inl v => P v | inr _ => False end.
Definition fresh (now : Z) (ts : jstr) : Prop := exists at_, parse_date ts = Some at_ /\ (now - at_ <= BRIDGE_HEALTH_STALE_MS)%Z.

(** What each part of the system should be like. *)
Definition reachable (view : tailnet_view) (e : AgentEntry) : Prop :=
  match node_named (nodeName e) (tv_nodes view) with
  | Some n => ae_tag e ∈ no_tags n
  | None => tv_selfTags view <> []
  end.
Record agent_well (probes : DoctorProbes) (agent : jstr) (e : AgentEntry) : Prop := mkWell {
  aw_node : answered (pr_tailnetNodes probes) (fun view => reachable view e);
  aw_card : pr_fetchCard probes agent = inl agent;
  aw_app : answered (pr_slackApp probes agent) (fun app => app = Some (mkApp true true));
  aw_boot : answered (pr_startsAtBoot probes agent (ae_user e)) (fun b => bo_enabled b = true) }.
Record well (roster : Roster) (probes : DoctorProbes) : Prop := mkAllWell {
  we_tailnet : answered (pr_tailnetNodes probes) (fun _ => True);
  we_agents : forall agent e, (agent, e) ∈ roster -> agent_well probes agent e;
  we_versions : answered (pr_installedVersions probes) (fun l => exists v, l <> [] /\ Forall (fun x => ex_version x = v) l);
  we_bridge : answered (pr_slackBridgeHealth probes) (fun h => forall h', h = Some h' ->
    fresh now_slack (sh_ts h') /\ Forall (fun e => ba_connected e = true) (sh_agents h'));
  we_number : answered (pr_phoneNumber probes) (fun n => n = None \/ n = Some []);
  we_config : answered (pr_phoneConfig probes) (fun c => forall e source, c <> Some (WillNotLoad e source));
  we_public : answered (pr_phonePublic probes) (fun p => forall url status, p = Some (url, status) -> status = 404%Z);
  we_heartbeat : answered (pr_phoneHealth probes) (fun h => forall h', h = Some h' -> fresh now_phone (ph_ts h'));
  we_usage : answered (pr_workspaceAppUsage probes) (fun u => (fst u < snd u)%Z) }.

Definition fine (l : list CheckResult) : Prop := Forall (fun r => cr_ok r = true) l.
Lemma fine_one r : fine [r] <-> cr_ok r = true.
Proof. unfold fine. rewrite Forall_singleton. done. Qed.
Lemma fine_cons r l : fine (r :: l) <-> cr_ok r = true /\ fine l.
Proof. unfold fine. by rewrite Forall_cons. Qed.
Lemma fine_app l k : fine (l ++ k) <-> fine l /\ fine k.
Proof. unfold fine. by rewrite Forall_app. Qed.

Lemma stale_fresh now ts : stale (age parse_date now ts) = false <-> fresh now ts.
Proof.
  unfold age, stale, fresh. destruct (parse_date ts) as [at_|]; cbn; [|by split; [|intros (? & ? & _)]].
  rewrite Z.ltb_ge. split; [by exists at_|by intros (? & [= <-] & ?)].
Qed.

Lemma tailnet_of_ok view agent e : cr_ok (tailnet_of view agent e) = true <-> reachable view e.
Proof.
  unfold tailnet_of, reachable. destruct (node_named _ _) as [n|]; case_bool_decide; cbn; split; try done; by intros ?%dec_stable.
Qed.
Lemma card_of_ok card agent : cr_ok (card_of card agent) = true <-> card = inl agent.
Proof. unfold card_of, jeqb. destruct card; [case_bool_decide|]; cbn; split; congruence. Qed.
Lemma slack_of_ok app agent : cr_ok (slack_of app agent) = true <-> answered app (fun a => a = Some (mkApp true true)).
Proof. unfold slack_of. destruct app as [[[[] []]|]|]; cbn; split; done. Qed.
Lemma boot_of_ok b agent user : cr_ok (boot_of b agent user) = true <-> answered b (fun b => bo_enabled b = true).
Proof. unfold boot_of. destruct b as [[[] m]|]; cbn; done. Qed.

Lemma agent_checks_ok probes agent e : answered (pr_tailnetNodes probes) (fun _ => True) ->
  fine (agent_checks probes (agent, e)) <-> agent_well probes agent e.
Proof.
  intros Hn. unfold agent_checks. destruct (pr_tailnetNodes probes) as [view|] eqn:E; [|done]. cbn [attempt app].
  rewrite !fine_cons, tailnet_of_ok, card_of_ok, slack_of_ok, boot_of_ok. split.
  - intros (? & ? & ? & ? & _). split; [by rewrite E|done..].
  - intros [H ? ? ?]. rewrite E in H. split_and!; [done..|constructor].
Qed.

Lemma one_version {A : Type} (f : A -> jstr) x l : length (remove_dups (f <$> x :: l)) <= 1 <-> Forall (fun y => f y = f x) (x :: l).
Proof.
  assert (Hin : f x ∈ remove_dups (f <$> x :: l)) by (apply elem_of_remove_dups; left).
  pose proof (NoDup_remove_dups (f <$> x :: l)) as Hn. split.
  - intros Hl. apply Forall_forall. intros y Hy. assert (f y ∈ remove_dups (f <$> x :: l)) as Hy' by (by apply elem_of_remove_dups, list_elem_of_fmap_2).
    destruct (remove_dups (f <$> x :: l)) as [|a [|b k]]; cbn in Hl; [by apply not_elem_of_nil in Hin| |lia].
    apply list_elem_of_singleton in Hin, Hy'. congruence.
  - intros Hall. destruct (remove_dups (f <$> x :: l)) as [|a [|b k]] eqn:E; cbn; [lia..|].
    exfalso. assert (forall y, y ∈ a :: b :: k -> y = f x) as H.
    { intros y. rewrite <- E, elem_of_remove_dups. intros (z & -> & Hz)%list_elem_of_fmap. rewrite Forall_forall in Hall. by apply Hall. }
    apply NoDup_cons in Hn as [Hn _]. apply Hn. rewrite (H a), <- (H b) by (by left || by right; left). left.
Qed.

Lemma version_check_ok versions : cr_ok (version_check versions) = true <->
  answered versions (fun l => exists v, l <> [] /\ Forall (fun x => ex_version x = v) l).
Proof.
  unfold version_check. destruct versions as [[|x l]|]; cbn [attempt answered]; [split; [done|by intros (v & ? & _)]| |done].
  pose proof (one_version ex_version x l) as Hv. destruct (1 <? length (remove_dups (ex_version <$> x :: l))) eqn:E; cbn [cr_ok push].
  - apply Nat.ltb_lt in E. split; [done|]. intros (v & _ & Hf). exfalso. assert (length (remove_dups (ex_version <$> x :: l)) <= 1); [|lia].
    apply Hv. pose proof (Forall_inv Hf) as Hx. cbn in Hx. eapply Forall_impl; [exact Hf|]. cbn. congruence.
  - apply Nat.ltb_ge in E. split; [|done]. intros _. exists (ex_version x). split; [done|by apply Hv].
Qed.

Lemma bridge_checks_ok health : fine (bridge_checks parse_date now_slack health) <->
  answered health (fun h => forall h', h = Some h' -> fresh now_slack (sh_ts h') /\ Forall (fun e => ba_connected e = true) (sh_agents h')).
Proof.
  unfold bridge_checks. destruct health as [[h|]|]; cbn [attempt answered]; [|by rewrite fine_one; split|by rewrite fine_one; split].
  pose proof (stale_fresh now_slack (sh_ts h)) as Hs. destruct (stale _).
  - rewrite fine_one. split; [done|]. intros H. destruct (H h eq_refl) as [Hf _]. by apply Hs in Hf.
  - unfold fine. rewrite Forall_fmap. assert (Hf : fresh now_slack (sh_ts h)) by by apply Hs. split.
    + intros H h' [= <-]. split; [done|]. eapply Forall_impl; [exact H|]. intros e. cbn. by destruct (ba_connected e).
    + intros H. destruct (H h eq_refl) as [_ Hc]. eapply Forall_impl; [exact Hc|]. intros e He. cbn. by rewrite He.
Qed.

Lemma number_check_ok number : cr_ok (number_check number) = true <-> answered number (fun n => n = None \/ n = Some []).
Proof. unfold number_check. destruct number as [[[|d l]|]|]; cbn; split; try done; auto. by intros [|]. Qed.
Lemma config_check_ok config : cr_ok (config_check config) = true <-> answered config (fun c => forall e source, c <> Some (WillNotLoad e source)).
Proof.
  unfold config_check. destruct config as [[[source []|e source]|]|]; cbn; split; try done. intros H. by destruct (H e source).
Qed.
Lemma public_checks_ok public : fine (public_checks public) <->
  answered public (fun p => forall url status, p = Some (url, status) -> status = 404%Z).
Proof.
  unfold public_checks. destruct public as [[[url status]|]|]; cbn [attempt answered].
  - rewrite fine_one. destruct (Z.eqb_spec status 404); cbn; split; try done; [by intros _ ? ? [= _ <-]|]. intros H. by destruct (n (H url status eq_refl)).
  - by split; [|constructor].
  - rewrite fine_one. done.
Qed.
Lemma heartbeat_check_ok health : cr_ok (heartbeat_check parse_date now_phone health) = true <->
  answered health (fun h => forall h', h = Some h' -> fresh now_phone (ph_ts h')).
Proof.
  unfold heartbeat_check. destruct health as [[h|]|]; cbn [attempt answered]; [|by split|by split].
  pose proof (stale_fresh now_phone (ph_ts h)) as Hs. destruct (stale _); cbn; split; try done.
  - intros H. destruct Hs as [_ Hs]. discriminate (Hs (H h eq_refl)).
  - intros _ h' [= <-]. by apply Hs.
Qed.
Lemma usage_check_ok usage : cr_ok (usage_check usage) = true <-> answered usage (fun u => (fst u < snd u)%Z).
Proof. unfold usage_check. destruct usage as [[i c]|]; cbn; [|done]. destruct (Z.leb_spec c i); cbn; split; try done; lia. Qed.

Lemma exit_fine results : doctorExitCode results = 0%Z <-> fine results.
Proof.
  unfold doctorExitCode, fine. induction results as [|r results IH]; [by split; [constructor|]|]. rewrite Forall_cons. cbn [forallb].
  destruct (cr_ok r); cbn [andb]; [rewrite IH; tauto|]. by split; [|intros []].
Qed.

(** C40: The doctor exits with success just when all is well: every probe
    answered; each agent's node is there under its tag, or is not this
    machine's to see, its card is its own, its app is installed with Socket
    Mode, and it starts at boot; what is installed is of one version; and the
    bridges' heartbeats, the telephone number and the workspace are as they
    should be. No probe that fails, and none that answers, keeps another's
    finding out of the verdict. *)
Theorem success_means_all_is_well roster probes : doctorExitCode (runDoctor roster probes) = 0%Z <-> well roster probes.
Proof.
  rewrite exit_fine. unfold runDoctor. rewrite fine_cons, !fine_app, fine_cons, fine_app, !fine_cons, fine_app, !fine_cons.
  rewrite version_check_ok, bridge_checks_ok, number_check_ok, config_check_ok, public_checks_ok, heartbeat_check_ok, usage_check_ok.
  assert (Hagents : answered (pr_tailnetNodes probes) (fun _ => True) ->
    fine (roster ≫= agent_checks probes) <-> forall agent e, (agent, e) ∈ roster -> agent_well probes agent e).
  { intros Hn. unfold fine. rewrite Forall_bind, Forall_forall. split.
    - intros H agent e Hin. apply (agent_checks_ok probes agent e Hn), (H _ Hin).
    - intros H [agent e] Hin. apply (agent_checks_ok probes agent e Hn), H, Hin. }
  assert (Htail : fine (match attempt (pr_tailnetNodes probes) with inl _ => [] | inr e => [push "tailnet" false e] end) <->
    answered (pr_tailnetNodes probes) (fun _ => True)).
  { destruct (pr_tailnetNodes probes); cbn; [by split; [|constructor]|]. by rewrite fine_one. }
  rewrite Htail. split.
  - intros (_ & Hn & Ha & Hv & Hb & Hnum & Hc & Hp & Hh & Hu & _). split; [done| |done..]. by apply Hagents.
  - intros [Hn Ha Hv Hb Hnum Hc Hp Hh Hu]. split_and!; try done; [by apply Hagents|constructor].
Qed.
End Verdict.

(** ** A refusal by one's own proxy *)

Lemma take_while_whole p s : forallb p s = true -> take_while p s = s.
Proof. induction s as [|c s IH]; [done|]. cbn. intros [-> H]%andb_prop. by rewrite IH. Qed.
Lemma starts_with_self p s : starts_with p (p ++ s) = true.
Proof. induction p as [|c p IH]; [done|]. cbn. by rewrite N.eqb_refl. Qed.
Lemma includes_middle p a b : includes p (a ++ p ++ b) = true.
Proof.
  induction a as [|c a IH]; cbn [app].
  - pose proof (starts_with_self p b) as H. destruct (p ++ b); cbn [includes]; by rewrite H.
  - cbn [includes]. by rewrite IH, orb_true_r.
Qed.
Lemma egress_refused_eq s : egress_refused s =
  match (if starts_with (js "egress proxy refused CONNECT: ") s
         then match take_while line_unit (drop (length (js "egress proxy refused CONNECT: ")) s) with [] => None | line => Some line end
         else None) with
  | Some line => Some line
  | None => match s with [] => None | _ :: t => egress_refused t end
  end.
Proof. by destruct s. Qed.
Definition netd_refused (line : jstr) : jstr :=
  js "cannot check: this account's own netd refused the connection (" ++ line
    ++ js ") — the host is not in its egress allow-list. This says nothing about whether the thing being checked is healthy".
Lemma allow_list_text :
  js ") — the host is not in its egress allow-list. This says nothing about whether the thing being checked is healthy" =
  js ") — the host is not in its " ++ js "egress allow-list" ++ js ". This says nothing about whether the thing being checked is healthy".
Proof. evaluated. Qed.
Lemma describe_refusal line : line <> [] -> forallb line_unit line = true -> spawn_missing line = None ->
  describeProbeError (js "egress proxy refused CONNECT: " ++ line) = netd_refused line /\ refusedByOwnEgress (netd_refused line) = true.
Proof.
  intros Hne Hl Hs. split.
  - assert (spawn_missing (js "egress proxy refused CONNECT: " ++ line) = None) as E1 by (rewrite <- Hs; reflexivity).
    assert (egress_refused (js "egress proxy refused CONNECT: " ++ line) = Some line) as E2.
    { rewrite egress_refused_eq, starts_with_self, drop_app_length, take_while_whole by done. by destruct line. }
    unfold describeProbeError, netd_refused. rewrite E1, E2. reflexivity.
  - unfold refusedByOwnEgress, netd_refused.
    rewrite allow_list_text.
    match goal with |- includes ?p (?a ++ ?b ++ ?c ++ ?q ++ ?d) = true => rewrite (app_assoc b), (app_assoc a); apply (includes_middle p) end.
Qed.

(** A probe that the account's own proxy turned away is told from one that
    found something wrong: what the tunnel's caller is told, in whatever
    chunks the proxy's answer came, is recognised by the doctor, and for the
    public hostname no cause is guessed at. *)
Theorem own_refusal_is_recognised hostname port secure banner rest chunks :
  whole_banner banner -> accepts banner = false -> concat chunks = banner ++ rest ->
  let line := status_line banner in
  line <> [] -> forallb line_unit line = true -> spawn_missing line = None ->
  exists message, tu_promise (opened hostname port secure (Connect :: (Data <$> chunks))) = Some (Rejected message) /\
    describeProbeError message = netd_refused line /\
    public_checks (inr message) = [push "phone" false (js "public hostname not checked: " ++ netd_refused line)].
Proof.
  intros Hb Ha Hc line Hne Hl Hs. destruct (describe_refusal line Hne Hl Hs) as [Hd Hr].
  exists (js "egress proxy refused CONNECT: " ++ line).
  destruct (data_all hostname port secure banner rest chunks [] Hb) as (extra & after & Ht & _); [destruct Hb as (_ & ? & _); cbn; lia|done|].
  split_and!; [|done|].
  - unfold opened. cbn [fold_left]. change (step hostname port secure new_tunnel Connect) with (waiting hostname port []). rewrite Ht.
    unfold Egress.answered. by rewrite Ha.
  - unfold public_checks, attempt. by rewrite Hd, Hr.
Qed.

(** ** A host *)

Definition refused_banner : jstr := js "HTTP/1.1 403 Forbidden" ++ CRLF ++ CRLF.
Lemma own_refusal_is_recognised_witness :
  exists message, describeProbeError message = netd_refused (js "HTTP/1.1 403 Forbidden").
Proof.
  destruct (own_refusal_is_recognised (js "phone.example.net") 443 true refused_banner [] [refused_banner]) as (message & _ & H & _).
  - split_and!; [evaluated|by apply (bool_decide_unpack _); vm_compute|by apply (bool_decide_unpack _); vm_compute].
  - evaluated.
  - evaluated.
  - done.
  - evaluated.
  - evaluated.
  - by exists message.
Defined.

(** A host where all is well, and the same with one probe that fails. *)
Definition kept : AgentEntry :=
  mkEntry (js "den") (js "hearth") (js "keeps things") (js "tag:thicket-hearth") [] (js "claude-agent-sdk") [] [] (mkPhoneEntry false None [] 60) [].
Definition one_host (version : probed (list executable)) : DoctorProbes :=
  mkProbes version (fun agent => inl agent) (inl (mkView [mkNode (js "thicket-hearth") [js "tag:thicket-hearth"]] [] (js "den")))
    (fun _ => inl (Some (mkApp true true))) (inl (3, 10)%Z) (fun _ _ => inl (mkBoot true (js "lingering")))
    (inl (Some (mkSlackHealth (js "now") [mkBridgeAgent (js "hearth") true 0] None))) (inl None) (inl None) (inl None) (inl None).
Example all_well : doctorExitCode (runDoctor (fun _ => Some 1000%Z) 2000 2000 [(js "hearth", kept)] (one_host (inl [mkExecutable (js "thicket") (js "1.2.0")]))) = 0%Z.
Proof. evaluated. Qed.
Example one_dead_probe :
  let report := runDoctor (fun _ => Some 1000%Z) 2000 2000 [(js "hearth", kept)] (one_host (inr (js "spawn thicket ENOENT"))) in
  doctorExitCode report = 1%Z /\ length report = 11 /\
  last (filter (fun r => cr_ok r = false) report) = Some (push "version" false (js "cannot check: `thicket` is not installed on this host")).
Proof. cbv zeta. split_and!; evaluated. Qed.
