(* ===== verification/SlackApi.v ===== *)
(** [apps/slack/src/slack-api.ts]: Slack's Web API as the engine calls it.
    Each method is a program over what the class remembers; a call of the API
    is what it awaits, and one line of the log. Answers are objects, as the
    client gives them.

    Then: what the bridge's calls of Slack leave in its log, and in which
    order a long message is posted. *)

From S2P Require Import Prelude Activity Envelope Json Markdown Async Values SlackEngine.
#[local] Open Scope nat_scope.

Definition POST_TEXT_MAX : Z := 3500.
Definition CARD_STATUS (status : AgentActivityStatus) : jstr :=
  js match status with Running => "in_progress" | Done => "complete" | Failed => "error" end.
Definition status_text (status : SlackSessionStatus) : jstr :=
  js match status with SsProcessing => "processing" | SsActive => "active" | SsSuspended => "suspended" end.

(** ** What is remembered, awaited and logged *)

Abbreviation args := (list (jstr * jsval)).
Inductive api_call := ApiCall (method : jstr) (a : args).
Definition reply (r : api_call) : Type := jsval.
(** [api_teamId]: never asked, asked in vain, or known. *)
Record web_api := mkWebApi {
  api_botUsers : gmap jstr bool;
  api_teamId : option (option jstr);
  api_channelNames : gmap jstr (option jstr);
  api_log : list args;
  api_sent : list api_call }.
Definition new_api : web_api := mkWebApi ∅ None ∅ [] [].
Definition issue (r : api_call) (x : web_api) : web_api :=
  mkWebApi (api_botUsers x) (api_teamId x) (api_channelNames x) (api_log x) (api_sent x ++ [r]).
Definition logged (line : args) (x : web_api) : web_api :=
  mkWebApi (api_botUsers x) (api_teamId x) (api_channelNames x) (api_log x ++ [line]) (api_sent x).
Definition set_botUsers (v : gmap jstr bool) (x : web_api) : web_api := mkWebApi v (api_teamId x) (api_channelNames x) (api_log x) (api_sent x).
Definition set_teamId (v : option jstr) (x : web_api) : web_api :=
  mkWebApi (api_botUsers x) (Some v) (api_channelNames x) (api_log x) (api_sent x).
Definition set_channelNames (v : gmap jstr (option jstr)) (x : web_api) : web_api :=
  mkWebApi (api_botUsers x) (api_teamId x) v (api_log x) (api_sent x).
Definition receive (r : api_call) (a : result (reply r)) (x : web_api) : web_api := x.
Definition yielded (src : Empty_set) (ev : option Empty_set) (x : web_api) : web_api := x.
Definition enter (t : nat) (now : Z) (x : web_api) : web_api := x.
Definition ready (r : api_call) (x : web_api) : bool := true.
Abbreviation cmd := (prog web_api Empty_set Empty_set reply).

#[local] Open Scope async_scope.

(** ** The log *)

Definition block_type (b : jsval) : jsval := VStr (to_string (or_else (prop b (js "type")) (VStr (js "?")))).
Definition chunk_mark (c : jsval) : jsval :=
  VStr (match prop c (js "id") with
        | VUndef => to_string (prop c (js "type")) ++ js ":" ++ show_nat (length (string_of (prop c (js "text"))))
        | id => to_string id ++ js ":" ++ to_string (prop c (js "status"))
        end).
(** Lists where the code takes lists for granted. *)
Definition each_of (f : jsval -> jsval) (v : jsval) : jsval := match v with VArr l => VArr (f <$> l) | _ => v end.
Definition log_field (fields : args) (kv : jstr * jsval) : args :=
  let '(key, value) := kv in
  if jeqb key (js "text") || jeqb key (js "markdown_text") then put_field (js "chars") (VNum (Z.of_nat (length (to_string value)))) fields
  else if jeqb key (js "title") then put_field (js "titled") (VBool true) fields
  else if jeqb key (js "blocks") then put_field (js "blocks") (each_of block_type value) fields
  else if jeqb key (js "chunks") then put_field (js "chunks") (each_of chunk_mark value) fields
  else put_field key value fields.
Definition log_fields (method : jstr) (a : args) : args := fold_left log_field a [(js "method", VStr method)].

Definition call (method : string) (a : args) : cmd jsval :=
  update (logged (log_fields (js method) a)) ;;; Async.call (ApiCall (js method) a : api_call).

(** ** The methods *)

Definition str (k : string) (v : jstr) : jstr * jsval := (js k, VStr v).
Definition opt_str (k : string) (v : option jstr) : args := match v with Some s => [str k s] | None => [] end.

Definition setStatus (channel threadTs : jstr) (status : SlackSessionStatus) (title : option jstr) : cmd unit :=
  call "agents.sessions.setStatus" ([str "channel_id" channel; str "thread_ts" threadTs; str "status" (status_text status)] ++ opt_str "title" title)
  ;;; skip_.
Definition isBotUser (userId : jstr) : cmd bool :=
  read (fun x =>
  match api_botUsers x !! userId with
  | Some cached => Ret cached
  | None =>
      let* res := call "users.info" [str "user" userId] in
      let isBot := match get_opt (prop res (js "user")) (js "is_bot") with VBool true => true | _ => false end in
      update (fun x => set_botUsers (<[userId := isBot]> (api_botUsers x)) x) ;;; Ret isBot
  end).
Definition setThreadStatus (channel threadTs status : jstr) : cmd unit :=
  call "assistant.threads.setStatus" [str "channel_id" channel; str "thread_ts" threadTs; str "status" status] ;;; skip_.

Definition post_piece (channel threadTs piece : jstr) : cmd unit :=
  call "chat.postMessage" [str "channel" channel; str "thread_ts" threadTs; str "markdown_text" piece] ;;; skip_.
Fixpoint post_pieces (channel threadTs : jstr) (pieces : list jstr) : cmd unit :=
  match pieces with
  | [] => skip_
  | piece :: rest => post_piece channel threadTs piece ;;; post_pieces channel threadTs rest
  end.
(** [None] of the splitter would be its loop going on for ever. *)
Definition postMessage (channel threadTs text : jstr) : cmd unit :=
  match splitMarkdown text POST_TEXT_MAX with
  | Some pieces => post_pieces channel threadTs pieces
  | None => Throw (js "the splitter does not end")
  end.

(** A [ts], where Slack gives one, is a string. *)
Definition ts_of (res : jsval) (complaint : string) : cmd jstr :=
  match prop res (js "ts") with VStr ts => Ret ts | _ => Throw (js complaint) end.
Definition postBlocks (channel threadTs text : jstr) (blocks : list jsval) : cmd jstr :=
  let* res := call "chat.postMessage" [str "channel" channel; str "thread_ts" threadTs; str "text" text; (js "blocks", VArr blocks)] in
  ts_of res "chat.postMessage returned no ts".
Definition updateMessage (channel messageTs text : jstr) (blocks : list jsval) : cmd unit :=
  call "chat.update" [str "channel" channel; str "ts" messageTs; str "text" text; (js "blocks", VArr blocks)] ;;; skip_.

Definition team_fields (recipient : jstr) (team : option jstr) : args := str "recipient_user_id" recipient :: opt_str "recipient_team_id" team.
Definition recipientFields (channel : jstr) (recipient : option jstr) : cmd args :=
  match recipient with
  | None => Ret []
  | Some recipient =>
      if starts_with (js "D") channel then Ret [] else
      read (fun x =>
      match api_teamId x with
      | Some team => Ret (team_fields recipient team)
      | None =>
          attempt (call "auth.test" []) (fun res =>
          let team := match res with Val res => as_str (prop res (js "team_id")) | Exn _ => None end in
          update (set_teamId team) ;;; read (fun x =>
          Ret (team_fields recipient (default None (api_teamId x)))))
      end)
  end.
Definition startStream (channel threadTs : jstr) (recipient : option jstr) : cmd jstr :=
  let* fields := recipientFields channel recipient in
  let* res := call "chat.startStream" ([str "channel" channel; str "thread_ts" threadTs; str "task_display_mode" (js "timeline")] ++ fields) in
  ts_of res "chat.startStream returned no ts".
Definition appendStream (channel streamTs text : jstr) : cmd unit :=
  call "chat.appendStream" [str "channel" channel; str "ts" streamTs;
    (js "chunks", VArr [VObj [str "type" (js "markdown_text"); str "text" text]])] ;;; skip_.
Definition activity_chunk (a : AgentActivity) : jsval :=
  VObj ([str "type" (js "task_update"); str "id" (a_id a); str "title" (a_title a); str "status" (CARD_STATUS (a_status a))]
    ++ opt_str "details" (a_details a)
    ++ match a_icon a with Some name => [(js "icon", VObj [str "type" (js "icon"); str "name" name])] | None => [] end).
Definition appendActivity (channel streamTs : jstr) (activity : AgentActivity) : cmd unit :=
  call "chat.appendStream" [str "channel" channel; str "ts" streamTs; (js "chunks", VArr [activity_chunk activity])] ;;; skip_.
Definition stopStream (channel streamTs : jstr) : cmd unit := call "chat.stopStream" [str "channel" channel; str "ts" streamTs] ;;; skip_.
Definition addReaction (channel messageTs emoji : jstr) : cmd unit :=
  call "reactions.add" [str "channel" channel; str "timestamp" messageTs; str "name" emoji] ;;; skip_.

Definition channelName (channel : jstr) : cmd (option jstr) :=
  read (fun x =>
  match api_channelNames x !! channel with
  | Some name => Ret name
  | None =>
      let* res := call "conversations.info" [str "channel" channel] in
      let name := as_str (get_opt (prop res (js "channel")) (js "name")) in
      update (fun x => set_channelNames (<[channel := name]> (api_channelNames x)) x) ;;; Ret name
  end).

Definition thread_message (raw : jsval) : SlackMessage :=
  mkSlackMessage (string_of (prop raw (js "ts"))) (as_str (prop raw (js "user"))) (as_str (prop raw (js "bot_id")))
    (default [] (as_str (prop raw (js "text")))).
Definition replies (channel threadTs : jstr) (limit : Z) : cmd (list SlackMessage) :=
  let* res := call "conversations.replies" [str "channel" channel; str "ts" threadTs; (js "limit", VNum limit)] in
  Ret (match prop res (js "messages") with VArr l => thread_message <$> l | _ => [] end).

(** ** Every method *)

Inductive api_method :=
| SetStatus (channel threadTs : jstr) (status : SlackSessionStatus) (title : option jstr)
| IsBotUser (userId : jstr)
| SetThreadStatus (channel threadTs status : jstr)
| PostMessage (channel threadTs text : jstr)
| PostBlocks (channel threadTs text : jstr) (blocks : list jsval)
| UpdateMessage (channel messageTs text : jstr) (blocks : list jsval)
| StartStream (channel threadTs : jstr) (recipient : option jstr)
| AppendStream (channel streamTs text : jstr)
| AppendActivity (channel streamTs : jstr) (activity : AgentActivity)
| StopStream (channel streamTs : jstr)
| AddReaction (channel messageTs emoji : jstr)
| ChannelName (channel : jstr)
| Replies (channel threadTs : jstr) (limit : Z).
(** A call of one, whatever is done with what it gives. *)
Definition run_method (m : api_method) : cmd unit :=
  match m with
  | SetStatus channel threadTs status title => setStatus channel threadTs status title
  | IsBotUser userId => isBotUser userId ;;; skip_
  | SetThreadStatus channel threadTs status => setThreadStatus channel threadTs status
  | PostMessage channel threadTs text => postMessage channel threadTs text
  | PostBlocks channel threadTs text blocks => postBlocks channel threadTs text blocks ;;; skip_
  | UpdateMessage channel messageTs text blocks => updateMessage channel messageTs text blocks
  | StartStream channel threadTs recipient => startStream channel threadTs recipient ;;; skip_
  | AppendStream channel streamTs text => appendStream channel streamTs text
  | AppendActivity channel streamTs activity => appendActivity channel streamTs activity
  | StopStream channel streamTs => stopStream channel streamTs
  | AddReaction channel messageTs emoji => addReaction channel messageTs emoji
  | ChannelName channel => channelName channel ;;; skip_
  | Replies channel threadTs limit => replies channel threadTs limit ;;; skip_
  end.


(** ** What is said in a call *)

(** Two calls of a method that differ in nothing but the words of the
    conversation: what a message, a title, a block or a card says. Of a text
    its length is no word, nor that there is a title, nor a block's type, nor a
    card's id and status. A line of prose under the agent's name is the same in
    both. *)
Definition piece_lengths (text : jstr) : option (list nat) :=
  match splitMarkdown text POST_TEXT_MAX with Some pieces => Some (length <$> pieces) | None => None end.
Definition same_shape (text text' : jstr) : Prop := piece_lengths text = piece_lengths text'.
Definition same_types (blocks blocks' : list jsval) : Prop := Forall2 (fun b b' => prop b (js "type") = prop b' (js "type")) blocks blocks'.

Inductive alike : api_method -> api_method -> Prop :=
| alike_status channel threadTs status title title' : present title = present title' ->
    alike (SetStatus channel threadTs status title) (SetStatus channel threadTs status title')
| alike_message channel threadTs text text' : same_shape text text' -> alike (PostMessage channel threadTs text) (PostMessage channel threadTs text')
| alike_blocks channel threadTs text text' blocks blocks' : length text = length text' -> same_types blocks blocks' ->
    alike (PostBlocks channel threadTs text blocks) (PostBlocks channel threadTs text' blocks')
| alike_update channel messageTs text text' blocks blocks' : length text = length text' -> same_types blocks blocks' ->
    alike (UpdateMessage channel messageTs text blocks) (UpdateMessage channel messageTs text' blocks')
| alike_stream channel streamTs text text' : length text = length text' -> alike (AppendStream channel streamTs text) (AppendStream channel streamTs text')
| alike_card channel streamTs activity activity' : a_id activity = a_id activity' -> a_status activity = a_status activity' ->
    alike (AppendActivity channel streamTs activity) (AppendActivity channel streamTs activity')
| alike_same m : alike m m.

(** Two histories in step: the same happens in both, in the same order and
    with the same answers of Slack's, but the calls are merely alike. *)
Inductive in_step : happening web_api Empty_set Empty_set reply -> happening web_api Empty_set Empty_set reply -> Prop :=
| both_call now m m' : alike m m' -> in_step (Called now (run_method m)) (Called now (run_method m'))
| both_resume t now (a : result jsval) : in_step (Resumed t now (Reply (fun _ => a))) (Resumed t now (Reply (fun _ => a))).

(** ** Two runs side by side *)

(** The same is remembered and has been logged. *)
Definition same_view (x x' : web_api) : Prop :=
  api_botUsers x = api_botUsers x' /\ api_teamId x = api_teamId x' /\ api_channelNames x = api_channelNames x' /\ api_log x = api_log x'.

Inductive twin {A : Type} : cmd A -> cmd A -> Prop :=
| twin_ret a : twin (Ret a) (Ret a)
| twin_throw m : twin (Throw m) (Throw m)
| twin_get g g' : (forall x x', same_view x x' -> twin (g x) (g' x')) -> twin (Get g) (Get g')
| twin_upd f f' p p' : (forall x x', same_view x x' -> same_view (f x) (f' x')) -> twin p p' -> twin (Upd f p) (Upd f' p')
| twin_await (r r' : api_call) g g' : (forall a : result jsval, twin (g a) (g' a)) -> twin (Await r g) (Await r' g').

Lemma twin_attempt {A B : Type} (p p' : cmd A) (k k' : result A -> cmd B) :
  twin p p' -> (forall r, twin (k r) (k' r)) -> twin (attempt p k) (attempt p' k').
Proof. intros Hp Hk. induction Hp; cbn; [apply Hk|apply Hk|by constructor|by constructor|by constructor]. Qed.
Lemma twin_bind {A B : Type} (p p' : cmd A) (k k' : A -> cmd B) : twin p p' -> (forall a, twin (k a) (k' a)) -> twin (bind p k) (bind p' k').
Proof. intros Hp Hk. apply twin_attempt; [done|]. intros [a|m]; [apply Hk|constructor]. Qed.
Lemma twin_read {A : Type} (g g' : web_api -> cmd A) : (forall x x', same_view x x' -> twin (g x) (g' x')) -> twin (read g) (read g').
Proof. intros H. by constructor. Qed.
Lemma twin_update (f : web_api -> web_api) : (forall x x', same_view x x' -> same_view (f x) (f x')) -> twin (Async.update f : cmd unit) (Async.update f).
Proof. intros H. constructor; [done|constructor]. Qed.

(** Arguments that leave the same in a line. *)
Definition logs_alike (kv kv' : jstr * jsval) : Prop := forall fields, log_field fields kv = log_field fields kv'.
Lemma log_alike method a a' : Forall2 logs_alike a a' -> log_fields method a = log_fields method a'.
Proof.
  intros H. unfold log_fields. generalize [(js "method", VStr method)]. induction H as [|kv kv' a a' Hkv _ IH]; intros fields; [done|].
  cbn [fold_left]. by rewrite (Hkv fields), IH.
Qed.
Lemma twin_api method a a' : Forall2 logs_alike a a' -> twin (call method a) (call method a').
Proof.
  intros H. unfold call. apply twin_bind.
  - apply (twin_upd (logged (log_fields (js method) a)) (logged (log_fields (js method) a'))); [|constructor].
    intros x x' (E1 & E2 & E3 & E4). unfold same_view, logged. cbn. by rewrite E4, (log_alike _ _ _ H).
  - intros []. apply twin_await. intros [v|m]; constructor.
Qed.

Lemma logs_refl kv : logs_alike kv kv.
Proof. by intros fields. Qed.
Lemma logs_all_refl a : Forall2 logs_alike a a.
Proof. induction a; constructor; [apply logs_refl|done]. Qed.
Lemma logs_text key s s' : key ∈ (js <$> ["text"; "markdown_text"]%string) -> length s = length s' -> logs_alike (key, VStr s) (key, VStr s').
Proof.
  intros Hkey H fields. unfold log_field. assert (jeqb key (js "text") || jeqb key (js "markdown_text") = true) as ->.
  { unfold jeqb. cbn [fmap list_fmap] in Hkey. rewrite !elem_of_cons in Hkey. destruct Hkey as [->|[->|?%elem_of_nil]]; [by rewrite bool_decide_eq_true_2|evaluated|done]. }
  cbn [to_string]. by rewrite H.
Qed.
Lemma logs_title s s' : logs_alike (str "title" s) (str "title" s').
Proof. intros fields. done. Qed.
Lemma each_alike f l l' : Forall2 (fun b b' => f b = f b') l l' -> each_of f (VArr l) = each_of f (VArr l').
Proof. intros H. cbn [each_of]. f_equal. induction H as [|b b' l l' Hb _ IH]; [done|]. cbn. by rewrite Hb, IH. Qed.
Lemma logs_blocks l l' : same_types l l' -> logs_alike (js "blocks", VArr l) (js "blocks", VArr l').
Proof.
  intros H fields. change (put_field (js "blocks") (each_of block_type (VArr l)) fields = put_field (js "blocks") (each_of block_type (VArr l')) fields).
  f_equal. apply each_alike. eapply Forall2_impl; [exact H|]. intros b b' Hb. unfold block_type. by rewrite Hb.
Qed.
Lemma logs_chunk c c' : chunk_mark c = chunk_mark c' -> logs_alike (js "chunks", VArr [c]) (js "chunks", VArr [c']).
Proof.
  intros H fields. change (put_field (js "chunks") (VArr [chunk_mark c]) fields = put_field (js "chunks") (VArr [chunk_mark c']) fields). by rewrite H.
Qed.
Lemma text_mark text text' : length text = length text' ->
  chunk_mark (VObj [str "type" (js "markdown_text"); str "text" text]) = chunk_mark (VObj [str "type" (js "markdown_text"); str "text" text']).
Proof.
  intros H. change (VStr (js "markdown_text" ++ js ":" ++ show_nat (length text)) = VStr (js "markdown_text" ++ js ":" ++ show_nat (length text'))).
  by rewrite H.
Qed.
Lemma card_mark a a' : a_id a = a_id a' -> a_status a = a_status a' -> chunk_mark (activity_chunk a) = chunk_mark (activity_chunk a').
Proof.
  intros H1 H2. change (VStr (a_id a ++ js ":" ++ CARD_STATUS (a_status a)) = VStr (a_id a' ++ js ":" ++ CARD_STATUS (a_status a'))). by rewrite H1, H2.
Qed.

Lemma twin_pieces channel threadTs pieces pieces' : length <$> pieces = length <$> pieces' ->
  twin (post_pieces channel threadTs pieces) (post_pieces channel threadTs pieces').
Proof.
  revert pieces'. induction pieces as [|piece pieces IH]; intros [|piece' pieces'] H; try done; [constructor|].
  cbn in H. injection H as H1 H2. cbn [post_pieces]. apply twin_bind; [|intros _; by apply IH]. unfold post_piece.
  apply twin_bind; [|intros ?; constructor]. apply twin_api. repeat (constructor; [apply logs_refl|]).
  constructor; [|constructor]. apply logs_text; [by right; left|done].
Qed.

(** A program beside itself. *)
Ltac twin_step :=
  lazymatch goal with
  | |- twin ?p _ =>
      lazymatch p with
      | call _ _ => apply twin_api
      | Ret _ => apply twin_ret
      | skip_ => apply twin_ret
      | Throw _ => apply twin_throw
      | bind _ _ => apply twin_bind; [|intros ?]
      | attempt _ _ => apply twin_attempt; [|intros ?]
      | read _ => apply twin_read; intros ? ? (? & ? & ? & ?)
      | Async.update _ => apply twin_update; intros ? ? (? & ? & ? & ?); unfold same_view; cbn; split_and!; congruence
      | match ?x with _ => _ end => destruct x
      end
  | |- Forall2 logs_alike _ _ => apply logs_all_refl
  end.

Lemma twin_same m : twin (run_method m) (run_method m).
Proof.
  destruct m; cbn [run_method]; unfold setStatus, isBotUser, setThreadStatus, postMessage, postBlocks, updateMessage, startStream, recipientFields,
    appendStream, appendActivity, stopStream, addReaction, channelName, replies, ts_of.
  all: repeat first [match goal with
      | E : api_botUsers ?x = api_botUsers ?y |- twin _ _ => rewrite <- E; clear E
      | E : api_teamId ?x = api_teamId ?y |- twin _ _ => rewrite <- E; clear E
      | E : api_channelNames ?x = api_channelNames ?y |- twin _ _ => rewrite <- E; clear E
      end | twin_step | by apply twin_pieces].
Qed.

(** One call that is alike in both. *)
Ltac alike_args := repeat (constructor; [first [apply logs_refl | by apply logs_blocks | by apply logs_text; [left|] ]|]); try constructor.

Lemma twin_method m m' : alike m m' -> twin (run_method m) (run_method m').
Proof.
  intros [channel threadTs status [title|] [title'|] Ht|channel threadTs text text' Hs|channel threadTs text text' blocks blocks' Ht Hb
         |channel messageTs text text' blocks blocks' Ht Hb|channel streamTs text text' Ht|channel streamTs a a' Hi Hs|m1]; try done;
    try apply twin_same; cbn [run_method].
  - apply twin_bind; [|intros ?; constructor]. apply twin_api. cbn [opt_str app]. repeat (constructor; [apply logs_refl|]).
    constructor; [apply logs_title|constructor].
  - unfold postMessage. unfold same_shape, piece_lengths in Hs. destruct (splitMarkdown text _) as [l|], (splitMarkdown text' _) as [l'|]; try done.
    + apply twin_pieces. by injection Hs.
    + constructor.
  - apply twin_bind; [|intros ?; constructor]. unfold postBlocks. apply twin_bind; [|intros res; unfold ts_of; repeat twin_step].
    apply twin_api. alike_args.
  - apply twin_bind; [|intros ?; constructor]. apply twin_api. alike_args.
  - apply twin_bind; [|intros ?; constructor]. apply twin_api. repeat (constructor; [apply logs_refl|]).
    constructor; [by apply logs_chunk, text_mark|constructor].
  - apply twin_bind; [|intros ?; constructor]. apply twin_api. repeat (constructor; [apply logs_refl|]).
    constructor; [by apply logs_chunk, card_mark|constructor].
Qed.

Lemma twin_run {A : Type} (p p' : cmd A) x x' : twin p p' -> same_view x x' ->
  same_view (fst (run issue p x)) (fst (run issue p' x')) /\ twin (snd (run issue p x)) (snd (run issue p' x')).
Proof.
  intros Hp. revert x x'. induction Hp; intros x x' Hx; cbn [run]; [split; [done|constructor]..|by apply H0|by apply IHHp, H|].
  split; [by destruct Hx as (? & ? & ? & ?)|by constructor].
Qed.

(** Two worlds that differ in what is said. *)
Definition together (w w' : world web_api Empty_set Empty_set reply) : Prop :=
  same_view (w_state w) (w_state w') /\ w_next w = w_next w' /\
  forall t, match w_calls w !! t, w_calls w' !! t with Some p, Some p' => twin p p' | None, None => True | _, _ => False end.

Lemma together_settled t (sp sp' : web_api * cmd unit) w w' next : together w w' -> same_view (fst sp) (fst sp') -> twin (snd sp) (snd sp') ->
  together (settle t sp (w_calls w) next) (settle t sp' (w_calls w') next).
Proof.
  intros (_ & _ & Hc) Hs Ht. split_and!; [done|done|]. intros k. cbn [settle w_calls].
  assert (suspended (snd sp') = suspended (snd sp)) as -> by (by destruct Ht). destruct (suspended (snd sp)), (decide (t = k)) as [->|Hne].
  - by rewrite !lookup_insert_eq.
  - rewrite !lookup_insert_ne by done. apply Hc.
  - by rewrite !lookup_delete_eq.
  - rewrite !lookup_delete_ne by done. apply Hc.
Qed.

Lemma together_step h h' w w1 w' : in_step h h' -> together w w' -> happen issue receive yielded enter ready h w = Some w1 ->
  exists w1', happen issue receive yielded enter ready h' w' = Some w1' /\ together w1 w1'.
Proof.
  intros Hh Hw. pose proof Hw as (Hs & En & Hc). destruct Hh as [now m m' Hm|t now a]; cbn [happen].
  - intros [= <-]. eexists. split; [done|]. rewrite <- En. destruct (twin_run _ _ (w_state w) (w_state w') (twin_method m m' Hm) Hs). by apply together_settled.
  - specialize (Hc t). destruct (w_calls w !! t) as [p|]; [|done]. destruct (w_calls w' !! t) as [p'|]; [|done]. cbn [mbind option_bind].
    destruct Hc as [| | | |r r' g g' Hg]; try done. cbn [resumed ready receive enter mbind option_bind]. intros [= <-]. eexists. split; [done|].
    rewrite <- En. destruct (twin_run (g a) (g' a) (w_state w) (w_state w') (Hg a) Hs). by apply together_settled.
Qed.

Lemma together_all hs hs' w w1 w' : Forall2 in_step hs hs' -> together w w' -> happen_all issue receive yielded enter ready hs w = Some w1 ->
  exists w1', happen_all issue receive yielded enter ready hs' w' = Some w1' /\ together w1 w1'.
Proof.
  intros Hhs. revert w w'. induction Hhs as [|h h' hs hs' Hh _ IH]; intros w w' Hw; cbn [happen_all].
  - intros [= <-]. by exists w'.
  - destruct (happen _ _ _ _ _ h w) as [w2|] eqn:E; [|done]. cbn [mbind option_bind].
    destruct (together_step h h' w w2 w' Hh Hw E) as (w2' & E' & H2). rewrite E'. by apply IH.
Qed.

(** C16: The words of a conversation stay out of the log. Take two histories of
    calls of Slack's methods, in step with one another and answered alike, that
    differ in nothing but the words: what messages, titles, blocks and cards
    say. Then what can happen in one can in the other, and the log is the same.
    Words are told apart from the rest by [alike]: the lengths of a text and of
    its pieces, that there is a title, the types of blocks and the ids and
    statuses of cards are in the log, and so is the whole line of prose shown
    under the agent's name. *)
Theorem words_stay_out_of_the_log hs hs' w :
  Forall2 in_step hs hs' -> happen_all issue receive yielded enter ready hs (mkWorld new_api ∅ 0) = Some w ->
  exists w', happen_all issue receive yielded enter ready hs' (mkWorld new_api ∅ 0) = Some w' /\
    api_log (w_state w') = api_log (w_state w).
Proof.
  intros Hhs Hw. destruct (together_all hs hs' (mkWorld new_api ∅ 0) w (mkWorld new_api ∅ 0) Hhs) as (w' & Hw' & ((_ & _ & _ & E) & _)); [|done|by exists w'].
  split_and!; [by split_and!|done|]. intros t. cbn [w_calls]. by rewrite lookup_empty.
Qed.

(** The line of prose under the agent's name is no word of these: it is logged
    as it is. *)
Lemma status_line_is_logged channel threadTs status :
  api_log (fst (run issue (run_method (SetThreadStatus channel threadTs status)) new_api)) =
  [[(js "method", VStr (js "assistant.threads.setStatus")); str "channel_id" channel; str "thread_ts" threadTs; str "status" status]].
Proof. done. Qed.

(** ** Long messages *)

Abbreviation play_api := (played issue receive yielded enter ready 0).
Definition accepted (n : nat) : list ((web_api -> web_api) * Z * input Empty_set reply) :=
  replicate n ((fun x => x), 0%Z, Reply (fun _ => Val VNull)).
Definition refused_ : (web_api -> web_api) * Z * input Empty_set reply := ((fun x => x), 0%Z, Reply (fun _ => Exn (js "rate_limited"))).
Definition piece_call (channel threadTs piece : jstr) : api_call :=
  ApiCall (js "chat.postMessage") [str "channel" channel; str "thread_ts" threadTs; str "markdown_text" piece].

(** The pieces of a long message are posted one after the other, each once
    the one before it was taken; and after one that is refused, none. *)
Theorem pieces_are_posted_in_order channel threadTs pieces k x :
  exists x', play_api (post_pieces channel threadTs pieces) x (if k <? length pieces then accepted k ++ [refused_] else accepted (length pieces)) =
    Some (x', if k <? length pieces then Throw (js "rate_limited") else Ret tt) /\
  api_sent x' = api_sent x ++ (piece_call channel threadTs <$> take (k + 1) pieces).
Proof.
  revert k x. induction pieces as [|piece pieces IH]; intros k x.
  - cbn. exists x. split; [done|]. rewrite take_nil. by rewrite app_nil_r.
  - set (x1 := issue (piece_call channel threadTs piece) (logged (log_fields (js "chat.postMessage")
      [str "channel" channel; str "thread_ts" threadTs; str "markdown_text" piece]) x)).
    destruct k as [|k].
    + exists x1. split; [done|]. by destruct pieces.
    + destruct (IH k x1) as (x' & Hp & Hs). exists x'. split.
      * change (S k <? length (piece :: pieces)) with (k <? length pieces). rewrite <- Hp. by destruct (k <? length pieces).
      * rewrite Hs. cbn [x1 issue api_sent logged]. change (S k + 1) with (S (k + 1)). cbn [take fmap list_fmap]. by rewrite <- app_assoc.
Qed.

(** ** A run *)

Definition two_calls (text : string) (title : string) : list (happening web_api Empty_set Empty_set reply) :=
  [Called 0 (run_method (PostMessage (js "C1") (js "1.0") (js text))); Resumed 0 1 (Reply (fun _ => Val VNull));
   Called 2 (run_method (SetStatus (js "C1") (js "1.0") SlackEngine.SsProcessing (Some (js title))))].
Definition two_calls_end : world web_api Empty_set Empty_set reply :=
  default (mkWorld new_api ∅ 0) (happen_all issue receive yielded enter ready (two_calls "the secret is out" "secrets") (mkWorld new_api ∅ 0)).
Lemma words_stay_out_of_the_log_witness :
  length (api_log (w_state two_calls_end)) = 2 /\
  exists w', happen_all issue receive yielded enter ready (two_calls "lunch is at noon." "lunch") (mkWorld new_api ∅ 0) = Some w' /\
    api_log (w_state w') = api_log (w_state two_calls_end).
Proof.
  split; [evaluated|]. apply (words_stay_out_of_the_log (two_calls "the secret is out" "secrets") (two_calls "lunch is at noon." "lunch") two_calls_end).
  - constructor; [apply both_call, alike_message; evaluated|]. constructor; [apply both_resume|].
    constructor; [by apply both_call, alike_status|constructor].
  - unfold two_calls_end. assert (present (happen_all issue receive yielded enter ready (two_calls "the secret is out" "secrets") (mkWorld new_api ∅ 0)) = true) as H by evaluated.
    by destruct (happen_all _ _ _ _ _ _ _).
Defined.
