(* ===== verification/AgentdServer.v ===== *)
(** [apps/agentd/src/server.ts], [listen.ts] and [attachments-cache.ts]: who is
    let in to an agent, on which socket it listens, and what becomes of files
    nobody has touched. *)

From S2P Require Import Prelude Attachments Json Numbers Egress Async AsyncLogic SlackHttp.
#[local] Open Scope nat_scope.

(** ** Who is let in *)

Definition PEER_TAGS_HEADER : jstr := js "x-thicket-peer-tags".
Definition LOCAL_USER_HEADER : jstr := js "x-thicket-local-user".
Record ServerOptions := mkServer {
  so_allowedPeerTags : list jstr;
  so_localUser : option jstr }.

Definition rejection (tags : list jstr) (local : option jstr) : jsval :=
  VObj [(js "jsonrpc", VStr (js "2.0")); (js "id", VNull);
        (js "error", VObj [(js "code", VNum (-32000)%Z); (js "message", VStr
          match local, tags with
          | Some user, _ => js "local caller not authorized: " ++ user ++ js " is not the account this agent runs as"
          | None, [] => js "peer identity missing: requests must arrive through netd"
          | None, _ => js "peer not authorized: tags [" ++ join_with (js ", ") tags ++ js "] are not in this agent's allow-list"
          end)])].
(** [None] lets the request through; else a status and a body. *)
Definition authorize (options : ServerOptions) (header : jstr -> option jstr) : option (Z * jsval) :=
  let tags := parsePeerTags (header PEER_TAGS_HEADER) in
  if existsb (fun tag => bool_decide (tag ∈ so_allowedPeerTags options)) tags then None
  else
    let local := header LOCAL_USER_HEADER in
    match local, so_localUser options with
    | Some user, Some account => if jeqb user account then None else Some (403%Z, rejection tags local)
    | _, _ => Some (403%Z, rejection tags local)
    end.

(** An agent's methods are for those with a tag it allows, and for the account
    it runs as; nobody else is let in, and everybody else is told so in the
    protocol's own terms. *)
Theorem agents_serve_their_peers_only options header :
  (authorize options header = None <->
   (exists tag, tag ∈ parsePeerTags (header PEER_TAGS_HEADER) /\ tag ∈ so_allowedPeerTags options) \/
   (exists user, header LOCAL_USER_HEADER = Some user /\ so_localUser options = Some user)) /\
  (forall status body, authorize options header = Some (status, body) -> status = 403%Z /\ prop body (js "jsonrpc") = VStr (js "2.0")).
Proof.
  unfold authorize. set (tags := parsePeerTags _).
  assert (Ht : existsb (fun tag => bool_decide (tag ∈ so_allowedPeerTags options)) tags = true <->
    exists tag, tag ∈ tags /\ tag ∈ so_allowedPeerTags options).
  { rewrite existsb_exists. split; intros (tag & H1 & H2); exists tag; (split; [by apply list_elem_of_In|]).
    - by apply bool_decide_eq_true in H2.
    - by apply bool_decide_eq_true. }
  destruct (existsb _ tags) eqn:E.
  - split; [split; [intros _; left; by apply Ht|done]|done].
  - assert (Hn : ~ exists tag, tag ∈ tags /\ tag ∈ so_allowedPeerTags options) by (intros H; by apply Ht in H).
    destruct (header LOCAL_USER_HEADER) as [user|], (so_localUser options) as [account|]; unfold jeqb.
    1: case_bool_decide as Hu; [subst account; split; [split; [intros _; right; by exists user|done]|done]|].
    all: split; [split; [done|intros [?|(x & Hx & Hy)]; [done|congruence]]|by intros ? ? [= <- <-]].
Qed.

(** ** Listening *)

Inductive ListenTarget := Fd (fd : Z) | Path (path : jstr).
Definition SD_LISTEN_FDS_START : Z := 3.
Definition resolveListenTarget (LISTEN_FDS LISTEN_PID : option jstr) (pid : Z) (socketPath : jstr) : ListenTarget :=
  let fds := match LISTEN_FDS with Some v => integer_of (number_of_string v) | None => None end in
  let pidMatches := match LISTEN_PID with None | Some [] => true | Some v => equals_integer pid (number_of_string v) end in
  match fds with
  | Some n => if (1 <=? n)%Z && pidMatches then Fd SD_LISTEN_FDS_START else Path socketPath
  | None => Path socketPath
  end.
(** [(mode & 0o077) !== 0]: open to more than the account. *)
Definition world_accessible (mode : Z) : bool := negb (Z.land mode 63 =? 0)%Z.

(** ** Attachments *)

Definition ATTACHMENT_RETENTION_MS : Z := 30 * 24 * 60 * 60000.
Inductive fs_call := Readdir (dir : jstr) | Stat (path : jstr) | Rm (path : jstr).
(** The names in a directory; whether a path is one, and when it was last
    changed. *)
Definition fs_answer (r : fs_call) : Type :=
  match r with Readdir _ => list jstr | Stat _ => bool * Z | Rm _ => unit end.
(** What was asked of the file system. *)
Abbreviation pcmd := (prog (list fs_call) Empty_set Empty_set fs_answer).
#[local] Open Scope async_scope.

Fixpoint prune_contexts (dir : jstr) (retentionMs now : Z) (contexts : list jstr) (dropped : nat) : pcmd nat :=
  match contexts with
  | [] => Ret dropped
  | context :: rest =>
      let path := join_path [dir; context] in
      attempt (Async.call (Stat path : fs_call)) (fun info =>
      match info with
      | Val (true, mtimeMs) =>
          if (now - mtimeMs <? retentionMs)%Z then prune_contexts dir retentionMs now rest dropped
          else Async.call (Rm path : fs_call) ;;; prune_contexts dir retentionMs now rest (dropped + 1)
      | _ => prune_contexts dir retentionMs now rest dropped
      end)
  end.
Definition pruneAttachments (dir : jstr) (retentionMs now : Z) : pcmd nat :=
  attempt (Async.call (Readdir dir : fs_call)) (fun contexts =>
  match contexts with
  | Exn _ => Ret 0
  | Val contexts => prune_contexts dir retentionMs now contexts 0
  end).

(** *** On a file system at rest *)

Definition fs_issue (r : fs_call) (asked : list fs_call) : list fs_call := asked ++ [r].
Definition at_rest (stat : jstr -> option (bool * Z)) (r : fs_call) : result (fs_answer r) :=
  match r return result (fs_answer r) with
  | Readdir _ => Exn (js "ENOENT")
  | Stat path => match stat path with Some info => Val info | None => Exn (js "ENOENT") end
  | Rm _ => Val tt
  end.
Definition expired (retentionMs now : Z) (info : option (bool * Z)) : bool :=
  match info with Some (true, mtimeMs) => negb (now - mtimeMs <? retentionMs)%Z | _ => false end.
Abbreviation play_fs := (played fs_issue (fun _ _ asked => asked) (fun _ _ asked => asked) (fun _ _ asked => asked) (fun _ _ => true) 0).
Definition answers (stat : jstr -> option (bool * Z)) (n : nat) : list ((list fs_call -> list fs_call) * Z * input Empty_set fs_answer) :=
  replicate n ((fun asked => asked), 0%Z, Reply (at_rest stat)).
Definition asks (dir : jstr) (retentionMs now : Z) (stat : jstr -> option (bool * Z)) (context : jstr) : list fs_call :=
  let path := join_path [dir; context] in
  Stat path :: if expired retentionMs now (stat path) then [Rm path] else [].

Lemma play_context dir retentionMs now stat c contexts dropped asked n : let path := join_path [dir; c] in
  play_fs (prune_contexts dir retentionMs now (c :: contexts) dropped) asked (answers stat (S n)) =
  play_fs (if expired retentionMs now (stat path)
           then Async.call (Rm path : fs_call) ;;; prune_contexts dir retentionMs now contexts (dropped + 1)
           else prune_contexts dir retentionMs now contexts dropped) (asked ++ [Stat path]) (answers stat n).
Proof.
  intros path. change (play_fs (prune_contexts dir retentionMs now (c :: contexts) dropped) asked (answers stat (S n))) with
    (play_fs (attempt (of_result (at_rest stat (Stat path))) (fun info =>
       match info with
       | Val (true, mtimeMs) =>
           if (now - mtimeMs <? retentionMs)%Z then prune_contexts dir retentionMs now contexts dropped
           else Async.call (Rm path : fs_call) ;;; prune_contexts dir retentionMs now contexts (dropped + 1)
       | _ => prune_contexts dir retentionMs now contexts dropped
       end)) (asked ++ [Stat path]) (answers stat n)).
  unfold at_rest, expired. destruct (stat path) as [[[] mtimeMs]|]; cbn [attempt of_result]; [|done..]. by destruct (_ <? _)%Z.
Qed.

(** Of what lies in the directory, exactly the contexts last changed a
    retention ago or longer are removed, each once, and counted. *)
Theorem expired_contexts_are_dropped dir retentionMs now stat contexts dropped asked :
  play_fs (prune_contexts dir retentionMs now contexts dropped) asked (answers stat (length (contexts ≫= asks dir retentionMs now stat))) =
  Some (asked ++ (contexts ≫= asks dir retentionMs now stat),
        Ret (dropped + length (filter (fun c => expired retentionMs now (stat (join_path [dir; c])) = true) contexts))).
Proof.
  revert dropped asked. induction contexts as [|c contexts IH]; intros dropped asked.
  - cbn. by rewrite Nat.add_0_r, app_nil_r.
  - cbn [mbind list_bind]. rewrite filter_cons. unfold asks at 1 3. cbv zeta. rewrite length_app.
    destruct (expired retentionMs now (stat (join_path [dir; c]))) eqn:E; [rewrite decide_True by done|rewrite decide_False by done]; cbn [length Nat.add].
    + rewrite play_context, E. change (play_fs (Async.call ?r ;;; ?p) ?a (answers stat (S ?n))) with (play_fs p (a ++ [r]) (answers stat n)).
      rewrite IH. f_equal. f_equal; [by rewrite <- !app_assoc|f_equal; lia].
    + rewrite play_context, E, IH. f_equal. f_equal. by rewrite <- app_assoc.
Qed.
