(* ===== verification/PhoneAlerts.v ===== *)
(** [apps/phone/src/alerts.ts]: what the phone bridge tells the security
    channel of. A line shows a number by its ends alone. *)

From S2P Require Import Prelude Envelope Json Async Values PhoneEngine.
#[local] Open Scope nat_scope.

Definition maskNumber (number : jstr) (showNumbers : bool) : jstr :=
  if showNumbers then number
  else if length number <? 8 then ellipsis
  else take 2 number ++ ellipsis ++ drop (length number - 4) number.
(** [Math.round(ms / 1000)] of whole milliseconds. *)
Definition duration (ms : Z) : jstr :=
  let s := ((ms + 500) / 1000)%Z in
  if (s <? 60)%Z then show_Z s ++ js "s"
  else
    let m := (s / 60)%Z in
    if (m <? 60)%Z then show_Z m ++ js "m " ++ show_Z (s mod 60) ++ js "s" else show_Z (m / 60) ++ js "h " ++ show_Z (m mod 60) ++ js "m".
Section Alerts.
(** [new Date(ms).toISOString()]. *)
Context (iso : Z -> jstr).
Definition clock (ms : Z) : jstr := take 5 (drop 11 (iso ms)) ++ js " UTC".

Definition renderAlert (alert : PhoneAlert) (showNumbers : bool) : jstr :=
  let number n := js "`" ++ maskNumber n showNumbers ++ js "`" in
  match alert with
  | SessionStarted _ agent _ resumed =>
      js ":telephone_receiver: Phone session started with *" ++ agent ++ js "* — " ++ js (if resumed then "resumed" else "new session")
      ++ js ", authenticated by PIN"
  | SessionEnded _ agent durationMs reason =>
      js ":telephone: Phone session with *" ++ agent ++ js "* ended after " ++ duration durationMs ++ js " — "
      ++ js match reason with Goodbye => "the operator said goodbye" | Switched => "switched agent" | Dropped => "call dropped" end
  | AuthFailed _ from attempt final =>
      js ":no_entry: PIN wrong from listed number " ++ number from ++ js " (attempt " ++ show_nat attempt
      ++ js (if final then ", the last) — call ended: auth failed" else ")")
  | LockedOut _ from untilMs => js ":lock: " ++ number from ++ js " locked out until " ++ clock untilMs ++ js " after repeated PIN failures"
  | CallerRejected _ from true untilMs =>
      js ":no_entry_sign: Call from " ++ number from ++ js " refused: locked out until "
      ++ match untilMs with None => js "later" | Some ms => clock ms end ++ js " — no session"
  | CallerRejected _ from false _ => js ":no_entry_sign: Call from unlisted number " ++ number from ++ js " refused — no session"
  end.

(** ** Posting *)

(** The post, answered by its status, and its body read as JSON. *)
Inductive alert_call := Post (channel text : jstr) | ReadJson.
Definition alert_answer (r : alert_call) : Type := match r with Post _ _ => Z | ReadJson => jsval end.
Inductive alert_line := Warned (status : option Z) (error : jsval) | Posted (ts : jsval).
#[local] Open Scope async_scope.
Definition post (channel : jstr) (showNumbers : bool) (alert : PhoneAlert) : prog (list alert_line) Empty_set Empty_set alert_answer unit :=
  let note line := update (fun l => l ++ [line]) in
  try_catch
    (let* status := call (Post channel (renderAlert alert showNumbers) : alert_call) in
     let* body := call (ReadJson : alert_call) in
     let failed error := note (Warned (Some status) (or_else error (VStr (js "unknown")))) in
     if negb ((200 <=? status) && (status <=? 299))%Z then
       match get body (js "error") with Some error => failed error | None => Throw (js "TypeError") end
     else
       match get body (js "ok") with
       | None => Throw (js "TypeError")
       | Some (VBool true) => note (Posted (prop body (js "ts")))
       | Some _ => failed (prop body (js "error"))
       end)
    (fun e => note (Warned None (VStr e))).

(** ** What a line tells *)

Definition with_number (from : jstr) (alert : PhoneAlert) : PhoneAlert :=
  match alert with
  | CallerRejected sid _ locked untilMs => CallerRejected sid from locked untilMs
  | AuthFailed sid _ attempt final => AuthFailed sid from attempt final
  | LockedOut sid _ untilMs => LockedOut sid from untilMs
  | SessionStarted _ _ _ _ | SessionEnded _ _ _ _ => alert
  end.
Definition with_call (sid contextId : jstr) (alert : PhoneAlert) : PhoneAlert :=
  match alert with
  | CallerRejected _ from locked untilMs => CallerRejected sid from locked untilMs
  | AuthFailed _ from attempt final => AuthFailed sid from attempt final
  | LockedOut _ from untilMs => LockedOut sid from untilMs
  | SessionStarted _ agent _ resumed => SessionStarted sid agent contextId resumed
  | SessionEnded _ agent durationMs reason => SessionEnded sid agent durationMs reason
  end.

(** Two callers whose numbers begin with the same two characters and end with
    the same four are told apart by no alert, nor are two callers with short
    numbers; and no alert tells which call or which conversation it is
    about. *)
Theorem alerts_show_the_ends_of_numbers alert a b sid contextId :
  (length a < 8 /\ length b < 8 \/
   8 <= length a /\ 8 <= length b /\ take 2 a = take 2 b /\ drop (length a - 4) a = drop (length b - 4) b) ->
  renderAlert (with_number a alert) false = renderAlert (with_call sid contextId (with_number b alert)) false.
Proof.
  intros H. assert (maskNumber a false = maskNumber b false) as E.
  { unfold maskNumber. destruct H as [[Ha Hb]|(Ha & Hb & -> & ->)].
    - by rewrite (proj2 (Nat.ltb_lt _ _) Ha), (proj2 (Nat.ltb_lt _ _) Hb).
    - by rewrite (proj2 (Nat.ltb_ge _ _) Ha), (proj2 (Nat.ltb_ge _ _) Hb). }
  destruct alert as [? ? [] ?|? ? ? ?|? ? ?|? ? ? ?|? ? ? ?]; unfold renderAlert, with_number, with_call; rewrite ?E; reflexivity.
Qed.
End Alerts.

(** An alert never fails its caller: whatever Slack answers, or if it does not,
    what is left is a line in the log. *)
Definition said (status : result Z) (body : result jsval) (r : alert_call) : result (alert_answer r) :=
  match r return result (alert_answer r) with Post _ _ => status | ReadJson => body end.
Theorem alerts_never_fail iso channel showNumbers alert status body l :
  exists n line, played (fun _ l => l) (fun _ _ l => l) (fun _ _ l => l) (fun _ _ l => l) (fun _ _ => true) 0 (post iso channel showNumbers alert) l
    (replicate n ((fun l => l), 0%Z, Reply (said status body))) = Some (l ++ [line], Ret tt).
Proof.
  destruct status as [status|e]; [|exists 1; eexists; reflexivity]. exists 2. destruct body as [body|e]; [|by eexists].
  cbn [replicate played]. unfold post, get. cbn -[Z.leb renderAlert prop or_else js nullish].
  destruct (negb _); destruct (nullish body); try by eexists. destruct (prop body (js "ok")) as [| |[]| | | |]; by eexists.
Qed.
