(* ===== verification/DiscordWork.v ===== *)
(** Who gives the agent work on Discord: nobody but its operators, and no
    message of theirs twice.

    Then: the loop that appends text to a Discord card ends, whatever other
    calls and Discord do meanwhile: of its two branches one takes text, and
    after the other the card is empty before anything else can run. *)

From S2P Require Import Prelude MarkdownSplits A2A A2AClient Activity Envelope SessionId Markdown Async AsyncLogic Values DiscordState DiscordCard DiscordTranslate DiscordEditor DiscordEngine DiscordSteady DiscordDemo.
#[local] Open Scope nat_scope.
#[local] Open Scope async_scope.

(** The others only add notes of their own, and no handled message is
    forgotten. *)
Definition others_go_on (t : nat) (e e' : engine) : Prop :=
  (exists l, en_log e' = en_log e ++ l /\ Forall (fun n => fst n <> t) l) /\
  (forall k, is_Some (bs_handled (en_store e) !! k) -> is_Some (bs_handled (en_store e') !! k)).
#[export] Instance others_go_on_preorder t : PreOrder (others_go_on t).
Proof.
  split; [intros e; split; [exists []; by rewrite app_nil_r|done]|].
  intros e1 e2 e3 [(l1 & E1 & H1) K1] [(l2 & E2 & H2) K2]. split; [|auto].
  exists (l1 ++ l2). rewrite E2, E1, app_assoc. split; [done|by apply Forall_app].
Qed.

Lemma others_own t e e' note : others_go_on t e e' -> (t, note) ∈ en_log e' <-> (t, note) ∈ en_log e.
Proof.
  intros [(l & -> & Hl) _]. rewrite elem_of_app. split; [|by left]. intros [H|H]; [done|]. rewrite Forall_forall in Hl. by apply Hl in H.
Qed.

(** What gives the agent work, and what takes it away. *)
Definition gives_work (n : note_) : Prop := match n with Sent (RqSend _) | Opened (SrcStream _) => True | _ => False end.
Definition cancels (n : note_) : Prop := match n with Sent (RqCancel _) => True | _ => False end.

Section Work.
Context (options : EngineOptions) (sha1 : list N -> list N) (zero_number : jsval -> bool).
(** The calls of a history. *)
Context (calls : list (cmd unit)).
#[local] Abbreviation agent := (eo_agent options).
#[local] Abbreviation handle := (handleEvent options sha1 zero_number).
#[local] Abbreviation queued_by_worker r := (of_worker options (qd_author r)).

Definition note_ok (t : nat) (n : note_) : Prop :=
  (gives_work n -> (exists m, calls !! t = Some (handle (OfMessage m)) /\ heeded options m = true) \/
                   calls !! t = Some (flushQueue options sha1 zero_number)) /\
  (cancels n -> exists tap, calls !! t = Some (handle (OfComponent tap)) /\ worker options (ce_userId tap) = true /\
                            ce_customId tap = STOP_ID).

Record work_ok (e : engine) : Prop := {
  wo_notes t n : (t, n) ∈ en_log e -> note_ok t n;
  wo_queue r : r ∈ bs_queued (en_store e) -> queued_by_worker r }.

Definition working (t : nat) (e : engine) : Prop := work_ok e /\ en_running e = t.
Definition unnoted (t : nat) (e : engine) : Prop := forall n, (t, n) ∉ en_log e.

#[local] Abbreviation anything := (fun _ _ _ => True).
#[local] Abbreviation any_event := (fun _ _ _ _ => True).
#[local] Abbreviation wp := (wp issue receive yielded enter ready anything any_event work_ok others_go_on).
#[local] Abbreviation abides t := (abides anything any_event work_ok others_go_on t (working t)).
#[local] Abbreviation sound := (sound issue receive yielded enter ready anything any_event work_ok others_go_on unnoted).

Lemma noted_step t n e : note_ok t n -> working t e -> guar others_go_on t e (noted n e) /\ working t (noted n e).
Proof.
  intros Hn [[Hl Hq] Hr]. split.
  - intros t' Ht'. split; [|done]. exists [(en_running e, n)]. split; [done|]. apply Forall_singleton. cbn. congruence.
  - split; [|done]. split; [|exact Hq]. intros t' n' H. cbn in H. apply elem_of_app in H as [H|H]; [by apply Hl|].
    apply list_elem_of_singleton in H as [= -> ->]. by rewrite Hr.
Qed.

Lemma noted_after t n e e' now : note_ok t n -> work_ok e' -> others_go_on t e e' ->
  guar others_go_on t e' (noted n (enter t now e')) /\ working t (noted n (enter t now e')).
Proof.
  intros Hn He' _. assert (Hw : working t (enter t now e')) by by destruct He'.
  destruct (noted_step t n _ Hn Hw) as [Hg HL]. split; [|done]. intros t' Ht'. by destruct (Hg t' Ht').
Qed.

Lemma quiet_step t f e : quiet f -> working t e -> guar others_go_on t e (f e) /\ working t (f e).
Proof.
  intros [Hr Hl Hh Hq] [[Hn Hqu] Hrun]. split.
  - intros t' _. split; [|apply Hh]. exists []. by rewrite Hl, app_nil_r.
  - split; [|by rewrite Hr]. split.
    + intros t' n. rewrite Hl. apply Hn.
    + intros r H. by apply Hqu, Hq.
Qed.

(** What a call notes besides its work. *)
Lemma harmless_ok t r : harmless r -> note_ok t (Sent r).
Proof. destruct r; by try split. Qed.

Lemma working_steady t (fine : request -> Prop) (source_ok : source -> Prop) :
  (forall r, harmless r -> fine r) -> (forall r, fine r -> note_ok t (Sent r)) -> (forall src, source_ok src -> note_ok t (Opened src)) ->
  Steady anything work_ok others_go_on t (working t) fine source_ok quiet.
Proof.
  intros Hh Hf Ho. split.
  - by intros s [H _].
  - intros f Hq s. by apply quiet_step.
  - intros r Hr s. by apply noted_step, Hf.
  - intros r a s s1 now _ _ H1 H2 _. by apply noted_after with (e := s).
  - intros src e s s1 now _ _ H1 H2. by apply noted_after with (e := s).
  - exact Hh.
  - intros src Hsrc s. by apply noted_step, Ho.
  - intros channel s. by apply noted_step.
Qed.

Lemma enqueue_step t request e : of_worker options (qr_authorId request) -> working t e ->
  guar others_go_on t e (on_store (enqueue request) e) /\ working t (on_store (enqueue request) e).
Proof.
  intros Hr [[Hn Hq] Hrun]. split.
  - intros t' _. split; [|done]. exists []. by rewrite app_nil_r.
  - split; [|done]. split; [exact Hn|]. intros r H. cbn in H. apply elem_of_app in H as [H|H]; [by apply Hq|].
    by apply list_elem_of_singleton in H as ->.
Qed.

(** ** Every call that is made of an engine *)

(** A call that gives the agent work, and one that does not. *)
Section Call.
Context (t : nat).
Definition idle_request (r : request) : Prop := note_ok t (Sent r).
Definition idle_source (src : source) : Prop := note_ok t (Opened src).

#[export] Instance idle_steady : Steady anything work_ok others_go_on t (working t) idle_request idle_source quiet.
Proof. apply working_steady; [|done|done]. intros r. apply harmless_ok. Qed.

Lemma abides_working (p : cmd unit) :
  (forall message, note_ok t (Sent (RqSend message)) /\ note_ok t (Opened (SrcStream message))) ->
  (exists m, heeded options m = true /\ p = handleMessage options sha1 zero_number m) \/ p = flushQueue options sha1 zero_number ->
  abides t p.
Proof.
  intros Hw Hp.
  assert (He : forall request, of_worker options (qr_authorId request) -> AsyncLogic.steps others_go_on t (working t) (on_store (enqueue request))).
  { intros request Hr s. by apply enqueue_step. }
  assert (Hq : forall e r, working t e -> r ∈ bs_queued (en_store e) -> queued_by_worker r) by (intros e r [[_ Hq] _]; apply Hq).
  destruct Hp as [(m & Hm & ->)| -> ].
  - by apply (abides_handleMessage options sha1 zero_number anything any_event work_ok others_go_on t (working t) idle_request idle_source);
      [|intros message; apply Hw..].
  - by apply (abides_flushQueue options sha1 zero_number anything any_event work_ok others_go_on t (working t) idle_request idle_source);
      [| |intros message; apply Hw..].
Qed.

#[local] Abbreviation idle p := (abides t p).
#[local] Abbreviation idle_ask := (abides_ask anything any_event work_ok others_go_on t (working t) idle_request idle_source).
#[local] Abbreviation idle_update := (abides_update anything any_event work_ok others_go_on t (working t) idle_request idle_source).

Lemma abides_tap tap : calls !! t = Some (handle (OfComponent tap)) -> idle (handleComponent options tap).
Proof.
  intros Ht. unfold handleComponent. destruct (is_operator options _ || is_test_bot options _) eqn:Ew; cbn [negb]; [|by apply idle_ask].
  destruct (jeqb (ce_customId tap) STOP_ID) eqn:Es; cbn [negb]; [|apply abides_ret].
  apply abides_read. intros e _. destruct (filter _ _); [by apply idle_ask|].
  apply abides_bind; [by apply idle_ask|]. intros _. apply abides_list. intros task _.
  apply abides_try; [|intros _; apply abides_ret].
  apply (abides_asked anything any_event work_ok others_go_on t (working t) idle_request idle_source).
  split; [done|]. intros _. exists tap. split_and!; [done|done|]. by apply bool_decide_eq_true_1 in Es.
Qed.

Lemma abides_entry now e p : entry options sha1 zero_number now e p -> calls !! t = Some p -> idle p.
Proof.
  intros Hp Ht. destruct Hp as [event| |p Hp|id|channel due _ _|key h _ _|channel _].
  - destruct event as [m|tap|form|command]; cbn [handleEvent] in *; [|by apply abides_tap|by apply idle_ask..].
    destruct (heeded options m) eqn:Hm; [|unfold handleMessage; rewrite Hm; apply abides_ret].
    apply abides_working; [|left; by exists m]. intros message. split; (split; [|done]); intros _; left; by exists m.
  - apply abides_working; [|by right]. intros message. split; (split; [|done]); intros _; by right.
  - eapply (abides_start options zero_number anything any_event work_ok others_go_on t (working t) idle_request idle_source); [|exact Hp].
    by split.
  - by apply idle_update.
  - apply (abides_flush_lane options anything any_event work_ok others_go_on t (working t) idle_request idle_source).
  - apply idle_update, quiet_over.
  - apply (abides_typing_tick anything any_event work_ok others_go_on t (working t) idle_request idle_source).
Qed.
End Call.

(** A call as it is made. *)
Lemma entry_wp t now p e : work_ok e -> unnoted t e -> calls !! t = Some p /\ entry options sha1 zero_number now e p ->
  guar others_go_on t e (enter t now e) /\ wp t p (enter t now e) (fun _ => work_ok).
Proof.
  intros He _ [Ht Hp]. split; [by intros t' _; split; [exists []; by rewrite app_nil_r|]|].
  eapply wp_mono; [|apply (abides_entry t now e p Hp Ht); by destruct He]. by intros r s [H _].
Qed.

(** ** No message twice *)

Definition handled (messageId : jstr) (e : engine) : Prop := is_Some (bs_handled (en_store e) !! (agent, messageId)).
Definition call_of (t : nat) (m : MessageEvent) : Prop := calls !! t = Some (handle (OfMessage m)).

(** A call that was made of a message: its message is handled, and where it
    did anything, it is the first that was. *)
Record once (w : engine_world) : Prop := {
  on_handled t m : call_of t m -> heeded options m = true -> t < w_next w -> handled (me_messageId m) (w_state w);
  on_first t m : call_of t m -> (exists n, (t, n) ∈ en_log (w_state w)) \/ is_Some (w_calls w !! t) ->
    heeded options m = true /\
    forall t0 m0, t0 < t -> call_of t0 m0 -> heeded options m0 = true -> me_messageId m0 <> me_messageId m }.

Lemma handled_mono t messageId e e' : guar others_go_on t e e' -> handled messageId e -> handled messageId e'.
Proof. intros Hg. destruct (Hg (S t)) as [_ H]; [lia|]. apply H. Qed.

(** A message that is not heeded, or was handled, comes to nothing. *)
Lemma handleMessage_drops m e : heeded options m = false \/ handled (me_messageId m) e ->
  run issue (handleMessage options sha1 zero_number m) e = (e, skip_).
Proof.
  intros H. unfold handleMessage. destruct (heeded options m); cbn [negb]; [|done]. destruct H as [|[now H]]; [done|].
  unfold read. cbn [run]. unfold unhandled. rewrite bool_decide_false; [done|]. unfold DiscordEngine.agent. by rewrite H.
Qed.

Lemma handleMessage_marks t m e : calls !! t = Some (handle (OfMessage m)) -> heeded options m = true -> working t e ->
  ~ handled (me_messageId m) e -> handled (me_messageId m) (fst (run issue (handleMessage options sha1 zero_number m) e)).
Proof.
  intros Ht Hm He Hh. set (e1 := mark_handled options (me_messageId m) e).
  assert (Hun : unhandled agent (me_messageId m) (en_store e) = true).
  { unfold unhandled. apply bool_decide_eq_true_2. destruct (bs_handled (en_store e) !! (agent, me_messageId m)) eqn:E; [|done]. destruct Hh. unfold handled. by rewrite E. }
  assert (Hrun : run issue (handleMessage options sha1 zero_number m) e = run issue (classify options sha1 zero_number m) e1).
  { unfold handleMessage. rewrite Hm. unfold read. cbn [negb run]. unfold DiscordEngine.agent. by rewrite Hun. }
  rewrite Hrun. destruct (quiet_step t _ e (quiet_mark options (me_messageId m)) He) as [_ He1].
  assert (Hwp : wp t (classify options sha1 zero_number m) e1 (fun _ => work_ok)).
  { eapply wp_mono; [|apply (abides_classify options sha1 zero_number anything any_event work_ok others_go_on t (working t) (idle_request t) (idle_source t)); [..|exact He1]].
    - by intros r s [H _].
    - intros request Hr s. by apply enqueue_step.
    - intros message. split; [|done]. intros _. left. by exists m.
    - intros message. split; [|done]. intros _. left. by exists m.
    - by apply heeded_worker. }
  destruct (run_wp issue receive yielded enter ready anything any_event work_ok others_go_on t _ _ _ (fun _ _ H => H) Hwp) as [Hg _].
  apply (handled_mono t _ e1); [done|]. unfold e1, handled, mark_handled, markHandled. cbn. unfold DiscordEngine.agent. rewrite Hun. cbn.
  by rewrite lookup_insert_eq.
Qed.

#[local] Abbreviation start_at := (fun (t : nat) now p e => calls !! t = Some p /\ entry options sha1 zero_number now e p).
#[local] Abbreviation engine_step h w := (happen (An := answer) (Src := source) (Ev := A2AEvent) issue receive yielded enter ready h w).

(** A call that is resumed is no other than it was. *)
Lemma once_resumed t now i w w' : sound w -> once w -> engine_step (Resumed t now i) w = Some w' ->
  guar others_go_on t (w_state w) (w_state w') -> once w'.
Proof.
  intros Hs [Hh Hf] H Hg. cbn [happen] in H. destruct (w_calls w !! t) as [p|] eqn:Hp; [|done]. cbn [mbind option_bind] in H.
  destruct (resumed _ _ _ p i _) as [[s q]|]; [|done]. cbn [mbind option_bind] in H. injection H as <-. split.
  - intros t0 m0 Hm0 Hhd Hlt. apply (handled_mono t _ (w_state w)); [done|by apply (Hh t0)].
  - intros t0 m0 Hm0 Hact. apply (Hf t0 m0 Hm0). destruct (decide (t0 = t)) as [->|Hne]; [right; by rewrite Hp|].
    destruct Hact as [[n Hn]|Hsusp].
    + left. exists n. by apply (others_own t0 _ _ n (Hg t0 Hne)).
    + right. cbn in Hsusp. by destruct (suspended _); rewrite ?lookup_insert_ne, ?lookup_delete_ne in Hsusp by done.
Qed.

Lemma once_called now p w w' : sound w -> once w -> start_at (w_next w) now p (w_state w) -> engine_step (Called now p) w = Some w' ->
  guar others_go_on (w_next w) (w_state w) (w_state w') -> once w'.
Proof.
  intros Hs [Hh Hf] [Hp Hentry] H Hg. pose proof (sound_fresh _ _ _ _ _ _ _ _ _ _ _ Hs (w_next w) (le_n _)) as [Hnone Hun].
  set (t := w_next w) in *. set (e := enter t now (w_state w)) in *.
  assert (He : working t e) by (split; [destruct (sound_inv _ _ _ _ _ _ _ _ _ _ _ Hs); by split|done]).
  assert (Hdrop : forall m, call_of t m -> heeded options m = false \/ handled (me_messageId m) (w_state w) ->
            w_state w' = e /\ w_calls w' !! t = None).
  { intros m Hm Hd. unfold call_of in Hm. rewrite Hp in Hm. injection Hm as ->. injection H as <-. cbn [handleEvent].
    fold t e. rewrite (handleMessage_drops m e Hd). cbn. split; [done|apply lookup_delete_eq]. }
  injection H as Hw. split.
  - intros t0 m0 Hm0 Hhd Hlt. destruct (decide (t0 = t)) as [->|Hne].
    + destruct (decide (handled (me_messageId m0) (w_state w))) as [Hd|Hd]; [by apply (handled_mono t _ (w_state w))|].
      unfold call_of in Hm0. rewrite Hp in Hm0. injection Hm0 as ->. rewrite <- Hw. cbn [w_state settle handleEvent]. fold t e.
      by apply (handleMessage_marks t m0 e).
    + apply (handled_mono t _ (w_state w)); [done|]. apply (Hh t0 m0); [done|done|]. rewrite <- Hw in Hlt. cbn in Hlt. lia.
  - intros t0 m0 Hm0 Hact. destruct (decide (t0 = t)) as [->|Hne].
    + destruct (decide (heeded options m0 = false \/ handled (me_messageId m0) (w_state w))) as [Hd|Hd].
      * destruct (Hdrop m0 Hm0 Hd) as [Hst Hsusp]. rewrite Hst, Hsusp in Hact. destruct Hact as [[n Hn]|[]%is_Some_None].
        by destruct (Hun n).
      * split; [destruct (heeded options m0); [done|by destruct Hd; left]|]. intros t1 m1 Hlt Hm1 Hhd Eid. apply Hd. right.
        rewrite <- Eid. by apply (Hh t1 m1).
    + apply (Hf t0 m0 Hm0). destruct Hact as [[n Hn]|Hsusp].
      * left. exists n. by apply (others_own t0 _ _ n (Hg t0 Hne)).
      * right. rewrite <- Hw in Hsusp. cbn in Hsusp. fold t in Hsusp.
        by destruct (suspended _); rewrite ?lookup_insert_ne, ?lookup_delete_ne in Hsusp by done.
Qed.

Lemma history_once hs w w' : sound w -> once w ->
  all_allowed_at issue receive yielded enter ready anything any_event start_at hs w ->
  engine_history hs w = Some w' -> sound w' /\ once w'.
Proof.
  revert w. induction hs as [|h hs IH]; intros w Hs Ho; [by intros _ [= <-]|]. intros [Hh Hhs].
  unfold engine_history. cbn [happen_all]. destruct (engine_step h w) as [w1|] eqn:E; [|done]. cbn [mbind option_bind].
  assert (Hun : forall t s s', unnoted t s -> others_go_on t s s' -> unnoted t s').
  { intros t s s' Hu Hr n Hn. apply (Hu n). by apply (others_own t s s' n Hr). }
  destruct (happen_sound issue receive yielded enter ready anything any_event work_ok others_go_on unnoted Hun start_at entry_wp h w w1 Hs Hh E) as [Hs1 Hg].
  apply IH; [done| |done]. destruct h as [now p|t now i]; [by apply (once_called now p w w1 Hs)|by apply (once_resumed t now i w w1 Hs)].
Qed.
End Work.

(** ** Whole histories *)

Section Histories.
Context (options : EngineOptions) (sha1 : list N -> list N) (zero_number : jsval -> bool).
#[local] Abbreviation handle := (handleEvent options sha1 zero_number).
(** Any history over a store whose queue is the operators' own. *)
Context (store : BridgeState) (hs : list engine_happening) (w : engine_world).
Hypothesis queue : forall r, r ∈ bs_queued store -> of_worker options (qd_author r).
Hypothesis allowed : all_allowed issue receive yielded enter ready (fun _ _ _ => True) (fun _ _ _ _ => True)
  (fun now p e => entry options sha1 zero_number now e p) hs (new_world store).
Hypothesis history : engine_history hs (new_world store) = Some w.

Lemma history_works : work_ok options sha1 zero_number (called hs) (w_state w) /\ once options sha1 zero_number (called hs) w.
Proof.
  destruct (history_once options sha1 zero_number (called hs) hs (new_world store) w) as [Hs Ho]; [| | |exact history|split; [|done]].
  - split; cbn; [|done|intros t _; split; [done|by intros n Hn%elem_of_nil]]. split; [by intros t n Hn%elem_of_nil|exact queue].
  - split; cbn; [lia|]. intros t m _ [[n Hn%elem_of_nil]|[]%is_Some_None]; done.
  - by apply (all_allowed_called issue receive yielded enter ready _ _ _ hs (new_world store) []).
  - by destruct Hs.
Qed.

(** C24: Only operators, and the test bots they admit, give the agent work.
    Whatever arrives and whatever the world answers, a message is sent or
    streamed to the agent only by a call that was made of a message of the
    bridge's own server, or of a direct message, by one of them, or by the
    flush of a queue that holds nobody else's; and only one of them, pressing
    Stop, cancels a task. *)
Theorem only_operators_give_work :
  (forall t n, (t, n) ∈ en_log (w_state w) -> gives_work n ->
     (exists m, called hs !! t = Some (handle (OfMessage m)) /\ heeded options m = true) \/
     called hs !! t = Some (flushQueue options sha1 zero_number)) /\
  (forall t n, (t, n) ∈ en_log (w_state w) -> cancels n ->
     exists tap, called hs !! t = Some (handle (OfComponent tap)) /\ worker options (ce_userId tap) = true /\
                 ce_customId tap = STOP_ID) /\
  (forall r, r ∈ bs_queued (en_store (w_state w)) -> of_worker options (qd_author r)).
Proof. destruct history_works as [[Hn Hq] _]. split_and!; [intros t n H; by apply (Hn t n H)..|done]. Qed.

(** A message counts once. However often Discord delivers it, and
    however those deliveries interleave, at most one of the calls made of it
    asks anything of Discord or of the agent, and that one was heeded. *)
Theorem messages_count_once t m n : called hs !! t = Some (handle (OfMessage m)) -> (t, n) ∈ en_log (w_state w) ->
  heeded options m = true /\
  forall t' m' n', called hs !! t' = Some (handle (OfMessage m')) -> me_messageId m' = me_messageId m ->
    (t', n') ∈ en_log (w_state w) -> t' = t.
Proof.
  intros Hm Hn. destruct history_works as [_ [_ Hf]]. destruct (Hf t m Hm) as [Hhd Hfirst]; [left; by exists n|].
  split; [done|]. intros t' m' n' Hm' Eid Hn'. destruct (Hf t' m' Hm') as [Hhd' Hfirst']; [left; by exists n'|].
  destruct (Nat.lt_trichotomy t' t) as [H|[->|H]]; [|done|].
  - by destruct (Hfirst t' m' H Hm' Hhd').
  - by destruct (Hfirst' t m H Hm Hhd).
Qed.
End Histories.

(** The operator's message is delivered twice, and a stranger writes. *)
Definition demo_work : list engine_happening :=
  [arrives Harness (said_by (js "U1") (js "7") (js "hi"))] ++ replies 0 1 ++
  [arrives Harness (said_by (js "U1") (js "7") (js "hi")); arrives Harness (said_by (js "U9") (js "8") (js "me too"))].
Definition callers (w : engine_world) : list nat :=
  omap (fun n => match snd n with Sent _ | Opened _ => Some (fst n) | _ => None end) (en_log (w_state w)).

Lemma only_operators_give_work_witness :
  callers (world_after demo_work) = [0; 0] /\
  (forall t n, (t, n) ∈ en_log (w_state (world_after demo_work)) -> gives_work n ->
     (exists m, called demo_work !! t = Some (handleEvent (demo_options Harness) zero_sha1 no_number (OfMessage m)) /\
                heeded (demo_options Harness) m = true) \/
     called demo_work !! t = Some (flushQueue (demo_options Harness) zero_sha1 no_number)).
Proof.
  split; [by vm_compute|].
  refine (proj1 (only_operators_give_work (demo_options Harness) zero_sha1 no_number new_state demo_work (world_after demo_work) _ _ _)).
  - by intros r Hr%elem_of_nil.
  - unfold demo_work. of_messages.
  - apply world_after_runs. reflexivity.
Defined.

Lemma messages_count_once_witness :
  callers (world_after demo_work) = [0; 0] /\
  forall m' n', called demo_work !! 1 = Some (handleEvent (demo_options Harness) zero_sha1 no_number (OfMessage m')) ->
    me_messageId m' = js "7" -> (1, n') ∈ en_log (w_state (world_after demo_work)) -> 1 = 0.
Proof.
  split; [by vm_compute|].
  refine (fun m' n' => proj2 (messages_count_once (demo_options Harness) zero_sha1 no_number new_state demo_work (world_after demo_work)
    _ _ _ 0 (said_by (js "U1") (js "7") (js "hi")) (Sent RqFetchCard) _ _) 1 m' n').
  - by intros r Hr%elem_of_nil.
  - unfold demo_work. of_messages.
  - apply world_after_runs. reflexivity.
  - reflexivity.
  - apply list_elem_of_lookup_2 with (i := 0). reflexivity.
Defined.


(** The loop's own way out is not what the world answers. *)
Definition not_fuel (r : request) (a : result (answer r)) (e : engine) : Prop := a <> Exn out_of_fuel.
Definition any_event (t : nat) (src : source) (ev : A2AEvent) (e : engine) : Prop := True.
Definition any_engine (e : engine) : Prop := True.
Definition anyhow (t : nat) (e e' : engine) : Prop := True.
#[export] Instance anyhow_preorder t : PreOrder (anyhow t).
Proof. by split. Qed.

Section Appends.
Context (options : EngineOptions) (t : nat).
#[local] Abbreviation wp := (wp issue receive yielded enter ready not_fuel any_event any_engine anyhow t).
#[local] Abbreviation fueled p e := (wp p e (fun r _ => r <> Exn out_of_fuel)).
(** A program that does not run out, whatever the state. *)
Definition sound_prog {A : Type} (p : cmd A) : Prop := forall e, fueled p e.

Lemma sound_ret {A : Type} (a : A) : sound_prog (Ret a).
Proof. done. Qed.
Lemma sound_update f : sound_prog (Async.update f : cmd unit).
Proof. by split. Qed.
Lemma sound_ask r : sound_prog (ask r).
Proof. intros e. apply wp_call; [done..|]. intros a e1 now _ _ _ Ha. by split. Qed.
Lemma sound_read {A : Type} (k : engine -> cmd A) : (forall e, sound_prog (k e)) -> sound_prog (read k).
Proof. intros H e. apply wp_read, H. Qed.
Lemma sound_attempt {A B : Type} (p : cmd A) (k : result A -> cmd B) : sound_prog p -> (forall r, r <> Exn out_of_fuel -> sound_prog (k r)) -> sound_prog (attempt p k).
Proof. intros Hp Hk e. apply wp_attempt. eapply wp_mono; [|apply Hp]. intros r s Hr. by apply Hk. Qed.
Lemma sound_bind {A B : Type} (p : cmd A) (k : A -> cmd B) : sound_prog p -> (forall a, sound_prog (k a)) -> sound_prog (bind p k).
Proof. intros Hp Hk. apply sound_attempt; [done|]. intros [a|m] Hr; [apply Hk|]. intros e. cbn. congruence. Qed.

Lemma sound_settle taskId d state : sound_prog (settle_as options taskId d state).
Proof.
  apply sound_read. intros e. cbv zeta. destruct (dr_messageId (draft_at d e)); [|apply sound_ret]. apply sound_read. intros e'.
  apply sound_bind; [apply sound_update|]. intros _. apply sound_ask.
Qed.
Lemma sound_abandon taskId d : sound_prog (abandon taskId d).
Proof. apply sound_bind; [apply sound_update|]. intros _. apply sound_bind; [apply sound_update|]. intros _. apply sound_update. Qed.
Lemma sound_draw taskId d state : sound_prog (draw options taskId d state).
Proof.
  apply sound_read. intros e. cbv zeta. destruct (dr_messageId (draft_at d e)); [apply sound_update|].
  apply sound_bind. { apply sound_attempt; [apply sound_ask|]. intros r _. apply sound_ret. }
  intros [messageId|m]; [|apply sound_abandon]. apply sound_bind; [apply sound_update|]. intros _. apply sound_update.
Qed.

(** After a card was turned over, the draft is empty. *)
Lemma turned_over_empty taskId d e : wp (rollOver options taskId d) e (fun r e' =>
  r <> Exn out_of_fuel /\ (r = Val tt -> dr_text (draft_at d e') = [])).
Proof.
  unfold rollOver. apply wp_bind. eapply wp_mono; [|apply sound_settle]. intros [[]|m] e' Hr; [|split; [congruence|done]].
  apply wp_update; [done|]. split; [done|]. intros _. unfold draft_at. cbn. rewrite lookup_alter_eq.
  by destruct (ca_objects (en_cards e') !! d).
Qed.
Lemma sound_rollOver taskId d : sound_prog (rollOver options taskId d).
Proof. intros e. eapply wp_mono; [|apply turned_over_empty]. by intros r e' []. Qed.

(** What a round needs: two for each character, or one less on an empty
    card. *)
Definition enough (fuel d : nat) (rest : jstr) (e : engine) : Prop :=
  2 * length rest <= fuel \/ dr_text (draft_at d e) = [] /\ 2 * length rest <= fuel + 1.

Lemma append_loop_ends fuel taskId d rest e : enough fuel d rest e -> fueled (append_loop options fuel taskId d rest) e.
Proof.
  revert rest e. induction fuel as [|fuel IH]; intros rest e He.
  - destruct rest as [|c rest]; [done|]. destruct He as [He|[_ He]]; cbn in He; lia.
  - destruct rest as [|c rest']; [done|]. set (rest := c :: rest') in *.
    change (append_loop options (S fuel) taskId d rest) with
      (read (fun e =>
        let draft := draft_at d e in
        let prefix := match dr_text draft with [] => reopen (dr_cursor draft) | _ => [] end in
        let room := (budget options draft - Z.of_nat (length (dr_text draft)) - Z.of_nat (length prefix))%Z in
        if negb (jeqb (dr_text draft) []) && (room <? 1)%Z then
          bind (rollOver options taskId d) (fun _ => append_loop options fuel taskId d rest)
        else
          let chunk := takeChunk rest (Z.max room 1) (dr_cursor draft) in
          bind (change d (take_in prefix chunk)) (fun _ =>
          bind (draw options taskId d Working) (fun _ =>
          bind (if jeqb (ch_rest chunk) [] then skip_ else rollOver options taskId d) (fun _ =>
          append_loop options fuel taskId d (ch_rest chunk))))) : cmd unit).
    apply wp_read. cbv zeta. destruct (jeqb (dr_text (draft_at d e)) []) eqn:Et; cbn [negb andb].
    2: destruct (_ <? 1)%Z.
    2: { apply wp_bind. eapply wp_mono; [|apply turned_over_empty]. intros [[]|m] e' [Hr Ht]; [|done]. apply IH. right. split; [by apply Ht|].
         destruct He as [He|[He _]]; [lia|]. rewrite He in Et. by apply jeqb_false in Et. }
    all: set (chunk := takeChunk _ _ _); assert (length (ch_rest chunk) < length rest) as Hl by (by apply take_shrinks).
    all: apply wp_bind; eapply wp_mono; [|apply sound_update]; intros [[]|m] e1 Hr; [|done].
    all: apply wp_bind; eapply wp_mono; [|apply sound_draw]; intros [[]|m] e2 Hr2; [|done].
    all: apply wp_bind; eapply wp_mono; [|destruct (jeqb (ch_rest chunk) []); [apply sound_ret|apply sound_rollOver]]; intros [[]|m] e3 Hr3; [|done].
    all: apply IH; left; destruct He as [He|[_ He]]; lia.
Qed.

Lemma appendText_ends taskId channel replyTo text : sound_prog (appendText options taskId channel replyTo text).
Proof.
  unfold appendText. apply sound_bind.
  { apply sound_read. intros e. destruct (draft_of taskId e); [apply sound_ret|]. apply sound_bind; [apply sound_update|]. intros _. apply sound_ret. }
  intros d. apply sound_read. intros e. destruct (dr_abandoned (draft_at d e)); [apply sound_update|].
  apply sound_bind. { apply sound_read. intros e'. destruct (dr_stale (draft_at d e')); [apply sound_rollOver|apply sound_ret]. }
  intros _ e'. apply append_loop_ends. left. lia.
Qed.
End Appends.

(** The fuel of the loop is enough: whatever Discord answers, and whatever the
    engine's other calls do to its state while this one waits, appending a
    text ends in another way than by running out of it. *)
Theorem appending_has_fuel_enough options t taskId channel replyTo text e turns e' p :
  Forall (fun turn => match turn with (_, _, Reply a) => forall r, a r <> Exn out_of_fuel | _ => True end) turns ->
  played issue receive yielded enter ready t (appendText options taskId channel replyTo text) e turns = Some (e', p) ->
  p <> Throw out_of_fuel.
Proof.
  intros Hturns Hp.
  pose proof (played_sound issue receive yielded enter ready not_fuel any_event any_engine anyhow t
    (appendText options taskId channel replyTo text) p e e' turns (fun r _ => r <> Exn out_of_fuel)) as H.
  assert (comes_to p e' (fun r _ => r <> Exn out_of_fuel)) as Hc.
  { apply H; [done|apply appendText_ends| |done]. eapply Forall_impl; [exact Hturns|]. intros [[others now] i] Hi. split; [done|].
    destruct i; cbn; [|done..]. intros r s. apply Hi. }
  intros ->. by apply Hc.
Qed.
